(* ===== verification/_CoqProject ===== *)
-Q . S2P
Prelude.v
Threads.v
Graph.v
Codec.v
Consistency.v
WalFormat.v
WalSink.v
WalThread.v
RecLog.v
IdPool.v
NodeStore.v
EdgeStore.v
ChainThreads.v
EdgeIds.v
Adjacency.v
NodeThreads.v
Crash.v
Utf8.v
PropStore.v
TxManager.v
Transaction.v
Versions.v
Isolation.v
Durable.v
Concurrent.v
ConcReads.v
StoreCrash.v
StoreLog.v
WalLog.v
Snapshot.v
F32.v
Analyzer.v
PropIndex.v
FullText.v
Vector.v
Query.v
Distributed.v
UnitTests.v
ThreadTests.v
IntegrationTests.v
