(* ===== verification/Prelude.v ===== *)
(** * LightGraph: a verification development

    LightGraph ([src/src/]) is an embedded graph database: nodes, edges and
    properties in concurrent maps, each store with its own write-ahead log
    written by a dedicated thread, and transactions with multi-version snapshots
    on top. This library models the storage and transaction layers and proves
    what they promise, and where they do not keep it.

    ** The program's parts

<<
       transaction/mod.rs      Database, Transaction        Transaction.v
         | tickets               | reads, commit
       tx_manager.rs             |                          TxManager.v
                     +-----------+-----------+
       node_store.rs | edge_store.rs | prop_store.rs        NodeStore.v EdgeStore.v PropStore.v
                     +-----------+-----------+
                       send_insert, send_delete, flush      WalSink.v (the contract)
                     wal_thread.rs: channel, loop           WalThread.v
                     wal_thread.rs: record format, replay   WalFormat.v

       query/             builder, plan, hybrid search      Query.v
         | index/property                                   PropIndex.v
         | index/fulltext: analyzer, BM25, search           Analyzer.v FullText.v
         | index/vector: distances, HNSW stub               Vector.v

       snapshot/mod.rs    snapshots of the stores           Snapshot.v
       wal/mod.rs         a log of transaction records      WalLog.v
       store_log.rs       a group-commit log                StoreLog.v
       distributed/       types and stubs                   Distributed.v
>>
    The query side and the last four are separate services of the crate: the
    stores do not call them.

    - [Prelude.v] (this file): results ([io]), machine integers as [Z] with their
      wrap-around, bytes, little-endian words, reading a file front to back, the
      tactics and hint databases of the development.
    - [Threads.v]: the interleavings of programs that share a state.
    - [Graph.v]: [types] of [lib.rs]; [Node] and [Edge] of [storage/mod.rs]; the
      class [Versioned] with the laws of MVCC visibility.
    - [Codec.v]: the serializer (the crate bincode) as a class with its laws.
    - [Consistency.v]: [storage/consistency.rs], the durability levels.
    - [WalFormat.v]: [encode_insert], [encode_delete] and [replay_wal] of
      [storage/wal_thread.rs].
    - [WalSink.v]: what a store may rely on, as a class: guarantees G1 and G2 of
      [consistency.rs]. [LogSink] is its abstract implementation.
    - [WalThread.v]: the thread as a transition system: the channel, the atomics,
      the buffer, and the file as what the OS has and what is on stable storage.
      [thread_sink] discharges the contract for it.
    - [RecLog.v]: a map kept in step with its log, for both record stores.
    - [IdPool.v]: the slab allocator's invariant.
    - [NodeStore.v], [EdgeStore.v], [PropStore.v] (with [Utf8.v]): the stores, a
      function per method; they are verified against [WalSink] and [Codec].
    - [ChainThreads.v]: linking, unlinking and traversals by several threads at
      once, one access to the map at a time.
    - [EdgeIds.v]: the edge allocator, linking and unlinking included.
    - [Adjacency.v]: the node store's chain heads and the edge store's chains
      driven together, as the methods' contracts ask, against a specification of
      a graph as a set of nodes and a list of edges. The crate has no code that
      does this: commit does not link what it inserts (a finding).
    - [NodeThreads.v]: the node store's methods by several threads at once, one
      access to the counters, the queue, the map or the log at a time.
    - [Crash.v]: a store over a log of which a crash keeps a part.
    - [TxManager.v]: the ticket lock, every atomic access a step.
    - [Transaction.v]: buffered writes, the phases of [commit], [Database].
    - [Versions.v], [Isolation.v]: a store seen from every snapshot at once; any
      number of open transactions against a specification that keeps the history
      of versions.
    - [Durable.v]: the same sessions on files, cut by a crash and reopened.
    - [Concurrent.v]: the commits of several threads, interleaved access by access
      with the ticket lock, and a crash of all of them.
    - [ConcReads.v]: what a snapshot reads while such commits run.
    - [StoreCrash.v]: the edge store and the property store after a crash, inside
      a call included.
    - [StoreLog.v], [WalLog.v]: [StoreLog] and [replay_log]; [WalWriter] and
      [WalReader].
    - [Snapshot.v]: [Manifest], snapshot files, [SnapshotManager]; the directory
      keeps a trail of what a killed process can leave behind.
    - [F32.v]: single-precision floats on the Standard Library's IEEE 754
      operations, and the sort of scored results.
    - [PropIndex.v], [Analyzer.v], [FullText.v], [Vector.v], [Query.v]: the
      indexes and the query engine. Bitmaps (crate roaring) are any [FinSet]; the
      dictionary (crate fst), the order of [OrderedFloat], Unicode tables, [ln]
      and the iteration order of hash maps are parameters.
    - [Distributed.v]: the types and stubs of [distributed/].
    - [UnitTests.v]: the repository's unit tests as definitions, evaluated.
      [ThreadTests.v]: those that spawn threads, as programs that pass under every
      interleaving.
    - [IntegrationTests.v]: the tests of [src/tests/], in the same way.

    ** How the model corresponds to the code

    A struct is a record with the same fields; atomics, [DashMap]s and queues are
    its fields' values. A method is a function from the store to its result and
    the new store. [u64] and [u32] are [Z], with [wrap64] and [wrap32] where the
    code's operations wrap. Concurrency is modelled where the program's own
    protocol depends on it: [WalThread.wal_step] interleaves the callers, the
    loop and the clock, [TxManager.tx_step] interleaves every atomic access of
    every ticket holder, [Concurrent.conc_step] the writes, log records and
    flushes of all published commits with it; [ChainThreads.chain_step] does the
    same inside [link_into_chains] and [unlink_from_chains], and
    [NodeThreads.node_step] inside the node store's allocation, insertion, delete
    and compaction. A loop that may
    not end takes fuel; the theorems say how much suffices ([EdgeStore]: the
    number of edges plus one; [replay_wal]: the length of the file;
    [commit_loop]: [SPIN_LIMIT + 1]) or that none does.

    ** What the theorems show

    - The log: what is written is read back, and a log cut by a crash replays to
      a prefix, with the error the code raises for each kind of cut
      ([replay_wal_roundtrip], [replay_wal_cut], [replay_wal_terminates]).
    - The thread: order, flush as the sync point, recovery of a prefix after any
      crash, the crash windows, termination of the calls, as long as no file
      operation fails ([wal_order], [flush_makes_durable],
      [crash_recovers_prefix], [batch_window],
      [immediate_loses_only_the_channel], [methods_complete]; for one that fails
      [failed_write_answered]); under every schedule the thread refines the
      abstract log ([thread_refines_log]).
    - The other logs and snapshots: a crash between the calls of the group-commit
      log loses exactly the records in its buffer, one of [WalWriter] at most 64 KB
      ([group_commit], [wal_log_recovers], [wal_replay_cut]); a snapshot is what
      recovery returns, and a crash inside [take_snapshot] leaves the old or the
      new one except while the manifest is being rewritten
      ([take_snapshot_recovers], [take_snapshot_crash], [take_snapshot_fails]).
    - The stores, opened on a well-formed log (a torn one may be opened too, see
      [torn_log_appended]), property names shorter than 256 bytes: after a flush, a
      reopened store equals the one that was closed, but for nodes written through
      [get_mut] ([node_store_recovers], [edge_store_recovers],
      [prop_store_recovers]); ids are never lost or given twice
      ([node_ids_partition], [edge_ids_partition], [concurrent_inserts], until
      [reopen_overwrites_live_node]); chains are lists that link,
      unlink and traverse as lists do ([link_correct], [unlink_correct],
      [traversal_correct]), and the two stores together implement a graph
      ([graph_refines]); calls of several threads on different chains leave the
      chains of a sequential run and return without waiting
      ([concurrent_chains_serialize], [concurrent_chains_terminate]), their log
      reads back as the memory ([concurrent_chains_recover]), and a traversal next
      to them sees a chain as it was before or after a call
      ([concurrent_walk]; not if the edge is also deleted, [walk_loses_tail]);
      threads on one node store never get the same id, its counters are right
      once they have returned ([concurrent_node_ids]) and its log reads back as
      the memory unless one changes a node that another is inserting or deleting
      ([concurrent_nodes_recover]); after a crash a store reopens to what it held
      after a prefix of its calls, the last flush included, or fails with the
      truncation error ([node_store_crash]), and inside [unlink_from_chains] or
      [insert_row] a part of the call ([edge_store_crash], [prop_store_crash]);
      cells are independent ([cells_independent]); compaction is invisible to active snapshots
      ([compact_correct]).
    - Transactions: tickets finish in order and the next one can always finish
      ([ticket_lock], [finish_in_order], [next_ticket_commits],
      [commit_returns], [rollback_returns]); a commit is invisible before its id
      and complete from it on ([commit_visibility], [commit_protocol]); every open transaction reads
      the version that was current when it began ([snapshot_isolation], for
      creations and deletions: relabelling and properties have no versions, see
      [update_labels_hides]), and only giving up a ticket out of turn hangs
      ([session_hangs]); after a crash the opening fails with the truncation error,
      or what a commit had flushed is there, whatever was running when the crash
      came ([commit_durable]; the commit it interrupts may be recovered in part,
      [torn_commit]). Commits that overlap and write different
      keys are as if run one after another in ticket order, in memory
      ([concurrent_commits_serialize]) and on disk ([concurrent_commit_durable]);
      alone, their steps are those of [commit] ([commit_alone]); a snapshot whose
      commits have made their writes reads the same whatever commits run next to
      it ([concurrent_reads_repeatable], which says what they must not do).
    - Queries: predicates without NOT miss no node that satisfies them, and those
      without [>] and [<] are exact ([evaluate_correct]), the
      builder conjoins its filters ([build_conjunction]), text is cut into the
      terms it is meant to be and every CJK substring can be found
      ([tokenize_terms], [terms_separator], [cjk_substring_found]), searches
      return the matching nodes once, best first, within the limit
      ([search_correct], [hybrid_search_results]), distances are symmetric
      ([distances_symmetric]).
    - What does not hold, each as a theorem about the code as it is:
      [shutdown_discards_queue], [spawn_works_iff], [failed_write_answered],
      [open_after_crash], [torn_log_appended],
      [reopen_overwrites_live_node], [hard_delete_race], [update_labels_hides],
      [relink_diverges], [hard_delete_truncates], [long_names_lost],
      [empty_row_reused], [rollback_again_hangs], [publish_before_apply], [torn_commit],
      [lost_update], [second_delete_revives], [reopen_hides],
      [relabels_out_of_order], [cell_log_race], [free_count_wraps],
      [compact_deletes_live_node], [stale_insert_record], [torn_unlink], [torn_row],
      [sync_now_duplicates], [manifest_not_atomic], [merged_never_replayed],
      [no_snapshot_no_wal], [adaptive_without_predicate],
      [post_unmatched_predicate], [latin_prefix_swallows_cjk], [range_panics].

    Theorems with hypotheses come with a [_witness] that applies them to a
    concrete state. Where a store is generic in its WAL and serializer the
    witnesses use [LogSink] and [countable_codec].

    ** What is not modelled, and why

    bincode and serde_json are parameters. File operations that fail (but for the
    write and fsync of [flush_and_sync] in [wal_thread.rs]; after such a failure
    what [BufWriter] keeps is not tracked), the file operations of [spawn],
    memory allocation limits other than its capacity panics, a channel of
    capacity 0 (a rendezvous; the model never enables a send on one, and
    [contract_ok] asks for 1), and lock contention inside [DashMap] are outside
    the model. [get_mut] is modelled as the change its caller makes through the
    reference, which reaches memory and not the log; the programs of
    [NodeOp] and [EdgeOp] do not contain it, those of [NodeCall] do. [distributed/]
    consists of stubs, modelled as such: [unimplemented!] is [Panic] and there is
    no behaviour to prove. The benchmarks are not modelled: they state nothing. *)

From Stdlib Require Export ZArith Lia.
From Stdlib Require Strings.Byte Strings.String.
From stdpp Require Export base strings numbers countable option gmap list fin_maps.

#[export] Set Default Goal Selector "!".
#[export] Set Warnings "-clear-no-such-hyp,-level-tolerance,-register-all".

Open Scope Z_scope.

(** ** Results

    A Rust function that returns [Result<A, E>] and may also panic. *)

Inductive res (E A : Type) : Type :=
| Ok (a : A)
| Err (e : E)
| Panic.
Arguments Ok {E A} a.
Arguments Err {E A} e.
Arguments Panic {E A}.

(** [x ? k]: Rust's [?] operator. *)
Definition res_bind {E A B : Type} (r : res E A) (k : A -> res E B) : res E B :=
  match r with
  | Ok a => k a
  | Err e => Err e
  | Panic => Panic
  end.

(** [blia]: [lia] after turning boolean comparisons into propositions. *)
Ltac blia :=
  rewrite ?Z.leb_le, ?Z.leb_gt, ?Z.ltb_lt, ?Z.ltb_ge, ?Z.eqb_eq, ?Z.eqb_neq in *;
  lia.

Declare Scope lightgraph_scope.
Delimit Scope lightgraph_scope with lg.
Notation "'let?' x ':=' r 'in' k" := (res_bind r (fun x => k))
  (at level 10, x name, r at level 100, k at level 200) : lightgraph_scope.
Open Scope lightgraph_scope.

(** The kinds of [std::io::Error] the program raises or matches on.
    [OutOfFuel] is not an error of the program: it marks a run of a modelled
    loop that exhausted its fuel, and is proved never to be returned. *)
Inductive io_error : Type :=
| UnexpectedEof
| InvalidData
| NotFound
| OutOfFuel.

#[export] Instance io_error_eq_dec : EqDecision io_error.
Proof. solve_decision. Defined.

Abbreviation io := (res io_error).

(** ** Machine integers: values of [Z], wrapped where the code wraps. *)

Definition u8_max : Z := 2 ^ 8 - 1.
Definition u32_max : Z := 2 ^ 32 - 1.
Definition u64_max : Z := 2 ^ 64 - 1.
(** [usize] and [isize] on the 64-bit targets the crate is built for. *)
Definition usize_max : Z := u64_max.
Definition isize_max : Z := 2 ^ 63 - 1.

Definition wrap8 (z : Z) : Z := z mod 2 ^ 8.
Definition wrap32 (z : Z) : Z := z mod 2 ^ 32.
Definition wrap64 (z : Z) : Z := z mod 2 ^ 64.

Lemma wrap8_small z : 0 <= z < 2 ^ 8 -> wrap8 z = z.
Proof. apply Z.mod_small. Qed.
Lemma wrap32_small z : 0 <= z < 2 ^ 32 -> wrap32 z = z.
Proof. apply Z.mod_small. Qed.
Lemma wrap64_small z : 0 <= z < 2 ^ 64 -> wrap64 z = z.
Proof. apply Z.mod_small. Qed.
Lemma wrap64_range z : 0 <= wrap64 z < 2 ^ 64.
Proof. apply Z.mod_pos_bound. lia. Qed.

(** ** Bytes *)

Abbreviation byte := Byte.byte.
Abbreviation bytes := (list Byte.byte).

#[export] Instance byte_eq_dec : EqDecision byte := Byte.byte_eq_dec.

Definition Z_of_byte (b : byte) : Z := Z.of_N (Byte.to_N b).

(** [z as u8]. *)
Definition byte_of_Z (z : Z) : byte :=
  default Byte.x00 (Byte.of_N (Z.to_N (wrap8 z))).

Lemma Z_of_byte_range b : 0 <= Z_of_byte b < 256.
Proof.
  unfold Z_of_byte. pose proof (Byte.to_N_bounded b). lia.
Qed.

Lemma Z_of_byte_of_Z z : Z_of_byte (byte_of_Z z) = z mod 256.
Proof.
  unfold byte_of_Z, Z_of_byte, wrap8. change (2 ^ 8) with 256.
  pose proof (Z.mod_pos_bound z 256 ltac:(lia)) as Hz.
  destruct (Byte.of_N (Z.to_N (z mod 256))) as [b|] eqn:Hb; simpl.
  - apply Byte.to_of_N in Hb. rewrite Hb. lia.
  - apply Byte.of_N_None_iff in Hb. lia.
Qed.

Lemma byte_of_Z_of_byte b : byte_of_Z (Z_of_byte b) = b.
Proof.
  unfold byte_of_Z, Z_of_byte. rewrite wrap8_small.
  - rewrite N2Z.id, Byte.of_to_N. done.
  - pose proof (Byte.to_N_bounded b). lia.
Qed.

#[export] Instance byte_countable : Countable byte.
Proof.
  refine (inj_countable' Z_of_byte byte_of_Z _). apply byte_of_Z_of_byte.
Defined.

(** ** Little-endian words: [to_le_bytes] and [from_le_bytes] *)

Fixpoint le_bytes (n : nat) (z : Z) : bytes :=
  match n with
  | O => []
  | S n' => byte_of_Z z :: le_bytes n' (z / 256)
  end.

Fixpoint le_val (bs : bytes) : Z :=
  match bs with
  | [] => 0
  | b :: bs' => Z_of_byte b + 256 * le_val bs'
  end.

Lemma length_le_bytes n z : length (le_bytes n z) = n.
Proof. revert z. induction n; simpl; auto. Qed.

Lemma pow256_succ n : 256 ^ Z.of_nat (S n) = 256 * 256 ^ Z.of_nat n.
Proof. rewrite Nat2Z.inj_succ, Z.pow_succ_r; lia. Qed.

Lemma le_val_bytes n z : le_val (le_bytes n z) = z mod 256 ^ Z.of_nat n.
Proof.
  revert z. induction n as [|n IH]; intros z.
  - simpl. rewrite Z.mod_1_r. done.
  - cbn [le_bytes le_val]. rewrite IH, Z_of_byte_of_Z, pow256_succ.
    rewrite Z.rem_mul_r; lia.
Qed.

Lemma le_val_bytes_small n z :
  0 <= z < 256 ^ Z.of_nat n -> le_val (le_bytes n z) = z.
Proof. intros Hz. rewrite le_val_bytes. by apply Z.mod_small. Qed.

Lemma le_val_range bs : 0 <= le_val bs < 256 ^ Z.of_nat (length bs).
Proof.
  induction bs as [|b bs IH]; cbn [le_val length].
  - simpl. lia.
  - rewrite pow256_succ. pose proof (Z_of_byte_range b). lia.
Qed.

Lemma le_bytes_val bs : le_bytes (length bs) (le_val bs) = bs.
Proof.
  induction bs as [|b bs IH]; cbn [le_bytes le_val length]; [done|].
  pose proof (Z_of_byte_range b) as Hb.
  replace ((Z_of_byte b + 256 * le_val bs) / 256) with (le_val bs)
    by (apply Z.div_unique with (Z_of_byte b); lia).
  rewrite IH. f_equal. rewrite <-(byte_of_Z_of_byte b) at 2.
  unfold byte_of_Z, wrap8. do 3 f_equal. change (2 ^ 8) with 256.
  rewrite (Z.mul_comm 256), Z.mod_add by lia. done.
Qed.

Definition u32_le (z : Z) : bytes := le_bytes 4 z.
Definition u64_le (z : Z) : bytes := le_bytes 8 z.

Lemma length_u32_le z : length (u32_le z) = 4%nat.
Proof. apply length_le_bytes. Qed.
Lemma length_u64_le z : length (u64_le z) = 8%nat.
Proof. apply length_le_bytes. Qed.
Lemma le_val_u32 z : le_val (u32_le z) = wrap32 z.
Proof. apply le_val_bytes. Qed.
Lemma le_val_u64 z : le_val (u64_le z) = wrap64 z.
Proof. apply le_val_bytes. Qed.

Lemma byte_of_Z_mod z : byte_of_Z (z mod 256) = byte_of_Z z.
Proof. unfold byte_of_Z, wrap8. change (2 ^ 8) with 256. by rewrite Z.mod_mod by lia. Qed.

Lemma byte_of_Z_eq z1 z2 : z1 mod 256 = z2 mod 256 -> byte_of_Z z1 = byte_of_Z z2.
Proof. intros Hz. by rewrite <-(byte_of_Z_mod z1), Hz, byte_of_Z_mod. Qed.

(** Only the low [n] bytes matter. *)
Lemma le_bytes_mod n z : le_bytes n (z mod 256 ^ Z.of_nat n) = le_bytes n z.
Proof.
  revert z. induction n as [|n IH]; intros z; cbn [le_bytes]; [done|].
  rewrite pow256_succ, Z.rem_mul_r by lia. f_equal.
  - apply byte_of_Z_eq. rewrite (Z.mul_comm 256), Z.mod_add, Z.mod_mod by lia. done.
  - rewrite (Z.mul_comm 256), Z.div_add, (Z.div_small (z mod 256)) by
      (try apply Z.mod_pos_bound; lia). apply IH.
Qed.

Lemma u32_le_wrap z : u32_le (wrap32 z) = u32_le z.
Proof. apply (le_bytes_mod 4). Qed.
Lemma u64_le_wrap z : u64_le (wrap64 z) = u64_le z.
Proof. apply (le_bytes_mod 8). Qed.

#[global] Opaque byte_of_Z Z_of_byte u32_le u64_le.

(** ** Reading a file front to back

    [read_exact n bs] is [Read::read_exact] on a buffer of [n] bytes when [bs]
    is what is left of the file: the bytes read and the rest, or [None] for
    [ErrorKind::UnexpectedEof] (the position is then unspecified). *)

Definition read_exact (n : Z) (bs : bytes) : option (bytes * bytes) :=
  if n <=? Z.of_nat (length bs)
  then Some (take (Z.to_nat n) bs, drop (Z.to_nat n) bs)
  else None.

Lemma read_exact_app n a b :
  n = Z.of_nat (length a) -> read_exact n (a ++ b) = Some (a, b).
Proof.
  intros ->. unfold read_exact. rewrite length_app, Nat2Z.id.
  destruct (_ <=? _) eqn:?; [|blia].
  by rewrite take_app_length, drop_app_length.
Qed.

Lemma read_exact_short n bs : Z.of_nat (length bs) < n -> read_exact n bs = None.
Proof. intros H. unfold read_exact. destruct (n <=? _) eqn:?; [blia|done]. Qed.

Lemma read_exact_Some n bs a b :
  0 <= n -> read_exact n bs = Some (a, b) ->
  bs = a ++ b /\ Z.of_nat (length a) = n.
Proof.
  unfold read_exact. intros Hn H.
  destruct (n <=? _) eqn:Hle; simplify_eq.
  split; [by rewrite take_drop|]. rewrite length_take. blia.
Qed.

Lemma read_exact_None n bs : read_exact n bs = None -> Z.of_nat (length bs) < n.
Proof. unfold read_exact. destruct (_ <=? _) eqn:?; [done|]. blia. Qed.

(** ** Lists *)

Lemma exists_last_or_nil {A} (l : list A) : l = [] \/ exists l' x, l = l' ++ [x].
Proof. induction l as [|x l _] using rev_ind; eauto. Qed.

Lemma drop_app_at {A} (l a b : list A) n : l = a ++ b -> length a = n -> drop n l = b.
Proof. intros -> <-. apply drop_app_length. Qed.

Lemma take_app_at {A} (l a b : list A) n : l = a ++ b -> length a = n -> take n l = a.
Proof. intros -> <-. apply take_app_length. Qed.

(** ** Hints and tactics shared by the development *)

Create HintDb lightgraph.
Create Rewrite HintDb lightgraph.
#[export] Hint Resolve wrap64_range Z_of_byte_range le_val_range : lightgraph.
#[export] Hint Rewrite length_le_bytes length_u32_le length_u64_le
  le_val_u32 le_val_u64 u32_le_wrap u64_le_wrap : lightgraph.

(** Case analysis on every [match] of the goal, innermost last. *)
Ltac cases := repeat case_match; simplify_eq; try done.

(** Split a conjunction of facts, closing the easy ones. *)
Ltac split_done := repeat match goal with |- _ /\ _ => split end; try done; try lia.

(** Close a decidable, closed goal by evaluation. *)
Ltac by_decide := apply (bool_decide_unpack _); vm_compute; exact I.
