(* ===== verification/Threads.v ===== *)
(** * Programs that share a state

    The interleavings of several threads: each is a program whose steps make one
    access to the shared state, and any thread that is not done can run next. *)

From S2P Require Export Prelude.

(** ** Interleavings

    [step p s]: the next access of a thread at [p] to the state [s]; [None] once
    it has ended. *)

Section threads.
Context {P S : Type} (step : P -> S -> option (P * S)).

Inductive threads_step : list P * S -> list P * S -> Prop :=
| thread_runs ps i p p' s s' :
    ps !! i = Some p -> step p s = Some (p', s') -> threads_step (ps, s) (<[i := p']> ps, s').

(** An invariant of all the programs and the state. *)
Lemma threads_invariant (inv : list P -> S -> Prop) ps s ps' s' :
  (forall ps s i p p' s', inv ps s -> ps !! i = Some p -> step p s = Some (p', s') ->
    inv (<[i := p']> ps) s') ->
  inv ps s -> rtc threads_step (ps, s) (ps', s') -> inv ps' s'.
Proof.
  intros Hstep Hinv Hrun.
  assert (forall c c', rtc threads_step c c' -> inv c.1 c.2 -> inv c'.1 c'.2) as Hall.
  { induction 1 as [|c1 c2 c3 H1 _ IH]; [done|]. intros Hc. apply IH. destruct H1. by eapply Hstep. }
  by apply (Hall (ps, s) (ps', s')).
Qed.
End threads.

Definition total {P} (f : P -> nat) (ps : list P) : nat := sum_list_with f ps.

Lemma total_insert {P} (f : P -> nat) ps i p p' :
  ps !! i = Some p -> (total f (<[i := p']> ps) + f p = total f ps + f p')%nat.
Proof.
  unfold total. revert i. induction ps as [|q ps IH]; intros [|i] Hi; simpl in *; simplify_eq; [lia|].
  specialize (IH i Hi). lia.
Qed.

Lemma total_lookup {P} (f : P -> nat) ps i p : ps !! i = Some p -> (f p <= total f ps)%nat.
Proof.
  unfold total. revert i. induction ps as [|q ps IH]; intros [|i] Hi; simpl in *; simplify_eq; [lia|].
  specialize (IH i Hi). lia.
Qed.

Lemma total_done {P} (f : P -> nat) ps : Forall (fun p => f p = 0%nat) ps -> total f ps = 0%nat.
Proof. unfold total. induction 1 as [|p ps Hp _ IH]; simpl; [done|]. lia. Qed.

Lemma total_le {P} (f : P -> nat) ps n : Forall (fun p => f p <= n)%nat ps -> (total f ps <= length ps * n)%nat.
Proof. unfold total. induction 1 as [|p ps Hp _ IH]; simpl; lia. Qed.

(** What the programs own, all together, before and after one of them moves. *)
Lemma owned_split {P A} (f : P -> list A) (ps : list P) i p :
  ps !! i = Some p ->
  exists l, (ps ≫= f) ≡ₚ f p ++ l /\ forall p', (<[i := p']> ps ≫= f) ≡ₚ f p' ++ l.
Proof.
  intros Hi. exists ((take i ps ≫= f) ++ (drop (Datatypes.S i) ps ≫= f)). split.
  - rewrite <-(take_drop_middle _ _ _ Hi) at 1. rewrite bind_app. simpl. apply Permutation_app_swap_app.
  - intros p'. rewrite (insert_take_drop ps i p') by by eapply lookup_lt_Some.
    rewrite bind_app. simpl. apply Permutation_app_swap_app.
Qed.

(** ** Running one thread, and counting steps *)

Section runs.
Context {P S : Type} (step : P -> S -> option (P * S)).

(** Steps of one program with nobody in between. *)
Definition alone (c c' : P * S) : Prop := step c.1 c.2 = Some c'.

Lemma threads_alone (ps : list P) i p s p' s' :
  ps !! i = Some p -> rtc alone (p, s) (p', s') ->
  rtc (threads_step step) (ps, s) (<[i := p']> ps, s').
Proof.
  intros Hi Hrun.
  assert (forall c c', rtc alone c c' -> forall qs, qs !! i = Some c.1 ->
    rtc (threads_step step) (qs, c.2) (<[i := c'.1]> qs, c'.2)) as Hall.
  { induction 1 as [c|c1 [p2 s2] c3 H1 _ IH]; intros qs Hqs; [by rewrite list_insert_id|].
    eapply rtc_l; [by apply (thread_runs step qs i c1.1 p2 c1.2 s2)|].
    rewrite <-(list_insert_insert_eq qs i c3.1 p2). apply IH.
    apply list_lookup_insert_eq. by eapply lookup_lt_Some. }
  by apply (Hall (p, s) (p', s')).
Qed.

(** The run of a schedule: who moves, step by step. *)
Fixpoint run_schedule (sched : list nat) (c : list P * S) : option (list P * S) :=
  match sched with
  | [] => Some c
  | i :: sched' =>
      p ← c.1 !! i;
      '(p', s') ← step p c.2;
      run_schedule sched' (<[i := p']> c.1, s')
  end.

Lemma run_schedule_steps sched c c' :
  run_schedule sched c = Some c' -> nsteps (threads_step step) (length sched) c c'.
Proof.
  revert c. induction sched as [|i sched IH]; intros [ps s] Hrun; simpl in *.
  { injection Hrun as <-. constructor. }
  destruct (ps !! i) as [p|] eqn:Hi; [|done]. simpl in Hrun.
  destruct (step p s) as [[p' s']|] eqn:Hs; [|done]. simpl in Hrun.
  eapply nsteps_l; [by eapply thread_runs|by apply IH].
Qed.

Lemma run_schedule_rtc sched c c' : run_schedule sched c = Some c' -> rtc (threads_step step) c c'.
Proof. intros Hrun. by eapply rtc_nsteps_2, run_schedule_steps. Qed.

(** A bound on the number of steps: the rank of the thread that runs sinks. *)
Lemma threads_bound (inv : list P -> S -> Prop) (rank : P -> nat) ps s ps' s' n :
  (forall ps s i p p' s', inv ps s -> ps !! i = Some p -> step p s = Some (p', s') ->
    inv (<[i := p']> ps) s' /\ (rank p' < rank p)%nat) ->
  inv ps s -> nsteps (threads_step step) n (ps, s) (ps', s') -> (n + total rank ps' <= total rank ps)%nat.
Proof.
  intros Hstep Hinv Hrun.
  assert (forall c c', nsteps (threads_step step) n c c' -> inv c.1 c.2 ->
    (n + total rank c'.1 <= total rank c.1)%nat) as Hall.
  { clear Hrun. induction 1 as [|n c1 c2 c3 H1 _ IH]; [done|]. intros Hc.
    destruct H1 as [qs i p p' s1 s2 Hi Hs]. cbn [fst snd] in *.
    destruct (Hstep _ _ _ _ _ _ Hc Hi Hs) as [Hinv' Hlt]. specialize (IH Hinv').
    pose proof (total_insert rank qs i p p' Hi). lia. }
  by apply (Hall (ps, s) (ps', s')).
Qed.
End runs.
