(* ===== verification/Graph.v ===== *)
(** * The graph's core types ([src/src/lib.rs], [src/src/storage/mod.rs])

    The type aliases and sentinels of [lib.rs], the [Node] and [Edge] records,
    and the MVCC visibility test that both carry. The class [Versioned] states
    what the rest of the program relies on: a record is visible from its
    creating transaction up to, and excluding, its deleting transaction. *)

From S2P Require Export Prelude.

Open Scope Z_scope.

(** ** [types] *)

Definition NodeId : Type := Z.
Definition EdgeId : Type := Z.
Definition LabelId : Type := Z.
Definition TypeId : Type := Z.
Definition TxId : Type := Z.

Definition NULL_NODE : Z := u64_max.
Definition NULL_EDGE : Z := u64_max.
Definition MAX_TX_ID : Z := u64_max.

(** ** [Node] and [Edge] *)

Module Node.

Record Node : Type := mkNode {
  id : Z;
  labels : list Z;
  first_out : Z;
  first_in : Z;
  props_row : Z;
  created_tx : Z;
  deleted_tx : Z
}.

#[export] Instance Node_eq_dec : EqDecision Node.
Proof. solve_decision. Defined.

#[export] Instance Node_countable : Countable Node.
Proof.
  refine (inj_countable
    (fun n => [id n; first_out n; first_in n; props_row n; created_tx n; deleted_tx n] ++ labels n)
    (fun fs => match fs with
               | i :: fo :: fi :: pr :: ct :: dt :: ls => Some (mkNode i ls fo fi pr ct dt)
               | _ => None
               end) _).
  by intros [].
Defined.

Definition new (id : Z) (labels : list Z) (props_row created_tx : Z) : Node :=
  {| id := id; labels := labels; first_out := NULL_EDGE; first_in := NULL_EDGE;
     props_row := props_row; created_tx := created_tx; deleted_tx := MAX_TX_ID |}.

Definition is_alive (n : Node) (tx : Z) : bool :=
  (created_tx n <=? tx) && (tx <? deleted_tx n).

Definition mark_deleted (n : Node) (tx : Z) : Node :=
  {| id := id n; labels := labels n; first_out := first_out n;
     first_in := first_in n; props_row := props_row n;
     created_tx := created_tx n; deleted_tx := tx |}.

End Node.

Module Edge.

Record Edge : Type := mkEdge {
  id : Z;
  src : Z;
  dst : Z;
  etype : Z;
  next_out : Z;
  next_in : Z;
  props_row : Z;
  created_tx : Z;
  deleted_tx : Z
}.

#[export] Instance Edge_eq_dec : EqDecision Edge.
Proof. solve_decision. Defined.

#[export] Instance Edge_countable : Countable Edge.
Proof.
  refine (inj_countable
    (fun e => [id e; src e; dst e; etype e; next_out e; next_in e; props_row e;
               created_tx e; deleted_tx e])
    (fun fs => match fs with
               | [i; s; d; t; no; ni; pr; ct; dt] => Some (mkEdge i s d t no ni pr ct dt)
               | _ => None
               end) _).
  by intros [].
Defined.

Definition new (id src dst etype props_row created_tx : Z) : Edge :=
  {| id := id; src := src; dst := dst; etype := etype; next_out := NULL_EDGE;
     next_in := NULL_EDGE; props_row := props_row; created_tx := created_tx;
     deleted_tx := MAX_TX_ID |}.

Definition is_alive (e : Edge) (tx : Z) : bool :=
  (created_tx e <=? tx) && (tx <? deleted_tx e).

Definition mark_deleted (e : Edge) (tx : Z) : Edge :=
  {| id := id e; src := src e; dst := dst e; etype := etype e;
     next_out := next_out e; next_in := next_in e; props_row := props_row e;
     created_tx := created_tx e; deleted_tx := tx |}.

End Edge.

Abbreviation Node := Node.Node.
Abbreviation Edge := Edge.Edge.
Export (hints) Node Edge.

(** ** MVCC visibility *)

(** What a versioned record promises: an interval of transaction ids. *)
Class Versioned (A : Type) : Type := {
  v_created : A -> Z;
  v_deleted : A -> Z;
  v_alive : A -> Z -> bool;
  v_mark_deleted : A -> Z -> A
}.

Class VersionedLaws (A : Type) `{Versioned A} : Prop := {
  v_alive_interval a tx : v_alive a tx = true <-> v_created a <= tx < v_deleted a;
  v_mark_created a tx : v_created (v_mark_deleted a tx) = v_created a;
  v_mark_deleted_at a tx : v_deleted (v_mark_deleted a tx) = tx
}.

#[export] Instance node_versioned : Versioned Node := {
  v_created := Node.created_tx; v_deleted := Node.deleted_tx;
  v_alive := Node.is_alive; v_mark_deleted := Node.mark_deleted
}.

#[export] Instance edge_versioned : Versioned Edge := {
  v_created := Edge.created_tx; v_deleted := Edge.deleted_tx;
  v_alive := Edge.is_alive; v_mark_deleted := Edge.mark_deleted
}.

#[export] Instance node_versioned_laws : VersionedLaws Node.
Proof.
  split; [|done..]. intros n tx. simpl. unfold Node.is_alive.
  rewrite andb_true_iff, Z.leb_le, Z.ltb_lt. done.
Qed.

#[export] Instance edge_versioned_laws : VersionedLaws Edge.
Proof.
  split; [|done..]. intros e tx. simpl. unfold Edge.is_alive.
  rewrite andb_true_iff, Z.leb_le, Z.ltb_lt. done.
Qed.

(** The interval test at the two record types. *)
Lemma node_alive_iff (n : Node) tx :
  Node.is_alive n tx = true <-> Node.created_tx n <= tx < Node.deleted_tx n.
Proof. exact (v_alive_interval (A := Node) n tx). Qed.
Lemma edge_alive_iff (e : Edge) tx :
  Edge.is_alive e tx = true <-> Edge.created_tx e <= tx < Edge.deleted_tx e.
Proof. exact (v_alive_interval (A := Edge) e tx). Qed.

Section visibility.
Context {A : Type} `{VersionedLaws A}.
Implicit Types (a : A) (s t tx : Z).

Lemma v_alive_false a tx :
  v_alive a tx = false <-> tx < v_created a \/ v_deleted a <= tx.
Proof.
  rewrite <-not_true_iff_false, v_alive_interval. lia.
Qed.

(** Visibility of a live record is upward closed up to its deletion. *)
Lemma v_alive_mono a s t :
  v_alive a s = true -> s <= t -> t < v_deleted a -> v_alive a t = true.
Proof. rewrite !v_alive_interval. lia. Qed.

(** Deleting at [tx] is invisible to every snapshot before [tx] that saw the
    record before its former deletion, and hides it from [tx] on. *)
Lemma v_mark_deleted_before a tx s :
  s < tx -> s < v_deleted a -> v_alive (v_mark_deleted a tx) s = v_alive a s.
Proof.
  intros ??. apply eq_true_iff_eq.
  rewrite !v_alive_interval, v_mark_created, v_mark_deleted_at. lia.
Qed.

Lemma v_mark_deleted_after a tx s :
  tx <= s -> v_alive (v_mark_deleted a tx) s = false.
Proof. intros ?. rewrite v_alive_false, v_mark_deleted_at. lia. Qed.
End visibility.

#[export] Hint Resolve v_mark_deleted_after v_mark_deleted_before : lightgraph.
