(* ===== verification/Codec.v ===== *)
(** * The serializer interface

    The stores persist their records with [bincode], a third-party crate, so
    serialization is a parameter of the model: the class [Codec] has the two
    functions the code calls, and [CodecLaws] the documented behaviour the code
    relies on (serializing into a [Vec] succeeds, and deserializing what was
    serialized gives the value back). [countable_codec] is one concrete pair of
    functions with these laws, available for every [Countable] type; it is used
    to evaluate the model, not to describe bincode's format. *)

From S2P Require Export Prelude.
From Stdlib Require Import SpecFloat.

Open Scope Z_scope.

Class Codec (A : Type) : Type := {
  serialize : A -> option bytes;
  deserialize : bytes -> option A
}.

Class CodecLaws (A : Type) `{Codec A} : Prop := {
  serialize_total (a : A) : is_Some (serialize a);
  deserialize_serialize (a : A) bs : serialize a = Some bs -> deserialize bs = Some a
}.

Lemma serialize_inj {A} `{CodecLaws A} (a1 a2 : A) bs :
  serialize a1 = Some bs -> serialize a2 = Some bs -> a1 = a2.
Proof.
  intros H1%deserialize_serialize H2%deserialize_serialize. congruence.
Qed.

(** ** A concrete codec *)

Section countable_codec.
Context {A : Type} `{Countable A}.

(** The bytes it takes to hold the bits of [p]. *)
Definition bytes_of_pos (p : positive) : bytes := le_bytes (S (Pos.size_nat p / 8)) (Zpos p).

Definition pos_of_bytes (bs : bytes) : option positive :=
  match le_val bs with Zpos p => Some p | _ => None end.

Lemma pos_size_bound p : Zpos p < 256 ^ Z.of_nat (S (Pos.size_nat p / 8)).
Proof.
  assert (Zpos p < 2 ^ Z.of_nat (Pos.size_nat p)) as Hp.
  { induction p as [p IH|p IH|]; cbn [Pos.size_nat]; rewrite ?Nat2Z.inj_succ, ?Z.pow_succ_r by lia; lia. }
  change 256 with (2 ^ 8). rewrite <-Z.pow_mul_r by lia.
  eapply Z.lt_le_trans; [exact Hp|]. apply Z.pow_le_mono_r; [lia|].
  pose proof (Nat.div_mod_eq (Pos.size_nat p) 8). pose proof (Nat.mod_upper_bound (Pos.size_nat p) 8). lia.
Qed.

Lemma pos_of_bytes_of_pos p : pos_of_bytes (bytes_of_pos p) = Some p.
Proof.
  unfold pos_of_bytes, bytes_of_pos. rewrite le_val_bytes_small; [done|].
  pose proof (pos_size_bound p). lia.
Qed.

Definition countable_codec : Codec A := {|
  serialize a := Some (bytes_of_pos (encode a));
  deserialize bs := pos_of_bytes bs ≫= decode
|}.

Lemma countable_codec_laws : @CodecLaws A countable_codec.
Proof.
  split; simpl; [eauto|]. intros a bs [= <-].
  rewrite pos_of_bytes_of_pos. simpl. apply decode_encode.
Qed.
End countable_codec.

(** ** Floats

    An [f64] or [f32] is a [spec_float], the Standard Library's IEEE 754 data
    type; a NaN has no payload there. *)

#[export] Instance spec_float_eq_dec : EqDecision spec_float.
Proof. solve_decision. Defined.

#[export] Instance spec_float_countable : Countable spec_float.
Proof.
  refine (inj_countable'
    (fun f => match f with
              | S754_zero s => inl (inl s)
              | S754_infinity s => inl (inr s)
              | S754_nan => inr None
              | S754_finite s m e => inr (Some (s, m, e))
              end)
    (fun x => match x with
              | inl (inl s) => S754_zero s
              | inl (inr s) => S754_infinity s
              | inr None => S754_nan
              | inr (Some (s, m, e)) => S754_finite s m e
              end) _).
  by intros [].
Defined.
