(* ===== verification/Consistency.v ===== *)
(** * The durability contract ([src/src/storage/consistency.rs])

    [Durability], its three derived parameters of the WAL thread, and the
    [Consistency] presets. A [Duration] is its number of nanoseconds. *)

From stdpp Require Import pretty.
From S2P Require Export Prelude.

Open Scope Z_scope.

Definition duration_from_millis (ms : Z) : Z := ms * 1000000.
(** [Duration::MAX]: [u64::MAX] seconds and 999999999 nanoseconds. *)
Definition duration_max : Z := u64_max * 1000000000 + 999999999.

Inductive Durability : Type :=
| Immediate
| Batch (interval_ms bytes : Z)
| Async.

#[export] Instance Durability_eq_dec : EqDecision Durability.
Proof. solve_decision. Defined.

(** [impl Default for Durability] *)
Definition Durability_default : Durability := Batch 5 65536.

Definition crash_window_description (d : Durability) : string :=
  match d with
  | Immediate => "zero (every write is fsynced)"
  | Batch interval_ms _ => "at most " +:+ pretty interval_ms +:+ "ms of writes"
  | Async => "unbounded on power loss; zero on process restart"
  end.

Definition expected_throughput (d : Durability) : string :=
  match d with
  | Immediate => "~500 ops/s"
  | Batch _ _ => "~40,000 ops/s"
  | Async => "~400,000+ ops/s"
  end.

Definition batch_timeout (d : Durability) : Z :=
  match d with
  | Immediate => 0
  | Batch interval_ms _ => duration_from_millis interval_ms
  | Async => duration_max
  end.

Definition batch_bytes (d : Durability) : Z :=
  match d with
  | Immediate => 1
  | Batch _ bytes => bytes
  | Async => usize_max
  end.

Definition fsync_enabled (d : Durability) : bool :=
  match d with
  | Async => false
  | _ => true
  end.

Record Consistency : Type := mkConsistency {
  durability : Durability;
  wal_channel_capacity : Z
}.

(** [impl Default for Consistency] *)
Definition Consistency_default : Consistency :=
  {| durability := Durability_default; wal_channel_capacity := 4096 |}.

Definition immediate : Consistency :=
  {| durability := Immediate; wal_channel_capacity := 1024 |}.

Definition balanced : Consistency := Consistency_default.

Definition high_throughput : Consistency :=
  {| durability := Async; wal_channel_capacity := 8192 |}.

Definition batch (interval_ms bytes : Z) : Consistency :=
  {| durability := Batch interval_ms bytes; wal_channel_capacity := 4096 |}.

(** A batch interval is a [u64] number of milliseconds, a batch size a
    [usize]. *)
Definition durability_wf (d : Durability) : Prop :=
  match d with
  | Batch interval_ms bytes =>
      0 <= interval_ms <= u64_max /\ 0 <= bytes <= usize_max
  | _ => True
  end.

Lemma batch_timeout_nonneg d : durability_wf d -> 0 <= batch_timeout d.
Proof.
  destruct d; simpl; unfold duration_from_millis, duration_max, u64_max; lia.
Qed.

#[export] Hint Resolve batch_timeout_nonneg : lightgraph.
