(* ===== verification/WalFormat.v ===== *)
(** * The WAL record format ([src/src/storage/wal_thread.rs])

    [encode_insert], [encode_delete] and [replay_wal] over the bytes of a log
    file, with a reader [read_records] that says what a log holds. *)

From S2P Require Export Prelude.

Open Scope Z_scope.

(** [b"LGDB"] *)
Definition MAGIC : bytes := [Byte.x4c; Byte.x47; Byte.x44; Byte.x42].

(** The commands of the WAL channel; the reply channel of [Flush] and
    [Shutdown] is a token that names it. *)
Inductive WalCmd : Type :=
| Insert (id : Z) (record : bytes)
| Delete (id : Z)
| Flush (reply : nat)
| Shutdown (reply : nat).

#[export] Instance WalCmd_eq_dec : EqDecision WalCmd.
Proof. solve_decision. Defined.

(** ** Encoding *)

Definition encode_insert (buf : bytes) (id : Z) (record : bytes) : bytes :=
  let total := 1 + 8 + Z.of_nat (length record) in
  buf ++ u32_le (wrap32 total) ++ [byte_of_Z 1] ++ u64_le id ++ record.

Definition encode_delete (buf : bytes) (id : Z) : bytes :=
  let total := 1 + 8 in
  buf ++ u32_le (wrap32 total) ++ [byte_of_Z 2] ++ u64_le id.

(** ** Replay *)

Section replay.
Context {S : Type} (on_record : Z -> Z -> bytes -> S -> S).

(** The [loop] of [replay_wal]; the state of the callback is threaded
    through, so it keeps what was recorded before an error. *)
Fixpoint replay_loop (fuel : nat) (file : bytes) (s : S) : io unit * S :=
  match fuel with
  | O => (Err OutOfFuel, s)
  | Datatypes.S fuel' =>
      match read_exact 4 file with
      | None => (Ok tt, s)
      | Some (len_buf, file1) =>
          let total := le_val len_buf in
          if total <? 9 then (Err InvalidData, s)
          else
            match read_exact 9 file1 with
            | None => (Err UnexpectedEof, s)
            | Some (header, file2) =>
                let opcode := le_val (take 1 header) in
                let id := le_val (drop 1 header) in
                let payload_len := total - 9 in
                match read_exact payload_len file2 with
                | None => (Err UnexpectedEof, s)
                | Some (payload, file3) =>
                    replay_loop fuel' file3 (on_record opcode id payload s)
                end
            end
      end
  end.

Definition replay_wal (file : bytes) (s : S) : io unit * S :=
  match read_exact 4 file with
  | None => (Ok tt, s)
  | Some (magic, rest) =>
      if decide (magic = MAGIC) then replay_loop (Datatypes.S (length rest)) rest s
      else (Err InvalidData, s)
  end.
End replay.

(** ** What a log holds *)

(** One data record: what replay hands to its callback. *)
Record WalRec : Type := mkRec { r_opcode : Z; r_id : Z; r_payload : bytes }.

#[export] Instance WalRec_eq_dec : EqDecision WalRec.
Proof. solve_decision. Defined.

(** The records a command leaves in the log, and their bytes. *)
Definition cmd_recs (c : WalCmd) : list WalRec :=
  match c with
  | Insert id record => [mkRec 1 id record]
  | Delete id => [mkRec 2 id []]
  | Flush _ | Shutdown _ => []
  end.

Definition encode_cmd (c : WalCmd) : bytes :=
  match c with
  | Insert id record => encode_insert [] id record
  | Delete id => encode_delete [] id
  | Flush _ | Shutdown _ => []
  end.

Definition encode_cmds (cs : list WalCmd) : bytes := concat (map encode_cmd cs).
Definition cmds_recs (cs : list WalCmd) : list WalRec := concat (map cmd_recs cs).

Definition encode_rec (r : WalRec) : bytes :=
  u32_le (9 + Z.of_nat (length (r_payload r))) ++ [byte_of_Z (r_opcode r)] ++
  u64_le (r_id r) ++ r_payload r.

Definition encode_recs (rs : list WalRec) : bytes := concat (map encode_rec rs).

(** A record the format can hold: a [u8] opcode, a [u64] id and a total length
    below [2^32] (the code truncates the length to a [u32]). *)
Definition rec_ok (r : WalRec) : Prop :=
  0 <= r_opcode r < 256 /\ 0 <= r_id r < 2 ^ 64 /\
  9 + Z.of_nat (length (r_payload r)) < 2 ^ 32.

Definition rec_okb (r : WalRec) : bool :=
  (0 <=? r_opcode r) && (r_opcode r <? 256) && (0 <=? r_id r) && (r_id r <? 2 ^ 64) &&
  (9 + Z.of_nat (length (r_payload r)) <? 2 ^ 32).

Lemma rec_okb_spec r : rec_okb r = true <-> rec_ok r.
Proof.
  unfold rec_okb, rec_ok. rewrite !andb_true_iff, !Z.leb_le, !Z.ltb_lt. tauto.
Qed.

Lemma rec_okb_all rs : forallb rec_okb rs = true -> Forall rec_ok rs.
Proof.
  rewrite forallb_forall. intros Hrs. apply Forall_forall. intros r Hr.
  apply rec_okb_spec, Hrs. by apply list_elem_of_In.
Qed.

#[export] Instance rec_ok_dec r : Decision (rec_ok r) :=
  match bool_dec (rec_okb r) true with
  | left H => left (proj1 (rec_okb_spec r) H)
  | right H => right (fun Hr => H (proj2 (rec_okb_spec r) Hr))
  end.

Definition cmd_ok (c : WalCmd) : Prop := Forall rec_ok (cmd_recs c).

#[export] Instance cmd_ok_dec c : Decision (cmd_ok c) := ltac:(unfold cmd_ok; apply _).

(** ** Lemmas on the encoding *)

Lemma length_encode_rec r :
  length (encode_rec r) = (13 + length (r_payload r))%nat.
Proof.
  unfold encode_rec. rewrite !length_app. autorewrite with lightgraph. simpl. lia.
Qed.

Lemma encode_cmd_recs c : encode_cmd c = encode_recs (cmd_recs c).
Proof.
  unfold encode_recs. destruct c as [id rec|id| |];
    cbn [cmd_recs encode_cmd map concat]; [| |done..]; rewrite app_nil_r;
    unfold encode_insert, encode_delete, encode_rec;
    cbn [r_opcode r_id r_payload app]; rewrite ?app_nil_r; by rewrite u32_le_wrap.
Qed.

Lemma encode_recs_app rs1 rs2 :
  encode_recs (rs1 ++ rs2) = encode_recs rs1 ++ encode_recs rs2.
Proof. unfold encode_recs. by rewrite map_app, concat_app. Qed.

Lemma encode_cmds_recs cs : encode_cmds cs = encode_recs (cmds_recs cs).
Proof.
  induction cs as [|c cs IH]; [done|].
  change (encode_cmds (c :: cs)) with (encode_cmd c ++ encode_cmds cs).
  change (cmds_recs (c :: cs)) with (cmd_recs c ++ cmds_recs cs).
  by rewrite encode_recs_app, IH, encode_cmd_recs.
Qed.

Lemma cmds_recs_ok cs : Forall cmd_ok cs -> Forall rec_ok (cmds_recs cs).
Proof.
  unfold cmds_recs. induction 1 as [|c cs Hc _ IH]; simpl; [done|].
  by apply Forall_app.
Qed.

Lemma encode_cmds_app cs1 cs2 :
  encode_cmds (cs1 ++ cs2) = encode_cmds cs1 ++ encode_cmds cs2.
Proof. unfold encode_cmds. by rewrite map_app, concat_app. Qed.

Lemma cmds_recs_app cs1 cs2 :
  cmds_recs (cs1 ++ cs2) = cmds_recs cs1 ++ cmds_recs cs2.
Proof. unfold cmds_recs. by rewrite map_app, concat_app. Qed.

#[export] Hint Rewrite encode_cmds_app cmds_recs_app encode_recs_app : lightgraph.
#[export] Hint Resolve cmds_recs_ok : lightgraph.

(** ** Lemmas on replay *)

Section replay_lemmas.
Context {S : Type} (on_record : Z -> Z -> bytes -> S -> S).

Definition apply_rec (s : S) (r : WalRec) : S :=
  on_record (r_opcode r) (r_id r) (r_payload r) s.

Definition apply_recs (rs : list WalRec) (s : S) : S := foldl apply_rec s rs.

Lemma apply_recs_app rs1 rs2 s :
  apply_recs (rs1 ++ rs2) s = apply_recs rs2 (apply_recs rs1 s).
Proof. apply foldl_app. Qed.

(** Fuel beyond the length of the file changes nothing. *)
Lemma replay_loop_fuel f1 f2 file s :
  (length file < f1)%nat -> (length file < f2)%nat ->
  replay_loop on_record f1 file s = replay_loop on_record f2 file s.
Proof.
  revert f2 file s. induction f1 as [|f1 IH]; intros [|f2] file s H1 H2;
    simpl; try lia.
  destruct (read_exact 4 file) as [[lb file1]|] eqn:E1; [|done].
  apply read_exact_Some in E1 as [-> Hlb]; [|lia].
  destruct (_ <? 9) eqn:Hlt; [done|].
  destruct (read_exact 9 file1) as [[hd file2]|] eqn:E2; [|done].
  apply read_exact_Some in E2 as [-> Hhd]; [|lia].
  destruct (read_exact _ file2) as [[pl file3]|] eqn:E3; [|done].
  apply read_exact_Some in E3 as [-> Hpl]; [|blia].
  rewrite !length_app in *. apply IH; lia.
Qed.

Lemma replay_loop_no_fuel f file s :
  (length file < f)%nat -> (replay_loop on_record f file s).1 <> Err OutOfFuel.
Proof.
  revert file s. induction f as [|f IH]; intros file s Hf; simpl; [lia|].
  destruct (read_exact 4 file) as [[lb file1]|] eqn:E1; [|done].
  apply read_exact_Some in E1 as [-> Hlb]; [|lia].
  destruct (_ <? 9) eqn:Hlt; [done|].
  destruct (read_exact 9 file1) as [[hd file2]|] eqn:E2; [|done].
  apply read_exact_Some in E2 as [-> Hhd]; [|lia].
  destruct (read_exact _ file2) as [[pl file3]|] eqn:E3; [|done].
  apply read_exact_Some in E3 as [-> Hpl]; [|blia].
  rewrite !length_app in *. apply IH; lia.
Qed.

(** One encoded record at the head of the file is decoded and consumed. *)
Lemma replay_loop_rec f r rest s :
  rec_ok r ->
  replay_loop on_record (Datatypes.S f) (encode_rec r ++ rest) s =
  replay_loop on_record f rest (apply_rec s r).
Proof.
  intros (Hop & Hid & Hlen). unfold encode_rec. cbn [replay_loop].
  rewrite <-!app_assoc, read_exact_app by by rewrite length_u32_le.
  rewrite le_val_u32, wrap32_small by lia.
  destruct (_ <? 9) eqn:Hlt; [blia|].
  rewrite (app_assoc [_]), read_exact_app
    by (rewrite length_app, length_u64_le; done).
  cbn [app firstn skipn le_val]. rewrite take_0, drop_0.
  cbn [le_val]. rewrite le_val_u64, wrap64_small by lia.
  rewrite Z_of_byte_of_Z, Z.mod_small by lia.
  rewrite read_exact_app by lia. unfold apply_rec. f_equal. f_equal. lia.
Qed.

Lemma replay_loop_short f file s :
  (length file < 4)%nat -> (0 < f)%nat -> replay_loop on_record f file s = (Ok tt, s).
Proof.
  intros Hf ?. destruct f; [lia|]. simpl. by rewrite read_exact_short by lia.
Qed.

(** A proper prefix of a record with its length field complete. *)
Lemma replay_loop_torn f r n s :
  rec_ok r -> (4 <= n < length (encode_rec r))%nat -> (0 < f)%nat ->
  replay_loop on_record f (take n (encode_rec r)) s = (Err UnexpectedEof, s).
Proof.
  intros (Hop & Hid & Hlen) Hn ?. destruct f; [lia|]. cbn [replay_loop].
  rewrite length_encode_rec in Hn. unfold encode_rec.
  rewrite take_app, length_u32_le, take_ge by (rewrite length_u32_le; lia).
  rewrite read_exact_app by by rewrite length_u32_le.
  rewrite le_val_u32, wrap32_small by lia.
  destruct (_ <? 9) eqn:Hlt; [blia|]. rewrite app_assoc, take_app.
  set (hd := [_] ++ u64_le _). assert (length hd = 9%nat) as Hhd
    by (unfold hd; rewrite length_app, length_u64_le; done).
  destruct (decide (n < 13)%nat).
  - rewrite read_exact_short; [done|]. rewrite length_app, !length_take. lia.
  - rewrite (take_ge hd) by lia. rewrite read_exact_app by lia.
    rewrite read_exact_short; [done|]. rewrite length_take. lia.
Qed.
End replay_lemmas.

(** ** Whole logs *)

(** What replay makes of the first [n] bytes of a log of records [rs]: the
    records that fit, then a clean end if the cut is inside a length field, an
    error if it is inside the rest of a record. *)
Fixpoint cut_recs (rs : list WalRec) (n : nat) : list WalRec * io unit :=
  match rs with
  | [] => ([], Ok tt)
  | r :: rs' =>
      let len := length (encode_rec r) in
      if (len <=? n)%nat then
        let '(k, o) := cut_recs rs' (n - len) in (r :: k, o)
      else if (n <? 4)%nat then ([], Ok tt) else ([], Err UnexpectedEof)
  end.

Lemma cut_recs_prefix rs n : (cut_recs rs n).1 `prefix_of` rs.
Proof.
  revert n. induction rs as [|r rs IH]; intros n; simpl; [done|].
  destruct (_ <=? _)%nat; [|destruct (_ <? _)%nat; apply prefix_nil].
  specialize (IH (n - length (encode_rec r))%nat).
  destruct (cut_recs rs _). by apply prefix_cons.
Qed.

Lemma cut_recs_app rs1 rs2 n :
  (length (encode_recs rs1) <= n)%nat ->
  cut_recs (rs1 ++ rs2) n =
    (rs1 ++ (cut_recs rs2 (n - length (encode_recs rs1))).1,
     (cut_recs rs2 (n - length (encode_recs rs1))).2).
Proof.
  unfold encode_recs. revert n. induction rs1 as [|r rs1 IH]; intros n Hn.
  - simpl. rewrite Nat.sub_0_r. by destruct (cut_recs rs2 n).
  - cbn [map concat app cut_recs] in *. rewrite length_app in *.
    destruct (Nat.leb_spec (length (encode_rec r)) n); [|lia].
    rewrite IH by lia. rewrite Nat.sub_add_distr. done.
Qed.

Lemma cut_recs_nil rs n : take n (encode_recs rs) = [] -> cut_recs rs n = ([], Ok tt).
Proof.
  unfold encode_recs. destruct rs as [|r rs]; [done|]. cbn [map concat cut_recs].
  destruct n as [|n]; [done|]. unfold encode_rec at 1. done.
Qed.

Lemma cut_recs_error rs n : (cut_recs rs n).2 = Ok tt \/ (cut_recs rs n).2 = Err UnexpectedEof.
Proof.
  revert n. induction rs as [|r rs IH]; intros n; cbn [cut_recs]; [by left|].
  destruct (_ <=? _)%nat; [|destruct (_ <? _)%nat; auto].
  specialize (IH (n - length (encode_rec r))%nat). by destruct (cut_recs rs _).
Qed.

Section whole_logs.
Context {S : Type} (on_record : Z -> Z -> bytes -> S -> S).

Lemma replay_loop_cut f rs n s :
  Forall rec_ok rs -> (length (take n (encode_recs rs)) < f)%nat ->
  replay_loop on_record f (take n (encode_recs rs)) s =
    ((cut_recs rs n).2, apply_recs on_record (cut_recs rs n).1 s).
Proof.
  intros Hrs. revert f n s. unfold encode_recs.
  induction Hrs as [|r rs Hr Hrs IH]; intros f n s Hf; cbn [map concat cut_recs] in *.
  { rewrite take_nil in *. by apply replay_loop_short; simpl; lia. }
  destruct (Nat.leb_spec (length (encode_rec r)) n) as [Hle|Hgt].
  - rewrite take_app, take_ge by lia. destruct f as [|f]; [lia|].
    rewrite replay_loop_rec by done. rewrite IH; [by destruct (cut_recs rs _)|].
    rewrite take_app, (take_ge (encode_rec r)), length_app in Hf by lia.
    pose proof (length_encode_rec r). lia.
  - rewrite take_app_le by lia. destruct (Nat.ltb_spec n 4).
    + apply replay_loop_short; [rewrite length_take; lia|lia].
    + apply replay_loop_torn; [done|lia|lia].
Qed.

Lemma replay_loop_recs f rs s :
  Forall rec_ok rs -> (length (encode_recs rs) < f)%nat ->
  replay_loop on_record f (encode_recs rs) s = (Ok tt, apply_recs on_record rs s).
Proof.
  intros Hrs. revert f s. unfold encode_recs.
  induction Hrs as [|r rs Hr Hrs IH]; intros f s Hf; cbn [map concat] in *.
  { by apply replay_loop_short; simpl in *; lia. }
  destruct f as [|f]; [lia|]. rewrite replay_loop_rec by done. rewrite IH; [done|].
  rewrite length_app in Hf. pose proof (length_encode_rec r). lia.
Qed.

Lemma replay_wal_magic file s :
  replay_wal on_record (MAGIC ++ file) s =
  replay_loop on_record (Datatypes.S (length file)) file s.
Proof.
  unfold replay_wal. rewrite read_exact_app by done. by rewrite decide_True.
Qed.

Lemma replay_wal_recs rs s :
  Forall rec_ok rs ->
  replay_wal on_record (MAGIC ++ encode_recs rs) s = (Ok tt, apply_recs on_record rs s).
Proof. intros ?. rewrite replay_wal_magic. apply replay_loop_recs; [done|lia]. Qed.

(** C28: a log of any sequence of channel commands replays to exactly the
    records of these commands, in the order they were sent. *)
Theorem replay_wal_roundtrip cs s :
  Forall cmd_ok cs ->
  replay_wal on_record (MAGIC ++ encode_cmds cs) s =
    (Ok tt, apply_recs on_record (cmds_recs cs) s).
Proof.
  intros Hcs. rewrite encode_cmds_recs. apply replay_wal_recs.
  auto with lightgraph.
Qed.

(** C29: a log cut anywhere after its header replays exactly the complete
    records before the cut; it ends cleanly when the cut falls on a record
    boundary or within a length field, and with [UnexpectedEof] otherwise. *)
Theorem replay_wal_cut cs n s :
  Forall cmd_ok cs ->
  replay_wal on_record (MAGIC ++ take n (encode_cmds cs)) s =
    ((cut_recs (cmds_recs cs) n).2,
     apply_recs on_record (cut_recs (cmds_recs cs) n).1 s) /\
  (cut_recs (cmds_recs cs) n).1 `prefix_of` cmds_recs cs.
Proof.
  intros Hcs. split; [|apply cut_recs_prefix].
  rewrite encode_cmds_recs, replay_wal_magic.
  apply replay_loop_cut; [by apply cmds_recs_ok|lia].
Qed.

(** Replaying terminates on every file, whatever its bytes. *)
Theorem replay_wal_terminates file s :
  (replay_wal on_record file s).1 <> Err OutOfFuel.
Proof.
  unfold replay_wal. destruct (read_exact 4 file) as [[m rest]|]; [|done].
  case_decide; [|done]. apply replay_loop_no_fuel. lia.
Qed.
End whole_logs.

(** Concrete logs, evaluated. *)
Definition push_rec (op id : Z) (payload : bytes) (acc : list WalRec) : list WalRec :=
  acc ++ [mkRec op id payload].

Lemma apply_push_rec rs acc : apply_recs push_rec rs acc = acc ++ rs.
Proof.
  revert acc. induction rs as [|[o i pl] rs IH]; intros acc; simpl; [by rewrite app_nil_r|].
  rewrite IH. unfold apply_rec, push_rec. simpl. by rewrite <-app_assoc.
Qed.

(** A file between the logs of [pre] and of [pre ++ post] replays to the records
    of [pre] and some of [post]. *)
Lemma replay_image pre post bs :
  Forall cmd_ok (pre ++ post) ->
  MAGIC ++ encode_cmds pre `prefix_of` bs ->
  bs `prefix_of` MAGIC ++ encode_cmds (pre ++ post) ->
  exists rs o, replay_wal push_rec bs [] = (o, rs) /\
    (o = Ok tt \/ o = Err UnexpectedEof) /\
    rs `prefix_of` cmds_recs (pre ++ post) /\ cmds_recs pre `prefix_of` rs.
Proof.
  intros Hok [x ->] Hhi. rewrite <-app_assoc in *. apply prefix_app_inv in Hhi.
  rewrite encode_cmds_app in Hhi. apply prefix_app_inv in Hhi as [y Hy].
  set (n := (length (encode_cmds pre) + length x)%nat).
  assert (encode_cmds pre ++ x = take n (encode_recs (cmds_recs (pre ++ post)))) as Ht.
  { rewrite <-encode_cmds_recs, encode_cmds_app, Hy, app_assoc. unfold n.
    by rewrite <-length_app, take_app_length. }
  rewrite Ht, replay_wal_magic, (replay_loop_cut push_rec) by (auto with lightgraph; lia).
  rewrite apply_push_rec. eexists _, _. split; [done|]. split; [apply cut_recs_error|].
  split; [apply cut_recs_prefix|]. rewrite cmds_recs_app, cut_recs_app.
  - simpl. by apply prefix_app_r.
  - rewrite <-encode_cmds_recs. lia.
Qed.

Definition sample_cmds : list WalCmd :=
  [Insert 7 [Byte.x01; Byte.x02]; Flush 0; Delete 7; Insert 8 []].

Example sample_log_bytes : length (MAGIC ++ encode_cmds sample_cmds) = 45%nat.
Proof. vm_compute. reflexivity. Qed.

Lemma replay_wal_roundtrip_witness :
  Forall cmd_ok sample_cmds /\
  replay_wal push_rec (MAGIC ++ encode_cmds sample_cmds) [] =
    (Ok tt, apply_recs push_rec (cmds_recs sample_cmds) []).
Proof.
  assert (Forall cmd_ok sample_cmds) as Hok by by_decide.
  split; [exact Hok|]. exact (replay_wal_roundtrip push_rec sample_cmds [] Hok).
Defined.

(** Nineteen bytes: the first record is whole, the second is torn. *)
Lemma replay_wal_cut_witness :
  Forall cmd_ok sample_cmds /\
  replay_wal push_rec (MAGIC ++ take 19 (encode_cmds sample_cmds)) [] =
    (Err UnexpectedEof, [mkRec 1 7 [Byte.x01; Byte.x02]]).
Proof.
  assert (Forall cmd_ok sample_cmds) as Hok by by_decide.
  split; [exact Hok|].
  exact (proj1 (replay_wal_cut push_rec sample_cmds 19 [] Hok)).
Defined.
