(* ===== verification/WalSink.v ===== *)
(** * What a store relies on: the WAL contract

    A store talks to its WAL thread through [spawn], [send_insert],
    [send_delete], [flush] and [pending_bytes]. [WalSink] is this interface with
    three observations (the log it was spawned on, the records accepted since,
    the bytes a crash cannot take back), and [WalSinkLaws] the contract of
    [consistency.rs]: G1, records reach the log in the order they were sent,
    and G2, [flush] makes everything sent before it durable. The stores are
    verified against the contract; [LogSink] is its abstract implementation,
    and [WalThread.v] discharges it for the thread itself. *)

From S2P Require Export Consistency WalFormat.

Open Scope Z_scope.

(** The contents of the log file once it is open: a missing or empty file gets
    the magic header. *)
Definition log_contents (file : option bytes) : bytes :=
  match file with
  | Some (b :: bs) => b :: bs
  | _ => MAGIC
  end.

Class WalSink (W : Type) : Type := {
  sink_spawn : Durability -> Z -> option bytes -> io W;
  sink_insert : Z -> bytes -> W -> W;
  sink_delete : Z -> W -> W;
  sink_flush : W -> W;
  sink_pending : W -> Z;
  sink_base : W -> bytes;
  sink_recs : W -> list WalRec;
  sink_image : W -> bytes;
  sink_live : W -> Prop
}.

(** [sink_extends w w' rs]: [w'] is [w] after accepting the records [rs]. *)
Definition sink_extends {W} `{WalSink W} (w w' : W) (rs : list WalRec) : Prop :=
  sink_live w' /\ sink_base w' = sink_base w /\ sink_recs w' = sink_recs w ++ rs.

(** What an open must respect for the contract to hold: a level that fsyncs,
    batches that fit in memory, and a channel that can hold a command. *)
Definition contract_ok (d : Durability) (cap : Z) : Prop :=
  fsync_enabled d = true /\ 0 <= batch_bytes d /\ batch_bytes d * 2 <= isize_max /\ 1 <= cap.

#[export] Instance contract_ok_dec d cap : Decision (contract_ok d cap) :=
  ltac:(unfold contract_ok; apply _).

Class WalSinkLaws (W : Type) `{WalSink W} : Prop := {
  sink_spawn_live d cap file w :
    contract_ok d cap -> sink_spawn d cap file = Ok w ->
    sink_live w /\ sink_base w = log_contents file /\ sink_recs w = [] /\
    sink_image w = sink_base w;
  sink_spawn_total d cap file :
    contract_ok d cap -> exists w, sink_spawn d cap file = Ok w;
  sink_insert_extends w id record :
    sink_live w -> sink_extends w (sink_insert id record w) [mkRec 1 id record];
  sink_delete_extends w id :
    sink_live w -> sink_extends w (sink_delete id w) [mkRec 2 id []];
  sink_flush_extends w : sink_live w -> sink_extends w (sink_flush w) [];
  sink_flush_image w :
    sink_live w -> sink_image (sink_flush w) = sink_base w ++ encode_recs (sink_recs w);
  sink_image_prefix w :
    sink_live w -> sink_image w `prefix_of` sink_base w ++ encode_recs (sink_recs w);
  sink_insert_image w id record :
    sink_live w -> sink_image w `prefix_of` sink_image (sink_insert id record w);
  sink_delete_image w id :
    sink_live w -> sink_image w `prefix_of` sink_image (sink_delete id w)
}.

Lemma sink_extends_trans {W} `{WalSink W} (w1 w2 w3 : W) rs1 rs2 :
  sink_extends w1 w2 rs1 -> sink_extends w2 w3 rs2 -> sink_extends w1 w3 (rs1 ++ rs2).
Proof.
  intros (_ & Hb1 & Hr1) (Hl & Hb2 & Hr2). split; [done|].
  rewrite Hb2, Hb1, Hr2, Hr1. by rewrite app_assoc.
Qed.

Lemma sink_extends_refl {W} `{WalSink W} (w : W) : sink_live w -> sink_extends w w [].
Proof. split; [done|]. by rewrite app_nil_r. Qed.

#[export] Hint Resolve sink_insert_extends sink_delete_extends sink_flush_extends
  sink_extends_refl : lightgraph.

(** ** Programs over a WAL *)

Inductive SinkOp : Type :=
| SinkInsert (id : Z) (record : bytes)
| SinkDelete (id : Z)
| SinkFlush.

Definition sink_exec {W} `{WalSink W} (w : W) (op : SinkOp) : W :=
  match op with
  | SinkInsert id record => sink_insert id record w
  | SinkDelete id => sink_delete id w
  | SinkFlush => sink_flush w
  end.

Definition sink_run {W} `{WalSink W} (w : W) (ops : list SinkOp) : W := foldl sink_exec w ops.

Definition sink_op_recs (op : SinkOp) : list WalRec :=
  match op with
  | SinkInsert id record => [mkRec 1 id record]
  | SinkDelete id => [mkRec 2 id []]
  | SinkFlush => []
  end.

Lemma sink_exec_extends {W} `{WalSinkLaws W} (w : W) op :
  sink_live w -> sink_extends w (sink_exec w op) (sink_op_recs op).
Proof. destruct op; simpl; auto with lightgraph. Qed.

Lemma sink_run_extends {W} `{WalSinkLaws W} (w : W) ops :
  sink_live w -> sink_extends w (sink_run w ops) (ops ≫= sink_op_recs).
Proof.
  unfold sink_run. revert w. induction ops as [|op ops IH]; intros w Hl;
    [by apply sink_extends_refl|].
  pose proof (sink_exec_extends w op Hl) as Hext. simpl.
  eapply sink_extends_trans; [exact Hext|]. apply IH. apply Hext.
Qed.

(** What is durable stays durable. *)
Lemma sink_flush_grows {W} `{WalSinkLaws W} (w : W) :
  sink_live w -> sink_image w `prefix_of` sink_image (sink_flush w).
Proof. intros Hl. rewrite sink_flush_image by done. by apply sink_image_prefix. Qed.

#[export] Hint Resolve sink_insert_image sink_delete_image sink_flush_grows : lightgraph.

(** ** The abstract log *)

Module LogSink.

Record t : Type := mk {
  base : bytes;
  recs : list WalRec;
  synced : nat;
  pending : Z
}.

Definition append (r : WalRec) (size : Z) (w : t) : t :=
  {| base := base w; recs := recs w ++ [r]; synced := synced w;
     pending := wrap64 (pending w + size) |}.

#[export] Instance sink : WalSink t := {
  sink_spawn _ _ file :=
    Ok {| base := log_contents file; recs := []; synced := 0; pending := 0 |};
  sink_insert id record w :=
    append (mkRec 1 id record) (Z.of_nat (length record) + 9) w;
  sink_delete id w := append (mkRec 2 id []) 9 w;
  sink_flush w :=
    {| base := base w; recs := recs w; synced := length (recs w); pending := 0 |};
  sink_pending := pending;
  sink_base := base;
  sink_recs := recs;
  sink_image w := base w ++ encode_recs (take (synced w) (recs w));
  sink_live _ := True
}.

Lemma append_grows r size w : sink_image w `prefix_of` sink_image (append r size w).
Proof.
  simpl. apply prefix_app. rewrite take_app, encode_recs_app. by apply prefix_app_r.
Qed.

#[export] Instance laws : WalSinkLaws t.
Proof.
  split; simpl; intros; simplify_eq; unfold sink_extends; simpl.
  - unfold encode_recs. simpl. by rewrite app_nil_r.
  - eauto.
  - done.
  - done.
  - by rewrite app_nil_r.
  - by rewrite firstn_all.
  - apply prefix_app. rewrite <-(take_drop (synced w) (recs w)) at 2.
    rewrite encode_recs_app. apply prefix_app_r. done.
  - apply (append_grows _ (Z.of_nat (length record) + 9)).
  - apply (append_grows _ 9).
Qed.

End LogSink.
