(* ===== verification/WalThread.v ===== *)
(** * The WAL thread ([src/src/storage/wal_thread.rs])

    The channel, the atomics and the loop of the thread as one state, the
    methods of the handle and the body of [wal_loop] as functions on it, and
    their interleavings as runs of a step function. Clock readings and the
    outcome of file operations are part of each event. *)

From S2P Require Export WalSink.

Open Scope Z_scope.

(** ** State *)

(** The log file: what the OS has been given, and what is on stable storage. *)
Record Device : Type := mkDevice { written : bytes; durable : bytes }.

(** How the writes of one [flush_and_sync] end. A failure is reported on
    stderr only, and leaves the file as the environment decides; what [BufWriter]
    then still holds, and writes out with a later batch, is not tracked. *)
Inductive io_outcome : Type :=
| IoOk
| IoFail (dev : Device).

(** The constants [wal_loop] is called with. *)
Record LoopConfig : Type := mkConfig {
  batch_size : Z;
  recv_timeout : Z;
  fsync_timeout : Z;
  fsync_on : bool
}.

(** [alive]: the loop has not returned, so the channel has a receiver.
    [base] and [history] are ghost: the file when the thread was spawned, and
    every command the channel has accepted. *)
Record WalThread : Type := mkThread {
  cfg : LoopConfig;
  chan_cap : Z;
  chan : list WalCmd;
  pending_bytes : Z;
  running : bool;
  alive : bool;
  replies : list nat;
  buffer : bytes;
  last_sync : Z;
  dev : Device;
  base : bytes;
  history : list WalCmd
}.

Definition set_chan (cs : list WalCmd) (s : WalThread) : WalThread :=
  {| cfg := cfg s; chan_cap := chan_cap s; chan := cs;
     pending_bytes := pending_bytes s; running := running s; alive := alive s;
     replies := replies s; buffer := buffer s; last_sync := last_sync s;
     dev := dev s; base := base s; history := history s |}.

Definition set_pending (p : Z) (s : WalThread) : WalThread :=
  {| cfg := cfg s; chan_cap := chan_cap s; chan := chan s; pending_bytes := p;
     running := running s; alive := alive s; replies := replies s;
     buffer := buffer s; last_sync := last_sync s; dev := dev s; base := base s;
     history := history s |}.

Definition set_running (r : bool) (s : WalThread) : WalThread :=
  {| cfg := cfg s; chan_cap := chan_cap s; chan := chan s;
     pending_bytes := pending_bytes s; running := r; alive := alive s;
     replies := replies s; buffer := buffer s; last_sync := last_sync s;
     dev := dev s; base := base s; history := history s |}.

(** The loop returns: the receiver is dropped with what is left in it. *)
Definition exit_loop (s : WalThread) : WalThread :=
  {| cfg := cfg s; chan_cap := chan_cap s; chan := [];
     pending_bytes := pending_bytes s; running := running s; alive := false;
     replies := replies s; buffer := buffer s; last_sync := last_sync s;
     dev := dev s; base := base s; history := history s |}.

Definition add_reply (tok : nat) (s : WalThread) : WalThread :=
  {| cfg := cfg s; chan_cap := chan_cap s; chan := chan s;
     pending_bytes := pending_bytes s; running := running s; alive := alive s;
     replies := tok :: replies s; buffer := buffer s; last_sync := last_sync s;
     dev := dev s; base := base s; history := history s |}.

Definition set_buffer (b : bytes) (s : WalThread) : WalThread :=
  {| cfg := cfg s; chan_cap := chan_cap s; chan := chan s;
     pending_bytes := pending_bytes s; running := running s; alive := alive s;
     replies := replies s; buffer := b; last_sync := last_sync s;
     dev := dev s; base := base s; history := history s |}.

Definition set_last_sync (t : Z) (s : WalThread) : WalThread :=
  {| cfg := cfg s; chan_cap := chan_cap s; chan := chan s;
     pending_bytes := pending_bytes s; running := running s; alive := alive s;
     replies := replies s; buffer := buffer s; last_sync := t;
     dev := dev s; base := base s; history := history s |}.

(** The channel accepts a command. *)
Definition enqueue (c : WalCmd) (s : WalThread) : WalThread :=
  {| cfg := cfg s; chan_cap := chan_cap s; chan := chan s ++ [c];
     pending_bytes := pending_bytes s; running := running s; alive := alive s;
     replies := replies s; buffer := buffer s; last_sync := last_sync s;
     dev := dev s; base := base s; history := history s ++ [c] |}.

(** ** [spawn] *)

(** [Vec::with_capacity] panics beyond [isize::MAX] bytes. *)
Definition capacity_ok (cap : Z) : bool := cap <=? isize_max.

(** [BufWriter::with_capacity] runs in the caller; the buffer of [wal_loop] is
    allocated by the new thread, which dies if that panics. *)
Definition spawn (now : Z) (d : Durability) (channel_cap : Z) (file : option bytes)
  : io WalThread :=
  if capacity_ok (wrap64 (batch_bytes d * 2)) then
    let content := log_contents file in
    Ok {| cfg := {| batch_size := batch_bytes d;
                    recv_timeout := Z.max (batch_timeout d) (duration_from_millis 1);
                    fsync_timeout := batch_timeout d;
                    fsync_on := fsync_enabled d |};
          chan_cap := channel_cap; chan := []; pending_bytes := 0;
          running := true; alive := capacity_ok (batch_bytes d); replies := [];
          buffer := []; last_sync := now;
          dev := {| written := content; durable := content |};
          base := content; history := [] |}
  else Panic.

(** ** The loop *)

Definition flush_and_sync (io : io_outcome) (s : WalThread) : WalThread :=
  match buffer s with
  | [] => s
  | _ =>
      let dev' :=
        match io with
        | IoOk =>
            let w := written (dev s) ++ buffer s in
            {| written := w;
               durable := if fsync_on (cfg s) then w else durable (dev s) |}
        | IoFail d => d
        end in
      {| cfg := cfg s; chan_cap := chan_cap s; chan := chan s; pending_bytes := 0;
         running := running s; alive := alive s; replies := replies s;
         buffer := []; last_sync := last_sync s; dev := dev'; base := base s;
         history := history s |}
  end.

(** The two [Instant::now()] readings of an iteration. *)
Record Clock : Type := mkClock { at_check : Z; at_sync : Z }.

Definition elapsed (now since : Z) : Z := Z.max 0 (now - since).

(** The end of an iteration: sync if the buffer is full or timed out. *)
Definition sync_if_due (clk : Clock) (io : io_outcome) (s : WalThread) : WalThread :=
  let buffer_full := batch_size (cfg s) <=? Z.of_nat (length (buffer s)) in
  let timed_out := fsync_timeout (cfg s) <=? elapsed (at_check clk) (last_sync s) in
  if (buffer_full || timed_out) && negb (bool_decide (buffer s = [])) then
    set_last_sync (at_sync clk) (flush_and_sync io s)
  else s.

(** One iteration that received a command. *)
Definition loop_recv (clk : Clock) (io : io_outcome) (c : WalCmd) (s : WalThread)
  : WalThread :=
  if negb (running s) then exit_loop (flush_and_sync io s)
  else
    match c with
    | Insert id record => sync_if_due clk io (set_buffer (encode_insert (buffer s) id record) s)
    | Delete id => sync_if_due clk io (set_buffer (encode_delete (buffer s) id) s)
    | Flush reply => add_reply reply (set_last_sync (at_sync clk) (flush_and_sync io s))
    | Shutdown reply => exit_loop (add_reply reply (flush_and_sync io s))
    end.

(** One iteration whose [recv_timeout] expired. *)
Definition loop_timeout (clk : Clock) (io : io_outcome) (s : WalThread) : WalThread :=
  if negb (running s) && bool_decide (buffer s = []) then exit_loop s
  else sync_if_due clk io s.

(** ** The handle *)

(** [tx.send]: blocks while the channel is full ([None]: not enabled), and
    fails, with a message on stderr only, once the receiver is gone. *)
Definition send (c : WalCmd) (s : WalThread) : option WalThread :=
  if alive s then
    if Z.of_nat (length (chan s)) <? chan_cap s then Some (enqueue c s) else None
  else Some s.

(** The counter is added to before the send; the two are one step here. *)
Definition send_insert (id : Z) (record : bytes) (s : WalThread) : option WalThread :=
  send (Insert id record)
    (set_pending (wrap64 (pending_bytes s + (Z.of_nat (length record) + 9))) s).

Definition send_delete (id : Z) (s : WalThread) : option WalThread :=
  send (Delete id) (set_pending (wrap64 (pending_bytes s + 9)) s).

(** [flush] is a send, a wait for the reply (which also ends when the loop has
    dropped the reply channel), and the reset of the counter. *)
Definition flush_send (tok : nat) (s : WalThread) : option WalThread := send (Flush tok) s.

Definition flush_return (tok : nat) (s : WalThread) : option WalThread :=
  if bool_decide (tok ∈ replies s) || negb (alive s) then Some (set_pending 0 s) else None.

(** [shutdown]: clear [running], send [Shutdown], wait, join. *)
Definition stop_running (s : WalThread) : WalThread := set_running false s.
Definition shutdown_send (tok : nat) (s : WalThread) : option WalThread := send (Shutdown tok) s.

(** [Drop]: clear [running], then [try_send] a dummy command, which is lost if
    the channel is full or disconnected. *)
Definition drop_wake (s : WalThread) : WalThread :=
  if alive s && (Z.of_nat (length (chan s)) <? chan_cap s)
  then enqueue (Delete u64_max) s else s.

(** ** Interleavings *)

Inductive WalEv : Type :=
| EvInsert (id : Z) (record : bytes)
| EvDelete (id : Z)
| EvFlushSend (tok : nat)
| EvFlushReturn (tok : nat)
| EvStop
| EvShutdownSend (tok : nat)
| EvDropWake
| EvRecv (clk : Clock) (io : io_outcome)
| EvTimeout (clk : Clock) (io : io_outcome).

(** One step, if it is enabled. *)
Definition wal_step (e : WalEv) (s : WalThread) : option WalThread :=
  match e with
  | EvInsert id record => send_insert id record s
  | EvDelete id => send_delete id s
  | EvFlushSend tok => flush_send tok s
  | EvFlushReturn tok => flush_return tok s
  | EvStop => Some (stop_running s)
  | EvShutdownSend tok => shutdown_send tok s
  | EvDropWake => Some (drop_wake s)
  | EvRecv clk io =>
      match alive s, chan s with
      | true, c :: cs => Some (loop_recv clk io c (set_chan cs s))
      | _, _ => None
      end
  | EvTimeout clk io =>
      match alive s, chan s with
      | true, [] => Some (loop_timeout clk io s)
      | _, _ => None
      end
  end.

Fixpoint wal_run (es : list WalEv) (s : WalThread) : option WalThread :=
  match es with
  | [] => Some s
  | e :: es' => match wal_step e s with Some s' => wal_run es' s' | None => None end
  end.

(** Every file operation of the event succeeds. *)
Definition ev_ok (e : WalEv) : Prop :=
  match e with
  | EvRecv _ io | EvTimeout _ io => io = IoOk
  | _ => True
  end.

Lemma wal_run_app es1 es2 s :
  wal_run (es1 ++ es2) s =
  match wal_run es1 s with Some s' => wal_run es2 s' | None => None end.
Proof.
  revert s. induction es1 as [|e es1 IH]; intros s; simpl; [done|].
  by destruct (wal_step e s).
Qed.

(** ** The invariant *)

Section invariant.
Implicit Types (s : WalThread) (hs : list WalCmd).

(** The log plus the buffer is what was there before, then [hs] in order;
    with fsync on, all the OS has been given is on stable storage. *)
Definition file_inv hs s : Prop :=
  written (dev s) ++ buffer s = base s ++ encode_cmds hs /\
  durable (dev s) `prefix_of` written (dev s) /\
  (fsync_on (cfg s) = true -> durable (dev s) = written (dev s)).

(** A reply has been sent only for a command before which everything has
    been written. *)
Definition acks_inv hs s : Prop :=
  forall tok, tok ∈ replies s ->
  exists h1 c h2, hs = h1 ++ c :: h2 /\ (c = Flush tok \/ c = Shutdown tok) /\
    base s ++ encode_cmds h1 `prefix_of` written (dev s).

Definition wal_inv s : Prop :=
  exists hs lost,
    history s = hs ++ lost /\ (alive s = true -> lost = chan s) /\
    file_inv hs s /\ acks_inv hs s.

(** What [flush_and_sync] leaves alone. *)
Lemma flush_and_sync_frame io s :
  let s' := flush_and_sync io s in
  cfg s' = cfg s /\ chan_cap s' = chan_cap s /\ chan s' = chan s /\
  running s' = running s /\ alive s' = alive s /\ replies s' = replies s /\
  base s' = base s /\ history s' = history s /\ last_sync s' = last_sync s.
Proof. unfold flush_and_sync. destruct (buffer s); done. Qed.

Lemma flush_and_sync_buffer io s : buffer (flush_and_sync io s) = [].
Proof. unfold flush_and_sync. destruct (buffer s) eqn:?; done. Qed.

Lemma flush_and_sync_written s :
  written (dev (flush_and_sync IoOk s)) = written (dev s) ++ buffer s.
Proof.
  unfold flush_and_sync. destruct (buffer s) eqn:?; simpl; [by rewrite app_nil_r|done].
Qed.

Lemma flush_and_sync_durable s :
  durable (dev s) = written (dev s) -> fsync_on (cfg s) = true ->
  durable (dev (flush_and_sync IoOk s)) = written (dev s) ++ buffer s.
Proof.
  intros Hd Hf. unfold flush_and_sync.
  destruct (buffer s) eqn:?; simpl; [by rewrite app_nil_r|by rewrite Hf].
Qed.

Lemma flush_and_sync_inv hs s : file_inv hs s -> file_inv hs (flush_and_sync IoOk s).
Proof.
  intros (Hw & Hp & Hd). pose proof (flush_and_sync_frame IoOk s) as Hfr.
  simpl in Hfr. destruct Hfr as (Hc & _ & _ & _ & _ & _ & Hb & _).
  unfold file_inv. rewrite flush_and_sync_buffer, flush_and_sync_written, app_nil_r, Hb, Hc.
  split; [done|]. split.
  - unfold flush_and_sync. destruct (buffer s) eqn:?; simpl; [by rewrite app_nil_r|].
    destruct (fsync_on _); [done|]. by apply prefix_app_r.
  - intros Hf. by rewrite flush_and_sync_durable by auto.
Qed.

Lemma acks_inv_mono hs l s s' :
  replies s' = replies s -> base s' = base s ->
  written (dev s) `prefix_of` written (dev s') -> acks_inv hs s -> acks_inv (hs ++ l) s'.
Proof.
  intros Hr Hb Hw Ha tok. rewrite Hr, Hb. intros Htok.
  destruct (Ha tok Htok) as (h1 & c & h2 & -> & Hc & Hpre).
  exists h1, c, (h2 ++ l). rewrite <-app_assoc. split; [done|]. split; [done|].
  by etrans.
Qed.

Lemma flush_and_sync_acks hs l s :
  acks_inv hs s -> acks_inv (hs ++ l) (flush_and_sync IoOk s).
Proof.
  pose proof (flush_and_sync_frame IoOk s) as (_ & _ & _ & _ & _ & Hr & Hb & _ & _).
  apply acks_inv_mono; [done..|].
  rewrite flush_and_sync_written. by apply prefix_app_r.
Qed.

(** [sync_if_due] either leaves the state alone or syncs it. *)
Lemma sync_if_due_cases clk io s :
  sync_if_due clk io s = s \/
  sync_if_due clk io s = set_last_sync (at_sync clk) (flush_and_sync io s).
Proof. unfold sync_if_due. case_match; auto. Qed.

Lemma sync_if_due_inv hs clk s :
  file_inv hs s -> acks_inv hs s ->
  file_inv hs (sync_if_due clk IoOk s) /\ acks_inv hs (sync_if_due clk IoOk s).
Proof.
  intros Hf Ha. destruct (sync_if_due_cases clk IoOk s) as [->| ->]; [done|].
  split; [by apply (flush_and_sync_inv hs s)|].
  pose proof (flush_and_sync_acks hs [] s Ha) as Ha'. by rewrite app_nil_r in Ha'.
Qed.

Lemma sync_if_due_frame clk io s :
  let s' := sync_if_due clk io s in
  cfg s' = cfg s /\ chan_cap s' = chan_cap s /\ chan s' = chan s /\
  running s' = running s /\ alive s' = alive s /\ replies s' = replies s /\
  base s' = base s /\ history s' = history s.
Proof.
  pose proof (flush_and_sync_frame io s) as Hfr. simpl in *.
  destruct (sync_if_due_cases clk io s) as [->| ->]; [done|]. simpl. tauto.
Qed.

(** Encoding a data command into the buffer advances the log by it. *)
Lemma set_buffer_inv hs c s :
  file_inv hs s -> file_inv (hs ++ [c]) (set_buffer (buffer s ++ encode_cmd c) s).
Proof.
  intros (Hw & Hp & Hd). split; [|done]. simpl.
  rewrite app_assoc, Hw, encode_cmds_app, <-app_assoc.
  unfold encode_cmds at 3. simpl. by rewrite app_nil_r.
Qed.

Lemma file_inv_control hs c s :
  encode_cmd c = [] -> file_inv hs s -> file_inv (hs ++ [c]) s.
Proof.
  intros Hc (Hw & Hp & Hd). split; [|done]. rewrite encode_cmds_app, Hw.
  unfold encode_cmds at 3. simpl. by rewrite Hc, app_nil_r.
Qed.
End invariant.

Lemma encode_insert_cmd buf id record :
  encode_insert buf id record = buf ++ encode_cmd (Insert id record).
Proof. done. Qed.

Lemma encode_delete_cmd buf id : encode_delete buf id = buf ++ encode_cmd (Delete id).
Proof. done. Qed.

Section steps.
Implicit Types (s : WalThread) (hs : list WalCmd).

(** A data command: encoded, then synced if due. *)
Lemma loop_data_inv clk hs c s :
  history s = hs ++ c :: chan s -> file_inv hs s -> acks_inv hs s ->
  wal_inv (sync_if_due clk IoOk (set_buffer (buffer s ++ encode_cmd c) s)).
Proof.
  intros Hh Hf Ha. set (s1 := set_buffer _ s).
  assert (file_inv (hs ++ [c]) s1) as Hf1 by by apply set_buffer_inv.
  assert (acks_inv (hs ++ [c]) s1) as Ha1 by by apply (acks_inv_mono hs [c] s).
  destruct (sync_if_due_inv (hs ++ [c]) clk s1) as [Hf2 Ha2]; [done..|].
  pose proof (sync_if_due_frame clk IoOk s1) as Hfr. simpl in Hfr.
  destruct Hfr as (_ & _ & Hch & _ & _ & _ & _ & Hhi).
  exists (hs ++ [c]), (chan s). rewrite Hhi, Hch. simpl.
  by rewrite <-app_assoc.
Qed.

Lemma flush_reply_acks hs c tok s :
  c = Flush tok \/ c = Shutdown tok -> file_inv hs s -> acks_inv hs s ->
  acks_inv (hs ++ [c]) (add_reply tok (flush_and_sync IoOk s)).
Proof.
  intros Hc (Hw & _) Ha tok' Hin.
  pose proof (flush_and_sync_frame IoOk s) as Hfr. simpl in Hfr.
  destruct Hfr as (_ & _ & _ & _ & _ & Hr & Hb & _ & _).
  cbn [replies add_reply] in Hin. apply elem_of_cons in Hin as [->|Hin].
  - exists hs, c, []. simpl. by rewrite Hb, flush_and_sync_written, Hw.
  - apply (flush_and_sync_acks hs [c] s Ha tok' Hin).
Qed.

Lemma loop_recv_inv clk hs c s :
  history s = hs ++ c :: chan s -> file_inv hs s -> acks_inv hs s ->
  wal_inv (loop_recv clk IoOk c s).
Proof.
  intros Hh Hf Ha. unfold loop_recv.
  pose proof (flush_and_sync_frame IoOk s) as Hfr. simpl in Hfr.
  destruct Hfr as (_ & _ & Hch & _ & _ & _ & _ & Hhi & _).
  pose proof (flush_and_sync_inv hs s Hf) as Hf'.
  destruct (running s); simpl.
  2:{ exists hs, (c :: chan s). simpl. rewrite Hhi. split; [done|].
      split; [done|]. split; [done|].
      rewrite <-(app_nil_r hs). by apply (flush_and_sync_acks hs []). }
  destruct c as [id record|id|tok|tok].
  - rewrite encode_insert_cmd. by apply (loop_data_inv clk hs).
  - rewrite encode_delete_cmd. by apply (loop_data_inv clk hs).
  - exists (hs ++ [Flush tok]), (chan s). simpl. rewrite Hhi, Hch, <-app_assoc.
    split; [done|]. split; [done|]. split; [by apply (file_inv_control hs)|].
    apply flush_reply_acks; auto.
  - exists (hs ++ [Shutdown tok]), (chan s). simpl. rewrite Hhi, <-app_assoc.
    split; [done|]. split; [done|]. split; [by apply (file_inv_control hs)|].
    apply flush_reply_acks; auto.
Qed.

Lemma loop_timeout_inv clk s :
  alive s = true -> wal_inv s -> wal_inv (loop_timeout clk IoOk s).
Proof.
  intros Hal (hs & lost & Hh & Hl & Hf & Ha). unfold loop_timeout.
  specialize (Hl Hal) as ->. case_match.
  - exists hs, (chan s). by rewrite <-Hh.
  - pose proof (sync_if_due_frame clk IoOk s) as Hfr. simpl in Hfr.
    destruct Hfr as (_ & _ & Hch & _ & _ & _ & _ & Hhi).
    exists hs, (chan s). rewrite Hhi, Hch. split; [done|]. split; [done|].
    by apply sync_if_due_inv.
Qed.

Lemma enqueue_inv c s : alive s = true -> wal_inv s -> wal_inv (enqueue c s).
Proof.
  intros Hal (hs & lost & Hh & Hl & Hf & Ha). specialize (Hl Hal) as ->.
  exists hs, (chan s ++ [c]). simpl. rewrite Hh, app_assoc.
  done.
Qed.

Lemma send_inv c s s' : wal_inv s -> send c s = Some s' -> wal_inv s'.
Proof.
  unfold send. intros Hi Hs. destruct (alive s) eqn:?; [|by simplify_eq].
  destruct (_ <? _); simplify_eq. by apply enqueue_inv.
Qed.

Lemma wal_step_inv e s s' :
  ev_ok e -> wal_inv s -> wal_step e s = Some s' -> wal_inv s'.
Proof.
  intros Hok Hi Hs. destruct e; simpl in *; simplify_eq.
  - by eapply send_inv; [|apply Hs].
  - by eapply send_inv; [|apply Hs].
  - by eapply send_inv; [|apply Hs].
  - unfold flush_return in Hs. case_match; by simplify_eq.
  - done.
  - by eapply send_inv; [|apply Hs].
  - unfold drop_wake. destruct (alive s) eqn:?; simpl; [|done].
    destruct (_ <? _); [by apply enqueue_inv|done].
  - destruct (alive s) eqn:Hal; [|done]. destruct (chan s) as [|c cs] eqn:Hc; [done|].
    simplify_eq. destruct Hi as (hs & lost & Hh & Hl & Hf & Ha).
    specialize (Hl Hal) as ->. apply (loop_recv_inv clk hs); [|done..].
    simpl. by rewrite Hh, Hc.
  - destruct (alive s) eqn:Hal; [|done]. destruct (chan s) as [|c cs] eqn:Hc; [|done].
    simplify_eq. by apply loop_timeout_inv.
Qed.

Lemma wal_run_inv es s s' :
  Forall ev_ok es -> wal_inv s -> wal_run es s = Some s' -> wal_inv s'.
Proof.
  intros Hes. revert s. induction Hes as [|e es He Hes IH]; intros s Hi Hr; simpl in Hr.
  - by simplify_eq.
  - destruct (wal_step e s) as [s1|] eqn:Hs; [|done].
    apply (IH s1); [|done]. by eapply wal_step_inv.
Qed.

Lemma spawn_inv now d cap file s : spawn now d cap file = Ok s -> wal_inv s.
Proof.
  unfold spawn. case_match; [|done]. intros; simplify_eq.
  exists [], []. simpl. split; [done|]. split; [done|]. split.
  - unfold file_inv, encode_cmds. simpl. by rewrite app_nil_r.
  - intros tok Htok. by apply not_elem_of_nil in Htok.
Qed.
End steps.

(** ** What the thread guarantees *)

(** A state reached from a spawn with every file operation succeeding. *)
Definition reached (d : Durability) (file : option bytes) (s : WalThread) : Prop :=
  exists now cap s0 es,
    spawn now d cap file = Ok s0 /\ Forall ev_ok es /\ wal_run es s0 = Some s.

(** What an iteration that receives a command leaves alone. *)
Ltac frame_facts :=
  match goal with
  | |- context [sync_if_due ?k ?i ?t] =>
      destruct (sync_if_due_frame k i t) as (? & ? & ? & ? & ? & ? & ? & ?)
  | |- context [flush_and_sync ?i ?t] =>
      destruct (flush_and_sync_frame i t) as (? & ? & ? & ? & ? & ? & ? & ? & ?)
  end; simpl in *; repeat split; congruence.

Lemma loop_recv_const clk io c s :
  let s' := loop_recv clk io c s in
  cfg s' = cfg s /\ base s' = base s /\ chan_cap s' = chan_cap s /\ history s' = history s.
Proof.
  unfold loop_recv. destruct (negb (running s)); [frame_facts|].
  destruct c; simpl; frame_facts.
Qed.

Definition is_shutdown (c : WalCmd) : Prop :=
  match c with Shutdown _ => True | _ => False end.

Lemma loop_recv_open clk io c s :
  running s = true -> ~ is_shutdown c ->
  let s' := loop_recv clk io c s in
  alive s' = alive s /\ running s' = true /\ chan s' = chan s.
Proof.
  intros Hrun Hc. unfold loop_recv. rewrite Hrun.
  destruct c; [| | |by destruct Hc]; simpl; frame_facts.
Qed.

Lemma wal_step_const e s s' :
  wal_step e s = Some s' -> cfg s' = cfg s /\ base s' = base s /\ chan_cap s' = chan_cap s.
Proof.
  assert (forall c s s', send c s = Some s' ->
    cfg s' = cfg s /\ base s' = base s /\ chan_cap s' = chan_cap s) as Hsend.
  { intros c t t'. unfold send. repeat case_match; intros; by simplify_eq. }
  intros Hs. destruct e as [| | | | | | |clk io|clk io]; simpl in Hs; simplify_eq;
    try by apply Hsend in Hs.
  - unfold flush_return in Hs. case_match; by simplify_eq.
  - done.
  - unfold drop_wake. by case_match.
  - destruct (alive s), (chan s) as [|c cs]; try done. simplify_eq.
    pose proof (loop_recv_const clk io c (set_chan cs s)) as (? & ? & ? & _). done.
  - destruct (alive s), (chan s) as [|c cs]; try done. simplify_eq.
    unfold loop_timeout. pose proof (sync_if_due_frame clk io s) as Hfr. simpl in Hfr.
    case_match; [done|tauto].
Qed.

Lemma wal_run_const es s s' :
  wal_run es s = Some s' -> cfg s' = cfg s /\ base s' = base s /\ chan_cap s' = chan_cap s.
Proof.
  revert s. induction es as [|e es IH]; intros s Hr; simpl in Hr; [by simplify_eq|].
  destruct (wal_step e s) as [s1|] eqn:Hs; [|done].
  apply wal_step_const in Hs as (? & ? & ?). apply IH in Hr as (? & ? & ?).
  split_done; congruence.
Qed.

Lemma reached_inv d file s :
  reached d file s ->
  wal_inv s /\ base s = log_contents file /\ fsync_on (cfg s) = fsync_enabled d /\
  fsync_timeout (cfg s) = batch_timeout d /\ batch_size (cfg s) = batch_bytes d.
Proof.
  intros (now & cap & s0 & es & Hs0 & Hes & Hr). split.
  - eapply wal_run_inv; [done| |done]. by eapply spawn_inv.
  - apply wal_run_const in Hr as (-> & -> & _). unfold spawn in Hs0.
    case_match; [|done]. by simplify_eq.
Qed.

(** Two occurrences of a unique element split the list at the same place. *)
Lemma split_unique {A} (P : A -> Prop) x y l1 l2 k1 k2 :
  l1 ++ x :: l2 = k1 ++ y :: k2 -> P y -> Forall (fun a => ~ P a) (l1 ++ l2) -> k1 = l1.
Proof.
  revert k1. induction l1 as [|a l1 IH]; intros [|b k1] Heq Hy Hl; simplify_eq/=.
  - done.
  - apply Forall_app in Hl as [_ Hl]. apply Forall_inv in Hl. done.
  - apply Forall_inv in Hl. done.
  - apply Forall_inv_tail in Hl. f_equal. by apply IH.
Qed.

(** The command that carries the reply token [tok]. *)
Definition carries (tok : nat) (c : WalCmd) : Prop := c = Flush tok \/ c = Shutdown tok.

#[export] Instance carries_dec tok c : Decision (carries tok c) := ltac:(unfold carries; apply _).

(** Everything sent before an acknowledged flush is in the log, and on stable
    storage if fsync is on. *)
Lemma acked_prefix d file s tok h1 h2 :
  reached d file s -> tok ∈ replies s -> history s = h1 ++ Flush tok :: h2 ->
  Forall (fun c => ~ carries tok c) (h1 ++ h2) ->
  exists hs lost, history s = hs ++ lost /\ file_inv hs s /\ h1 `prefix_of` hs /\
    base s ++ encode_cmds h1 `prefix_of` written (dev s).
Proof.
  intros Hs Htok Hh Huniq. apply reached_inv in Hs as [Hi _].
  destruct Hi as (hs & lost & Hsplit & _ & Hf & Ha).
  destruct (Ha tok Htok) as (k1 & c & k2 & Hhs & Hc & Hpre).
  assert (k1 = h1) as ->.
  { apply (split_unique (carries tok) (Flush tok) c h1 h2 k1 (k2 ++ lost)); [|done..].
    rewrite <-Hh, Hsplit, Hhs. by rewrite <-app_assoc. }
  exists hs, lost. split; [done|]. split; [done|]. split; [|done].
  rewrite Hhs. by exists (c :: k2).
Qed.

(** What a crash can leave of the log: at least what is on stable storage, at
    most what the thread was about to write. *)
Definition crash_image (s : WalThread) (bs : bytes) : Prop :=
  durable (dev s) `prefix_of` bs /\ bs `prefix_of` written (dev s) ++ buffer s.

(** ** Properties of the thread *)

(** C22: G1. As long as no file operation has failed: at any time the log,
    buffer included, is what it held when it was opened followed by the encodings
    of the commands sent so far, in the order the channel accepted them and
    without gaps; while the loop runs, what is missing is exactly what the
    channel still holds; and under every level but [Async] all that was written
    is on stable storage. (For a write that fails: [failed_write_answered].) *)
Theorem wal_order d file s :
  reached d file s ->
  exists hs rest, history s = hs ++ rest /\ (alive s = true -> rest = chan s) /\
    written (dev s) ++ buffer s = log_contents file ++ encode_cmds hs /\
    (fsync_enabled d = true -> durable (dev s) = written (dev s)).
Proof.
  intros Hs. apply reached_inv in Hs as ((hs & lost & Hh & Hl & (Hw & _ & Hd) & _) & Hb & Hf & _).
  exists hs, lost. rewrite <-Hb. rewrite Hf in Hd. done.
Qed.

(** C21: G2. As long as no file operation has failed and the level is not
    [Async]: once the loop has answered a [flush] whose reply channel is its own,
    the log as it was opened and the encodings of every command sent before it
    are on stable storage. (A flush whose write fails is answered all the
    same: [failed_write_answered].) *)
Theorem flush_makes_durable d file s tok h1 h2 :
  reached d file s -> fsync_enabled d = true ->
  history s = h1 ++ Flush tok :: h2 ->
  Forall (fun c => ~ carries tok c) (h1 ++ h2) ->
  tok ∈ replies s ->
  log_contents file ++ encode_cmds h1 `prefix_of` durable (dev s).
Proof.
  intros Hs Hd Hh Huniq Htok.
  destruct (acked_prefix d file s tok h1 h2) as (hs & lost & _ & (_ & _ & Hdur) & _ & Hpre);
    [done..|].
  apply reached_inv in Hs as (_ & Hb & Hf & _). rewrite Hb in Hpre.
  by rewrite Hdur by congruence.
Qed.

(** C20: G3. The thread was spawned on a well-formed log, its level is not
    [Async], the records fit the format and no file operation has failed. Then
    whatever a crash leaves between what is on stable storage and what was about
    to be written, replaying it yields a prefix of the records sent, with every
    record sent before an answered flush among them; replay ends cleanly or with
    [UnexpectedEof]. *)
Theorem crash_recovers_prefix d cs0 s bs tok h1 h2 :
  reached d (Some (MAGIC ++ encode_cmds cs0)) s -> fsync_enabled d = true ->
  Forall cmd_ok (cs0 ++ history s) ->
  history s = h1 ++ Flush tok :: h2 ->
  Forall (fun c => ~ carries tok c) (h1 ++ h2) ->
  tok ∈ replies s -> crash_image s bs ->
  exists rs o, replay_wal push_rec bs [] = (o, rs) /\
    (o = Ok tt \/ o = Err UnexpectedEof) /\
    rs `prefix_of` cmds_recs (cs0 ++ history s) /\
    cmds_recs (cs0 ++ h1) `prefix_of` rs.
Proof.
  intros Hs Hd Hok Hh Huniq Htok [Hlo Hhi].
  destruct (acked_prefix _ _ s tok h1 h2 Hs)
    as (hs & lost & Hsplit & (Hw & _ & Hdur) & [k ->] & Hpre); [done..|].
  destruct (reached_inv _ _ _ Hs) as (_ & Hb & Hf & _).
  change (log_contents _) with (MAGIC ++ encode_cmds cs0) in Hb.
  rewrite Hdur in Hlo by congruence. rewrite Hw in Hhi. rewrite Hb in Hhi, Hpre.
  rewrite <-app_assoc, <-encode_cmds_app in Hhi, Hpre.
  destruct (replay_image (cs0 ++ h1) k bs) as (rs & o & Hrep & Ho & Hrs & Hpre').
  - rewrite Hsplit, !app_assoc in Hok. by apply Forall_app in Hok as [? _].
  - etrans; [exact Hpre|done].
  - by rewrite <-app_assoc.
  - exists rs, o. split; [done|]. split; [done|]. split; [|done].
    etrans; [exact Hrs|]. rewrite Hsplit, !app_assoc, (cmds_recs_app (_ ++ k)).
    by apply prefix_app_r.
Qed.

(** Under a zero interval nothing stays buffered between iterations. *)
Lemma sync_if_due_empty clk io s :
  fsync_timeout (cfg s) <= 0 -> buffer (sync_if_due clk io s) = [].
Proof.
  intros Ht. unfold sync_if_due. destruct (bool_decide_reflect (buffer s = [])) as [Hb|Hb].
  - by rewrite andb_false_r.
  - assert ((fsync_timeout (cfg s) <=? elapsed (at_check clk) (last_sync s)) = true) as ->.
    { unfold elapsed. blia. }
    rewrite orb_true_r. apply (flush_and_sync_buffer io s).
Qed.

Lemma wal_step_unbuffered e s s' :
  fsync_timeout (cfg s) <= 0 -> buffer s = [] -> wal_step e s = Some s' -> buffer s' = [].
Proof.
  intros Ht Hb Hs.
  assert (forall c t t', buffer t = [] -> send c t = Some t' -> buffer t' = []) as Hsend.
  { intros c t t' Hbt. unfold send. repeat case_match; intros; by simplify_eq. }
  destruct e as [| | | | | | |clk io|clk io]; simpl in Hs; simplify_eq;
    try (by eapply Hsend; [|apply Hs]); try done.
  - unfold flush_return in Hs. case_match; by simplify_eq.
  - unfold drop_wake. by case_match.
  - destruct (alive s), (chan s) as [|c cs]; try done. simplify_eq.
    unfold loop_recv. destruct (negb _); [apply (flush_and_sync_buffer io)|].
    destruct c; simpl; try (by apply sync_if_due_empty); apply (flush_and_sync_buffer io).
  - destruct (alive s), (chan s) as [|c cs]; try done. simplify_eq.
    unfold loop_timeout. case_match; [done|by apply sync_if_due_empty].
Qed.

Lemma wal_run_unbuffered es s s' :
  fsync_timeout (cfg s) <= 0 -> buffer s = [] -> wal_run es s = Some s' -> buffer s' = [].
Proof.
  revert s. induction es as [|e es IH]; intros s Ht Hb Hr; simpl in Hr; [by simplify_eq|].
  destruct (wal_step e s) as [s1|] eqn:Hs; [|done].
  pose proof (wal_step_const _ _ _ Hs) as (Hc & _).
  apply (IH s1); [by rewrite Hc|by eapply wal_step_unbuffered|done].
Qed.

(** Under [Immediate] the loop buffers nothing: every command it has
    received is on stable storage, and what a crash loses is exactly the
    contents of the channel. *)
Theorem immediate_loses_only_the_channel file s :
  reached Immediate file s -> alive s = true ->
  exists hs, history s = hs ++ chan s /\
    durable (dev s) = log_contents file ++ encode_cmds hs.
Proof.
  intros Hs Hal. pose proof (reached_inv _ _ _ Hs) as (Hi & Hb & Hf & Ht & _).
  destruct Hi as (hs & lost & Hh & Hl & (Hw & _ & Hd) & _).
  exists hs. rewrite <-(Hl Hal), Hd by done. split; [done|]. rewrite <-Hb, <-Hw.
  assert (buffer s = []) as ->; [|by rewrite app_nil_r].
  destruct Hs as (now & cap & s0 & es & Hs0 & _ & Hr).
  pose proof (wal_run_const _ _ _ Hr) as (Hc & _ & _).
  apply (wal_run_unbuffered _ _ _ ltac:(rewrite <-Hc, Ht; simpl; lia)) in Hr; [done|].
  unfold spawn in Hs0. case_match; by simplify_eq.
Qed.

(** The crash window of a batch. After any iteration of a running loop the
    buffer is empty, or it holds less than [batch_size] bytes and the last sync
    is more recent than [fsync_timeout]. *)
Theorem batch_window e clk io s s' :
  e = EvRecv clk io \/ e = EvTimeout clk io ->
  wal_step e s = Some s' -> alive s' = true ->
  buffer s' = [] \/
  (Z.of_nat (length (buffer s')) < batch_size (cfg s) /\
   elapsed (at_check clk) (last_sync s') < fsync_timeout (cfg s)).
Proof.
  assert (forall t, buffer (sync_if_due clk io t) = [] \/
    (Z.of_nat (length (buffer (sync_if_due clk io t))) < batch_size (cfg t) /\
     elapsed (at_check clk) (last_sync (sync_if_due clk io t)) < fsync_timeout (cfg t))) as Hsync.
  { intros t. unfold sync_if_due. destruct (bool_decide_reflect (buffer t = [])) as [Hb|Hb].
    { rewrite andb_false_r. by left. }
    rewrite andb_true_r. destruct (_ || _) eqn:Hor.
    - left. apply (flush_and_sync_buffer io).
    - apply orb_false_iff in Hor as [??]. right. blia. }
  intros He Hs Hal. destruct He as [->| ->]; simpl in Hs;
    destruct (alive s), (chan s) as [|c cs]; try done; simplify_eq.
  - unfold loop_recv in *. destruct (negb _); [done|].
    destruct c as [id record|id| |]; [| | |done].
    + apply (Hsync (set_buffer (encode_insert (buffer s) id record) (set_chan cs s))).
    + apply (Hsync (set_buffer (encode_delete (buffer s) id) (set_chan cs s))).
    + left. apply (flush_and_sync_buffer io).
  - unfold loop_timeout in *. case_match; [done|]. apply (Hsync s).
Qed.

(** [shutdown] and [Drop] clear [running] before they wake the loop, so the
    command it receives next, whatever it is, makes it exit: the queue is
    discarded, nothing of it is written and no reply is sent. *)
Theorem shutdown_discards_queue s e tok clk :
  e = EvShutdownSend tok \/ e = EvDropWake ->
  alive s = true -> Z.of_nat (length (chan s)) < chan_cap s ->
  exists s', wal_run [EvStop; e; EvRecv clk IoOk] s = Some s' /\
    alive s' = false /\ chan s' = [] /\ replies s' = replies s /\
    written (dev s') = written (dev s) ++ buffer s.
Proof.
  intros He Hal Hcap. apply Z.ltb_lt in Hcap.
  assert (exists c, wal_run [EvStop; e] s = Some (enqueue c (set_running false s))) as [c Hc].
  { destruct He as [->| ->]; simpl.
    - unfold shutdown_send, send. simpl. rewrite Hal, Hcap. by eexists.
    - unfold drop_wake. simpl. rewrite Hal, Hcap. by eexists. }
  change [EvStop; e; EvRecv clk IoOk] with ([EvStop; e] ++ [EvRecv clk IoOk]).
  rewrite wal_run_app, Hc. simpl. rewrite Hal.
  destruct (chan s ++ [c]) as [|c' cs] eqn:Hq; [by destruct (chan s)|].
  eexists. split; [done|]. unfold loop_recv. simpl.
  pose proof (flush_and_sync_frame IoOk (set_chan cs (enqueue c (set_running false s)))) as Hfr.
  simpl in Hfr. destruct Hfr as (_ & _ & _ & _ & _ & Hr & _ & _ & _).
  rewrite Hr, flush_and_sync_written. done.
Qed.

(** C40: when [spawn] gives a working thread: exactly when twice the batch size
    fits an [isize]; in particular it always panics under [Async]. *)
Theorem spawn_works_iff now d cap file :
  durability_wf d ->
  ((exists s, spawn now d cap file = Ok s /\ alive s = true) <->
   batch_bytes d * 2 <= isize_max) /\
  (d = Async -> spawn now d cap file = Panic).
Proof.
  intros Hwf. assert (0 <= batch_bytes d <= u64_max) as Hb
    by (destruct d; simpl in *; unfold usize_max, u64_max in *; lia).
  unfold spawn, capacity_ok. split; [|by intros ->].
  unfold isize_max, u64_max, wrap64 in *. split.
  - intros (s & Hs & Hal). case_match eqn:Hcap; [|done]. simplify_eq/=.
    rewrite Z.leb_le in *. rewrite Z.mod_small in Hcap; lia.
  - intros Hle. rewrite Z.mod_small by lia.
    destruct (_ <=? _) eqn:Hc; [|blia]. eexists. split; [done|]. simpl. blia.
Qed.

(** ** The thread implements the WAL contract

    For the stores each method of the handle is a function: one caller, whose step
    is preceded by the iterations of the loop it waits for and no others, with the
    clock standing still and no file operation failing. That is one schedule of
    the step function ([methods_complete]); [thread_refines_log] below is about
    all of them. *)

Definition idle_clock (s : WalThread) : Clock := mkClock (last_sync s) (last_sync s).

Definition recv_one (s : WalThread) : WalThread :=
  match chan s with
  | [] => s
  | c :: cs => loop_recv (idle_clock s) IoOk c (set_chan cs s)
  end.

(** Backpressure: a full channel makes the sender wait for the loop. *)
Definition make_room (s : WalThread) : WalThread :=
  if Z.of_nat (length (chan s)) <? chan_cap s then s else recv_one s.

Definition insert_now (id : Z) (record : bytes) (s : WalThread) : WalThread :=
  let s1 := make_room s in
  enqueue (Insert id record)
    (set_pending (wrap64 (pending_bytes s1 + (Z.of_nat (length record) + 9))) s1).

Definition delete_now (id : Z) (s : WalThread) : WalThread :=
  let s1 := make_room s in
  enqueue (Delete id) (set_pending (wrap64 (pending_bytes s1 + 9)) s1).

Definition drain (n : nat) (s : WalThread) : WalThread := Nat.iter n recv_one s.

(** A fresh reply token: one past every earlier command. *)
Definition flush_now (s : WalThread) : WalThread :=
  let s1 := enqueue (Flush (length (history s))) (make_room s) in
  set_pending 0 (drain (length (chan s1)) s1).

(** An open thread with fsync on, used through the three methods above. *)
Record live (s : WalThread) : Prop := {
  live_inv : wal_inv s;
  live_alive : alive s = true;
  live_running : running s = true;
  live_fsync : fsync_on (cfg s) = true;
  live_cap : 1 <= chan_cap s;
  live_room : Z.of_nat (length (chan s)) <= chan_cap s;
  live_cmds : Forall (fun c => ~ is_shutdown c) (chan s)
}.

Section live.
Implicit Types s : WalThread.

Lemma recv_one_live s : live s -> live (recv_one s).
Proof.
  intros [Hi Hal Hrun Hf Hcap Hroom Hcmds]. unfold recv_one.
  destruct (chan s) as [|c cs] eqn:Hc; [split; by rewrite ?Hc|].
  assert (wal_step (EvRecv (idle_clock s) IoOk) s =
    Some (loop_recv (idle_clock s) IoOk c (set_chan cs s))) as Hstep
    by by (simpl; rewrite Hal, Hc).
  pose proof (wal_step_const _ _ _ Hstep) as (Hcfg & Hb & Hcp).
  assert (ev_ok (EvRecv (idle_clock s) IoOk)) as Hok by done.
  pose proof (wal_step_inv _ _ _ Hok Hi Hstep) as Hi'.
  apply Forall_cons_iff in Hcmds as [Hsd Hcmds]. cbn [length] in Hroom.
  pose proof (loop_recv_open (idle_clock s) IoOk c (set_chan cs s) Hrun Hsd)
    as (Ha' & Hr' & Hc').
  simpl in Ha', Hc'. rewrite Hal in Ha'.
  split; rewrite ?Hc', ?Hcp, ?Hcfg; try done. lia.
Qed.

Lemma recv_one_chan s : live s -> chan (recv_one s) = tail (chan s).
Proof.
  intros Hl. pose proof (live_running s Hl) as Hrun. pose proof (live_cmds s Hl) as Hcmds.
  unfold recv_one. destruct (chan s) as [|c cs] eqn:Hc; [done|].
  apply Forall_cons_iff in Hcmds as [Hsd _].
  by apply (loop_recv_open (idle_clock s) IoOk c (set_chan cs s)).
Qed.

Lemma recv_one_const s :
  base (recv_one s) = base s /\ history (recv_one s) = history s.
Proof.
  unfold recv_one. destruct (chan s) as [|c cs]; [done|].
  pose proof (loop_recv_const (idle_clock s) IoOk c (set_chan cs s)) as (_ & ? & _ & ?). done.
Qed.

Lemma drain_live n s : live s -> live (drain n s).
Proof. intros Hl. induction n as [|n IH]; [done|]. simpl. by apply recv_one_live. Qed.

Lemma drain_const n s : base (drain n s) = base s /\ history (drain n s) = history s.
Proof.
  induction n as [|n [IH1 IH2]]; [done|]. simpl.
  pose proof (recv_one_const (drain n s)) as [-> ->]. done.
Qed.

Lemma drain_chan n s : live s -> chan (drain n s) = drop n (chan s).
Proof.
  intros Hl. induction n as [|n IH]; [by rewrite drop_0|]. simpl.
  rewrite recv_one_chan by by apply drain_live. rewrite IH.
  rewrite <-Nat.add_1_r, <-drop_drop. by destruct (drop n (chan s)).
Qed.

Lemma make_room_live s :
  live s -> live (make_room s) /\ Z.of_nat (length (chan (make_room s))) < chan_cap (make_room s) /\
  base (make_room s) = base s /\ history (make_room s) = history s.
Proof.
  intros Hl. unfold make_room. destruct (_ <? _) eqn:Hc; [split_done; try apply Hl; blia|].
  pose proof (recv_one_const s) as [Hb Hh]. pose proof (recv_one_live s Hl) as Hl'.
  split; [done|]. split; [|done]. rewrite recv_one_chan by done.
  assert (chan_cap (recv_one s) = chan_cap s) as ->.
  { unfold recv_one. destruct (chan s) as [|c cs] eqn:Hch; [done|].
    assert (wal_step (EvRecv (idle_clock s) IoOk) s =
      Some (loop_recv (idle_clock s) IoOk c (set_chan cs s))) as Hstep
      by by (simpl; rewrite (live_alive s Hl), Hch).
    by apply wal_step_const in Hstep as (_ & _ & ->). }
  pose proof (live_cap s Hl). pose proof (live_room s Hl).
  destruct (chan s); simpl in *; blia.
Qed.

Lemma enqueue_live c s :
  live s -> ~ is_shutdown c -> Z.of_nat (length (chan s)) < chan_cap s -> live (enqueue c s).
Proof.
  intros Hl Hsd Hroom. destruct Hl as [Hi Hal Hrun Hf Hcap _ Hcmds].
  split; simpl; try done.
  - by apply enqueue_inv.
  - rewrite length_app. simpl. lia.
  - apply Forall_app. split; [done|]. by constructor.
Qed.

Lemma set_pending_live p s : live s -> live (set_pending p s).
Proof. intros [Hi ??????]. by split. Qed.
End live.

#[export] Instance thread_sink : WalSink WalThread := {
  sink_spawn := spawn 0;
  sink_insert := insert_now;
  sink_delete := delete_now;
  sink_flush := flush_now;
  sink_pending := pending_bytes;
  sink_base := base;
  sink_recs s := cmds_recs (history s);
  sink_image s := durable (dev s);
  sink_live := live
}.

(** A command enqueued by a live thread. *)
Lemma enqueue_extends p c s :
  live s -> ~ is_shutdown c ->
  sink_extends s (enqueue c (set_pending p (make_room s))) (cmd_recs c).
Proof.
  intros Hl Hsd. destruct (make_room_live s Hl) as (Hl' & Hroom & Hb & Hh).
  split; [|split; [done|]].
  - apply enqueue_live; [by apply set_pending_live|done|done].
  - simpl. rewrite Hh, cmds_recs_app. unfold cmds_recs at 2. simpl. by rewrite app_nil_r.
Qed.

Lemma flush_now_spec s :
  live s ->
  live (flush_now s) /\ base (flush_now s) = base s /\ chan (flush_now s) = [] /\
  history (flush_now s) = history s ++ [Flush (length (history s))].
Proof.
  intros Hl. destruct (make_room_live s Hl) as (Hl' & Hroom & Hb & Hh). unfold flush_now.
  set (s1 := enqueue _ (make_room s)).
  assert (live s1) as Hl1 by (apply enqueue_live; [done|by intros []|done]).
  destruct (drain_const (length (chan s1)) s1) as [Hb2 Hh2].
  split; [by apply set_pending_live, drain_live|].
  set (s2 := drain _ s1) in *. split; [simpl; by rewrite Hb2|]. split.
  - simpl. unfold s2. by rewrite drain_chan, drop_all.
  - simpl. rewrite Hh2. simpl. by rewrite Hh.
Qed.

Lemma recv_one_fsync_timeout s : cfg (recv_one s) = cfg s.
Proof.
  unfold recv_one. destruct (chan s) as [|c cs]; [done|].
  by pose proof (loop_recv_const (idle_clock s) IoOk c (set_chan cs s)) as (? & _).
Qed.

(** The iteration that receives the [Flush] empties the buffer. *)
Lemma drain_flush s cs tok :
  live s -> chan s = cs ++ [Flush tok] ->
  buffer (drain (length (chan s)) s) = [] /\ tok ∈ replies (drain (length (chan s)) s).
Proof.
  intros Hl Hc. rewrite Hc, length_app. cbn [length]. rewrite Nat.add_1_r.
  change (drain (S (length cs)) s) with (recv_one (drain (length cs) s)).
  pose proof (drain_live (length cs) s Hl) as Hl'.
  pose proof (drain_chan (length cs) s Hl) as Hc'.
  rewrite Hc, drop_app_length in Hc'. unfold recv_one. rewrite Hc'.
  unfold loop_recv. simpl. rewrite (live_running _ Hl'). simpl.
  split; [apply (flush_and_sync_buffer IoOk)|apply list_elem_of_here].
Qed.

(** Durable bytes are never taken back. *)
Lemma flush_and_sync_grows s :
  durable (dev s) = written (dev s) -> fsync_on (cfg s) = true ->
  durable (dev s) `prefix_of` durable (dev (flush_and_sync IoOk s)).
Proof. intros Hd Hf. rewrite flush_and_sync_durable, Hd by done. by apply prefix_app_r. Qed.

Lemma live_durable s : live s -> durable (dev s) = written (dev s).
Proof. intros [(hs & lost & _ & _ & (_ & _ & Hd) & _) _ _ Hf _ _ _]. auto. Qed.

Lemma recv_one_grows s : live s -> durable (dev s) `prefix_of` durable (dev (recv_one s)).
Proof.
  intros Hl. pose proof (live_durable s Hl) as Hd. pose proof (live_fsync s Hl) as Hf.
  unfold recv_one. destruct (chan s) as [|c cs]; [done|]. unfold loop_recv.
  rewrite (live_running s Hl : running (set_chan cs s) = true). simpl negb. cbv iota.
  destruct c as [id record|id|tok|tok]; simpl.
  - destruct (sync_if_due_cases (idle_clock s) IoOk
      (set_buffer (encode_insert (buffer s) id record) (set_chan cs s))) as [-> | ->]; [done|].
    by apply (flush_and_sync_grows (set_buffer _ (set_chan cs s))).
  - destruct (sync_if_due_cases (idle_clock s) IoOk
      (set_buffer (encode_delete (buffer s) id) (set_chan cs s))) as [-> | ->]; [done|].
    by apply (flush_and_sync_grows (set_buffer _ (set_chan cs s))).
  - by apply (flush_and_sync_grows (set_chan cs s)).
  - by apply (flush_and_sync_grows (set_chan cs s)).
Qed.

Lemma make_room_grows s : live s -> durable (dev s) `prefix_of` durable (dev (make_room s)).
Proof. intros Hl. unfold make_room. destruct (_ <? _); [done|by apply recv_one_grows]. Qed.

#[export] Instance thread_sink_laws : WalSinkLaws WalThread.
Proof.
  split; cbn [sink_spawn sink_insert sink_delete sink_flush sink_base sink_recs
    sink_image sink_live thread_sink].
  - intros d cap file s (Hf & Hb & Hb2 & Hcap) Hs.
    pose proof (spawn_inv 0 d cap file s Hs) as Hi. unfold spawn in Hs.
    case_match; [|done]. simplify_eq/=. split; [|done].
    split; simpl; try done; [|lia]. unfold capacity_ok, isize_max in *. blia.
  - intros d cap file (Hf & Hb & Hb2 & Hcap). unfold spawn, capacity_ok, isize_max, wrap64 in *.
    rewrite Z.mod_small by lia. destruct (_ <=? _) eqn:?; [eauto|blia].
  - intros s id record Hl. apply (enqueue_extends _ (Insert id record) s Hl). intros [].
  - intros s id Hl. apply (enqueue_extends _ (Delete id) s Hl). intros [].
  - intros s Hl. destruct (flush_now_spec s Hl) as (Hl' & Hb & _ & Hh).
    split; [done|]. split; [done|].
    change (cmds_recs (history (flush_now s)) = cmds_recs (history s) ++ []).
    by rewrite Hh, cmds_recs_app.
  - intros s Hl. destruct (flush_now_spec s Hl) as (Hl' & Hb & Hc & Hh).
    destruct (live_inv _ Hl') as (hs & lost & Hsplit & Hlost & (Hw & _ & Hd) & _).
    rewrite (Hlost (live_alive _ Hl')), Hc, app_nil_r in Hsplit.
    rewrite Hd by by apply live_fsync.
    assert (buffer (flush_now s) = []) as Hbuf.
    { destruct (make_room_live s Hl) as (Hl1 & Hroom & _).
      unfold flush_now. apply (drain_flush _ (chan (make_room s)) (length (history s)));
        [apply enqueue_live; [done|by intros []|done]|done]. }
    rewrite Hbuf, app_nil_r in Hw. rewrite Hw, <-Hsplit, Hh, Hb, encode_cmds_recs.
    by rewrite cmds_recs_app, encode_recs_app, app_nil_r.
  - intros s Hl. destruct (live_inv _ Hl) as (hs & lost & Hsplit & Hlost & (Hw & _ & Hd) & _).
    rewrite Hd by by apply live_fsync. rewrite Hsplit, <-encode_cmds_recs, encode_cmds_app, app_assoc, <-Hw.
    rewrite <-app_assoc. by apply prefix_app_r.
  - intros s id record Hl. by apply make_room_grows.
  - intros s id Hl. by apply make_room_grows.
Qed.

(** ** The methods are runs *)

Section runs.
Implicit Types s : WalThread.

(** A run with no I/O failure. *)
Definition runs_to s s' : Prop := exists es, Forall ev_ok es /\ wal_run es s = Some s'.

Lemma runs_to_refl s : runs_to s s.
Proof. by exists []. Qed.

Lemma runs_to_step e s s1 s2 :
  ev_ok e -> runs_to s s1 -> wal_step e s1 = Some s2 -> runs_to s s2.
Proof.
  intros He (es & Hes & Hr) Hs. exists (es ++ [e]). split.
  - apply Forall_app. split; [done|]. by constructor.
  - rewrite wal_run_app, Hr. simpl. by rewrite Hs.
Qed.

Lemma recv_one_runs s s1 : runs_to s s1 -> live s1 -> chan s1 <> [] -> runs_to s (recv_one s1).
Proof.
  intros Hr Hl Hc. apply (runs_to_step (EvRecv (idle_clock s1) IoOk) s s1); [done..|].
  simpl. rewrite (live_alive _ Hl). unfold recv_one. by destruct (chan s1).
Qed.

Lemma make_room_runs s : live s -> runs_to s (make_room s).
Proof.
  intros Hl. unfold make_room. destruct (_ <? _) eqn:Hc; [apply runs_to_refl|].
  apply recv_one_runs; [apply runs_to_refl|done|]. intros Hn. rewrite Hn in Hc.
  pose proof (live_cap _ Hl). simpl in Hc. blia.
Qed.

Lemma drain_runs n s s1 :
  runs_to s s1 -> live s1 -> (n <= length (chan s1))%nat -> runs_to s (drain n s1).
Proof.
  intros Hr Hl. induction n as [|n IH]; intros Hn; [done|].
  apply recv_one_runs; [apply IH; lia|by apply drain_live|].
  change (chan (drain n s1) <> []). rewrite drain_chan by done.
  intros Hd. apply (f_equal length) in Hd.
  rewrite length_drop in Hd. simpl in Hd. lia.
Qed.

Lemma send_enabled c s :
  live s -> Z.of_nat (length (chan s)) < chan_cap s -> send c s = Some (enqueue c s).
Proof.
  intros Hl Hroom. unfold send. rewrite (live_alive _ Hl).
  destruct (_ <? _) eqn:?; [done|blia].
Qed.
End runs.

(** Every method call on an open thread completes: it is a run of the
    loop and the caller with the effect the contract states. In particular
    [flush] terminates, empties the channel and leaves on stable storage the
    log as it was opened followed by all the records sent. *)
Theorem methods_complete s id record :
  live s ->
  runs_to s (insert_now id record s) /\ runs_to s (delete_now id s) /\
  runs_to s (flush_now s) /\ chan (flush_now s) = [] /\
  durable (dev (flush_now s)) = base s ++ encode_recs (cmds_recs (history s)).
Proof.
  intros Hl. destruct (make_room_live s Hl) as (Hl1 & Hroom & _).
  pose proof (make_room_runs s Hl) as Hr. split; [|split; [|split; [|split]]].
  - apply (runs_to_step (EvInsert id record) s (make_room s)); [done..|].
    simpl. unfold send_insert. by rewrite send_enabled by (done || by apply set_pending_live).
  - apply (runs_to_step (EvDelete id) s (make_room s)); [done..|].
    simpl. unfold send_delete. by rewrite send_enabled by (done || by apply set_pending_live).
  - unfold flush_now. set (s1 := enqueue _ (make_room s)).
    assert (live s1) as Hl2 by (apply enqueue_live; [done|by intros []|done]).
    apply (runs_to_step (EvFlushReturn (length (history s))) s (drain (length (chan s1)) s1));
      [done| |].
    + apply drain_runs; [|done|lia].
      apply (runs_to_step (EvFlushSend (length (history s))) s (make_room s)); [done..|].
      simpl. unfold flush_send. by rewrite send_enabled.
    + simpl. unfold flush_return. rewrite bool_decide_eq_true_2; [done|].
      by apply (drain_flush s1 (chan (make_room s))).
  - by destruct (flush_now_spec s Hl) as (_ & _ & ? & _).
  - exact (sink_flush_image (WalSinkLaws := thread_sink_laws) s Hl).
Qed.

(** ** Refinement

    Under every schedule the thread implements the abstract log: the commands
    are carried out in the order the channel accepted them, each at the moment
    the loop receives it. *)

(** The command a caller's step sends. *)
Definition sent_by (e : WalEv) : list WalCmd :=
  match e with
  | EvInsert id record => [Insert id record]
  | EvDelete id => [Delete id]
  | EvFlushSend tok => [Flush tok]
  | _ => []
  end.

(** Steps of callers and of the loop, with nobody shutting the thread down. *)
Definition in_service (e : WalEv) : Prop :=
  match e with EvStop | EvShutdownSend _ | EvDropWake => False | _ => True end.

(** A command as an operation of the abstract log. *)
Definition cmd_op (c : WalCmd) : SinkOp :=
  match c with
  | Insert id record => SinkInsert id record
  | Delete id => SinkDelete id
  | Flush _ | Shutdown _ => SinkFlush
  end.

Definition log_run (l0 : LogSink.t) (cs : list WalCmd) : LogSink.t :=
  sink_run (H := LogSink.sink) l0 (map cmd_op cs).

Abbreviation log_image := (sink_image (WalSink := LogSink.sink)).
Abbreviation log_flush := (sink_flush (WalSink := LogSink.sink)).

Section refinement.
Implicit Types (s : WalThread) (l : LogSink.t) (hs : list WalCmd).

Lemma log_run_snoc l0 hs c :
  log_run l0 (hs ++ [c]) = sink_exec (H := LogSink.sink) (log_run l0 hs) (cmd_op c).
Proof. unfold log_run, sink_run. by rewrite map_app, foldl_app. Qed.

Lemma log_run_spec l0 hs :
  LogSink.recs l0 = [] -> LogSink.synced l0 = 0%nat ->
  LogSink.base (log_run l0 hs) = LogSink.base l0 /\ LogSink.recs (log_run l0 hs) = cmds_recs hs /\
  (LogSink.synced (log_run l0 hs) <= length (LogSink.recs (log_run l0 hs)))%nat.
Proof.
  intros Hr Hs. induction hs as [|c hs (Hb & IH & Hle)] using rev_ind.
  { unfold log_run, sink_run. simpl. rewrite Hr, Hs. done. }
  rewrite log_run_snoc, cmds_recs_app, <-IH. unfold cmds_recs at 1.
  destruct c; simpl; rewrite ?app_nil_r, ?length_app; split_done; simpl; lia.
Qed.

Lemma log_image_append r size l :
  (LogSink.synced l <= length (LogSink.recs l))%nat ->
  log_image (LogSink.append r size l) = log_image l.
Proof. intros Hs. simpl. by rewrite take_app_le. Qed.

(** The simulation: [hs] is what the loop has carried out. *)
Record serves l0 hs s : Prop := {
  sv_alive : alive s = true;
  sv_running : running s = true;
  sv_open : Forall (fun c => ~ is_shutdown c) (hs ++ chan s);
  sv_base : base s = LogSink.base l0;
  sv_file : file_inv hs s;
  sv_synced : log_image (log_run l0 hs) `prefix_of` written (dev s);
  sv_replies tok : tok ∈ replies s <-> Flush tok ∈ hs
}.

Lemma serves_image l0 hs s :
  LogSink.recs l0 = [] -> LogSink.synced l0 = 0%nat -> serves l0 hs s ->
  log_image (log_flush (log_run l0 hs)) = written (dev s) ++ buffer s.
Proof.
  intros Hr Hs Hsv. destruct (log_run_spec l0 hs Hr Hs) as (Hb & Hrec & _).
  destruct (sv_file _ _ _ Hsv) as [-> _]. rewrite (sv_base _ _ _ Hsv). simpl.
  by rewrite firstn_all, Hb, Hrec, encode_cmds_recs.
Qed.
(** Accepting a command. *)
Lemma serves_enqueue l0 hs s p c :
  ~ is_shutdown c -> serves l0 hs s -> serves l0 hs (enqueue c (set_pending p s)).
Proof.
  intros Hc [Hal Hrun Hop Hb Hf Hsy Hre]. split; try done. simpl. rewrite app_assoc.
  apply Forall_app. split; [done|by constructor].
Qed.

Lemma serves_send l0 hs s p c s' :
  ~ is_shutdown c -> serves l0 hs s -> send c (set_pending p s) = Some s' ->
  serves l0 hs s' /\ chan s' = chan s ++ [c].
Proof.
  intros Hc Hsv. unfold send. simpl. rewrite (sv_alive _ _ _ Hsv). destruct (_ <? _); [|done].
  intros [= <-]. split; [by apply serves_enqueue|done].
Qed.

(** The end of an iteration. *)
Lemma serves_sync l0 hs clk s : serves l0 hs s -> serves l0 hs (sync_if_due clk IoOk s).
Proof.
  intros [Hal Hrun Hop Hb Hf Hsy Hre].
  pose proof (sync_if_due_frame clk IoOk s) as Hfr. simpl in Hfr.
  destruct Hfr as (_ & _ & Hch & Hr' & Ha' & Hre' & Hb' & _).
  split; rewrite ?Hch, ?Hr', ?Ha', ?Hre', ?Hb'; try done;
    destruct (sync_if_due_cases clk IoOk s) as [->| ->]; try done.
  - by apply (flush_and_sync_inv hs s).
  - simpl. rewrite flush_and_sync_written. by apply prefix_app_r.
Qed.

(** The loop carries out a command that is written to the log. *)
Lemma serves_data l0 hs c s :
  LogSink.recs l0 = [] -> LogSink.synced l0 = 0%nat ->
  match c with Insert _ _ | Delete _ => True | _ => False end ->
  serves l0 hs s ->
  serves l0 (hs ++ [c]) (set_buffer (buffer s ++ encode_cmd c) s).
Proof.
  intros Hr Hs Hc [Hal Hrun Hop Hb Hf Hsy Hre]. split; try done.
  - apply Forall_app in Hop as [Hop1 Hop2]. rewrite <-app_assoc. apply Forall_app.
    split; [done|]. simpl. constructor; [by destruct c; intros []|done].
  - by apply set_buffer_inv.
  - rewrite log_run_snoc. destruct (log_run_spec l0 hs Hr Hs) as (_ & _ & Hle).
    destruct c; try done; cbn [cmd_op sink_exec sink_insert sink_delete LogSink.sink];
      by rewrite log_image_append.
  - intros tok. simpl. rewrite Hre, elem_of_app, list_elem_of_singleton.
    destruct c; naive_solver.
Qed.

(** The loop carries out a flush. *)
Lemma serves_flush l0 hs tok t s :
  LogSink.recs l0 = [] -> LogSink.synced l0 = 0%nat -> serves l0 hs s ->
  serves l0 (hs ++ [Flush tok]) (add_reply tok (set_last_sync t (flush_and_sync IoOk s))).
Proof.
  intros Hr Hs Hsv. pose proof (serves_image l0 hs s Hr Hs Hsv) as Himg.
  destruct Hsv as [Hal Hrun Hop Hb Hf Hsy Hre].
  pose proof (flush_and_sync_frame IoOk s) as Hfr. simpl in Hfr.
  destruct Hfr as (_ & _ & Hch & Hr' & Ha' & Hre' & Hb' & _).
  split; cbn [alive running chan base replies dev add_reply set_last_sync];
    rewrite ?Hch, ?Hr', ?Ha', ?Hre', ?Hb'; try done.
  - apply Forall_app in Hop as [Hop1 Hop2]. rewrite <-app_assoc. apply Forall_app.
    split; [done|]. simpl. constructor; [by intros []|done].
  - apply (file_inv_control hs (Flush tok)); [done|]. by apply (flush_and_sync_inv hs s).
  - rewrite log_run_snoc. cbn [cmd_op sink_exec]. by rewrite Himg, flush_and_sync_written.
  - intros tok'. rewrite elem_of_cons, elem_of_app, list_elem_of_singleton, Hre. naive_solver.
Qed.

Lemma serves_recv l0 hs clk c s :
  LogSink.recs l0 = [] -> LogSink.synced l0 = 0%nat -> ~ is_shutdown c ->
  serves l0 hs s -> serves l0 (hs ++ [c]) (loop_recv clk IoOk c s).
Proof.
  intros Hr Hs Hc Hsv. unfold loop_recv. rewrite (sv_running _ _ _ Hsv). cbn [negb].
  destruct c as [id record|id|tok|tok]; [| | |by destruct Hc].
  - rewrite encode_insert_cmd. apply serves_sync. by apply serves_data.
  - rewrite encode_delete_cmd. apply serves_sync. by apply serves_data.
  - by apply serves_flush.
Qed.

Lemma serves_step l0 hs e s s' :
  LogSink.recs l0 = [] -> LogSink.synced l0 = 0%nat -> ev_ok e -> in_service e ->
  serves l0 hs s -> wal_step e s = Some s' ->
  exists hs', serves l0 hs' s' /\ hs' ++ chan s' = hs ++ chan s ++ sent_by e.
Proof.
  intros Hr Hs Hok Hin Hsv Hstep.
  destruct e as [id record|id|tok|tok| | | |clk io|clk io]; try done; simpl in Hok, Hstep.
  - exists hs. apply serves_send with (l0 := l0) (hs := hs) in Hstep as [Hsv' ->]; [done|by intros []|done].
  - exists hs. apply serves_send with (l0 := l0) (hs := hs) in Hstep as [Hsv' ->]; [done|by intros []|done].
  - exists hs. destruct (serves_send l0 hs s (pending_bytes s) (Flush tok) s') as [Hsv' ->];
      [by intros []|done|by destruct s|done].
  - exists hs. unfold flush_return in Hstep. case_match; [|done]. injection Hstep as <-.
    rewrite app_nil_r. split; [by destruct Hsv; split|done].
  - subst io. rewrite (sv_alive _ _ _ Hsv) in Hstep. destruct (chan s) as [|c cs] eqn:Hch; [done|].
    injection Hstep as <-. exists (hs ++ [c]).
    pose proof (sv_open _ _ _ Hsv) as Hop. rewrite Hch in Hop.
    apply Forall_app in Hop as [Hop1 [Hc Hcs]%Forall_cons_iff].
    assert (serves l0 hs (set_chan cs s)) as Hsv'.
    { destruct Hsv. split; try done. by apply Forall_app. }
    split; [by apply serves_recv|].
    destruct (loop_recv_open clk IoOk c (set_chan cs s) (sv_running _ _ _ Hsv) Hc) as (_ & _ & ->).
    simpl. by rewrite app_nil_r, <-app_assoc.
  - subst io. rewrite (sv_alive _ _ _ Hsv) in Hstep. destruct (chan s) as [|c cs] eqn:Hch; [|done].
    injection Hstep as <-. exists hs. unfold loop_timeout. rewrite (sv_running _ _ _ Hsv). cbn [negb andb].
    split; [by apply serves_sync|].
    destruct (sync_if_due_frame clk IoOk s) as (_ & _ & -> & _). by rewrite Hch.
Qed.

Lemma serves_run l0 es hs s s' :
  LogSink.recs l0 = [] -> LogSink.synced l0 = 0%nat -> Forall ev_ok es -> Forall in_service es ->
  serves l0 hs s -> wal_run es s = Some s' ->
  exists hs', serves l0 hs' s' /\ hs' ++ chan s' = hs ++ chan s ++ (es ≫= sent_by).
Proof.
  intros Hr Hs Hok. revert hs s. induction Hok as [|e es He Hok IH]; intros hs s Hin Hsv Hrun; simpl in Hrun.
  - injection Hrun as <-. exists hs. by rewrite app_nil_r.
  - apply Forall_cons in Hin as [Hi Hin]. destruct (wal_step e s) as [s1|] eqn:Hstep; [|done].
    destruct (serves_step l0 hs e s s1) as (hs1 & Hsv1 & Heq1); [done..|].
    destruct (IH hs1 s1 Hin Hsv1 Hrun) as (hs2 & Hsv2 & Heq2).
    exists hs2. split; [done|]. simpl. by rewrite Heq2, app_assoc, Heq1, <-!app_assoc.
Qed.

Lemma spawn_fsync now d cap file s : spawn now d cap file = Ok s -> fsync_on (cfg s) = fsync_enabled d.
Proof. unfold spawn. case_match; [|done]. by intros [= <-]. Qed.
End refinement.

(** C25: refinement. The thread is spawned as the contract asks and the abstract
    log is opened on the same file. Callers insert, delete and flush in any
    interleaving with the loop and the clock, no file operation failing and
    nobody shutting the thread down. At every moment the commands sent so far
    are those the loop has carried out, in order, and then those in the
    channel; what is on stable storage lies between what the abstract log,
    after the same commands, counts as durable and what it would hold after a
    flush; and a caller's [flush] can return if and only if its command is among
    those carried out. *)
Theorem thread_refines_log now d cap file s0 l0 es s :
  contract_ok d cap -> spawn now d cap file = Ok s0 ->
  sink_spawn (WalSink := LogSink.sink) d cap file = Ok l0 ->
  Forall ev_ok es -> Forall in_service es -> wal_run es s0 = Some s ->
  exists hs, (es ≫= sent_by) = hs ++ chan s /\
    log_image (log_run l0 hs) `prefix_of` durable (dev s) /\
    durable (dev s) `prefix_of` log_image (log_flush (log_run l0 hs)) /\
    forall tok, is_Some (flush_return tok s) <-> Flush tok ∈ hs.
Proof.
  intros (Hf & Hb0 & Hb2 & Hcap) Hs0 Hl0 Hok Hin Hrun. injection Hl0 as <-. set (l0 := LogSink.mk _ _ _ _).
  pose proof (spawn_inv _ _ _ _ _ Hs0) as Hinv0. pose proof (spawn_fsync _ _ _ _ _ Hs0) as Hfs.
  assert (serves l0 [] s0) as Hsv0.
  { unfold spawn in Hs0. case_match; [|done]. injection Hs0 as <-. split; try done; simpl.
    - unfold capacity_ok, isize_max in *. blia.
    - by rewrite app_nil_r.
    - intros tok. by rewrite !elem_of_nil. }
  assert (chan s0 = []) as Hch0.
  { unfold spawn in Hs0. case_match; [|done]. by injection Hs0 as <-. }
  destruct (serves_run l0 es [] s0 s eq_refl eq_refl Hok Hin Hsv0 Hrun) as (hs & Hsv & Heq).
  rewrite Hch0 in Heq. simpl in Heq. exists hs. split; [done|].
  assert (durable (dev s) = written (dev s)) as ->.
  { apply (sv_file _ _ _ Hsv). by rewrite (proj1 (wal_run_const _ _ _ Hrun)), Hfs. }
  split; [apply Hsv|]. split.
  - rewrite (serves_image l0 hs s) by done. by apply prefix_app_r.
  - intros tok. rewrite <-(sv_replies _ _ _ Hsv tok). unfold flush_return.
    rewrite (sv_alive _ _ _ Hsv), orb_false_r. case_bool_decide; split; [done|by eexists|by intros []|done].
Qed.

(** ** Evaluated runs *)

Definition clk0 : Clock := mkClock 0 0.

(** Two inserts and a flush, then one more insert that stays in the channel. *)
Definition demo_events : list WalEv :=
  [EvInsert 7 [Byte.x01; Byte.x02]; EvInsert 8 []; EvFlushSend 1;
   EvRecv clk0 IoOk; EvRecv clk0 IoOk; EvRecv clk0 IoOk; EvFlushReturn 1; EvInsert 9 []].

Definition demo_thread (d : Durability) (file : option bytes) (es : list WalEv) : WalThread :=
  match spawn 0 d 4 file with
  | Ok s0 => default s0 (wal_run es s0)
  | _ => mkThread (mkConfig 0 0 0 false) 0 [] 0 false false [] [] 0 (mkDevice [] []) [] []
  end.

Definition demo_log : option bytes := Some (MAGIC ++ encode_cmds [Insert 1 [Byte.x05]]).

Lemma demo_reached d es :
  (exists s0, spawn 0 d 4 demo_log = Ok s0 /\ is_Some (wal_run es s0)) ->
  Forall ev_ok es -> reached d demo_log (demo_thread d demo_log es).
Proof.
  intros (s0 & Hs0 & [s Hs]) Hes. exists 0, 4, s0, es. unfold demo_thread.
  by rewrite Hs0, Hs.
Qed.

Ltac reached_by_run :=
  apply demo_reached;
  [eexists; split; [vm_compute; reflexivity|eexists; vm_compute; reflexivity]
  |repeat constructor].

Lemma wal_order_witness :
  exists hs, written (dev (demo_thread (Batch 5 65536) demo_log demo_events)) ++
    buffer (demo_thread (Batch 5 65536) demo_log demo_events) =
  log_contents demo_log ++ encode_cmds hs.
Proof.
  destruct (wal_order (Batch 5 65536) demo_log
    (demo_thread (Batch 5 65536) demo_log demo_events)) as (hs & rest & _ & _ & Hw & _);
    [reached_by_run|].
  by exists hs.
Defined.

Lemma flush_makes_durable_witness :
  log_contents demo_log ++ encode_cmds [Insert 7 [Byte.x01; Byte.x02]; Insert 8 []]
    `prefix_of` durable (dev (demo_thread (Batch 5 65536) demo_log demo_events)).
Proof.
  apply (flush_makes_durable (Batch 5 65536) demo_log _ 1 _ [Insert 9 []]).
  - reached_by_run.
  - reflexivity.
  - vm_compute. reflexivity.
  - by_decide.
  - by_decide.
Defined.

(** The log cut in the middle of the record written last. *)
Lemma crash_recovers_prefix_witness :
  let s := demo_thread (Batch 5 65536) demo_log (demo_events ++ [EvRecv clk0 IoOk]) in
  let bs := durable (dev s) ++ take 6 (buffer s) in
  exists rs o, replay_wal push_rec bs [] = (o, rs) /\ (o = Ok tt \/ o = Err UnexpectedEof) /\
    cmds_recs ([Insert 1 [Byte.x05]] ++ [Insert 7 [Byte.x01; Byte.x02]; Insert 8 []]) `prefix_of` rs.
Proof.
  intros s bs.
  destruct (crash_recovers_prefix (Batch 5 65536) [Insert 1 [Byte.x05]] s bs 1
    [Insert 7 [Byte.x01; Byte.x02]; Insert 8 []] [Insert 9 []]) as (rs & o & H1 & H2 & _ & H3).
  - reached_by_run.
  - reflexivity.
  - by_decide.
  - vm_compute. reflexivity.
  - by_decide.
  - by_decide.
  - split; apply (bool_decide_unpack _); vm_compute; exact I.
  - exists rs, o. split; [exact H1|]. split; [exact H2|exact H3].
Defined.

Lemma immediate_loses_only_the_channel_witness :
  exists hs, history (demo_thread Immediate demo_log [EvInsert 7 []; EvRecv clk0 IoOk; EvDelete 7]) =
      hs ++ [Delete 7] /\
    durable (dev (demo_thread Immediate demo_log [EvInsert 7 []; EvRecv clk0 IoOk; EvDelete 7])) =
      log_contents demo_log ++ encode_cmds hs.
Proof.
  apply (immediate_loses_only_the_channel demo_log
    (demo_thread Immediate demo_log [EvInsert 7 []; EvRecv clk0 IoOk; EvDelete 7])).
  - reached_by_run.
  - vm_compute. reflexivity.
Defined.

Lemma batch_window_witness :
  let s := demo_thread (Batch 5 65536) demo_log [EvInsert 7 []] in
  buffer (loop_recv clk0 IoOk (Insert 7 []) (set_chan [] s)) = [] \/
  (Z.of_nat (length (buffer (loop_recv clk0 IoOk (Insert 7 []) (set_chan [] s)))) < 65536 /\
   elapsed 0 (last_sync (loop_recv clk0 IoOk (Insert 7 []) (set_chan [] s))) < 5000000).
Proof.
  intros s. apply (batch_window (EvRecv clk0 IoOk) clk0 IoOk s).
  - left. reflexivity.
  - vm_compute. reflexivity.
  - vm_compute. reflexivity.
Defined.

(** The insert that was in the channel when the handle was shut down is lost. *)
Lemma shutdown_discards_queue_witness :
  let s := demo_thread (Batch 5 65536) demo_log [EvInsert 7 []] in
  exists s', wal_run [EvStop; EvShutdownSend 1; EvRecv clk0 IoOk] s = Some s' /\
    written (dev s') = log_contents demo_log /\ replies s' = [].
Proof.
  intros s. destruct (shutdown_discards_queue s (EvShutdownSend 1) 1 clk0) as (s' & Hr & _ & _ & Hre & Hw).
  - left. reflexivity.
  - vm_compute. reflexivity.
  - vm_compute. reflexivity.
  - exists s'. split; [exact Hr|]. rewrite Hw, Hre. split; vm_compute; reflexivity.
Defined.

(** A write that fails is reported on stderr only: the buffer is emptied and the
    flush answered, with nothing of it in the file. *)
Example failed_write_answered :
  let s := demo_thread (Batch 5 65536) None
    [EvInsert 7 []; EvFlushSend 1; EvRecv clk0 IoOk; EvRecv clk0 (IoFail (mkDevice MAGIC MAGIC));
     EvFlushReturn 1] in
  replies s = [1]%nat /\ buffer s = [] /\ written (dev s) = MAGIC.
Proof. by vm_compute. Qed.

Lemma spawn_works_iff_witness :
  durability_wf Async /\ spawn 0 Async 8192 None = Panic.
Proof.
  split; [exact I|]. apply (spawn_works_iff 0 Async 8192 None); [exact I|reflexivity].
Defined.

Lemma methods_complete_witness :
  exists s, spawn 0 (Batch 5 65536) 4 demo_log = Ok s /\
    durable (dev (flush_now s)) = base s ++ encode_recs (cmds_recs (history s)).
Proof.
  destruct (spawn 0 (Batch 5 65536) 4 demo_log) as [s| |] eqn:Hs; [|discriminate Hs..].
  exists s. split; [reflexivity|].
  apply (methods_complete s 7 []).
  refine (proj1 (sink_spawn_live (W := WalThread) (Batch 5 65536) 4 demo_log s _ Hs)).
  by_decide.
Defined.

(** Two callers, the second flush not carried out yet. *)
Definition refine_events : list WalEv :=
  [EvInsert 7 []; EvFlushSend 1; EvRecv clk0 IoOk; EvDelete 7; EvRecv clk0 IoOk;
   EvRecv clk0 IoOk; EvInsert 8 []; EvFlushReturn 1; EvFlushSend 2].

Lemma thread_refines_log_witness :
  let es := refine_events in
  let s := demo_thread (Batch 5 64) demo_log es in
  exists hs, (es ≫= sent_by) = hs ++ [Insert 8 []; Flush 2] /\
    log_image (log_run (LogSink.mk (log_contents demo_log) [] 0 0) hs) `prefix_of` durable (dev s) /\
    is_Some (flush_return 1 s).
Proof.
  intros es s.
  destruct (thread_refines_log 0 (Batch 5 64) 4 demo_log (demo_thread (Batch 5 64) demo_log [])
    (LogSink.mk (log_contents demo_log) [] 0 0) es s) as (hs & Heq & Himg & _ & Hret).
  - by_decide.
  - vm_compute. reflexivity.
  - reflexivity.
  - repeat constructor.
  - repeat constructor.
  - vm_compute. reflexivity.
  - exists hs. split; [exact Heq|]. split; [exact Himg|]. apply (Hret 1%nat).
    assert (hs = [Insert 7 []; Flush 1; Delete 7]) as ->.
    { apply (app_inv_tail (chan s)). rewrite <-Heq. vm_compute. reflexivity. }
    right. left.
Defined.
