(* ===== verification/RecLog.v ===== *)
(** * A map kept in step with its log

    [NodeStore] and [EdgeStore] persist their map the same way: every change of
    an entry sends the whole new record (opcode 1) or a delete (opcode 2), and
    [open] replays the file. This file states that once, for any record type:
    [recover] is the map a log stands for, [logged] the link between the map in
    memory and the WAL, [replay_file] the shape of both [open]s. *)

From S2P Require Export Codec WalSink.

Open Scope Z_scope.

(** [wal_path.exists() && metadata.len() > 4] *)
Definition has_records (file : option bytes) : bool :=
  match file with
  | Some bs => 4 <? Z.of_nat (length bs)
  | None => false
  end.

(** Replay [file], if it has records, into [init] and a running [max_id], and
    set the id counter with [fin]. *)
Definition replay_file {S : Type} (step : Z -> Z -> bytes -> S * Z -> S * Z) (init : S)
    (fin : Z -> S -> S) (file : option bytes) : io S :=
  if has_records file then
    let '(r, (s, max_id)) := replay_wal step (default [] file) (init, 0) in
    let? _ := r in Ok (fin (wrap64 (max_id + 1)) s)
  else Ok init.

Section replay_file.
Context {S : Type} (step : Z -> Z -> bytes -> S * Z -> S * Z) (init : S) (fin : Z -> S -> S).
Implicit Types (rs : list WalRec).

Lemma encode_recs_nil rs : encode_recs rs = [] -> rs = [].
Proof.
  destruct rs as [|r rs]; [done|]. intros Hrs. apply (f_equal length) in Hrs.
  unfold encode_recs in Hrs. cbn [map concat] in Hrs.
  rewrite length_app, length_encode_rec in Hrs. done.
Qed.

Lemma has_records_log rs :
  has_records (Some (MAGIC ++ encode_recs rs)) = negb (bool_decide (rs = [])).
Proof.
  unfold has_records. rewrite length_app. change (length MAGIC) with 4%nat.
  destruct rs as [|r rs]; [done|]. unfold encode_recs. cbn [map concat].
  rewrite length_app, length_encode_rec, bool_decide_eq_false_2 by done. apply Z.ltb_lt. lia.
Qed.

(** Both sides of the header test. *)
Lemma log_contents_cases file rs :
  log_contents file = MAGIC ++ encode_recs rs ->
  (rs = [] /\ has_records file = false) \/
  (rs ≠ [] /\ has_records file = true /\ default [] file = MAGIC ++ encode_recs rs).
Proof.
  intros Hlog. destruct file as [[|b bs]|]; cbn [log_contents] in Hlog.
  - left. split; [|done]. apply encode_recs_nil. by apply (app_inv_head MAGIC).
  - assert (Some (b :: bs) = Some (MAGIC ++ encode_recs rs)) as -> by (f_equal; exact Hlog).
    rewrite has_records_log. destruct (bool_decide_reflect (rs = [])); [by left|by right].
  - left. split; [|done]. apply encode_recs_nil. by apply (app_inv_head MAGIC).
Qed.

(** A whole log: no records leave [init], counter included. *)
Lemma replay_file_recs file rs :
  log_contents file = MAGIC ++ encode_recs rs -> Forall rec_ok rs ->
  replay_file step init fin file = Ok
    (if bool_decide (rs = []) then init
     else let '(s, max_id) := apply_recs step rs (init, 0) in fin (wrap64 (max_id + 1)) s).
Proof.
  intros Hlog Hrs. unfold replay_file.
  destruct (log_contents_cases file rs Hlog) as [[-> ->]|(Hne & -> & Hfile)]; [done|].
  rewrite bool_decide_eq_false_2 by done. rewrite Hfile, replay_wal_recs by done.
  by destruct (apply_recs step rs (init, 0)).
Qed.

(** A log cut anywhere after its header. *)
Lemma replay_file_cut rs n :
  Forall rec_ok rs ->
  replay_file step init fin (Some (MAGIC ++ take n (encode_recs rs))) =
    if bool_decide (take n (encode_recs rs) = []) then Ok init
    else
      let? _ := (cut_recs rs n).2 in
      Ok (let '(s, max_id) := apply_recs step (cut_recs rs n).1 (init, 0) in
          fin (wrap64 (max_id + 1)) s).
Proof.
  intros Hrs. unfold replay_file, has_records. rewrite length_app.
  change (length MAGIC) with 4%nat. case_bool_decide as Hnil.
  - rewrite Hnil. done.
  - destruct (_ <? _) eqn:Hlen.
    + cbn [default from_option id]. rewrite replay_wal_magic, replay_loop_cut by (done || lia).
      destruct (apply_recs step (cut_recs rs n).1 (init, 0)). by destruct (cut_recs rs n).2.
    + destruct Hnil. apply length_zero_iff_nil. blia.
Qed.
End replay_file.

(** ** The map a log stands for *)

Section recover.
Context {A : Type} `{CodecLaws A}.
Implicit Types (m : gmap Z A) (rs : list WalRec).

(** What one record does to the map. *)
Definition apply_val m (r : WalRec) : gmap Z A :=
  if r_opcode r =? 1 then
    match deserialize (r_payload r) with
    | Some a => <[r_id r := a]> m
    | None => m
    end
  else if r_opcode r =? 2 then delete (r_id r) m
  else m.

Definition recover rs m : gmap Z A := foldl apply_val m rs.

Lemma recover_app rs1 rs2 m : recover (rs1 ++ rs2) m = recover rs2 (recover rs1 m).
Proof. apply foldl_app. Qed.

(** A replay callback that keeps a map and [max_id] computes [recover], and
    [max_id] bounds the ids of the map. *)
Section callback.
Context {S : Type} (step : Z -> Z -> bytes -> S * Z -> S * Z) (vals : S -> gmap Z A).
Hypothesis step_vals : forall op id pl st,
  vals (step op id pl st).1 = apply_val (vals st.1) (mkRec op id pl).
Hypothesis step_max : forall op id pl st,
  (step op id pl st).2 = Z.max st.2 id \/
  ((step op id pl st).2 = st.2 /\ dom (vals (step op id pl st).1) ⊆ dom (vals st.1)).

Lemma apply_recs_vals rs st :
  vals (apply_recs step rs st).1 = recover rs (vals st.1).
Proof.
  revert st. induction rs as [|[op id pl] rs IH]; intros st; [done|]. simpl. rewrite IH.
  unfold apply_rec. by rewrite step_vals.
Qed.

Definition rec_id_ok (r : WalRec) : Prop := 0 <= r_id r < u64_max.

Definition max_id_ok (st : S * Z) : Prop :=
  (forall id, id ∈ dom (vals st.1) -> 0 <= id <= st.2) /\ 0 <= st.2 < u64_max.

Lemma apply_recs_max rs st :
  Forall rec_id_ok rs -> max_id_ok st -> max_id_ok (apply_recs step rs st).
Proof.
  intros Hrs. revert st. induction Hrs as [|[op id pl] rs Hr Hrs IH]; intros st Hok; [done|].
  destruct Hok as [Hle Hmx]. unfold rec_id_ok in Hr. simpl in *. apply IH.
  unfold apply_rec, max_id_ok. simpl.
  destruct (step_max op id pl st) as [Hmax|[-> Hsub]].
  - rewrite Hmax. split; [|lia]. rewrite step_vals. unfold apply_val. simpl. intros i.
    destruct (_ =? 1); [destruct (deserialize pl)|destruct (_ =? 2)];
      rewrite ?dom_insert_L, ?dom_delete_L; intros Hi.
    + apply elem_of_union in Hi as [->%elem_of_singleton|Hi]; [lia|].
      specialize (Hle i Hi). lia.
    + specialize (Hle i Hi). lia.
    + apply elem_of_difference in Hi as [Hi _]. specialize (Hle i Hi). lia.
    + specialize (Hle i Hi). lia.
  - split; [|lia]. intros i Hi. apply Hle. set_solver.
Qed.
End callback.

(** ** Memory and the WAL *)

Context {W : Type} `{WalSinkLaws W}.
Implicit Types (w : W).

(** The map in memory is the map at open time [m0], on the log [b], followed by
    the records the WAL has accepted. *)
Definition logged (m0 : gmap Z A) (b : bytes) m (wal : option W) : Prop :=
  exists w, wal = Some w /\ sink_live w /\ sink_base w = b /\ m = recover (sink_recs w) m0.

Lemma logged_put m0 b m w id a data :
  logged m0 b m (Some w) -> serialize a = Some data ->
  logged m0 b (<[id := a]> m) (Some (sink_insert id data w)).
Proof.
  intros (w' & [= <-] & Hl & Hb & ->) Hd.
  destruct (sink_insert_extends w id data Hl) as (Hl' & Hb' & Hr').
  eexists. split; [done|]. split; [done|]. split; [congruence|].
  rewrite Hr', recover_app. cbn [recover foldl]. unfold apply_val at 1. simpl.
  by rewrite (deserialize_serialize a data Hd).
Qed.

Lemma logged_del m0 b m w id :
  logged m0 b m (Some w) -> logged m0 b (delete id m) (Some (sink_delete id w)).
Proof.
  intros (w' & [= <-] & Hl & Hb & ->).
  destruct (sink_delete_extends w id Hl) as (Hl' & Hb' & Hr').
  eexists. split; [done|]. split; [done|]. split; [congruence|].
  by rewrite Hr', recover_app.
Qed.

Lemma logged_sync m0 b m w : logged m0 b m (Some w) -> logged m0 b m (Some (sink_flush w)).
Proof.
  intros (w' & [= <-] & Hl & Hb & ->). destruct (sink_flush_extends w Hl) as (Hl' & Hb' & Hr').
  eexists. rewrite Hr', app_nil_r. split_done. congruence.
Qed.

Lemma logged_some m0 b m wal : logged m0 b m wal -> exists w, wal = Some w.
Proof. intros (w & -> & _). eauto. Qed.

Lemma logged_fresh c file rs w m :
  contract_ok (durability c) (wal_channel_capacity c) ->
  sink_spawn (durability c) (wal_channel_capacity c) file = Ok w ->
  log_contents file = MAGIC ++ encode_recs rs ->
  logged m (MAGIC ++ encode_recs rs) m (Some w).
Proof.
  intros Hc Hw Hlog. destruct (sink_spawn_live _ _ _ _ Hc Hw) as (Hl & Hb & Hr & _).
  exists w. rewrite Hr, <-Hlog. done.
Qed.

(** What a flush leaves on disk is a log whose map is the one in memory. *)
Lemma logged_image rs0 m wal :
  logged (recover rs0 ∅) (MAGIC ++ encode_recs rs0) m wal ->
  exists w, wal = Some w /\
    sink_image (sink_flush w) = MAGIC ++ encode_recs (rs0 ++ sink_recs w) /\
    m = recover (rs0 ++ sink_recs w) ∅.
Proof.
  intros (w & -> & Hl & Hb & ->). exists w. split; [done|].
  by rewrite (sink_flush_image w Hl), Hb, encode_recs_app, recover_app, app_assoc.
Qed.
End recover.

#[export] Hint Resolve logged_sync logged_fresh : lightgraph.
