(* ===== verification/IdPool.v ===== *)
(** * Slab ids: what [alloc_id] and [hard_delete] keep true

    [NodeStore] and [EdgeStore] allocate ids the same way: from a FIFO of freed
    ids, else from a counter. [pool_ok] is the invariant both maintain, with
    [D] the ids in the map and [R] the ids handed out by [alloc_id_direct] and
    not inserted yet: the map, the reserved ids and the free list partition the
    ids below [next]. The lemmas are one per step that changes a pool. *)

From S2P Require Export Prelude.

Open Scope Z_scope.

Record pool_ok (D R : gset Z) (next : Z) (fl : list Z) : Prop := {
  pool_nodup : NoDup fl;
  pool_free i : i ∈ fl -> (i ∉ D) /\ (i ∉ R) /\ 0 <= i < next;
  pool_dom i : i ∈ D -> 0 <= i < next;
  pool_reserved i : i ∈ R -> (i ∉ D) /\ 0 <= i < next;
  pool_cover i : 0 <= i < next -> i ∈ D \/ i ∈ R \/ i ∈ fl;
  pool_next : 0 <= next
}.

Section pool.
Implicit Types (D R : gset Z) (next i : Z) (fl : list Z).

Lemma pool_ok_empty : pool_ok ∅ ∅ 0 [].
Proof. split; [constructor|set_solver..|lia|lia]. Qed.

(** [free_list.pop()] *)
Lemma pool_ok_pop D R next i fl :
  pool_ok D R next (i :: fl) -> pool_ok D (R ∪ {[i]}) next fl /\ (i ∉ D) /\ (i ∉ R).
Proof.
  intros [Hnd Hfree Hdom Hres Hcov Hn]. apply NoDup_cons in Hnd as [Hni Hnd].
  destruct (Hfree i) as (HD & HR & Hi); [apply list_elem_of_here|].
  split; [|done]. split; [done| |done| | |done].
  - intros j Hj. destruct (Hfree j) as (? & ? & ?); [by apply list_elem_of_further|].
    set_solver.
  - intros j [?| ->%elem_of_singleton]%elem_of_union; auto.
  - intros j Hj. destruct (Hcov j Hj) as [?|[?|[->|?]%elem_of_cons]]; set_solver.
Qed.

(** [next_id.fetch_add(1)] *)
Lemma pool_ok_fresh D R next fl :
  pool_ok D R next fl -> pool_ok D (R ∪ {[next]}) (next + 1) fl /\ next ∉ D /\ next ∉ R.
Proof.
  intros [Hnd Hfree Hdom Hres Hcov Hn]. split.
  - split; [done| | | | |lia].
    + intros j Hj. destruct (Hfree j Hj) as (? & ? & ?). split; [done|]. split; [|lia].
      intros [?|?%elem_of_singleton]%elem_of_union; [done|lia].
    + intros j Hj. specialize (Hdom j Hj). lia.
    + intros j [Hj| ->%elem_of_singleton]%elem_of_union.
      * destruct (Hres j Hj). split; [done|lia].
      * split; [intros Hin; specialize (Hdom _ Hin)|]; lia.
    + intros j Hj. destruct (decide (j = next)) as [->|]; [set_solver|].
      destruct (Hcov j) as [?|[?|?]]; [lia|set_solver..].
  - split; intros Hin; [specialize (Hdom _ Hin); lia|destruct (Hres _ Hin); lia].
Qed.

(** Inserting under a reserved id, or under an id already in the map. *)
Lemma pool_ok_insert D R next fl i :
  pool_ok D R next fl -> i ∈ R -> pool_ok ({[i]} ∪ D) (R ∖ {[i]}) next fl.
Proof.
  intros [Hnd Hfree Hdom Hres Hcov Hn] Hi. split; [done| | | | |done].
  - intros j Hj. destruct (Hfree j Hj) as (? & ? & ?). set_solver.
  - intros j [->%elem_of_singleton|?]%elem_of_union; [by apply Hres|auto].
  - intros j [Hj Hji]%elem_of_difference. destruct (Hres j Hj). set_solver.
  - intros j Hj. destruct (decide (j = i)); [set_solver|].
    destruct (Hcov j Hj) as [?|[?|?]]; set_solver.
Qed.

Lemma pool_ok_same D R next fl i :
  pool_ok D R next fl -> i ∈ D -> pool_ok ({[i]} ∪ D) R next fl.
Proof. intros Hp Hi. by replace ({[i]} ∪ D) with D by set_solver. Qed.

(** Removing from the map: the id is nobody's but the remover's. *)
Lemma pool_ok_remove D R next fl i :
  pool_ok D R next fl -> i ∈ D -> pool_ok (D ∖ {[i]}) (R ∪ {[i]}) next fl.
Proof.
  intros [Hnd Hfree Hdom Hres Hcov Hn] Hi. split; [done| | | | |done].
  - intros j Hj. destruct (Hfree j Hj) as (? & ? & ?). set_solver.
  - intros j [? _]%elem_of_difference. auto.
  - intros j [Hj| ->%elem_of_singleton]%elem_of_union; [destruct (Hres j Hj)|]; set_solver.
  - intros j Hj. destruct (decide (j = i)); [set_solver|].
    destruct (Hcov j Hj) as [?|[?|?]]; set_solver.
Qed.

(** [free_list.push(i)] *)
Lemma pool_ok_push D R next fl i :
  pool_ok D R next fl -> i ∈ R -> pool_ok D (R ∖ {[i]}) next (fl ++ [i]).
Proof.
  intros [Hnd Hfree Hdom Hres Hcov Hn] Hi. split; [| | | | |done].
  - apply NoDup_app. split; [done|]. split; [|apply NoDup_singleton].
    intros j Hj ->%list_elem_of_singleton. by destruct (Hfree i Hj) as (_ & ? & _).
  - intros j [Hj| ->%list_elem_of_singleton]%elem_of_app.
    + destruct (Hfree j Hj) as (? & ? & ?). set_solver.
    + destruct (Hres i Hi). set_solver.
  - auto.
  - intros j [Hj _]%elem_of_difference. auto.
  - intros j Hj. rewrite elem_of_app, list_elem_of_singleton.
    destruct (decide (j = i)); [by eauto|].
    destruct (Hcov j Hj) as [?|[?|?]]; set_solver.
Qed.

(** Both, with nobody in between. *)
Lemma pool_ok_free D R next fl i :
  pool_ok D R next fl -> i ∈ D -> pool_ok (D ∖ {[i]}) R next (fl ++ [i]).
Proof.
  intros Hp Hi. assert (i ∉ R) as HiR by (intros Hr; by destruct (pool_reserved _ _ _ _ Hp i Hr)).
  apply (pool_ok_remove _ _ _ _ i) in Hp; [|done]. apply (pool_ok_push _ _ _ _ i) in Hp; [|set_solver].
  by replace ((R ∪ {[i]}) ∖ {[i]}) with R in Hp by set_solver.
Qed.

(** Only [D] and [R] up to equality matter. *)
#[export] Instance pool_ok_proper :
  Proper ((≡) ==> (≡) ==> (=) ==> (=) ==> iff) pool_ok.
Proof. intros D D' HD R R' HR n ? <- fl ? <-. apply leibniz_equiv in HD, HR. by subst. Qed.
End pool.

#[export] Hint Resolve pool_ok_empty pool_ok_insert pool_ok_same pool_ok_free : lightgraph.

(** ** Ids held by several threads

    The reserved ids as a list: who holds what, nothing held twice. *)

Definition pool_held (D : gset Z) (L : list Z) (next : Z) (fl : list Z) : Prop :=
  NoDup L /\ pool_ok D (list_to_set L) next fl.

Section held.
Implicit Types (D : gset Z) (L : list Z) (next i : Z) (fl : list Z).

#[export] Instance pool_held_proper : Proper ((=) ==> (≡ₚ) ==> (=) ==> (=) ==> iff) pool_held.
Proof.
  intros D ? <- L L' HL n ? <- fl ? <-. unfold pool_held.
  by rewrite HL.
Qed.

Lemma pool_held_pop D L next i fl :
  pool_held D L next (i :: fl) -> pool_held D (i :: L) next fl.
Proof.
  intros [Hnd Hp]. apply pool_ok_pop in Hp as (Hp & _ & Hi). rewrite elem_of_list_to_set in Hi.
  split; [by constructor|]. by rewrite list_to_set_cons, (union_comm_L {[i]}).
Qed.

Lemma pool_held_fresh D L next fl :
  pool_held D L next fl -> pool_held D (next :: L) (next + 1) fl.
Proof.
  intros [Hnd Hp]. apply pool_ok_fresh in Hp as (Hp & _ & Hi). rewrite elem_of_list_to_set in Hi.
  split; [by constructor|]. by rewrite list_to_set_cons, (union_comm_L {[next]}).
Qed.

Lemma pool_held_split D L next fl i :
  pool_held D (i :: L) next fl ->
  NoDup L /\ pool_ok D ({[i]} ∪ list_to_set L) next fl /\ ({[i]} ∪ list_to_set L) ∖ {[i]} = (list_to_set L : gset Z).
Proof.
  intros [Hnd Hp]. apply NoDup_cons in Hnd as [Hi Hnd]. split; [done|]. split; [done|].
  apply set_eq. intros x. rewrite elem_of_difference, elem_of_union, elem_of_singleton, !elem_of_list_to_set.
  split; [tauto|]. intros Hx. split; [by right|]. by intros ->.
Qed.

Lemma pool_held_insert D L next fl i :
  pool_held D (i :: L) next fl -> pool_held ({[i]} ∪ D) L next fl.
Proof.
  intros (Hnd & Hp & Hset)%pool_held_split. split; [done|].
  apply (pool_ok_insert _ _ _ _ i) in Hp; [|set_solver]. by rewrite Hset in Hp.
Qed.

Lemma pool_held_remove D L next fl i :
  pool_held D L next fl -> i ∈ D -> pool_held (D ∖ {[i]}) (i :: L) next fl.
Proof.
  intros [Hnd Hp] Hi. split.
  - constructor; [|done]. intros Hin. by destruct (pool_reserved _ _ _ _ Hp i); [by apply elem_of_list_to_set|].
  - apply (pool_ok_remove _ _ _ _ i) in Hp; [|done]. by rewrite list_to_set_cons, (union_comm_L {[i]}).
Qed.

Lemma pool_held_push D L next fl i :
  pool_held D (i :: L) next fl -> pool_held D L next (fl ++ [i]).
Proof.
  intros (Hnd & Hp & Hset)%pool_held_split. split; [done|].
  apply (pool_ok_push _ _ _ _ i) in Hp; [|set_solver]. by rewrite Hset in Hp.
Qed.
End held.
