(* ===== verification/NodeStore.v ===== *)
(** * The node store ([src/src/storage/node_store.rs])

    The map, the id allocator, the statistics and the WAL handle as one record,
    and a function per method. The WAL thread is any [WalSink], the serializer
    any [Codec Node]. [DashMap] iteration order is that of [map_to_list]. *)

From S2P Require Export Graph Consistency RecLog IdPool.

Open Scope Z_scope.

Record NodeStore (W : Type) : Type := mkNodeStore {
  nodes : gmap Z Node;
  next_id : Z;
  free_list : list Z;
  free_count : Z;
  total_ever : Z;
  wal : option W
}.
Arguments mkNodeStore {W}.
Arguments nodes {W}.
Arguments next_id {W}.
Arguments free_list {W}.
Arguments free_count {W}.
Arguments total_ever {W}.
Arguments wal {W}.

Section NodeStore.
Context {W : Type} `{WalSink W} `{Codec Node}.
Implicit Types (s : NodeStore W) (n : Node) (id : Z).

(** ** Field updates *)

Definition set_nodes (m : gmap Z Node) s : NodeStore W :=
  {| nodes := m; next_id := next_id s; free_list := free_list s;
     free_count := free_count s; total_ever := total_ever s; wal := wal s |}.

Definition set_wal (w : option W) s : NodeStore W :=
  {| nodes := nodes s; next_id := next_id s; free_list := free_list s;
     free_count := free_count s; total_ever := total_ever s; wal := w |}.

Definition incr_total_ever s : NodeStore W :=
  {| nodes := nodes s; next_id := next_id s; free_list := free_list s;
     free_count := free_count s; total_ever := wrap64 (total_ever s + 1); wal := wal s |}.

(** [free_list.push(id); free_count.fetch_add(1)] *)
Definition push_free id s : NodeStore W :=
  {| nodes := nodes s; next_id := next_id s; free_list := free_list s ++ [id];
     free_count := wrap64 (free_count s + 1); total_ever := total_ever s; wal := wal s |}.

(** ** Constructors *)

Definition with_capacity (cap : Z) : NodeStore W :=
  {| nodes := ∅; next_id := 0; free_list := []; free_count := 0; total_ever := 0;
     wal := None |}.

Definition new : NodeStore W := with_capacity 1000000.

(** [impl Default] *)
Definition NodeStore_default : NodeStore W := new.

(** The replay callback of [open], with its captured [max_id]. *)
Definition replay_record (opcode id : Z) (payload : bytes) (st : NodeStore W * Z)
  : NodeStore W * Z :=
  let '(s, max_id) := st in
  if opcode =? 1 then
    match deserialize payload with
    | Some node =>
        (set_nodes (<[id := node]> (nodes s)) (incr_total_ever s), Z.max max_id id)
    | None => (s, max_id)
    end
  else if opcode =? 2 then
    match nodes s !! id with
    | Some _ => (push_free id (set_nodes (delete id (nodes s)) s), max_id)
    | None => (s, max_id)
    end
  else (s, max_id).

Definition set_next_id (next : Z) s : NodeStore W :=
  {| nodes := nodes s; next_id := next; free_list := free_list s;
     free_count := free_count s; total_ever := total_ever s; wal := wal s |}.

(** [file] is the content of [nodes.wal] in the data directory, if any. *)
Definition open (c : Consistency) (file : option bytes) : io (NodeStore W) :=
  let? s := replay_file replay_record new set_next_id file in
  let? w := sink_spawn (durability c) (wal_channel_capacity c) file in
  Ok (set_wal (Some w) s).

(** ** WAL helpers *)

Definition wal_insert id n s : NodeStore W :=
  match wal s with
  | Some w =>
      match serialize n with
      | Some data => set_wal (Some (sink_insert id data w)) s
      | None => s
      end
  | None => s
  end.

Definition wal_delete id s : NodeStore W :=
  match wal s with
  | Some w => set_wal (Some (sink_delete id w)) s
  | None => s
  end.

(** ** Id allocation *)

Definition alloc_id s : Z * NodeStore W :=
  match free_list s with
  | id :: fl =>
      (id, {| nodes := nodes s; next_id := next_id s; free_list := fl;
              free_count := wrap64 (free_count s - 1); total_ever := total_ever s;
              wal := wal s |})
  | [] => (next_id s, set_next_id (wrap64 (next_id s + 1)) s)
  end.

Definition alloc_id_direct s : Z * NodeStore W := alloc_id s.

(** The two halves of [insert_with_id]: memory, then the WAL. *)
Definition insert_in_memory id n s : NodeStore W :=
  incr_total_ever (set_nodes (<[id := n]> (nodes s)) s).

Definition insert_with_id id (labels : list Z) (props_row tx_id : Z) s : NodeStore W :=
  let node := Node.new id labels props_row tx_id in
  wal_insert id node (insert_in_memory id node s).

(** ** CRUD *)

Definition insert_node (labels : list Z) (props_row tx_id : Z) s : Z * NodeStore W :=
  let '(id, s1) := alloc_id s in
  let node := Node.new id labels props_row tx_id in
  (id, wal_insert id node (insert_in_memory id node s1)).

Definition get id s : option Node := nodes s !! id.

(** What a caller does through the reference [get_mut] hands out. *)
Definition get_mut id (f : Node -> Node) s : bool * NodeStore W :=
  match nodes s !! id with
  | Some node => (true, set_nodes (<[id := f node]> (nodes s)) s)
  | None => (false, s)
  end.

(** An in-place change, and the re-serialized record. *)
Definition update_node (f : Node -> Node) id s : bool * NodeStore W :=
  match nodes s !! id with
  | Some node =>
      let node' := f node in
      (true, wal_insert id node' (set_nodes (<[id := node']> (nodes s)) s))
  | None => (false, s)
  end.

Definition update_labels id (labels : list Z) (tx_id : Z) s : bool * NodeStore W :=
  update_node (fun n =>
    {| Node.id := Node.id n; Node.labels := labels; Node.first_out := Node.first_out n;
       Node.first_in := Node.first_in n; Node.props_row := Node.props_row n;
       Node.created_tx := tx_id; Node.deleted_tx := Node.deleted_tx n |}) id s.

Definition update_props_row id (props_row : Z) s : bool * NodeStore W :=
  update_node (fun n =>
    {| Node.id := Node.id n; Node.labels := Node.labels n; Node.first_out := Node.first_out n;
       Node.first_in := Node.first_in n; Node.props_row := props_row;
       Node.created_tx := Node.created_tx n; Node.deleted_tx := Node.deleted_tx n |}) id s.

Definition set_first_out id (edge_id : Z) s : bool * NodeStore W :=
  update_node (fun n =>
    {| Node.id := Node.id n; Node.labels := Node.labels n; Node.first_out := edge_id;
       Node.first_in := Node.first_in n; Node.props_row := Node.props_row n;
       Node.created_tx := Node.created_tx n; Node.deleted_tx := Node.deleted_tx n |}) id s.

Definition set_first_in id (edge_id : Z) s : bool * NodeStore W :=
  update_node (fun n =>
    {| Node.id := Node.id n; Node.labels := Node.labels n; Node.first_out := Node.first_out n;
       Node.first_in := edge_id; Node.props_row := Node.props_row n;
       Node.created_tx := Node.created_tx n; Node.deleted_tx := Node.deleted_tx n |}) id s.

Definition soft_delete id (tx_id : Z) s : bool * NodeStore W :=
  update_node (fun n => Node.mark_deleted n tx_id) id s.

(** The second half of [hard_delete], after the delete was sent to the WAL. *)
Definition remove_from_memory id s : bool * NodeStore W :=
  match nodes s !! id with
  | Some _ => (true, push_free id (set_nodes (delete id (nodes s)) s))
  | None => (false, s)
  end.

Definition hard_delete id s : bool * NodeStore W :=
  remove_from_memory id (wal_delete id s).

(** ** MVCC *)

Definition visible_nodes (tx : Z) s : list Z :=
  map fst (filter (fun e => Node.is_alive e.2 tx = true) (map_to_list (nodes s))).

Definition visible_count (tx : Z) s : nat :=
  length (filter (fun e => Node.is_alive e.2 tx = true) (map_to_list (nodes s))).

(** ** Statistics *)

Definition get_total_ever s : Z := total_ever s.
Definition len s : nat := size (nodes s).
Definition get_free_count s : Z := free_count s.
Definition next_fresh_id s : Z := next_id s.
Definition pending_wal_bytes s : Z :=
  match wal s with Some w => sink_pending w | None => 0 end.
Definition contains id s : bool := bool_decide (is_Some (nodes s !! id)).

(** ** Compaction *)

Definition compact_candidates (oldest_active_tx : Z) s : list Z :=
  map fst (filter (fun e => Node.deleted_tx e.2 < oldest_active_tx) (map_to_list (nodes s))).

Definition compact (oldest_active_tx : Z) s : nat * NodeStore W :=
  let to_remove := compact_candidates oldest_active_tx s in
  (length to_remove, foldl (fun s id => (hard_delete id s).2) s to_remove).

Definition flush s : NodeStore W :=
  match wal s with
  | Some w => set_wal (Some (sink_flush w)) s
  | None => s
  end.
End NodeStore.

(** ** The log determines the map *)

Section log.
Context {W : Type} `{WalSinkLaws W} `{CodecLaws Node}.
Implicit Types (s : NodeStore W) (n : Node) (id : Z) (rs : list WalRec).

Lemma replay_record_nodes op id pl (st : NodeStore W * Z) :
  nodes (replay_record op id pl st).1 = apply_val (nodes st.1) (mkRec op id pl).
Proof.
  destruct st as [s mx]. unfold replay_record, apply_val. simpl.
  destruct (_ =? 1); [by destruct (deserialize pl)|].
  destruct (_ =? 2); [|done].
  destruct (nodes s !! id) eqn:Hid; simpl; [done|]. by rewrite delete_id.
Qed.

Lemma replay_record_max op id pl (st : NodeStore W * Z) :
  (replay_record op id pl st).2 = Z.max st.2 id \/
  ((replay_record op id pl st).2 = st.2 /\
    dom (nodes (replay_record op id pl st).1) ⊆ dom (nodes st.1)).
Proof.
  rewrite replay_record_nodes. destruct st as [s mx]. unfold replay_record, apply_val. simpl.
  destruct (_ =? 1); [destruct (deserialize pl); auto|].
  destruct (_ =? 2); [|auto]. right. rewrite dom_delete_L.
  destruct (nodes s !! id); simpl; split; try done; set_solver.
Qed.

(** The store and its WAL agree. *)
Definition store_logged (m0 : gmap Z Node) (b : bytes) s : Prop := logged m0 b (nodes s) (wal s).

Lemma store_logged_insert m0 b id n s :
  store_logged m0 b s ->
  store_logged m0 b (wal_insert id n (set_nodes (<[id := n]> (nodes s)) s)).
Proof.
  intros Hlog. destruct (logged_some _ _ _ _ Hlog) as [w Hw]. unfold store_logged in *.
  rewrite Hw in Hlog. unfold wal_insert. simpl. rewrite Hw.
  destruct (serialize_total n) as [data Hd]. rewrite Hd. by apply logged_put.
Qed.

Lemma store_logged_update m0 b f id s :
  store_logged m0 b s -> store_logged m0 b (update_node f id s).2.
Proof.
  intros Hlog. unfold update_node. destruct (nodes s !! id); [|done].
  by apply (store_logged_insert m0 b id _ s).
Qed.

Lemma store_logged_insert_with_id m0 b id labels row tx s :
  store_logged m0 b s -> store_logged m0 b (insert_with_id id labels row tx s).
Proof. apply (store_logged_insert m0 b id _ (incr_total_ever s)). Qed.

Lemma alloc_id_frame s : nodes (alloc_id s).2 = nodes s /\ wal (alloc_id s).2 = wal s.
Proof. unfold alloc_id. by destruct (free_list s). Qed.

Lemma insert_node_alloc labels row tx s :
  insert_node labels row tx s =
  ((alloc_id s).1, insert_with_id (alloc_id s).1 labels row tx (alloc_id s).2).
Proof. unfold insert_node. by destruct (alloc_id s). Qed.

Lemma store_logged_alloc m0 b s :
  store_logged m0 b s -> store_logged m0 b (alloc_id s).2.
Proof. unfold store_logged. by destruct (alloc_id_frame s) as [-> ->]. Qed.

Lemma store_logged_hard_delete m0 b id s :
  store_logged m0 b s -> store_logged m0 b (hard_delete id s).2.
Proof.
  intros Hlog. destruct (logged_some _ _ _ _ Hlog) as [w Hw]. unfold store_logged in *.
  rewrite Hw in Hlog. apply (logged_del _ _ _ _ id) in Hlog.
  unfold hard_delete, wal_delete, remove_from_memory. rewrite Hw. simpl.
  destruct (nodes s !! id) eqn:Hid; simpl; [done|]. by rewrite delete_id in Hlog.
Qed.

Lemma store_logged_hard_deletes m0 b ids s :
  store_logged m0 b s -> store_logged m0 b (foldl (fun s id => (hard_delete id s).2) s ids).
Proof.
  revert s. induction ids as [|id ids IH]; intros s Hlog; [done|]. simpl.
  apply IH. by apply store_logged_hard_delete.
Qed.

Lemma store_logged_flush m0 b s : store_logged m0 b s -> store_logged m0 b (flush s).
Proof.
  intros Hlog. destruct (logged_some _ _ _ _ Hlog) as [w Hw]. unfold store_logged, flush in *.
  rewrite Hw in Hlog |- *. simpl. by apply logged_sync.
Qed.
End log.

#[export] Hint Resolve store_logged_insert store_logged_update store_logged_insert_with_id
  store_logged_alloc store_logged_hard_delete store_logged_hard_deletes store_logged_flush
  : lightgraph.

(** ** Programs over the store *)

(** A call of one of the methods that change the store. [get_mut], which changes
    it without a record, comes with [NodeCall] below. *)
Inductive NodeOp : Type :=
| OpAlloc
| OpInsertWithId (id : Z) (labels : list Z) (props_row tx_id : Z)
| OpInsert (labels : list Z) (props_row tx_id : Z)
| OpUpdateLabels (id : Z) (labels : list Z) (tx_id : Z)
| OpUpdatePropsRow (id props_row : Z)
| OpSetFirstOut (id edge_id : Z)
| OpSetFirstIn (id edge_id : Z)
| OpSoftDelete (id tx_id : Z)
| OpHardDelete (id : Z)
| OpCompact (oldest_active_tx : Z)
| OpFlush.

Section programs.
Context {W : Type} `{WalSink W} `{Codec Node}.

Definition exec_op (s : NodeStore W) (op : NodeOp) : NodeStore W :=
  match op with
  | OpAlloc => (alloc_id_direct s).2
  | OpInsertWithId id labels props_row tx_id => insert_with_id id labels props_row tx_id s
  | OpInsert labels props_row tx_id => (insert_node labels props_row tx_id s).2
  | OpUpdateLabels id labels tx_id => (update_labels id labels tx_id s).2
  | OpUpdatePropsRow id props_row => (update_props_row id props_row s).2
  | OpSetFirstOut id edge_id => (set_first_out id edge_id s).2
  | OpSetFirstIn id edge_id => (set_first_in id edge_id s).2
  | OpSoftDelete id tx_id => (soft_delete id tx_id s).2
  | OpHardDelete id => (hard_delete id s).2
  | OpCompact oldest => (compact oldest s).2
  | OpFlush => flush s
  end.

Definition exec_ops (s : NodeStore W) (ops : list NodeOp) : NodeStore W := foldl exec_op s ops.
End programs.

Section recovery.
Context {W : Type} `{WalSinkLaws W} `{CodecLaws Node}.
Implicit Types (s : NodeStore W) (rs : list WalRec).

Lemma exec_op_logged m0 b s op : store_logged m0 b s -> store_logged m0 b (exec_op s op).
Proof.
  intros Hlog. destruct op; simpl; rewrite ?insert_node_alloc; simpl;
    solve [auto with lightgraph | by apply store_logged_update
          | by apply store_logged_alloc | by apply store_logged_hard_deletes].
Qed.

Lemma exec_ops_logged m0 b s ops : store_logged m0 b s -> store_logged m0 b (exec_ops s ops).
Proof.
  unfold exec_ops. revert s. induction ops as [|op ops IH]; intros s Hlog; [done|].
  apply IH. by apply exec_op_logged.
Qed.

(** The store [open] makes of a log. *)
Definition replayed rs : NodeStore W :=
  if bool_decide (rs = []) then new
  else let '(s, max_id) := apply_recs replay_record rs (new, 0) in
       set_next_id (wrap64 (max_id + 1)) s.

Lemma replayed_nodes rs : nodes (replayed rs) = recover rs ∅.
Proof.
  unfold replayed. case_bool_decide as Hrs; [by subst|].
  pose proof (apply_recs_vals _ _ replay_record_nodes rs (new (W := W), 0)) as Hn.
  by destruct (apply_recs replay_record rs (new, 0)).
Qed.

Lemma replayed_next rs id :
  Forall rec_id_ok rs -> id ∈ dom (nodes (replayed rs)) -> 0 <= id < next_id (replayed rs).
Proof.
  intros Hrs. unfold replayed. case_bool_decide as Hnil; [set_solver|].
  destruct (apply_recs_max _ _ replay_record_nodes replay_record_max rs (new (W := W), 0) Hrs)
    as [Hle Hmx]; [split; [set_solver|done]|].
  destruct (apply_recs replay_record rs (new, 0)) as [s mx]. simpl in *. intros Hid.
  specialize (Hle id Hid). rewrite wrap64_small by (unfold u64_max in *; lia). lia.
Qed.

Lemma open_log c file rs :
  contract_ok (durability c) (wal_channel_capacity c) ->
  log_contents file = MAGIC ++ encode_recs rs -> Forall rec_ok rs ->
  exists w, open (W := W) c file = Ok (set_wal (Some w) (replayed rs)) /\
   store_logged (recover rs ∅) (MAGIC ++ encode_recs rs) (set_wal (Some w) (replayed rs)).
Proof.
  intros Hc Hlog Hrs. unfold open.
  rewrite (replay_file_recs replay_record new set_next_id file rs Hlog Hrs). simpl.
  destruct (sink_spawn_total (W := W) (durability c) (wal_channel_capacity c) file Hc) as [w Hw].
  rewrite Hw. exists w. split; [done|]. unfold store_logged. simpl. rewrite replayed_nodes.
  by apply (logged_fresh c file).
Qed.

(** *** Programs that also write through [get_mut]

    Such a write reaches the memory and not the log; the next record of the
    node that is sent takes it along. *)

Inductive NodeCall : Type :=
| NCall (op : NodeOp)
| NGetMut (id : Z) (f : Node -> Node).

Definition exec_call s (c : NodeCall) : NodeStore W :=
  match c with NCall op => exec_op s op | NGetMut id f => (get_mut id f s).2 end.

Definition exec_calls s (cs : list NodeCall) : NodeStore W := foldl exec_call s cs.

(** The nodes whose record a method sends. *)
Definition recorded s (op : NodeOp) : gset Z :=
  match op with
  | OpInsertWithId id _ _ _ | OpUpdateLabels id _ _ | OpUpdatePropsRow id _ | OpSetFirstOut id _
  | OpSetFirstIn id _ | OpSoftDelete id _ | OpHardDelete id => {[id]}
  | OpInsert _ _ _ => {[(alloc_id s).1]}
  | OpCompact oldest => list_to_set (compact_candidates oldest s)
  | OpAlloc | OpFlush => ∅
  end.

(** The nodes written through [get_mut] since their last record, [R] of them
    before the calls. *)
Fixpoint unlogged (R : gset Z) s (cs : list NodeCall) : gset Z :=
  match cs with
  | [] => R
  | c :: cs' =>
      unlogged (match c with NCall op => R ∖ recorded s op | NGetMut id _ => R ∪ {[id]} end)
        (exec_call s c) cs'
  end.

(** The log has the same nodes as the memory, and outside [R] as they are. *)
Definition agrees m0 b (R : gset Z) s : Prop :=
  exists m, logged m0 b m (wal s) /\ dom m = dom (nodes s) /\ forall x, x ∉ R -> m !! x = nodes s !! x.

Lemma agrees_put m0 b R id n s :
  agrees m0 b R s -> agrees m0 b (R ∖ {[id]}) (wal_insert id n (set_nodes (<[id := n]> (nodes s)) s)).
Proof.
  intros (m & Hlog & Hdom & Hm). destruct (logged_some _ _ _ _ Hlog) as [w Hw]. unfold wal_insert. simpl.
  rewrite Hw in *. destruct (serialize_total n) as [data Hd]. rewrite Hd.
  exists (<[id := n]> m). split; [by apply logged_put|]. split; [simpl; by rewrite !dom_insert_L, Hdom|].
  intros x Hx. simpl. destruct (decide (x = id)) as [->|]; [by rewrite !lookup_insert_eq|].
  rewrite !lookup_insert_ne by done. apply Hm. set_solver.
Qed.

Lemma agrees_update m0 b R f id s :
  agrees m0 b R s -> agrees m0 b (R ∖ {[id]}) (update_node f id s).2.
Proof.
  intros Hag. unfold update_node. destruct (nodes s !! id) as [n|] eqn:Hid; [by apply agrees_put|].
  destruct Hag as (m & Hlog & Hdom & Hm). exists m. split; [done|]. split; [done|]. intros x Hx. simpl.
  destruct (decide (x = id)) as [->|]; [|apply Hm; set_solver].
  rewrite Hid. apply not_elem_of_dom. rewrite Hdom. by apply not_elem_of_dom.
Qed.

Lemma agrees_delete m0 b R id s :
  agrees m0 b R s -> agrees m0 b (R ∖ {[id]}) (hard_delete id s).2.
Proof.
  intros (m & Hlog & Hdom & Hm). destruct (logged_some _ _ _ _ Hlog) as [w Hw].
  rewrite Hw in Hlog. apply (logged_del _ _ _ _ id) in Hlog.
  assert (wal (hard_delete id s).2 = Some (sink_delete id w) /\
    nodes (hard_delete id s).2 = delete id (nodes s)) as [Hw' Hn'].
  { unfold hard_delete, wal_delete, remove_from_memory. rewrite Hw. simpl.
    destruct (nodes s !! id) eqn:Hid; simpl; [done|]. by rewrite delete_id. }
  exists (delete id m). rewrite Hw', Hn'. split; [done|]. split; [by rewrite !dom_delete_L, Hdom|].
  intros x Hx. destruct (decide (x = id)) as [->|]; [by rewrite !lookup_delete_eq|].
  rewrite !lookup_delete_ne by done. apply Hm. set_solver.
Qed.

Lemma agrees_weaken m0 b R R' s : R ⊆ R' -> agrees m0 b R s -> agrees m0 b R' s.
Proof. intros HR (m & Hl & Hd & Hm). exists m. split; [done|]. split; [done|]. intros x Hx. apply Hm. set_solver. Qed.

Lemma agrees_deletes m0 b R ids s :
  agrees m0 b R s ->
  agrees m0 b (R ∖ list_to_set ids) (foldl (fun s id => (hard_delete id s).2) s ids).
Proof.
  revert R s. induction ids as [|id ids IH]; intros R s Hag; simpl.
  - eapply agrees_weaken; [|done]. set_solver.
  - apply (agrees_delete _ _ _ id), IH in Hag. eapply agrees_weaken; [|done]. set_solver.
Qed.

Lemma agrees_same m0 b R s s' :
  nodes s' = nodes s -> wal s' = wal s -> agrees m0 b R s -> agrees m0 b R s'.
Proof. unfold agrees. by intros -> ->. Qed.

Lemma agrees_insert_with_id m0 b R id labels row tx s :
  agrees m0 b R s -> agrees m0 b (R ∖ {[id]}) (insert_with_id id labels row tx s).
Proof.
  intros Hag. apply (agrees_put m0 b R id (Node.new id labels row tx) (incr_total_ever s)).
  by eapply agrees_same; [..|exact Hag].
Qed.

Lemma agrees_op m0 b R s op : agrees m0 b R s -> agrees m0 b (R ∖ recorded s op) (exec_op s op).
Proof.
  intros Hag. destruct op; cbn [recorded exec_op];
    try by apply agrees_update.
  - destruct (alloc_id_frame s) as [Hn Hw]. rewrite difference_empty_L. by eapply agrees_same.
  - by apply agrees_insert_with_id.
  - rewrite insert_node_alloc. cbn [snd]. apply agrees_insert_with_id.
    destruct (alloc_id_frame s) as [Hn Hw]. by eapply agrees_same.
  - by apply agrees_delete.
  - by apply agrees_deletes.
  - rewrite difference_empty_L. destruct Hag as (m & Hlog & Hdom & Hm). exists m.
    destruct (logged_some _ _ _ _ Hlog) as [w Hw]. unfold flush. rewrite Hw in *. simpl.
    split; [by apply logged_sync|done].
Qed.

Lemma agrees_get_mut m0 b R id f s : agrees m0 b R s -> agrees m0 b (R ∪ {[id]}) (get_mut id f s).2.
Proof.
  intros Hag. unfold get_mut. destruct (nodes s !! id) as [n|] eqn:Hid;
    [|eapply agrees_weaken; [|done]; set_solver].
  destruct Hag as (m & Hlog & Hdom & Hm). exists m. simpl. split; [done|]. split.
  - rewrite dom_insert_L, Hdom. apply elem_of_dom_2 in Hid. set_solver.
  - intros x Hx. rewrite lookup_insert_ne by set_solver. apply Hm. set_solver.
Qed.

Lemma agrees_calls m0 b R s cs : agrees m0 b R s -> agrees m0 b (unlogged R s cs) (exec_calls s cs).
Proof.
  unfold exec_calls. revert R s. induction cs as [|[op|id f] cs IH]; intros R s Hag; [done|..]; simpl.
  - by apply IH, agrees_op.
  - by apply IH, agrees_get_mut.
Qed.

(** Without [get_mut] nothing is unlogged. *)
Lemma unlogged_ops s ops : unlogged ∅ s (map NCall ops) = ∅.
Proof.
  revert s. induction ops as [|op ops IH]; intros s; [done|]. simpl. by rewrite empty_difference_L, IH.
Qed.

(** C16: durability of the node store. It is opened on a well-formed log (or
    none) at a level that fsyncs; then its methods are called, among them [get_mut] through whose
    reference a caller changes a node without a record, and the records sent fit
    the format. Once they are flushed, the store reopened on what a crash cannot
    take back has the same ids in use, and every node as the closed one had it,
    but for those last written through [get_mut] with no record since: without
    [get_mut], exactly the same nodes. If the ids in the log fit below
    [u64::MAX], the id counter is past all of them. *)
Theorem node_store_recovers c file rs0 s0 cs w :
  contract_ok (durability c) (wal_channel_capacity c) ->
  log_contents file = MAGIC ++ encode_recs rs0 ->
  open (W := W) c file = Ok s0 ->
  wal (exec_calls s0 cs) = Some w -> Forall rec_ok (rs0 ++ sink_recs w) ->
  exists s', open (W := W) c (Some (sink_image (sink_flush w))) = Ok s' /\
    dom (nodes s') = dom (nodes (exec_calls s0 cs)) /\
    (forall id, id ∉ unlogged ∅ s0 cs -> nodes s' !! id = nodes (exec_calls s0 cs) !! id) /\
    (Forall rec_id_ok (rs0 ++ sink_recs w) ->
     forall id, id ∈ dom (nodes s') -> 0 <= id < next_fresh_id s').
Proof.
  intros Hc Hlog Ho Hw Hok. pose proof (proj1 (Forall_app _ _ _) Hok) as [Hok0 _].
  destruct (open_log c file rs0 Hc Hlog Hok0) as (w0 & Ho' & Hlogged).
  rewrite Ho in Ho'. injection Ho' as Hs0. rewrite <-Hs0 in Hlogged.
  destruct (agrees_calls (recover rs0 ∅) (MAGIC ++ encode_recs rs0) ∅ s0 cs) as (m & Hl & Hdom & Hm);
    [by exists (nodes s0)|].
  destruct (logged_image _ _ _ Hl) as (w' & Hw' & Himg & Hn).
  assert (w' = w) as -> by congruence. rewrite Himg.
  destruct (open_log c (Some (MAGIC ++ encode_recs (rs0 ++ sink_recs w))) (rs0 ++ sink_recs w) Hc
    eq_refl Hok) as (w1 & Hs1 & _).
  eexists. split; [done|]. simpl. rewrite replayed_nodes, <-Hn. split; [done|]. split; [done|].
  intros Hids id. rewrite Hn, <-replayed_nodes. by apply replayed_next.
Qed.

(** Opening a log that a crash cut at byte [n]. It succeeds, with the
    nodes of the complete records, when the cut is clean (a record boundary or
    within a length field); a cut anywhere else in a record makes the whole
    open fail. *)
Theorem open_after_crash c rs n :
  contract_ok (durability c) (wal_channel_capacity c) -> Forall rec_ok rs ->
  ((cut_recs rs n).2 = Ok tt ->
    exists s, open (W := W) c (Some (MAGIC ++ take n (encode_recs rs))) = Ok s /\
      nodes s = recover (cut_recs rs n).1 ∅) /\
  ((cut_recs rs n).2 = Err UnexpectedEof ->
    open (W := W) c (Some (MAGIC ++ take n (encode_recs rs))) = Err UnexpectedEof).
Proof.
  intros Hc Hrs. unfold open. rewrite replay_file_cut by done.
  destruct (sink_spawn_total (W := W) (durability c) (wal_channel_capacity c)
    (Some (MAGIC ++ take n (encode_recs rs))) Hc) as [w Hw]. rewrite Hw. clear Hw.
  case_bool_decide as Hnil.
  - rewrite (cut_recs_nil rs n Hnil). split; [|done]. intros _. simpl. eauto.
  - pose proof (apply_recs_vals _ _ replay_record_nodes (cut_recs rs n).1 (new (W := W), 0)) as Hn.
    destruct (apply_recs replay_record (cut_recs rs n).1 (new, 0)) as [s mx].
    split; intros ->; simpl; eauto.
Qed.
End recovery.

(** ** Ids *)

Section ids.
Context {W : Type} `{WalSink W} `{Codec Node}.
Implicit Types (s : NodeStore W) (R : gset Z).

(** A reserved id is one [alloc_id_direct] gave out and [insert_with_id] has
    not used yet. [insert_with_id] is called with reserved ids, or with the id
    of a node it replaces. *)
Definition op_allowed R s (op : NodeOp) : Prop :=
  match op with
  | OpInsertWithId id _ _ _ => id ∈ R \/ id ∈ dom (nodes s)
  | _ => True
  end.

Definition reserved_after R s (op : NodeOp) : gset Z :=
  match op with
  | OpAlloc => R ∪ {[ (alloc_id_direct s).1 ]}
  | OpInsertWithId id _ _ _ => R ∖ {[ id ]}
  | _ => R
  end.

Fixpoint ops_allowed R s (ops : list NodeOp) : Prop :=
  match ops with
  | [] => True
  | op :: ops' => op_allowed R s op /\ ops_allowed (reserved_after R s op) (exec_op s op) ops'
  end.

Fixpoint reserved_run R s (ops : list NodeOp) : gset Z :=
  match ops with
  | [] => R
  | op :: ops' => reserved_run (reserved_after R s op) (exec_op s op) ops'
  end.

Definition ids_ok R s : Prop :=
  pool_ok (dom (nodes s)) R (next_id s) (free_list s) /\
  free_count s = wrap64 (Z.of_nat (length (free_list s))).

Lemma wal_insert_frame id n s :
  nodes (wal_insert id n s) = nodes s /\ next_id (wal_insert id n s) = next_id s /\
  free_list (wal_insert id n s) = free_list s /\ free_count (wal_insert id n s) = free_count s.
Proof. unfold wal_insert. destruct (wal s); [destruct (serialize n)|]; done. Qed.

Lemma wal_insert_nodes id n s : nodes (wal_insert id n s) = nodes s.
Proof. apply wal_insert_frame. Qed.

Lemma insert_node_nodes labels row tx s :
  nodes (insert_node labels row tx s).2 =
  <[ (alloc_id s).1 := Node.new (alloc_id s).1 labels row tx ]> (nodes s).
Proof.
  unfold insert_node, alloc_id. by destruct (free_list s); cbn [snd]; rewrite wal_insert_nodes.
Qed.

Lemma ids_ok_wal_insert R id n s : ids_ok R s -> ids_ok R (wal_insert id n s).
Proof. unfold ids_ok. by destruct (wal_insert_frame id n s) as (-> & -> & -> & ->). Qed.

Lemma ids_ok_alloc R s :
  ids_ok R s -> next_id s < u64_max ->
  ids_ok (R ∪ {[ (alloc_id s).1 ]}) (alloc_id s).2 /\
  (alloc_id s).1 ∉ dom (nodes s) /\ ((alloc_id s).1 ∉ R) /\
  next_id (alloc_id s).2 <= next_id s + 1.
Proof.
  intros [Hp Hc] Hlt. unfold alloc_id, ids_ok. destruct (free_list s) as [|i fl] eqn:Hfl; simpl.
  - pose proof (pool_next _ _ _ _ Hp). apply pool_ok_fresh in Hp as (Hp & ? & ?).
    rewrite wrap64_small by (unfold u64_max in *; lia). rewrite Hfl, Hc. simpl. split_done.
  - apply pool_ok_pop in Hp as (Hp & ? & ?). split_done.
    rewrite Hc. cbn [length]. unfold wrap64. rewrite Zminus_mod_idemp_l. f_equal. lia.
Qed.

Lemma ids_ok_insert_with_id R s id labels row tx :
  ids_ok R s -> id ∈ R \/ id ∈ dom (nodes s) ->
  ids_ok (R ∖ {[ id ]}) (insert_with_id id labels row tx s).
Proof.
  intros [Hp Hc] Hid. apply ids_ok_wal_insert. unfold ids_ok. simpl. rewrite dom_insert_L.
  split; [|done]. destruct Hid as [Hid|Hid]; [by apply pool_ok_insert|].
  assert (id ∉ R) as HR by (intros Hr; by destruct (pool_reserved _ _ _ _ Hp id Hr)).
  replace (R ∖ {[id]}) with R by set_solver. by apply pool_ok_same.
Qed.

Lemma ids_ok_insert_node R s labels row tx :
  ids_ok R s -> next_id s < u64_max -> ids_ok R (insert_node labels row tx s).2.
Proof.
  intros Hok Hlt. destruct (ids_ok_alloc R s Hok Hlt) as (Ha & _ & HR & _).
  rewrite insert_node_alloc. simpl.
  replace R with ((R ∪ {[(alloc_id s).1]}) ∖ {[(alloc_id s).1]}) by set_solver.
  apply ids_ok_insert_with_id; set_solver.
Qed.

Lemma ids_ok_update R f id s : ids_ok R s -> ids_ok R (update_node f id s).2.
Proof.
  intros [Hp Hc]. unfold update_node. destruct (nodes s !! id) eqn:Hid; [|done].
  apply ids_ok_wal_insert. split; [|done]. simpl. rewrite dom_insert_L.
  apply pool_ok_same; [done|]. by apply elem_of_dom_2 in Hid.
Qed.

Lemma hard_delete_frame id s : next_id (hard_delete id s).2 = next_id s.
Proof.
  unfold hard_delete, remove_from_memory, wal_delete.
  destruct (wal s); simpl; destruct (nodes s !! id); done.
Qed.

Lemma ids_ok_hard_delete R id s : ids_ok R s -> ids_ok R (hard_delete id s).2.
Proof.
  intros [Hp Hc]. unfold hard_delete, remove_from_memory, ids_ok.
  assert (nodes (wal_delete id s) = nodes s /\ free_list (wal_delete id s) = free_list s /\
    free_count (wal_delete id s) = free_count s /\ next_id (wal_delete id s) = next_id s)
    as (Hnd & Hfl & Hfc & Hnx) by (unfold wal_delete; by destruct (wal s)). rewrite Hnd.
  destruct (nodes s !! id) eqn:Hid; simpl; rewrite ?Hnd, ?Hfl, ?Hfc, ?Hnx; [|done].
  rewrite dom_delete_L. split; [apply pool_ok_free; [done|by apply elem_of_dom_2 in Hid]|].
  rewrite Hc, length_app. unfold wrap64. rewrite Zplus_mod_idemp_l. f_equal. simpl. lia.
Qed.

Lemma ids_ok_hard_deletes R ids s :
  ids_ok R s -> ids_ok R (foldl (fun s id => (hard_delete id s).2) s ids) /\
  next_id (foldl (fun s id => (hard_delete id s).2) s ids) = next_id s.
Proof.
  revert s. induction ids as [|id ids IH]; intros s Hok; [done|]. simpl.
  rewrite <-(hard_delete_frame id s). apply IH. by apply ids_ok_hard_delete.
Qed.

Lemma update_node_next f id s : next_id (update_node f id s).2 = next_id s.
Proof.
  unfold update_node. destruct (nodes s !! id); [|done].
  destruct (wal_insert_frame id (f n) (set_nodes (<[id:=f n]> (nodes s)) s)) as (_ & Hn & _).
  exact Hn.
Qed.

(** One call: the invariant is kept and the counter moves by at most one. *)
Lemma exec_op_ids R s op :
  ids_ok R s -> op_allowed R s op -> next_id s < u64_max ->
  ids_ok (reserved_after R s op) (exec_op s op) /\ next_id (exec_op s op) <= next_id s + 1.
Proof.
  intros Hok Hal Hlt. destruct op; simpl.
  - destruct (ids_ok_alloc R s Hok Hlt) as (? & _ & _ & ?). done.
  - split; [by apply ids_ok_insert_with_id|]. unfold insert_with_id.
    destruct (wal_insert_frame id (Node.new id labels props_row tx_id)
      (insert_in_memory id (Node.new id labels props_row tx_id) s)) as (_ & -> & _). simpl. lia.
  - split; [by apply ids_ok_insert_node|]. rewrite insert_node_alloc. unfold insert_with_id. simpl.
    destruct (ids_ok_alloc R s Hok Hlt) as (_ & _ & _ & ?).
    destruct (wal_insert_frame (alloc_id s).1 (Node.new (alloc_id s).1 labels props_row tx_id)
      (insert_in_memory (alloc_id s).1 (Node.new (alloc_id s).1 labels props_row tx_id)
        (alloc_id s).2)) as (_ & -> & _). done.
  - split; [by apply ids_ok_update|]. unfold update_labels. rewrite update_node_next. lia.
  - split; [by apply ids_ok_update|]. unfold update_props_row. rewrite update_node_next. lia.
  - split; [by apply ids_ok_update|]. unfold set_first_out. rewrite update_node_next. lia.
  - split; [by apply ids_ok_update|]. unfold set_first_in. rewrite update_node_next. lia.
  - split; [by apply ids_ok_update|]. unfold soft_delete. rewrite update_node_next. lia.
  - split; [by apply ids_ok_hard_delete|]. rewrite hard_delete_frame. lia.
  - destruct (ids_ok_hard_deletes R (compact_candidates oldest_active_tx s) s Hok) as [? ->].
    split; [done|lia].
  - unfold flush. destruct (wal s); split; try done; simpl; lia.
Qed.

Lemma exec_ops_ids R s ops :
  ids_ok R s -> ops_allowed R s ops -> next_id s + Z.of_nat (length ops) <= u64_max ->
  ids_ok (reserved_run R s ops) (exec_ops s ops) /\
  next_id (exec_ops s ops) <= next_id s + Z.of_nat (length ops).
Proof.
  revert R s. induction ops as [|op ops IH]; intros R s Hok Hal Hlt; [split; [done|simpl; lia]|].
  destruct Hal as [Hop Hal]. cbn [length] in Hlt |- *.
  destruct (exec_op_ids R s op Hok Hop) as [Hok' Hn]; [lia|].
  destruct (IH _ _ Hok' Hal) as [? ?]; [lia|]. split; [done|]. simpl in *. lia.
Qed.

(** Slab allocation. However the methods are called, the ids below the
    counter are partitioned between the map, the reserved ids and the free
    list, so that no id is ever lost and [alloc_id] gives one that no node and
    no reservation has. *)
Theorem node_ids_partition ops :
  ops_allowed ∅ new ops -> Z.of_nat (length ops) < u64_max ->
  let s := exec_ops (new (W := W)) ops in
  let R := reserved_run ∅ new ops in
  pool_ok (dom (nodes s)) R (next_id s) (free_list s) /\
  free_count s = wrap64 (Z.of_nat (length (free_list s))) /\
  (alloc_id s).1 ∉ dom (nodes s) ∪ R.
Proof.
  intros Hal Hlt s R. destruct (exec_ops_ids ∅ new ops) as [Hok Hn]; [|done|simpl; lia|].
  - split; [|done]. simpl. rewrite dom_empty_L. auto with lightgraph.
  - destruct (ids_ok_alloc _ _ Hok) as (_ & ? & ? & _); [simpl in Hn; lia|].
    destruct Hok as [Hp Hc]. split; [done|]. split; [done|set_solver].
Qed.
End ids.

(** ** Snapshots: what a reader sees *)

Section mvcc.
Context {W : Type} `{WalSink W} `{Codec Node}.
Implicit Types (s : NodeStore W) (m : gmap Z Node).

Lemma elem_of_filter_keys (P : Z * Node -> Prop) `{forall x, Decision (P x)} m id :
  id ∈ map fst (filter P (map_to_list m)) <-> exists n, m !! id = Some n /\ P (id, n).
Proof.
  rewrite list_elem_of_fmap. split.
  - intros ([i n] & -> & [HP Hin%elem_of_map_to_list]%list_elem_of_filter). eauto.
  - intros (n & Hn & HP). exists (id, n). split; [done|].
    apply list_elem_of_filter. split; [done|]. by apply elem_of_map_to_list.
Qed.

Lemma elem_of_visible tx s id :
  id ∈ visible_nodes tx s <-> exists n, nodes s !! id = Some n /\ v_alive n tx = true.
Proof. apply elem_of_filter_keys. Qed.

Lemma visible_count_length tx s : visible_count tx s = length (visible_nodes tx s).
Proof. unfold visible_nodes. by rewrite length_map. Qed.

Lemma filter_keys_NoDup (P : Z * Node -> Prop) `{forall x, Decision (P x)} m :
  NoDup (map fst (filter P (map_to_list m))).
Proof.
  apply (sublist_NoDup _ (map fst (map_to_list m))); [apply (NoDup_fst_map_to_list m)|].
  apply fmap_sublist, sublist_filter.
Qed.

Lemma visible_count_ext tx s1 s2 :
  (forall id, id ∈ visible_nodes tx s1 <-> id ∈ visible_nodes tx s2) ->
  visible_count tx s1 = visible_count tx s2.
Proof.
  intros Heq. rewrite !visible_count_length. apply Permutation_length, NoDup_Permutation;
    [apply filter_keys_NoDup..|done].
Qed.

Lemma update_node_nodes f id s n :
  nodes s !! id = Some n ->
  update_node f id s = (true, wal_insert id (f n) (set_nodes (<[id := f n]> (nodes s)) s)).
Proof. intros Hn. unfold update_node. by rewrite Hn. Qed.

Lemma update_node_lookup f id s i :
  nodes (update_node f id s).2 !! i =
  if decide (i = id) then f <$> nodes s !! id else nodes s !! i.
Proof.
  unfold update_node. destruct (nodes s !! id) as [n|] eqn:Hn.
  - cbn [snd]. rewrite wal_insert_nodes. simpl. case_decide as Hi; subst; [apply lookup_insert_eq|by apply lookup_insert_ne].
  - simpl. by case_decide; subst.
Qed.

(** MVCC deletion. A transaction [tx] that soft-deletes a node nobody
    deleted before hides it from every snapshot at or after [tx] and changes
    what no snapshot before [tx] sees; the call reports whether the node was
    there. *)
Theorem soft_delete_versioned id tx s t :
  (forall n, nodes s !! id = Some n -> Node.deleted_tx n = MAX_TX_ID) ->
  t < MAX_TX_ID ->
  (soft_delete id tx s).1 = contains id s /\
  forall i, i ∈ visible_nodes t (soft_delete id tx s).2 <->
    i ∈ visible_nodes t s /\ (i = id -> t < tx).
Proof.
  intros Hlive Ht. split.
  { unfold soft_delete, update_node, contains. by destruct (nodes s !! id). }
  intros i. rewrite !elem_of_visible. unfold soft_delete. setoid_rewrite update_node_lookup.
  case_decide as Hi; [subst i|by naive_solver]. destruct (nodes s !! id) as [n|] eqn:Hn.
  - specialize (Hlive n eq_refl). simpl. split.
    + intros (n' & [= <-] & Ha). destruct (Z.le_gt_cases tx t) as [Hle|Hlt].
      * pose proof (v_mark_deleted_after n tx t Hle). simpl in *. congruence.
      * pose proof (v_mark_deleted_before n tx t) as Hb. simpl in Hb.
        rewrite Hb in Ha by lia. eauto.
    + intros ((n' & [= <-] & Ha) & Hlt). eexists. split; [done|].
      pose proof (v_mark_deleted_before n tx t) as Hb. simpl in Hb. rewrite Hb; auto. lia.
  - simpl. naive_solver.
Qed.

(** Relabelling is not versioned. [update_labels] at [tx] moves the whole
    node to [tx]: every snapshot before [tx] that saw the node, labels and all,
    no longer sees it, although nothing it could have read was deleted. *)
Theorem update_labels_hides id labels tx s t :
  id ∈ visible_nodes t s -> t < tx ->
  id ∉ visible_nodes t (update_labels id labels tx s).2 /\
  forall i, i ≠ id -> i ∈ visible_nodes t (update_labels id labels tx s).2 <->
    i ∈ visible_nodes t s.
Proof.
  intros (n & Hn & Ha)%elem_of_visible Ht. unfold update_labels. split.
  - rewrite elem_of_visible. setoid_rewrite update_node_lookup. rewrite decide_True, Hn by done.
    intros (n' & [= <-] & [? _]%v_alive_interval). simpl in *. lia.
  - intros i Hi. rewrite !elem_of_visible. setoid_rewrite update_node_lookup.
    by rewrite decide_False.
Qed.

(** ** Compaction *)

Lemma hard_delete_nodes id s : nodes (hard_delete id s).2 = delete id (nodes s).
Proof.
  unfold hard_delete, remove_from_memory, wal_delete.
  destruct (wal s); simpl; destruct (nodes s !! id) eqn:Hid; simpl; try done;
    by rewrite delete_id.
Qed.

Lemma hard_deletes_lookup ids s i :
  nodes (foldl (fun s id => (hard_delete id s).2) s ids) !! i =
  if decide (i ∈ ids) then None else nodes s !! i.
Proof.
  revert s. induction ids as [|id ids IH]; intros s; [done|]. simpl. rewrite IH, hard_delete_nodes.
  destruct (decide (i ∈ ids)).
  - rewrite decide_True; [done|]. by apply list_elem_of_further.
  - destruct (decide (i = id)) as [->|].
    + rewrite decide_True by apply list_elem_of_here. apply lookup_delete_eq.
    + rewrite decide_False by (intros [?|?]%elem_of_cons; done). by apply lookup_delete_ne.
Qed.

Lemma hard_deletes_free ids s :
  NoDup ids -> (forall i, i ∈ ids -> is_Some (nodes s !! i)) ->
  free_list (foldl (fun s id => (hard_delete id s).2) s ids) = free_list s ++ ids.
Proof.
  revert s. induction ids as [|id ids IH]; intros s Hnd Hin; [by rewrite app_nil_r|].
  apply NoDup_cons in Hnd as [Hni Hnd]. simpl. rewrite IH; [|done|].
  - destruct (Hin id) as [n Hn]; [apply list_elem_of_here|].
    unfold hard_delete, remove_from_memory, wal_delete.
    destruct (wal s); simpl; rewrite Hn; simpl; by rewrite <-app_assoc.
  - intros i Hi. rewrite hard_delete_nodes, lookup_delete_ne by set_solver.
    apply Hin. by apply list_elem_of_further.
Qed.

Lemma elem_of_candidates oldest s id :
  id ∈ compact_candidates oldest s <->
  exists n, nodes s !! id = Some n /\ Node.deleted_tx n < oldest.
Proof. apply elem_of_filter_keys. Qed.

(** C38: compaction is safe and complete. [compact oldest] removes exactly the
    nodes deleted before [oldest], returns how many they are and frees their
    ids; no snapshot from [oldest - 1] on, hence no active transaction, sees
    any difference. *)
Theorem compact_correct oldest s :
  (forall id, nodes (compact oldest s).2 !! id =
    nodes s !! id ≫= fun n => if Node.deleted_tx n <? oldest then None else Some n) /\
  free_list (compact oldest s).2 = free_list s ++ compact_candidates oldest s /\
  (compact oldest s).1 = length (compact_candidates oldest s) /\
  forall t, oldest - 1 <= t ->
    (forall id, id ∈ visible_nodes t (compact oldest s).2 <-> id ∈ visible_nodes t s) /\
    visible_count t (compact oldest s).2 = visible_count t s.
Proof.
  assert (forall id, nodes (compact oldest s).2 !! id =
    nodes s !! id ≫= fun n => if Node.deleted_tx n <? oldest then None else Some n) as Hl.
  { intros id. unfold compact. simpl. rewrite hard_deletes_lookup.
    case_decide as Hid; rewrite elem_of_candidates in Hid.
    - destruct Hid as (n & -> & Hlt). simpl. by apply Z.ltb_lt in Hlt as ->.
    - destruct (nodes s !! id) as [n|] eqn:Hn; [|done]. simpl.
      destruct (_ <? _) eqn:Hlt; [|done]. destruct Hid. exists n. split; [done|blia]. }
  split; [done|]. split.
  { apply hard_deletes_free; [apply filter_keys_NoDup|].
    intros i (n & Hn & _)%elem_of_candidates. eauto. }
  split; [done|]. intros t Ht.
  assert (forall id, id ∈ visible_nodes t (compact oldest s).2 <-> id ∈ visible_nodes t s) as Hv.
  { intros id. rewrite !elem_of_visible. setoid_rewrite Hl.
    destruct (nodes s !! id) as [n|]; [|naive_solver]. simpl.
    destruct (_ <? _) eqn:Hlt; [|naive_solver]. split; [naive_solver|].
    intros (n' & [= <-] & Ha). apply node_alive_iff in Ha as [_ ?]. blia. }
  split; [done|]. by apply visible_count_ext.
Qed.
End mvcc.

(** ** Where recovery and memory part *)

Section divergence.
Context {W : Type} `{WalSinkLaws W} `{CodecLaws Node}.
Implicit Types (s : NodeStore W) (rs : list WalRec).

Lemma sink_image_recs w : sink_live w -> sink_base w = MAGIC ->
  sink_image (sink_flush w) = MAGIC ++ encode_recs (sink_recs w).
Proof. intros Hl Hb. by rewrite sink_flush_image, Hb. Qed.

Lemma insert_node_wal labels row tx s w d :
  wal s = Some w -> serialize (Node.new (alloc_id s).1 labels row tx) = Some d ->
  wal (insert_node labels row tx s).2 = Some (sink_insert (alloc_id s).1 d w).
Proof.
  intros Hw Hd. rewrite insert_node_alloc. cbn [snd]. unfold insert_with_id, wal_insert. simpl.
  destruct (alloc_id_frame s) as [_ ->]. by rewrite Hw, Hd.
Qed.

Lemma insert_node_free labels row tx s :
  free_list (insert_node labels row tx s).2 = tail (free_list s).
Proof.
  rewrite insert_node_alloc. unfold insert_with_id. cbn [snd].
  destruct (wal_insert_frame (alloc_id s).1 (Node.new (alloc_id s).1 labels row tx)
    (insert_in_memory (alloc_id s).1 (Node.new (alloc_id s).1 labels row tx) (alloc_id s).2))
    as (_ & _ & -> & _).
  unfold alloc_id. by destruct (free_list s) eqn:Hfl; simpl; rewrite ?Hfl.
Qed.

Lemma hard_delete_wal id s w :
  wal s = Some w -> wal (hard_delete id s).2 = Some (sink_delete id w).
Proof.
  intros Hw. unfold hard_delete, remove_from_memory, wal_delete. rewrite Hw. simpl.
  by destruct (nodes s !! id).
Qed.

(** One id, inserted, deleted and inserted again: what memory and the log hold. *)
Lemma reuse_run labels1 labels2 s w d1 d2 :
  nodes s = ∅ -> free_list s = [] -> next_id s = 0 -> wal s = Some w ->
  serialize (Node.new 0 labels1 0 1) = Some d1 ->
  serialize (Node.new 0 labels2 0 2) = Some d2 ->
  let s' := exec_ops s [OpInsert labels1 0 1; OpHardDelete 0; OpInsert labels2 0 2] in
  nodes s' = {[ 0 := Node.new 0 labels2 0 2 ]} /\
  wal s' = Some (sink_insert 0 d2 (sink_delete 0 (sink_insert 0 d1 w))).
Proof.
  intros Hn Hf Hid Hw Hd1 Hd2. unfold exec_ops. cbn [foldl exec_op].
  assert ((alloc_id s).1 = 0) as Ha1 by (unfold alloc_id; by rewrite Hf, Hid).
  pose proof (insert_node_wal labels1 0 1 s w d1 Hw) as Hw1.
  pose proof (insert_node_nodes labels1 0 1 s) as Hn1.
  pose proof (insert_node_free labels1 0 1 s) as Hf1.
  rewrite Ha1 in Hw1, Hn1. specialize (Hw1 Hd1). rewrite Hn in Hn1. rewrite Hf in Hf1.
  generalize dependent (insert_node labels1 0 1 s).2. intros s1 Hw1 Hn1 Hf1.
  apply (hard_delete_wal 0) in Hw1. pose proof (hard_delete_nodes 0 s1) as Hn2.
  pose proof (hard_deletes_free [0] s1 (NoDup_singleton 0)) as Hf2. cbn [foldl] in Hf2.
  rewrite Hn1, Hf1 in Hf2.
  specialize (Hf2 ltac:(by intros ? ->%list_elem_of_singleton; rewrite lookup_insert_eq; eauto)).
  rewrite Hn1, delete_insert_eq, delete_empty in Hn2.
  generalize dependent (hard_delete 0 s1).2. intros s2 Hw2 Hn2 Hf2.
  assert ((alloc_id s2).1 = 0) as Ha2 by (unfold alloc_id; by rewrite Hf2).
  split; [by rewrite insert_node_nodes, Ha2, Hn2|].
  rewrite (insert_node_wal labels2 0 2 s2 _ d2 Hw2); by rewrite Ha2.
Qed.

Lemma replay_reuse n1 n2 d1 d2 :
  deserialize d1 = Some n1 -> deserialize d2 = Some n2 ->
  exists s, apply_recs (replay_record (W := W)) [mkRec 1 0 d1; mkRec 2 0 []; mkRec 1 0 d2]
      (new, 0) = (s, 0) /\
    nodes s = {[ 0 := n2 ]} /\ free_list s = [0].
Proof.
  intros Hd1 Hd2. unfold apply_recs, apply_rec, replay_record. cbn -[wrap64].
  rewrite Hd1. cbn -[wrap64]. rewrite lookup_insert_eq. cbn -[wrap64]. rewrite Hd2.
  eexists. split; [done|]. cbn. by rewrite delete_insert_eq, delete_empty.
Qed.

(** Recovery does not take a reused id off the free list. Insert a node,
    hard-delete it, and insert another, which gets the first one's id; after a
    reopen the node is there, but its id is on the free list again, and the
    next insert replaces the live node. *)
Theorem reopen_overwrites_live_node c s0 w labels1 labels2 labels3 :
  contract_ok (durability c) (wal_channel_capacity c) ->
  open (W := W) c None = Ok s0 ->
  let s := exec_ops s0 [OpInsert labels1 0 1; OpHardDelete 0; OpInsert labels2 0 2] in
  wal s = Some w -> Forall rec_ok (sink_recs w) ->
  exists s', open (W := W) c (Some (sink_image (sink_flush w))) = Ok s' /\
    nodes s = {[ 0 := Node.new 0 labels2 0 2 ]} /\ nodes s' = nodes s /\
    (insert_node labels3 0 3 s').1 = 0 /\
    nodes (insert_node labels3 0 3 s').2 = {[ 0 := Node.new 0 labels3 0 3 ]}.
Proof.
  intros Hc Ho s.
  destruct (sink_spawn_total (W := W) (durability c) (wal_channel_capacity c) None Hc) as [w0 Hw0].
  destruct (sink_spawn_live _ _ _ _ Hc Hw0) as (Hl0 & Hb0 & Hr0 & _).
  destruct (serialize_total (Node.new 0 labels1 0 1)) as [d1 Hd1].
  destruct (serialize_total (Node.new 0 labels2 0 2)) as [d2 Hd2].
  destruct (reuse_run labels1 labels2 s0 w0 d1 d2) as [Hn Hw];
    try (unfold open in Ho; rewrite Hw0 in Ho; simpl in Ho; by simplify_eq); [done..|].
  fold s in Hn, Hw. rewrite Hw. intros [= <-] Hok.
  destruct (sink_insert_extends w0 0 d1 Hl0) as (Hl1 & Hb1 & Hr1).
  destruct (sink_delete_extends _ 0 Hl1) as (Hl2 & Hb2 & Hr2).
  destruct (sink_insert_extends _ 0 d2 Hl2) as (Hl3 & Hb3 & Hr3).
  rewrite Hr2, Hr1, Hr0 in Hr3. cbn [app] in Hr3.
  rewrite sink_image_recs by (rewrite ?Hb3, ?Hb2, ?Hb1; done).
  destruct (open_log c (Some (MAGIC ++ encode_recs (sink_recs (sink_insert 0 d2
    (sink_delete 0 (sink_insert 0 d1 w0)))))) _ Hc eq_refl Hok) as (w' & -> & _).
  unfold replayed. rewrite bool_decide_eq_false_2 by (by rewrite Hr3).
  destruct (replay_reuse _ _ d1 d2 (deserialize_serialize _ _ Hd1)
    (deserialize_serialize _ _ Hd2)) as (s1 & Hs1 & Hn1 & Hf1).
  rewrite Hr3, Hs1. eexists. split; [done|]. split; [done|]. split; [by rewrite Hn|].
  rewrite insert_node_nodes, insert_node_alloc. unfold alloc_id. simpl. rewrite Hf1. simpl.
  split; [done|]. by rewrite Hn1, insert_singleton.
Qed.

(** [hard_delete] with an update of the node between its two halves. *)
Lemma raced_delete m0 b s id row n :
  store_logged m0 b s -> nodes s !! id = Some n ->
  let s' := (remove_from_memory id (update_props_row id row (wal_delete id s)).2).2 in
  nodes s' !! id = None /\
  exists m n', logged m0 b m (wal s') /\ m !! id = Some n' /\ Node.props_row n' = row.
Proof.
  intros Hlog Hid. destruct (logged_some _ _ _ _ Hlog) as [w Hw]. unfold store_logged in Hlog.
  rewrite Hw in Hlog. unfold wal_delete. rewrite Hw.
  unfold update_props_row, update_node, wal_insert. simpl. rewrite Hid.
  set (n' := Node.mkNode _ _ _ _ _ _ _).
  destruct (serialize_total n') as [d Hd]. rewrite Hd. unfold remove_from_memory. simpl.
  rewrite lookup_insert_eq. simpl. split; [apply lookup_delete_eq|].
  apply (logged_del _ _ _ _ id) in Hlog.
  exists (<[id := n']> (delete id (nodes s))), n'.
  split; [by apply logged_put|]. split; [apply lookup_insert_eq|done].
Qed.

(** A hard delete can be undone by a restart. [hard_delete] logs the
    delete before it removes the node from memory; when another thread's
    update of the node comes in between, its record lands after the delete
    record: the node is gone from memory and comes back at the next open. *)
Theorem hard_delete_race c file rs0 s0 ops id row n w :
  contract_ok (durability c) (wal_channel_capacity c) ->
  log_contents file = MAGIC ++ encode_recs rs0 ->
  open (W := W) c file = Ok s0 ->
  nodes (exec_ops s0 ops) !! id = Some n ->
  let s := (remove_from_memory id
    (update_props_row id row (wal_delete id (exec_ops s0 ops))).2).2 in
  wal s = Some w -> Forall rec_ok (rs0 ++ sink_recs w) ->
  contains id s = false /\
  exists s', open (W := W) c (Some (sink_image (sink_flush w))) = Ok s' /\
    contains id s' = true.
Proof.
  intros Hc Hlog Ho Hid s Hw Hok.
  apply Forall_app in Hok as [Hok0 Hok1].
  destruct (open_log c file rs0 Hc Hlog Hok0) as (w0 & Ho' & Hlg).
  rewrite Ho in Ho'. injection Ho' as Hs0. rewrite <-Hs0 in Hlg.
  destruct (raced_delete _ _ _ id row n (exec_ops_logged _ _ s0 ops Hlg) Hid)
    as (Hnone & m & n' & Hm & Hn' & _). fold s in Hnone, Hm.
  split; [unfold contains; rewrite Hnone; by apply bool_decide_eq_false_2; intros []|].
  destruct (logged_image _ _ _ Hm) as (w' & Hw' & Himg & ->).
  assert (w' = w) as -> by congruence. rewrite Himg.
  destruct (open_log c (Some (MAGIC ++ encode_recs (rs0 ++ sink_recs w))) (rs0 ++ sink_recs w) Hc
    eq_refl (proj2 (Forall_app _ _ _) (conj Hok0 Hok1))) as (w1 & Hs1 & _).
  eexists. split; [done|]. unfold contains. apply bool_decide_eq_true_2. simpl.
  rewrite replayed_nodes, Hn'. eauto.
Qed.
End divergence.

(** ** The theorems at concrete stores

    The abstract log as the WAL, [countable_codec] as the serializer. *)

Section witnesses.
#[local] Existing Instances LogSink.sink LogSink.laws.
#[local] Instance node_codec : Codec Node := countable_codec.
#[local] Instance node_codec_laws : CodecLaws Node := countable_codec_laws.

Definition demo_store : NodeStore LogSink.t :=
  match open balanced None with Ok s => s | _ => new end.

Definition demo_ops : list NodeOp :=
  [OpInsert [7] 0 1; OpAlloc; OpInsertWithId 1 [8] 5 2; OpInsert [] 1 2; OpHardDelete 0;
   OpSoftDelete 1 4; OpInsert [9] 2 5; OpUpdateLabels 2 [3; 4] 6; OpSetFirstOut 2 11;
   OpCompact 5; OpFlush].

Definition demo_wal (s : NodeStore LogSink.t) : LogSink.t :=
  default (LogSink.mk [] [] 0 0) (wal s).

Lemma demo_contract : contract_ok (durability balanced) (wal_channel_capacity balanced).
Proof. by_decide. Qed.

(** Node 1 is changed through [get_mut] and then soft-deleted; node 2 is changed
    after its last record. *)
Definition bump_row (n : Node) : Node :=
  Node.mkNode (Node.id n) (Node.labels n) (Node.first_out n) (Node.first_in n) (Node.props_row n + 1)
    (Node.created_tx n) (Node.deleted_tx n).

Definition demo_calls : list NodeCall :=
  map NCall (take 4 demo_ops) ++ [NGetMut 1 bump_row] ++ map NCall (drop 4 demo_ops) ++
  [NCall (OpInsert [] 0 7); NGetMut 2 bump_row].

Lemma demo_opened : open (W := LogSink.t) balanced None = Ok demo_store.
Proof. reflexivity. Qed.

Lemma demo_calls_wal :
  wal (exec_calls demo_store demo_calls) = Some (demo_wal (exec_calls demo_store demo_calls)).
Proof. by vm_compute. Qed.

Lemma demo_calls_fit : Forall rec_ok ([] ++ sink_recs (demo_wal (exec_calls demo_store demo_calls))).
Proof. apply rec_okb_all. by vm_compute. Qed.

Lemma demo_unlogged : unlogged ∅ demo_store demo_calls = {[2]}.
Proof. by_decide. Qed.

Lemma node_store_recovers_witness :
  exists s', open (W := LogSink.t) balanced
      (Some (sink_image (sink_flush (demo_wal (exec_calls demo_store demo_calls))))) = Ok s' /\
    dom (nodes s') = dom (nodes (exec_calls demo_store demo_calls)) /\
    (forall id, id ∉ ({[2]} : gset Z) -> nodes s' !! id = nodes (exec_calls demo_store demo_calls) !! id).
Proof.
  destruct (node_store_recovers balanced None [] demo_store demo_calls
    (demo_wal (exec_calls demo_store demo_calls)) demo_contract eq_refl demo_opened demo_calls_wal
    demo_calls_fit) as (s' & Hs' & Hdom & Hm & _).
  rewrite demo_unlogged in Hm. exists s'. exact (conj Hs' (conj Hdom Hm)).
Defined.

Definition demo_recs : list WalRec :=
  [mkRec 1 0 (default [] (serialize (Node.new 0 [] 0 1)));
   mkRec 1 1 (default [] (serialize (Node.new 1 [2] 0 1)))].

(** The boundary between the two records. *)
Definition demo_cut : nat := length (encode_recs (take 1 demo_recs)).

(** Cut on the boundary, and ten bytes into the first record. *)
Lemma open_after_crash_witness :
  (exists s, open (W := LogSink.t) balanced
      (Some (MAGIC ++ take demo_cut (encode_recs demo_recs))) = Ok s /\
    nodes s = recover (take 1 demo_recs) ∅) /\
  open (W := LogSink.t) balanced (Some (MAGIC ++ take 10 (encode_recs demo_recs))) =
    Err UnexpectedEof.
Proof.
  assert (Forall rec_ok demo_recs) as Hok by by_decide.
  destruct (open_after_crash (W := LogSink.t) balanced demo_recs demo_cut demo_contract Hok)
    as [H1 _].
  destruct (open_after_crash (W := LogSink.t) balanced demo_recs 10 demo_contract Hok)
    as [_ H2].
  split; [|apply H2; by vm_compute].
  replace (take 1 demo_recs) with (cut_recs demo_recs demo_cut).1 by by vm_compute.
  apply H1. by vm_compute.
Defined.

Lemma node_ids_partition_witness :
  let s := exec_ops (new (W := LogSink.t)) demo_ops in
  pool_ok (dom (nodes s)) (reserved_run ∅ (new (W := LogSink.t)) demo_ops) (next_id s) (free_list s) /\
  free_count s = wrap64 (Z.of_nat (length (free_list s))) /\
  (alloc_id s).1 ∉ dom (nodes s) ∪ reserved_run ∅ (new (W := LogSink.t)) demo_ops.
Proof.
  apply (node_ids_partition (W := LogSink.t) demo_ops); [|by vm_compute].
  simpl. split_done. left. set_solver.
Defined.

Lemma soft_delete_versioned_witness :
  let s := exec_ops demo_store [OpInsert [7] 0 1] in
  (soft_delete 0 5 s).1 = true /\
  0 ∈ visible_nodes 4 (soft_delete 0 5 s).2 /\ 0 ∉ visible_nodes 5 (soft_delete 0 5 s).2.
Proof.
  intros s. destruct (soft_delete_versioned 0 5 s 4) as [H1 H2]; [|done|].
  { intros n. vm_compute. by intros [= <-]. }
  destruct (soft_delete_versioned 0 5 s 5) as [_ H3]; [|done|].
  { intros n. vm_compute. by intros [= <-]. }
  rewrite H2, H3, H1. split; [done|]. split; [split; [|lia]|intros [_ ?]; lia].
  vm_compute. left.
Defined.

Lemma update_labels_hides_witness :
  let s := exec_ops demo_store [OpInsert [7] 0 1] in
  0 ∉ visible_nodes 4 (update_labels 0 [8] 5 s).2.
Proof.
  intros s. apply (update_labels_hides 0 [8] 5 s 4); [|lia]. vm_compute. left.
Defined.

Lemma compact_correct_witness :
  let s := exec_ops demo_store [OpInsert [7] 0 1; OpInsert [] 0 1; OpSoftDelete 0 3] in
  visible_count 4 (compact 5 s).2 = visible_count 4 s /\ (compact 5 s).1 = 1%nat.
Proof.
  intros s. destruct (compact_correct 5 s) as (_ & _ & Hn & Ht). split; [|by rewrite Hn].
  apply Ht. lia.
Defined.

(** A log cut two bytes into a length field is opened as an empty one, and the
    WAL appends to what is there: the two bytes and the first two of the next
    record are read as the length of a record, and after a flush the log cannot
    be read at all. *)
Definition torn_log : option bytes := Some (MAGIC ++ take 2 (encode_recs demo_recs)).

Definition torn_store : NodeStore LogSink.t :=
  match open balanced torn_log with Ok s => (insert_node [7] 0 1 s).2 | _ => new end.

Example torn_log_appended :
  contains 1 torn_store = true /\
  open (W := LogSink.t) balanced (Some (sink_image (sink_flush (demo_wal torn_store)))) = Err UnexpectedEof.
Proof. by vm_compute. Qed.

Definition reuse_ops : list NodeOp := [OpInsert [7] 0 1; OpHardDelete 0; OpInsert [8] 0 2].

Lemma reopen_overwrites_live_node_witness :
  exists s', open (W := LogSink.t) balanced
      (Some (sink_image (sink_flush (demo_wal (exec_ops demo_store reuse_ops))))) = Ok s' /\
    nodes (exec_ops demo_store reuse_ops) = {[ 0 := Node.new 0 [8] 0 2 ]} /\
    nodes s' = nodes (exec_ops demo_store reuse_ops) /\
    (insert_node [9] 0 3 s').1 = 0 /\
    nodes (insert_node [9] 0 3 s').2 = {[ 0 := Node.new 0 [9] 0 3 ]}.
Proof.
  apply (reopen_overwrites_live_node balanced demo_store _ [7] [8] [9]);
    [apply demo_contract|reflexivity..|].
  by_decide.
Defined.

Lemma hard_delete_race_witness :
  let s := (remove_from_memory 0
    (update_props_row 0 9 (wal_delete 0 (exec_ops demo_store [OpInsert [7] 0 1]))).2).2 in
  contains 0 s = false /\
  exists s', open (W := LogSink.t) balanced (Some (sink_image (sink_flush (demo_wal s)))) = Ok s' /\
    contains 0 s' = true.
Proof.
  apply (hard_delete_race balanced None [] demo_store [OpInsert [7] 0 1] 0 9
    (Node.new 0 [7] 0 1)); [apply demo_contract|reflexivity..|].
  by_decide.
Defined.
End witnesses.
