(* ===== verification/EdgeStore.v ===== *)
(** * The edge store ([src/src/storage/edge_store.rs])

    The map, allocator and WAL handle as in [NodeStore], and the adjacency
    chains: singly linked lists threaded through the edges' [next_out] and
    [next_in], with their heads kept by the caller. The two directions run the
    same code on different fields, so the loops take the direction. A loop takes
    fuel and gives [None] when it runs out; the theorems say when it cannot. *)

From S2P Require Export Graph Consistency RecLog IdPool.

Open Scope Z_scope.

Record EdgeStore (W : Type) : Type := mkEdgeStore {
  edges : gmap Z Edge;
  edge_next_id : Z;
  edge_free_list : list Z;
  edge_free_count : Z;
  edge_wal : option W
}.
Arguments mkEdgeStore {W}.
Arguments edges {W}.
Arguments edge_next_id {W}.
Arguments edge_free_list {W}.
Arguments edge_free_count {W}.
Arguments edge_wal {W}.

(** The two chains an edge is on. *)
Inductive Dir : Type := DOut | DIn.

#[export] Instance Dir_eq_dec : EqDecision Dir.
Proof. solve_decision. Defined.

Definition next (d : Dir) (e : Edge) : Z :=
  match d with DOut => Edge.next_out e | DIn => Edge.next_in e end.

Definition set_next (d : Dir) (v : Z) (e : Edge) : Edge :=
  {| Edge.id := Edge.id e; Edge.src := Edge.src e; Edge.dst := Edge.dst e;
     Edge.etype := Edge.etype e;
     Edge.next_out := match d with DOut => v | DIn => Edge.next_out e end;
     Edge.next_in := match d with DOut => Edge.next_in e | DIn => v end;
     Edge.props_row := Edge.props_row e; Edge.created_tx := Edge.created_tx e;
     Edge.deleted_tx := Edge.deleted_tx e |}.

(** ** Walking a chain *)

(** [out_edges] and [in_edges]. *)
Fixpoint walk (d : Dir) (fuel : nat) (m : gmap Z Edge) (cur : Z) : option (list Z) :=
  match fuel with
  | O => None
  | S fuel' =>
      if cur =? NULL_EDGE then Some []
      else
        match m !! cur with
        | Some e => cons cur <$> walk d fuel' m (next d e)
        | None => Some []
        end
  end.

(** [out_edges_visible] *)
Fixpoint walk_visible (tx : Z) (fuel : nat) (m : gmap Z Edge) (cur : Z) : option (list Z) :=
  match fuel with
  | O => None
  | S fuel' =>
      if cur =? NULL_EDGE then Some []
      else
        match m !! cur with
        | Some e =>
            let rest := walk_visible tx fuel' m (Edge.next_out e) in
            if Edge.is_alive e tx then cons cur <$> rest else rest
        | None => Some []
        end
  end.

(** The predecessor search of [unlink_from_chains]: [e.next] is set to [nxt] in
    the first edge [e] found to point at [edge_id]. *)
Fixpoint unlink_scan (d : Dir) (fuel : nat) (edge_id nxt : Z) (m : gmap Z Edge) (cur : Z)
  : option (gmap Z Edge * option Z) :=
  match fuel with
  | O => None
  | S fuel' =>
      if cur =? NULL_EDGE then Some (m, None)
      else
        match m !! cur with
        | Some e =>
            if next d e =? edge_id then Some (<[cur := set_next d nxt e]> m, Some cur)
            else unlink_scan d fuel' edge_id nxt m (next d e)
        | None => Some (m, None)
        end
  end.

(** One direction of [unlink_from_chains]: the map, the head, the predecessor. *)
Definition unlink_dir (d : Dir) (fuel : nat) (edge_id nxt first : Z) (m : gmap Z Edge)
  : option (gmap Z Edge * Z * option Z) :=
  if first =? edge_id then Some (m, nxt, None)
  else (fun '(m', pred) => (m', first, pred)) <$> unlink_scan d fuel edge_id nxt m first.

(** ** The store *)

Module EdgeStore.
Section EdgeStore.
Context {W : Type} `{WalSink W} `{Codec Edge}.
Implicit Types (s : EdgeStore W) (e : Edge) (id : Z).

Definition set_edges (m : gmap Z Edge) s : EdgeStore W :=
  {| edges := m; edge_next_id := edge_next_id s; edge_free_list := edge_free_list s;
     edge_free_count := edge_free_count s; edge_wal := edge_wal s |}.

Definition set_wal (w : option W) s : EdgeStore W :=
  {| edges := edges s; edge_next_id := edge_next_id s; edge_free_list := edge_free_list s;
     edge_free_count := edge_free_count s; edge_wal := w |}.

Definition set_next_id (nxt : Z) s : EdgeStore W :=
  {| edges := edges s; edge_next_id := nxt; edge_free_list := edge_free_list s;
     edge_free_count := edge_free_count s; edge_wal := edge_wal s |}.

Definition push_free id s : EdgeStore W :=
  {| edges := edges s; edge_next_id := edge_next_id s;
     edge_free_list := edge_free_list s ++ [id];
     edge_free_count := wrap64 (edge_free_count s + 1); edge_wal := edge_wal s |}.

Definition with_capacity (cap : Z) : EdgeStore W :=
  {| edges := ∅; edge_next_id := 0; edge_free_list := []; edge_free_count := 0;
     edge_wal := None |}.

Definition new : EdgeStore W := with_capacity 3000000.

Definition replay_record (opcode id : Z) (payload : bytes) (st : EdgeStore W * Z)
  : EdgeStore W * Z :=
  let '(s, max_id) := st in
  if opcode =? 1 then
    match deserialize payload with
    | Some edge => (set_edges (<[id := edge]> (edges s)) s, Z.max max_id id)
    | None => (s, max_id)
    end
  else if opcode =? 2 then
    match edges s !! id with
    | Some _ => (push_free id (set_edges (delete id (edges s)) s), max_id)
    | None => (s, max_id)
    end
  else (s, max_id).

(** [file] is the content of [edges.wal] in the data directory, if any. *)
Definition open (c : Consistency) (file : option bytes) : io (EdgeStore W) :=
  let? s := replay_file replay_record new set_next_id file in
  let? w := sink_spawn (durability c) (wal_channel_capacity c) file in
  Ok (set_wal (Some w) s).

Definition wal_insert id e s : EdgeStore W :=
  match edge_wal s with
  | Some w =>
      match serialize e with
      | Some data => set_wal (Some (sink_insert id data w)) s
      | None => s
      end
  | None => s
  end.

Definition wal_delete id s : EdgeStore W :=
  match edge_wal s with
  | Some w => set_wal (Some (sink_delete id w)) s
  | None => s
  end.

Definition alloc_id s : Z * EdgeStore W :=
  match edge_free_list s with
  | id :: fl =>
      (id, {| edges := edges s; edge_next_id := edge_next_id s; edge_free_list := fl;
              edge_free_count := wrap64 (edge_free_count s - 1); edge_wal := edge_wal s |})
  | [] => (edge_next_id s, set_next_id (wrap64 (edge_next_id s + 1)) s)
  end.

Definition alloc_id_direct s : Z * EdgeStore W := alloc_id s.

Definition insert_with_id id (src dst etype props_row tx_id : Z) s : EdgeStore W :=
  let edge := Edge.new id src dst etype props_row tx_id in
  wal_insert id edge (set_edges (<[id := edge]> (edges s)) s).

Definition insert_edge (src dst etype props_row tx_id : Z) s : Z * EdgeStore W :=
  let '(id, s1) := alloc_id s in
  let edge := Edge.new id src dst etype props_row tx_id in
  (id, wal_insert id edge (set_edges (<[id := edge]> (edges s1)) s1)).

Definition get id s : option Edge := edges s !! id.

(** What a caller does through the reference [get_mut] hands out. *)
Definition get_mut id (f : Edge -> Edge) s : bool * EdgeStore W :=
  match edges s !! id with
  | Some e => (true, set_edges (<[id := f e]> (edges s)) s)
  | None => (false, s)
  end.

(** [if let Some(e) = self.edges.get(&id) { self.wal_insert(id, &e); }] *)
Definition persist id s : EdgeStore W :=
  match edges s !! id with
  | Some e => wal_insert id e s
  | None => s
  end.

(** [if let Some(mut e) = self.edges.get_mut(&id) { e.next = v; }] *)
Definition put_next (d : Dir) id (v : Z) s : EdgeStore W :=
  match edges s !! id with
  | Some e => set_edges (<[id := set_next d v e]> (edges s)) s
  | None => s
  end.

(** The new [*src_first_out], [*dst_first_in] and store. *)
Definition link_into_chains (new_edge src_first_out dst_first_in : Z) s : Z * Z * EdgeStore W :=
  let s1 := put_next DOut new_edge src_first_out s in
  let s2 := put_next DIn new_edge dst_first_in s1 in
  (new_edge, new_edge, persist new_edge s2).

Definition persist_pred (pred : option Z) s : EdgeStore W :=
  match pred with
  | Some id => persist id s
  | None => s
  end.

Definition unlink_from_chains (fuel : nat) (edge_id src_first_out dst_first_in : Z) s
  : option (bool * Z * Z * EdgeStore W) :=
  match edges s !! edge_id with
  | None => Some (false, src_first_out, dst_first_in, s)
  | Some edge =>
      '(m1, first_out, src_pred) ←
        unlink_dir DOut fuel edge_id (Edge.next_out edge) src_first_out (edges s);
      '(m2, first_in, dst_pred) ←
        unlink_dir DIn fuel edge_id (Edge.next_in edge) dst_first_in m1;
      Some (true, first_out, first_in,
            persist_pred dst_pred (persist_pred src_pred (set_edges m2 s)))
  end.

Definition soft_delete id (tx_id : Z) s : bool * EdgeStore W :=
  match edges s !! id with
  | Some e =>
      let e' := Edge.mark_deleted e tx_id in
      (true, wal_insert id e' (set_edges (<[id := e']> (edges s)) s))
  | None => (false, s)
  end.

Definition hard_delete id s : bool * EdgeStore W :=
  let s1 := wal_delete id s in
  match edges s1 !! id with
  | Some _ => (true, push_free id (set_edges (delete id (edges s1)) s1))
  | None => (false, s1)
  end.

Definition out_edges (fuel : nat) (start : Z) s : option (list Z) := walk DOut fuel (edges s) start.
Definition in_edges (fuel : nat) (start : Z) s : option (list Z) := walk DIn fuel (edges s) start.
Definition out_edges_visible (fuel : nat) (start tx : Z) s : option (list Z) :=
  walk_visible tx fuel (edges s) start.

Definition contains id s : bool := bool_decide (is_Some (edges s !! id)).
Definition len s : nat := size (edges s).
Definition get_free_count s : Z := edge_free_count s.

Definition flush s : EdgeStore W :=
  match edge_wal s with
  | Some w => set_wal (Some (sink_flush w)) s
  | None => s
  end.
End EdgeStore.
End EdgeStore.

(** ** Chains

    [chain d m h l]: from head [h] the links of direction [d] run through the
    edges [l], in order, and end at [NULL_EDGE]. *)

Inductive chain (d : Dir) (m : gmap Z Edge) : Z -> list Z -> Prop :=
| chain_nil : chain d m NULL_EDGE []
| chain_cons cur e l :
    cur ≠ NULL_EDGE -> m !! cur = Some e -> chain d m (next d e) l ->
    chain d m cur (cur :: l).

#[export] Hint Constructors chain : lightgraph.

Section chains.
Implicit Types (d : Dir) (m : gmap Z Edge) (l : list Z) (h x : Z).

Lemma chain_det d m h l1 l2 : chain d m h l1 -> chain d m h l2 -> l1 = l2.
Proof.
  intros H1. revert l2. induction H1 as [|cur e l Hn He H1 IH]; intros l2 H2.
  - inversion H2; congruence.
  - inversion H2 as [|? e' l' ? He' H2']; subst; [done|]. f_equal. apply IH. congruence.
Qed.

Lemma chain_head d m h x l : chain d m h (x :: l) -> h = x.
Proof. by inversion 1. Qed.

Lemma chain_suffix d m h l1 x l2 : chain d m h (l1 ++ x :: l2) -> chain d m x (x :: l2).
Proof.
  revert h. induction l1 as [|y l1 IH]; intros h Hc; simpl in Hc.
  - by rewrite <-(chain_head _ _ _ _ _ Hc) at 1.
  - inversion Hc; subst. eauto.
Qed.

Lemma chain_after d m h l1 x l2 e :
  chain d m h (l1 ++ x :: l2) -> m !! x = Some e -> chain d m (next d e) l2.
Proof.
  intros Hc%chain_suffix He. inversion Hc as [|? e' ? ? He' Hc']; subst.
  by simplify_eq.
Qed.

Lemma chain_NoDup d m h l : chain d m h l -> NoDup l.
Proof.
  induction 1 as [|cur e l Hn He Hc IH]; constructor; [|done].
  intros (l1 & l2 & ->)%list_elem_of_split.
  pose proof (chain_suffix _ _ _ _ _ _ Hc) as H1.
  pose proof (chain_det _ _ _ _ _ H1 (chain_cons d m cur e _ Hn He Hc)) as Heq.
  apply (f_equal length) in Heq. simpl in Heq. rewrite length_app in Heq. simpl in Heq. lia.
Qed.

Lemma chain_elem d m h l x : chain d m h l -> x ∈ l -> x ≠ NULL_EDGE /\ is_Some (m !! x).
Proof.
  induction 1 as [|cur e l Hn He Hc IH]; [by intros ?%elem_of_nil|].
  intros [->|Hx]%elem_of_cons; eauto.
Qed.

Lemma chain_length d m h l : chain d m h l -> (length l <= size m)%nat.
Proof.
  intros Hc. rewrite <-size_dom, <-(size_list_to_set (C := gset Z)) by by eapply chain_NoDup.
  apply subseteq_size. intros x Hx%elem_of_list_to_set. apply elem_of_dom.
  by apply (chain_elem d m h l x).
Qed.

(** A chain depends only on the links of its own edges. *)
Lemma chain_frame d m m' h l :
  (forall x, x ∈ l -> next d <$> m' !! x = next d <$> m !! x) ->
  chain d m h l -> chain d m' h l.
Proof.
  intros Heq Hc. induction Hc as [|cur e l Hn He Hc IH]; [constructor|].
  pose proof (Heq cur (list_elem_of_here _ _)) as Hcur. rewrite He in Hcur.
  destruct (m' !! cur) as [e'|] eqn:He'; simplify_eq/=.
  apply (chain_cons d m' cur e'); [done..|]. rewrite Hcur. apply IH.
  intros x Hx. apply Heq. by apply list_elem_of_further.
Qed.

Lemma walk_chain d m h l fuel :
  chain d m h l -> (length l < fuel)%nat -> walk d fuel m h = Some l.
Proof.
  intros Hc. revert fuel. induction Hc as [|cur e l Hn He Hc IH]; intros [|fuel] Hf;
    simpl in *; [lia|done|lia|].
  apply Z.eqb_neq in Hn. rewrite Hn, He, IH by lia. done.
Qed.

(** The scan finds the predecessor of [id], if [id] is on the chain. *)
Lemma unlink_scan_absent d m id nxt h l fuel :
  chain d m h l -> id ∉ l -> id ≠ NULL_EDGE -> (length l < fuel)%nat ->
  unlink_scan d fuel id nxt m h = Some (m, None).
Proof.
  intros Hc Hid Hnull. revert fuel. induction Hc as [|cur e l Hn He Hc IH]; intros [|fuel] Hf;
    simpl in *; [lia|done|lia|].
  apply not_elem_of_cons in Hid as [_ Hid].
  assert (next d e ≠ id) as Hne by (intros Heq; destruct Hc; [congruence|set_solver]).
  apply Z.eqb_neq in Hn, Hne. rewrite Hn, He, Hne. apply IH; [done|lia].
Qed.

Lemma unlink_scan_pred d m id nxt h l1 p l2 fuel :
  chain d m h (l1 ++ p :: id :: l2) -> (length l1 + 1 < fuel)%nat ->
  exists e, m !! p = Some e /\ next d e = id /\
    unlink_scan d fuel id nxt m h = Some (<[p := set_next d nxt e]> m, Some p).
Proof.
  revert h fuel. induction l1 as [|y l1 IH]; intros h [|fuel] Hc Hf; simpl in *; [lia| |lia|].
  - inversion Hc as [|? e ? Hn He Hc']; subst. apply chain_head in Hc' as Hid.
    apply Z.eqb_neq in Hn. exists e. rewrite Hn, He, (proj2 (Z.eqb_eq _ _) Hid). done.
  - pose proof (chain_NoDup _ _ _ _ Hc) as Hnd. apply NoDup_cons in Hnd as [_ Hnd].
    inversion Hc as [|? e ? Hn He Hc']; subst.
    assert (next d e ≠ id) as Hne.
    { intros Heq. rewrite Heq in Hc'. clear IH Hf.
      destruct l1 as [|z l1]; apply chain_head in Hc'; subst; simpl in Hnd;
        apply NoDup_cons in Hnd as [Hx _]; set_solver. }
    apply Z.eqb_neq in Hn, Hne. rewrite Hn, He, Hne. apply IH; [done|lia].
Qed.

(** Relinking [p] past its successor. *)
Lemma chain_relink d m h l1 p l0 l2 e v :
  chain d m h (l1 ++ p :: l0) -> m !! p = Some e -> chain d m v l2 -> p ∉ l2 ->
  chain d (<[p := set_next d v e]> m) h (l1 ++ p :: l2).
Proof.
  intros Hc He Hv Hp. pose proof (chain_NoDup _ _ _ _ Hc) as Hnd.
  revert h Hc Hnd. induction l1 as [|y l1 IH]; intros h Hc Hnd; simpl in *.
  - inversion Hc; subst. apply (chain_cons _ _ _ (set_next d v e)); [done|apply lookup_insert_eq|].
    replace (next d (set_next d v e)) with v by by destruct d.
    apply (chain_frame d m); [|done]. intros x Hx. rewrite lookup_insert_ne; [done|].
    intros ->. done.
  - inversion Hc as [|? e' ? Hn He' Hc']; subst. apply NoDup_cons in Hnd as [Hni Hnd].
    apply (chain_cons _ _ _ e'); [done| |by apply IH].
    rewrite lookup_insert_ne; [done|]. intros ->. set_solver.
Qed.

Lemma filter_middle (l1 l2 : list Z) x :
  NoDup (l1 ++ x :: l2) -> filter (fun y => y ≠ x) (l1 ++ x :: l2) = l1 ++ l2.
Proof.
  intros (H1 & H2 & [H3 H4]%NoDup_cons)%NoDup_app.
  assert (forall l, x ∉ l -> filter (fun y => y ≠ x) l = l) as Hkeep.
  { intros l Hl. induction l as [|y l IH]; [done|]. apply not_elem_of_cons in Hl as [? ?].
    rewrite filter_cons_True, IH; done. }
  rewrite filter_app, filter_cons_False by (by intros ?). rewrite !Hkeep; [done..|].
  intros Hx. by apply (H2 x Hx), list_elem_of_here.
Qed.

Lemma filter_absent (l : list Z) x : x ∉ l -> filter (fun y => y ≠ x) l = l.
Proof.
  induction l as [|y l IH]; [done|]. intros [? ?]%not_elem_of_cons.
  rewrite filter_cons_True, IH; done.
Qed.

(** One direction of an unlink: [id] leaves the chain [l]; at most the [d]-link
    of one edge of [l], other than [id], is changed. *)
Lemma unlink_dir_chain d m h l id e fuel :
  chain d m h l -> m !! id = Some e -> id ≠ NULL_EDGE -> (length l < fuel)%nat ->
  exists m' h' pred, unlink_dir d fuel id (next d e) h m = Some (m', h', pred) /\
    chain d m' h' (filter (fun y => y ≠ id) l) /\
    match pred with
    | None => m' = m
    | Some p => exists ep, p ∈ l /\ p ≠ id /\ m !! p = Some ep /\
                  m' = <[p := set_next d (next d e) ep]> m
    end.
Proof.
  intros Hc He Hnull Hf. unfold unlink_dir. destruct (decide (id ∈ l)) as [Hin|Hni].
  - apply list_elem_of_split in Hin as (l1 & l2 & ->). pose proof (chain_NoDup _ _ _ _ Hc) as Hnd.
    rewrite filter_middle by done. pose proof (chain_after _ _ _ _ _ _ _ Hc He) as Hrest.
    destruct (exists_last_or_nil l1) as [->|(l1' & p & ->)].
    + apply chain_head in Hc as ->. rewrite Z.eqb_refl. eexists _, _, None. done.
    + rewrite <-app_assoc in Hc, Hnd. simpl in Hc, Hnd.
      assert (h ≠ id) as Hne%Z.eqb_neq.
      { intros ->. destruct l1'; apply chain_head in Hc as ->; simpl in Hnd;
          apply NoDup_cons in Hnd as [Hx _]; set_solver. }
      destruct (unlink_scan_pred d m id (next d e) h l1' p l2 fuel Hc) as (ep & Hp & Hnx & Hs).
      { rewrite !length_app in Hf. simpl in Hf. lia. }
      rewrite Hne, Hs. eexists _, _, (Some p). split; [done|]. rewrite <-app_assoc. simpl.
      apply NoDup_app in Hnd as (_ & _ & [Hpn _]%NoDup_cons). split.
      * apply (chain_relink d m h l1' p (id :: l2)); [done..|set_solver].
      * exists ep. split; [set_solver|]. split; [set_solver|done].
  - rewrite filter_absent by done. destruct (_ =? _) eqn:Hh.
    + apply Z.eqb_eq in Hh as ->. inversion Hc; subst; [done|set_solver].
    + rewrite (unlink_scan_absent d m id _ h l) by done. by eexists _, _, None.
Qed.
End chains.

(** ** The store's operations on chains *)

Section operations.
Context {W : Type} `{WalSink W} `{Codec Edge}.
Import EdgeStore.
Implicit Types (s : EdgeStore W) (e : Edge) (id : Z).

Lemma wal_insert_edges id e s : edges (wal_insert id e s) = edges s.
Proof. unfold wal_insert. destruct (edge_wal s); [destruct (serialize e)|]; done. Qed.

Lemma persist_edges id s : edges (persist id s) = edges s.
Proof. unfold persist. destruct (edges s !! id); [apply wal_insert_edges|done]. Qed.

Lemma persist_pred_edges pred s : edges (persist_pred pred s) = edges s.
Proof. destruct pred; [apply persist_edges|done]. Qed.

(** Is there an edge [x], alive in snapshot [tx]? *)
Definition alive_at (m : gmap Z Edge) (tx x : Z) : bool :=
  match m !! x with Some e => Edge.is_alive e tx | None => false end.

Lemma walk_visible_filter tx fuel m cur :
  walk_visible tx fuel m cur =
  filter (fun x => alive_at m tx x = true) <$> walk DOut fuel m cur.
Proof.
  revert cur. induction fuel as [|fuel IH]; intros cur; simpl; [done|].
  destruct (cur =? NULL_EDGE); [done|]. destruct (m !! cur) as [e|] eqn:He; [|done].
  rewrite IH. destruct (walk DOut fuel m (Edge.next_out e)) as [l|]; simpl;
    [|by destruct (Edge.is_alive e tx)].
  assert (alive_at m tx cur = Edge.is_alive e tx) as Ha by (unfold alive_at; by rewrite He).
  rewrite filter_cons, Ha. by destruct (Edge.is_alive e tx).
Qed.

(** C23: traversal. From the head of a chain both traversals return the whole
    chain, in order and without repetition, and the MVCC one its edges alive in
    the snapshot; the loops run at most once per edge of the store, so they
    terminate. *)
Theorem traversal_correct s h g l k tx fuel :
  chain DOut (edges s) h l -> chain DIn (edges s) g k -> (len s < fuel)%nat ->
  out_edges fuel h s = Some l /\ NoDup l /\ in_edges fuel g s = Some k /\ NoDup k /\
  out_edges_visible fuel h tx s =
    Some (filter (fun x => alive_at (edges s) tx x = true) l).
Proof.
  intros Ho Hi Hf. unfold len in Hf.
  pose proof (chain_length _ _ _ _ Ho). pose proof (chain_length _ _ _ _ Hi).
  assert (walk DOut fuel (edges s) h = Some l) as Hw by (apply walk_chain; [done|lia]).
  split; [done|]. split; [by eapply chain_NoDup|].
  split; [apply walk_chain; [done|lia]|]. split; [by eapply chain_NoDup|].
  unfold out_edges_visible. by rewrite walk_visible_filter, Hw.
Qed.

Lemma link_edges id fo fi s e :
  edges s !! id = Some e ->
  edges (link_into_chains id fo fi s).2 =
  <[id := set_next DIn fi (set_next DOut fo e)]> (edges s).
Proof.
  intros He. unfold link_into_chains, put_next. rewrite He. simpl. rewrite persist_edges.
  rewrite lookup_insert_eq. simpl. by rewrite insert_insert_eq.
Qed.

Lemma link_chains s new_edge e first_out first_in l k :
  edges s !! new_edge = Some e -> new_edge ≠ NULL_EDGE ->
  chain DOut (edges s) first_out l -> chain DIn (edges s) first_in k ->
  new_edge ∉ l -> new_edge ∉ k ->
  let '(head_out, head_in, s') := link_into_chains new_edge first_out first_in s in
  chain DOut (edges s') head_out (new_edge :: l) /\
  chain DIn (edges s') head_in (new_edge :: k) /\
  (forall d h l', new_edge ∉ l' -> chain d (edges s) h l' -> chain d (edges s') h l') /\
  dom (edges s') = dom (edges s).
Proof.
  intros He Hn Ho Hi Hl Hk. pose proof (link_edges new_edge first_out first_in s e He) as Hm.
  destruct (link_into_chains new_edge first_out first_in s) as [[head_out head_in] s'] eqn:Hlink.
  unfold link_into_chains in Hlink. injection Hlink as <- <- _. simpl in Hm. rewrite Hm.
  assert (forall d h l', new_edge ∉ l' -> chain d (edges s) h l' ->
    chain d (<[new_edge := set_next DIn first_in (set_next DOut first_out e)]> (edges s)) h l')
    as Hframe.
  { intros d h l' Hl'. apply chain_frame. intros x Hx. by rewrite lookup_insert_ne by set_solver. }
  split; [|split; [|split; [done|]]].
  - eapply chain_cons; [done|apply lookup_insert_eq|]. by apply Hframe.
  - eapply chain_cons; [done|apply lookup_insert_eq|]. by apply Hframe.
  - rewrite dom_insert_L. apply elem_of_dom_2 in He. set_solver.
Qed.

(** Linking. Putting an edge that is on neither chain in front of both
    makes it the head of both, in front of what was there; every other chain
    of the store, in either direction, stays what it was. *)
Theorem link_correct s new_edge e first_out first_in l k :
  edges s !! new_edge = Some e -> new_edge ≠ NULL_EDGE ->
  chain DOut (edges s) first_out l -> chain DIn (edges s) first_in k ->
  new_edge ∉ l -> new_edge ∉ k ->
  let '(head_out, head_in, s') := link_into_chains new_edge first_out first_in s in
  chain DOut (edges s') head_out (new_edge :: l) /\
  chain DIn (edges s') head_in (new_edge :: k) /\
  (forall d h l', new_edge ∉ l' -> chain d (edges s) h l' -> chain d (edges s') h l') /\
  dom (edges s') = dom (edges s).
Proof. apply link_chains. Qed.

(** A relinked predecessor, seen from the other direction or another chain. *)
Lemma chain_other d d' (m : gmap Z Edge) p ep v h l :
  m !! p = Some ep -> d ≠ d' \/ p ∉ l ->
  chain d' m h l -> chain d' (<[p := set_next d v ep]> m) h l.
Proof.
  intros Hp Hor. apply chain_frame. intros x Hx. destruct (decide (x = p)) as [->|].
  - rewrite lookup_insert_eq, Hp. simpl. f_equal. destruct Hor as [Hd|?]; [|done].
    by destruct d, d'.
  - by rewrite lookup_insert_ne.
Qed.

(** What one direction leaves alone. *)
Definition unlink_effect (d : Dir) (m m' : gmap Z Edge) (v : Z) (pred : option Z) (l : list Z)
  : Prop :=
  match pred with
  | None => m' = m
  | Some p => exists ep, p ∈ l /\ m !! p = Some ep /\ m' = <[p := set_next d v ep]> m
  end.

Lemma unlink_effect_other d d' m m' v pred l h l' :
  unlink_effect d m m' v pred l -> d ≠ d' \/ (forall x, x ∈ l -> x ∉ l') ->
  chain d' m h l' -> chain d' m' h l'.
Proof.
  intros Heff Hor. destruct pred as [p|]; simpl in Heff; [|by subst].
  destruct Heff as (ep & Hin & Hp & ->). apply chain_other; [done|].
  destruct Hor; [by left|right; auto].
Qed.

Lemma unlink_effect_dom d m m' v pred l :
  unlink_effect d m m' v pred l -> dom m' = dom m.
Proof.
  destruct pred as [p|]; simpl; [|by intros ->]. intros (ep & _ & Hp & ->).
  rewrite dom_insert_L. apply elem_of_dom_2 in Hp. set_solver.
Qed.

(** What linking and unlinking leave alone in an edge. *)
Definition attrs (e : Edge) : Z * Z * Z * Z * Z * Z * Z :=
  (Edge.id e, Edge.src e, Edge.dst e, Edge.etype e, Edge.props_row e, Edge.created_tx e,
   Edge.deleted_tx e).

Definition same_attrs (m m' : gmap Z Edge) : Prop :=
  forall x, attrs <$> m' !! x = attrs <$> m !! x.

Lemma same_attrs_trans m1 m2 m3 : same_attrs m1 m2 -> same_attrs m2 m3 -> same_attrs m1 m3.
Proof. intros H1 H2 x. by rewrite H2. Qed.

Lemma same_attrs_set_next (m : gmap Z Edge) x e d v :
  m !! x = Some e -> same_attrs m (<[x := set_next d v e]> m).
Proof.
  intros He y. destruct (decide (x = y)) as [<-|]; [|by rewrite lookup_insert_ne].
  by rewrite lookup_insert_eq, He.
Qed.

Lemma unlink_effect_attrs d m m' v pred l : unlink_effect d m m' v pred l -> same_attrs m m'.
Proof.
  destruct pred as [p|]; simpl; [|by intros ->]. intros (ep & _ & Hp & ->).
  by apply same_attrs_set_next.
Qed.

(** The allocator is untouched. *)
Definition same_ids s s' : Prop :=
  edge_next_id s' = edge_next_id s /\ edge_free_list s' = edge_free_list s /\
  edge_free_count s' = edge_free_count s.

Lemma wal_insert_ids id e s : same_ids s (wal_insert id e s).
Proof. unfold wal_insert. destruct (edge_wal s); [destruct (serialize e)|]; done. Qed.

Lemma persist_ids id s : same_ids s (persist id s).
Proof. unfold persist. destruct (edges s !! id); [apply wal_insert_ids|done]. Qed.

Lemma persist_pred_ids pred s : same_ids s (persist_pred pred s).
Proof. destruct pred; [apply persist_ids|done]. Qed.

Lemma unlink_chains s edge_id e first_out first_in l k fuel :
  edges s !! edge_id = Some e -> edge_id ≠ NULL_EDGE ->
  chain DOut (edges s) first_out l -> chain DIn (edges s) first_in k -> (len s < fuel)%nat ->
  exists head_out head_in s',
    unlink_from_chains fuel edge_id first_out first_in s = Some (true, head_out, head_in, s') /\
    chain DOut (edges s') head_out (filter (fun x => x ≠ edge_id) l) /\
    chain DIn (edges s') head_in (filter (fun x => x ≠ edge_id) k) /\
    (forall h l', (forall x, x ∈ l -> x ∉ l') ->
      chain DOut (edges s) h l' -> chain DOut (edges s') h l') /\
    (forall h l', (forall x, x ∈ k -> x ∉ l') ->
      chain DIn (edges s) h l' -> chain DIn (edges s') h l') /\
    dom (edges s') = dom (edges s) /\ same_attrs (edges s) (edges s') /\ same_ids s s'.
Proof.
  intros He Hn Ho Hi Hf. unfold len in Hf.
  pose proof (chain_length _ _ _ _ Ho) as Hlo. pose proof (chain_length _ _ _ _ Hi) as Hli.
  destruct (unlink_dir_chain DOut (edges s) first_out l edge_id e fuel) as
    (m1 & head_out & p1 & Hu1 & Hc1 & He1); [done..|lia|]. simpl in Hu1.
  assert (unlink_effect DOut (edges s) m1 (Edge.next_out e) p1 l) as Heff1
    by (destruct p1; [naive_solver|done]).
  assert (exists e1, m1 !! edge_id = Some e1 /\ Edge.next_in e1 = Edge.next_in e) as (e1 & Hm1 & Hne).
  { exists e. split; [|done]. destruct p1 as [p|]; [|by subst m1].
    destruct He1 as (ep & _ & Hne & _ & ->). by rewrite lookup_insert_ne. }
  assert (chain DIn m1 first_in k) as Hi1 by (eapply unlink_effect_other; [done|by left|done]).
  destruct (unlink_dir_chain DIn m1 first_in k edge_id e1 fuel) as
    (m2 & head_in & p2 & Hu2 & Hc2 & He2); [done..|lia|]. simpl in Hu2.
  assert (unlink_effect DIn m1 m2 (Edge.next_in e1) p2 k) as Heff2
    by (destruct p2; [naive_solver|done]).
  unfold unlink_from_chains. rewrite He, Hu1. cbn [mbind option_bind]. rewrite <-Hne, Hu2.
  cbn [mbind option_bind].
  eexists _, _, _. split; [done|]. rewrite !persist_pred_edges. simpl.
  split; [by eapply unlink_effect_other; [done|left|]|]. split; [done|].
  split; [|split].
  - intros h l' Hd Hl'. eapply unlink_effect_other; [exact Heff2|by left|].
    by eapply unlink_effect_other; [exact Heff1|right|].
  - intros h l' Hd Hl'. eapply unlink_effect_other; [exact Heff2|by right|].
    by eapply unlink_effect_other; [exact Heff1|left|].
  - split; [by rewrite (unlink_effect_dom _ _ _ _ _ _ Heff2), (unlink_effect_dom _ _ _ _ _ _ Heff1)|].
    split; [eapply same_attrs_trans; by eapply unlink_effect_attrs|].
    destruct (persist_pred_ids p2 (persist_pred p1 (set_edges m2 s))) as (Hn2 & Hf2 & Hc2').
    destruct (persist_pred_ids p1 (set_edges m2 s)) as (Hn1 & Hf1 & Hc1').
    unfold same_ids. by rewrite Hn2, Hf2, Hc2', Hn1, Hf1, Hc1'.
Qed.

(** Unlinking. An edge is taken out of both chains, wherever it is on them
    and if it is at all; what remains keeps its order, every chain disjoint
    from these two stays what it was, no edge leaves the store, and both
    loops terminate within one step per edge. *)
Theorem unlink_correct s edge_id e first_out first_in l k fuel :
  edges s !! edge_id = Some e -> edge_id ≠ NULL_EDGE ->
  chain DOut (edges s) first_out l -> chain DIn (edges s) first_in k -> (len s < fuel)%nat ->
  exists head_out head_in s',
    unlink_from_chains fuel edge_id first_out first_in s = Some (true, head_out, head_in, s') /\
    chain DOut (edges s') head_out (filter (fun x => x ≠ edge_id) l) /\
    chain DIn (edges s') head_in (filter (fun x => x ≠ edge_id) k) /\
    (forall h l', (forall x, x ∈ l -> x ∉ l') ->
      chain DOut (edges s) h l' -> chain DOut (edges s') h l') /\
    (forall h l', (forall x, x ∈ k -> x ∉ l') ->
      chain DIn (edges s) h l' -> chain DIn (edges s') h l') /\
    dom (edges s') = dom (edges s).
Proof.
  intros He Hn Ho Hi Hf.
  destruct (unlink_chains s edge_id e first_out first_in l k fuel He Hn Ho Hi Hf)
    as (head_out & head_in & s' & Hrun & Hout & Hin & Hother_out & Hother_in & Hdom & _).
  by exists head_out, head_in, s'.
Qed.

Lemma walk_self_loop d (m : gmap Z Edge) id e fuel :
  m !! id = Some e -> next d e = id -> id ≠ NULL_EDGE -> walk d fuel m id = None.
Proof.
  intros He Hnext Hn%Z.eqb_neq. induction fuel as [|fuel IH]; [done|]. simpl.
  by rewrite Hn, He, Hnext, IH.
Qed.

(** Linking twice closes a cycle. When [link_into_chains] is called again
    for the edge that is already the head of its chains, the edge points at
    itself in both directions and every traversal from it runs for ever. *)
Theorem relink_diverges s new_edge e first_out first_in :
  edges s !! new_edge = Some e -> new_edge ≠ NULL_EDGE ->
  let '(head_out, head_in, s1) := link_into_chains new_edge first_out first_in s in
  let '(head_out', head_in', s2) := link_into_chains new_edge head_out head_in s1 in
  forall fuel, out_edges fuel head_out' s2 = None /\ in_edges fuel head_in' s2 = None.
Proof.
  intros He Hn. pose proof (link_edges new_edge first_out first_in s e He) as Hm1.
  destruct (link_into_chains new_edge first_out first_in s) as [[h1 g1] s1] eqn:Hl1.
  unfold link_into_chains in Hl1. injection Hl1 as <- <- _. simpl in Hm1.
  pose proof (link_edges new_edge new_edge new_edge s1 _
    ltac:(rewrite Hm1; apply lookup_insert_eq)) as Hm2.
  destruct (link_into_chains new_edge new_edge new_edge s1) as [[h2 g2] s2] eqn:Hl2.
  unfold link_into_chains in Hl2. injection Hl2 as <- <- _. simpl in Hm2.
  intros fuel. unfold out_edges, in_edges. rewrite Hm2.
  split; (eapply walk_self_loop; [apply lookup_insert_eq|done|done]).
Qed.

Lemma walk_cut d (m : gmap Z Edge) h l1 id l2 fuel :
  chain d m h (l1 ++ id :: l2) -> (length l1 < fuel)%nat ->
  walk d fuel (delete id m) h = Some l1.
Proof.
  intros Hc. pose proof (chain_NoDup _ _ _ _ Hc) as Hnd. revert h fuel Hc Hnd.
  induction l1 as [|y l1 IH]; intros h [|fuel] Hc Hnd Hf; simpl in *; try lia.
  - apply chain_head in Hc as ->. rewrite lookup_delete_eq. by destruct (_ =? _).
  - inversion Hc as [|? e ? Hn He Hc']; subst. apply NoDup_cons in Hnd as [Hni Hnd].
    apply Z.eqb_neq in Hn. rewrite Hn, lookup_delete_ne, He by set_solver.
    rewrite (IH (next d e)) by (done || lia). done.
Qed.

Lemma hard_delete_edges id s : edges (hard_delete id s).2 = delete id (edges s).
Proof.
  unfold hard_delete, wal_delete.
  destruct (edge_wal s); simpl; destruct (edges s !! id) eqn:Hid; simpl; try done;
    by rewrite delete_id.
Qed.

(** Deleting without unlinking cuts the chain. [hard_delete] of an edge
    that is still linked leaves its successors in the store, but no traversal
    from the head reaches them any more. *)
Theorem hard_delete_truncates s id h l1 l2 fuel :
  chain DOut (edges s) h (l1 ++ id :: l2) -> (len s < fuel)%nat ->
  out_edges fuel h (hard_delete id s).2 = Some l1 /\
  forall x, x ∈ l2 -> contains x (hard_delete id s).2 = true.
Proof.
  intros Hc Hf. unfold len in Hf. pose proof (chain_length _ _ _ _ Hc) as Hlen.
  rewrite length_app in Hlen. simpl in Hlen. unfold out_edges, contains. rewrite hard_delete_edges.
  split; [apply (walk_cut _ _ _ _ _ l2); [done|lia]|]. intros x Hx.
  pose proof (chain_NoDup _ _ _ _ Hc) as (_ & _ & [Hni _]%NoDup_cons)%NoDup_app.
  apply bool_decide_eq_true_2. rewrite lookup_delete_ne by (intros ->; done).
  apply (chain_elem DOut _ h (l1 ++ id :: l2)); [done|set_solver].
Qed.
End operations.

(** ** Recovery *)

(** A call of one of the methods that change the store and log the change: all but
    [get_mut]. *)
Inductive EdgeOp : Type :=
| EOpAlloc
| EOpInsertWithId (id src dst etype props_row tx_id : Z)
| EOpInsert (src dst etype props_row tx_id : Z)
| EOpLink (new_edge src_first_out dst_first_in : Z)
| EOpUnlink (edge_id src_first_out dst_first_in : Z)
| EOpSoftDelete (id tx_id : Z)
| EOpHardDelete (id : Z)
| EOpFlush.

Section recovery.
Context {W : Type} `{WalSinkLaws W} `{CodecLaws Edge}.
Import EdgeStore.
Implicit Types (s : EdgeStore W) (rs : list WalRec).

(** [None]: the call does not return within [fuel] iterations. *)
Definition edge_exec_op (fuel : nat) s (op : EdgeOp) : option (EdgeStore W) :=
  match op with
  | EOpAlloc => Some (alloc_id_direct s).2
  | EOpInsertWithId id src dst etype props_row tx_id =>
      Some (insert_with_id id src dst etype props_row tx_id s)
  | EOpInsert src dst etype props_row tx_id =>
      Some (insert_edge src dst etype props_row tx_id s).2
  | EOpLink id fo fi => Some (link_into_chains id fo fi s).2
  | EOpUnlink id fo fi => snd <$> unlink_from_chains fuel id fo fi s
  | EOpSoftDelete id tx_id => Some (soft_delete id tx_id s).2
  | EOpHardDelete id => Some (hard_delete id s).2
  | EOpFlush => Some (flush s)
  end.

Fixpoint edge_exec_ops (fuel : nat) s (ops : list EdgeOp) : option (EdgeStore W) :=
  match ops with
  | [] => Some s
  | op :: ops' => s' ← edge_exec_op fuel s op; edge_exec_ops fuel s' ops'
  end.

Definition edges_logged (m0 : gmap Z Edge) (b : bytes) s : Prop :=
  logged m0 b (edges s) (edge_wal s).

Lemma edges_logged_insert m0 b id e s m :
  logged m0 b m (edge_wal s) -> edges s = <[id := e]> m -> edges_logged m0 b (wal_insert id e s).
Proof.
  intros Hlog Hm. destruct (logged_some _ _ _ _ Hlog) as [w Hw]. unfold edges_logged, wal_insert.
  rewrite Hw in Hlog |- *. destruct (serialize_total e) as [data Hd]. rewrite Hd. simpl.
  rewrite Hm. by apply logged_put.
Qed.

(** Persisting an entry of the map: only that entry may have been ahead. *)
Lemma edges_logged_persist m0 b id s m :
  logged m0 b m (edge_wal s) -> (forall x, x ≠ id -> m !! x = edges s !! x) ->
  is_Some (edges s !! id) -> edges_logged m0 b (persist id s).
Proof.
  intros Hlog Hm [e He]. unfold persist. rewrite He.
  apply (edges_logged_insert m0 b id e s m Hlog). apply map_eq. intros x.
  destruct (decide (x = id)) as [->|]; [by rewrite lookup_insert_eq|].
  by rewrite lookup_insert_ne, Hm.
Qed.

Lemma edges_logged_alloc m0 b s : edges_logged m0 b s -> edges_logged m0 b (alloc_id s).2.
Proof. unfold edges_logged, alloc_id. by destruct (edge_free_list s). Qed.

Lemma edges_logged_link m0 b id fo fi s :
  edges_logged m0 b s -> edges_logged m0 b (link_into_chains id fo fi s).2.
Proof.
  intros Hlog. unfold link_into_chains, put_next. cbn [snd].
  destruct (edges s !! id) as [e|] eqn:He.
  - cbn [edges set_edges]. rewrite lookup_insert_eq.
    apply (edges_logged_persist m0 b id _ (edges s)); [done| |]; simpl.
    + intros x Hx. by rewrite !lookup_insert_ne.
    + rewrite lookup_insert_eq. eauto.
  - rewrite He. unfold persist. by rewrite He.
Qed.

(** A direction changes at most its predecessor's entry, which exists. *)
Definition changes_at_most (pred : option Z) (m m' : gmap Z Edge) : Prop :=
  match pred with
  | None => m' = m
  | Some p => is_Some (m !! p) /\ exists e, m' = <[p := e]> m
  end.

Lemma changes_at_most_ne pred m m' x :
  changes_at_most pred m m' -> Some x ≠ pred -> m !! x = m' !! x.
Proof.
  destruct pred as [p|]; simpl; [|by intros ->].
  intros (_ & e & ->) Hne. rewrite lookup_insert_ne; [done|congruence].
Qed.

Lemma changes_at_most_some pred m m' x :
  changes_at_most pred m m' -> is_Some (m !! x) -> is_Some (m' !! x).
Proof.
  destruct pred as [p|]; simpl; [|by intros ->]. intros (_ & e & ->) Hx.
  destruct (decide (x = p)) as [->|]; [rewrite lookup_insert_eq; eauto|].
  by rewrite lookup_insert_ne.
Qed.

Lemma unlink_scan_changes d fuel id v cur (m m' : gmap Z Edge) pred :
  unlink_scan d fuel id v m cur = Some (m', pred) -> changes_at_most pred m m'.
Proof.
  revert cur. induction fuel as [|fuel IH]; intros cur; simpl; [done|].
  destruct (cur =? NULL_EDGE); [by intros [= <- <-]|].
  destruct (m !! cur) as [e|] eqn:He; [|by intros [= <- <-]].
  destruct (next d e =? id); [|apply IH].
  intros [= <- <-]. simpl. rewrite He. eauto.
Qed.

Lemma unlink_dir_changes d fuel id v h (m m' : gmap Z Edge) h' pred :
  unlink_dir d fuel id v h m = Some (m', h', pred) -> changes_at_most pred m m'.
Proof.
  unfold unlink_dir. destruct (h =? id); [by intros [= <- _ <-]|].
  destruct (unlink_scan d fuel id v m h) as [[m1 p1]|] eqn:Hs; [|done].
  intros [= <- _ <-]. by eapply unlink_scan_changes.
Qed.

(** Persisting both predecessors catches the log up. *)
Lemma edges_logged_preds m0 b s m p1 p2 :
  logged m0 b m (edge_wal s) ->
  (forall x, Some x ≠ p1 -> Some x ≠ p2 -> m !! x = edges s !! x) ->
  (forall x, Some x = p1 \/ Some x = p2 -> is_Some (edges s !! x)) ->
  edges_logged m0 b (persist_pred p2 (persist_pred p1 s)).
Proof.
  intros Hlog Hm Hin.
  assert (forall s', edges s' = edges s -> (exists m', logged m0 b m' (edge_wal s') /\
    forall x, Some x ≠ p2 -> m' !! x = edges s !! x) -> edges_logged m0 b (persist_pred p2 s')) as Hlast.
  { intros s' Hs (m' & Hlog' & Hm'). destruct p2 as [p2|]; simpl.
    - apply (edges_logged_persist m0 b p2 s' m' Hlog'); rewrite Hs; [|auto].
      intros x Hx. apply Hm'. congruence.
    - unfold edges_logged. replace (edges s') with m'; [done|].
      rewrite Hs. apply map_eq. intros x. by apply Hm'. }
  apply Hlast; [apply persist_pred_edges|]. destruct p1 as [p1|]; simpl; [|naive_solver].
  destruct (Hin p1) as [e He]; [by left|]. unfold persist. rewrite He.
  exists (<[p1 := e]> m). split.
  - destruct (logged_some _ _ _ _ Hlog) as [w Hw]. unfold wal_insert. rewrite Hw in Hlog |- *.
    destruct (serialize_total e) as [data Hd]. rewrite Hd. by apply logged_put.
  - intros x Hx. destruct (decide (x = p1)) as [->|]; [by rewrite lookup_insert_eq|].
    rewrite lookup_insert_ne by done. apply Hm; congruence.
Qed.

Lemma edges_logged_unlink m0 b fuel id fo fi s r s' :
  edges_logged m0 b s -> unlink_from_chains fuel id fo fi s = Some (r, s') ->
  edges_logged m0 b s'.
Proof.
  intros Hlog. unfold unlink_from_chains. destruct (edges s !! id) as [e|]; [|by intros [= _ <-]].
  destruct (unlink_dir DOut fuel id (Edge.next_out e) fo (edges s)) as [[[m1 h1] p1]|] eqn:H1';
    [|done]. cbn [mbind option_bind].
  destruct (unlink_dir DIn fuel id (Edge.next_in e) fi m1) as [[[m2 h2] p2]|] eqn:H2'; [|done].
  cbn [mbind option_bind]. intros [= _ <-].
  apply unlink_dir_changes in H1', H2'.
  apply (edges_logged_preds m0 b _ (edges s)); [done| |]; simpl.
  - intros x Hx1 Hx2. rewrite (changes_at_most_ne p1 (edges s) m1 x H1' Hx1).
    by apply (changes_at_most_ne p2).
  - intros x Hx. pose proof (changes_at_most_some p1 _ _ x H1') as Hs1.
    apply (changes_at_most_some p2 m1 m2 x H2').
    destruct Hx as [Hx|Hx]; subst; simpl in *; [|by destruct H2'].
    destruct H1' as [Hx _]. auto.
Qed.

Lemma edge_exec_op_logged m0 b fuel s op s' :
  edges_logged m0 b s -> edge_exec_op fuel s op = Some s' -> edges_logged m0 b s'.
Proof.
  intros Hlog. destruct op; simpl; try intros [= <-].
  - by apply edges_logged_alloc.
  - by apply (edges_logged_insert m0 b id _ _ (edges s)).
  - unfold insert_edge. apply edges_logged_alloc in Hlog. destruct (alloc_id s) as [id s1].
    by apply (edges_logged_insert m0 b id _ _ (edges s1)).
  - by apply edges_logged_link.
  - destruct (unlink_from_chains fuel edge_id src_first_out dst_first_in s) as [[r s1]|] eqn:Hu;
      [|done]. intros [= <-]. by eapply edges_logged_unlink.
  - unfold soft_delete. destruct (edges s !! id); [|done].
    by apply (edges_logged_insert m0 b id _ _ (edges s)).
  - destruct (logged_some _ _ _ _ Hlog) as [w Hw]. unfold edges_logged in *.
    rewrite hard_delete_edges. rewrite Hw in Hlog. apply (logged_del _ _ _ _ id) in Hlog.
    unfold hard_delete, wal_delete. rewrite Hw. simpl. by destruct (edges s !! id).
  - destruct (logged_some _ _ _ _ Hlog) as [w Hw]. unfold edges_logged, flush in *.
    rewrite Hw in Hlog |- *. by apply logged_sync.
Qed.

Lemma edge_exec_ops_logged m0 b fuel s ops s' :
  edges_logged m0 b s -> edge_exec_ops fuel s ops = Some s' -> edges_logged m0 b s'.
Proof.
  revert s. induction ops as [|op ops IH]; intros s Hlog; simpl; [by intros [= <-]|].
  destruct (edge_exec_op fuel s op) as [s1|] eqn:Hs1; simpl; [|done].
  apply IH. by eapply edge_exec_op_logged.
Qed.

Lemma edge_replay_record_edges op id pl (st : EdgeStore W * Z) :
  edges (replay_record op id pl st).1 = apply_val (edges st.1) (mkRec op id pl).
Proof.
  destruct st as [s mx]. unfold replay_record, apply_val. simpl.
  destruct (_ =? 1); [by destruct (deserialize pl)|].
  destruct (_ =? 2); [|done].
  destruct (edges s !! id) eqn:Hid; simpl; [done|]. by rewrite delete_id.
Qed.

Lemma edge_open_log c file rs :
  contract_ok (durability c) (wal_channel_capacity c) ->
  log_contents file = MAGIC ++ encode_recs rs -> Forall rec_ok rs ->
  exists s, open (W := W) c file = Ok s /\ edges s = recover rs ∅ /\
    edges_logged (recover rs ∅) (MAGIC ++ encode_recs rs) s.
Proof.
  intros Hc Hlog Hrs. unfold open.
  rewrite (replay_file_recs replay_record new set_next_id file rs Hlog Hrs). simpl.
  destruct (sink_spawn_total (W := W) (durability c) (wal_channel_capacity c) file Hc) as [w Hw].
  rewrite Hw. simpl.
  assert (forall s, edges s = recover rs ∅ -> edges (set_wal (Some w) s) = recover rs ∅ /\
    edges_logged (recover rs ∅) (MAGIC ++ encode_recs rs) (set_wal (Some w) s)) as Hfin.
  { intros s Hs. split; [done|]. unfold edges_logged. cbn [edges set_wal edge_wal]. rewrite Hs.
    by apply (logged_fresh c file). }
  eexists. split; [done|]. apply Hfin. case_bool_decide as Hnil; [by subst|].
  pose proof (apply_recs_vals _ _ edge_replay_record_edges rs (new (W := W), 0)) as Hn.
  by destruct (apply_recs replay_record rs (new, 0)).
Qed.

(** Durability of the edge store. Whatever methods were called since it was
    opened, chains linked and unlinked included, once they are flushed the
    store reopened on what a crash cannot take back has the same edges, links
    and all, so every chain of the closed store is one of the reopened. *)
Theorem edge_store_recovers c file rs0 s0 fuel ops s w :
  contract_ok (durability c) (wal_channel_capacity c) ->
  log_contents file = MAGIC ++ encode_recs rs0 ->
  open (W := W) c file = Ok s0 -> edge_exec_ops fuel s0 ops = Some s ->
  edge_wal s = Some w -> Forall rec_ok (rs0 ++ sink_recs w) ->
  exists s', open (W := W) c (Some (sink_image (sink_flush w))) = Ok s' /\
    edges s' = edges s /\
    forall d h l, chain d (edges s) h l -> chain d (edges s') h l.
Proof.
  intros Hc Hlog Ho Hops Hw Hok. pose proof (proj1 (Forall_app _ _ _) Hok) as [Hok0 _].
  destruct (edge_open_log c file rs0 Hc Hlog Hok0) as (s0' & Ho' & _ & Hlogged).
  rewrite Ho in Ho'. injection Ho' as <-.
  destruct (logged_image _ _ _ (edge_exec_ops_logged _ _ _ _ _ _ Hlogged Hops))
    as (w' & Hw' & Himg & Hn).
  assert (w' = w) as -> by congruence. rewrite Himg.
  destruct (edge_open_log c (Some (MAGIC ++ encode_recs (rs0 ++ sink_recs w)))
    (rs0 ++ sink_recs w) Hc eq_refl Hok) as (s' & Hs' & He & _).
  exists s'. split; [done|]. by rewrite He, <-Hn.
Qed.
End recovery.

(** A chain of a concrete store. *)
Ltac eval_chain :=
  repeat first [apply chain_nil | eapply chain_cons; [by vm_compute|vm_compute; reflexivity|]].

(** ** The theorems at a concrete store

    Three edges out of node 1, linked one after the other; the last two also
    share their destination. *)

Section witnesses.
#[local] Existing Instances LogSink.sink LogSink.laws.
#[local] Instance edge_codec : Codec Edge := countable_codec.
#[local] Instance edge_codec_laws : CodecLaws Edge := countable_codec_laws.
Import EdgeStore.

Definition edge_demo_store : EdgeStore LogSink.t :=
  match open balanced None with Ok s => s | _ => new end.

Definition edge_demo_ops : list EdgeOp :=
  [EOpInsert 1 2 7 0 1; EOpInsert 1 3 7 0 1; EOpInsert 1 3 8 0 2;
   EOpLink 0 NULL_EDGE NULL_EDGE; EOpLink 1 0 NULL_EDGE; EOpLink 2 1 1].

Definition linked_store : EdgeStore LogSink.t :=
  default new (edge_exec_ops 10 edge_demo_store edge_demo_ops).

Lemma linked_out : chain DOut (edges linked_store) 2 [2; 1; 0].
Proof. eval_chain. Qed.
Lemma linked_in : chain DIn (edges linked_store) 2 [2; 1].
Proof. eval_chain. Qed.

Lemma traversal_correct_witness :
  out_edges 4 2 linked_store = Some [2; 1; 0] /\ in_edges 4 2 linked_store = Some [2; 1] /\
  out_edges_visible 4 2 1 linked_store = Some [1; 0].
Proof.
  destruct (traversal_correct linked_store 2 2 [2; 1; 0] [2; 1] 1 4 linked_out linked_in)
    as (-> & _ & -> & _ & ->); [vm_compute; lia|done].
Defined.

Definition grown_store : EdgeStore LogSink.t := (insert_edge 1 3 9 0 3 linked_store).2.

Lemma link_correct_witness :
  chain DOut (edges (link_into_chains 3 2 2 grown_store).2) 3 [3; 2; 1; 0].
Proof.
  assert (edges grown_store !! 3 = Some (Edge.new 3 1 3 9 0 3)) as He by by vm_compute.
  assert (chain DOut (edges grown_store) 2 [2; 1; 0]) as Ho by eval_chain.
  assert (chain DIn (edges grown_store) 2 [2; 1]) as Hi by eval_chain.
  pose proof (link_correct grown_store 3 _ 2 2 _ _ He ltac:(done) Ho Hi
    ltac:(by_decide) ltac:(by_decide)) as Hc.
  revert Hc. clear He Ho Hi. generalize grown_store. intros s Hc. exact (proj1 Hc).
Defined.

Lemma unlink_correct_witness :
  exists head_out head_in s',
    unlink_from_chains 4 1 2 2 linked_store = Some (true, head_out, head_in, s') /\
    chain DOut (edges s') head_out [2; 0] /\ chain DIn (edges s') head_in [2].
Proof.
  assert (edges linked_store !! 1 =
    Some (set_next DIn NULL_EDGE (set_next DOut 0 (Edge.new 1 1 3 7 0 1)))) as He by by vm_compute.
  assert (len linked_store < 4)%nat as Hlen by (vm_compute; lia).
  pose proof (unlink_correct linked_store 1 _ 2 2 [2; 1; 0] [2; 1] 4 He ltac:(done)
    linked_out linked_in Hlen) as Hu.
  revert Hu. clear He Hlen. generalize linked_store. intros s (ho & hi & s' & Hu & Hc1 & Hc2 & _).
  by exists ho, hi, s'.
Defined.

Lemma relink_diverges_witness :
  out_edges 1000 2 (link_into_chains 2 2 2 (link_into_chains 2 1 1 linked_store).2).2 = None.
Proof.
  assert (edges linked_store !! 2 = Some (set_next DIn 1 (set_next DOut 1 (Edge.new 2 1 3 8 0 2))))
    as He by by vm_compute.
  pose proof (relink_diverges linked_store 2 _ 1 1 He ltac:(done)) as Hd.
  revert Hd. clear He. generalize linked_store. intros s Hd.
  exact (proj1 (Hd 1000%nat)).
Defined.

Lemma hard_delete_truncates_witness :
  out_edges 4 2 (hard_delete 1 linked_store).2 = Some [2] /\
  contains 0 (hard_delete 1 linked_store).2 = true.
Proof.
  destruct (hard_delete_truncates linked_store 1 2 [2] [0] 4 linked_out) as [H1 H2];
    [vm_compute; lia|]. split; [exact H1|]. exact (H2 0 ltac:(by_decide)).
Defined.

Lemma edge_store_recovers_witness :
  exists s', open (W := LogSink.t) balanced (Some (sink_image (sink_flush
      (default (LogSink.mk [] [] 0 0) (edge_wal linked_store))))) = Ok s' /\
    chain DOut (edges s') 2 [2; 1; 0].
Proof.
  destruct (edge_store_recovers balanced None [] edge_demo_store 10 edge_demo_ops linked_store
    (default (LogSink.mk [] [] 0 0) (edge_wal linked_store))) as (s' & Ho & _ & Hc);
    [by_decide|by vm_compute|by vm_compute|by vm_compute|by vm_compute|by_decide|].
  exists s'. split; [done|]. apply Hc, linked_out.
Defined.
End witnesses.
