(* ===== verification/ChainThreads.v ===== *)
(** * Chains changed and walked by several threads

    [link_into_chains] and [unlink_from_chains] of [edge_store.rs] lock one entry
    of the map at a time, the traversals too: here they are programs that make one
    such access per step, interleaved in any way. Calls that own different chains
    are equal to running them one after another; a traversal that runs next to
    them sees its chain as it was before or after each of them; the log they leave
    reads back as the memory. *)

From S2P Require Export Threads EdgeStore.

Open Scope Z_scope.

(** ** Calls in progress *)

(** Where a call is. [UnHead] and [UnScan] are the two halves of
    [unlink_from_chains], on the copy of the edge taken at the start: the
    comparison of the head, and the search at [cur]; [preds] are the predecessors
    found so far, which [UnPersist] still has to log. *)
Inductive ChainPc : Type :=
| LkOut
| LkIn
| LkPersist
| UnStart
| UnHead (d : Dir) (edge : Edge) (preds : list Z)
| UnScan (d : Dir) (edge : Edge) (preds : list Z) (cur : Z)
| UnPersist (preds : list Z)
| Finished (r : bool).

(** The edge, and what the caller's two [&mut] heads hold: nobody else can see
    them during the call. *)
Record ChainCall : Type := mkChainCall {
  k_edge : Z;
  k_pc : ChainPc;
  k_out : Z;
  k_in : Z
}.

Definition link_call (id fo fi : Z) : ChainCall := mkChainCall id LkOut fo fi.
Definition unlink_call (id fo fi : Z) : ChainCall := mkChainCall id UnStart fo fi.

Definition head (d : Dir) (k : ChainCall) : Z :=
  match d with DOut => k_out k | DIn => k_in k end.

Definition set_head (d : Dir) (v : Z) (k : ChainCall) : ChainCall :=
  match d with
  | DOut => mkChainCall (k_edge k) (k_pc k) v (k_in k)
  | DIn => mkChainCall (k_edge k) (k_pc k) (k_out k) v
  end.

Definition goto (pc : ChainPc) (k : ChainCall) : ChainCall :=
  mkChainCall (k_edge k) pc (k_out k) (k_in k).

(** What follows a direction of [unlink_from_chains]. *)
Definition after_dir (d : Dir) (edge : Edge) (preds : list Z) : ChainPc :=
  match d with DOut => UnHead DIn edge preds | DIn => UnPersist preds end.

Section steps.
Context {W : Type} `{WalSink W} `{Codec Edge}.
Import EdgeStore.
Implicit Types (s : EdgeStore W).

Definition chain_step (k : ChainCall) s : option (ChainCall * EdgeStore W) :=
  let id := k_edge k in
  match k_pc k with
  | LkOut => Some (goto LkIn (set_head DOut id k), put_next DOut id (head DOut k) s)
  | LkIn => Some (goto LkPersist (set_head DIn id k), put_next DIn id (head DIn k) s)
  | LkPersist => Some (goto (Finished true) k, persist id s)
  | UnStart =>
      match edges s !! id with
      | Some e => Some (goto (UnHead DOut e []) k, s)
      | None => Some (goto (Finished false) k, s)
      end
  | UnHead d edge preds =>
      if head d k =? id then Some (goto (after_dir d edge preds) (set_head d (next d edge) k), s)
      else Some (goto (UnScan d edge preds (head d k)) k, s)
  | UnScan d edge preds cur =>
      if cur =? NULL_EDGE then Some (goto (after_dir d edge preds) k, s)
      else
        match edges s !! cur with
        | Some e =>
            if next d e =? id
            then Some (goto (after_dir d edge (preds ++ [cur])) k, put_next d cur (next d edge) s)
            else Some (goto (UnScan d edge preds (next d e)) k, s)
        | None => Some (goto (after_dir d edge preds) k, s)
        end
  | UnPersist (p :: ps) => Some (goto (UnPersist ps) k, persist p s)
  | UnPersist [] => Some (goto (Finished true) k, s)
  | Finished _ => None
  end.

Definition is_finished (k : ChainCall) : bool :=
  match k_pc k with Finished _ => true | _ => false end.

(** The call in one piece, as [EdgeStore.v] has it. *)
Definition run_call (fuel : nat) (k : ChainCall) s : option (ChainCall * EdgeStore W) :=
  match k_pc k with
  | LkOut =>
      let '(fo, fi, s') := link_into_chains (k_edge k) (k_out k) (k_in k) s in
      Some (mkChainCall (k_edge k) (Finished true) fo fi, s')
  | UnStart =>
      '(r, fo, fi, s') ← unlink_from_chains fuel (k_edge k) (k_out k) (k_in k) s;
      Some (mkChainCall (k_edge k) (Finished r) fo fi, s')
  | _ => None
  end.

Fixpoint run_calls (fuel : nat) (ks : list ChainCall) s : option (list ChainCall * EdgeStore W) :=
  match ks with
  | [] => Some ([], s)
  | k :: ks' =>
      '(k', s1) ← run_call fuel k s;
      '(ks'', s2) ← run_calls fuel ks' s1;
      Some (k' :: ks'', s2)
  end.

(** ** A traversal in progress

    [out_edges] or [in_edges], at [w_cur] with the edges seen so far. *)
Record Walker : Type := mkWalker {
  w_dir : Dir;
  w_cur : Z;
  w_seen : list Z
}.

(** The next [get]; the loop also ends at an edge that is not there. *)
Definition walk_step (r : Walker) s : option Walker :=
  if w_cur r =? NULL_EDGE then None
  else
    match edges s !! w_cur r with
    | Some e => Some (mkWalker (w_dir r) (next (w_dir r) e) (w_seen r ++ [w_cur r]))
    | None => Some (mkWalker (w_dir r) NULL_EDGE (w_seen r))
    end.

(** ** One call, nobody in between *)

Definition scan_end (d : Dir) (edge : Edge) (preds : list Z) (pred : option Z) k : ChainCall :=
  goto (after_dir d edge (preds ++ option_list pred)) k.

Lemma put_next_edges d id v s e :
  edges s !! id = Some e -> put_next d id v s = set_edges (<[id := set_next d v e]> (edges s)) s.
Proof. intros He. unfold put_next. by rewrite He. Qed.

Lemma set_edges_id s : set_edges (edges s) s = s.
Proof. by destruct s. Qed.

Lemma scan_alone d edge preds fuel k s cur m' pred :
  unlink_scan d fuel (k_edge k) (next d edge) (edges s) cur = Some (m', pred) ->
  rtc (alone chain_step) (goto (UnScan d edge preds cur) k, s)
    (scan_end d edge preds pred k, set_edges m' s).
Proof.
  revert cur. induction fuel as [|fuel IH]; intros cur; cbn [unlink_scan]; [done|].
  unfold scan_end. destruct (cur =? NULL_EDGE) eqn:Hcur.
  { intros [= <- <-]. apply rtc_once. unfold alone, chain_step. cbn [fst snd goto k_pc k_edge].
    by rewrite Hcur, app_nil_r, set_edges_id. }
  destruct (edges s !! cur) as [e|] eqn:He.
  2: { intros [= <- <-]. apply rtc_once. unfold alone, chain_step. cbn [fst snd goto k_pc k_edge].
       by rewrite Hcur, He, app_nil_r, set_edges_id. }
  destruct (next d e =? k_edge k) eqn:Hnext.
  - intros [= <- <-]. apply rtc_once. unfold alone, chain_step. cbn [fst snd goto k_pc k_edge].
    by rewrite Hcur, He, Hnext, (put_next_edges _ _ _ _ e).
  - intros Hs. eapply rtc_l; [|by apply IH]. unfold alone, chain_step.
    cbn [fst snd goto k_pc k_edge]. by rewrite Hcur, He, Hnext.
Qed.

Lemma dir_alone d edge preds fuel k s m' h' pred :
  unlink_dir d fuel (k_edge k) (next d edge) (head d k) (edges s) = Some (m', h', pred) ->
  rtc (alone chain_step) (goto (UnHead d edge preds) k, s)
    (scan_end d edge preds pred (set_head d h' k), set_edges m' s).
Proof.
  unfold unlink_dir. destruct (head d k =? k_edge k) eqn:Hh.
  - intros [= <- <- <-]. apply rtc_once. unfold alone, chain_step, scan_end.
    destruct d; cbn [fst snd goto k_pc k_edge head k_out k_in] in *;
      by rewrite Hh, app_nil_r, set_edges_id.
  - destruct (unlink_scan d fuel _ _ _ _) as [[m1 p1]|] eqn:Hs; [|done]. intros [= <- <- <-].
    replace (set_head d (head d k) k) with k by (by destruct d, k).
    eapply rtc_l; [|by apply (scan_alone d edge preds fuel k s (head d k) m1 p1)].
    unfold alone, chain_step. destruct d; cbn [fst snd goto k_pc k_edge head k_out k_in] in *;
      by rewrite Hh.
Qed.

Lemma persist_alone preds k s :
  rtc (alone chain_step) (goto (UnPersist preds) k, s)
    (goto (Finished true) k, foldl (fun s' p => persist p s') s preds).
Proof.
  revert s. induction preds as [|p ps IH]; intros s; [by apply rtc_once|].
  eapply rtc_l; [|apply IH]. done.
Qed.

Lemma unlink_edges fuel id fo fi s edge m1 h1 p1 m2 h2 p2 :
  edges s !! id = Some edge ->
  unlink_dir DOut fuel id (Edge.next_out edge) fo (edges s) = Some (m1, h1, p1) ->
  unlink_dir DIn fuel id (Edge.next_in edge) fi m1 = Some (m2, h2, p2) ->
  unlink_from_chains fuel id fo fi s =
    Some (true, h1, h2, persist_pred p2 (persist_pred p1 (set_edges m2 s))).
Proof. intros He H1 H2. unfold unlink_from_chains. by rewrite He, H1; simpl; rewrite H2. Qed.

(** The steps of a call, run with nobody in between, are the call of [EdgeStore.v]. *)
Lemma run_call_alone fuel k s k' s' :
  run_call fuel k s = Some (k', s') -> rtc (alone chain_step) (k, s) (k', s').
Proof.
  destruct k as [id pc fo fi]. unfold run_call. destruct pc; try done; cbn [k_pc k_edge k_out k_in].
  - intros [= <- <-]. do 2 (eapply rtc_l; [done|]). by apply rtc_once.
  - destruct (unlink_from_chains fuel id fo fi s) as [[[[r h1] h2] s1]|] eqn:Hu; [|done].
    simpl. intros [= <- <-]. unfold unlink_from_chains in Hu.
    destruct (edges s !! id) as [edge|] eqn:He.
    2: { injection Hu as <- <- <- <-. apply rtc_once. unfold alone, chain_step. simpl. by rewrite He. }
    destruct (unlink_dir DOut _ _ _ _ _) as [[[m1 g1] p1]|] eqn:H1; [|done]. simpl in Hu.
    destruct (unlink_dir DIn _ _ _ _ _) as [[[m2 g2] p2]|] eqn:H2; [|done]. simpl in Hu.
    injection Hu as <- <- <- <-.
    eapply rtc_l; [unfold alone, chain_step; simpl; by rewrite He|]. etrans.
    { apply (dir_alone DOut edge [] fuel (mkChainCall id UnStart fo fi) s m1 g1 p1). exact H1. }
    etrans.
    { apply (dir_alone DIn edge (option_list p1) fuel (mkChainCall id UnStart g1 fi)
        (set_edges m1 s) m2 g2 p2). exact H2. }
    unfold scan_end. cbn [after_dir]. replace (set_edges m2 (set_edges m1 s)) with (set_edges m2 s)
      by done.
    replace (persist_pred p2 (persist_pred p1 (set_edges m2 s)))
      with (foldl (fun s' p => persist p s') (set_edges m2 s) (option_list p1 ++ option_list p2))
      by (destruct p1, p2; done).
    apply (persist_alone _ (mkChainCall id UnStart g1 g2)).
Qed.

Lemma run_calls_steps fuel ks s ks' s' :
  run_calls fuel ks s = Some (ks', s') -> rtc (threads_step chain_step) (ks, s) (ks', s').
Proof.
  intros Hrun.
  assert (forall pre, rtc (threads_step chain_step) (pre ++ ks, s) (pre ++ ks', s')) as Hall.
  { revert s ks' Hrun. induction ks as [|k ks IH]; intros s ks' Hrun pre; simpl in Hrun.
    { by injection Hrun as <- <-. }
    destruct (run_call fuel k s) as [[k1 s1]|] eqn:H1; [|done]. simpl in Hrun.
    destruct (run_calls fuel ks s1) as [[ks2 s2]|] eqn:H2; [|done]. simpl in Hrun.
    injection Hrun as <- <-. etrans.
    - apply (threads_alone chain_step (pre ++ k :: ks) (length pre) k s k1 s1).
      + by apply list_lookup_middle.
      + by eapply run_call_alone.
    - rewrite insert_app_r_alt, Nat.sub_diag by done. simpl.
      specialize (IH _ _ H2 (pre ++ [k1])). by rewrite <-!app_assoc in IH. }
  apply (Hall []).
Qed.
End steps.

(** ** What a call owns and what it leaves *)

(** The link of [x] in direction [d]. *)
Definition fld (d : Dir) (m : gmap Z Edge) (x : Z) : option Z := next d <$> m !! x.

(** The edges on the chain from [h]. *)
Definition members (d : Dir) (m : gmap Z Edge) (h : Z) : list Z := default [] (walk d (S (size m)) m h).

(** The edges whose link in direction [d] the call reads or writes. *)
Definition foot (m : gmap Z Edge) (d : Dir) (k : ChainCall) : list Z := k_edge k :: members d m (head d k).

(** A call about to start: its edge is in the store, the caller's heads are the
    heads of two chains, and an edge to be linked is on neither. *)
Record ready (m : gmap Z Edge) (k : ChainCall) : Prop := {
  rd_pc : k_pc k = LkOut \/ k_pc k = UnStart;
  rd_edge : is_Some (m !! k_edge k);
  rd_null : k_edge k ≠ NULL_EDGE;
  rd_chain d : chain d m (head d k) (members d m (head d k));
  rd_new d : k_pc k = LkOut -> k_edge k ∉ members d m (head d k)
}.

(** No link belongs to two calls. *)
Definition independent (m : gmap Z Edge) (ks : list ChainCall) : Prop :=
  forall i j k k' d x, ks !! i = Some k -> ks !! j = Some k' -> x ∈ foot m d k -> x ∈ foot m d k' -> i = j.

(** One direction of the call, alone on [m]: the map, the head, the predecessor. *)
Definition dir_result (m : gmap Z Edge) (d : Dir) (k : ChainCall) : gmap Z Edge * Z * option Z :=
  match k_pc k, m !! k_edge k with
  | LkOut, Some e => (<[k_edge k := set_next d (head d k) e]> m, k_edge k, None)
  | UnStart, Some e =>
      default (m, head d k, None)
        (unlink_dir d (S (size m)) (k_edge k) (next d e) (head d k) m)
  | _, _ => (m, head d k, None)
  end.

Definition outcome (m : gmap Z Edge) (k : ChainCall) : ChainCall :=
  mkChainCall (k_edge k) (Finished true) (dir_result m DOut k).1.2 (dir_result m DIn k).1.2.

Section call_inv.
Context {W : Type} `{WalSink W} `{Codec Edge}.
Import EdgeStore.
Implicit Types (s : EdgeStore W) (m : gmap Z Edge) (k : ChainCall).

Lemma fld_put d d' x v s y :
  fld d' (edges (put_next d x v s)) y =
  if decide (d' = d /\ y = x /\ is_Some (edges s !! x)) then Some v else fld d' (edges s) y.
Proof.
  unfold put_next, fld. destruct (edges s !! x) as [e|] eqn:Hx; cbn [edges set_edges].
  - destruct (decide (y = x)) as [->|Hy].
    + rewrite lookup_insert_eq. simpl.
      destruct (decide _) as [[-> _]|Hn]; [by destruct d|]. rewrite Hx. simpl.
      destruct d, d'; try done; exfalso; apply Hn; eauto.
    + rewrite lookup_insert_ne by done. by rewrite decide_False by tauto.
  - rewrite decide_False; [done|]. intros (_ & _ & [? ?]). done.
Qed.

Lemma same_attrs_put d x v s m : same_attrs m (edges s) -> same_attrs m (edges (put_next d x v s)).
Proof.
  intros Hs. unfold put_next. destruct (edges s !! x) as [e|] eqn:Hx; [|done].
  eapply same_attrs_trans; [exact Hs|]. by apply same_attrs_set_next.
Qed.

Lemma same_attrs_some m m' x : same_attrs m m' -> is_Some (m !! x) <-> is_Some (m' !! x).
Proof.
  intros Hs. specialize (Hs x). destruct (m !! x), (m' !! x); simpl in Hs; try done; split; eauto.
Qed.

(** The links of the footprint are those of [m]. *)
Definition agree (F : list Z) (d : Dir) m s : Prop :=
  forall x, x ∈ F -> fld d (edges s) x = fld d m x.

Lemma agree_put F d m s p v e :
  agree F d m s -> m !! p = Some e -> is_Some (edges s !! p) ->
  agree F d (<[p := set_next d v e]> m) (put_next d p v s).
Proof.
  intros Ha Hp Hs x Hx. rewrite fld_put. unfold fld at 2. destruct (decide (x = p)) as [->|Hne].
  - rewrite decide_True by done. rewrite lookup_insert_eq. by destruct d.
  - rewrite decide_False by tauto. rewrite lookup_insert_ne by done. by apply Ha.
Qed.

Lemma agree_put_other F d d' m s p v :
  d' ≠ d -> agree F d' m s -> agree F d' m (put_next d p v s).
Proof. intros Hd Ha x Hx. rewrite fld_put, decide_False by tauto. by apply Ha. Qed.

(** Where a call is, seen from the start: what its two directions have done. *)
Definition before m k0 k s (d : Dir) : Prop :=
  head d k = head d k0 /\ agree (foot m d k0) d m s.

Definition after m k0 k s (d : Dir) : Prop :=
  head d k = (dir_result m d k0).1.2 /\ agree (foot m d k0) d (dir_result m d k0).1.1 s.

Definition at_dir m k0 k s (d : Dir) : Prop :=
  match d with
  | DOut => before m k0 k s DOut /\ before m k0 k s DIn
  | DIn => after m k0 k s DOut /\ before m k0 k s DIn
  end.

Definition all_done m k0 k s : Prop := after m k0 k s DOut /\ after m k0 k s DIn.

Definition copied m k0 (edge : Edge) : Prop :=
  exists e, m !! k_edge k0 = Some e /\ forall d, next d edge = next d e.

(** The rest of the search gives the result of the direction. *)
Definition scanning m k0 (d : Dir) (edge : Edge) (cur : Z) : Prop :=
  exists l fuel m' pred, chain d m cur l /\ (forall x, x ∈ l -> x ∈ foot m d k0) /\
    unlink_scan d fuel (k_edge k0) (next d edge) m cur = Some (m', pred) /\
    dir_result m d k0 = (m', head d k0, pred).

Definition call_inv m k0 k s : Prop :=
  k_edge k = k_edge k0 /\
  match k_pc k0, k_pc k with
  | LkOut, LkOut | UnStart, UnStart => at_dir m k0 k s DOut
  | LkOut, LkIn => at_dir m k0 k s DIn
  | UnStart, UnHead d edge _ => copied m k0 edge /\ at_dir m k0 k s d
  | UnStart, UnScan d edge _ cur =>
      copied m k0 edge /\ at_dir m k0 k s d /\ scanning m k0 d edge cur
  | LkOut, LkPersist | UnStart, UnPersist _ | LkOut, Finished true | UnStart, Finished true =>
      all_done m k0 k s
  | _, _ => False
  end.

Lemma at_dir_before m k0 k s d : at_dir m k0 k s d -> before m k0 k s d.
Proof. by destruct d; intros []. Qed.

(** The direction [d] is done; the other one is as it was. *)
Lemma dir_done m k0 k k' s s' d edge preds :
  k_pc k0 = UnStart -> k_edge k' = k_edge k0 -> copied m k0 edge -> at_dir m k0 k s d ->
  after m k0 k' s' d ->
  (forall d', d' ≠ d -> head d' k' = head d' k /\ forall F m', agree F d' m' s -> agree F d' m' s') ->
  call_inv m k0 (goto (after_dir d edge preds) k') s'.
Proof.
  intros Hpc Hid Hcp Hat Haft Hother. split; [done|]. rewrite Hpc.
  destruct d; simpl; destruct Hat as [[Ho1 Ho2] [Hi1 Hi2]].
  - destruct (Hother DIn) as [Hh Hf]; [done|]. simpl in Hh.
    split; [done|]. split; [exact Haft|]. split; [by simpl; rewrite Hh|]. by apply Hf.
  - destruct (Hother DOut) as [Hh Hf]; [done|]. simpl in Hh.
    split; [|exact Haft]. split; [by simpl; rewrite Hh|]. by apply Hf.
Qed.

(** The search, alone on [m]. *)
Lemma unlink_result m k0 d edge :
  ready m k0 -> k_pc k0 = UnStart -> copied m k0 edge ->
  unlink_dir d (S (size m)) (k_edge k0) (next d edge) (head d k0) m = Some (dir_result m d k0).
Proof.
  intros Hr Hpc (e & He & Hnext). rewrite Hnext. unfold dir_result. rewrite Hpc, He.
  pose proof (chain_length _ _ _ _ (rd_chain _ _ Hr d)) as Hlen.
  destruct (unlink_dir_chain d m (head d k0) _ (k_edge k0) e (S (size m)) (rd_chain _ _ Hr d) He
    (rd_null _ _ Hr)) as (m' & h' & pred & Hu & _); [lia|]. by rewrite Hu.
Qed.

Lemma head_set_head d d' v k : head d (set_head d' v k) = if decide (d = d') then v else head d k.
Proof. by destruct d, d'. Qed.

Lemma head_goto d pc k : head d (goto pc k) = head d k.
Proof. by destruct d. Qed.

Lemma agree_next m k0 d s x e :
  agree (foot m d k0) d m s -> x ∈ foot m d k0 -> edges s !! x = Some e ->
  exists e0, m !! x = Some e0 /\ next d e0 = next d e.
Proof.
  intros Ha Hx He. specialize (Ha x Hx). unfold fld in Ha. rewrite He in Ha. simpl in Ha.
  destruct (m !! x) as [e0|]; [|done]. exists e0. split; [done|]. by injection Ha as ->.
Qed.

(** The links a step writes are the call's. *)
Definition only_foot m k0 s s' : Prop :=
  forall d x, x ∉ foot m d k0 -> fld d (edges s') x = fld d (edges s) x.

Lemma only_foot_put m k0 d x v s : x ∈ foot m d k0 -> only_foot m k0 s (put_next d x v s).
Proof.
  intros Hx d' y Hy. rewrite fld_put. destruct (decide _) as [(-> & -> & _)|]; done.
Qed.

Lemma only_foot_same m k0 s s' : edges s' = edges s -> only_foot m k0 s s'.
Proof. intros Heq d x _. by rewrite Heq. Qed.

(** Only the links of its footprint concern a call. *)
Lemma call_inv_frame m k0 k s s' :
  (forall d x, x ∈ foot m d k0 -> fld d (edges s') x = fld d (edges s) x) ->
  call_inv m k0 k s -> call_inv m k0 k s'.
Proof.
  intros Heq [Hid Hinv]. split; [done|].
  assert (forall d m', agree (foot m d k0) d m' s -> agree (foot m d k0) d m' s') as Ha
    by (intros d m' Ha x Hx; rewrite Heq by done; by apply Ha).
  assert (forall d, before m k0 k s d -> before m k0 k s' d) as Hb by (intros d []; split; auto).
  assert (forall d, after m k0 k s d -> after m k0 k s' d) as Hf by (intros d []; split; auto).
  assert (forall d, at_dir m k0 k s d -> at_dir m k0 k s' d) as Hat by (intros [] []; split; auto).
  assert (all_done m k0 k s -> all_done m k0 k s') as Hall by (intros []; split; auto).
  destruct (k_pc k0), (k_pc k) as [| | | | | | |[]]; naive_solver.
Qed.

Lemma call_inv_same m k0 k s s' : edges s' = edges s -> call_inv m k0 k s -> call_inv m k0 k s'.
Proof. intros Heq. apply call_inv_frame. intros d x _. by rewrite Heq. Qed.

(** Linking one direction gives its result. *)
Lemma link_after m k0 k k' s d :
  ready m k0 -> k_pc k0 = LkOut -> k_edge k = k_edge k0 -> same_attrs m (edges s) ->
  before m k0 k s d -> head d k' = k_edge k0 ->
  after m k0 k' (put_next d (k_edge k) (head d k) s) d.
Proof.
  intros Hr Hpc Hid Hs [Hh Ha] Hh'. destruct (rd_edge _ _ Hr) as [e He].
  unfold after, dir_result. rewrite Hpc, He. cbn [fst snd]. split; [done|].
  rewrite Hid, Hh. apply agree_put; [done..|]. by apply (same_attrs_some _ _ _ Hs).
Qed.

Definition step_ok m k0 k' s s' : Prop :=
  call_inv m k0 k' s' /\ same_attrs m (edges s') /\ only_foot m k0 s s'.

Lemma step_ok_put m k0 k' d x v s :
  same_attrs m (edges s) -> x ∈ foot m d k0 -> call_inv m k0 k' (put_next d x v s) ->
  step_ok m k0 k' s (put_next d x v s).
Proof. intros Hs Hx Hk. split; [done|]. split; [by apply same_attrs_put|by apply only_foot_put]. Qed.

Lemma step_ok_same m k0 k' s s' :
  same_attrs m (edges s) -> edges s' = edges s -> call_inv m k0 k' s -> step_ok m k0 k' s s'.
Proof.
  intros Hs Heq Hk. split; [by eapply call_inv_same|]. rewrite Heq. split; [done|by apply only_foot_same].
Qed.

Lemma link_step m k0 k s k' s' :
  ready m k0 -> k_pc k0 = LkOut -> same_attrs m (edges s) -> call_inv m k0 k s ->
  chain_step k s = Some (k', s') -> step_ok m k0 k' s s'.
Proof.
  intros Hr Hpc Hs [Hid Hinv] Hstep. rewrite Hpc in Hinv. unfold chain_step in Hstep.
  assert (forall d, k_edge k ∈ foot m d k0) as Hfoot by (intros d; rewrite Hid; apply list_elem_of_here).
  destruct k as [id pc fo fi]. cbn [k_pc k_edge] in *.
  destruct pc as [| | | | | | |[]]; try done; injection Hstep as <- <-.
  - destruct Hinv as [Hout [Hhi Hin]]. apply step_ok_put; [done..|]. split; [done|]. rewrite Hpc.
    simpl. split; [by apply (link_after m k0 (mkChainCall id LkOut fo fi))|].
    split; [done|]. by apply agree_put_other.
  - destruct Hinv as [[Hho Hout] Hin]. apply step_ok_put; [done..|]. split; [done|]. rewrite Hpc.
    simpl. split; [|by apply (link_after m k0 (mkChainCall id LkIn fo fi))].
    split; [done|]. by apply agree_put_other.
  - apply step_ok_same; [done|apply persist_edges|]. split; [done|]. rewrite Hpc. exact Hinv.
Qed.

(** The search, one step at a time. *)
Lemma scan_step m k0 k s d edge preds cur k' s' :
  ready m k0 -> k_pc k0 = UnStart -> same_attrs m (edges s) -> k_edge k = k_edge k0 ->
  k_pc k = UnScan d edge preds cur -> copied m k0 edge -> at_dir m k0 k s d ->
  scanning m k0 d edge cur -> chain_step k s = Some (k', s') -> step_ok m k0 k' s s'.
Proof.
  intros Hr Hpc Hs Hid Hk Hcp Hat (l & fuel & m' & pred & Hc & Hl & Hscan & Hres) Hstep.
  pose proof (at_dir_before _ _ _ _ _ Hat) as [Hh Ha]. unfold chain_step in Hstep. rewrite Hk in Hstep.
  destruct fuel as [|fuel]; [done|]. cbn [unlink_scan] in Hscan.
  assert (forall preds', m' = m -> step_ok m k0 (goto (after_dir d edge preds') k) s s) as Hend.
  { intros preds' ->. apply step_ok_same; [done..|]. eapply dir_done; [done..| |by intros].
    unfold after. rewrite Hres. done. }
  destruct (cur =? NULL_EDGE) eqn:Hcur.
  { injection Hscan as <- <-. injection Hstep as <- <-. by apply Hend. }
  inversion Hc as [|? e0 l' Hn He0 Hc']; subst; [done|].
  assert (cur ∈ foot m d k0) as Hin by (apply Hl, list_elem_of_here).
  destruct (edges s !! cur) as [e|] eqn:He.
  2: { exfalso. apply (mk_is_Some _ _), (same_attrs_some _ _ _ Hs) in He0 as [? ?]. congruence. }
  destruct (agree_next _ _ _ _ _ _ Ha Hin He) as (e1 & He1 & Hnext).
  assert (e1 = e0) as -> by congruence. rewrite He0, Hnext in Hscan. rewrite Hid in Hstep.
  destruct (next d e =? k_edge k0).
  - injection Hscan as <- <-. injection Hstep as <- <-. apply step_ok_put; [done..|].
    eapply dir_done; [done..| |].
    + unfold after. rewrite Hres. split; [done|]. apply agree_put; [done..|]. by eexists.
    + intros d' Hd. split; [done|]. intros F m1. by apply agree_put_other.
  - injection Hstep as <- <-. apply step_ok_same; [done..|]. split; [done|]. rewrite Hpc. cbn [goto k_pc].
    split; [done|]. split; [by destruct d|]. rewrite Hnext in Hc'.
    exists l', fuel, m', pred. split_done. intros x Hx. apply Hl. by apply list_elem_of_further.
Qed.

Lemma head_step m k0 k s d edge preds k' s' :
  ready m k0 -> k_pc k0 = UnStart -> same_attrs m (edges s) -> k_edge k = k_edge k0 ->
  k_pc k = UnHead d edge preds -> copied m k0 edge -> at_dir m k0 k s d ->
  chain_step k s = Some (k', s') -> step_ok m k0 k' s s'.
Proof.
  intros Hr Hpc Hs Hid Hk Hcp Hat Hstep. pose proof (at_dir_before _ _ _ _ _ Hat) as [Hh Ha].
  pose proof (unlink_result _ _ d _ Hr Hpc Hcp) as Hres. unfold unlink_dir in Hres.
  unfold chain_step in Hstep. rewrite Hk, Hh, Hid in Hstep.
  destruct (head d k0 =? k_edge k0) eqn:Heq; injection Hstep as <- <-; (apply step_ok_same; [done..|]).
  - injection Hres as Hres. eapply dir_done; [done|by destruct d|done..| |].
    + unfold after. rewrite <-Hres, head_set_head, decide_True by done. done.
    + intros d' Hd. by rewrite head_set_head, decide_False.
  - destruct (unlink_scan _ _ _ _ _ _) as [[m' pred]|] eqn:Hscan; [|done]. injection Hres as Hres.
    split; [done|]. rewrite Hpc. cbn [goto k_pc]. split; [done|]. split; [by destruct d|].
    exists (members d m (head d k0)), (S (size m)), m', pred. split; [apply (rd_chain _ _ Hr)|].
    split; [intros x Hx; by apply list_elem_of_further|done].
Qed.

Lemma call_step m k0 k s k' s' :
  ready m k0 -> same_attrs m (edges s) -> call_inv m k0 k s -> chain_step k s = Some (k', s') ->
  step_ok m k0 k' s s'.
Proof.
  intros Hr Hs Hk Hstep. destruct (rd_pc _ _ Hr) as [Hpc|Hpc]; [by eapply link_step|].
  destruct Hk as [Hid Hinv]. rewrite Hpc in Hinv.
  destruct (k_pc k) as [| | | |d edge preds|d edge preds cur|[|p ps]|[]] eqn:Hk; try done.
  - unfold chain_step in Hstep. rewrite Hk, Hid in Hstep. destruct Hinv as [[Hho Hao] [Hhi Hai]].
    destruct (rd_edge _ _ Hr) as [e He].
    destruct (edges s !! k_edge k0) as [e'|] eqn:He'.
    2: { exfalso. apply (mk_is_Some _ _), (same_attrs_some _ _ _ Hs) in He as [? ?]. congruence. }
    injection Hstep as <- <-. apply step_ok_same; [done..|]. split; [done|]. rewrite Hpc. cbn [goto k_pc].
    split; [|done]. exists e. split; [done|].
    assert (forall d, agree (foot m d k0) d m s) as Ha by (by intros []).
    intros d. destruct (agree_next _ _ _ _ _ _ (Ha d) (list_elem_of_here _ _) He') as (e1 & He1 & Hn).
    congruence.
  - destruct Hinv as [Hcp Hat]. by eapply head_step.
  - destruct Hinv as (Hcp & Hat & Hsc). by eapply scan_step.
  - unfold chain_step in Hstep. rewrite Hk in Hstep. injection Hstep as <- <-.
    apply step_ok_same; [done..|]. split; [done|]. by rewrite Hpc.
  - unfold chain_step in Hstep. rewrite Hk in Hstep. injection Hstep as <- <-.
    apply step_ok_same; [done|apply persist_edges|]. split; [done|]. by rewrite Hpc.
  - unfold chain_step in Hstep. by rewrite Hk in Hstep.
Qed.

(** ** All calls *)

Record chains_inv m (ks0 ks : list ChainCall) s : Prop := {
  ci_calls : Forall2 (fun k0 k => call_inv m k0 k s) ks0 ks;
  ci_rest d x : (forall k0, k0 ∈ ks0 -> x ∉ foot m d k0) -> fld d (edges s) x = fld d m x;
  ci_attrs : same_attrs m (edges s)
}.

Lemma chains_inv_start ks s : Forall (ready (edges s)) ks -> chains_inv (edges s) ks ks s.
Proof.
  intros Hr. split; [|done|by intros x]. apply Forall_Forall2_diag.
  eapply Forall_impl; [exact Hr|]. intros k Hk. split; [done|].
  by destruct (rd_pc _ _ Hk) as [->| ->].
Qed.

Lemma chains_inv_step m ks0 ks s i k k' s' :
  Forall (ready m) ks0 -> independent m ks0 -> chains_inv m ks0 ks s -> ks !! i = Some k ->
  chain_step k s = Some (k', s') -> chains_inv m ks0 (<[i := k']> ks) s'.
Proof.
  intros Hr Hind [Hcalls Hrest Hattrs] Hi Hstep.
  destruct (Forall2_lookup_r _ _ _ _ _ Hcalls Hi) as (k0 & Hi0 & Hk).
  assert (ready m k0) as Hr0 by (by eapply Forall_lookup_1).
  destruct (call_step m k0 k s k' s' Hr0 Hattrs Hk Hstep) as (Hk' & Hattrs' & Honly).
  split; [|intros d x Hx; rewrite Honly; [by apply Hrest|]; by eapply Hx, list_elem_of_lookup_2|done].
  apply Forall2_same_length_lookup. rewrite length_insert.
  split; [by eapply Forall2_length|]. intros j k1 k2 Hj1 Hj2.
  destruct (decide (j = i)) as [->|Hne].
  - rewrite list_lookup_insert_eq in Hj2 by (by eapply lookup_lt_Some). simplify_eq. done.
  - rewrite list_lookup_insert_ne in Hj2 by done. apply (call_inv_frame m k1 k2 s).
    + intros d x Hx. apply Honly. intros Hx'. apply Hne. by eapply Hind.
    + apply (Forall2_lookup_lr _ _ _ _ _ _ Hcalls Hj1 Hj2).
Qed.

Lemma chains_inv_run m ks0 ks s ks' s' :
  Forall (ready m) ks0 -> independent m ks0 -> chains_inv m ks0 ks s ->
  rtc (threads_step chain_step) (ks, s) (ks', s') -> chains_inv m ks0 ks' s'.
Proof.
  intros Hr Hind. apply (threads_invariant chain_step (chains_inv m ks0)).
  intros ks1 s1 i k k' s1' Hinv. by apply chains_inv_step.
Qed.

Lemma finished_done m k0 k s :
  call_inv m k0 k s -> is_finished k = true -> k = outcome m k0 /\ all_done m k0 k s.
Proof.
  intros [Hid Hinv] Hfin. destruct k as [id pc fo fi]. unfold is_finished in Hfin. cbn [k_pc k_edge] in *.
  assert (all_done m k0 (mkChainCall id pc fo fi) s /\ pc = Finished true) as [Hall ->]
    by (destruct pc as [| | | | | | |[]], (k_pc k0); done).
  split; [|done]. destruct Hall as [[Ho _] [Hi _]]. simpl in Ho, Hi. unfold outcome. congruence.
Qed.

Lemma edge_ext (e e' : Edge) :
  attrs e = attrs e' -> (forall d, next d e = next d e') -> e = e'.
Proof.
  intros Ha Hn. pose proof (Hn DOut). pose proof (Hn DIn). destruct e, e'.
  unfold attrs in Ha. simpl in *. congruence.
Qed.

Lemma edges_ext m s s' :
  same_attrs m (edges s) -> same_attrs m (edges s') ->
  (forall d x, fld d (edges s) x = fld d (edges s') x) -> edges s = edges s'.
Proof.
  intros Ha Ha' Hf. apply map_eq. intros x. specialize (Ha x). specialize (Ha' x).
  rewrite <-Ha' in Ha. pose proof (fun d => Hf d x) as Hfx. unfold fld in Hfx.
  destruct (edges s !! x) as [e|], (edges s' !! x) as [e'|]; simpl in *; try done.
  f_equal. apply edge_ext; [congruence|]. intros d. specialize (Hfx d). congruence.
Qed.

Definition calls_finished (ks : list ChainCall) : Prop := Forall (fun k => is_finished k = true) ks.

Lemma finished_outcomes m ks0 ks s :
  chains_inv m ks0 ks s -> calls_finished ks -> ks = map (outcome m) ks0.
Proof.
  intros Hinv Hfin. pose proof (ci_calls _ _ _ _ Hinv) as Hcalls. clear Hinv.
  induction Hcalls as [|k0 k ks0' ks' Hk _ IH]; [done|]. apply Forall_cons in Hfin as [Hf Hfin].
  simpl. f_equal; [|by apply IH]. by eapply finished_done.
Qed.

(** Every link is what the call that owns it left, or what it was. *)
Lemma finished_edges m ks0 ks s ks1 ks1' s1 :
  chains_inv m ks0 ks s -> calls_finished ks -> chains_inv m ks1 ks1' s1 -> calls_finished ks1' ->
  ks1 ≡ₚ ks0 -> edges s = edges s1.
Proof.
  intros Hinv Hfin Hinv1 Hfin1 Hperm.
  apply (edges_ext m); [apply (ci_attrs _ _ _ _ Hinv)|apply (ci_attrs _ _ _ _ Hinv1)|]. intros d x.
  destruct (decide (Exists (fun k0 => x ∈ foot m d k0) ks0)) as [Hex|Hno].
  - apply Exists_exists in Hex as (k0 & Hk0 & Hx).
    assert (forall ks2 ks2' s2, chains_inv m ks2 ks2' s2 -> calls_finished ks2' -> k0 ∈ ks2 ->
      fld d (edges s2) x = fld d (dir_result m d k0).1.1 x) as Hfld.
    { intros ks2 ks2' s2 [Hcalls _ _] Hf Hin. apply list_elem_of_lookup in Hin as [i Hi].
      destruct (Forall2_lookup_l _ _ _ _ _ Hcalls Hi) as (k & Hi' & Hk).
      destruct (finished_done _ _ _ _ Hk) as [_ [[_ Ho] [_ Hin]]]; [by eapply (Forall_lookup_1 _ _ _ _ Hf)|].
      destruct d; auto. }
    rewrite (Hfld ks0 ks s), (Hfld ks1 ks1' s1); try done. by rewrite Hperm.
  - assert (forall k0, k0 ∈ ks0 -> x ∉ foot m d k0) as Hall.
    { intros k0 Hk0 Hx. apply Hno, Exists_exists. eauto. }
    rewrite (ci_rest _ _ _ _ Hinv) by done. symmetry. apply (ci_rest _ _ _ _ Hinv1).
    intros k0 Hk0. apply Hall. by rewrite <-Hperm.
Qed.

(** The chain of a finished call. *)
Definition chain_left m d k0 : list Z :=
  match k_pc k0 with
  | LkOut => k_edge k0 :: members d m (head d k0)
  | _ => filter (fun x => x ≠ k_edge k0) (members d m (head d k0))
  end.

Lemma chain_agree F d m s h l :
  agree F d m s -> (forall x, x ∈ l -> x ∈ F) -> chain d m h l -> chain d (edges s) h l.
Proof. intros Ha Hl. apply chain_frame. intros x Hx. apply Ha. auto. Qed.

Lemma dir_result_chain m d k0 :
  ready m k0 -> chain d (dir_result m d k0).1.1 (dir_result m d k0).1.2 (chain_left m d k0).
Proof.
  intros Hr. destruct (rd_edge _ _ Hr) as [e He]. pose proof (rd_chain _ _ Hr d) as Hc.
  unfold dir_result, chain_left. rewrite He. destruct (rd_pc _ _ Hr) as [Hpc|Hpc]; rewrite Hpc.
  - cbn [fst snd]. eapply chain_cons; [apply (rd_null _ _ Hr)|apply lookup_insert_eq|].
    replace (next d (set_next d (head d k0) e)) with (head d k0) by by destruct d.
    eapply chain_frame; [|exact Hc]. intros x Hx. rewrite lookup_insert_ne; [done|].
    intros <-. by apply (rd_new _ _ Hr d Hpc).
  - pose proof (chain_length _ _ _ _ Hc) as Hlen.
    destruct (unlink_dir_chain d m (head d k0) _ (k_edge k0) e (S (size m)) Hc He (rd_null _ _ Hr))
      as (m' & h' & pred & Hu & Hc' & _); [lia|]. by rewrite Hu.
Qed.

Lemma finished_chain m k0 k s d :
  ready m k0 -> all_done m k0 k s -> chain d (edges s) (head d k) (chain_left m d k0).
Proof.
  intros Hr [Ho Hi]. assert (after m k0 k s d) as [-> Ha] by by destruct d.
  eapply chain_agree; [exact Ha| |by apply dir_result_chain].
  intros x. unfold chain_left, foot. destruct (k_pc k0); try done; rewrite list_elem_of_filter; set_solver.
Qed.

(** ** One after another *)

Lemma same_attrs_size m m' : same_attrs m m' -> size m' = size m.
Proof.
  intros Hs. rewrite <-!size_dom. f_equal. apply set_eq. intros x. rewrite !elem_of_dom. symmetry.
  by apply same_attrs_some.
Qed.

Lemma run_call_total m k s fuel :
  ready m k -> same_attrs m (edges s) -> call_inv m k k s -> (size m < fuel)%nat ->
  exists k' s', run_call fuel k s = Some (k', s') /\ is_finished k' = true.
Proof.
  intros Hr Hs [_ Hinv] Hfuel. unfold run_call. destruct (rd_pc _ _ Hr) as [Hpc|Hpc]; rewrite Hpc in *.
  { by eexists _, _. }
  destruct Hinv as [[_ Ho] [_ Hi]].
  assert (is_Some (edges s !! k_edge k)) as [e He] by (apply (same_attrs_some _ _ _ Hs), Hr).
  assert (forall d, agree (foot m d k) d m s -> chain d (edges s) (head d k) (members d m (head d k))) as Hc.
  { intros d Ha. apply (chain_agree (foot m d k) d m); [done| |by apply rd_chain].
    intros x Hx. by apply list_elem_of_further. }
  destruct (unlink_chains s (k_edge k) e (k_out k) (k_in k) _ _ fuel He (rd_null _ _ Hr) (Hc DOut Ho)
    (Hc DIn Hi)) as (h1 & h2 & s' & -> & _); [by unfold len; rewrite (same_attrs_size _ _ Hs)|].
  by eexists _, _.
Qed.

Lemma run_calls_total m ks0 pre rest s fuel :
  Forall (ready m) ks0 -> independent m ks0 -> (size m < fuel)%nat ->
  chains_inv m ks0 (pre ++ rest) s -> rest = drop (length pre) ks0 ->
  exists rest' s', run_calls fuel rest s = Some (rest', s') /\ calls_finished rest'.
Proof.
  intros Hr Hind Hfuel. revert pre s. induction rest as [|k rest IH]; intros pre s Hinv Hrest.
  { eexists [], s. split; [done|constructor]. }
  assert (ks0 !! length pre = Some k) as Hk
    by (rewrite <-(Nat.add_0_r (length pre)), <-lookup_drop, <-Hrest; done).
  assert ((pre ++ k :: rest) !! length pre = Some k) as Hk' by by apply list_lookup_middle.
  destruct (run_call_total m k s fuel) as (k' & s1 & Hrun & Hfin); [| | |done|].
  { by eapply Forall_lookup_1. }
  { apply (ci_attrs _ _ _ _ Hinv). }
  { apply (Forall2_lookup_lr _ _ _ _ _ _ (ci_calls _ _ _ _ Hinv) Hk Hk'). }
  assert (chains_inv m ks0 ((pre ++ [k']) ++ rest) s1) as Hinv1.
  { apply (chains_inv_run m ks0 (pre ++ k :: rest) s); [done..|].
    replace ((pre ++ [k']) ++ rest) with (<[length pre := k']> (pre ++ k :: rest)).
    - eapply threads_alone; [done|]. by eapply run_call_alone.
    - rewrite insert_app_r_alt, Nat.sub_diag by done. by rewrite <-app_assoc. }
  destruct (IH (pre ++ [k']) s1 Hinv1) as (rest' & s' & Hrun' & Hfin').
  { rewrite length_app. simpl. rewrite Nat.add_1_r. symmetry.
    rewrite (drop_S _ _ _ Hk) in Hrest. by injection Hrest. }
  exists (k' :: rest'), s'. simpl. rewrite Hrun. simpl. rewrite Hrun'. split; [done|by constructor].
Qed.

Lemma independent_perm m ks ks1 : ks1 ≡ₚ ks -> independent m ks -> independent m ks1.
Proof.
  intros (_ & f & Hf & Hlook)%Permutation_inj Hind i j k k' d x Hi Hj Hx Hx'.
  rewrite Hlook in Hi, Hj. apply Hf. by eapply Hind.
Qed.

Lemma independent_pair m k k' :
  (forall d, forallb (fun x => negb (bool_decide (x ∈ foot m d k'))) (foot m d k) = true) ->
  independent m [k; k'].
Proof.
  intros Hdis i j k1 k2 d x Hi Hj Hx Hx'.
  assert (forall y, y ∈ foot m d k -> y ∉ foot m d k') as Hno.
  { intros y Hy. specialize (Hdis d). rewrite forallb_forall in Hdis.
    specialize (Hdis y (proj1 (list_elem_of_In _ _) Hy)). by apply negb_true_iff, bool_decide_eq_false_1 in Hdis. }
  destruct i as [|[|]], j as [|[|]]; simplify_eq/=; try done; exfalso; by eapply Hno.
Qed.

(** C7: concurrent calls. Calls of [link_into_chains] and
    [unlink_from_chains] whose chains have no link in common run in any
    interleaving of their accesses; when all have returned, the edges are those
    that the calls leave when they run one after another, in any order, and
    each call returns the same heads as there. From each head its chain can be
    walked: with the new edge in front, or without the unlinked one. *)
Theorem concurrent_chains_serialize ks s0 ks' s fuel ks1 :
  Forall (ready (edges s0)) ks -> independent (edges s0) ks -> (len s0 < fuel)%nat ->
  rtc (threads_step chain_step) (ks, s0) (ks', s) -> calls_finished ks' -> ks1 ≡ₚ ks ->
  (exists ks1' s1, run_calls fuel ks1 s0 = Some (ks1', s1) /\ ks1' ≡ₚ ks' /\ edges s = edges s1) /\
  Forall2 (fun k k' => forall d, chain d (edges s) (head d k') (chain_left (edges s0) d k)) ks ks'.
Proof.
  intros Hr Hind Hfuel Hrun Hfin Hperm. pose proof (chains_inv_start _ _ Hr) as Hstart.
  pose proof (chains_inv_run _ _ _ _ _ _ Hr Hind Hstart Hrun) as Hinv. split.
  - assert (Forall (ready (edges s0)) ks1) as Hr1 by by rewrite Hperm.
    assert (independent (edges s0) ks1) as Hind1 by by eapply independent_perm.
    pose proof (chains_inv_start _ _ Hr1) as Hstart1.
    destruct (run_calls_total (edges s0) ks1 [] ks1 s0 fuel Hr1 Hind1 Hfuel Hstart1 eq_refl)
      as (ks1' & s1 & Hrun1 & Hfin1).
    pose proof (chains_inv_run _ _ _ _ _ _ Hr1 Hind1 Hstart1 (run_calls_steps _ _ _ _ _ Hrun1)) as Hinv1.
    exists ks1', s1. split; [done|]. split; [|by eapply finished_edges].
    rewrite (finished_outcomes _ _ _ _ Hinv Hfin), (finished_outcomes _ _ _ _ Hinv1 Hfin1).
    by rewrite Hperm.
  - apply Forall2_same_length_lookup. split; [by eapply Forall2_length, ci_calls|].
    intros i k k' Hi Hi' d. apply finished_chain; [by eapply Forall_lookup_1|].
    apply (finished_done _ k k'); [|by eapply (Forall_lookup_1 _ _ _ _ Hfin)].
    apply (Forall2_lookup_lr _ _ _ _ _ _ (ci_calls _ _ _ _ Hinv) Hi Hi').
Qed.

(** ** Every call returns *)

Lemma members_chain d m h l : chain d m h l -> members d m h = l.
Proof.
  intros Hc. pose proof (chain_length _ _ _ _ Hc). unfold members.
  by rewrite (walk_chain d m h l) by (done || lia).
Qed.

(** A bound on the steps a call has left. *)
Definition rank m k : nat :=
  match k_pc k with
  | LkOut => 3
  | LkIn => 2
  | LkPersist => 1
  | UnStart => 2 * size m + 8
  | UnHead DOut _ preds => length preds + 2 * size m + 7
  | UnScan DOut _ preds cur => length preds + size m + length (members DOut m cur) + 6
  | UnHead DIn _ preds => length preds + size m + 4
  | UnScan DIn _ preds cur => length preds + length (members DIn m cur) + 3
  | UnPersist preds => length preds + 1
  | Finished _ => 0
  end.

#[local] Ltac sink := match goal with H : Some _ = Some _ |- _ => injection H as <- <- end; unfold rank; simpl in *; lia.

Lemma rank_step m k0 k s k' s' :
  ready m k0 -> same_attrs m (edges s) -> call_inv m k0 k s -> chain_step k s = Some (k', s') ->
  (rank m k' < rank m k)%nat.
Proof.
  intros Hr Hs [Hid Hinv] Hstep. destruct k as [id pc fo fi]. unfold chain_step in Hstep.
  unfold rank at 2. cbn [k_pc k_edge] in *.
  destruct pc as [| | | |d edge preds|d edge preds cur|[|p ps]|]; try done;
    try (sink).
  - destruct (edges s !! id); sink.
  - destruct (rd_pc _ _ Hr) as [Hpc|Hpc]; rewrite Hpc in Hinv; [done|].
    destruct Hinv as [_ [Hh _]%at_dir_before].
    pose proof (chain_length _ _ _ _ (rd_chain _ _ Hr d)) as Hlen. rewrite <-Hh in Hlen.
    destruct (_ =? id); destruct d; sink.
  - destruct (rd_pc _ _ Hr) as [Hpc|Hpc]; rewrite Hpc in Hinv; [done|].
    destruct Hinv as (_ & [_ Ha]%at_dir_before & l & fuel & m' & pred & Hc & Hl & _).
    destruct (cur =? NULL_EDGE) eqn:Hcur; [destruct d; sink|].
    inversion Hc as [|? e0 l' Hn He0 Hc']; subst; [done|]. pose proof (members_chain _ _ _ _ Hc) as Hm.
    destruct (edges s !! cur) as [e|] eqn:He;
      [|destruct d; sink].
    destruct (agree_next _ _ _ _ _ _ Ha (Hl _ (list_elem_of_here _ _)) He) as (e1 & He1 & Hnext).
    assert (e1 = e0) as -> by congruence. rewrite Hnext in Hc'. apply members_chain in Hc'.
    destruct (next d e =? _); destruct d; injection Hstep as <- <-;
      unfold rank; simpl in *; rewrite ?length_app, Hm, ?Hc'; simpl; lia.
Qed.


(** ** Walking a chain that changes *)

(** A traversal runs next to the calls. *)
Inductive reads_step : list ChainCall * Walker * EdgeStore W -> list ChainCall * Walker * EdgeStore W -> Prop :=
| call_runs ks s ks' s' r :
    threads_step chain_step (ks, s) (ks', s') -> reads_step (ks, r, s) (ks', r, s')
| walker_runs ks s r r' : walk_step r s = Some r' -> reads_step (ks, r, s) (ks, r', s).

Lemma reads_calls ks s ks' s' r :
  rtc (threads_step chain_step) (ks, s) (ks', s') -> rtc reads_step (ks, r, s) (ks', r, s').
Proof.
  intros Hrun. assert (forall c c', rtc (threads_step chain_step) c c' ->
    rtc reads_step (c.1, r, c.2) (c'.1, r, c'.2)) as Hall.
  { induction 1 as [|[ks1 s1] [ks2 s2] c3 H1 _ IH]; [done|]. eapply rtc_l; [by constructor|done]. }
  apply (Hall _ _ Hrun).
Qed.

(** The traversal moves [n] times, or until it ends. *)
Fixpoint walk_steps (n : nat) (r : Walker) s : Walker :=
  match n with
  | O => r
  | S n' => match walk_step r s with Some r' => walk_steps n' r' s | None => r end
  end.

Lemma reads_walk n ks r s : rtc reads_step (ks, r, s) (ks, walk_steps n r s, s).
Proof.
  revert r. induction n as [|n IH]; intros r; simpl; [done|].
  destruct (walk_step r s) as [r'|] eqn:Hr; [|done]. eapply rtc_l; [by apply walker_runs|done].
Qed.

(** What a step of a call writes in direction [d]: nothing, the link of the new
    edge, or the link that leads to the unlinked edge, which then leads past it. *)
Definition dir_write m k0 d s s' : Prop :=
  (forall x, fld d (edges s') x = fld d (edges s) x) \/
  (k_pc k0 = LkOut /\ forall x, x ≠ k_edge k0 -> fld d (edges s') x = fld d (edges s) x) \/
  (k_pc k0 = UnStart /\ exists p v, p ∈ foot m d k0 /\ fld d (edges s) p = Some (k_edge k0) /\
    fld d (edges s) (k_edge k0) = Some v /\ s' = put_next d p v s).

Lemma link_write m k0 d d' s v :
  k_pc k0 = LkOut -> dir_write m k0 d s (put_next d' (k_edge k0) v s).
Proof. intros Hpc. right. left. split; [done|]. intros x Hx. by rewrite fld_put, decide_False by tauto. Qed.

Lemma step_write m k0 k s k' s' d :
  ready m k0 -> same_attrs m (edges s) -> call_inv m k0 k s -> chain_step k s = Some (k', s') ->
  dir_write m k0 d s s'.
Proof.
  intros Hr Hs [Hid Hinv] Hstep. unfold chain_step in Hstep. rewrite Hid in Hstep.
  assert (forall s1, edges s1 = edges s -> dir_write m k0 d s s1) as Hsame
    by (intros s1 Heq; left; intros x; by rewrite Heq).
  destruct (rd_pc _ _ Hr) as [Hpc|Hpc]; rewrite Hpc in Hinv;
    destruct (k_pc k) as [| | | |d1 edge preds|d1 edge preds cur|[|p ps]|[]]; try done.
  1,2: injection Hstep as _ <-; by apply link_write.
  1: injection Hstep as _ <-; apply Hsame, persist_edges.
  1,2: case_match; injection Hstep as _ <-; by apply Hsame.
  2,3: injection Hstep as _ <-; apply Hsame; first [done|apply persist_edges].
  destruct Hinv as (Hcp & [_ Ha]%at_dir_before & l & fuel & m' & pred & Hc & Hl & _).
  destruct (cur =? NULL_EDGE) eqn:Hcur; [injection Hstep as _ <-; by apply Hsame|].
  destruct (edges s !! cur) as [e|] eqn:He; [|injection Hstep as _ <-; by apply Hsame].
  destruct (next d1 e =? k_edge k0) eqn:Hnext; injection Hstep as _ <-; [|by apply Hsame].
  destruct (decide (d1 = d)) as [->|Hd].
  2: { left. intros x. rewrite fld_put, decide_False; [done|]. by intros (-> & _). }
  right. right. split; [done|]. exists cur, (next d edge).
  assert (cur ∈ l) as Hin by (inversion Hc; subst; [done|apply list_elem_of_here]).
  split; [by apply Hl|]. apply Z.eqb_eq in Hnext. unfold fld at 1. rewrite He, <-Hnext. split; [done|].
  split; [|done]. rewrite Hnext. rewrite (Ha (k_edge k0) (list_elem_of_here _ _)).
  destruct Hcp as (e0 & He0 & Hn). unfold fld. rewrite He0. simpl. by rewrite Hn.
Qed.

(** The calls leave [l] alone, or it is the chain they work on. *)
Definition chain_owned m d h (l : list Z) k0 : Prop := (forall x, x ∈ l -> x ∉ foot m d k0) \/ head d k0 = h.

(** What is seen and what is ahead make up the chain as it was, or without the
    edge that a call took out of it. *)
Definition walker_inv (ks0 : list ChainCall) d h (l : list Z) (r : Walker) s : Prop :=
  w_dir r = d /\ exists rest, chain d (edges s) (w_cur r) rest /\
    (w_seen r ++ rest = l \/
     exists k0, k0 ∈ ks0 /\ k_pc k0 = UnStart /\ head d k0 = h /\
       w_seen r ++ rest = filter (fun x => x ≠ k_edge k0) l).

Lemma walker_inv_frame ks0 d h l r s s' :
  (forall x, x ∈ l -> fld d (edges s') x = fld d (edges s) x) ->
  walker_inv ks0 d h l r s -> walker_inv ks0 d h l r s'.
Proof.
  intros Heq (Hd & rest & Hc & Hor). split; [done|]. exists rest. split; [|done].
  eapply chain_frame; [|exact Hc]. intros x Hx. apply Heq.
  destruct Hor as [<-|(k0 & _ & _ & _ & Hf)]; [apply elem_of_app; by right|].
  assert (x ∈ w_seen r ++ rest) as Hin by (apply elem_of_app; by right). rewrite Hf in Hin.
  by apply list_elem_of_filter in Hin as [_ ?].
Qed.

(** Taking an edge out of the rest of the chain. *)
Lemma chain_bypass d s cur rest p id v :
  chain d (edges s) cur rest -> p ∈ rest -> id ≠ NULL_EDGE -> fld d (edges s) p = Some id ->
  fld d (edges s) id = Some v ->
  exists r1 r2, rest = r1 ++ p :: id :: r2 /\ chain d (edges (put_next d p v s)) cur (r1 ++ p :: r2).
Proof.
  intros Hc Hp Hn Hpid Hid. apply list_elem_of_split in Hp as (r1 & r2 & ->). unfold fld in *.
  destruct (edges s !! p) as [e|] eqn:He; [|done]. injection Hpid as Hpid.
  destruct (edges s !! id) as [e'|] eqn:He'; [|done]. injection Hid as Hid.
  pose proof (chain_after _ _ _ _ _ _ _ Hc He) as Hafter. rewrite Hpid in Hafter.
  inversion Hafter as [|? e1 r3 _ He1 Hr3]; subst; [done|]. assert (e1 = e') as -> by congruence.
  exists r1, r3. split; [done|]. rewrite (put_next_edges _ _ _ _ e) by done. cbn [edges set_edges].
  apply (chain_relink d _ _ _ _ (next d e :: r3)); [done..|].
  pose proof (chain_NoDup _ _ _ _ Hc) as (_ & _ & [Hni _]%NoDup_cons)%NoDup_app. set_solver.
Qed.

Lemma walker_call_step m ks0 ks s i k k' s' d h l r :
  Forall (ready m) ks0 -> independent m ks0 -> chains_inv m ks0 ks s -> ks !! i = Some k ->
  chain_step k s = Some (k', s') -> chain d m h l -> Forall (chain_owned m d h l) ks0 ->
  walker_inv ks0 d h l r s -> walker_inv ks0 d h l r s'.
Proof.
  intros Hr Hind [Hcalls _ Hattrs] Hi Hstep Hl Hown Hw.
  destruct (Forall2_lookup_r _ _ _ _ _ Hcalls Hi) as (k0 & Hi0 & Hk).
  assert (ready m k0) as Hr0 by (by eapply Forall_lookup_1).
  assert (forall k1, k1 ∈ ks0 -> head d k1 = h -> forall x, x ∈ l -> x ∈ foot m d k1) as Hmem.
  { intros k1 _ Hh x Hx. apply list_elem_of_further. by rewrite Hh, (members_chain _ _ _ _ Hl). }
  destruct (step_write m k0 k s k' s' d Hr0 Hattrs Hk Hstep)
    as [Hsame|[[Hpc Hother]|(Hpc & p & v & Hp & Hpid & Hid & ->)]].
  { by apply (walker_inv_frame ks0 d h l r s). }
  { apply (walker_inv_frame ks0 d h l r s); [|done]. intros x Hx. apply Hother. intros ->.
    destruct (Forall_lookup_1 _ _ _ _ Hown Hi0) as [Hdis|Hh]; [apply (Hdis _ Hx), list_elem_of_here|].
    apply (rd_new _ _ Hr0 d Hpc). by rewrite Hh, (members_chain _ _ _ _ Hl). }
  destruct Hw as (Hd & rest & Hc & Hor). destruct (decide (p ∈ rest)) as [Hin|Hni].
  2: { split; [done|]. exists rest. split; [|done]. eapply chain_frame; [|exact Hc]. intros x Hx.
       change (fld d (edges (put_next d p v s)) x = fld d (edges s) x).
       rewrite fld_put, decide_False; [done|]. intros (_ & -> & _). done. }
  destruct (chain_bypass d s _ _ p (k_edge k0) v Hc Hin (rd_null _ _ Hr0) Hpid Hid)
    as (r1 & r2 & -> & Hc').
  split; [done|]. exists (r1 ++ p :: r2). split; [done|].
  destruct Hor as [Heq|(k1 & Hk1 & Hpc1 & Hh1 & Heq)].
  - right. exists k0. split; [by eapply list_elem_of_lookup_2|]. split; [done|]. split.
    + destruct (Forall_lookup_1 _ _ _ _ Hown Hi0) as [Hdis|Hh]; [|done]. exfalso.
      apply (Hdis p); [|done]. rewrite <-Heq. set_solver.
    + pose proof (chain_NoDup _ _ _ _ Hl) as Hnd. rewrite <-Heq in Hnd |- *.
      replace (w_seen r ++ r1 ++ p :: k_edge k0 :: r2)
        with ((w_seen r ++ r1 ++ [p]) ++ k_edge k0 :: r2) in Hnd |- * by (by rewrite <-!app_assoc).
      rewrite filter_middle by done. by rewrite <-!app_assoc.
  - exfalso. assert (forall x, x ∈ r1 ++ p :: k_edge k0 :: r2 -> x ≠ k_edge k1 /\ x ∈ l) as Hx.
    { intros x Hx. apply (list_elem_of_filter (fun y => y ≠ k_edge k1)). rewrite <-Heq.
      apply elem_of_app. by right. }
    apply list_elem_of_lookup in Hk1 as [j Hj].
    assert (j = i) as ->.
    { apply (Hind j i k1 k0 d p Hj Hi0); [|done]. apply (Hmem k1); [by eapply list_elem_of_lookup_2|done|].
      apply Hx. set_solver. }
    assert (k1 = k0) as -> by congruence. destruct (Hx (k_edge k0)) as [? _]; [set_solver|done].
Qed.

Lemma walker_own_step ks0 d h l r r' s :
  walker_inv ks0 d h l r s -> walk_step r s = Some r' -> walker_inv ks0 d h l r' s.
Proof.
  intros (Hd & rest & Hc & Hor) Hstep. unfold walk_step in Hstep.
  inversion Hc as [Hcur|cur e l' Hn He Hc' Hcur]; subst rest.
  { by rewrite <-Hcur in Hstep. }
  apply Z.eqb_neq in Hn. rewrite Hn, He in Hstep. injection Hstep as <-.
  split; [done|]. exists l'. rewrite Hd. split; [done|]. cbn [w_seen].
  by rewrite <-app_assoc.
Qed.

Lemma walker_inv_run m ks0 d h l c c' :
  Forall (ready m) ks0 -> independent m ks0 -> chain d m h l -> Forall (chain_owned m d h l) ks0 ->
  rtc reads_step c c' ->
  chains_inv m ks0 c.1.1 c.2 /\ walker_inv ks0 d h l c.1.2 c.2 ->
  chains_inv m ks0 c'.1.1 c'.2 /\ walker_inv ks0 d h l c'.1.2 c'.2.
Proof.
  intros Hr Hind Hl Hown. induction 1 as [|c1 c2 c3 H1 _ IH]; [done|]. intros [Hinv Hw]. apply IH.
  destruct H1 as [ks s ks' s' r Hstep|ks s r r' Hstep]; cbn [fst snd] in *.
  - inversion Hstep; subst. split; [by eapply chains_inv_step|by eapply walker_call_step].
  - split; [done|by eapply walker_own_step].
Qed.

(** C8: traversal next to writers. A traversal that starts at the head of a
    chain while calls run that leave the chain alone or work on it, each with
    its own links, sees at the end the chain as it was at the start, without
    at most one edge, which one of the calls was taking out; it never sees an
    edge twice or an edge of another chain, and takes no more steps than the
    chain has edges. *)
Theorem concurrent_walk ks s0 d h l ks' r s :
  Forall (ready (edges s0)) ks -> independent (edges s0) ks ->
  chain d (edges s0) h l -> Forall (chain_owned (edges s0) d h l) ks ->
  rtc reads_step (ks, mkWalker d h [], s0) (ks', r, s) ->
  (length (w_seen r) <= length l)%nat /\
  (w_cur r = NULL_EDGE ->
    w_seen r = l \/
    exists k, k ∈ ks /\ k_pc k = UnStart /\ head d k = h /\ w_seen r = filter (fun x => x ≠ k_edge k) l).
Proof.
  intros Hr Hind Hl Hown Hrun.
  destruct (walker_inv_run (edges s0) ks d h l _ _ Hr Hind Hl Hown Hrun) as [_ (_ & rest & Hc & Hor)].
  { split; [by apply chains_inv_start|]. split; [done|]. exists l. split; [done|by left]. }
  cbn [fst snd] in *. split.
  - assert (length (w_seen r ++ rest) <= length l)%nat as Hlen.
    { destruct Hor as [->|(k & _ & _ & _ & ->)]; [done|apply length_filter]. }
    rewrite length_app in Hlen. lia.
  - intros Hcur. rewrite Hcur in Hc. inversion Hc; subst; [|done]. by rewrite app_nil_r in Hor.
Qed.
End call_inv.

(** ** The log *)

Section log.
Context {W : Type} `{WalSinkLaws W} `{CodecLaws Edge}.
Import EdgeStore.
Implicit Types (s : EdgeStore W) (k : ChainCall).

(** The edges that a call has changed and not yet logged. *)
Definition owes k : list Z :=
  match k_pc k with
  | LkIn | LkPersist => [k_edge k]
  | UnHead _ _ preds | UnScan _ _ preds _ | UnPersist preds => preds
  | _ => []
  end.

(** The log is the memory but for the records owed. *)
Definition log_owed m0 b (ks : list ChainCall) s : Prop :=
  exists m, logged m0 b m (edge_wal s) /\ dom m = dom (edges s) /\
    forall x, (forall k, k ∈ ks -> x ∉ owes k) -> m !! x = edges s !! x.

Lemma put_next_wal d x v s : edge_wal (put_next d x v s) = edge_wal s.
Proof. unfold put_next. by destruct (edges s !! x). Qed.

Lemma put_next_dom d x v s : dom (edges (put_next d x v s)) = dom (edges s).
Proof.
  unfold put_next. destruct (edges s !! x) as [e|] eqn:He; [|done]. simpl.
  rewrite dom_insert_L. apply elem_of_dom_2 in He. set_solver.
Qed.

Lemma put_next_other d x v s y : y ≠ x -> edges (put_next d x v s) !! y = edges s !! y.
Proof. intros Hy. unfold put_next. destruct (edges s !! x); [|done]. simpl. by rewrite lookup_insert_ne. Qed.

(** What nobody owes after a step of one call, nobody owed before it, unless the
    call has paid it. *)
Lemma not_owed (ks : list ChainCall) i k k' x :
  ks !! i = Some k -> (forall k1, k1 ∈ <[i := k']> ks -> x ∉ owes k1) ->
  x ∉ owes k' /\ ((x ∈ owes k -> x ∈ owes k') -> forall k1, k1 ∈ ks -> x ∉ owes k1).
Proof.
  intros Hi Hx.
  assert (x ∉ owes k') as Hk'.
  { apply Hx, list_elem_of_lookup. exists i. apply list_lookup_insert_eq. by eapply lookup_lt_Some. }
  split; [done|]. intros Hkeep k1 [j Hj]%list_elem_of_lookup Hin. destruct (decide (j = i)) as [->|Hne].
  - apply Hk', Hkeep. congruence.
  - apply (Hx k1); [|done]. apply list_elem_of_lookup. exists j. by rewrite list_lookup_insert_ne.
Qed.

Lemma log_owed_put m0 b ks s i k k' d x v :
  ks !! i = Some k -> x ∈ owes k' -> (forall y, y ∈ owes k -> y ∈ owes k') ->
  log_owed m0 b ks s -> log_owed m0 b (<[i := k']> ks) (put_next d x v s).
Proof.
  intros Hi Hx Hkeep (m & Hlog & Hdom & Hm). exists m. rewrite put_next_wal, put_next_dom.
  split_done. intros y Hy. destruct (not_owed ks i k k' y Hi Hy) as [Hy' Hold].
  rewrite put_next_other by congruence. apply Hm, Hold, Hkeep.
Qed.

Lemma log_owed_same m0 b ks s i k k' :
  ks !! i = Some k -> owes k' = owes k -> log_owed m0 b ks s -> log_owed m0 b (<[i := k']> ks) s.
Proof.
  intros Hi Heq (m & Hlog & Hdom & Hm). exists m. split_done. intros x Hx.
  apply Hm, (not_owed ks i k k' x Hi Hx). by rewrite Heq.
Qed.

Lemma log_owed_persist m0 b ks s i k k' x :
  ks !! i = Some k -> (forall y, y ∈ owes k -> y = x \/ y ∈ owes k') ->
  log_owed m0 b ks s -> log_owed m0 b (<[i := k']> ks) (persist x s).
Proof.
  intros Hi Hpay (m & Hlog & Hdom & Hm).
  assert (forall y, y ≠ x -> (forall k1, k1 ∈ <[i := k']> ks -> y ∉ owes k1) -> m !! y = edges s !! y) as Hm'.
  { intros y Hne Hy. apply Hm, (not_owed ks i k k' y Hi Hy). intros [?|?]%Hpay; done. }
  unfold persist. destruct (edges s !! x) as [e|] eqn:He.
  - destruct (logged_some _ _ _ _ Hlog) as [w Hw]. destruct (serialize_total e) as [data Hd].
    exists (<[x := e]> m). unfold log_owed. rewrite wal_insert_edges. split; [|split].
    + unfold wal_insert. rewrite Hw, Hd in *. by apply logged_put.
    + rewrite dom_insert_L, Hdom. apply elem_of_dom_2 in He. set_solver.
    + intros y Hy. destruct (decide (y = x)) as [->|Hne]; [by rewrite lookup_insert_eq|].
      rewrite lookup_insert_ne by done. by apply Hm'.
  - exists m. split_done. intros y Hy. destruct (decide (y = x)) as [->|Hne]; [|by apply Hm'].
    rewrite He. apply not_elem_of_dom. rewrite Hdom. by apply not_elem_of_dom.
Qed.

Lemma owes_after d edge preds k : owes (goto (after_dir d edge preds) k) = preds.
Proof. by destruct d. Qed.

Lemma log_owed_step m0 b ks s i k k' s' :
  log_owed m0 b ks s -> ks !! i = Some k -> chain_step k s = Some (k', s') ->
  log_owed m0 b (<[i := k']> ks) s'.
Proof.
  intros Hlog Hi Hstep. unfold chain_step in Hstep.
  assert (forall x, x ∈ owes k -> match k_pc k with
    | LkIn | LkPersist => x = k_edge k
    | UnHead _ _ preds | UnScan _ _ preds _ | UnPersist preds => x ∈ preds
    | _ => False end) as Howes.
  { intros x. unfold owes. destruct (k_pc k); set_solver. }
  destruct (k_pc k) as [| | | |d edge preds|d edge preds cur|[|p ps]|r] eqn:Hk.
  - injection Hstep as <- <-. eapply log_owed_put; [done|apply list_elem_of_here| |done]. by intros y ?%Howes.
  - injection Hstep as <- <-. eapply log_owed_put; [done|apply list_elem_of_here| |done].
    intros y ->%Howes. apply list_elem_of_here.
  - injection Hstep as <- <-. eapply log_owed_persist; [done| |done]. intros y ->%Howes. by left.
  - destruct (edges s !! k_edge k); injection Hstep as <- <-;
      (eapply log_owed_same; [done| |done]); unfold owes; by rewrite Hk.
  - assert (owes k = preds) as Hp by (unfold owes; by rewrite Hk).
    destruct (_ =? _); injection Hstep as <- <-; (eapply log_owed_same; [done| |done]); rewrite Hp;
      [apply owes_after|done].
  - assert (owes k = preds) as Hp by (unfold owes; by rewrite Hk).
    destruct (cur =? NULL_EDGE).
    { injection Hstep as <- <-. eapply log_owed_same; [done| |done]. rewrite Hp. apply owes_after. }
    destruct (edges s !! cur) as [e|].
    2: { injection Hstep as <- <-. eapply log_owed_same; [done| |done]. rewrite Hp. apply owes_after. }
    destruct (next d e =? k_edge k); injection Hstep as <- <-.
    + eapply log_owed_put; [done| | |done]; rewrite owes_after; [set_solver|rewrite Hp; set_solver].
    + eapply log_owed_same; [done| |done]. by rewrite Hp.
  - injection Hstep as <- <-. eapply log_owed_same; [done| |done]. unfold owes. by rewrite Hk.
  - injection Hstep as <- <-. eapply log_owed_persist; [done| |done]. intros y Hy%Howes. set_solver.
  - done.
Qed.

(** C9: the log of concurrent calls. An edge store is opened on a well-formed
    log (or none) at a level that fsyncs and used; then calls of [link_into_chains] and
    [unlink_from_chains] run at once, any of them, on whatever chains and in
    whatever interleaving, and the records sent fit the format. Once the calls
    have returned the flushed log reads back as the edges in memory: after the
    last change of an edge comes a record of the edge as it then is. (A log that a
    crash cut inside a length field is opened too, but is not well-formed: what is
    appended to it does not read back, see [torn_log_appended].) *)
Theorem concurrent_chains_recover c file rs0 s0 fuel ops s1 ks ks' s w :
  contract_ok (durability c) (wal_channel_capacity c) ->
  log_contents file = MAGIC ++ encode_recs rs0 ->
  open (W := W) c file = Ok s0 -> edge_exec_ops fuel s0 ops = Some s1 ->
  rtc (threads_step chain_step) (ks, s1) (ks', s) -> calls_finished ks' ->
  edge_wal s = Some w -> Forall rec_ok (rs0 ++ sink_recs w) ->
  exists s', open (W := W) c (Some (sink_image (sink_flush w))) = Ok s' /\ edges s' = edges s.
Proof.
  intros Hc Hlog Ho Hops Hrun Hfin Hw Hok.
  pose proof (proj1 (Forall_app _ _ _) Hok) as [Hok0 _].
  destruct (edge_open_log c file rs0 Hc Hlog Hok0) as (s0' & Ho' & _ & Hlogged).
  rewrite Ho in Ho'. injection Ho' as <-.
  pose proof (edge_exec_ops_logged _ _ _ _ _ _ Hlogged Hops) as Hl1.
  assert (log_owed (recover rs0 ∅) (MAGIC ++ encode_recs rs0) ks' s) as (m & Hl & _ & Hm).
  { apply (threads_invariant chain_step (log_owed (recover rs0 ∅) (MAGIC ++ encode_recs rs0))) in Hrun;
      [done|by intros; eapply log_owed_step|].
    exists (edges s1). split_done. }
  assert (m = edges s) as ->.
  { apply map_eq. intros x. apply Hm. intros k Hk. pose proof (proj1 (Forall_forall _ _) Hfin k Hk) as Hk'.
    unfold owes, is_finished in *. destruct (k_pc k); try done; apply not_elem_of_nil. }
  destruct (logged_image _ _ _ Hl) as (w' & Hw' & Himg & Hn).
  assert (w' = w) as -> by congruence. rewrite Himg.
  destruct (edge_open_log c (Some (MAGIC ++ encode_recs (rs0 ++ sink_recs w)))
    (rs0 ++ sink_recs w) Hc eq_refl Hok) as (s' & Hs' & He & _).
  exists s'. split; [done|]. by rewrite He, <-Hn.
Qed.
End log.

(** ** Two calls at a concrete store

    The edges 2, 1, 0 of node 1, of which 2 and 1 also share their destination,
    and an edge 4 from 4 to 5. One thread takes edge 1 out of its chains while
    another links edge 3, again from 4 to 5. *)

Section witnesses.
#[local] Existing Instances LogSink.sink LogSink.laws.
#[local] Instance edge_codec : Codec Edge := countable_codec.
#[local] Instance edge_codec_laws : CodecLaws Edge := countable_codec_laws.
Import EdgeStore.

Definition chains_ops : list EdgeOp :=
  edge_demo_ops ++ [EOpInsert 4 5 7 0 2; EOpInsert 4 5 7 0 2; EOpLink 4 NULL_EDGE NULL_EDGE].

Definition chains_store : EdgeStore LogSink.t :=
  default new (edge_exec_ops 10 edge_demo_store chains_ops).

Definition chains_calls : list ChainCall := [unlink_call 1 2 2; link_call 3 4 4].

Definition chains_schedule : list nat := [0; 1; 0; 1; 0; 0; 1; 0; 0; 0; 0]%nat.

Definition chains_done : list ChainCall * EdgeStore LogSink.t :=
  default ([], new) (run_schedule chain_step chains_schedule (chains_calls, chains_store)).

Lemma chains_ready : Forall (ready (edges chains_store)) chains_calls.
Proof.
  unfold chains_calls. apply Forall_cons; split; [|apply Forall_cons; split; [|constructor]].
  - split; [by right|by_decide|done|intros []; vm_compute members; eval_chain|done].
  - split; [by left|by_decide|done|intros []; vm_compute members; eval_chain|].
    intros [] _; by_decide.
Qed.

Lemma chains_independent : independent (edges chains_store) chains_calls.
Proof. apply independent_pair. intros []; by vm_compute. Qed.

Lemma chains_run : run_schedule chain_step chains_schedule (chains_calls, chains_store) = Some chains_done.
Proof. by vm_compute. Qed.

Lemma chains_finished : calls_finished chains_done.1.
Proof. by_decide. Qed.

Lemma concurrent_chains_serialize_witness :
  (exists ks1' s1, run_calls 10 (rev chains_calls) chains_store = Some (ks1', s1) /\
    edges chains_done.2 = edges s1) /\
  exists k1 k2, chains_done.1 = [k1; k2] /\
    chain DOut (edges chains_done.2) (k_out k1) [2; 0] /\
    chain DIn (edges chains_done.2) (k_in k2) [3; 4].
Proof.
  pose proof (run_schedule_rtc chain_step _ _ _ chains_run) as Hrun.
  rewrite (surjective_pairing chains_done) in Hrun.
  destruct (concurrent_chains_serialize chains_calls chains_store chains_done.1 chains_done.2 10
    (rev chains_calls) chains_ready chains_independent ltac:(vm_compute; lia) Hrun chains_finished
    (Permutation_swap _ _ _)) as [(ks1' & s1 & Hs1 & _ & He) Hch].
  split; [exists ks1', s1; exact (conj Hs1 He)|]. clear Hrun Hs1 He ks1' s1. revert Hch.
  generalize chains_done. intros [ks s] Hch. cbn [fst snd] in *.
  inversion Hch as [|? k1 ? ? Hk1 Hch']; subst. inversion Hch' as [|? k2 ? ? Hk2 Hnil]; subst.
  inversion Hnil; subst. exists k1, k2. split; [done|]. split; [exact (Hk1 DOut)|exact (Hk2 DIn)].
Defined.


(** The traversal from node 1 sees edge 2, then the calls get as far as the
    unlinking of edge 1 from the out-chain, and it goes on. *)
Definition walk_begun : Walker := walk_steps 1 (mkWalker DOut 2 []) chains_store.

Definition chains_half : list ChainCall * EdgeStore LogSink.t :=
  default ([], new) (run_schedule chain_step [0; 1; 0; 1; 0]%nat (chains_calls, chains_store)).

Definition walk_ended : Walker := walk_steps 3 walk_begun chains_half.2.

Lemma chains_half_run :
  run_schedule chain_step [0; 1; 0; 1; 0]%nat (chains_calls, chains_store) = Some chains_half.
Proof. by vm_compute. Qed.

Lemma concurrent_walk_witness :
  w_seen walk_ended = [2; 1; 0] /\
  (w_seen walk_ended = [2; 1; 0] \/
   exists k, k ∈ chains_calls /\ k_pc k = UnStart /\ head DOut k = 2 /\
     w_seen walk_ended = filter (fun x => x ≠ k_edge k) [2; 1; 0]).
Proof.
  split; [by vm_compute|].
  pose proof (run_schedule_rtc chain_step _ _ _ chains_half_run) as Hrun.
  rewrite (surjective_pairing chains_half) in Hrun.
  apply (concurrent_walk chains_calls chains_store DOut 2 [2; 1; 0] chains_half.1 walk_ended chains_half.2
    chains_ready chains_independent ltac:(eval_chain)); [| |by vm_compute].
  - unfold chains_calls. apply Forall_cons; split; [by right|apply Forall_cons; split; [|constructor]].
    left. apply (proj1 (Forall_forall _ [2; 1; 0])). by_decide.
  - transitivity (chains_calls, walk_begun, chains_store); [exact (reads_walk 1 _ _ _)|].
    transitivity (chains_half.1, walk_begun, chains_half.2); [exact (reads_calls _ _ _ _ walk_begun Hrun)|].
    exact (reads_walk 3 _ walk_begun _).
Defined.

(** The same calls leave a log that reads back as what they left in memory. *)
Lemma concurrent_chains_recover_witness :
  exists s', open (W := LogSink.t) balanced (Some (sink_image (sink_flush
      (default (LogSink.mk [] [] 0 0) (edge_wal chains_done.2))))) = Ok s' /\
    edges s' = edges chains_done.2.
Proof.
  pose proof (run_schedule_rtc chain_step _ _ _ chains_run) as Hrun.
  rewrite (surjective_pairing chains_done) in Hrun.
  pose proof (concurrent_chains_recover balanced None [] edge_demo_store 10 chains_ops chains_store
    chains_calls chains_done.1 chains_done.2 (default (LogSink.mk [] [] 0 0) (edge_wal chains_done.2))
    ltac:(by_decide) ltac:(by vm_compute)) as Hrec.
  specialize (Hrec ltac:(by vm_compute)).
  specialize (Hrec ltac:(by vm_compute)).
  specialize (Hrec Hrun chains_finished).
  specialize (Hrec ltac:(by vm_compute)).
  specialize (Hrec ltac:(apply rec_okb_all; by vm_compute)).
  exact Hrec.
Defined.

(** ** What a traversal does not survive

    Between two lookups it holds only the id of the next edge. When that edge is
    unlinked and deleted in the meantime the lookup fails and the traversal ends:
    edge 0 is on the chain before and after, and is not returned. *)
Definition unlinked_one : EdgeStore LogSink.t :=
  match unlink_from_chains 10 1 2 2 chains_store with Some (_, _, _, s) => s | None => new end.

Definition deleted_one : EdgeStore LogSink.t := (hard_delete 1 unlinked_one).2.

Example walk_loses_tail :
  w_cur walk_begun = 1 /\ walk_steps 5 walk_begun deleted_one = mkWalker DOut NULL_EDGE [2] /\
  out_edges 10 2 chains_store = Some [2; 1; 0] /\ out_edges 10 2 deleted_one = Some [2; 0].
Proof. by vm_compute. Qed.

(** The freed id goes to the next edge, here one from 4 to 5 that is linked in
    front of edge 4: the traversal from node 1 goes on along node 4's chain. *)
Definition reused_one : EdgeStore LogSink.t :=
  let '(id, s) := insert_edge 4 5 7 0 3 deleted_one in (link_into_chains id 4 4 s).2.

Example walk_strays :
  w_seen (walk_steps 5 walk_begun reused_one) = [2; 1; 4] /\
  out_edges 10 2 reused_one = Some [2; 0] /\ out_edges 10 1 reused_one = Some [1; 4].
Proof. by vm_compute. Qed.
End witnesses.
