(* ===== verification/EdgeIds.v ===== *)
(** * The edge allocator

    [EdgeStore] hands out ids as [NodeStore] does. This file states what its
    methods keep true of them: the invariant of [IdPool.v], with the ids the
    transactions have reserved by [alloc_id_direct]. *)

From S2P Require Export EdgeStore.

Open Scope Z_scope.

Section ids.
Context {W : Type} `{WalSink W} `{Codec Edge}.
Import EdgeStore.
Implicit Types (s : EdgeStore W) (R : gset Z) (id : Z).

(** [R] are the ids handed out by [alloc_id_direct] and not inserted yet. *)
Definition edge_ids_ok R s : Prop :=
  pool_ok (dom (edges s)) R (edge_next_id s) (edge_free_list s) /\
  edge_free_count s = wrap64 (Z.of_nat (length (edge_free_list s))).

Definition edge_reserved_after R s (op : EdgeOp) : gset Z :=
  match op with
  | EOpAlloc => R ∪ {[ (alloc_id s).1 ]}
  | EOpInsertWithId id _ _ _ _ _ => R ∖ {[ id ]}
  | _ => R
  end.

(** [insert_with_id] is for reserved ids, and for ids already in the store. *)
Definition edge_op_allowed R s (op : EdgeOp) : Prop :=
  match op with
  | EOpInsertWithId id _ _ _ _ _ => id ∈ R \/ id ∈ dom (edges s)
  | _ => True
  end.

Lemma edge_ids_ok_same R s s' :
  dom (edges s') = dom (edges s) -> same_ids s s' -> edge_ids_ok R s -> edge_ids_ok R s'.
Proof. intros Hd (Hn & Hf & Hc) [Hp Hfc]. unfold edge_ids_ok. by rewrite Hd, Hn, Hf, Hc. Qed.

Lemma edge_ids_ok_alloc R s :
  edge_ids_ok R s -> edge_next_id s < u64_max ->
  edge_ids_ok (R ∪ {[ (alloc_id s).1 ]}) (alloc_id s).2 /\
  (alloc_id s).1 ∉ dom (edges s) /\ ((alloc_id s).1 ∉ R) /\
  0 <= (alloc_id s).1 < u64_max /\ edge_next_id (alloc_id s).2 <= edge_next_id s + 1.
Proof.
  intros [Hp Hc] Hlt. unfold alloc_id, edge_ids_ok.
  destruct (edge_free_list s) as [|i fl] eqn:Hfl; simpl.
  - pose proof (pool_next _ _ _ _ Hp). apply pool_ok_fresh in Hp as (Hp & ? & ?).
    rewrite wrap64_small by (unfold u64_max in *; lia). rewrite Hfl, Hc. simpl. split_done.
  - destruct (pool_free _ _ _ _ Hp i (list_elem_of_here _ _)) as (_ & _ & ?).
    apply pool_ok_pop in Hp as (Hp & ? & ?). split_done.
    rewrite Hc. cbn [length]. unfold wrap64. rewrite Zminus_mod_idemp_l. f_equal. lia.
Qed.

Lemma edge_ids_ok_insert_with_id R s id src dst etype row tx :
  edge_ids_ok R s -> id ∈ R \/ id ∈ dom (edges s) ->
  edge_ids_ok (R ∖ {[ id ]}) (insert_with_id id src dst etype row tx s) /\
  edge_next_id (insert_with_id id src dst etype row tx s) = edge_next_id s.
Proof.
  intros [Hp Hc] Hid. unfold insert_with_id.
  destruct (wal_insert_ids id (Edge.new id src dst etype row tx)
    (set_edges (<[id := Edge.new id src dst etype row tx]> (edges s)) s)) as (Hn & Hf & Hfc).
  split; [|exact Hn]. unfold edge_ids_ok. rewrite wal_insert_edges, Hn, Hf, Hfc. simpl.
  rewrite dom_insert_L. split; [|done]. destruct Hid as [Hid|Hid]; [by apply pool_ok_insert|].
  assert (id ∉ R) as HR by (intros Hr; by destruct (pool_reserved _ _ _ _ Hp id Hr)).
  replace (R ∖ {[id]}) with R by set_solver. by apply pool_ok_same.
Qed.

Lemma insert_edge_alloc src dst etype row tx s :
  insert_edge src dst etype row tx s =
    ((alloc_id s).1, insert_with_id (alloc_id s).1 src dst etype row tx (alloc_id s).2).
Proof. unfold insert_edge. by destruct (alloc_id s). Qed.

Lemma alloc_id_edges s : edges (alloc_id s).2 = edges s.
Proof. unfold alloc_id. by destruct (edge_free_list s). Qed.

Lemma edge_ids_ok_insert R s src dst etype row tx :
  edge_ids_ok R s -> edge_next_id s < u64_max ->
  edge_ids_ok R (insert_edge src dst etype row tx s).2 /\
  edge_next_id (insert_edge src dst etype row tx s).2 <= edge_next_id s + 1.
Proof.
  intros Hok Hlt. destruct (edge_ids_ok_alloc R s Hok Hlt) as (Ha & _ & HR & _ & Hn).
  rewrite insert_edge_alloc. simpl.
  destruct (edge_ids_ok_insert_with_id _ _ (alloc_id s).1 src dst etype row tx Ha) as [Hi ->];
    [set_solver|]. split; [|done].
  by replace R with ((R ∪ {[(alloc_id s).1]}) ∖ {[(alloc_id s).1]}) by set_solver.
Qed.

Lemma link_dom id fo fi s : dom (edges (link_into_chains id fo fi s).2) = dom (edges s).
Proof.
  unfold link_into_chains, put_next. simpl. rewrite persist_edges.
  destruct (edges s !! id) as [e|] eqn:He; simpl; [|by rewrite He].
  rewrite lookup_insert_eq. simpl. rewrite !dom_insert_L. apply elem_of_dom_2 in He. set_solver.
Qed.

Lemma put_next_ids d id v s : same_ids s (put_next d id v s).
Proof. unfold put_next. by destruct (edges s !! id). Qed.

Lemma same_ids_trans s1 s2 s3 : same_ids s1 s2 -> same_ids s2 s3 -> same_ids s1 s3.
Proof. intros (? & ? & ?) (? & ? & ?). unfold same_ids. intuition congruence. Qed.

Lemma link_ids id fo fi s : same_ids s (link_into_chains id fo fi s).2.
Proof.
  unfold link_into_chains. cbn [snd]. eapply same_ids_trans; [|apply persist_ids].
  eapply same_ids_trans; apply put_next_ids.
Qed.

Lemma changes_at_most_dom pred (m m' : gmap Z Edge) : changes_at_most pred m m' -> dom m' = dom m.
Proof.
  destruct pred as [p|]; simpl; [|by intros ->]. intros (Hp%elem_of_dom & e & ->).
  rewrite dom_insert_L. set_solver.
Qed.

Lemma unlink_frame fuel id fo fi s b ho hi s' :
  unlink_from_chains fuel id fo fi s = Some (b, ho, hi, s') ->
  dom (edges s') = dom (edges s) /\ same_ids s s'.
Proof.
  unfold unlink_from_chains. destruct (edges s !! id) as [e|]; [|by intros [= _ _ _ <-]].
  destruct (unlink_dir DOut fuel id (Edge.next_out e) fo (edges s)) as [[[m1 h1] p1]|] eqn:H1';
    [|done]. cbn [mbind option_bind].
  destruct (unlink_dir DIn fuel id (Edge.next_in e) fi m1) as [[[m2 h2] p2]|] eqn:H2'; [|done].
  cbn [mbind option_bind]. intros [= _ _ _ <-].
  apply unlink_dir_changes, changes_at_most_dom in H1', H2'. rewrite !persist_pred_edges. simpl.
  split; [congruence|].
  eapply same_ids_trans; [|apply persist_pred_ids]. eapply same_ids_trans; [|apply persist_pred_ids].
  done.
Qed.

Lemma soft_delete_edge_lookup i tx s id :
  edges (soft_delete i tx s).2 !! id =
  if decide (id = i) then (fun e => Edge.mark_deleted e tx) <$> edges s !! id else edges s !! id.
Proof.
  unfold soft_delete. destruct (edges s !! i) as [e|] eqn:He; cbn [snd].
  - rewrite wal_insert_edges. simpl. case_decide as Heq; subst;
      [by rewrite lookup_insert_eq, He|by rewrite lookup_insert_ne].
  - case_decide as Heq; subst; [by rewrite He|done].
Qed.

Lemma soft_delete_frame id tx s :
  dom (edges (soft_delete id tx s).2) = dom (edges s) /\ same_ids s (soft_delete id tx s).2.
Proof.
  unfold soft_delete. destruct (edges s !! id) as [e|] eqn:He; [|done]. cbn [snd].
  rewrite wal_insert_edges. simpl. rewrite dom_insert_L. apply elem_of_dom_2 in He.
  split; [set_solver|apply (wal_insert_ids id _ (set_edges _ s))].
Qed.

Lemma edge_ids_ok_hard_delete R id s :
  edge_ids_ok R s ->
  edge_ids_ok R (hard_delete id s).2 /\ edge_next_id (hard_delete id s).2 = edge_next_id s.
Proof.
  intros [Hp Hc]. unfold hard_delete.
  assert (edges (wal_delete id s) = edges s /\ same_ids s (wal_delete id s)) as [He (Hn & Hf & Hfc)]
    by (unfold wal_delete; by destruct (edge_wal s)).
  rewrite He. destruct (edges s !! id) as [e|] eqn:Hid; cbn [snd].
  - unfold edge_ids_ok. simpl. rewrite Hn, Hf, Hfc, dom_delete_L. split; [|done].
    split; [apply pool_ok_free; [done|by apply elem_of_dom_2 in Hid]|].
    rewrite Hc, length_app. unfold wrap64. rewrite Zplus_mod_idemp_l. f_equal. simpl. lia.
  - unfold edge_ids_ok. by rewrite He, Hn, Hf, Hfc.
Qed.

(** One call: the invariant is kept and the counter moves by at most one. *)
Lemma edge_exec_op_ids R fuel s op s' :
  edge_ids_ok R s -> edge_op_allowed R s op -> edge_next_id s < u64_max ->
  edge_exec_op fuel s op = Some s' ->
  edge_ids_ok (edge_reserved_after R s op) s' /\ edge_next_id s' <= edge_next_id s + 1.
Proof.
  intros Hok Hal Hlt. destruct op; cbn [edge_exec_op edge_reserved_after].
  - intros [= <-]. destruct (edge_ids_ok_alloc R s Hok Hlt) as (? & _ & _ & _ & ?). done.
  - intros [= <-]. destruct (edge_ids_ok_insert_with_id R s id src dst etype props_row tx_id Hok Hal)
      as [? ->]. split; [done|lia].
  - intros [= <-]. by apply edge_ids_ok_insert.
  - intros Heq. pose proof (link_ids new_edge src_first_out dst_first_in s) as Hids.
    pose proof (link_dom new_edge src_first_out dst_first_in s) as Hd.
    assert (s' = (link_into_chains new_edge src_first_out dst_first_in s).2) as Hs' by congruence.
    rewrite <-Hs' in Hids, Hd. split; [by eapply edge_ids_ok_same|].
    destruct Hids as (-> & _). lia.
  - destruct (unlink_from_chains fuel edge_id src_first_out dst_first_in s)
      as [[[[b ho] hi] s1]|] eqn:Hu; [|done]. intros [= <-].
    apply unlink_frame in Hu as [Hd Hids]. cbn [snd].
    split; [by eapply edge_ids_ok_same|]. destruct Hids as (-> & _). lia.
  - intros [= <-]. destruct (soft_delete_frame id tx_id s) as [Hd Hids].
    split; [by eapply edge_ids_ok_same|]. destruct Hids as (-> & _). lia.
  - intros [= <-]. destruct (edge_ids_ok_hard_delete R id s Hok) as [? ->]. split; [done|lia].
  - intros [= <-]. unfold flush. destruct (edge_wal s); split; try done; simpl; lia.
Qed.

(** Programs that insert only under reserved ids, and the ids left reserved. *)
Fixpoint edge_ops_allowed (fuel : nat) R s (ops : list EdgeOp) : Prop :=
  match ops with
  | [] => True
  | op :: ops' => edge_op_allowed R s op /\
      forall s', edge_exec_op fuel s op = Some s' ->
        edge_ops_allowed fuel (edge_reserved_after R s op) s' ops'
  end.

Lemma edge_exec_ops_ids fuel R s ops s' :
  edge_ids_ok R s -> edge_ops_allowed fuel R s ops ->
  edge_next_id s + Z.of_nat (length ops) <= u64_max ->
  edge_exec_ops fuel s ops = Some s' ->
  exists R', edge_ids_ok R' s' /\ edge_next_id s' <= edge_next_id s + Z.of_nat (length ops).
Proof.
  revert R s. induction ops as [|op ops IH]; intros R s Hok Hal Hlt Hrun; simpl in Hrun.
  { simplify_eq. exists R. split; [done|simpl; lia]. }
  destruct Hal as [Hop Hal]. cbn [length] in Hlt |- *.
  destruct (edge_exec_op fuel s op) as [s1|] eqn:Hs1; [|done]. simpl in Hrun.
  destruct (edge_exec_op_ids R fuel s op s1 Hok Hop) as [Hok' Hn]; [lia|done|].
  destruct (IH _ _ Hok' (Hal s1 eq_refl)) as (R' & ? & ?); [lia|done|].
  exists R'. split; [done|lia].
Qed.

(** Edge ids. However the methods are called on a store that began empty,
    the ids below the counter are partitioned between the edges, the reserved
    ids and the free list; linking and unlinking move none of them; and the next
    id handed out is new, and is not the [NULL_EDGE] that ends a chain. *)
Theorem edge_ids_partition fuel ops s :
  edge_ops_allowed fuel ∅ new ops -> Z.of_nat (length ops) < u64_max ->
  edge_exec_ops fuel (new (W := W)) ops = Some s ->
  exists R, pool_ok (dom (edges s)) R (edge_next_id s) (edge_free_list s) /\
    edge_free_count s = wrap64 (Z.of_nat (length (edge_free_list s))) /\
    (alloc_id s).1 ∉ dom (edges s) ∪ R /\ (alloc_id s).1 ≠ NULL_EDGE.
Proof.
  intros Hal Hlt Hrun. destruct (edge_exec_ops_ids fuel ∅ new ops s) as (R & Hok & Hn);
    [|done|simpl; lia|done|].
  - split; [|done]. simpl. rewrite dom_empty_L. auto with lightgraph.
  - simpl in Hn. destruct (edge_ids_ok_alloc R s Hok) as (_ & ? & ? & ? & _); [lia|].
    exists R. destruct Hok as [Hp Hc]. split; [done|]. split; [done|].
    split; [set_solver|]. unfold NULL_EDGE. lia.
Qed.
End ids.

Section witnesses.
#[local] Existing Instances LogSink.sink LogSink.laws.
#[local] Instance edge_ids_codec : Codec Edge := countable_codec.

(** Two edges, linked; one is deleted and its id is handed out again. *)
Definition edge_id_ops : list EdgeOp :=
  [EOpInsert 0 1 9 0 1; EOpInsert 0 2 9 0 1; EOpLink 0 NULL_EDGE NULL_EDGE; EOpHardDelete 0; EOpAlloc].

Lemma edge_ids_partition_witness :
  exists s R, edge_exec_ops 4 (EdgeStore.new (W := LogSink.t)) edge_id_ops = Some s /\
    pool_ok (dom (edges s)) R (edge_next_id s) (edge_free_list s) /\ edge_free_list s = [].
Proof.
  assert (exists s, edge_exec_ops 4 (EdgeStore.new (W := LogSink.t)) edge_id_ops = Some s /\
    edge_free_list s = []) as (s & Hs & Hf) by (eexists; split; [vm_compute; reflexivity|reflexivity]).
  destruct (edge_ids_partition 4 edge_id_ops s ltac:(by repeat split; intros) ltac:(done) Hs)
    as (R & Hp & _).
  exists s, R. split; [exact Hs|]. split; [exact Hp|exact Hf].
Defined.
End witnesses.
