(* ===== verification/Adjacency.v ===== *)
(** * The stored graph: node heads and edge chains together

    [NodeStore] keeps the heads of a node's chains ([first_out], [first_in]),
    [EdgeStore] the links, and [link_into_chains] and [unlink_from_chains] take
    the heads from the caller and give them back. This file runs the two stores
    together under that protocol, and shows that they implement a plain list of
    edges. *)

From S2P Require Export NodeStore EdgeIds.

Open Scope Z_scope.

(** ** The protocol *)

Record GraphState (W : Type) : Type := mkGraphState {
  g_nodes : NodeStore W;
  g_edges : EdgeStore W
}.
Arguments mkGraphState {W}.
Arguments g_nodes {W}.
Arguments g_edges {W}.

Inductive GraphOp : Type :=
| GAddNode (labels : list Z) (props_row tx_id : Z)
| GAddEdge (src dst etype props_row tx_id : Z)
| GRemoveEdge (id : Z)
| GHideEdge (id tx_id : Z).

Section protocol.
Context {W : Type} `{WalSink W} `{Codec Node} `{Codec Edge}.
Implicit Types (g : GraphState W).

(** Store the heads that a call returned. *)
Definition set_heads (src dst head_out head_in : Z) (ns : NodeStore W) : NodeStore W :=
  (set_first_in dst head_in (set_first_out src head_out ns).2).2.

(** Insert the edge, link it in front of both chains, store the new heads. *)
Definition add_edge (src dst etype props_row tx_id : Z) g : GraphState W :=
  match get src (g_nodes g), get dst (g_nodes g) with
  | Some a, Some b =>
      let '(id, es) := EdgeStore.insert_edge src dst etype props_row tx_id (g_edges g) in
      let '(head_out, head_in, es') :=
        EdgeStore.link_into_chains id (Node.first_out a) (Node.first_in b) es in
      mkGraphState (set_heads src dst head_out head_in (g_nodes g)) es'
  | _, _ => g
  end.

(** Unlink, store the new heads, delete. [None]: [unlink_from_chains] runs on. *)
Definition remove_edge (id : Z) g : option (GraphState W) :=
  match EdgeStore.get id (g_edges g) with
  | None => Some g
  | Some e =>
      match get (Edge.src e) (g_nodes g), get (Edge.dst e) (g_nodes g) with
      | Some a, Some b =>
          '(_, head_out, head_in, es) ←
            EdgeStore.unlink_from_chains (S (EdgeStore.len (g_edges g))) id
              (Node.first_out a) (Node.first_in b) (g_edges g);
          Some (mkGraphState (set_heads (Edge.src e) (Edge.dst e) head_out head_in (g_nodes g))
                             (EdgeStore.hard_delete id es).2)
      | _, _ => Some g
      end
  end.

Definition graph_exec g (op : GraphOp) : option (GraphState W) :=
  match op with
  | GAddNode labels row tx => Some (mkGraphState (insert_node labels row tx (g_nodes g)).2 (g_edges g))
  | GAddEdge src dst etype row tx => Some (add_edge src dst etype row tx g)
  | GRemoveEdge id => remove_edge id g
  | GHideEdge id tx => Some (mkGraphState (g_nodes g) (EdgeStore.soft_delete id tx (g_edges g)).2)
  end.

Fixpoint graph_run g (ops : list GraphOp) : option (GraphState W) :=
  match ops with
  | [] => Some g
  | op :: ops' => g' ← graph_exec g op; graph_run g' ops'
  end.

Definition graph_new : GraphState W := mkGraphState new EdgeStore.new.
End protocol.

(** ** The specification: a set of nodes and a list of edges

    An edge is its id and its ends; the newest is first. *)

Abbreviation AbsEdge := (Z * Z * Z)%type.

Definition edge_id (e : AbsEdge) : Z := e.1.1.
Definition end_of (d : Dir) (e : AbsEdge) : Z := match d with DOut => e.1.2 | DIn => e.2 end.

Record AbsGraph : Type := mkAbsGraph {
  abs_nodes : gset Z;
  abs_edges : list AbsEdge
}.

(** The edges that leave (or enter) [v], newest first. *)
Definition adjacent (d : Dir) (v : Z) (es : list AbsEdge) : list Z :=
  map edge_id (filter (fun e => end_of d e = v) es).

Inductive spec_step (A : AbsGraph) : GraphOp -> AbsGraph -> Prop :=
| spec_add_node v labels row tx :
    v ∉ abs_nodes A ->
    spec_step A (GAddNode labels row tx) (mkAbsGraph ({[v]} ∪ abs_nodes A) (abs_edges A))
| spec_add_edge id src dst etype row tx :
    src ∈ abs_nodes A -> dst ∈ abs_nodes A -> id ∉ map edge_id (abs_edges A) ->
    spec_step A (GAddEdge src dst etype row tx)
      (mkAbsGraph (abs_nodes A) ((id, src, dst) :: abs_edges A))
| spec_add_nothing src dst etype row tx :
    src ∉ abs_nodes A \/ dst ∉ abs_nodes A -> spec_step A (GAddEdge src dst etype row tx) A
| spec_remove_edge id :
    spec_step A (GRemoveEdge id)
      (mkAbsGraph (abs_nodes A) (filter (fun e => edge_id e ≠ id) (abs_edges A)))
| spec_hide_edge id tx : spec_step A (GHideEdge id tx) A.

Inductive spec_steps : AbsGraph -> list GraphOp -> AbsGraph -> Prop :=
| spec_nil A : spec_steps A [] A
| spec_cons A B C op ops : spec_step A op B -> spec_steps B ops C -> spec_steps A (op :: ops) C.

#[export] Hint Constructors spec_step spec_steps : lightgraph.

Section adjacent.
Implicit Types (es : list AbsEdge) (d : Dir).

Lemma adjacent_cons d v e es :
  adjacent d v (e :: es) = if decide (end_of d e = v) then edge_id e :: adjacent d v es
                           else adjacent d v es.
Proof. unfold adjacent. rewrite filter_cons. by case_decide. Qed.

Lemma elem_of_adjacent d v id es :
  id ∈ adjacent d v es <-> exists e, e ∈ es /\ edge_id e = id /\ end_of d e = v.
Proof.
  unfold adjacent. rewrite list_elem_of_fmap. setoid_rewrite list_elem_of_filter. naive_solver.
Qed.

Lemma adjacent_remove d v id es :
  adjacent d v (filter (fun e => edge_id e ≠ id) es) = filter (fun x => x ≠ id) (adjacent d v es).
Proof.
  induction es as [|e es IH]; [done|]. rewrite filter_cons, (adjacent_cons d v e es).
  destruct (decide (edge_id e ≠ id)) as [Hne|Heq].
  - rewrite adjacent_cons, IH. case_decide; [|done]. by rewrite filter_cons_True.
  - rewrite IH. case_decide; [|done]. by rewrite filter_cons_False.
Qed.

(** An edge is on no other node's list. *)
Lemma adjacent_disjoint d v v' es id :
  NoDup (map edge_id es) -> v ≠ v' -> id ∈ adjacent d v es -> id ∉ adjacent d v' es.
Proof.
  rewrite !elem_of_adjacent. intros Hnd Hne (e & He & Hid & Hv) (e' & He' & Hid' & Hv').
  apply Hne. rewrite <-Hv, <-Hv'. f_equal.
  apply list_elem_of_lookup in He as [i Hi]. apply list_elem_of_lookup in He' as [j Hj].
  assert (i = j) as ->; [|congruence]. apply (NoDup_lookup (map edge_id es) i j id Hnd).
  - change (map edge_id es) with (edge_id <$> es). rewrite list_lookup_fmap, Hi. by rewrite <-Hid.
  - change (map edge_id es) with (edge_id <$> es). rewrite list_lookup_fmap, Hj. by rewrite <-Hid'.
Qed.
End adjacent.

(** ** The refinement *)

Definition head (d : Dir) (n : Node) : Z :=
  match d with DOut => Node.first_out n | DIn => Node.first_in n end.

Section refinement.
Context {W : Type} `{WalSink W} `{Codec Node} `{Codec Edge}.
Import EdgeStore.
Implicit Types (g : GraphState W) (A : AbsGraph) (ns : NodeStore W) (es : EdgeStore W) (d : Dir).

(** The stores hold the abstract graph: the same nodes, the same edges with the
    same ends, and from each node's heads the chains of its adjacent edges. *)
Record agree g A : Prop := {
  ag_nodes : dom (nodes (g_nodes g)) = abs_nodes A;
  ag_nodup : NoDup (map edge_id (abs_edges A));
  ag_edges id : is_Some (edges (g_edges g) !! id) <-> id ∈ map edge_id (abs_edges A);
  ag_ends e : e ∈ abs_edges A -> forall d, end_of d e ∈ abs_nodes A;
  ag_attrs e r : e ∈ abs_edges A -> edges (g_edges g) !! edge_id e = Some r ->
    (Edge.src r, Edge.dst r) = (end_of DOut e, end_of DIn e);
  ag_chain d v n : nodes (g_nodes g) !! v = Some n ->
    chain d (edges (g_edges g)) (head d n) (adjacent d v (abs_edges A));
  ag_node_ids : ids_ok ∅ (g_nodes g);
  ag_edge_ids : edge_ids_ok ∅ (g_edges g)
}.

(** How far the counters may have come. *)
Definition counters_below (b : Z) g : Prop := next_id (g_nodes g) <= b /\ edge_next_id (g_edges g) <= b.

Lemma set_heads_lookup src dst ho hi ns v n :
  nodes (set_heads src dst ho hi ns) !! v = Some n ->
  exists n0, nodes ns !! v = Some n0 /\
    head DOut n = (if decide (v = src) then ho else head DOut n0) /\
    head DIn n = (if decide (v = dst) then hi else head DIn n0).
Proof.
  unfold set_heads, set_first_in, set_first_out. rewrite !update_node_lookup.
  destruct (decide (v = dst)) as [->|Hd].
  - destruct (decide (dst = src)) as [->|Hd].
    + destruct (nodes ns !! src) as [n0|]; intros [= <-]. by exists n0.
    + destruct (nodes ns !! dst) as [n0|]; intros [= <-]. by exists n0.
  - destruct (decide (v = src)) as [->|Hs]; [|by intros ->; exists n].
    destruct (nodes ns !! src) as [n0|]; intros [= <-]. by exists n0.
Qed.

Lemma update_node_dom f id ns : dom (nodes (update_node f id ns).2) = dom (nodes ns).
Proof.
  apply set_eq. intros i. rewrite !elem_of_dom, update_node_lookup.
  case_decide as Hi; [subst|done]. destruct (nodes ns !! id); simpl; [|done]. by split.
Qed.

Lemma set_heads_frame src dst ho hi ns :
  dom (nodes (set_heads src dst ho hi ns)) = dom (nodes ns) /\
  next_id (set_heads src dst ho hi ns) = next_id ns.
Proof.
  unfold set_heads, set_first_in, set_first_out. by rewrite !update_node_dom, !update_node_next.
Qed.

Lemma set_heads_ids R src dst ho hi ns : ids_ok R ns -> ids_ok R (set_heads src dst ho hi ns).
Proof. intros Hok. by apply ids_ok_update, ids_ok_update. Qed.

Lemma ag_edge_null g A id : agree g A -> edge_next_id (g_edges g) <= u64_max ->
  is_Some (edges (g_edges g) !! id) -> id ≠ NULL_EDGE.
Proof.
  intros Hag Hle Hid%elem_of_dom. destruct (ag_edge_ids _ _ Hag) as [Hp _].
  apply (pool_dom _ _ _ _ Hp) in Hid. unfold NULL_EDGE. lia.
Qed.

Lemma agree_new : agree graph_new (mkAbsGraph ∅ []).
Proof.
  split; simpl; try done.
  - constructor.
  - intros id. rewrite lookup_empty. split; [by intros []|by intros ?%elem_of_nil].
  - by intros e ?%elem_of_nil.
  - split; [|done]. simpl. rewrite dom_empty_L. auto with lightgraph.
  - split; [|done]. simpl. rewrite dom_empty_L. auto with lightgraph.
Qed.

Lemma insert_edge_edges src dst etype row tx es :
  edges (insert_edge src dst etype row tx es).2 =
  <[ (alloc_id es).1 := Edge.new (alloc_id es).1 src dst etype row tx ]> (edges es).
Proof.
  rewrite insert_edge_alloc. simpl. unfold insert_with_id. rewrite wal_insert_edges. simpl.
  by rewrite alloc_id_edges.
Qed.

(** A chain of edges of the store does not see a new edge. *)
Lemma chain_fresh d (m : gmap Z Edge) h l i e :
  m !! i = None -> chain d m h l -> chain d (<[i := e]> m) h l /\ i ∉ l.
Proof.
  intros Hi Hc. assert (i ∉ l) as Hni.
  { intros Hin. apply (chain_elem d m h) in Hin as [_ [? ?]]; [congruence|done]. }
  split; [|done]. apply (chain_frame d m); [|done]. intros x Hx.
  rewrite lookup_insert_ne by (by intros ->). done.
Qed.

Lemma agree_add_node g A labels row tx :
  agree g A -> next_id (g_nodes g) < u64_max ->
  let g' := mkGraphState (insert_node labels row tx (g_nodes g)).2 (g_edges g) in
  agree g' (mkAbsGraph ({[ (NodeStore.alloc_id (g_nodes g)).1 ]} ∪ abs_nodes A) (abs_edges A)) /\
  (NodeStore.alloc_id (g_nodes g)).1 ∉ abs_nodes A.
Proof.
  intros Hag Hlt g'. destruct (ids_ok_alloc ∅ _ (ag_node_ids _ _ Hag) Hlt) as (_ & Hfresh & _).
  set (v := (NodeStore.alloc_id (g_nodes g)).1) in *.
  rewrite (ag_nodes _ _ Hag) in Hfresh. split; [|done]. split; simpl.
  - rewrite insert_node_nodes, dom_insert_L. fold v. by rewrite (ag_nodes _ _ Hag).
  - apply Hag.
  - apply Hag.
  - intros e He d. apply elem_of_union_r. by eapply ag_ends.
  - apply (ag_attrs _ _ Hag).
  - intros d x n. rewrite insert_node_nodes. fold v. destruct (decide (x = v)) as [->|Hne].
    + rewrite lookup_insert_eq. intros [= <-].
      replace (adjacent d v (abs_edges A)) with (@nil Z); [destruct d; constructor|].
      symmetry. apply elem_of_nil_inv. intros id (e & He & _ & Hv)%elem_of_adjacent.
      apply Hfresh. rewrite <-Hv. by apply (ag_ends _ _ Hag).
    + rewrite lookup_insert_ne by done. apply (ag_chain _ _ Hag).
  - by apply ids_ok_insert_node; [apply Hag|].
  - apply Hag.
Qed.

Lemma ag_get g A v : agree g A -> v ∈ abs_nodes A -> exists n, NodeStore.get v (g_nodes g) = Some n.
Proof. intros Hag. rewrite <-(ag_nodes _ _ Hag). by intros ?%elem_of_dom. Qed.

Lemma ag_get_none g A v : agree g A -> NodeStore.get v (g_nodes g) = None -> v ∉ abs_nodes A.
Proof. intros Hag. rewrite <-(ag_nodes _ _ Hag). intros Hn. by apply not_elem_of_dom. Qed.

(** The store after an edge was inserted and linked in front of both chains. *)
Definition linked (src dst etype row tx : Z) (a b : Node) es : EdgeStore W :=
  let '(id, es1) := insert_edge src dst etype row tx es in
  (link_into_chains id (Node.first_out a) (Node.first_in b) es1).2.

Lemma linked_edges src dst etype row tx a b es :
  edges (linked src dst etype row tx a b es) =
  <[ (alloc_id es).1 := set_next DIn (Node.first_in b) (set_next DOut (Node.first_out a)
       (Edge.new (alloc_id es).1 src dst etype row tx)) ]> (edges es).
Proof.
  unfold linked. pose proof (insert_edge_edges src dst etype row tx es) as Hi.
  rewrite insert_edge_alloc in Hi |- *. cbn [snd] in Hi.
  rewrite (link_edges _ _ _ _ (Edge.new (alloc_id es).1 src dst etype row tx)), Hi;
    [apply insert_insert_eq|]. rewrite Hi. apply lookup_insert_eq.
Qed.

Lemma linked_ids src dst etype row tx a b es :
  edge_ids_ok ∅ es -> edge_next_id es < u64_max ->
  edge_ids_ok ∅ (linked src dst etype row tx a b es) /\
  edge_next_id (linked src dst etype row tx a b es) <= edge_next_id es + 1.
Proof.
  intros Hok Hlt. destruct (edge_ids_ok_insert ∅ es src dst etype row tx Hok Hlt) as [Hi Hn].
  unfold linked. rewrite insert_edge_alloc in Hi, Hn |- *. cbn [snd] in Hi, Hn.
  set (es1 := insert_with_id _ _ _ _ _ _ _) in *.
  pose proof (link_ids (alloc_id es).1 (Node.first_out a) (Node.first_in b) es1) as Hids.
  split; [eapply edge_ids_ok_same; [apply link_dom|exact Hids|done]|]. by destruct Hids as (-> & _).
Qed.

(** A fresh edge, linked in front of the chains of its ends. *)
Lemma linked_chain g A src dst etype row tx a b d v n :
  agree g A -> edge_next_id (g_edges g) < u64_max ->
  nodes (g_nodes g) !! src = Some a -> nodes (g_nodes g) !! dst = Some b ->
  nodes (g_nodes g) !! v = Some n ->
  let e := ((alloc_id (g_edges g)).1, src, dst) in
  chain d (edges (linked src dst etype row tx a b (g_edges g)))
    (if decide (v = end_of d e) then edge_id e else head d n) (adjacent d v (e :: abs_edges A)).
Proof.
  intros Hag Hlt Ha Hb Hv e. rewrite linked_edges.
  destruct (edge_ids_ok_alloc ∅ _ (ag_edge_ids _ _ Hag) Hlt) as (_ & Hfresh & _ & Hid & _).
  apply not_elem_of_dom in Hfresh. pose proof (ag_chain _ _ Hag d v n Hv) as Hc.
  rewrite adjacent_cons. subst e. cbn [edge_id fst snd] in *.
  set (id := (alloc_id (g_edges g)).1) in *.
  destruct (decide (v = _)) as [->|Hne].
  - rewrite decide_True by done.
    eapply chain_cons; [unfold NULL_EDGE; lia|apply lookup_insert_eq|].
    apply chain_fresh; [done|].
    destruct d; simpl in Hv, Hc |- *; simplify_eq; exact Hc.
  - rewrite decide_False by done. by apply chain_fresh.
Qed.

Lemma add_edge_linked g src dst etype row tx a b :
  NodeStore.get src (g_nodes g) = Some a -> NodeStore.get dst (g_nodes g) = Some b ->
  add_edge src dst etype row tx g =
  mkGraphState (set_heads src dst (alloc_id (g_edges g)).1 (alloc_id (g_edges g)).1 (g_nodes g))
    (linked src dst etype row tx a b (g_edges g)).
Proof. intros Ha Hb. unfold add_edge, linked. rewrite Ha, Hb, insert_edge_alloc. done. Qed.

Lemma agree_add_edge g A src dst etype row tx a b :
  agree g A -> edge_next_id (g_edges g) < u64_max ->
  NodeStore.get src (g_nodes g) = Some a -> NodeStore.get dst (g_nodes g) = Some b ->
  let id := (alloc_id (g_edges g)).1 in
  agree (add_edge src dst etype row tx g) (mkAbsGraph (abs_nodes A) ((id, src, dst) :: abs_edges A)) /\
  id ∉ map edge_id (abs_edges A).
Proof.
  intros Hag Hlt Ha Hb id. rewrite (add_edge_linked _ _ _ _ _ _ a b Ha Hb). fold id.
  destruct (edge_ids_ok_alloc ∅ _ (ag_edge_ids _ _ Hag) Hlt) as (_ & Hfresh & _).
  fold id in Hfresh. apply not_elem_of_dom in Hfresh.
  assert (id ∉ map edge_id (abs_edges A)) as Hnew
    by (rewrite <-(ag_edges _ _ Hag), Hfresh; by intros []).
  split; [|done]. split; cbn [g_nodes g_edges abs_nodes abs_edges].
  - rewrite (proj1 (set_heads_frame _ _ _ _ _)). apply Hag.
  - simpl. constructor; [done|apply Hag].
  - intros x. rewrite linked_edges. fold id. cbn [map edge_id fst]. rewrite elem_of_cons.
    rewrite lookup_insert_is_Some', (ag_edges _ _ Hag). naive_solver.
  - intros e [->|He]%elem_of_cons d; [|by apply (ag_ends _ _ Hag)].
    rewrite <-(ag_nodes _ _ Hag). destruct d; simpl; by eapply elem_of_dom_2.
  - intros e r. rewrite linked_edges. fold id. intros [->|He]%elem_of_cons Hr.
    + rewrite lookup_insert_eq in Hr. by injection Hr as <-.
    + rewrite lookup_insert_ne in Hr; [by apply (ag_attrs _ _ Hag)|].
      intros Heq. apply Hnew. rewrite Heq. by apply list_elem_of_fmap_2.
  - intros d v n (n0 & Hn0 & Ho & Hi)%set_heads_lookup.
    pose proof (linked_chain g A src dst etype row tx a b d v n0 Hag Hlt Ha Hb Hn0) as Hc.
    cbn zeta in Hc. fold id in Hc. by destruct d; simpl in *; rewrite ?Ho, ?Hi.
  - by apply set_heads_ids, Hag.
  - by apply linked_ids; [apply Hag|].
Qed.

Lemma filter_ids_absent id (l : list AbsEdge) :
  id ∉ map edge_id l -> filter (fun e => edge_id e ≠ id) l = l.
Proof.
  induction l as [|e l IH]; [done|]. simpl. intros [Hne Hl]%not_elem_of_cons.
  rewrite filter_cons_True by done. by rewrite IH.
Qed.

Lemma ag_find g A id r :
  agree g A -> edges (g_edges g) !! id = Some r -> (id, Edge.src r, Edge.dst r) ∈ abs_edges A.
Proof.
  intros Hag Hr. assert (id ∈ map edge_id (abs_edges A)) as Hin by (rewrite <-(ag_edges _ _ Hag), Hr; done).
  apply list_elem_of_fmap in Hin as ([[i s] t] & -> & He).
  pose proof (ag_attrs _ _ Hag _ r He Hr) as Heq. simpl in Heq. by injection Heq as -> ->.
Qed.

(** A node's chain after [id] was unlinked from the chains of its own ends and
    deleted. *)
Lemma unlinked_chain g A id r es' ho hi d v n :
  agree g A -> edges (g_edges g) !! id = Some r ->
  let e := (id, Edge.src r, Edge.dst r) in
  let h d := match d with DOut => ho | DIn => hi end in
  (forall d, chain d (edges es') (h d)
     (filter (fun x => x ≠ id) (adjacent d (end_of d e) (abs_edges A)))) ->
  (forall d h l, (forall x, x ∈ adjacent d (end_of d e) (abs_edges A) -> x ∉ l) ->
     chain d (edges (g_edges g)) h l -> chain d (edges es') h l) ->
  nodes (g_nodes g) !! v = Some n ->
  chain d (delete id (edges es')) (if decide (v = end_of d e) then h d else head d n)
    (adjacent d v (filter (fun e => edge_id e ≠ id) (abs_edges A))).
Proof.
  intros Hag Hr e h Hends Hothers Hv. pose proof (ag_find g A id r Hag Hr) as He.
  rewrite adjacent_remove.
  assert (forall h l, chain d (edges es') h (filter (fun x => x ≠ id) l) ->
    chain d (delete id (edges es')) h (filter (fun x => x ≠ id) l)) as Hframe.
  { intros h' l. apply chain_frame. intros x [Hx _]%list_elem_of_filter.
    by rewrite lookup_delete_ne. }
  apply Hframe. destruct (decide (v = _)) as [->|Hne]; [apply Hends|].
  assert (forall x, x ∈ adjacent d (end_of d e) (abs_edges A) -> x ∉ adjacent d v (abs_edges A))
    as Hdisj by (intros x; by apply adjacent_disjoint; [apply Hag|]).
  rewrite filter_absent.
  - apply Hothers; [done|]. by apply (ag_chain _ _ Hag).
  - apply Hdisj. rewrite elem_of_adjacent. by exists e.
Qed.

Lemma agree_remove_edge g A id :
  agree g A -> edge_next_id (g_edges g) <= u64_max ->
  exists g', remove_edge id g = Some g' /\
    agree g' (mkAbsGraph (abs_nodes A) (filter (fun e => edge_id e ≠ id) (abs_edges A))) /\
    next_id (g_nodes g') = next_id (g_nodes g) /\
    edge_next_id (g_edges g') = edge_next_id (g_edges g).
Proof.
  intros Hag Hle. unfold remove_edge, get. destruct (edges (g_edges g) !! id) as [r|] eqn:Hr.
  2:{ exists g. split; [done|]. split; [|done].
      rewrite filter_ids_absent by (rewrite <-(ag_edges _ _ Hag), Hr; by intros []).
      by destruct A. }
  pose proof (ag_find g A id r Hag Hr) as He. set (e := (id, Edge.src r, Edge.dst r)) in *.
  destruct (ag_get g A (Edge.src r) Hag) as [a Ha]; [by apply (ag_ends _ _ Hag e He DOut)|].
  destruct (ag_get g A (Edge.dst r) Hag) as [b Hb]; [by apply (ag_ends _ _ Hag e He DIn)|].
  rewrite Ha, Hb.
  destruct (unlink_chains (g_edges g) id r (Node.first_out a) (Node.first_in b)
    (adjacent DOut (Edge.src r) (abs_edges A)) (adjacent DIn (Edge.dst r) (abs_edges A))
    (S (len (g_edges g))) Hr) as (ho & hi & es' & Hu & Hco & Hci & Hoo & Hoi & Hdom & Hattr & Hids).
  { by eapply ag_edge_null. }
  { by apply (ag_chain _ _ Hag DOut). }
  { by apply (ag_chain _ _ Hag DIn). }
  { lia. }
  rewrite Hu. cbn [mbind option_bind]. eexists. split; [done|].
  pose proof (edge_ids_ok_same ∅ _ _ Hdom Hids (ag_edge_ids _ _ Hag)) as Hok'.
  destruct (edge_ids_ok_hard_delete ∅ id es' Hok') as [Hok2 Hnx].
  split; [|simpl; rewrite Hnx, (proj2 (set_heads_frame _ _ _ _ _)); by destruct Hids as (-> & _)].
  split; cbn [g_nodes g_edges abs_nodes abs_edges]; rewrite ?hard_delete_edges.
  - rewrite (proj1 (set_heads_frame _ _ _ _ _)). apply Hag.
  - eapply sublist_NoDup; [apply (ag_nodup _ _ Hag)|]. apply fmap_sublist, sublist_filter.
  - intros x. rewrite lookup_delete_is_Some, <-elem_of_dom, Hdom, elem_of_dom, (ag_edges _ _ Hag).
    change (map edge_id) with (fmap edge_id (M := list)). rewrite !list_elem_of_fmap.
    setoid_rewrite list_elem_of_filter. naive_solver.
  - intros x [_ Hx]%list_elem_of_filter. by apply (ag_ends _ _ Hag).
  - intros x r' [Hne Hx]%list_elem_of_filter. rewrite lookup_delete_ne by done. intros Hr'.
    pose proof (Hattr (edge_id x)) as Hat. rewrite Hr' in Hat.
    destruct (edges (g_edges g) !! edge_id x) as [r0|] eqn:Hr0; [|done].
    rewrite <-(ag_attrs _ _ Hag x r0 Hx Hr0). injection Hat as _ -> -> _. done.
  - intros d v n (n0 & Hn0 & Ho & Hi)%set_heads_lookup.
    assert (Hc := fun d => unlinked_chain g A id r es' ho hi d v n0 Hag Hr). fold e in Hc. cbn zeta in Hc.
    assert (Hd := Hc d). destruct d; [rewrite Ho|rewrite Hi]; (apply Hd; [by intros []| |done]);
      intros []; [apply Hoo|apply Hoi|apply Hoo|apply Hoi].
  - by apply set_heads_ids, Hag.
  - done.
Qed.

Lemma agree_hide_edge g A id tx :
  agree g A -> agree (mkGraphState (g_nodes g) (soft_delete id tx (g_edges g)).2) A.
Proof.
  intros Hag. destruct (soft_delete_frame id tx (g_edges g)) as [Hdom Hids].
  split; cbn [g_nodes g_edges]; try apply Hag.
  - intros x. rewrite <-elem_of_dom, Hdom, elem_of_dom. apply Hag.
  - intros e r He. rewrite soft_delete_edge_lookup. case_decide;
      (destruct (edges (g_edges g) !! edge_id e) as [r0|] eqn:Hr; [|done]);
      rewrite <-(ag_attrs _ _ Hag e r0 He Hr); by intros [= <-].
  - intros d v n Hn. eapply chain_frame; [|by apply (ag_chain _ _ Hag)]. intros x _.
    rewrite soft_delete_edge_lookup. case_decide; [|done].
    by destruct (edges (g_edges g) !! x), d.
  - eapply edge_ids_ok_same; [done|done|apply Hag].
Qed.

(** One call: it returns, and the specification has a step for it. *)
Lemma graph_exec_agree g A op b :
  agree g A -> counters_below b g -> b < u64_max ->
  exists g' B, graph_exec g op = Some g' /\ spec_step A op B /\ agree g' B /\
    counters_below (b + 1) g'.
Proof.
  intros Hag [Hn He] Hb. destruct op as [labels row tx|src dst etype row tx|id|id tx]; cbn [graph_exec].
  - destruct (agree_add_node g A labels row tx Hag) as [Hag' Hfresh]; [lia|].
    eexists _, _. split; [done|]. split; [by constructor|]. split; [exact Hag'|].
    split; simpl; [|lia]. rewrite insert_node_alloc.
    destruct (ids_ok_alloc ∅ _ (ag_node_ids _ _ Hag)) as (_ & _ & _ & ?); [lia|].
    unfold NodeStore.insert_with_id. simpl.
    destruct (wal_insert_frame (NodeStore.alloc_id (g_nodes g)).1
      (Node.new (NodeStore.alloc_id (g_nodes g)).1 labels row tx)
      (insert_in_memory (NodeStore.alloc_id (g_nodes g)).1
        (Node.new (NodeStore.alloc_id (g_nodes g)).1 labels row tx)
        (NodeStore.alloc_id (g_nodes g)).2)) as (_ & -> & _). simpl. lia.
  - destruct (NodeStore.get src (g_nodes g)) as [a|] eqn:Ha;
      [destruct (NodeStore.get dst (g_nodes g)) as [c|] eqn:Hc|].
    + destruct (agree_add_edge g A src dst etype row tx a c Hag ltac:(lia) Ha Hc) as [Hag' Hfresh].
      eexists _, _. split; [done|]. split; [|split; [exact Hag'|]].
      * constructor; [| |done]; rewrite <-(ag_nodes _ _ Hag); by eapply elem_of_dom_2.
      * rewrite (add_edge_linked _ _ _ _ _ _ a c Ha Hc). split; simpl.
        -- rewrite (proj2 (set_heads_frame _ _ _ _ _)). lia.
        -- destruct (linked_ids src dst etype row tx a c (g_edges g) (ag_edge_ids _ _ Hag)); lia.
    + exists g, A. unfold add_edge. rewrite Ha, Hc. split; [done|].
      split; [constructor; right; by eapply ag_get_none|]. split; [done|split; lia].
    + exists g, A. unfold add_edge. rewrite Ha. split; [done|].
      split; [constructor; left; by eapply ag_get_none|]. split; [done|split; lia].
  - destruct (agree_remove_edge g A id Hag) as (g' & Hrun & Hag' & Hn' & He'); [lia|].
    eexists _, _. split; [exact Hrun|]. split; [constructor|]. split; [exact Hag'|].
    split; [rewrite Hn'|rewrite He']; lia.
  - eexists _, A. split; [done|]. split; [constructor|].
    split; [by apply agree_hide_edge|]. destruct (soft_delete_frame id tx (g_edges g)) as [_ (Hi & _)].
    split; simpl; [|rewrite Hi]; lia.
Qed.

Lemma graph_run_agree g A ops b :
  agree g A -> counters_below b g -> b + Z.of_nat (length ops) <= u64_max ->
  exists g' B, graph_run g ops = Some g' /\ spec_steps A ops B /\ agree g' B.
Proof.
  revert g A b. induction ops as [|op ops IH]; intros g A b Hag Hc Hb; [eauto with lightgraph|].
  cbn [length graph_run] in Hb |- *.
  destruct (graph_exec_agree g A op b Hag Hc) as (g1 & A1 & Hrun & Hstep & Hag1 & Hc1); [lia|].
  destruct (IH g1 A1 (b + 1) Hag1 Hc1) as (g2 & A2 & Hrun2 & Hsteps & Hag2); [lia|].
  exists g2, A2. rewrite Hrun. eauto with lightgraph.
Qed.

(** C6: the two stores implement a graph. Any sequence of node insertions,
    edge insertions that are linked, and removals that unlink before they delete
    returns, and does what the same sequence does to a set of nodes and a list
    of edges: afterwards the nodes are the same, the edge map has exactly the
    edges of the list with their ends, and from every node the two traversals
    give the edges that leave it and that enter it, newest first. *)
Theorem graph_refines ops :
  Z.of_nat (length ops) < u64_max ->
  exists g A, graph_run (graph_new (W := W)) ops = Some g /\ spec_steps (mkAbsGraph ∅ []) ops A /\
    dom (nodes (g_nodes g)) = abs_nodes A /\
    (forall id src dst, (id, src, dst) ∈ abs_edges A <->
       exists r, get id (g_edges g) = Some r /\ Edge.src r = src /\ Edge.dst r = dst) /\
    forall v n fuel, NodeStore.get v (g_nodes g) = Some n -> (len (g_edges g) < fuel)%nat ->
      out_edges fuel (Node.first_out n) (g_edges g) = Some (adjacent DOut v (abs_edges A)) /\
      in_edges fuel (Node.first_in n) (g_edges g) = Some (adjacent DIn v (abs_edges A)).
Proof.
  intros Hlen. destruct (graph_run_agree graph_new _ ops 0 agree_new) as (g & A & Hrun & Hsteps & Hag);
    [by split|lia|].
  exists g, A. split; [done|]. split; [done|]. split; [apply Hag|]. split.
  - intros id src dst. split.
    + intros He. destruct (proj2 (ag_edges _ _ Hag id)) as [r Hr].
      { apply list_elem_of_fmap. by exists (id, src, dst). }
      exists r. split; [done|]. pose proof (ag_attrs _ _ Hag _ r He Hr) as Heq. by injection Heq.
    + intros (r & Hr & <- & <-). by apply (ag_find _ _ _ _ Hag).
  - intros v n fuel Hv Hf. unfold len in Hf.
    pose proof (ag_chain _ _ Hag DOut v n Hv) as Ho. pose proof (ag_chain _ _ Hag DIn v n Hv) as Hi.
    pose proof (chain_length _ _ _ _ Ho). pose proof (chain_length _ _ _ _ Hi).
    split; (apply walk_chain; [done|lia]).
Qed.
End refinement.

Section witnesses.
#[local] Existing Instances LogSink.sink LogSink.laws.
#[local] Instance adjacency_node_codec : Codec Node := countable_codec.
#[local] Instance adjacency_edge_codec : Codec Edge := countable_codec.

(** Two nodes, an edge each way and a loop; the middle edge is removed. *)
Definition graph_demo_ops : list GraphOp :=
  [GAddNode [7] 0 1; GAddNode [] 0 1; GAddEdge 0 1 9 0 1; GAddEdge 1 0 9 0 1; GAddEdge 0 0 9 0 1;
   GAddEdge 0 1 8 0 1; GRemoveEdge 2; GHideEdge 0 3].

Lemma graph_refines_witness :
  exists g A n, graph_run (graph_new (W := LogSink.t)) graph_demo_ops = Some g /\
    spec_steps (mkAbsGraph ∅ []) graph_demo_ops A /\ NodeStore.get 0 (g_nodes g) = Some n /\
    EdgeStore.out_edges 4 (Node.first_out n) (g_edges g) = Some (adjacent DOut 0 (abs_edges A)) /\
    EdgeStore.out_edges 4 (Node.first_out n) (g_edges g) = Some [3; 0].
Proof.
  destruct (graph_refines (W := LogSink.t) graph_demo_ops ltac:(done))
    as (g & A & Hrun & Hsteps & _ & _ & Hwalk).
  assert (exists n, NodeStore.get 0 (g_nodes g) = Some n /\ EdgeStore.len (g_edges g) = 3%nat /\
    EdgeStore.out_edges 4 (Node.first_out n) (g_edges g) = Some [3; 0]) as (n & Hn & Hl & Ho).
  { assert (Some g = graph_run (graph_new (W := LogSink.t)) graph_demo_ops) as Hg by done.
    vm_compute in Hg. injection Hg as ->. eexists. split_done. }
  destruct (Hwalk 0 n 4%nat Hn) as [Hw _]; [rewrite Hl; lia|].
  exists g, A, n. split_done.
Defined.
End witnesses.
