(* ===== verification/NodeThreads.v ===== *)
(** * The node store under several threads

    The methods of [node_store.rs] that allocate, insert, delete and compact, as
    programs that make one access to the store's atomics, queue, map or log per
    step, interleaved in any way: ids are never given twice, the counters are
    right when nobody is in between, and what the log has to do with the memory
    while calls are under way. The edge store allocates in the same way. *)

From S2P Require Export NodeStore Threads.

Open Scope Z_scope.

(** ** Calls in progress *)

(** Where a call is. An allocation that is part of [insert_node], or of a
    transaction that reserves the id now and calls [insert_with_id] when it
    commits, carries the node's fields; one that is not ends with the id reserved
    for good. [rest] is what [compact] still has to delete; while it collects,
    [todo] are the keys its iterator has before it. The iterator is taken to go
    over the keys the map has when it is made; the theorems below start
    compactions with any keys. *)
Inductive NodePc : Type :=
| NStart (op : NodeOp)
| NPopped (id : Z) (ins : option (list Z * Z * Z))
| NFresh (ins : option (list Z * Z * Z))
| NReserved (id : Z)
| NInsert (id : Z) (n : Node)
| NCount (id : Z) (n : Node)
| NLog (id : Z) (n : Node)
| NDelete (id : Z) (rest : list Z)
| NRemove (id : Z) (rest : list Z)
| NPush (id : Z) (rest : list Z)
| NAddFree (rest : list Z)
| NCollect (oldest_active_tx : Z) (todo found : list Z)
| NDone (r : option Z).

(** [alloc_id] has its id. *)
Definition allocated (id : Z) (ins : option (list Z * Z * Z)) : NodePc :=
  match ins with
  | Some (labels, props_row, tx_id) => NInsert id (Node.new id labels props_row tx_id)
  | None => NReserved id
  end.

(** [for id in to_remove { self.hard_delete(id); }] *)
Definition delete_next (rest : list Z) : NodePc :=
  match rest with [] => NDone None | id :: rest' => NDelete id rest' end.

Section steps.
Context {W : Type} `{WalSink W} `{Codec Node}.
Implicit Types (s : NodeStore W) (k : NodePc).

Definition set_free_list (fl : list Z) s : NodeStore W :=
  {| nodes := nodes s; next_id := next_id s; free_list := fl; free_count := free_count s;
     total_ever := total_ever s; wal := wal s |}.

Definition set_free_count (c : Z) s : NodeStore W :=
  {| nodes := nodes s; next_id := next_id s; free_list := free_list s; free_count := c;
     total_ever := total_ever s; wal := wal s |}.

(** [self.free_list.pop()] *)
Definition pop_free (ins : option (list Z * Z * Z)) s : NodePc * NodeStore W :=
  match free_list s with
  | id :: fl => (NPopped id ins, set_free_list fl s)
  | [] => (NFresh ins, s)
  end.

Definition node_step k s : option (NodePc * NodeStore W) :=
  match k with
  | NStart OpAlloc => Some (pop_free None s)
  | NStart (OpInsert labels props_row tx_id) => Some (pop_free (Some (labels, props_row, tx_id)) s)
  | NStart (OpInsertWithId id labels props_row tx_id) =>
      Some (NInsert id (Node.new id labels props_row tx_id), s)
  | NStart (OpHardDelete id) => Some (NDelete id [], s)
  | NStart (OpCompact oldest) => Some (NCollect oldest (map fst (map_to_list (nodes s))) [], s)
  | NStart op => Some (NDone None, exec_op s op)
  | NPopped id ins => Some (allocated id ins, set_free_count (wrap64 (free_count s - 1)) s)
  | NFresh ins => Some (allocated (next_id s) ins, set_next_id (wrap64 (next_id s + 1)) s)
  | NInsert id n => Some (NCount id n, set_nodes (<[id := n]> (nodes s)) s)
  | NCount id n => Some (NLog id n, incr_total_ever s)
  | NLog id n => Some (NDone (Some id), wal_insert id n s)
  | NDelete id rest => Some (NRemove id rest, wal_delete id s)
  | NRemove id rest =>
      match nodes s !! id with
      | Some _ => Some (NPush id rest, set_nodes (delete id (nodes s)) s)
      | None => Some (delete_next rest, s)
      end
  | NPush id rest => Some (NAddFree rest, set_free_list (free_list s ++ [id]) s)
  | NAddFree rest => Some (delete_next rest, set_free_count (wrap64 (free_count s + 1)) s)
  | NCollect oldest (id :: todo) found =>
      match nodes s !! id with
      | Some n =>
          Some (NCollect oldest todo (if Node.deleted_tx n <? oldest then found ++ [id] else found), s)
      | None => Some (NCollect oldest todo found, s)
      end
  | NCollect _ [] found => Some (delete_next found, s)
  | NReserved _ | NDone _ => None
  end.

Definition ended k : bool := match k with NReserved _ | NDone _ => true | _ => false end.

(** ** One call, nobody in between *)

Lemma alloc_alone ins op s :
  (op = OpAlloc /\ ins = None \/
   exists labels row tx, op = OpInsert labels row tx /\ ins = Some (labels, row, tx)) ->
  rtc (alone node_step) (NStart op, s) (allocated (alloc_id s).1 ins, (alloc_id s).2).
Proof.
  intros Hop. unfold alloc_id. destruct (free_list s) as [|id fl] eqn:Hfl.
  - eapply rtc_l; [|by apply rtc_once; instantiate (1 := (NFresh ins, s))].
    destruct Hop as [[-> ->]|(l & r & t & -> & ->)]; unfold alone; simpl; unfold pop_free; by rewrite Hfl.
  - eapply rtc_l; [|apply rtc_once; by instantiate (1 := (NPopped id ins, set_free_list fl s))].
    destruct Hop as [[-> ->]|(l & r & t & -> & ->)]; unfold alone; simpl; unfold pop_free; by rewrite Hfl.
Qed.

Lemma insert_alone id labels row tx s :
  rtc (alone node_step) (NInsert id (Node.new id labels row tx), s)
    (NDone (Some id), insert_with_id id labels row tx s).
Proof. do 2 (eapply rtc_l; [done|]). by apply rtc_once. Qed.

Lemma wal_delete_nodes id s : nodes (wal_delete id s) = nodes s.
Proof. unfold wal_delete. by destruct (wal s). Qed.

Lemma delete_alone id rest s :
  rtc (alone node_step) (NDelete id rest, s) (delete_next rest, (hard_delete id s).2).
Proof.
  eapply rtc_l; [done|]. unfold hard_delete, remove_from_memory.
  destruct (nodes (wal_delete id s) !! id) as [n|] eqn:Hid.
  - eapply rtc_l; [unfold alone; simpl; by rewrite Hid|]. eapply rtc_l; [done|]. by apply rtc_once.
  - apply rtc_once. unfold alone. simpl. by rewrite Hid.
Qed.

Lemma deletes_alone ids s :
  rtc (alone node_step) (delete_next ids, s)
    (NDone None, foldl (fun s id => (hard_delete id s).2) s ids).
Proof.
  revert s. induction ids as [|id ids IH]; intros s; [done|]. etrans; [apply delete_alone|apply IH].
Qed.

Lemma collect_alone oldest (l : list (Z * Node)) found s :
  (forall e, e ∈ l -> nodes s !! e.1 = Some e.2) ->
  rtc (alone node_step) (NCollect oldest (map fst l) found, s)
    (delete_next (found ++ map fst (filter (fun e => Node.deleted_tx e.2 < oldest) l)), s).
Proof.
  revert found. induction l as [|[id n] l IH]; intros found Hl; simpl.
  - rewrite app_nil_r. by apply rtc_once.
  - eapply rtc_l.
    + pose proof (Hl (id, n) (list_elem_of_here _ _)) as Hn. simpl in Hn. unfold alone. simpl. by rewrite Hn.
    + rewrite filter_cons. simpl. destruct (Z.ltb_spec (Node.deleted_tx n) oldest).
      * rewrite decide_True by done. specialize (IH (found ++ [id])). rewrite <-app_assoc in IH.
        apply IH. intros e He. by apply Hl, list_elem_of_further.
      * rewrite decide_False by lia. apply IH. intros e He. by apply Hl, list_elem_of_further.
Qed.

(** The result of a call, as its program ends. *)
Definition call_result (op : NodeOp) s : NodePc :=
  match op with
  | OpAlloc => NReserved (alloc_id_direct s).1
  | OpInsert labels row tx => NDone (Some (insert_node labels row tx s).1)
  | OpInsertWithId id _ _ _ => NDone (Some id)
  | _ => NDone None
  end.

(** The steps of a call, run with nobody in between, are the method of
    [NodeStore.v]. *)
Lemma call_alone op s :
  rtc (alone node_step) (NStart op, s) (call_result op s, exec_op s op).
Proof.
  destruct op; try (by apply rtc_once); simpl.
  - apply (alloc_alone None). by left.
  - eapply rtc_l; [done|apply insert_alone].
  - rewrite insert_node_alloc. cbn [fst snd]. etrans; [|apply insert_alone].
    apply (alloc_alone (Some (labels, props_row, tx_id))). right. by eexists _, _, _.
  - eapply rtc_l; [done|apply delete_alone].
  - eapply rtc_l; [done|]. unfold compact. cbn [snd]. etrans; [|apply deletes_alone].
    apply (collect_alone oldest_active_tx (map_to_list (nodes s)) []).
    intros [id n] Hin. by apply elem_of_map_to_list.
Qed.
End steps.

(** ** Ids and counters *)

(** The id a thread holds: allocated and not inserted, a reservation it was given
    included, or removed and not yet pushed on the free list. *)
Definition held (k : NodePc) : list Z :=
  match k with
  | NStart (OpInsertWithId id _ _ _) | NPopped id _ | NReserved id | NInsert id _ | NPush id _ => [id]
  | _ => []
  end.

(** Ids that will still be taken from the counter, at most. *)
Definition fresh_left (k : NodePc) : nat :=
  match k with NStart OpAlloc | NStart (OpInsert _ _ _) | NFresh _ => 1 | _ => 0 end.

(** Changes of the free list that [free_count] does not show yet. *)
Definition pop_uncounted (k : NodePc) : nat := match k with NPopped _ _ => 1 | _ => 0 end.
Definition push_uncounted (k : NodePc) : nat := match k with NAddFree _ => 1 | _ => 0 end.

(** Insertions that [total_ever] shows. *)
Definition inserted (k : NodePc) : nat := match k with NLog _ _ | NDone (Some _) => 1 | _ => 0 end.

(** Where a thread may be at the start: about to make any call, or idle with a
    reserved id. *)
Definition startable (k : NodePc) : bool :=
  match k with NStart _ | NReserved _ | NCollect _ _ [] => true | _ => false end.

Section ids.
Context {W : Type} `{WalSink W} `{Codec Node}.
Implicit Types (s : NodeStore W) (k : NodePc) (ks : list NodePc).

Record node_ids_inv (ever : Z) ks s : Prop := {
  ni_pool : pool_held (dom (nodes s)) (ks ≫= held) (next_id s) (free_list s);
  ni_fresh : next_id s + Z.of_nat (total fresh_left ks) < 2 ^ 64;
  ni_free : free_count s =
    wrap64 (Z.of_nat (length (free_list s)) + Z.of_nat (total pop_uncounted ks)
            - Z.of_nat (total push_uncounted ks));
  ni_ever : total_ever s = wrap64 (ever + Z.of_nat (total inserted ks))
}.

Lemma wrap64_plus a b : wrap64 (wrap64 a + b) = wrap64 (a + b).
Proof. unfold wrap64. by rewrite Zplus_mod_idemp_l. Qed.

Lemma wrap64_minus a b : wrap64 (wrap64 a - b) = wrap64 (a - b).
Proof. unfold wrap64. by rewrite Zminus_mod_idemp_l. Qed.

(** What a step does: the pool goes from what [k] held to what [k'] holds, and
    the counters move with the thread. *)
Definition node_moves k k' s s' : Prop :=
  (forall L, pool_held (dom (nodes s)) (held k ++ L) (next_id s) (free_list s) ->
    next_id s + Z.of_nat (fresh_left k) < 2 ^ 64 ->
    pool_held (dom (nodes s')) (held k' ++ L) (next_id s') (free_list s') /\
    next_id s' + Z.of_nat (fresh_left k') <= next_id s + Z.of_nat (fresh_left k)) /\
  (forall c, free_count s = wrap64 c ->
    free_count s' = wrap64 (c + (Z.of_nat (length (free_list s')) - Z.of_nat (length (free_list s)))
      + (Z.of_nat (pop_uncounted k') - Z.of_nat (pop_uncounted k))
      - (Z.of_nat (push_uncounted k') - Z.of_nat (push_uncounted k)))) /\
  (forall c, total_ever s = wrap64 c ->
    total_ever s' = wrap64 (c + (Z.of_nat (inserted k') - Z.of_nat (inserted k)))).

(** A step that leaves the pool and the counters alone. *)
Lemma moves_same k k' s s' :
  dom (nodes s') = dom (nodes s) -> next_id s' = next_id s -> free_list s' = free_list s ->
  free_count s' = free_count s -> total_ever s' = total_ever s ->
  held k' = held k -> (fresh_left k' <= fresh_left k)%nat -> pop_uncounted k' = pop_uncounted k ->
  push_uncounted k' = push_uncounted k -> inserted k' = inserted k ->
  node_moves k k' s s'.
Proof.
  intros Hd Hn Hf Hc Ht Hh Hfr Hp Hq Hi. unfold node_moves. rewrite Hd, Hn, Hf, Hc, Ht, Hh, Hp, Hq, Hi.
  split; [intros L HL _; split; [done|lia]|].
  split; intros c ->; f_equal; lia.
Qed.

Lemma update_node_frame f id s :
  dom (nodes (update_node f id s).2) = dom (nodes s) /\
  next_id (update_node f id s).2 = next_id s /\ free_list (update_node f id s).2 = free_list s /\
  free_count (update_node f id s).2 = free_count s /\ total_ever (update_node f id s).2 = total_ever s.
Proof.
  unfold update_node. destruct (nodes s !! id) as [n|] eqn:Hn; [|done]. cbn [snd].
  destruct (wal_insert_frame id (f n) (set_nodes (<[id:=f n]> (nodes s)) s)) as (-> & -> & -> & ->).
  simpl. split; [|split_done].
  - rewrite dom_insert_L. apply elem_of_dom_2 in Hn. set_solver.
  - unfold wal_insert. by repeat case_match.
Qed.

Lemma delete_next_frame rest :
  held (delete_next rest) = [] /\ fresh_left (delete_next rest) = 0%nat /\
  pop_uncounted (delete_next rest) = 0%nat /\ push_uncounted (delete_next rest) = 0%nat /\
  inserted (delete_next rest) = 0%nat.
Proof. by destruct rest. Qed.

Lemma allocated_frame id ins :
  held (allocated id ins) = [id] /\ fresh_left (allocated id ins) = 0%nat /\
  pop_uncounted (allocated id ins) = 0%nat /\ push_uncounted (allocated id ins) = 0%nat /\
  inserted (allocated id ins) = 0%nat.
Proof. by destruct ins as [[[? ?] ?]|]. Qed.

Lemma pop_moves ins k s :
  held k = [] -> fresh_left k = 1%nat -> pop_uncounted k = 0%nat -> push_uncounted k = 0%nat ->
  inserted k = 0%nat -> node_moves k (pop_free ins s).1 s (pop_free ins s).2.
Proof.
  intros Hh Hf Hp Hq Hi. unfold pop_free. destruct (free_list s) as [|id fl] eqn:Hfl.
  - apply moves_same; try done; simpl; by rewrite ?Hh, ?Hf, ?Hp, ?Hq, ?Hi.
  - unfold node_moves. rewrite Hh, Hf, Hp, Hq, Hi, Hfl. cbn. split; [|split].
    + intros L HL _. split; [by apply pool_held_pop|lia].
    + intros c ->. f_equal; lia.
    + intros c ->. f_equal; lia.
Qed.

Lemma start_moves op k' s s' :
  node_step (NStart op) s = Some (k', s') ->
  node_moves (NStart op) k' s s'.
Proof.
  intros Hstep.
  destruct op; try done; simpl in Hstep;
    try (injection Hstep as <- <-; apply moves_same; try done; by apply update_node_frame).
  - pose proof (pop_moves None (NStart OpAlloc) s) as Hm. injection Hstep as Hpop. rewrite Hpop in Hm.
    by apply Hm.
  - pose proof (pop_moves (Some (labels, props_row, tx_id)) (NStart (OpInsert labels props_row tx_id)) s) as Hm.
    injection Hstep as Hpop. rewrite Hpop in Hm. by apply Hm.
  - injection Hstep as <- <-. apply moves_same; try done; unfold flush; by destruct (wal s).
Qed.

Lemma remove_moves id rest k' s s' :
  node_step (NRemove id rest) s = Some (k', s') -> node_moves (NRemove id rest) k' s s'.
Proof.
  simpl. destruct (delete_next_frame rest) as (Hh & Hf & Hp & Hq & Hi).
  destruct (nodes s !! id) as [n|] eqn:Hid; intros [= <- <-].
  - unfold node_moves. cbn. split; [|split].
    + intros L HL _. split; [|lia]. rewrite dom_delete_L. apply pool_held_remove; [done|].
      by eapply elem_of_dom_2.
    + intros c ->. f_equal; lia.
    + intros c ->. f_equal; lia.
  - apply moves_same; try done; by rewrite ?Hh, ?Hf.
Qed.

Lemma node_step_moves k k' s s' :
  node_step k s = Some (k', s') -> node_moves k k' s s'.
Proof.
  intros Hstep.
  destruct k as [op|id ins|ins|id|id n|id n|id n|id rest|id rest|id rest|rest|oldest todo found|r];
    try done; [by apply start_moves|..]; try (by apply remove_moves); simpl in Hstep.
  - injection Hstep as <- <-. destruct (allocated_frame id ins) as (Hh & Hf & Hp & Hq & Hi).
    unfold node_moves. rewrite Hh, Hf, Hp, Hq, Hi. cbn. split; [intros L HL _; split; [done|lia]|].
    split; [|intros c ->; f_equal; lia]. intros c ->. rewrite wrap64_minus. f_equal; lia.
  - injection Hstep as <- <-. destruct (allocated_frame (next_id s) ins) as (Hh & Hf & Hp & Hq & Hi).
    unfold node_moves. rewrite Hh, Hf, Hp, Hq, Hi. cbn. split.
    + intros L HL Hlt. pose proof (pool_next _ _ _ _ (proj2 HL)).
      rewrite wrap64_small by (cbn in Hlt; lia). split; [by apply pool_held_fresh|lia].
    + split; intros c ->; f_equal; lia.
  - injection Hstep as <- <-. unfold node_moves. cbn. split.
    + intros L HL _. rewrite dom_insert_L. split; [by apply pool_held_insert|lia].
    + split; intros c ->; f_equal; lia.
  - injection Hstep as <- <-. unfold node_moves. cbn. split; [intros L HL _; split; [done|lia]|].
    split; [intros c ->; f_equal; lia|]. intros c ->. rewrite wrap64_plus. f_equal; lia.
  - injection Hstep as <- <-. destruct (wal_insert_frame id n s) as (Hn & Hx & Hl & Hc).
    apply moves_same; try done; [by rewrite Hn|]. unfold wal_insert. by repeat case_match.
  - injection Hstep as <- <-. apply moves_same; try done; unfold wal_delete; by destruct (wal s).
  - injection Hstep as <- <-. unfold node_moves. cbn. split; [|split].
    + intros L HL _. split; [by apply pool_held_push|lia].
    + intros c ->. rewrite length_app. simpl. f_equal; lia.
    + intros c ->. f_equal; lia.
  - injection Hstep as <- <-. destruct (delete_next_frame rest) as (Hh & Hf & Hp & Hq & Hi).
    unfold node_moves. rewrite Hh, Hf, Hp, Hq, Hi. cbn. split; [intros L HL _; split; [done|lia]|].
    split; [|intros c ->; f_equal; lia]. intros c ->. rewrite wrap64_plus. f_equal; lia.
  - destruct (delete_next_frame found) as (Hh & Hf & Hp & Hq & Hi).
    destruct todo as [|id todo].
    + injection Hstep as <- <-. apply moves_same; try done; by rewrite Hf.
    + destruct (nodes s !! id); injection Hstep as <- <-; by apply moves_same.
Qed.

Lemma node_ids_step ever ks s i k k' s' :
  node_ids_inv ever ks s -> ks !! i = Some k -> node_step k s = Some (k', s') ->
  node_ids_inv ever (<[i := k']> ks) s'.
Proof.
  intros [Hp Hf Hc He] Hi Hstep.
  destruct (node_step_moves k k' s s' Hstep) as (Hpool & Hfree & Hever).
  pose proof (total_insert fresh_left ks i k k' Hi) as H1.
  pose proof (total_insert pop_uncounted ks i k k' Hi) as H2.
  pose proof (total_insert push_uncounted ks i k k' Hi) as H3.
  pose proof (total_insert inserted ks i k k' Hi) as H4.
  pose proof (total_lookup fresh_left ks i k Hi).
  destruct (owned_split held ks i k Hi) as (L & HL & HL'). rewrite HL in Hp.
  destruct (Hpool L Hp) as [Hp' Hn]; [lia|]. split.
  - by rewrite HL'.
  - lia.
  - rewrite (Hfree _ Hc). f_equal; lia.
  - rewrite (Hever _ He). f_equal; lia.
Qed.

Lemma startable_frame k :
  startable k = true ->
  pop_uncounted k = 0%nat /\ push_uncounted k = 0%nat /\ inserted k = 0%nat /\
  (fresh_left k <= 1)%nat.
Proof. by destruct k as [[]| | | | | | | | | | |? ? []|]; simpl; intros ?; split_done; lia. Qed.

Lemma ended_frame k :
  ended k = true -> pop_uncounted k = 0%nat /\ push_uncounted k = 0%nat.
Proof. by destruct k. Qed.

(** C12: ids under any interleaving. At the start the ids below the counter are
    shared out, none twice, between the map, the free list and the reservations
    of the threads, and the counters are right (as on every store built by the
    methods from an empty one: [node_ids_partition]; not on one that [open]
    rebuilt after an id was reused, see [reopen_overwrites_live_node]), and the
    64-bit counter cannot run over. The threads allocate, insert, also with an id
    they reserved, update, delete, compact and flush, in any interleaving of
    their accesses. Then at every moment the ids below the counter are shared out
    in the same way, the ids that threads are at work on included: no id is given
    to two threads and none is lost. [free_count] is the length of the free list
    but for the threads between the queue and the counter, and exactly that once
    all calls have ended; [total_ever] has counted every insertion. *)
Theorem concurrent_node_ids ks s0 ks' s :
  NoDup (ks ≫= held) -> pool_ok (dom (nodes s0)) (list_to_set (ks ≫= held)) (next_id s0) (free_list s0) ->
  free_count s0 = wrap64 (Z.of_nat (length (free_list s0))) -> total_ever s0 = wrap64 (total_ever s0) ->
  Forall (fun k => startable k = true) ks -> next_id s0 + Z.of_nat (length ks) < 2 ^ 64 ->
  rtc (threads_step node_step) (ks, s0) (ks', s) ->
  NoDup (ks' ≫= held) /\
  pool_ok (dom (nodes s)) (list_to_set (ks' ≫= held)) (next_id s) (free_list s) /\
  free_count s = wrap64 (Z.of_nat (length (free_list s)) + Z.of_nat (total pop_uncounted ks')
                         - Z.of_nat (total push_uncounted ks')) /\
  (Forall (fun k => ended k = true) ks' -> free_count s = wrap64 (Z.of_nat (length (free_list s)))) /\
  total_ever s = wrap64 (total_ever s0 + Z.of_nat (total inserted ks')).
Proof.
  intros Hnd0 Hp Hc He Hks Hlt Hrun.
  assert (forall f, (forall k, startable k = true -> f k = 0%nat) -> total f ks = 0%nat) as Hzero
    by (intros f Hf; apply total_done; by eapply Forall_impl).
  assert (node_ids_inv (total_ever s0) ks' s) as [[Hnd Hpool] _ Hfree Hever].
  { apply (threads_invariant node_step (node_ids_inv (total_ever s0)) ks s0); [..|done].
    - intros ks1 s1 i k k' s2. apply node_ids_step.
    - split.
      + by split.
      + assert (total fresh_left ks <= length ks * 1)%nat; [|lia]. apply total_le.
        eapply Forall_impl; [exact Hks|]. intros k Hk. by apply startable_frame.
      + rewrite !Hzero by (intros k Hk; by apply startable_frame). rewrite Hc. f_equal; lia.
      + rewrite Hzero by (intros k Hk; by apply startable_frame). rewrite He at 1. f_equal; lia. }
  split; [done|]. split; [done|]. split; [done|]. split; [|done]. intros Hend. rewrite Hfree.
  rewrite !total_done by (eapply Forall_impl; [exact Hend|]; intros k Hk; by apply ended_frame).
  f_equal; lia.
Qed.
End ids.

(** ** The log *)

(** The node a call is in the middle of: inserted and not logged, or logged as
    deleted and not removed. *)
Definition busy (k : NodePc) : list Z :=
  match k with NCount id _ | NLog id _ | NRemove id _ => [id] | _ => [] end.

(** The node the next step of a call changes, in memory or in the log. *)
Definition touches (k : NodePc) : option Z :=
  match k with
  | NStart (OpUpdateLabels id _ _) | NStart (OpUpdatePropsRow id _) | NStart (OpSetFirstOut id _)
  | NStart (OpSetFirstIn id _) | NStart (OpSoftDelete id _) => Some id
  | NInsert id _ | NCount id _ | NLog id _ | NDelete id _ | NRemove id _ => Some id
  | _ => None
  end.

(** A step on a node that no other call is in the middle of. *)
Inductive calm_step {W} `{WalSink W} `{Codec Node}
  : list NodePc * NodeStore W -> list NodePc * NodeStore W -> Prop :=
| calm_runs ks i k k' s s' :
    ks !! i = Some k -> node_step k s = Some (k', s') ->
    (forall j kj id, j ≠ i -> ks !! j = Some kj -> touches k = Some id -> id ∉ busy kj) ->
    calm_step (ks, s) (<[i := k']> ks, s').

Section log.
Context {W : Type} `{WalSinkLaws W} `{CodecLaws Node}.
Implicit Types (s : NodeStore W) (k : NodePc) (ks : list NodePc) (m : gmap Z Node).

(** What the log and the memory have of the node a call is in the middle of. *)
Definition own_ok m s k : Prop :=
  match k with
  | NCount id n | NLog id n => nodes s !! id = Some n
  | NRemove id _ => m !! id = None
  | _ => True
  end.

Record node_log_inv m0 b m ks s : Prop := {
  li_log : logged m0 b m (wal s);
  li_agree x : (forall k, k ∈ ks -> x ∉ busy k) -> m !! x = nodes s !! x;
  li_own i k : ks !! i = Some k -> own_ok m s k;
  li_busy i j k k' x : ks !! i = Some k -> ks !! j = Some k' -> x ∈ busy k -> x ∈ busy k' -> i = j
}.

Lemma busy_touches k x : x ∈ busy k -> touches k = Some x.
Proof. destruct k; simpl; try (by intros ?%elem_of_nil); by intros ->%list_elem_of_singleton. Qed.

(** Only the node that the step touches is different afterwards. *)
Lemma node_log_touch m0 b m m' ks s s' i k k' :
  node_log_inv m0 b m ks s -> ks !! i = Some k -> logged m0 b m' (wal s') ->
  (forall j kj id, j ≠ i -> ks !! j = Some kj -> touches k = Some id -> id ∉ busy kj) ->
  (forall x, touches k ≠ Some x -> m' !! x = m !! x /\ nodes s' !! x = nodes s !! x) ->
  (forall x, x ∈ busy k' -> touches k = Some x) ->
  (forall x, touches k = Some x -> x ∉ busy k' -> m' !! x = nodes s' !! x) ->
  own_ok m' s' k' -> node_log_inv m0 b m' (<[i := k']> ks) s'.
Proof.
  intros [_ Hagree Hown Hinj] Hi Hlog Hcalm Hsame Hbusy Hagree' Hown'.
  assert (i < length ks)%nat as Hlt by by eapply lookup_lt_Some.
  split; [done| | |].
  - intros x Hx. assert (x ∉ busy k') as Hk'.
    { apply Hx, list_elem_of_lookup. exists i. by apply list_lookup_insert_eq. }
    destruct (decide (touches k = Some x)) as [Ht|Ht]; [by apply Hagree'|].
    destruct (Hsame x Ht) as [-> ->]. apply Hagree. intros k1 [j Hj]%list_elem_of_lookup Hin.
    destruct (decide (j = i)) as [->|Hne]; [apply Ht, busy_touches; congruence|].
    apply (Hx k1); [|done]. apply list_elem_of_lookup. exists j. by rewrite list_lookup_insert_ne.
  - intros j kj [(-> & <- & _)|[Hne Hj]]%list_lookup_insert_Some; [done|].
    specialize (Hown j kj Hj). assert (forall x, x ∈ busy kj -> touches k ≠ Some x) as Hno.
    { intros x Hx Ht. by apply (Hcalm j kj x). }
    destruct kj as [op|id ins|ins|id|id n|id n|id n|id rest|id rest|id rest|rest|o todo found|r]; try done;
      destruct (Hsame id (Hno id (list_elem_of_here _ _))) as [Hm' Hn']; unfold own_ok in *; congruence.
  - intros j1 j2 k1 k2 x [(-> & <- & _)|[Hn1 H1']]%list_lookup_insert_Some
      [(-> & <- & _)|[Hn2 H2']]%list_lookup_insert_Some Hx1 Hx2; [done| | |by eapply Hinj].
    + destruct (Hcalm j2 k2 x); auto.
    + destruct (Hcalm j1 k1 x); auto.
Qed.

(** A step that touches no node. *)
Lemma node_log_quiet m0 b m ks s s' i k k' :
  node_log_inv m0 b m ks s -> ks !! i = Some k -> touches k = None -> busy k' = [] ->
  nodes s' = nodes s -> logged m0 b m (wal s') -> node_log_inv m0 b m (<[i := k']> ks) s'.
Proof.
  intros Hinv Hi Ht Hb Hn Hlog. apply (node_log_touch m0 b m m ks s s' i k k'); try done.
  - intros j kj id _ _ Heq. by rewrite Ht in Heq.
  - intros x _. by rewrite Hn.
  - intros x Hx. rewrite Hb in Hx. by apply elem_of_nil in Hx.
  - intros x Heq. by rewrite Ht in Heq.
  - by destruct k'; try discriminate.
Qed.

Lemma node_log_put m0 b m s id n :
  logged m0 b m (wal s) -> logged m0 b (<[id := n]> m) (wal (wal_insert id n s)).
Proof.
  intros Hlog. destruct (logged_some _ _ _ _ Hlog) as [w Hw]. unfold wal_insert. rewrite Hw in *.
  destruct (serialize_total n) as [data Hd]. rewrite Hd. by apply logged_put.
Qed.

Lemma update_calm m0 b m ks s i k id f :
  node_log_inv m0 b m ks s -> ks !! i = Some k -> touches k = Some id -> busy k = [] ->
  (forall j kj id, j ≠ i -> ks !! j = Some kj -> touches k = Some id -> id ∉ busy kj) ->
  exists m', node_log_inv m0 b m' (<[i := NDone None]> ks) (update_node f id s).2.
Proof.
  intros Hinv Hi Ht Hb Hcalm. unfold update_node.
  destruct (nodes s !! id) as [n|] eqn:Hn; cbn [snd].
  - exists (<[id := f n]> m). eapply node_log_touch; try done.
    + apply (node_log_put m0 b m (set_nodes (<[id:=f n]> (nodes s)) s)). apply Hinv.
    + intros x Hx. rewrite wal_insert_nodes. simpl. rewrite !lookup_insert_ne by congruence. done.
    + by intros x ?%elem_of_nil.
    + intros x Hx _. rewrite wal_insert_nodes. simpl. assert (x = id) as -> by congruence.
      by rewrite !lookup_insert_eq.
  - exists m. eapply node_log_touch; try done; [apply Hinv|by intros x ?%elem_of_nil|].
    intros x Hx _. assert (x = id) as -> by congruence. apply (li_agree _ _ _ _ _ Hinv).
    intros k1 [j Hj]%list_elem_of_lookup Hin. destruct (decide (j = i)) as [->|Hne].
    + assert (k1 = k) as -> by congruence. rewrite Hb in Hin. by apply elem_of_nil in Hin.
    + by apply (Hcalm j k1 id).
Qed.

Lemma busy_delete_next rest : busy (delete_next rest) = [].
Proof. by destruct rest. Qed.

Lemma node_log_start m0 b m ks s i op k' s' :
  node_log_inv m0 b m ks s -> ks !! i = Some (NStart op) -> node_step (NStart op) s = Some (k', s') ->
  (forall j kj id, j ≠ i -> ks !! j = Some kj -> touches (NStart op) = Some id -> id ∉ busy kj) ->
  exists m', node_log_inv m0 b m' (<[i := k']> ks) s'.
Proof.
  intros Hinv Hi Hstep Hcalm. pose proof (li_log _ _ _ _ _ Hinv) as Hlog.
  destruct op; simpl in Hstep; try (injection Hstep as <- <-);
    try (eapply update_calm; by eauto); exists m;
    try (by apply (node_log_quiet m0 b m ks s _ i _ _ Hinv Hi)).
  - unfold pop_free in Hstep. destruct (free_list s); injection Hstep as <- <-;
      by apply (node_log_quiet m0 b m ks s _ i _ _ Hinv Hi).
  - unfold pop_free in Hstep. destruct (free_list s); injection Hstep as <- <-;
      by apply (node_log_quiet m0 b m ks s _ i _ _ Hinv Hi).
  - destruct (logged_some _ _ _ _ Hlog) as [w Hw]. unfold flush. rewrite Hw in *.
    apply (node_log_quiet m0 b m ks s _ i _ _ Hinv Hi); try done. by apply logged_sync.
Qed.

(** The steps of an insertion on the node, and those of a delete. *)
Lemma node_log_inserts m0 b m ks s i k k' s' :
  node_log_inv m0 b m ks s -> ks !! i = Some k -> node_step k s = Some (k', s') ->
  (forall j kj id, j ≠ i -> ks !! j = Some kj -> touches k = Some id -> id ∉ busy kj) ->
  match k with NInsert _ _ | NCount _ _ | NLog _ _ => True | _ => False end ->
  exists m', node_log_inv m0 b m' (<[i := k']> ks) s'.
Proof.
  intros Hinv Hi Hstep Hcalm Hk. pose proof (li_log _ _ _ _ _ Hinv) as Hlog.
  destruct k as [| | | |id n|id n|id n| | | | | |]; try done.
  - exists m. injection Hstep as <- <-. apply (node_log_touch m0 b m m ks s _ i _ _ Hinv Hi); try done.
    + intros x Hx. cbn. rewrite lookup_insert_ne; [done|]. intros ->. by apply Hx.
    + intros x ->%list_elem_of_singleton. done.
    + intros x [= ->] []. apply list_elem_of_here.
    + apply lookup_insert_eq.
  - exists m. injection Hstep as <- <-. apply (node_log_touch m0 b m m ks s _ i _ _ Hinv Hi); try done.
    + intros x ->%list_elem_of_singleton. done.
    + intros x [= ->] []. apply list_elem_of_here.
    + apply (li_own _ _ _ _ _ Hinv _ _ Hi).
  - exists (<[id := n]> m). injection Hstep as <- <-.
    pose proof (li_own _ _ _ _ _ Hinv _ _ Hi) as Hown. simpl in Hown.
    apply (node_log_touch m0 b m _ ks s _ i _ _ Hinv Hi); try done.
    + by apply node_log_put.
    + intros x Hx. rewrite wal_insert_nodes. rewrite lookup_insert_ne; [done|]. intros ->. by apply Hx.
    + by intros x ?%elem_of_nil.
    + intros x [= <-] _. by rewrite wal_insert_nodes, lookup_insert_eq.
Qed.

Lemma node_log_deletes m0 b m ks s i k k' s' :
  node_log_inv m0 b m ks s -> ks !! i = Some k -> node_step k s = Some (k', s') ->
  (forall j kj id, j ≠ i -> ks !! j = Some kj -> touches k = Some id -> id ∉ busy kj) ->
  match k with NDelete _ _ | NRemove _ _ => True | _ => False end ->
  exists m', node_log_inv m0 b m' (<[i := k']> ks) s'.
Proof.
  intros Hinv Hi Hstep Hcalm Hk. pose proof (li_log _ _ _ _ _ Hinv) as Hlog.
  destruct k as [| | | | | | |id rest|id rest| | | |]; try done.
  - exists (delete id m). injection Hstep as <- <-.
    destruct (logged_some _ _ _ _ Hlog) as [w Hw].
    apply (node_log_touch m0 b m _ ks s _ i _ _ Hinv Hi); try done.
    + unfold wal_delete. rewrite Hw in *. by apply logged_del.
    + intros x Hx. rewrite wal_delete_nodes, lookup_delete_ne; [done|]. intros ->. by apply Hx.
    + intros x ->%list_elem_of_singleton. done.
    + intros x [= ->] []. apply list_elem_of_here.
    + apply lookup_delete_eq.
  - exists m. pose proof (li_own _ _ _ _ _ Hinv _ _ Hi) as Hown. simpl in Hown, Hstep.
    destruct (nodes s !! id) as [n|] eqn:Hid; injection Hstep as <- <-;
      apply (node_log_touch m0 b m _ ks s _ i _ _ Hinv Hi); try done.
    + intros x Hx. cbn. rewrite lookup_delete_ne; [done|]. intros ->. by apply Hx.
    + by intros x ?%elem_of_nil.
    + intros x [= <-] _. cbn. by rewrite lookup_delete_eq.
    + rewrite busy_delete_next. by intros x ?%elem_of_nil.
    + intros x [= <-] _. congruence.
    + by destruct rest.
Qed.

Lemma node_log_step m0 b m ks s i k k' s' :
  node_log_inv m0 b m ks s -> ks !! i = Some k -> node_step k s = Some (k', s') ->
  (forall j kj id, j ≠ i -> ks !! j = Some kj -> touches k = Some id -> id ∉ busy kj) ->
  exists m', node_log_inv m0 b m' (<[i := k']> ks) s'.
Proof.
  intros Hinv Hi Hstep Hcalm. pose proof (li_log _ _ _ _ _ Hinv) as Hlog.
  destruct k as [op|id ins|ins|id|id n|id n|id n|id rest|id rest|id rest|rest|oldest todo found|r];
    try done; [by eapply node_log_start| | |by eapply node_log_inserts|
      by eapply node_log_inserts|by eapply node_log_inserts|
      by eapply node_log_deletes|by eapply node_log_deletes| | |].
  - exists m. injection Hstep as <- <-. apply (node_log_quiet m0 b m ks s _ i _ _ Hinv Hi); try done.
    by destruct ins as [[[? ?] ?]|].
  - exists m. injection Hstep as <- <-. apply (node_log_quiet m0 b m ks s _ i _ _ Hinv Hi); try done.
    by destruct ins as [[[? ?] ?]|].
  - exists m. injection Hstep as <- <-. by apply (node_log_quiet m0 b m ks s _ i _ _ Hinv Hi).
  - exists m. injection Hstep as <- <-. apply (node_log_quiet m0 b m ks s _ i _ _ Hinv Hi); try done.
    apply busy_delete_next.
  - exists m. simpl in Hstep. destruct todo as [|id todo].
    + injection Hstep as <- <-. apply (node_log_quiet m0 b m ks s _ i _ _ Hinv Hi); try done.
      apply busy_delete_next.
    + destruct (nodes s !! id); injection Hstep as <- <-;
        by apply (node_log_quiet m0 b m ks s _ i _ _ Hinv Hi).
Qed.

Lemma node_log_calm m0 b m ks s ks' s' :
  node_log_inv m0 b m ks s -> rtc calm_step (ks, s) (ks', s') -> exists m', node_log_inv m0 b m' ks' s'.
Proof.
  intros Hinv Hrun.
  assert (forall c c', rtc calm_step c c' -> (exists m, node_log_inv m0 b m c.1 c.2) ->
    exists m, node_log_inv m0 b m c'.1 c'.2) as Hall.
  { induction 1 as [|c1 c2 c3 Hc _ IH]; [done|]. intros [m1 Hm]. apply IH.
    destruct Hc. by eapply node_log_step. }
  apply (Hall (ks, s) (ks', s') Hrun). by exists m.
Qed.

(** C11: the log of concurrent calls. A node store is opened on a well-formed log
    (or none) at a level that fsyncs and used; then threads allocate, insert, update, delete, compact and
    flush in any interleaving in which no step changes a node that another call
    is in the middle of inserting or deleting, and the records sent fit the
    format. Once the calls have returned the flushed log reads back as the nodes
    in memory. (For the excluded interleavings see [stale_insert_record] and
    [hard_delete_race], for a log cut inside a length field
    [torn_log_appended].) *)
Theorem concurrent_nodes_recover c file rs0 s0 ops ks ks' s w :
  contract_ok (durability c) (wal_channel_capacity c) ->
  log_contents file = MAGIC ++ encode_recs rs0 ->
  open (W := W) c file = Ok s0 ->
  Forall (fun k => busy k = []) ks ->
  rtc calm_step (ks, exec_ops s0 ops) (ks', s) -> Forall (fun k => ended k = true) ks' ->
  wal s = Some w -> Forall rec_ok (rs0 ++ sink_recs w) ->
  exists s', open (W := W) c (Some (sink_image (sink_flush w))) = Ok s' /\ nodes s' = nodes s.
Proof.
  intros Hc Hlog Ho Hks Hrun Hend Hw Hok.
  pose proof (proj1 (Forall_app _ _ _) Hok) as [Hok0 _].
  destruct (open_log c file rs0 Hc Hlog Hok0) as (w0 & Ho' & Hlogged).
  rewrite Ho in Ho'. injection Ho' as Hs0. rewrite <-Hs0 in Hlogged.
  pose proof (exec_ops_logged _ _ _ ops Hlogged) as Hl1.
  assert (exists m, node_log_inv (recover rs0 ∅) (MAGIC ++ encode_recs rs0) m ks' s) as [m [Hl Hm _ _]].
  { eapply node_log_calm; [|exact Hrun]. split; [exact Hl1|done|..].
    - intros i k Hi. assert (busy k = []) as Hb by by eapply (Forall_lookup_1 _ _ _ _ Hks).
      by destruct k.
    - intros i j k k' x Hi _ Hx. assert (busy k = []) as Hb by by eapply (Forall_lookup_1 _ _ _ _ Hks).
      rewrite Hb in Hx. by apply elem_of_nil in Hx. }
  assert (m = nodes s) as ->.
  { apply map_eq. intros x. apply Hm. intros k Hk.
    pose proof (proj1 (Forall_forall _ _) Hend k Hk). destruct k; try done; apply not_elem_of_nil. }
  destruct (logged_image _ _ _ Hl) as (w' & Hw' & Himg & Hn).
  assert (w' = w) as -> by congruence. rewrite Himg.
  destruct (open_log c (Some (MAGIC ++ encode_recs (rs0 ++ sink_recs w)))
    (rs0 ++ sink_recs w) Hc eq_refl Hok) as (w1 & Hs' & He).
  eexists. split; [exact Hs'|]. cbn. rewrite replayed_nodes. by rewrite Hn.
Qed.
End log.

(** Whether a step is on a node that no other call is in the middle of. *)
Definition calm_at (ks : list NodePc) (i : nat) : bool :=
  match ks !! i ≫= touches with
  | Some id =>
      forallb (fun j => Nat.eqb j i || bool_decide (id ∉ default [] (busy <$> ks !! j)))
        (seq 0 (length ks))
  | None => true
  end.

Lemma calm_at_spec ks i k :
  calm_at ks i = true -> ks !! i = Some k ->
  forall j kj id, j ≠ i -> ks !! j = Some kj -> touches k = Some id -> id ∉ busy kj.
Proof.
  unfold calm_at. intros Hc Hi j kj id Hne Hj Ht. rewrite Hi in Hc. simpl in Hc. rewrite Ht in Hc.
  rewrite forallb_forall in Hc. specialize (Hc j). rewrite Hj in Hc. simpl in Hc.
  apply orb_true_iff in Hc as [Hc|Hc]; [by apply Nat.eqb_eq in Hc|by apply bool_decide_eq_true in Hc|].
  apply in_seq. apply lookup_lt_Some in Hj. lia.
Qed.

Section calm.
Context {W : Type} `{WalSink W} `{Codec Node}.

(** The run of a schedule, as long as its steps are calm. *)
Fixpoint run_calm (sched : list nat) (c : list NodePc * NodeStore W)
  : option (list NodePc * NodeStore W) :=
  match sched with
  | [] => Some c
  | i :: sched' =>
      if calm_at c.1 i then c' ← run_schedule node_step [i] c; run_calm sched' c' else None
  end.

Lemma run_calm_rtc sched c c' : run_calm sched c = Some c' -> rtc calm_step c c'.
Proof.
  revert c. induction sched as [|i sched IH]; intros [ks s] Hrun; simpl in Hrun.
  { by injection Hrun as <-. }
  destruct (calm_at ks i) eqn:Hc; [|done]. destruct (ks !! i) as [k|] eqn:Hi; [|done]. simpl in Hrun.
  destruct (node_step k s) as [[k' s']|] eqn:Hs; [|done]. simpl in Hrun.
  eapply rtc_l; [|by apply IH]. eapply calm_runs; [done..|]. by apply calm_at_spec.
Qed.
End calm.

(** ** Calls at a concrete store

    Nodes 0, 1 and 2, of which 1 was deleted by transaction 3. A compaction, two
    insertions, a hard delete of node 0 and a reservation run at once. *)

Section witnesses.
#[local] Existing Instances LogSink.sink LogSink.laws.
#[local] Instance node_codec : Codec Node := countable_codec.
#[local] Instance node_codec_laws : CodecLaws Node := countable_codec_laws.

Definition threads_ops : list NodeOp :=
  [OpInsert [7] 0 1; OpInsert [8] 1 1; OpInsert [] 2 2; OpSoftDelete 1 3].

#[local] Abbreviation threads_store := (exec_ops demo_store threads_ops).

Definition threads_calls : list NodePc :=
  [NStart (OpCompact 5); NStart (OpInsert [9] 3 6); NStart (OpHardDelete 0);
   NStart (OpInsert [4] 4 6); NStart OpAlloc].

(** Insertion 1 takes a fresh id; the hard delete pushes node 0, which the other
    insertion takes before the push is counted. *)
Definition threads_schedule : list nat :=
  [0; 1; 2; 1; 0; 2; 0; 2; 1; 2; 3; 3; 2; 0; 3; 1; 0; 0; 3; 0; 1; 3; 0; 4; 0; 4]%nat.

Definition threads_done : list NodePc * NodeStore LogSink.t :=
  default ([], new) (run_calm threads_schedule (threads_calls, threads_store)).

Lemma threads_run : run_calm threads_schedule (threads_calls, threads_store) = Some threads_done.
Proof. by vm_compute. Qed.

Lemma threads_ended : Forall (fun k => ended k = true) threads_done.1.
Proof.
  assert (forallb ended threads_done.1 = true) as Hend by by vm_compute.
  apply Forall_forall. intros k Hk. apply (proj1 (forallb_forall ended threads_done.1) Hend).
  by apply list_elem_of_In.
Qed.

Lemma threads_calm :
  rtc calm_step (threads_calls, threads_store) (threads_done.1, threads_done.2).
Proof. rewrite <-surjective_pairing. exact (run_calm_rtc _ _ _ threads_run). Qed.

Lemma threads_logged : wal threads_done.2 = Some (demo_wal threads_done.2).
Proof. by vm_compute. Qed.

Lemma threads_fits : Forall rec_ok ([] ++ sink_recs (demo_wal threads_done.2)).
Proof. apply rec_okb_all. by vm_compute. Qed.

(** The push of node 0 is not counted yet, and node 0 is taken already. *)
Definition threads_late : list NodePc * NodeStore LogSink.t :=
  default ([], new) (run_schedule node_step (take 12 threads_schedule) (threads_calls, threads_store)).

Lemma threads_late_run :
  run_schedule node_step (take 12 threads_schedule) (threads_calls, threads_store) = Some threads_late.
Proof. by vm_compute. Qed.

Lemma threads_pool :
  pool_ok (dom (nodes threads_store)) ∅ (next_id threads_store) (free_list threads_store).
Proof.
  destruct (exec_ops_ids ∅ demo_store threads_ops) as [[Hpool _] _]; [..|by vm_compute|].
  - split; [apply pool_ok_empty|done].
  - simpl. split_done.
  - exact Hpool.
Qed.

Lemma concurrent_node_ids_witness :
  NoDup (threads_late.1 ≫= held) /\
  free_count threads_late.2 = u64_max.
Proof.
  pose proof (run_schedule_rtc node_step _ _ _ threads_late_run) as Hrun.
  rewrite (surjective_pairing threads_late) in Hrun.
  pose proof (concurrent_node_ids threads_calls threads_store threads_late.1 threads_late.2) as Hids.
  specialize (Hids NoDup_nil_2 threads_pool eq_refl eq_refl ltac:(repeat constructor) eq_refl Hrun).
  exact (conj (proj1 Hids) (eq_trans (proj1 (proj2 (proj2 Hids))) ltac:(by vm_compute))).
Defined.

Lemma concurrent_nodes_recover_witness :
  exists s', open (W := LogSink.t) balanced
      (Some (sink_image (sink_flush (demo_wal threads_done.2)))) = Ok s' /\
    nodes s' = nodes threads_done.2.
Proof.
  pose proof (concurrent_nodes_recover balanced None [] demo_store threads_ops threads_calls
    threads_done.1 threads_done.2 (demo_wal threads_done.2) demo_contract eq_refl demo_opened) as Hrec.
  specialize (Hrec ltac:(repeat constructor)).
  specialize (Hrec threads_calm).
  specialize (Hrec threads_ended).
  specialize (Hrec threads_logged).
  exact (Hrec threads_fits).
Defined.
(** ** What does not hold under threads *)

Definition after (sched : list nat) (calls : list NodePc) : list NodePc * NodeStore LogSink.t :=
  default ([], new) (run_schedule node_step sched (calls, threads_store)).

(** [hard_delete] pushes the id before it counts it: an allocation in between
    takes the id, and its [fetch_sub] takes [free_count] from 0 to [u64::MAX]. *)
Example free_count_wraps :
  let c := after [0; 0; 0; 0; 1; 1]%nat [NStart (OpHardDelete 0); NStart OpAlloc] in
  free_list c.2 = [] /\ free_count c.2 = u64_max /\ c.1 = [NAddFree []; NReserved 0].
Proof. by vm_compute. Qed.

(** [compact] collects ids and deletes them later. Node 1 is deleted by another
    thread in between and its id given to a new, live node, which the compaction
    then deletes; [insert_node] has returned 1 and no step was on a node that
    another call was in the middle of. *)
Definition reuse_calls : list NodePc :=
  [NStart (OpCompact 5); NStart (OpHardDelete 1); NStart (OpInsert [9] 3 6)].

Definition collected : list nat := repeat 0%nat 5.
Definition reused : list nat := repeat 1%nat 5 ++ repeat 2%nat 5.

Example compact_deletes_live_node :
  run_calm (collected ++ reused ++ repeat 0%nat 4) (reuse_calls, threads_store) =
    Some (after (collected ++ reused ++ repeat 0%nat 4) reuse_calls) /\
  (after collected reuse_calls).1 !! 0%nat = Some (NDelete 1 []) /\
  visible_nodes 6 (after (collected ++ reused) reuse_calls).2 = [2; 1; 0] /\
  visible_nodes 6 (after (collected ++ reused ++ repeat 0%nat 4) reuse_calls).2 = [2; 0] /\
  (after (collected ++ reused ++ repeat 0%nat 4) reuse_calls).1 = [NDone None; NDone None; NDone (Some 1)].
Proof. by vm_compute. Qed.

(** [insert_node] logs a clone of the node outside the map's lock. An update of
    the node in between logs its record first, and the clone's record, with the
    old fields, is the last one: the update is in memory and lost at the next
    open. *)
Example stale_insert_record :
  let c := after [0; 0; 0; 1; 0; 0]%nat [NStart (OpInsert [9] 3 6); NStart (OpUpdatePropsRow 3 8)] in
  c.1 = [NDone (Some 3); NDone None] /\
  Node.props_row <$> nodes c.2 !! 3 = Some 8 /\
  Node.props_row <$> recover (sink_recs (demo_wal c.2)) ∅ !! 3 = Some 3.
Proof. by vm_compute. Qed.
End witnesses.
