(* ===== verification/Crash.v ===== *)
(** * The node store and its log after a crash

    [crash_recovers_prefix] says what a crash leaves of a log, [open_after_crash]
    what [NodeStore::open] makes of a cut log. This file composes them: which
    calls a store that is reopened after a crash remembers. *)

From S2P Require Export NodeStore WalThread.

Open Scope Z_scope.

(** ** Stores that send at most one record per call *)

(** A log that a crash cut somewhere after [rs1] of its records. *)
Lemma cut_after rs1 rs2 bs :
  MAGIC ++ encode_recs rs1 `prefix_of` bs -> bs `prefix_of` MAGIC ++ encode_recs (rs1 ++ rs2) ->
  exists n k, bs = MAGIC ++ take n (encode_recs (rs1 ++ rs2)) /\ (k <= length rs2)%nat /\
    cut_recs (rs1 ++ rs2) n = (rs1 ++ take k rs2, (cut_recs (rs1 ++ rs2) n).2) /\
    (rs2 = [] -> (cut_recs (rs1 ++ rs2) n).2 = Ok tt).
Proof.
  intros [x ->] [y Hy]. rewrite <-app_assoc in *. rewrite <-app_assoc in Hy.
  apply (app_inv_head MAGIC) in Hy.
  exists (length (encode_recs rs1 ++ x)), (length (cut_recs rs2 (length x)).1).
  assert (take (length (encode_recs rs1 ++ x)) (encode_recs (rs1 ++ rs2)) = encode_recs rs1 ++ x) as ->
    by by rewrite Hy, app_assoc, take_app_length.
  split; [done|].
  assert (length (encode_recs rs1 ++ x) - length (encode_recs rs1) = length x)%nat as Hx
    by (rewrite length_app; lia).
  pose proof (cut_recs_prefix rs2 (length x)) as Hpre. split; [by apply prefix_length|].
  rewrite cut_recs_app by (rewrite length_app; lia). rewrite Hx. cbn [snd].
  split; [|by intros ->]. do 2 f_equal. destruct Hpre as [z Hz]. symmetry. by apply (take_app_at _ _ z).
Qed.

Section prefixes.
Context {V W S Op : Type} `{WalSinkLaws W}.
Context (app : V -> WalRec -> V) (vals : S -> V) (wal : S -> option W) (step : S -> Op -> S).
Implicit Types (s : S) (op : Op) (ops : list Op) (rs : list WalRec).

(** One call: its records say what it does to the contents, and nothing durable
    is lost. [mid s op v]: a crash inside the call [op] on [s] may leave the
    contents [v]. *)
Definition logs_mid (mid : S -> Op -> V -> Prop) s op : Prop :=
  forall w, wal s = Some w -> sink_live w ->
    exists w' rs, wal (step s op) = Some w' /\ sink_extends w w' rs /\
      sink_image w `prefix_of` sink_image w' /\ vals (step s op) = foldl app (vals s) rs /\
      forall k, (k < length rs)%nat -> mid s op (foldl app (vals s) (take k rs)).

(** At most one record: the call happened or it did not. *)
Definition logs_one s s' : Prop :=
  forall w, wal s = Some w -> sink_live w ->
    exists w' rs, wal s' = Some w' /\ sink_extends w w' rs /\ (length rs <= 1)%nat /\
      sink_image w `prefix_of` sink_image w' /\ vals s' = foldl app (vals s) rs.

Definition unchanged s op (v : V) : Prop := v = vals s.

Lemma logs_one_mid (mid : S -> Op -> V -> Prop) s op :
  mid s op (vals s) -> logs_one s (step s op) -> logs_mid mid s op.
Proof.
  intros Hmid Hone w Hw Hl. destruct (Hone w Hw Hl) as (w' & rs & Hw' & Hext & Hlen & Himg & Hv).
  exists w', rs. do 4 (split; [done|]). intros k Hk. by assert (k = 0%nat) as -> by lia.
Qed.

Lemma logs_nothing s s' : wal s' = wal s -> vals s' = vals s -> logs_one s s'.
Proof.
  intros Hw Hn w Hs Hl. exists w, []. rewrite Hw, Hn. split; [done|].
  split; [by apply sink_extends_refl|]. split; [simpl; lia|done].
Qed.

Lemma logs_insert s s' id data :
  (forall w, wal s = Some w -> wal s' = Some (sink_insert id data w)) ->
  vals s' = app (vals s) (mkRec 1 id data) -> logs_one s s'.
Proof.
  intros Hw Hv w Hs Hl. exists (sink_insert id data w), [mkRec 1 id data]. split; [by apply Hw|].
  split; [by apply sink_insert_extends|]. split; [done|]. split; [by apply sink_insert_image|done].
Qed.

Lemma logs_flush s s' : wal s' = sink_flush <$> wal s -> vals s' = vals s -> logs_one s s'.
Proof.
  intros Hw Hv w Hs Hl. exists (sink_flush w), []. rewrite Hw, Hs. split; [done|].
  split; [by apply sink_flush_extends|]. split; [simpl; lia|]. split; [by apply sink_flush_grows|done].
Qed.

Definition logs_all (mid : S -> Op -> V -> Prop) s ops : Prop :=
  forall ops1 op ops2, ops = ops1 ++ op :: ops2 -> logs_mid mid (foldl step s ops1) op.

Definition logs_each s ops : Prop :=
  forall ops1 op ops2, ops = ops1 ++ op :: ops2 ->
    logs_one (foldl step s ops1) (step (foldl step s ops1) op).

Lemma logs_each_all s ops : logs_each s ops -> logs_all unchanged s ops.
Proof. intros Hl ops1 op ops2 Heq. by apply logs_one_mid, (Hl ops1 op ops2). Qed.

Lemma logs_all_cons mid s op ops : logs_all mid s (op :: ops) -> logs_mid mid s op /\ logs_all mid (step s op) ops.
Proof.
  intros Hl. split; [by apply (Hl [] op ops)|].
  intros ops1 op' ops2 ->. by apply (Hl (op :: ops1) op' ops2).
Qed.

(** Between the calls, or inside one. *)
Definition interrupted (mid : S -> Op -> V -> Prop) s ops (v : V) : Prop :=
  exists j, (j <= length ops)%nat /\
    (v = vals (foldl step s (take j ops)) \/
     exists op, ops !! j = Some op /\ mid (foldl step s (take j ops)) op v).

Lemma interrupted_cons mid s op ops v : interrupted mid (step s op) ops v -> interrupted mid s (op :: ops) v.
Proof. intros (j & Hj & Hv). exists (Datatypes.S j). simpl. split; [lia|done]. Qed.

(** What any prefix of the records stands for is what was there after some
    prefix of the calls, or inside the next one. *)
Lemma logs_run mid s ops w :
  logs_all mid s ops -> wal s = Some w -> sink_live w ->
  exists w' rs, wal (foldl step s ops) = Some w' /\ sink_extends w w' rs /\
    sink_image w `prefix_of` sink_image w' /\ vals (foldl step s ops) = foldl app (vals s) rs /\
    forall k, (k <= length rs)%nat -> interrupted mid s ops (foldl app (vals s) (take k rs)).
Proof.
  revert s w. induction ops as [|op ops IH]; intros s w Hlogs Hw Hl.
  { exists w, []. split; [done|]. split; [by apply sink_extends_refl|]. split; [done|]. split; [done|].
    intros k Hk. exists 0%nat. rewrite take_nil. split; [done|by left]. }
  apply logs_all_cons in Hlogs as [H1' Hlogs].
  destruct (H1' w Hw Hl) as (w1 & rs1 & Hw1 & Hext1 & Himg1 & Hv1 & Hmid).
  destruct (IH _ w1 Hlogs Hw1 (proj1 Hext1)) as (w2 & rs2 & Hw2 & Hext2 & Himg2 & Hv2 & Hk2).
  exists w2, (rs1 ++ rs2). split; [done|]. split; [by eapply sink_extends_trans|].
  split; [by etrans|]. split; [by rewrite foldl_app, <-Hv1|]. rewrite length_app.
  intros k Hk. destruct (decide (k < length rs1)%nat) as [Hlt|Hge].
  - rewrite take_app_le by lia. exists 0%nat. split; [simpl; lia|]. right. exists op.
    split; [done|by apply Hmid].
  - rewrite take_app, take_ge, foldl_app, <-Hv1 by lia. apply interrupted_cons, Hk2. lia.
Qed.

(** [s] holds what the records [rs0] of the file it was opened on and those
    sent since stand for, from [v0]. *)
Definition on_log (v0 : V) rs0 s : Prop :=
  exists w, wal s = Some w /\ sink_live w /\ sink_base w = MAGIC ++ encode_recs rs0 /\
    vals s = foldl app v0 (rs0 ++ sink_recs w).

(** And all of it is durable. *)
Definition on_synced_log (v0 : V) rs0 s : Prop :=
  exists w, wal s = Some w /\ sink_live w /\ sink_base w = MAGIC ++ encode_recs rs0 /\
    vals s = foldl app v0 (rs0 ++ sink_recs w) /\ sink_image w = MAGIC ++ encode_recs (rs0 ++ sink_recs w).

(** A file that a crash of [s] can leave. *)
Definition crash_leaves rs0 s (bs : bytes) : Prop :=
  exists w, wal s = Some w /\ Forall rec_ok (rs0 ++ sink_recs w) /\
    sink_image w `prefix_of` bs /\ bs `prefix_of` sink_base w ++ encode_recs (sink_recs w).

Lemma on_log_all mid v0 rs0 s ops : on_log v0 rs0 s -> logs_all mid s ops -> on_log v0 rs0 (foldl step s ops).
Proof.
  intros (w & Hw & Hl & Hb & Hv) Hlogs.
  destruct (logs_run mid s ops w Hlogs Hw Hl) as (w' & rs & Hw' & (Hl' & Hb' & Hr') & _ & Hv' & _).
  exists w'. rewrite Hw', Hb', Hr', Hv', Hv, (app_assoc rs0), (foldl_app _ (rs0 ++ _)). done.
Qed.

Lemma on_log_run v0 rs0 s ops : on_log v0 rs0 s -> logs_each s ops -> on_log v0 rs0 (foldl step s ops).
Proof. intros Hon Hlogs%logs_each_all. by eapply on_log_all. Qed.

Lemma on_log_flush v0 rs0 s s' :
  wal s' = sink_flush <$> wal s -> vals s' = vals s -> on_log v0 rs0 s -> on_synced_log v0 rs0 s'.
Proof.
  intros Hw' Hv' (w & Hw & Hl & Hb & Hv).
  destruct (sink_flush_extends w Hl) as (Hl' & Hb' & Hr'). rewrite app_nil_r in Hr'.
  exists (sink_flush w). rewrite Hw', Hw, Hv', Hb', Hr', (sink_flush_image w Hl), Hb, encode_recs_app.
  by rewrite <-app_assoc.
Qed.

(** The state that was last made durable, and calls after it; then a crash. What
    the file's complete records stand for is the contents after some prefix of
    those calls, or inside the next one; only if there are calls can the file end
    in a torn record. *)
Lemma crash_inside mid v0 rs0 s ops bs :
  on_synced_log v0 rs0 s -> logs_all mid s ops -> crash_leaves rs0 (foldl step s ops) bs ->
  exists rs n, Forall rec_ok rs /\ bs = MAGIC ++ take n (encode_recs rs) /\
    interrupted mid s ops (foldl app v0 (cut_recs rs n).1) /\ (ops = [] -> (cut_recs rs n).2 = Ok tt).
Proof.
  intros (w & Hw & Hl & Hb & Hv & Himg) Hlogs (w' & Hw' & Hok & Hlo & Hhi).
  destruct (logs_run mid s ops w Hlogs Hw Hl) as (w1 & rs & Hw1 & Hext & Hgrow & Hvs & Hk).
  pose proof Hext as (_ & Hb' & Hr'). rewrite Hw1 in Hw'. injection Hw' as <-.
  rewrite Hb', Hb, Hr', <-app_assoc, <-encode_recs_app in Hhi. rewrite app_assoc in Hhi.
  destruct (cut_after (rs0 ++ sink_recs w) rs bs) as (n & k & Hbs & Hkl & Hcut & Hnil).
  { rewrite <-Himg. by etrans. }
  { done. }
  exists ((rs0 ++ sink_recs w) ++ rs), n. rewrite Hr', app_assoc in Hok. split; [done|]. split; [done|].
  split.
  - rewrite Hcut. cbn [fst]. rewrite foldl_app, <-Hv. by apply Hk.
  - intros ->. apply Hnil. cbn [foldl] in Hw1. rewrite Hw in Hw1. injection Hw1 as <-.
    rewrite <-(app_nil_r (sink_recs w)) in Hr' at 1. by apply app_inv_head in Hr'.
Qed.

(** When every call sends at most one record. *)
Lemma crash_prefix v0 rs0 s ops bs :
  on_synced_log v0 rs0 s -> logs_each s ops -> crash_leaves rs0 (foldl step s ops) bs ->
  exists rs n j, Forall rec_ok rs /\ bs = MAGIC ++ take n (encode_recs rs) /\
    (j <= length ops)%nat /\ foldl app v0 (cut_recs rs n).1 = vals (foldl step s (take j ops)) /\
    (ops = [] -> (cut_recs rs n).2 = Ok tt).
Proof.
  intros Hon Hlogs%logs_each_all Hcrash.
  destruct (crash_inside _ _ _ _ _ _ Hon Hlogs Hcrash) as (rs & n & Hok & Hbs & (j & Hj & Hv) & Hnil).
  exists rs, n, j. do 3 (split; [done|]). split; [|done]. by destruct Hv as [->|(op & _ & ->)].
Qed.
End prefixes.

(** ** The node store *)

(** A call as single steps: [compact] deletes one node at a time. *)
Definition small_steps {W} (s : NodeStore W) (op : NodeOp) : list NodeOp :=
  match op with
  | OpCompact oldest => map OpHardDelete (compact_candidates oldest s)
  | _ => [op]
  end.

Section node_store.
Context {W : Type} `{WalSinkLaws W} `{CodecLaws Node}.
Implicit Types (s : NodeStore W) (op : NodeOp) (ops : list NodeOp).

Fixpoint small_run s ops : list NodeOp :=
  match ops with
  | [] => []
  | op :: ops' => small_steps s op ++ small_run (exec_op s op) ops'
  end.

Lemma small_steps_exec s op : exec_ops s (small_steps s op) = exec_op s op.
Proof.
  destruct op; try done. simpl. unfold compact. cbn [snd]. unfold exec_ops.
  generalize (compact_candidates oldest_active_tx s). intros ids. revert s.
  induction ids as [|id ids IH]; intros s; [done|]. simpl. apply IH.
Qed.

Lemma exec_ops_app s ops1 ops2 : exec_ops s (ops1 ++ ops2) = exec_ops (exec_ops s ops1) ops2.
Proof. apply foldl_app. Qed.

Lemma small_run_app s ops1 ops2 :
  small_run s (ops1 ++ ops2) = small_run s ops1 ++ small_run (exec_ops s ops1) ops2.
Proof. revert s. induction ops1 as [|op ops1 IH]; intros s; [done|]. simpl. by rewrite IH, app_assoc. Qed.

Lemma small_run_exec s ops : exec_ops s (small_run s ops) = exec_ops s ops.
Proof.
  revert s. induction ops as [|op ops IH]; intros s; [done|]. cbn [small_run].
  rewrite exec_ops_app, small_steps_exec. apply IH.
Qed.

Lemma small_run_no_compact s ops : Forall (fun op => forall o, op ≠ OpCompact o) (small_run s ops).
Proof.
  revert s. induction ops as [|op ops IH]; intros s; [constructor|]. simpl. apply Forall_app.
  split; [|apply IH]. destruct op; simpl; try by repeat constructor.
  apply Forall_map, Forall_true. by intros.
Qed.

Abbreviation node_logs_one := (logs_one apply_val nodes wal).

Lemma logs_put id n s s1 :
  wal s1 = wal s -> nodes s1 = <[id := n]> (nodes s) -> node_logs_one s (wal_insert id n s1).
Proof.
  intros Hw Hn. destruct (serialize_total n) as [data Hd].
  apply (logs_insert _ _ _ _ _ id data); unfold wal_insert; rewrite Hw.
  - intros w ->. by rewrite Hd.
  - unfold apply_val. cbn [r_opcode r_payload r_id Z.eqb Pos.eqb].
    rewrite (deserialize_serialize n data Hd). by destruct (wal s); rewrite ?Hd.
Qed.

Lemma logs_exec s op : (forall o, op ≠ OpCompact o) -> node_logs_one s (exec_op s op).
Proof.
  assert (forall f id, node_logs_one s (update_node f id s).2) as Hup.
  { intros f id. unfold update_node. destruct (nodes s !! id) as [n|]; [|by apply logs_nothing].
    by apply logs_put. }
  intros Hc. destruct op; cbn [exec_op]; try apply Hup.
  - apply logs_nothing; apply alloc_id_frame.
  - by apply logs_put.
  - rewrite insert_node_alloc. destruct (alloc_id_frame s) as [Hn Hw]. cbn [snd].
    unfold insert_with_id. apply logs_put; [exact Hw|]. simpl. by rewrite Hn.
  - intros w Hs Hl. unfold hard_delete, wal_delete. rewrite Hs.
    exists (sink_delete id w), [mkRec 2 id []]. unfold remove_from_memory. simpl.
    destruct (nodes s !! id) eqn:Hid; simpl; (split; [done|]);
      (split; [by apply sink_delete_extends|]); (split; [lia|]);
      (split; [by apply sink_delete_image|]); [done|].
    unfold apply_val. simpl. by rewrite delete_id.
  - by destruct (Hc oldest_active_tx).
  - apply logs_flush; unfold flush; by destruct (wal s) eqn:?.
Qed.

Lemma logs_small_run s s' ops : logs_each apply_val nodes wal exec_op s' (small_run s ops).
Proof.
  intros ops1 op ops2 Heq. apply logs_exec. pose proof (small_run_no_compact s ops) as Hf.
  rewrite Heq in Hf. apply Forall_app in Hf as [_ Hf]. by apply Forall_inv in Hf.
Qed.

Lemma node_open_on_log c file rs s :
  contract_ok (durability c) (wal_channel_capacity c) ->
  log_contents file = MAGIC ++ encode_recs rs -> Forall rec_ok rs -> open (W := W) c file = Ok s ->
  on_log apply_val nodes wal ∅ rs s.
Proof.
  intros Hc Hlog Hrs Ho. destruct (open_log c file rs Hc Hlog Hrs) as (w0 & Ho' & w & Hw & Hl & Hb & Hn).
  rewrite Ho in Ho'. injection Ho' as ->. exists w. by rewrite foldl_app.
Qed.

Lemma node_reopen c rs n :
  contract_ok (durability c) (wal_channel_capacity c) -> Forall rec_ok rs ->
  match (cut_recs rs n).2 with
  | Ok _ => exists s, open (W := W) c (Some (MAGIC ++ take n (encode_recs rs))) = Ok s /\
      nodes s = foldl apply_val ∅ (cut_recs rs n).1
  | _ => open (W := W) c (Some (MAGIC ++ take n (encode_recs rs))) = Err UnexpectedEof
  end.
Proof.
  intros Hc Hrs. destruct (open_after_crash (W := W) c rs n Hc Hrs) as [Hgood Hbad].
  destruct (cut_recs_error rs n) as [He|He]; rewrite He; auto.
Qed.

(** C13: what a crash can lose. The store is opened on a well-formed log, used,
    flushed and used again; then a crash leaves any file between what the WAL
    had made durable and all it was sent. Reopening that file either fails with
    the truncation error, or gives the nodes the store held after some prefix of
    the calls that includes every call before the flush ([compact] counting as
    the deletions it makes). *)
Theorem node_store_crash c file rs0 s0 ops1 ops2 bs :
  contract_ok (durability c) (wal_channel_capacity c) ->
  log_contents file = MAGIC ++ encode_recs rs0 -> Forall rec_ok rs0 -> open (W := W) c file = Ok s0 ->
  let ops := ops1 ++ OpFlush :: ops2 in
  crash_leaves wal rs0 (exec_ops s0 ops) bs ->
  open (W := W) c (Some bs) = Err UnexpectedEof \/
  exists s' j, open (W := W) c (Some bs) = Ok s' /\
    (length (small_run s0 ops1) < j <= length (small_run s0 ops))%nat /\
    nodes s' = nodes (exec_ops s0 (take j (small_run s0 ops))).
Proof.
  intros Hc Hlog Hrs Ho ops Hcrash. pose proof (node_open_on_log c file rs0 s0 Hc Hlog Hrs Ho) as Hon.
  apply (on_log_run _ _ _ exec_op _ _ _ (small_run s0 ops1)) in Hon; [|apply logs_small_run].
  change (foldl exec_op s0 ?ops) with (exec_ops s0 ops) in Hon. rewrite small_run_exec in Hon.
  apply (on_log_flush _ _ _ _ _ _ (flush (exec_ops s0 ops1))) in Hon;
    [|unfold flush; by destruct (wal (exec_ops s0 ops1)) eqn:?..].
  set (pre := small_run s0 (ops1 ++ [OpFlush])). set (s1 := flush (exec_ops s0 ops1)) in *.
  assert (exec_ops s0 pre = s1) as Hpre by (unfold pre; by rewrite small_run_exec, exec_ops_app).
  assert (small_run s0 ops = pre ++ small_run s1 ops2) as Hsr.
  { rewrite <-Hpre. unfold ops, pre. rewrite small_run_exec, <-small_run_app, <-app_assoc. done. }
  rewrite <-small_run_exec, Hsr, exec_ops_app, Hpre in Hcrash.
  destruct (crash_prefix _ _ _ _ _ _ _ _ _ Hon (logs_small_run s1 s1 ops2) Hcrash)
    as (rs & n & j & Hok & -> & Hj & Heq & _).
  pose proof (node_reopen c rs n Hc Hok) as Hre.
  destruct (cut_recs_error rs n) as [He|He]; rewrite He in Hre; [right|by left].
  destruct Hre as (s' & Hs' & Hn'). exists s', (length pre + j)%nat. split; [done|].
  assert (length pre = length (small_run s0 ops1) + 1)%nat as Hlp
    by (unfold pre; rewrite small_run_app, length_app; done).
  rewrite Hsr, length_app. split; [lia|].
  rewrite take_app_add', exec_ops_app, Hpre by done. by rewrite Hn', Heq.
Qed.
End node_store.

Section witnesses.
#[local] Existing Instances thread_sink thread_sink_laws.
#[local] Instance crash_codec : Codec Node := countable_codec.
#[local] Instance crash_codec_laws : CodecLaws Node := countable_codec_laws.

Definition crash_store : NodeStore WalThread :=
  match open balanced None with Ok s => s | _ => new end.

(** One node before the flush; after it a node, and a compaction of the first. *)
Definition crash_before : list NodeOp := [OpInsert [7] 0 1; OpSoftDelete 0 2].
Definition crash_after : list NodeOp := [OpInsert [8] 0 3; OpCompact 5].
Definition crash_ops : list NodeOp := crash_before ++ OpFlush :: crash_after.

Definition crash_thread : WalThread :=
  default (demo_thread Immediate None []) (wal (exec_ops crash_store crash_ops)).

(** The crash keeps three bytes of the record after the flush. *)
Definition crash_file : bytes :=
  take (length (sink_image crash_thread) + 3)
    (sink_base crash_thread ++ encode_recs (sink_recs crash_thread)).

Lemma node_store_crash_witness :
  open (W := WalThread) balanced (Some crash_file) = Err UnexpectedEof \/
  exists s' j, open (W := WalThread) balanced (Some crash_file) = Ok s' /\
    (2 < j <= 5)%nat /\ nodes s' = nodes (exec_ops crash_store (take j (small_run crash_store crash_ops))).
Proof.
  assert (length (small_run crash_store crash_before) = 2%nat /\
    length (small_run crash_store (crash_before ++ OpFlush :: crash_after)) = 5%nat) as [H2' H5'] by by vm_compute.
  destruct (node_store_crash balanced None [] crash_store crash_before crash_after crash_file)
    as [Hbad|(s' & j & Ho & Hj & Hn)]; [by_decide|done|done|by vm_compute| |by left|].
  { exists crash_thread. split; [by vm_compute|]. split; [by apply rec_okb_all; vm_compute|].
    split; by_decide. }
  right. exists s', j. rewrite H2', H5' in Hj. split; [exact Ho|]. split; [exact Hj|exact Hn].
Defined.
End witnesses.
