(* ===== verification/Utf8.v ===== *)
(** * Strings

    A Rust [String] is its UTF-8 bytes. [utf8_lossy] is the standard library's
    [String::from_utf8_lossy]: valid sequences are kept, and every maximal
    prefix of an ill-formed one becomes U+FFFD. *)

From S2P Require Export Prelude.

Open Scope Z_scope.

Definition in_range (lo hi : Z) (b : byte) : bool :=
  (lo <=? Z_of_byte b) && (Z_of_byte b <=? hi).

(** The bytes a lead byte may be followed by. *)
Definition second_ok (b1 b2 : byte) : bool :=
  match Z_of_byte b1 with
  | 0xE0 => in_range 0xA0 0xBF b2
  | 0xED => in_range 0x80 0x9F b2
  | 0xF0 => in_range 0x90 0xBF b2
  | 0xF4 => in_range 0x80 0x8F b2
  | _ => in_range 0x80 0xBF b2
  end.

Definition cont (b : byte) : bool := in_range 0x80 0xBF b.

Definition replacement : bytes := [Byte.xef; Byte.xbf; Byte.xbd].

Fixpoint utf8_lossy (bs : bytes) : bytes :=
  match bs with
  | [] => []
  | b1 :: t1 =>
      if in_range 0x00 0x7F b1 then b1 :: utf8_lossy t1
      else if in_range 0xC2 0xDF b1 then
        match t1 with
        | b2 :: t2 =>
            if cont b2 then b1 :: b2 :: utf8_lossy t2 else replacement ++ utf8_lossy t1
        | [] => replacement
        end
      else if in_range 0xE0 0xEF b1 then
        match t1 with
        | b2 :: t2 =>
            if second_ok b1 b2 then
              match t2 with
              | b3 :: t3 =>
                  if cont b3 then b1 :: b2 :: b3 :: utf8_lossy t3
                  else replacement ++ utf8_lossy t2
              | [] => replacement
              end
            else replacement ++ utf8_lossy t1
        | [] => replacement
        end
      else if in_range 0xF0 0xF4 b1 then
        match t1 with
        | b2 :: t2 =>
            if second_ok b1 b2 then
              match t2 with
              | b3 :: t3 =>
                  if cont b3 then
                    match t3 with
                    | b4 :: t4 =>
                        if cont b4 then b1 :: b2 :: b3 :: b4 :: utf8_lossy t4
                        else replacement ++ utf8_lossy t3
                    | [] => replacement
                    end
                  else replacement ++ utf8_lossy t2
              | [] => replacement
              end
            else replacement ++ utf8_lossy t1
        | [] => replacement
        end
      else replacement ++ utf8_lossy t1
  end.

(** The invariant of [String]: well-formed UTF-8. *)
Fixpoint utf8_valid (bs : bytes) : bool :=
  match bs with
  | [] => true
  | b1 :: t1 =>
      if in_range 0x00 0x7F b1 then utf8_valid t1
      else if in_range 0xC2 0xDF b1 then
        match t1 with b2 :: t2 => cont b2 && utf8_valid t2 | _ => false end
      else if in_range 0xE0 0xEF b1 then
        match t1 with
        | b2 :: b3 :: t3 => second_ok b1 b2 && cont b3 && utf8_valid t3
        | _ => false
        end
      else if in_range 0xF0 0xF4 b1 then
        match t1 with
        | b2 :: b3 :: b4 :: t4 => second_ok b1 b2 && cont b3 && cont b4 && utf8_valid t4
        | _ => false
        end
      else false
  end.

(** On a [String]'s own bytes nothing is replaced. *)
Lemma utf8_lossy_valid bs : utf8_valid bs = true -> utf8_lossy bs = bs.
Proof.
  remember (length bs) as n eqn:Hn.
  assert (length bs <= n)%nat as Hle by lia. clear Hn. revert bs Hle.
  induction n as [|n IH]; intros [|b1 t1] Hle; simpl in *; try done; [lia|].
  destruct (in_range 0 127 b1); [intros; f_equal; apply IH; [lia|done]|].
  destruct (in_range 194 223 b1).
  { destruct t1 as [|b2 t2]; [done|]. intros [-> Hv]%andb_true_iff. do 2 f_equal.
    apply IH; [simpl in *; lia|done]. }
  destruct (in_range 224 239 b1).
  { destruct t1 as [|b2 [|b3 t3]]; try done.
    intros [[-> ->]%andb_true_iff Hv]%andb_true_iff. do 3 f_equal.
    apply IH; [simpl in *; lia|done]. }
  destruct (in_range 240 244 b1); [|done].
  destruct t1 as [|b2 [|b3 [|b4 t4]]]; try done.
  intros [[[-> ->]%andb_true_iff ->]%andb_true_iff Hv]%andb_true_iff. do 4 f_equal.
  apply IH; [simpl in *; lia|done].
Qed.

Definition ascii (bs : bytes) : bool := forallb (in_range 0x00 0x7F) bs.

Lemma ascii_valid bs : ascii bs = true -> utf8_valid bs = true.
Proof.
  induction bs as [|b bs IH]; simpl; [done|]. by intros [-> H%IH]%andb_true_iff.
Qed.

Lemma ascii_take n bs : ascii bs = true -> ascii (take n bs) = true.
Proof.
  revert n. induction bs as [|b bs IH]; intros [|n]; simpl; try done.
  intros [-> Hb]%andb_true_iff. by apply IH.
Qed.

#[export] Hint Resolve ascii_valid ascii_take : lightgraph.
#[export] Hint Rewrite utf8_lossy_valid using (by eauto with lightgraph) : lightgraph.
