(* ===== verification/PropStore.v ===== *)
(** * The property store ([src/src/storage/prop_store.rs])

    One column per (label, property name), a row counter per label, and a WAL
    with one record per written cell. Strings are their UTF-8 bytes; the
    serializer of a cell's value is any [Codec (option Value)]. *)

From S2P Require Export Consistency RecLog Utf8.
From Stdlib Require Import SpecFloat.

Open Scope Z_scope.

(** ** Values *)

(** [i64] as [Z]; [f64] and [f32] as [spec_float]. *)
Inductive Value : Type :=
| VNull
| VBool (b : bool)
| VInt (i : Z)
| VFloat (f : spec_float)
| VString (s : bytes)
| VList (vs : list Value)
| VVector (fs : list spec_float).

(** [v as f64] of an [i64]: round to nearest, ties to even. *)
Definition f64_of_Z (v : Z) : spec_float := binary_normalize 53 1024 v 0 false.

Definition as_f64 (v : Value) : spec_float :=
  match v with
  | VInt i => f64_of_Z i
  | VFloat f => f
  | _ => S754_zero false
  end.

Definition as_str (v : Value) : bytes :=
  match v with VString s => s | _ => [] end.

Definition as_vec_f32 (v : Value) : option (list spec_float) :=
  match v with VVector fs => Some fs | _ => None end.

(** ** Columns *)

Module PropertyColumn.

Definition new : list (option Value) := [].
Definition with_capacity (cap : Z) : list (option Value) := [].

Definition push (val : option Value) (values : list (option Value)) : Z * list (option Value) :=
  (wrap32 (Z.of_nat (length values)), values ++ [val]).

Definition get (row : Z) (values : list (option Value)) : option (option Value) :=
  values !! Z.to_nat row.

Definition set (row : Z) (val : option Value) (values : list (option Value))
  : bool * list (option Value) :=
  if row <? Z.of_nat (length values)
  then (true, <[Z.to_nat row := val]> values)
  else (false, values).

(** [resize(min_len, None)], only ever to grow. *)
Definition extend_to (min_len : Z) (values : list (option Value)) : list (option Value) :=
  if Z.of_nat (length values) <? min_len
  then values ++ replicate (Z.to_nat min_len - length values) None
  else values.

Definition len (values : list (option Value)) : nat := length values.

End PropertyColumn.

(** ** The store *)

Record PropStore (W : Type) : Type := mkPropStore {
  columns : gmap (Z * bytes) (list (option Value));
  schemas : gmap Z Z;
  prop_wal : option W
}.
Arguments mkPropStore {W}.
Arguments columns {W}.
Arguments schemas {W}.
Arguments prop_wal {W}.

(** The columns after writing one cell, as [insert_prop] and replay both do. *)
Definition write_cell (label : Z) (prop : bytes) (row : Z) (value : option Value)
    (cols : gmap (Z * bytes) (list (option Value))) : gmap (Z * bytes) (list (option Value)) :=
  let col := default [] (cols !! (label, prop)) in
  <[(label, prop) := (PropertyColumn.set row value (PropertyColumn.extend_to (row + 1) col)).2]> cols.

(** The payload [wal_send_cell] builds around the serialized value. *)
Definition encode_cell (label : Z) (prop_name : bytes) (row : Z) (val_data : bytes) : bytes :=
  u32_le label ++ [byte_of_Z (Z.of_nat (length prop_name))] ++ prop_name ++ u32_le row ++ val_data.

Module PropStore.
Section PropStore.
Context {W : Type} `{WalSink W} `{Codec (option Value)}.
Implicit Types (s : PropStore W).

Definition new : PropStore W := {| columns := ∅; schemas := ∅; prop_wal := None |}.

(** The parsing half of the replay callback: label, name, row and value. *)
Definition decode_cell (payload : bytes) : option (Z * bytes * Z * option Value) :=
  if 10 <=? Z.of_nat (length payload) then
    let label := le_val (take 4 payload) in
    let name_len := Z.to_nat (Z_of_byte (nth 4 payload Byte.x00)) in
    let header_end := (5 + name_len)%nat in
    if (length payload <? header_end + 4)%nat then None
    else
      let prop_name := utf8_lossy (take name_len (drop 5 payload)) in
      let row := le_val (take 4 (drop header_end payload)) in
      match deserialize (drop (header_end + 4) payload) with
      | Some value => Some (label, prop_name, row, value)
      | None => None
      end
  else None.

(** The replay callback of [open]. *)
Definition replay_record (opcode id : Z) (payload : bytes) s : PropStore W :=
  if opcode =? 1 then
    match decode_cell payload with
    | Some (label, prop_name, row, value) =>
        {| columns := write_cell label prop_name row value (columns s);
           schemas := <[label := Z.max (default 0 (schemas s !! label)) (wrap32 (row + 1))]>
                        (schemas s);
           prop_wal := prop_wal s |}
    | None => s
    end
  else s.

Definition set_wal (w : option W) s : PropStore W :=
  {| columns := columns s; schemas := schemas s; prop_wal := w |}.

(** [file] is the content of [props.wal] in the data directory, if any. *)
Definition open (c : Consistency) (file : option bytes) : io (PropStore W) :=
  let? s :=
    if has_records file then
      let '(r, s) := replay_wal replay_record (default [] file) new in
      let? _ := r in Ok s
    else Ok new in
  let? w := sink_spawn (durability c) (wal_channel_capacity c) file in
  Ok (set_wal (Some w) s).

Definition wal_send_cell (label : Z) (prop_name : bytes) (row : Z) (value : option Value) s
  : PropStore W :=
  match prop_wal s with
  | Some w =>
      match serialize value with
      | Some val_data =>
          set_wal (Some (sink_insert label (encode_cell label prop_name row val_data) w)) s
      | None => s
      end
  | None => s
  end.

Definition alloc_row (label : Z) s : Z * PropStore W :=
  let row := default 0 (schemas s !! label) in
  (row, {| columns := columns s; schemas := <[label := wrap32 (row + 1)]> (schemas s);
           prop_wal := prop_wal s |}).

Definition set_columns cols s : PropStore W :=
  {| columns := cols; schemas := schemas s; prop_wal := prop_wal s |}.

Definition insert_prop (label : Z) (prop : bytes) (row : Z) (value : option Value) s
  : Z * PropStore W :=
  (row, wal_send_cell label prop row value
          (set_columns (write_cell label prop row value (columns s)) s)).

Definition get_prop (label : Z) (prop : bytes) (row : Z) s : option Value :=
  match columns s !! (label, prop) with
  | Some col => match PropertyColumn.get row col with Some v => v | None => None end
  | None => None
  end.

Definition set_prop (label : Z) (prop : bytes) (row : Z) (value : option Value) s
  : bool * PropStore W :=
  match columns s !! (label, prop) with
  | Some col =>
      let '(ok, col') := PropertyColumn.set row value col in
      if ok
      then (true, wal_send_cell label prop row value
                    (set_columns (<[(label, prop) := col']> (columns s)) s))
      else (false, s)
  | None => (false, s)
  end.

Definition insert_row (label : Z) (props : list (bytes * Value)) s : Z * PropStore W :=
  let '(row, s1) := alloc_row label s in
  (row, foldl (fun s '(name, v) => (insert_prop label name row (Some v) s).2) s1 props).

Definition get_row (label row : Z) s : list (bytes * Value) :=
  omap (fun '((lbl, name), col) =>
    if lbl =? label then
      match PropertyColumn.get row col with
      | Some (Some v) => Some (name, v)
      | _ => None
      end
    else None) (map_to_list (columns s)).

Definition column_count s : nat := size (columns s).
Definition label_count s : nat := size (schemas s).
Definition row_count (label : Z) s : Z := default 0 (schemas s !! label).

Definition flush s : PropStore W :=
  match prop_wal s with
  | Some w => set_wal (Some (sink_flush w)) s
  | None => s
  end.
End PropStore.
End PropStore.

(** ** Cells *)

Section cells.
Implicit Types (col : list (option Value)) (cols : gmap (Z * bytes) (list (option Value))).

(** What is stored in a cell: a row past the end of its column, and a column
    that does not exist, read as [None]. *)
Definition cell cols (label : Z) (prop : bytes) (row : Z) : option Value :=
  match cols !! (label, prop) with
  | Some col => match PropertyColumn.get row col with Some v => v | None => None end
  | None => None
  end.

Lemma extend_to_length n col :
  0 <= n -> Z.of_nat (length (PropertyColumn.extend_to n col)) = Z.max (Z.of_nat (length col)) n.
Proof.
  intros Hn. unfold PropertyColumn.extend_to. destruct (_ <? _) eqn:Hlt; [|blia].
  rewrite length_app, length_replicate. blia.
Qed.

Lemma extend_to_get n row col :
  match PropertyColumn.get row (PropertyColumn.extend_to n col) with Some v => v | None => None end =
  match PropertyColumn.get row col with Some v => v | None => None end.
Proof.
  unfold PropertyColumn.get, PropertyColumn.extend_to. destruct (_ <? _); [|done].
  destruct (decide (Z.to_nat row < length col)%nat).
  - by rewrite lookup_app_l.
  - rewrite lookup_app_r by lia. rewrite (proj2 (lookup_ge_None col _)) by lia.
    destruct (replicate _ _ !! _) as [v|] eqn:Hv; [|done].
    by apply lookup_replicate in Hv as [-> _].
Qed.

Lemma extend_to_id n col : n <= Z.of_nat (length col) -> PropertyColumn.extend_to n col = col.
Proof. intros Hn. unfold PropertyColumn.extend_to. destruct (_ <? _) eqn:?; [blia|done]. Qed.

Lemma set_extended row v col :
  0 <= row ->
  PropertyColumn.set row v (PropertyColumn.extend_to (row + 1) col) =
  (true, <[Z.to_nat row := v]> (PropertyColumn.extend_to (row + 1) col)).
Proof.
  intros Hrow. unfold PropertyColumn.set. rewrite extend_to_length by lia.
  destruct (_ <? _) eqn:?; [done|blia].
Qed.

Lemma cell_write label prop row v cols l p r :
  0 <= row -> 0 <= r ->
  cell (write_cell label prop row v cols) l p r =
  if decide ((l, p, r) = (label, prop, row)) then v else cell cols l p r.
Proof.
  intros Hrow Hr. unfold cell, write_cell. rewrite set_extended by done. simpl.
  destruct (decide ((l, p) = (label, prop))) as [[= -> ->]|Hlp].
  - rewrite lookup_insert_eq. unfold PropertyColumn.get.
    destruct (decide (r = row)) as [->|Hne].
    + rewrite decide_True by done. rewrite list_lookup_insert_eq; [done|].
      pose proof (extend_to_length (row + 1) (default [] (cols !! (label, prop)))). lia.
    + rewrite decide_False by congruence. rewrite list_lookup_insert_ne by lia.
      pose proof (extend_to_get (row + 1) r (default [] (cols !! (label, prop)))) as He.
      unfold PropertyColumn.get in He. rewrite He.
      destruct (cols !! (label, prop)); done.
  - rewrite lookup_insert_ne by done. rewrite decide_False by congruence. done.
Qed.

(** Setting a row a column already has is the same write. *)
Lemma write_cell_set label prop row v cols col :
  cols !! (label, prop) = Some col -> 0 <= row < Z.of_nat (length col) ->
  write_cell label prop row v cols = <[(label, prop) := <[Z.to_nat row := v]> col]> cols.
Proof.
  intros Hcol Hrow. unfold write_cell. rewrite Hcol. simpl. rewrite set_extended by lia. simpl.
  by rewrite extend_to_id by lia.
Qed.
End cells.

(** ** The cell record *)

Section record.
Context `{CodecLaws (option Value)}.

(** bincode writes an [Option]'s tag, so a serialized value is never empty. *)
Hypothesis serialize_nonempty : forall (v : option Value), serialize v ≠ Some [].

Lemma decode_encode_cell label name row v data :
  0 <= label <= u32_max -> 0 <= row <= u32_max -> (length name < 256)%nat ->
  utf8_valid name = true -> serialize v = Some data ->
  PropStore.decode_cell (encode_cell label name row data) = Some (label, name, row, v).
Proof.
  intros Hl Hr Hn Hu Hd. pose proof (serialize_nonempty v) as Hne. rewrite Hd in Hne.
  unfold PropStore.decode_cell, encode_cell.
  assert (Z_of_byte (byte_of_Z (Z.of_nat (length name))) = Z.of_nat (length name)) as Hb
    by (rewrite Z_of_byte_of_Z; apply Z.mod_small; lia).
  assert (0 < length data)%nat as Hlen by (destruct data; [done|simpl; lia]).
  rewrite !length_app, !length_u32_le. cbn [length].
  destruct (10 <=? _) eqn:H10; [|blia].
  set (lb := u32_le label). set (rb := u32_le row).
  assert (length lb = 4%nat) as Hlb by apply length_u32_le.
  assert (length rb = 4%nat) as Hrb by apply length_u32_le.
  rewrite (take_app_at (lb ++ [byte_of_Z (Z.of_nat (length name))] ++ name ++ rb ++ data) lb _ 4 eq_refl Hlb).
  replace (nth 4 (lb ++ [byte_of_Z (Z.of_nat (length name))] ++ name ++ rb ++ data) Byte.x00)
    with (byte_of_Z (Z.of_nat (length name))) by (rewrite app_nth2 by lia; by rewrite Hlb).
  rewrite Hb, Nat2Z.id. destruct (Nat.ltb_spec (4 + (1 + (length name + (4 + length data))))
    (5 + length name + 4)); [lia|].
  set (nb := [byte_of_Z (Z.of_nat (length name))]).
  rewrite (drop_app_at (lb ++ nb ++ name ++ rb ++ data) (lb ++ nb) (name ++ rb ++ data) 5)
    by (rewrite ?length_app, ?Hlb, <-?app_assoc; done).
  rewrite take_app_length, (utf8_lossy_valid name Hu).
  rewrite (drop_app_at (lb ++ nb ++ name ++ rb ++ data) (lb ++ nb ++ name) (rb ++ data)
    (5 + length name)) by (rewrite ?length_app, ?Hlb, <-?app_assoc; done).
  rewrite (drop_app_at (lb ++ nb ++ name ++ rb ++ data) (lb ++ nb ++ name ++ rb) data
    (5 + length name + 4)) by (rewrite ?length_app, ?Hlb, ?Hrb, <-?app_assoc; simpl; done || lia).
  rewrite (take_app_at _ rb data 4) by done. unfold lb, rb.
  rewrite (deserialize_serialize v data Hd), !le_val_u32, !wrap32_small by (unfold u32_max in *; lia).
  done.
Qed.

(** A name of 256 bytes or more does not come back. *)
Lemma decode_long_name label name row data l p r v :
  (256 <= length name)%nat -> ascii name = true ->
  PropStore.decode_cell (encode_cell label name row data) = Some (l, p, r, v) -> p ≠ name.
Proof.
  intros Hn Ha. unfold PropStore.decode_cell, encode_cell.
  set (lb := u32_le label). assert (length lb = 4%nat) as Hlb by apply length_u32_le.
  destruct (10 <=? _); [|done].
  set (k := Z.to_nat (Z_of_byte (nth 4 _ _))). destruct (_ <? _)%nat; [done|].
  destruct (deserialize _); [|done]. intros [= _ <- _ _] Heq.
  rewrite (drop_app_at _ (lb ++ [byte_of_Z (Z.of_nat (length name))])
    (name ++ u32_le row ++ data) 5) in Heq by (rewrite ?length_app, ?Hlb, <-?app_assoc; done).
  assert (k < 256)%nat as Hk
    by (unfold k; match goal with |- context [Z_of_byte ?b] => pose proof (Z_of_byte_range b) end;
        lia).
  rewrite take_app_le in Heq by lia.
  rewrite utf8_lossy_valid in Heq by (eauto with lightgraph).
  apply (f_equal length) in Heq. rewrite length_take in Heq. lia.
Qed.
End record.

(** ** What the methods do *)

Inductive PropOp : Type :=
| POpAllocRow (label : Z)
| POpInsertProp (label : Z) (prop : bytes) (row : Z) (value : option Value)
| POpSetProp (label : Z) (prop : bytes) (row : Z) (value : option Value)
| POpInsertRow (label : Z) (props : list (bytes * Value))
| POpFlush.

Section methods.
Context {W : Type} `{WalSink W} `{Codec (option Value)}.
Import PropStore.
Implicit Types (s : PropStore W).

Definition prop_exec_op s (op : PropOp) : PropStore W :=
  match op with
  | POpAllocRow label => (alloc_row label s).2
  | POpInsertProp label prop row value => (insert_prop label prop row value s).2
  | POpSetProp label prop row value => (set_prop label prop row value s).2
  | POpInsertRow label props => (insert_row label props s).2
  | POpFlush => flush s
  end.

Definition prop_exec_ops s (ops : list PropOp) : PropStore W := foldl prop_exec_op s ops.

Lemma wal_send_cell_columns label prop row v s :
  columns (wal_send_cell label prop row v s) = columns s.
Proof. unfold wal_send_cell. destruct (prop_wal s); [destruct (serialize v)|]; done. Qed.

Lemma get_prop_cell l p r s : get_prop l p r s = cell (columns s) l p r.
Proof. done. Qed.

Lemma set_prop_columns label prop row v s :
  0 <= row -> (set_prop label prop row v s).1 = true ->
  columns (set_prop label prop row v s).2 = write_cell label prop row v (columns s).
Proof.
  intros Hrow. unfold set_prop. destruct (columns s !! (label, prop)) as [col|] eqn:Hcol; [|done].
  unfold PropertyColumn.set. destruct (_ <? _) eqn:Hlt; [|done]. intros _. cbn [snd].
  rewrite wal_send_cell_columns. simpl. symmetry. apply write_cell_set; [done|blia].
Qed.

(** Cells are independent. After [insert_prop] the written cell reads as
    the value and every other cell of every column as before, wherever the
    row is; [set_prop] does the same when the column has the row, and
    otherwise returns [false] and changes nothing. *)
Theorem cells_independent label prop row v s :
  0 <= row ->
  (forall l p r, 0 <= r ->
    get_prop l p r (insert_prop label prop row v s).2 =
    if decide ((l, p, r) = (label, prop, row)) then v else get_prop l p r s) /\
  ((set_prop label prop row v s).1 = true <->
    exists col, columns s !! (label, prop) = Some col /\ row < Z.of_nat (length col)) /\
  ((set_prop label prop row v s).1 = true -> forall l p r, 0 <= r ->
    get_prop l p r (set_prop label prop row v s).2 =
    if decide ((l, p, r) = (label, prop, row)) then v else get_prop l p r s) /\
  ((set_prop label prop row v s).1 = false -> (set_prop label prop row v s).2 = s).
Proof.
  intros Hrow. split; [|split; [|split]].
  - intros l p r Hr. rewrite !get_prop_cell. unfold insert_prop. cbn [snd].
    rewrite wal_send_cell_columns. by apply cell_write.
  - unfold set_prop. destruct (columns s !! (label, prop)) as [col|]; [|naive_solver].
    unfold PropertyColumn.set. destruct (_ <? _) eqn:Hlt; simpl.
    + split; [|done]. intros _. exists col. split; [done|blia].
    + split; [done|]. intros (col' & [= <-] & ?). blia.
  - intros Hok l p r Hr. rewrite !get_prop_cell, set_prop_columns by done. by apply cell_write.
  - unfold set_prop. destruct (columns s !! (label, prop)); [|done].
    destruct (PropertyColumn.set row v l) as [[] ?]; done.
Qed.
End methods.

(** ** Recovery *)

Section recovery.
Context {W : Type} `{WalSinkLaws W} `{CodecLaws (option Value)}.
Hypothesis serialize_nonempty : forall (v : option Value), serialize v ≠ Some [].
Import PropStore.
Implicit Types (s : PropStore W) (rs : list WalRec).

(** Labels and rows are [u32]s, names Rust strings short enough for the
    record's length byte. *)
Definition cell_ok (label : Z) (prop : bytes) (row : Z) : Prop :=
  0 <= label <= u32_max /\ 0 <= row <= u32_max /\ (length prop < 256)%nat /\
  utf8_valid prop = true.

#[export] Instance cell_ok_dec label prop row : Decision (cell_ok label prop row) :=
  ltac:(unfold cell_ok; apply _).

Definition prop_op_ok s (op : PropOp) : Prop :=
  match op with
  | POpInsertProp label prop row _ | POpSetProp label prop row _ => cell_ok label prop row
  | POpInsertRow label props =>
      Forall (fun '(prop, _) => cell_ok label prop (alloc_row label s).1) props
  | _ => True
  end.

Fixpoint prop_ops_ok s (ops : list PropOp) : Prop :=
  match ops with
  | [] => True
  | op :: ops' => prop_op_ok s op /\ prop_ops_ok (prop_exec_op s op) ops'
  end.

(** The columns a log stands for. *)
Definition apply_cell (cols : gmap (Z * bytes) (list (option Value))) (r : WalRec)
  : gmap (Z * bytes) (list (option Value)) :=
  if r_opcode r =? 1 then
    match decode_cell (r_payload r) with
    | Some (label, name, row, v) => write_cell label name row v cols
    | None => cols
    end
  else cols.

Definition recover_cols rs cols := foldl apply_cell cols rs.

Lemma replay_record_columns rs s :
  columns (apply_recs replay_record rs s) = recover_cols rs (columns s).
Proof.
  revert s. induction rs as [|[op id pl] rs IH]; intros s; [done|]. simpl. rewrite IH.
  unfold apply_rec, replay_record, apply_cell. simpl. destruct (op =? 1); [|done].
  by destruct (decode_cell pl) as [[[[? ?] ?] ?]|].
Qed.

Definition props_logged cols0 (b : bytes) s : Prop :=
  exists w, prop_wal s = Some w /\ sink_live w /\ sink_base w = b /\
    columns s = recover_cols (sink_recs w) cols0.

Lemma props_logged_cell cols0 b label prop row v s :
  cell_ok label prop row -> props_logged cols0 b s ->
  props_logged cols0 b (wal_send_cell label prop row v
    (set_columns (write_cell label prop row v (columns s)) s)).
Proof.
  intros (Hl & Hr & Hn & Hu) (w & Hw & Hlive & Hb & Hcols). unfold wal_send_cell. simpl.
  rewrite Hw. destruct (serialize_total v) as [data Hd]. rewrite Hd.
  destruct (sink_insert_extends w label (encode_cell label prop row data) Hlive)
    as (Hlive' & Hb' & Hr').
  eexists. split; [done|]. split; [done|]. split; [congruence|].
  rewrite Hr'. unfold recover_cols. rewrite foldl_app. fold (recover_cols (sink_recs w) cols0).
  cbn [foldl]. unfold apply_cell. cbn [r_opcode r_payload Z.eqb Pos.eqb].
  rewrite (decode_encode_cell serialize_nonempty label prop row v data) by done.
  by rewrite <-Hcols.
Qed.

Lemma props_logged_frame cols0 b s s' :
  columns s' = columns s -> prop_wal s' = prop_wal s ->
  props_logged cols0 b s -> props_logged cols0 b s'.
Proof. intros Hc Hw (w & ?). exists w. by rewrite Hc, Hw. Qed.

Lemma props_logged_set cols0 b label prop row v s :
  cell_ok label prop row -> props_logged cols0 b s ->
  props_logged cols0 b (set_prop label prop row v s).2.
Proof.
  intros Hok Hlog. unfold set_prop. destruct (columns s !! (label, prop)) as [col|] eqn:Hcol; [|done].
  unfold PropertyColumn.set. destruct (_ <? _) eqn:Hlt; [|done]. cbn [snd].
  rewrite <-(write_cell_set label prop row v (columns s) col)
    by (done || destruct Hok as (_ & ? & _); blia).
  by apply props_logged_cell.
Qed.

Lemma prop_exec_op_logged cols0 b s op :
  prop_op_ok s op -> props_logged cols0 b s -> props_logged cols0 b (prop_exec_op s op).
Proof.
  intros Hok Hlog. destruct op as [label|label prop row v|label prop row v|label props|]; simpl in *.
  - by apply (props_logged_frame _ _ s).
  - by apply props_logged_cell.
  - by apply props_logged_set.
  - unfold insert_row. unfold alloc_row in *. cbn [fst snd] in *.
    set (row := default 0 (schemas s !! label)) in *.
    assert (props_logged cols0 b {| columns := columns s;
      schemas := <[label:=wrap32 (row + 1)]> (schemas s); prop_wal := prop_wal s |}) as Hlog1
      by by apply (props_logged_frame _ _ s).
    revert Hlog1. generalize (mkPropStore (columns s) (<[label:=wrap32 (row + 1)]> (schemas s)) (prop_wal s)).
    induction Hok as [|[prop v] props Hp Hok IH]; intros s1 Hlog1; simpl; [done|].
    apply IH. by apply props_logged_cell.
  - destruct Hlog as (w & Hw & Hlive & Hb & Hcols). unfold flush. rewrite Hw.
    destruct (sink_flush_extends w Hlive) as (Hl' & Hb' & Hr').
    exists (sink_flush w). rewrite Hr', app_nil_r. split_done. congruence.
Qed.

Lemma prop_exec_ops_logged cols0 b s ops :
  prop_ops_ok s ops -> props_logged cols0 b s -> props_logged cols0 b (prop_exec_ops s ops).
Proof.
  unfold prop_exec_ops. revert s. induction ops as [|op ops IH]; intros s Hok Hlog; [done|].
  destruct Hok as [Hop Hok]. apply IH; [done|]. by apply prop_exec_op_logged.
Qed.

Lemma prop_open_log c file rs :
  contract_ok (durability c) (wal_channel_capacity c) ->
  log_contents file = MAGIC ++ encode_recs rs -> Forall rec_ok rs ->
  exists w, open (W := W) c file = Ok (set_wal (Some w) (apply_recs replay_record rs new)) /\
    props_logged (recover_cols rs ∅) (MAGIC ++ encode_recs rs)
      (set_wal (Some w) (apply_recs replay_record rs new)).
Proof.
  intros Hc Hlog Hrs. unfold open.
  destruct (sink_spawn_total (W := W) (durability c) (wal_channel_capacity c) file Hc) as [w Hw].
  destruct (sink_spawn_live _ _ _ _ Hc Hw) as (Hl & Hb & Hr & _).
  rewrite Hw. exists w. split.
  - destruct (log_contents_cases file rs Hlog) as [[-> ->]|(_ & -> & ->)]; [done|].
    by rewrite replay_wal_recs.
  - exists w. rewrite Hr. split_done; [congruence|]. cbn [columns set_wal].
    by rewrite replay_record_columns.
Qed.

(** C17: durability of the property store. It is opened on a well-formed log (or
    none) at a level that fsyncs and used; every cell is written under a name of less than 256 bytes
    (longer ones are lost, see [long_names_lost]), with label and row in the range
    of their types, and the records fit the format. Once the writes are flushed,
    the store reopened on what a crash cannot take back has the same columns, and
    so answers every [get_prop] as the closed one did. *)
Theorem prop_store_recovers c file rs0 s0 ops w :
  contract_ok (durability c) (wal_channel_capacity c) ->
  log_contents file = MAGIC ++ encode_recs rs0 ->
  open (W := W) c file = Ok s0 -> prop_ops_ok s0 ops ->
  prop_wal (prop_exec_ops s0 ops) = Some w -> Forall rec_ok (rs0 ++ sink_recs w) ->
  exists s', open (W := W) c (Some (sink_image (sink_flush w))) = Ok s' /\
    columns s' = columns (prop_exec_ops s0 ops) /\
    forall l p r, get_prop l p r s' = get_prop l p r (prop_exec_ops s0 ops).
Proof.
  intros Hc Hlog Ho Hops Hw Hok. pose proof (proj1 (Forall_app _ _ _) Hok) as [Hok0 _].
  destruct (prop_open_log c file rs0 Hc Hlog Hok0) as (w0 & Ho' & Hlg).
  rewrite Ho in Ho'. injection Ho' as Hs0. rewrite <-Hs0 in Hlg.
  destruct (prop_exec_ops_logged _ _ s0 ops Hops Hlg) as (w' & Hw' & Hl & Hb & Hcols).
  assert (w' = w) as -> by congruence.
  rewrite (sink_flush_image w Hl), Hb, <-app_assoc, <-encode_recs_app.
  destruct (prop_open_log c (Some (MAGIC ++ encode_recs (rs0 ++ sink_recs w))) _ Hc eq_refl Hok)
    as (w1 & Hs1 & _).
  eexists. split; [done|].
  assert (columns (set_wal (Some w1) (apply_recs replay_record (rs0 ++ sink_recs w) new)) =
    columns (prop_exec_ops s0 ops)) as Hsame.
  { cbn [columns set_wal]. rewrite replay_record_columns, Hcols. unfold recover_cols.
    by rewrite foldl_app. }
  split; [done|]. intros l p r. by rewrite !get_prop_cell, Hsame.
Qed.
End recovery.

(** ** What recovery loses *)

Section losses.
Context {W : Type} `{WalSinkLaws W} `{CodecLaws (option Value)}.
Import PropStore.
Implicit Types (s : PropStore W).

Lemma open_new c s0 :
  contract_ok (durability c) (wal_channel_capacity c) -> open (W := W) c None = Ok s0 ->
  columns s0 = ∅ /\ schemas s0 = ∅ /\
  exists w, prop_wal s0 = Some w /\ sink_live w /\ sink_base w = MAGIC /\ sink_recs w = [].
Proof.
  intros Hc Ho. unfold open in Ho. simpl in Ho.
  destruct (sink_spawn_total (W := W) (durability c) (wal_channel_capacity c) None Hc) as [w Hw].
  destruct (sink_spawn_live _ _ _ _ Hc Hw) as (Hl & Hb & Hr & _).
  rewrite Hw in Ho. injection Ho as <-. split_done. by exists w.
Qed.

(** Long property names are lost. The record has one byte for the length
    of the name: a value stored under an (ASCII) name of 256 bytes or more
    reads back until the store is closed, and is gone after the reopen. *)
Theorem long_names_lost c s0 label name row v w :
  contract_ok (durability c) (wal_channel_capacity c) -> open (W := W) c None = Ok s0 ->
  (256 <= length name)%nat -> ascii name = true -> 0 <= row ->
  let s := (insert_prop label name row (Some v) s0).2 in
  prop_wal s = Some w -> Forall rec_ok (sink_recs w) ->
  get_prop label name row s = Some v /\
  exists s', open (W := W) c (Some (sink_image (sink_flush w))) = Ok s' /\
    get_prop label name row s' = None.
Proof.
  intros Hc Ho Hlen Ha Hrow s. destruct (open_new c s0 Hc Ho) as (Hcols & _ & w0 & Hw0 & Hl0 & Hb0 & Hr0).
  destruct (serialize_total (Some v)) as [data Hd].
  assert (prop_wal s = Some (sink_insert label (encode_cell label name row data) w0)) as Hs
    by (unfold s, insert_prop, wal_send_cell; simpl; by rewrite Hw0, Hd).
  rewrite Hs. intros [= <-] Hok. split.
  { unfold s, insert_prop. cbn [snd]. rewrite get_prop_cell, wal_send_cell_columns. cbn [columns set_columns].
    by rewrite cell_write, decide_True. }
  destruct (sink_insert_extends w0 label (encode_cell label name row data) Hl0) as (Hl1 & Hb1 & Hr1).
  rewrite Hr0 in Hr1. cbn [app] in Hr1. rewrite sink_flush_image, Hb1, Hb0 by done.
  set (rs := sink_recs (sink_insert label (encode_cell label name row data) w0)) in *.
  destruct (prop_open_log c (Some (MAGIC ++ encode_recs rs)) rs Hc eq_refl Hok) as (w1 & Hs1 & _).
  eexists. split; [done|]. rewrite get_prop_cell. cbn [columns set_wal].
  rewrite replay_record_columns, Hr1. unfold recover_cols. cbn [foldl]. unfold apply_cell.
  cbn [r_opcode r_payload Z.eqb Pos.eqb].
  destruct (decode_cell _) as [[[[l p] r] v']|] eqn:Hdec; [|done].
  apply decode_long_name in Hdec; [|done..]. unfold cell, write_cell.
  by rewrite lookup_insert_ne by congruence.
Qed.

(** A row without properties is not logged. [insert_row] hands out a row
    and counts it, but with no property nothing reaches the WAL: after a
    reopen the count is 0 and the next [insert_row] hands out the same row. *)
Theorem empty_row_reused c s0 label props w :
  contract_ok (durability c) (wal_channel_capacity c) -> open (W := W) c None = Ok s0 ->
  let s := (insert_row label [] s0).2 in
  prop_wal s = Some w ->
  (insert_row label [] s0).1 = 0 /\ row_count label s = 1 /\
  exists s', open (W := W) c (Some (sink_image (sink_flush w))) = Ok s' /\
    row_count label s' = 0 /\ (insert_row label props s').1 = 0.
Proof.
  intros Hc Ho s. destruct (open_new c s0 Hc Ho) as (_ & Hsch & w0 & Hw0 & Hl0 & Hb0 & Hr0).
  assert (schemas s !! label = Some 1) as Hs1.
  { unfold s, insert_row, alloc_row. simpl. rewrite Hsch. apply lookup_insert_eq. }
  assert (prop_wal s = Some w0) as -> by (unfold s, insert_row; simpl; done). intros [= <-].
  split; [unfold insert_row, alloc_row; simpl; by rewrite Hsch|].
  split; [unfold row_count; by rewrite Hs1|].
  rewrite sink_flush_image, Hb0, Hr0 by done.
  destruct (prop_open_log c (Some (MAGIC ++ encode_recs [])) [] Hc eq_refl) as (w1 & Ho1 & _);
    [constructor|].
  eexists. split; [done|]. unfold row_count, insert_row, alloc_row. simpl. done.
Qed.
End losses.

(** ** A concrete serializer for values, and the theorems at concrete stores *)

(** Induction over values with the list case. *)
Lemma Value_ind_list (P : Value -> Prop) :
  P VNull -> (forall b, P (VBool b)) -> (forall i, P (VInt i)) -> (forall f, P (VFloat f)) ->
  (forall s, P (VString s)) -> (forall vs, Forall P vs -> P (VList vs)) ->
  (forall fs, P (VVector fs)) -> forall v, P v.
Proof.
  intros Hn Hb Hi Hf Hs Hl Hv. fix IH 1. intros [|b|i|f|s|vs|fs];
    [apply Hn|apply Hb|apply Hi|apply Hf|apply Hs| |apply Hv].
  apply Hl. induction vs as [|v vs IHvs]; constructor; [apply IH|apply IHvs].
Qed.

Definition value_leaf : Type := unit + bool + Z + spec_float + bytes + list spec_float.

Fixpoint value_tree (v : Value) : gen_tree value_leaf :=
  match v with
  | VNull => GenLeaf (inl (inl (inl (inl (inl tt)))))
  | VBool b => GenLeaf (inl (inl (inl (inl (inr b)))))
  | VInt i => GenLeaf (inl (inl (inl (inr i))))
  | VFloat f => GenLeaf (inl (inl (inr f)))
  | VString s => GenLeaf (inl (inr s))
  | VList vs => GenNode 0 (map value_tree vs)
  | VVector fs => GenLeaf (inr fs)
  end.

Fixpoint tree_value (t : gen_tree value_leaf) : Value :=
  match t with
  | GenLeaf (inl (inl (inl (inl (inl _))))) => VNull
  | GenLeaf (inl (inl (inl (inl (inr b))))) => VBool b
  | GenLeaf (inl (inl (inl (inr i)))) => VInt i
  | GenLeaf (inl (inl (inr f))) => VFloat f
  | GenLeaf (inl (inr s)) => VString s
  | GenLeaf (inr fs) => VVector fs
  | GenNode _ ts => VList (map tree_value ts)
  end.

Lemma tree_value_tree v : tree_value (value_tree v) = v.
Proof.
  induction v as [| | | | |vs IH|] using Value_ind_list; simpl; try done.
  f_equal. rewrite map_map. induction IH as [|v vs Hv _ IHvs]; simpl; [done|]. by rewrite Hv, IHvs.
Qed.

#[export] Instance Value_eq_dec : EqDecision Value.
Proof.
  refine (fun v1 v2 => cast_if (decide (value_tree v1 = value_tree v2))).
  - abstract (by rewrite <-(tree_value_tree v1), <-(tree_value_tree v2), e).
  - abstract congruence.
Defined.

#[export] Instance Value_countable : Countable Value.
Proof. refine (inj_countable' value_tree tree_value _). apply tree_value_tree. Defined.

Section witnesses.
#[local] Existing Instances LogSink.sink LogSink.laws.
#[local] Instance value_codec : Codec (option Value) := countable_codec.
#[local] Instance value_codec_laws : CodecLaws (option Value) := countable_codec_laws.
Import PropStore.

Lemma value_codec_nonempty : forall (v : option Value), serialize v ≠ Some [].
Proof. intros v. simpl. unfold bytes_of_pos. by destruct (encode v). Qed.

Definition prop_demo_store : PropStore LogSink.t :=
  match open balanced None with Ok s => s | _ => new end.

(** "age" and "é", in UTF-8. *)
Definition prop_age : bytes := [Byte.x61; Byte.x67; Byte.x65].
Definition prop_e_acute : bytes := [Byte.xc3; Byte.xa9].

Definition prop_demo_ops : list PropOp :=
  [POpInsertRow 1 [(prop_age, VInt 30); (prop_e_acute, VList [VNull; VBool true])];
   POpAllocRow 1; POpInsertProp 1 prop_age 3 (Some (VInt 31)); POpSetProp 1 prop_age 0 None;
   POpSetProp 1 prop_e_acute 5 None; POpFlush].

Definition prop_demo_wal s : LogSink.t := default (LogSink.mk [] [] 0 0) (prop_wal s).

Lemma cells_independent_witness :
  get_prop 1 prop_age 3 (prop_exec_ops prop_demo_store prop_demo_ops) = Some (VInt 31) /\
  (set_prop 1 prop_age 4 None (prop_exec_ops prop_demo_store prop_demo_ops)).1 = false.
Proof.
  destruct (cells_independent 1 prop_age 4 None (prop_exec_ops prop_demo_store prop_demo_ops))
    as (_ & Hset & _); [done|]. split; [by vm_compute|].
  apply not_true_iff_false. rewrite Hset. intros (col & Hcol & Hlt).
  vm_compute in Hcol. injection Hcol as <-. by vm_compute in Hlt.
Defined.

Lemma prop_store_recovers_witness :
  exists s', open (W := LogSink.t) balanced (Some (sink_image (sink_flush
      (prop_demo_wal (prop_exec_ops prop_demo_store prop_demo_ops))))) = Ok s' /\
    get_prop 1 prop_age 3 s' = Some (VInt 31).
Proof.
  destruct (prop_store_recovers value_codec_nonempty balanced None [] prop_demo_store prop_demo_ops
    (prop_demo_wal (prop_exec_ops prop_demo_store prop_demo_ops))) as (s' & Ho & _ & Hg);
    [by_decide|by vm_compute|by vm_compute| |by vm_compute|by_decide|].
  - repeat constructor; vm_compute; congruence || lia || done.
  - exists s'. split; [done|]. rewrite Hg. by vm_compute.
Defined.

Definition long_name : bytes := replicate 256 Byte.x61.

Lemma long_names_lost_witness :
  let s := (insert_prop 1 long_name 0 (Some (VInt 7)) prop_demo_store).2 in
  get_prop 1 long_name 0 s = Some (VInt 7) /\
  exists s', open (W := LogSink.t) balanced (Some (sink_image (sink_flush (prop_demo_wal s)))) = Ok s' /\
    get_prop 1 long_name 0 s' = None.
Proof.
  apply (long_names_lost balanced prop_demo_store 1 long_name 0 (VInt 7));
    [by_decide|by vm_compute|by vm_compute|by vm_compute|done|by vm_compute|by_decide].
Defined.

Lemma empty_row_reused_witness :
  let s := (insert_row 1 [] prop_demo_store).2 in
  row_count 1 s = 1 /\
  exists s', open (W := LogSink.t) balanced (Some (sink_image (sink_flush (prop_demo_wal s)))) = Ok s' /\
    (insert_row 1 [(prop_age, VNull)] s').1 = 0.
Proof.
  intros s. destruct (empty_row_reused balanced prop_demo_store 1 [(prop_age, VNull)]
    (prop_demo_wal s)) as (_ & Hc & s' & Ho & _ & Hr); [by_decide|by vm_compute|by vm_compute|].
  split; [exact Hc|]. by exists s'.
Defined.
End witnesses.
