(* ===== verification/TxManager.v ===== *)
(** * The ticket lock ([src/src/transaction/tx_manager.rs])

    The two atomics as a record, [commit] and [rollback] as the loops they are:
    one iteration as a function of the value it loads, the whole loop over the
    sequence of loaded values, and all threads together as a step relation in
    which every atomic load, store and [fetch_add] is one step. [tx_id - 1] is
    the release build's wrapping subtraction. *)

From S2P Require Export Prelude.
From stdpp Require Import relations.

Open Scope Z_scope.

(** Max spin iterations before commit times out. *)
Definition SPIN_LIMIT : Z := 100000.

Record TxManager : Type := mkTxManager {
  next_tx_id : Z;
  committed_tx_id : Z
}.

Module TxManager.

Definition new : TxManager := {| next_tx_id := 1; committed_tx_id := 0 |}.

(** [impl Default] *)
Definition TxManager_default : TxManager := new.

Definition begin_read (m : TxManager) : Z := committed_tx_id m.

Definition begin_write (m : TxManager) : Z * TxManager :=
  (next_tx_id m,
   {| next_tx_id := wrap64 (next_tx_id m + 1); committed_tx_id := committed_tx_id m |}).

Definition latest_committed (m : TxManager) : Z := committed_tx_id m.

(** [committed_tx_id.store(tx_id)] *)
Definition store_committed (tx_id : Z) (m : TxManager) : TxManager :=
  {| next_tx_id := next_tx_id m; committed_tx_id := tx_id |}.

End TxManager.

(** ** The commit loop *)

Inductive spin_result : Type :=
| Turn
| Again (spins : Z)
| GiveUp.

(** One iteration of [commit], having loaded [current]. *)
Definition commit_iter (tx_id spins current : Z) : spin_result :=
  let expected := wrap64 (tx_id - 1) in
  if current =? expected then Turn
  else
    let spins := spins + 1 in
    if SPIN_LIMIT <? spins then GiveUp else Again spins.

(** One iteration of [rollback]: is it our turn? *)
Definition rollback_iter (tx_id current : Z) : bool := current =? wrap64 (tx_id - 1).

(** [Spinning] is not an error of the program: it marks a run of the loop that
    exhausted its fuel, which [commit_returns] excludes. *)
Inductive commit_error : Type :=
| Timeout
| AlreadyCommittedOrRolledBack
| Spinning.

(** [commit] over the values its successive loads return, with the number of
    loads made. *)
Fixpoint commit_loop (fuel : nat) (load : nat -> Z) (k : nat) (tx_id spins : Z)
  : option (res commit_error unit * nat) :=
  match fuel with
  | O => None
  | S fuel' =>
      match commit_iter tx_id spins (load k) with
      | Turn => Some (Ok tt, S k)
      | GiveUp => Some (Err Timeout, S k)
      | Again spins' => commit_loop fuel' load (S k) tx_id spins'
      end
  end.

Lemma commit_loop_run (load : nat -> Z) tx_id fuel k spins :
  Z.of_nat k = spins -> Z.of_nat k <= SPIN_LIMIT ->
  Z.of_nat fuel + spins = SPIN_LIMIT + 1 ->
  (forall j, (j < k)%nat -> load j ≠ wrap64 (tx_id - 1)) ->
  exists r n, commit_loop fuel load k tx_id spins = Some (r, n) /\
    (0 < n)%nat /\ Z.of_nat n <= SPIN_LIMIT + 1 /\
    (forall j, (j < n - 1)%nat -> load j ≠ wrap64 (tx_id - 1)) /\
    ((r = Ok tt /\ load (n - 1)%nat = wrap64 (tx_id - 1)) \/
     (r = Err Timeout /\ Z.of_nat n = SPIN_LIMIT + 1 /\ load (n - 1)%nat ≠ wrap64 (tx_id - 1))).
Proof.
  revert k spins. induction fuel as [|fuel IH]; intros k spins Hk Hlim Hfuel Hbefore; [lia|].
  simpl. unfold commit_iter. destruct (_ =? _) eqn:Heq.
  - exists (Ok tt), (S k). replace (S k - 1)%nat with k by lia. split_done. left. split; [done|blia].
  - apply Z.eqb_neq in Heq. destruct (_ <? _) eqn:Hgive.
    + exists (Err Timeout), (S k). replace (S k - 1)%nat with k by lia. split_done.
      right. split_done.
    + apply IH; try blia. intros j Hj. destruct (decide (j = k)) as [->|]; [done|].
      apply Hbefore. lia.
Qed.

(** C24: [commit] always returns. Whatever values its loads of the counter
    return, as the other threads move it, it makes at least one and at most
    [SPIN_LIMIT + 1] of them; it succeeds at the first that shows all earlier
    tickets finished, and times out exactly when none of [SPIN_LIMIT + 1] does. *)
Theorem commit_returns (load : nat -> Z) tx_id :
  exists r n, commit_loop (Z.to_nat (SPIN_LIMIT + 1)) load 0 tx_id 0 = Some (r, n) /\
    (0 < n)%nat /\ Z.of_nat n <= SPIN_LIMIT + 1 /\
    (forall j, (j < n - 1)%nat -> load j ≠ wrap64 (tx_id - 1)) /\
    ((r = Ok tt /\ load (n - 1)%nat = wrap64 (tx_id - 1)) \/
     (r = Err Timeout /\ Z.of_nat n = SPIN_LIMIT + 1 /\ load (n - 1)%nat ≠ wrap64 (tx_id - 1))).
Proof.
  apply commit_loop_run; [done|unfold SPIN_LIMIT; lia|unfold SPIN_LIMIT; lia|]. intros j. lia.
Qed.

(** [rollback] over the values its successive loads return, with the number of
    loads made. It has no limit: no fuel is enough for a counter that never shows
    the turn ([rollback_returns]). *)
Fixpoint rollback_loop (fuel : nat) (load : nat -> Z) (k : nat) (tx_id : Z) : option nat :=
  match fuel with
  | O => None
  | S fuel' => if rollback_iter tx_id (load k) then Some (S k) else rollback_loop fuel' load (S k) tx_id
  end.

Lemma rollback_loop_none fuel load k tx_id :
  rollback_loop fuel load k tx_id = None <->
  forall j, (k <= j < k + fuel)%nat -> load j ≠ wrap64 (tx_id - 1).
Proof.
  revert k. induction fuel as [|fuel IH]; intros k; simpl; [split; [lia|done]|].
  unfold rollback_iter. destruct (load k =? wrap64 (tx_id - 1)) eqn:Heq.
  - apply Z.eqb_eq in Heq. split; [done|]. intros Hall. by destruct (Hall k); [lia|].
  - apply Z.eqb_neq in Heq. rewrite IH. split; intros Hall j Hj.
    + destruct (decide (j = k)) as [->|]; [done|]. apply Hall. lia.
    + apply Hall. lia.
Qed.

(** [rollback] returns exactly if one of its loads shows that all earlier
    tickets are finished and this one is not. *)
Theorem rollback_returns load tx_id :
  (exists fuel n, rollback_loop fuel load 0 tx_id = Some n) <-> exists j, load j = wrap64 (tx_id - 1).
Proof.
  split.
  - intros (fuel & n & Hn). destruct (decide (Exists (fun j => load j = wrap64 (tx_id - 1)) (seq 0 fuel)))
      as [(j & _ & Hj)%Exists_exists|Hno]; [by exists j|].
    exfalso. assert (rollback_loop fuel load 0 tx_id = None) as Hnone; [|congruence].
    apply rollback_loop_none. intros j Hj Heq. apply Hno, Exists_exists. exists j.
    split; [by apply elem_of_seq|done].
  - intros [j Hj]. exists (S j). destruct (rollback_loop (S j) load 0 tx_id) as [n|] eqn:Hn; [by exists n|].
    exfalso. apply (proj1 (rollback_loop_none _ _ _ _) Hn j); [lia|done].
Qed.

(** ** All threads together *)

(** Where the holder of a ticket is. [RollbackAgain] is a [rollback] entered
    after the ticket was finished, which nothing in the code prevents. *)
Inductive Pc : Type :=
| Ticket
| CommitLoad (spins : Z)
| CommitStore
| TimedOut
| Committed
| RollbackLoad
| RollbackStore
| RolledBack
| RollbackAgain.

#[export] Instance Pc_eq_dec : EqDecision Pc.
Proof. solve_decision. Defined.

(** One atomic action of the holder of [tx_id], when it is inside a call. *)
Definition thread_step (tx_id : Z) (pc : Pc) (m : TxManager) : option (Pc * TxManager) :=
  match pc with
  | CommitLoad spins =>
      match commit_iter tx_id spins (TxManager.latest_committed m) with
      | Turn => Some (CommitStore, m)
      | Again spins' => Some (CommitLoad spins', m)
      | GiveUp => Some (TimedOut, m)
      end
  | CommitStore => Some (Committed, TxManager.store_committed tx_id m)
  | RollbackLoad | RollbackAgain =>
      if rollback_iter tx_id (TxManager.latest_committed m)
      then Some (RollbackStore, m) else Some (pc, m)
  | RollbackStore => Some (RolledBack, TxManager.store_committed tx_id m)
  | Ticket | TimedOut | Committed | RolledBack => None
  end.

(** A ticket is finished once its holder has stored it. *)
Definition finished (pc : Pc) : bool :=
  match pc with
  | Committed | RolledBack | RollbackAgain => true
  | _ => false
  end.

Definition storing (pc : Pc) : bool :=
  match pc with
  | CommitStore | RollbackStore => true
  | _ => false
  end.

(** The calls [Transaction] lets a holder make: [commit] until it succeeds,
    [rollback] at any time. *)
Definition call_commit (pc : Pc) : option Pc :=
  match pc with
  | Ticket | TimedOut => Some (CommitLoad 0)
  | _ => None
  end.

Definition call_rollback (pc : Pc) : option Pc :=
  match pc with
  | Ticket | TimedOut => Some RollbackLoad
  | Committed | RolledBack => Some RollbackAgain
  | _ => None
  end.

Record Threads : Type := mkThreads {
  manager : TxManager;
  pcs : gmap Z Pc
}.

Definition threads_init : Threads := {| manager := TxManager.new; pcs := ∅ |}.

(** [begin_write] is stepped while tickets last: 2^64 - 2 of them. *)
Inductive tx_step (s : Threads) : Threads -> Prop :=
| step_begin :
    next_tx_id (manager s) < u64_max ->
    tx_step s {| manager := (TxManager.begin_write (manager s)).2;
                 pcs := <[ (TxManager.begin_write (manager s)).1 := Ticket ]> (pcs s) |}
| step_commit tx pc pc' :
    pcs s !! tx = Some pc -> call_commit pc = Some pc' ->
    tx_step s {| manager := manager s; pcs := <[ tx := pc' ]> (pcs s) |}
| step_rollback tx pc pc' :
    pcs s !! tx = Some pc -> call_rollback pc = Some pc' ->
    tx_step s {| manager := manager s; pcs := <[ tx := pc' ]> (pcs s) |}
| step_run tx pc pc' m' :
    pcs s !! tx = Some pc -> thread_step tx pc (manager s) = Some (pc', m') ->
    tx_step s {| manager := m'; pcs := <[ tx := pc' ]> (pcs s) |}.

(** ** The invariant of the ticket lock *)

Record tx_inv (s : Threads) : Prop := {
  inv_committed : 0 <= committed_tx_id (manager s) < next_tx_id (manager s);
  inv_next : next_tx_id (manager s) <= u64_max;
  inv_tickets tx : is_Some (pcs s !! tx) <-> 1 <= tx < next_tx_id (manager s);
  inv_finished tx pc :
    pcs s !! tx = Some pc -> (finished pc = true <-> tx <= committed_tx_id (manager s));
  inv_storing tx pc :
    pcs s !! tx = Some pc -> storing pc = true -> tx = committed_tx_id (manager s) + 1
}.

Lemma tx_inv_init : tx_inv threads_init.
Proof.
  split; simpl; [lia|unfold u64_max; lia| | |].
  - intros tx. rewrite lookup_empty. split; [by intros []|lia].
  - intros tx pc. by rewrite lookup_empty.
  - intros tx pc. by rewrite lookup_empty.
Qed.

Lemma inv_range s tx pc : tx_inv s -> pcs s !! tx = Some pc -> 1 <= tx < next_tx_id (manager s).
Proof. intros Hinv Hpc. apply (inv_tickets s Hinv). eauto. Qed.

(** The only test both loops make, on tickets. *)
Lemma expected_ticket s tx pc :
  tx_inv s -> pcs s !! tx = Some pc -> wrap64 (tx - 1) = tx - 1.
Proof.
  intros Hinv Hpc. pose proof (inv_range s tx pc Hinv Hpc). pose proof (inv_next s Hinv).
  apply wrap64_small. unfold u64_max in *. lia.
Qed.

(** Changing the place of one ticket, the counter left alone. *)
Lemma tx_inv_move s tx pc pc' :
  tx_inv s -> pcs s !! tx = Some pc -> finished pc' = finished pc ->
  (storing pc' = true -> tx = committed_tx_id (manager s) + 1) ->
  tx_inv {| manager := manager s; pcs := <[ tx := pc' ]> (pcs s) |}.
Proof.
  intros Hinv Hpc Hfin Hst. destruct Hinv as [Hc Hn Ht Hf Hs]. split; simpl; [done..| | |].
  - intros t. destruct (decide (t = tx)) as [->|].
    + rewrite lookup_insert_eq, <-Ht, Hpc. split; eauto.
    + by rewrite lookup_insert_ne.
  - intros t p. destruct (decide (t = tx)) as [->|].
    + rewrite lookup_insert_eq. intros [= <-]. rewrite Hfin. by apply Hf.
    + rewrite lookup_insert_ne by done. apply Hf.
  - intros t p. destruct (decide (t = tx)) as [->|].
    + rewrite lookup_insert_eq. intros [= <-]. done.
    + rewrite lookup_insert_ne by done. apply Hs.
Qed.

(** Storing the ticket whose turn it is. *)
Lemma tx_inv_store s tx pc pc' :
  tx_inv s -> pcs s !! tx = Some pc -> storing pc = true ->
  finished pc' = true -> storing pc' = false ->
  tx_inv {| manager := TxManager.store_committed tx (manager s); pcs := <[ tx := pc' ]> (pcs s) |}.
Proof.
  intros Hinv Hpc Hst Hfin Hst'. pose proof (inv_range s tx pc Hinv Hpc).
  destruct Hinv as [Hc Hn Ht Hf Hs]. pose proof (Hs _ _ Hpc Hst) as Htx.
  split; simpl; [lia|done| | |].
  - intros t. destruct (decide (t = tx)) as [->|].
    + rewrite lookup_insert_eq. split; eauto.
    + by rewrite lookup_insert_ne.
  - intros t p. destruct (decide (t = tx)) as [->|].
    + rewrite lookup_insert_eq. intros [= <-]. rewrite Hfin. split; [lia|done].
    + rewrite lookup_insert_ne by done. intros Hp. rewrite (Hf _ _ Hp). lia.
  - intros t p. destruct (decide (t = tx)) as [->|].
    + rewrite lookup_insert_eq. intros [= <-]. congruence.
    + rewrite lookup_insert_ne by done. intros Hp Hsp. pose proof (Hs _ _ Hp Hsp). lia.
Qed.

(** What one action of a thread does: it moves, or stores its ticket. *)
Lemma thread_step_cases s tx pc pc' m' :
  tx_inv s -> pcs s !! tx = Some pc -> thread_step tx pc (manager s) = Some (pc', m') ->
  (m' = manager s /\ storing pc = false /\ finished pc' = finished pc /\
    (storing pc' = true -> tx = committed_tx_id (manager s) + 1)) \/
  (m' = TxManager.store_committed tx (manager s) /\ storing pc = true /\
    finished pc' = true /\ storing pc' = false).
Proof.
  intros Hinv Hpc Hstep. pose proof (expected_ticket s tx pc Hinv Hpc) as Hexp.
  unfold thread_step, commit_iter, rollback_iter, TxManager.latest_committed in Hstep.
  rewrite Hexp in Hstep. pose proof (inv_finished s Hinv tx pc Hpc) as Hfin.
  destruct pc; simplify_eq; try (right; by auto);
    destruct (_ =? _) eqn:Heq; try destruct (_ <? _); simplify_eq; left; split_done;
    simpl in *; intros; try done; try (destruct Hfin as [Hfin _]; specialize (Hfin eq_refl)); blia.
Qed.

Lemma tx_step_inv s s' : tx_inv s -> tx_step s s' -> tx_inv s'.
Proof.
  intros Hinv Hstep. destruct Hstep as [Hlt|tx pc pc' Hpc Hcall|tx pc pc' Hpc Hcall|
    tx pc pc' m' Hpc Hrun].
  - destruct Hinv as [Hc Hn Ht Hf Hs]. split; simpl;
      rewrite ?wrap64_small by (unfold u64_max in *; lia); [lia|lia| | |].
    + intros t. destruct (decide (t = next_tx_id (manager s))) as [->|].
      * rewrite lookup_insert_eq. split; [lia|eauto].
      * rewrite lookup_insert_ne, Ht by done. lia.
    + intros t p. destruct (decide (t = next_tx_id (manager s))) as [->|].
      * rewrite lookup_insert_eq. intros [= <-]. simpl. split; [done|lia].
      * rewrite lookup_insert_ne by done. apply Hf.
    + intros t p. destruct (decide (t = next_tx_id (manager s))) as [->|].
      * rewrite lookup_insert_eq. by intros [= <-].
      * rewrite lookup_insert_ne by done. apply Hs.
  - apply (tx_inv_move s tx pc); destruct pc; simplify_eq/=; done.
  - apply (tx_inv_move s tx pc); destruct pc; simplify_eq/=; done.
  - destruct (thread_step_cases s tx pc pc' m' Hinv Hpc Hrun) as
      [(-> & _ & Hfin & Hst)|(-> & Hst & Hfin & Hst')].
    + by apply (tx_inv_move s tx pc).
    + by apply (tx_inv_store s tx pc).
Qed.

Lemma reachable_inv s s' : tx_inv s -> rtc tx_step s s' -> tx_inv s'.
Proof. intros Hinv Hrun. induction Hrun; eauto using tx_step_inv. Qed.

(** ** What the lock guarantees *)

(** C18: the ticket lock. In every reachable interleaving the finished tickets
    are exactly those up to [committed_tx_id], so every snapshot [begin_read]
    returns has all its tickets finished and none after it; and at most one
    thread is between its successful load and its store, the holder of the next
    ticket, so that no store is ever overwritten. *)
Theorem ticket_lock s :
  rtc tx_step threads_init s ->
  (forall tx, 1 <= tx <= TxManager.begin_read (manager s) <->
    exists pc, pcs s !! tx = Some pc /\ finished pc = true) /\
  (forall tx1 tx2 pc1 pc2, pcs s !! tx1 = Some pc1 -> pcs s !! tx2 = Some pc2 ->
    storing pc1 = true -> storing pc2 = true -> tx1 = tx2) /\
  TxManager.begin_read (manager s) < (TxManager.begin_write (manager s)).1 /\
  pcs s !! (TxManager.begin_write (manager s)).1 = None.
Proof.
  intros Hreach. pose proof (reachable_inv _ _ tx_inv_init Hreach) as Hinv.
  pose proof (inv_committed s Hinv). unfold TxManager.begin_read. split; [|split; [|split]].
  - intros tx. split.
    + intros Htx. destruct (proj2 (inv_tickets s Hinv tx)) as [pc Hpc]; [lia|].
      exists pc. split; [done|]. apply (inv_finished s Hinv tx pc Hpc). lia.
    + intros (pc & Hpc & Hfin). pose proof (inv_range s tx pc Hinv Hpc).
      apply (inv_finished s Hinv tx pc Hpc) in Hfin. lia.
  - intros tx1 tx2 pc1 pc2 H1 H2 S1 S2.
    pose proof (inv_storing s Hinv _ _ H1 S1). pose proof (inv_storing s Hinv _ _ H2 S2). lia.
  - simpl. lia.
  - apply eq_None_not_Some. rewrite (inv_tickets s Hinv). simpl. lia.
Qed.

(** Tickets finish in order. In any reachable state a step either leaves
    [committed_tx_id] alone, and the finished tickets with it, or is the store of
    the next ticket, which advances it by exactly one. *)
Theorem finish_in_order s s' :
  rtc tx_step threads_init s -> tx_step s s' ->
  (committed_tx_id (manager s') = committed_tx_id (manager s) /\
    forall tx, (finished <$> pcs s !! tx) = Some true <-> (finished <$> pcs s' !! tx) = Some true) \/
  (committed_tx_id (manager s') = committed_tx_id (manager s) + 1 /\
    exists pc pc', pcs s !! (committed_tx_id (manager s) + 1) = Some pc /\ storing pc = true /\
      pcs s' = <[ committed_tx_id (manager s) + 1 := pc' ]> (pcs s) /\
      (pc' = Committed \/ pc' = RolledBack)).
Proof.
  intros Hreach Hstep. pose proof (reachable_inv _ _ tx_inv_init Hreach) as Hinv.
  pose proof (tx_step_inv _ _ Hinv Hstep) as Hinv'.
  assert (forall s1 s2, tx_inv s1 -> tx_inv s2 ->
    committed_tx_id (manager s2) = committed_tx_id (manager s1) -> forall tx,
    (finished <$> pcs s1 !! tx) = Some true -> (finished <$> pcs s2 !! tx) = Some true) as Hmono.
  { intros s1 s2 I1 I2 Heq tx. destruct (pcs s1 !! tx) as [pc|] eqn:Hpc; [|done]. intros [= Hf].
    pose proof (inv_range s1 tx pc I1 Hpc). pose proof (inv_committed s2 I2).
    apply (inv_finished s1 I1 tx pc Hpc) in Hf.
    destruct (proj2 (inv_tickets s2 I2 tx)) as [pc2 Hpc2]; [lia|]. rewrite Hpc2. simpl. f_equal.
    apply (inv_finished s2 I2 tx pc2 Hpc2). lia. }
  assert (committed_tx_id (manager s') = committed_tx_id (manager s) -> forall tx,
    (finished <$> pcs s !! tx) = Some true <-> (finished <$> pcs s' !! tx) = Some true) as Hsame.
  { intros Heq tx. split; apply Hmono; auto. }
  destruct Hstep as [Hlt|tx pc pc' Hpc Hcall|tx pc pc' Hpc Hcall|tx pc pc' m' Hpc Hrun];
    [left; split; [done|by apply Hsame]..|].
  destruct (thread_step_cases s tx pc pc' m' Hinv Hpc Hrun) as [(-> & _)|(-> & Hst & Hfin & _)].
  - left. split; [done|by apply Hsame].
  - right. pose proof (inv_storing s Hinv tx pc Hpc Hst) as <-. split; [done|].
    exists pc, pc'. split_done. destruct pc; simplify_eq/=; auto.
Qed.

(** The steps of the other threads. *)
Definition other_step (tx : Z) (s s' : Threads) : Prop :=
  tx_step s s' /\ pcs s' !! tx = pcs s !! tx.

(** Until its holder moves, the next ticket stays the next. *)
Lemma others_wait s s' tx pc :
  tx_inv s -> rtc (other_step tx) s s' -> tx = committed_tx_id (manager s) + 1 ->
  pcs s !! tx = Some pc -> finished pc = false ->
  tx_inv s' /\ committed_tx_id (manager s') = committed_tx_id (manager s) /\ pcs s' !! tx = Some pc.
Proof.
  intros Hinv Hrun. induction Hrun as [s|s1 s2 s3 [Hstep Hsame] Hrun IH]; [done|].
  intros Htx Hpc Hfin. pose proof (tx_step_inv _ _ Hinv Hstep) as Hinv2.
  assert (committed_tx_id (manager s2) = committed_tx_id (manager s1)) as Heq.
  { destruct Hstep as [?|? ? ? ? ?|? ? ? ? ?|t p p' m' Hp Hr]; [done..|].
    destruct (thread_step_cases s1 t p p' m' Hinv Hp Hr) as [(-> & _)|(-> & Hst & Hf & _)]; [done|].
    pose proof (inv_storing s1 Hinv t p Hp Hst). simpl in *. subst t. subst tx.
    rewrite lookup_insert_eq in Hsame. congruence. }
  rewrite <-Heq. apply IH; try done; congruence.
Qed.

(** C26: the lock makes progress. When the holder of the next ticket is in
    [commit], its load succeeds and its store finishes the ticket: two steps of
    its own, however many steps the other threads take around them. *)
Theorem next_ticket_commits s s1 s3 spins tx :
  rtc tx_step threads_init s -> tx = committed_tx_id (manager s) + 1 ->
  pcs s !! tx = Some (CommitLoad spins) ->
  rtc (other_step tx) s s1 ->
  exists s2, tx_step s1 s2 /\ pcs s2 !! tx = Some CommitStore /\
    (rtc (other_step tx) s2 s3 ->
     exists s4, tx_step s3 s4 /\ pcs s4 !! tx = Some Committed /\
       TxManager.begin_read (manager s4) = tx).
Proof.
  intros Hreach Htx Hpc H01. pose proof (reachable_inv _ _ tx_inv_init Hreach) as Hinv.
  destruct (others_wait s s1 tx _ Hinv H01 Htx Hpc eq_refl) as (Hinv1 & Hc1 & Hpc1).
  assert (thread_step tx (CommitLoad spins) (manager s1) = Some (CommitStore, manager s1)) as Hts.
  { unfold thread_step, commit_iter, TxManager.latest_committed.
    rewrite (expected_ticket s1 tx _ Hinv1 Hpc1), Hc1.
    by replace (tx - 1) with (committed_tx_id (manager s)) by lia; rewrite Z.eqb_refl. }
  pose proof (step_run s1 tx _ _ _ Hpc1 Hts) as Hstep.
  exists {| manager := manager s1; pcs := <[tx := CommitStore]> (pcs s1) |}.
  split; [done|]. split; [apply lookup_insert_eq|]. intros H23.
  destruct (others_wait _ s3 tx CommitStore (tx_step_inv _ _ Hinv1 Hstep) H23) as (_ & _ & Hpc3);
    [simpl; lia|apply lookup_insert_eq|done|].
  exists {| manager := TxManager.store_committed tx (manager s3);
            pcs := <[tx := Committed]> (pcs s3) |}.
  split; [by apply (step_run s3 tx CommitStore)|]. split; [apply lookup_insert_eq|done].
Qed.

(** C27: [rollback] of a finished ticket never returns. In any reachable state of
    any number of threads, once the holder of a ticket that was committed or
    rolled back has entered [rollback] again, no step of any thread, its own
    included, gets it out of the loop. *)
Theorem rollback_again_hangs s s' tx :
  rtc tx_step threads_init s -> pcs s !! tx = Some RollbackAgain ->
  rtc tx_step s s' -> pcs s' !! tx = Some RollbackAgain.
Proof.
  intros Hreach Hpc Hrun. pose proof (reachable_inv _ _ tx_inv_init Hreach) as Hinv.
  clear Hreach. induction Hrun as [s|s1 s2 s3 Hstep Hrun IH]; [done|].
  apply IH; [|by apply (tx_step_inv s1)].
  assert (forall t p p', pcs s1 !! t = Some p ->
    (p = RollbackAgain -> p' = RollbackAgain) ->
    <[t := p']> (pcs s1) !! tx = Some RollbackAgain) as Hset.
  { intros t p p' Hp Himp. destruct (decide (t = tx)) as [->|].
    - rewrite lookup_insert_eq. f_equal. apply Himp. congruence.
    - by rewrite lookup_insert_ne. }
  destruct Hstep as [Hlt|t p p' Hp Hcall|t p p' Hp Hcall|t p p' m' Hp Hr]; simpl.
  - pose proof (inv_range s1 tx _ Hinv Hpc). rewrite lookup_insert_ne; [done|simpl; lia].
  - apply (Hset t p p' Hp). by intros ->.
  - apply (Hset t p p' Hp). by intros ->.
  - apply (Hset t p p' Hp). intros ->.
    destruct (thread_step_cases s1 t _ p' m' Hinv Hp Hr) as [(_ & _ & _ & _)|(_ & ? & _)]; [|done].
    unfold thread_step, rollback_iter, TxManager.latest_committed in Hr.
    rewrite (expected_ticket s1 t _ Hinv Hp) in Hr.
    pose proof (proj1 (inv_finished s1 Hinv t _ Hp) eq_refl).
    destruct (_ =? _) eqn:Heq; [blia|congruence].
Qed.

(** ** Schedules: interleavings as event lists *)

Inductive TxEv : Type :=
| EvBegin
| EvCommit (tx : Z)
| EvRollback (tx : Z)
| EvRun (tx : Z).

Definition call_with (f : Pc -> option Pc) (tx : Z) (s : Threads) : Threads :=
  match pcs s !! tx ≫= f with
  | Some pc => {| manager := manager s; pcs := <[ tx := pc ]> (pcs s) |}
  | None => s
  end.

Definition tx_exec (s : Threads) (ev : TxEv) : Threads :=
  match ev with
  | EvBegin =>
      if next_tx_id (manager s) <? u64_max
      then {| manager := (TxManager.begin_write (manager s)).2;
              pcs := <[ (TxManager.begin_write (manager s)).1 := Ticket ]> (pcs s) |}
      else s
  | EvCommit tx => call_with call_commit tx s
  | EvRollback tx => call_with call_rollback tx s
  | EvRun tx =>
      match pcs s !! tx with
      | Some pc =>
          match thread_step tx pc (manager s) with
          | Some (pc', m') => {| manager := m'; pcs := <[ tx := pc' ]> (pcs s) |}
          | None => s
          end
      | None => s
      end
  end.

Lemma tx_exec_step s ev : rtc tx_step s (tx_exec s ev).
Proof.
  destruct ev as [|tx|tx|tx]; simpl; unfold call_with.
  - destruct (_ <? _) eqn:Hlt; [|done]. apply rtc_once, step_begin. blia.
  - destruct (pcs s !! tx) as [pc|] eqn:Hpc; simpl; [|done].
    destruct (call_commit pc) eqn:Hc; [|done]. by eapply rtc_once, step_commit.
  - destruct (pcs s !! tx) as [pc|] eqn:Hpc; simpl; [|done].
    destruct (call_rollback pc) eqn:Hc; [|done]. by eapply rtc_once, step_rollback.
  - destruct (pcs s !! tx) as [pc|] eqn:Hpc; [|done].
    destruct (thread_step tx pc (manager s)) as [[pc' m']|] eqn:Hr; [|done].
    by eapply rtc_once, step_run.
Qed.

Lemma tx_exec_run s evs : rtc tx_step s (foldl tx_exec s evs).
Proof.
  revert s. induction evs as [|ev evs IH]; intros s; [done|].
  etrans; [apply tx_exec_step|apply IH].
Qed.

(** Ticket 2 tries before ticket 1, which then commits; 2 follows. *)
Definition demo_schedule : list TxEv :=
  [EvBegin; EvBegin; EvCommit 2; EvRun 2; EvCommit 1; EvRun 1].
Definition demo_threads : Threads := foldl tx_exec threads_init demo_schedule.

Lemma ticket_lock_witness :
  TxManager.begin_read (manager demo_threads) = 0 /\
  ~ (exists pc, pcs demo_threads !! 1 = Some pc /\ finished pc = true).
Proof.
  destruct (ticket_lock demo_threads) as (Hfin & _); [apply tx_exec_run|].
  split; [done|]. intros [_ Hle]%Hfin. by vm_compute in Hle.
Defined.

Lemma finish_in_order_witness :
  let s' := tx_exec demo_threads (EvRun 1) in
  committed_tx_id (manager s') = 1 /\ pcs s' !! 1 = Some Committed.
Proof.
  intros s'. destruct (finish_in_order demo_threads s') as [[Hc _]|(Hc & pc & pc' & _)].
  - apply tx_exec_run.
  - by apply (step_run demo_threads 1 CommitStore).
  - by vm_compute in Hc.
  - split; [exact Hc|done].
Defined.

Lemma next_ticket_commits_witness :
  exists s2, tx_step (foldl tx_exec threads_init [EvBegin; EvCommit 1]) s2 /\
    pcs s2 !! 1 = Some CommitStore.
Proof.
  destruct (next_ticket_commits (foldl tx_exec threads_init [EvBegin; EvCommit 1])
    (foldl tx_exec threads_init [EvBegin; EvCommit 1]) threads_init 0 1) as (s2 & ? & ? & _);
    [apply tx_exec_run|done|done|done|].
  by exists s2.
Defined.

Definition hung_schedule : list TxEv := [EvBegin; EvCommit 1; EvRun 1; EvRun 1; EvRollback 1].

Lemma rollback_again_hangs_witness :
  pcs (foldl tx_exec (foldl tx_exec threads_init hung_schedule)
    [EvRun 1; EvBegin; EvCommit 2; EvRun 2; EvRun 2; EvRun 1]) !! 1 = Some RollbackAgain.
Proof.
  apply (rollback_again_hangs (foldl tx_exec threads_init hung_schedule));
    [apply tx_exec_run|done|apply tx_exec_run].
Defined.
