(* ===== verification/Transaction.v ===== *)
(** * Transactions and the database ([src/src/transaction/mod.rs])

    A [Transaction] buffers its writes and applies them in [commit], in three
    phases: wait for the ticket and publish it, apply the writes to the three
    stores, flush. The phases and the single writes are separate definitions, so
    that what another thread sees between them can be stated. Calls run here
    without other threads moving the ticket counter under them; the lock itself,
    under every interleaving, is in [TxManager.v]. *)

From S2P Require Export TxManager NodeStore EdgeStore PropStore.

Open Scope Z_scope.

Record Database (W : Type) : Type := mkDatabase {
  tx_manager : TxManager;
  db_nodes : NodeStore W;
  db_edges : EdgeStore W;
  db_props : PropStore W
}.
Arguments mkDatabase {W}.
Arguments tx_manager {W}.
Arguments db_nodes {W}.
Arguments db_edges {W}.
Arguments db_props {W}.

Record Transaction : Type := mkTransaction {
  tx_id : Z;
  snapshot : Z;
  is_write : bool;
  committed : bool;
  node_inserts : list (Z * list Z * Z);
  node_updates : list (Z * list Z);
  node_deletes : list Z;
  edge_inserts : list (Z * Z * Z * Z * Z);
  edge_deletes : list Z;
  prop_writes : list (Z * bytes * Z * option Value)
}.

(** One iteration of one of the loops of [commit]'s second phase. *)
Inductive TxWrite : Type :=
| WInsertNode (id : Z) (labels : list Z) (props_row : Z)
| WUpdateLabels (id : Z) (labels : list Z)
| WDeleteNode (id : Z)
| WInsertEdge (id src dst etype props_row : Z)
| WDeleteEdge (id : Z)
| WSetProp (label : Z) (prop : bytes) (row : Z) (value : option Value).

(** The loops, in the order [commit] runs them. *)
Definition tx_writes (t : Transaction) : list TxWrite :=
  map (fun '(id, labels, row) => WInsertNode id labels row) (node_inserts t) ++
  map (fun '(id, labels) => WUpdateLabels id labels) (node_updates t) ++
  map WDeleteNode (node_deletes t) ++
  map (fun '(id, src, dst, etype, row) => WInsertEdge id src dst etype row) (edge_inserts t) ++
  map WDeleteEdge (edge_deletes t) ++
  map (fun '(label, prop, row, value) => WSetProp label prop row value) (prop_writes t).

Module Transaction.

Definition new (tx_id snapshot : Z) (is_write : bool) : Transaction :=
  {| tx_id := tx_id; snapshot := snapshot; is_write := is_write; committed := false;
     node_inserts := []; node_updates := []; node_deletes := []; edge_inserts := [];
     edge_deletes := []; prop_writes := [] |}.

Definition set_committed (t : Transaction) : Transaction :=
  {| tx_id := tx_id t; snapshot := snapshot t; is_write := is_write t; committed := true;
     node_inserts := node_inserts t; node_updates := node_updates t;
     node_deletes := node_deletes t; edge_inserts := edge_inserts t;
     edge_deletes := edge_deletes t; prop_writes := prop_writes t |}.

Section Transaction.
Context {W : Type} `{WalSink W} `{Codec Node} `{Codec Edge} `{Codec (option Value)}.
Implicit Types (db : Database W) (t : Transaction).

Definition set_manager (m : TxManager) db : Database W :=
  mkDatabase m (db_nodes db) (db_edges db) (db_props db).
Definition set_nodes (n : NodeStore W) db : Database W :=
  mkDatabase (tx_manager db) n (db_edges db) (db_props db).
Definition set_edges (e : EdgeStore W) db : Database W :=
  mkDatabase (tx_manager db) (db_nodes db) e (db_props db).
Definition set_props (p : PropStore W) db : Database W :=
  mkDatabase (tx_manager db) (db_nodes db) (db_edges db) p.

(** ** Buffered writes *)

Definition create_node (labels : list Z) (props_row : Z) db t
  : Z * Database W * Transaction :=
  let '(id, n) := alloc_id_direct (db_nodes db) in
  (id, set_nodes n db,
   {| tx_id := tx_id t; snapshot := snapshot t; is_write := is_write t;
      committed := committed t; node_inserts := node_inserts t ++ [(id, labels, props_row)];
      node_updates := node_updates t; node_deletes := node_deletes t;
      edge_inserts := edge_inserts t; edge_deletes := edge_deletes t;
      prop_writes := prop_writes t |}).

Definition update_node_labels (id : Z) (labels : list Z) t : Transaction :=
  {| tx_id := tx_id t; snapshot := snapshot t; is_write := is_write t;
     committed := committed t; node_inserts := node_inserts t;
     node_updates := node_updates t ++ [(id, labels)]; node_deletes := node_deletes t;
     edge_inserts := edge_inserts t; edge_deletes := edge_deletes t;
     prop_writes := prop_writes t |}.

Definition delete_node (id : Z) t : Transaction :=
  {| tx_id := tx_id t; snapshot := snapshot t; is_write := is_write t;
     committed := committed t; node_inserts := node_inserts t;
     node_updates := node_updates t; node_deletes := node_deletes t ++ [id];
     edge_inserts := edge_inserts t; edge_deletes := edge_deletes t;
     prop_writes := prop_writes t |}.

Definition create_edge (src dst etype props_row : Z) db t : Z * Database W * Transaction :=
  let '(id, e) := EdgeStore.alloc_id_direct (db_edges db) in
  (id, set_edges e db,
   {| tx_id := tx_id t; snapshot := snapshot t; is_write := is_write t;
      committed := committed t; node_inserts := node_inserts t;
      node_updates := node_updates t; node_deletes := node_deletes t;
      edge_inserts := edge_inserts t ++ [(id, src, dst, etype, props_row)];
      edge_deletes := edge_deletes t; prop_writes := prop_writes t |}).

Definition delete_edge (id : Z) t : Transaction :=
  {| tx_id := tx_id t; snapshot := snapshot t; is_write := is_write t;
     committed := committed t; node_inserts := node_inserts t;
     node_updates := node_updates t; node_deletes := node_deletes t;
     edge_inserts := edge_inserts t; edge_deletes := edge_deletes t ++ [id];
     prop_writes := prop_writes t |}.

Definition set_prop (label : Z) (prop : bytes) (row : Z) (value : option Value) t : Transaction :=
  {| tx_id := tx_id t; snapshot := snapshot t; is_write := is_write t;
     committed := committed t; node_inserts := node_inserts t;
     node_updates := node_updates t; node_deletes := node_deletes t;
     edge_inserts := edge_inserts t; edge_deletes := edge_deletes t;
     prop_writes := prop_writes t ++ [(label, prop, row, value)] |}.

(** ** Reads *)

Definition get_node (id : Z) db t : option Node :=
  match get id (db_nodes db) with
  | Some n => if Node.is_alive n (snapshot t) then Some n else None
  | None => None
  end.

Definition get_edge (id : Z) db t : option Edge :=
  match EdgeStore.get id (db_edges db) with
  | Some e => if Edge.is_alive e (snapshot t) then Some e else None
  | None => None
  end.

(** ** Commit *)

(** Phase 1: [tx_manager.commit] with nobody else moving the counter. *)
Definition wait_turn (tx : Z) (m : TxManager) : res commit_error unit * TxManager :=
  match commit_loop (Z.to_nat (SPIN_LIMIT + 1)) (fun _ => TxManager.latest_committed m) 0 tx 0 with
  | Some (Ok _, _) => (Ok tt, TxManager.store_committed tx m)
  | Some (r, _) => (r, m)
  | None => (Err Spinning, m)
  end.

(** Phase 2, one write. *)
Definition apply_write (tx : Z) db (w : TxWrite) : Database W :=
  match w with
  | WInsertNode id labels row => set_nodes (insert_with_id id labels row tx (db_nodes db)) db
  | WUpdateLabels id labels => set_nodes (update_labels id labels tx (db_nodes db)).2 db
  | WDeleteNode id => set_nodes (soft_delete id tx (db_nodes db)).2 db
  | WInsertEdge id src dst etype row =>
      set_edges (EdgeStore.insert_with_id id src dst etype row tx (db_edges db)) db
  | WDeleteEdge id => set_edges (EdgeStore.soft_delete id tx (db_edges db)).2 db
  | WSetProp label prop row value =>
      set_props (PropStore.insert_prop label prop row value (db_props db)).2 db
  end.

Definition apply_writes (tx : Z) db (ws : list TxWrite) : Database W :=
  foldl (apply_write tx) db ws.

(** Phase 3. *)
Definition flush_all db : Database W :=
  mkDatabase (tx_manager db) (flush (db_nodes db)) (EdgeStore.flush (db_edges db))
    (PropStore.flush (db_props db)).

Definition commit db t : res commit_error unit * Database W * Transaction :=
  if negb (is_write t) then (Ok tt, db, t)
  else if committed t then (Err AlreadyCommittedOrRolledBack, db, t)
  else
    match wait_turn (tx_id t) (tx_manager db) with
    | (Ok _, m) =>
        (Ok tt, flush_all (apply_writes (tx_id t) (set_manager m db) (tx_writes t)),
         set_committed t)
    | (e, m) => (e, set_manager m db, t)
    end.

(** [tx_manager.rollback] with nobody else moving the counter: what the first
    load does not end, none ends ([wait_rollback_spins]). *)
Definition wait_rollback (tx : Z) (m : TxManager) : option TxManager :=
  match rollback_loop 1 (fun _ => TxManager.latest_committed m) 0 tx with
  | Some _ => Some (TxManager.store_committed tx m)
  | None => None
  end.

Definition rollback db t : option (Database W * Transaction) :=
  if is_write t then
    match wait_rollback (tx_id t) (tx_manager db) with
    | Some m => Some (set_manager m db, set_committed t)
    | None => None
    end
  else Some (db, t).

(** [Drop]. *)
Definition drop db t : option (Database W) :=
  if is_write t && negb (committed t) then
    match wait_rollback (tx_id t) (tx_manager db) with
    | Some m => Some (set_manager m db)
    | None => None
    end
  else Some db.
End Transaction.
End Transaction.

Module Database.
Section Database.
Context {W : Type} `{WalSink W} `{Codec Node} `{Codec Edge} `{Codec (option Value)}.
Implicit Types (db : Database W).

(** The arguments are the three logs in the data directory. *)
Definition open (c : Consistency) (node_log edge_log prop_log : option bytes) : io (Database W) :=
  let? n := NodeStore.open c node_log in
  let? e := EdgeStore.open c edge_log in
  let? p := PropStore.open c prop_log in
  Ok (mkDatabase TxManager.new n e p).

Definition memory : Database W :=
  mkDatabase TxManager.new (with_capacity 1024) (EdgeStore.with_capacity 1024) PropStore.new.

Definition begin_read db : Transaction :=
  Transaction.new 0 (TxManager.begin_read (tx_manager db)) false.

Definition begin_write db : Transaction * Database W :=
  let '(tx, m) := TxManager.begin_write (tx_manager db) in
  (Transaction.new tx (TxManager.latest_committed m) true, Transaction.set_manager m db).
End Database.
End Database.

(** ** The commit protocol *)

Lemma wait_rollback_alone tx m :
  Transaction.wait_rollback tx m =
  if rollback_iter tx (TxManager.latest_committed m) then Some (TxManager.store_committed tx m) else None.
Proof. unfold Transaction.wait_rollback. simpl. by destruct (rollback_iter _ _). Qed.

Lemma wait_rollback_spins tx m :
  Transaction.wait_rollback tx m = None <->
  forall fuel, rollback_loop fuel (fun _ => TxManager.latest_committed m) 0 tx = None.
Proof.
  rewrite wait_rollback_alone. unfold rollback_iter. destruct (_ =? _) eqn:Heq.
  - split; [done|]. intros Hall. specialize (Hall 1%nat). simpl in Hall. unfold rollback_iter in Hall.
    by rewrite Heq in Hall.
  - split; [|done]. intros _ fuel. apply rollback_loop_none. intros j _. by apply Z.eqb_neq.
Qed.

Lemma wait_turn_alone tx m :
  Transaction.wait_turn tx m =
  if TxManager.latest_committed m =? wrap64 (tx - 1)
  then (Ok tt, TxManager.store_committed tx m) else (Err Timeout, m).
Proof.
  unfold Transaction.wait_turn.
  destruct (commit_loop_run (fun _ => TxManager.latest_committed m) tx
    (Z.to_nat (SPIN_LIMIT + 1)) 0 0) as (r & n & Hrun & Hn & _ & Hbefore & Hr);
    [done|unfold SPIN_LIMIT; lia|unfold SPIN_LIMIT; lia|lia|].
  rewrite Hrun. destruct Hr as [[-> Heq]|(-> & _ & Hne)].
  - by rewrite Heq, Z.eqb_refl.
  - by apply Z.eqb_neq in Hne as ->.
Qed.

Lemma wrap64_pred_ne tx : 0 <= tx < 2 ^ 64 -> tx ≠ wrap64 (tx - 1).
Proof.
  intros Htx. destruct (decide (tx = 0)) as [->|].
  - unfold wrap64. by vm_compute.
  - rewrite wrap64_small; lia.
Qed.

Section effects.
Context {W : Type} `{WalSink W} `{Codec Node} `{Codec Edge} `{Codec (option Value)}.
Import Transaction.
Implicit Types (db : Database W) (t r : Transaction) (id s : Z).

Lemma apply_writes_manager tx db ws : tx_manager (apply_writes tx db ws) = tx_manager db.
Proof.
  unfold apply_writes. revert db. induction ws as [|w ws IH]; intros db; [done|].
  simpl. rewrite IH. by destruct w.
Qed.

Lemma commit_turn db t :
  is_write t = true -> committed t = false ->
  committed_tx_id (tx_manager db) = wrap64 (tx_id t - 1) ->
  commit db t =
  (Ok tt,
   flush_all (apply_writes (tx_id t)
     (set_manager (TxManager.store_committed (tx_id t) (tx_manager db)) db) (tx_writes t)),
   set_committed t).
Proof.
  intros Hw Hc Hturn. unfold commit. rewrite Hw, Hc, wait_turn_alone.
  unfold TxManager.latest_committed. by rewrite Hturn, Z.eqb_refl.
Qed.

(** C39: the life of a write transaction. On its turn [commit] succeeds and
    publishes its id; out of turn it times out and applies nothing, leaving the
    transaction open; a second [commit] is refused and changes nothing;
    dropping a committed transaction does nothing, but [rollback] of one never
    returns. A read-only [commit] does nothing. *)
Theorem commit_protocol db t :
  0 <= tx_id t < 2 ^ 64 -> committed t = false ->
  (is_write t = false -> commit db t = (Ok tt, db, t)) /\
  (is_write t = true -> committed_tx_id (tx_manager db) ≠ wrap64 (tx_id t - 1) ->
    commit db t = (Err Timeout, db, t)) /\
  (is_write t = true -> committed_tx_id (tx_manager db) = wrap64 (tx_id t - 1) ->
    exists db', commit db t = (Ok tt, db', set_committed t) /\
      committed_tx_id (tx_manager db') = tx_id t /\
      commit db' (set_committed t) =
        (Err AlreadyCommittedOrRolledBack, db', set_committed t) /\
      drop db' (set_committed t) = Some db' /\
      rollback db' (set_committed t) = None).
Proof.
  intros Htx Hc. split; [|split].
  - intros Hw. unfold commit. by rewrite Hw.
  - intros Hw Hturn%Z.eqb_neq. unfold commit. rewrite Hw, Hc, wait_turn_alone.
    unfold TxManager.latest_committed. rewrite Hturn. by destruct db.
  - intros Hw Hturn. rewrite commit_turn by done. eexists. split; [done|].
    assert (forall ws, committed_tx_id (tx_manager (flush_all (apply_writes (tx_id t)
      (set_manager (TxManager.store_committed (tx_id t) (tx_manager db)) db) ws))) = tx_id t)
      as Hm by (intros ws; simpl; by rewrite apply_writes_manager).
    split; [apply Hm|]. split; [unfold commit; simpl; by rewrite Hw|].
    split; [unfold drop; simpl; by rewrite Hw|].
    unfold rollback. rewrite wait_rollback_alone. unfold rollback_iter, TxManager.latest_committed. simpl. rewrite Hw.
    rewrite apply_writes_manager. simpl. pose proof (wrap64_pred_ne (tx_id t) Htx) as Hne.
    by apply Z.eqb_neq in Hne as ->.
Qed.

(** ** What a commit does to one node *)

Definition relabel (tx : Z) (labels : list Z) (n : Node) : Node :=
  {| Node.id := Node.id n; Node.labels := labels; Node.first_out := Node.first_out n;
     Node.first_in := Node.first_in n; Node.props_row := Node.props_row n;
     Node.created_tx := tx; Node.deleted_tx := Node.deleted_tx n |}.

Definition node_effect (tx id : Z) (o : option Node) (w : TxWrite) : option Node :=
  match w with
  | WInsertNode i labels row => if decide (id = i) then Some (Node.new i labels row tx) else o
  | WUpdateLabels i labels => if decide (id = i) then relabel tx labels <$> o else o
  | WDeleteNode i => if decide (id = i) then (fun n => Node.mark_deleted n tx) <$> o else o
  | _ => o
  end.

Lemma apply_write_node tx db w id :
  nodes (db_nodes (apply_write tx db w)) !! id = node_effect tx id (nodes (db_nodes db) !! id) w.
Proof.
  destruct w; simpl; try done.
  - unfold insert_with_id. rewrite wal_insert_nodes. simpl. case_decide as Heq; subst.
    + apply lookup_insert_eq.
    + by rewrite lookup_insert_ne.
  - unfold update_labels. rewrite update_node_lookup. by case_decide; subst.
  - unfold soft_delete. rewrite update_node_lookup. by case_decide; subst.
Qed.

Lemma apply_writes_node tx db ws id :
  nodes (db_nodes (apply_writes tx db ws)) !! id =
  foldl (node_effect tx id) (nodes (db_nodes db) !! id) ws.
Proof.
  unfold apply_writes. revert db. induction ws as [|w ws IH]; intros db; [done|].
  simpl. by rewrite IH, apply_write_node.
Qed.

Lemma flush_nodes (n : NodeStore W) : nodes (flush n) = nodes n.
Proof. unfold flush. by destruct (wal n). Qed.

(** Writes that are not about [id]. *)
Lemma node_effect_skip tx id o ws :
  Forall (fun w => forall o', node_effect tx id o' w = o') ws ->
  foldl (node_effect tx id) o ws = o.
Proof. intros Hws. induction Hws as [|w ws Hw _ IH]; simpl; [done|]. by rewrite Hw. Qed.

Lemma node_effect_inserts tx id o l :
  foldl (node_effect tx id) o (map (fun '(i, labels, row) => WInsertNode i labels row) l) =
  match find (fun '(i, _, _) => bool_decide (id = i)) (rev l) with
  | Some (i, labels, row) => Some (Node.new id labels row tx)
  | None => o
  end.
Proof.
  induction l as [|[[i labels] row] l IH] using rev_ind; [done|].
  rewrite map_app, foldl_app, IH, rev_app_distr. simpl.
  case_decide as Hid; [by rewrite bool_decide_eq_true_2; subst|].
  by rewrite bool_decide_eq_false_2.
Qed.

Lemma node_effect_deletes tx id o l :
  foldl (node_effect tx id) o (map WDeleteNode l) =
  if decide (id ∈ l) then (fun n => Node.mark_deleted n tx) <$> o else o.
Proof.
  revert o. induction l as [|i l IH]; intros o; simpl; [done|]. rewrite IH.
  destruct (decide (id = i)) as [->|Hne].
  - rewrite (decide_True (P := i ∈ i :: l)) by apply list_elem_of_here.
    destruct (decide (i ∈ l)); [by destruct o|done].
  - destruct (decide (id ∈ l)).
    + rewrite decide_True by (by apply list_elem_of_further). done.
    + rewrite decide_False by (intros [?|?]%elem_of_cons; done). done.
Qed.

(** The last insert of [id] in the buffer. *)
Definition inserted (t : Transaction) id : option (list Z * Z) :=
  match find (fun '(i, _, _) => bool_decide (id = i)) (rev (node_inserts t)) with
  | Some (_, labels, row) => Some (labels, row)
  | None => None
  end.

(** The node [id] after the commit of a transaction that relabels nothing. *)
Lemma commit_node db t id :
  node_updates t = [] ->
  nodes (db_nodes (apply_writes (tx_id t) db (tx_writes t))) !! id =
  let o := match inserted t id with
           | Some (labels, row) => Some (Node.new id labels row (tx_id t))
           | None => nodes (db_nodes db) !! id
           end in
  if decide (id ∈ node_deletes t) then (fun n => Node.mark_deleted n (tx_id t)) <$> o else o.
Proof.
  intros Hup. rewrite apply_writes_node. unfold tx_writes. rewrite Hup, !foldl_app. simpl.
  rewrite node_effect_inserts, node_effect_deletes.
  rewrite !node_effect_skip by (apply Forall_map, Forall_forall; intros x _ o';
    by repeat match goal with p : _ * _ |- _ => destruct p end).
  unfold inserted. by destruct (find _ _) as [[[? ?] ?]|].
Qed.

(** What a reader can learn of a node. *)
Definition node_view (n : Node) : Z * list Z * Z := (Node.id n, Node.labels n, Node.props_row n).

Lemma get_node_Some id db r n :
  get_node id db r = Some n <->
  nodes (db_nodes db) !! id = Some n /\ Node.created_tx n <= snapshot r < Node.deleted_tx n.
Proof.
  unfold get_node, get. destruct (nodes (db_nodes db) !! id) as [n'|]; [|naive_solver].
  destruct (Node.is_alive n' (snapshot r)) eqn:Ha.
  - apply node_alive_iff in Ha. naive_solver.
  - split; [done|]. intros [[= <-] Hn%node_alive_iff]. congruence.
Qed.

Lemma get_node_eq id db r n :
  nodes (db_nodes db) !! id = Some n ->
  get_node id db r = if Node.is_alive n (snapshot r) then Some n else None.
Proof. intros Hn. unfold get_node, get. by rewrite Hn. Qed.

Lemma get_node_None id db r : nodes (db_nodes db) !! id = None -> get_node id db r = None.
Proof. intros Hn. unfold get_node, get. by rewrite Hn. Qed.

(** C19: snapshots. The commit of a transaction that creates nodes under fresh
    ids and deletes live ones is invisible to every snapshot before it, and
    all of it is visible to every snapshot from its own on: the created nodes
    are there, the deleted ones are not, and every other node reads as before. *)
Theorem commit_visibility db t db' t' :
  is_write t = true -> committed t = false -> node_updates t = [] ->
  (forall id, is_Some (inserted t id) -> nodes (db_nodes db) !! id = None) ->
  (forall id n, id ∈ node_deletes t -> nodes (db_nodes db) !! id = Some n ->
    Node.deleted_tx n = MAX_TX_ID) ->
  commit db t = (Ok tt, db', t') ->
  forall r id, snapshot r < MAX_TX_ID ->
    (snapshot r < tx_id t ->
      node_view <$> get_node id db' r = node_view <$> get_node id db r) /\
    (tx_id t <= snapshot r ->
      (id ∈ node_deletes t -> get_node id db' r = None) /\
      (id ∉ node_deletes t -> forall labels row, inserted t id = Some (labels, row) ->
        get_node id db' r = Some (Node.new id labels row (tx_id t))) /\
      (id ∉ node_deletes t -> inserted t id = None -> get_node id db' r = get_node id db r)).
Proof.
  intros Hw Hc Hup Hfresh Hlive Hcommit r id Hr.
  assert (nodes (db_nodes db') !! id =
    nodes (db_nodes (apply_writes (tx_id t) (set_manager (TxManager.store_committed (tx_id t)
      (tx_manager db)) db) (tx_writes t))) !! id) as Hn.
  { unfold commit in Hcommit. rewrite Hw, Hc, wait_turn_alone in Hcommit.
    destruct (_ =? _); [|done]. simpl in Hcommit. injection Hcommit as <- _. simpl.
    by rewrite flush_nodes. }
  rewrite commit_node in Hn by done. simpl in Hn. specialize (Hfresh id). specialize (Hlive id).
  destruct (inserted t id) as [[labels row]|].
  - rewrite (get_node_None id db) by (apply Hfresh; eauto). case_decide as Hdel;
      rewrite (get_node_eq id db' r _ Hn); unfold Node.is_alive; simpl.
    + destruct (Z.leb_spec (tx_id t) (snapshot r)); destruct (Z.ltb_spec (snapshot r) (tx_id t));
        try lia; (split; intros ?; [lia || done|lia || naive_solver]).
    + rewrite (proj2 (Z.ltb_lt _ _) Hr), andb_true_r.
      destruct (Z.leb_spec (tx_id t) (snapshot r)); (split; intros ?; [lia || done|lia || naive_solver]).
  - destruct (nodes (db_nodes db) !! id) as [n|] eqn:Ho.
    + case_decide as Hdel;
        [|rewrite (get_node_eq id db' r n), (get_node_eq id db r n) by done; naive_solver].
      rewrite (get_node_eq id db' r _ Hn), (get_node_eq id db r n) by done.
      specialize (Hlive n Hdel eq_refl). unfold Node.is_alive. simpl.
      rewrite Hlive, (proj2 (Z.ltb_lt _ _) Hr), andb_true_r.
      destruct (Z.ltb_spec (snapshot r) (tx_id t)); rewrite ?andb_true_r, ?andb_false_r;
        (split; intros ?; [try lia; by destruct (_ <=? _)|lia || naive_solver]).
    + rewrite (get_node_None id db' r) by (rewrite Hn; by case_decide).
      rewrite (get_node_None id db r) by done. naive_solver.
Qed.

(** ** Between the phases *)

(** What a reader sees that begins when [commit] has published its id and not
    applied its writes yet. *)
Definition published db t : Database W :=
  set_manager (TxManager.store_committed (tx_id t) (tx_manager db)) db.

(** Commits are published before they are applied. A reader that begins
    between the two phases gets the transaction's id as its snapshot, does not
    see the node the transaction created, and sees it once the writes are
    applied: one snapshot, two answers. *)
Theorem publish_before_apply db t id labels row :
  is_write t = true -> committed t = false -> node_updates t = [] ->
  committed_tx_id (tx_manager db) = wrap64 (tx_id t - 1) -> tx_id t < MAX_TX_ID ->
  inserted t id = Some (labels, row) -> id ∉ node_deletes t ->
  nodes (db_nodes db) !! id = None ->
  let r := Database.begin_read (published db t) in
  snapshot r = tx_id t /\ get_node id (published db t) r = None /\
  (commit db t).1.1 = Ok tt /\
  get_node id (commit db t).1.2 r = Some (Node.new id labels row (tx_id t)).
Proof.
  intros Hw Hc Hup Hturn Hmax Hins Hdel Hnone r. split; [done|]. split; [by apply get_node_None|].
  rewrite commit_turn by done. split; [done|]. cbn [fst snd].
  apply get_node_Some. split.
  - simpl. rewrite flush_nodes, commit_node by done. simpl. by rewrite Hins, decide_False.
  - simpl. unfold MAX_TX_ID in *. lia.
Qed.

(** No write conflict is detected. Two transactions that begin on the same
    snapshot and relabel the same node both commit; the second overwrites the
    first, whose labels no snapshot ever shows. *)
Theorem lost_update db id n labels1 labels2 :
  nodes (db_nodes db) !! id = Some n ->
  1 <= next_tx_id (tx_manager db) < u64_max - 1 ->
  committed_tx_id (tx_manager db) = next_tx_id (tx_manager db) - 1 ->
  let '(t1, db1) := Database.begin_write db in
  let '(t2, db2) := Database.begin_write db1 in
  let '(r1, db3, _) := commit db2 (update_node_labels id labels1 t1) in
  let '(r2, db4, _) := commit db3 (update_node_labels id labels2 t2) in
  snapshot t1 = snapshot t2 /\ r1 = Ok tt /\ r2 = Ok tt /\
  nodes (db_nodes db4) !! id = Some (relabel (tx_id t2) labels2 n).
Proof.
  intros Hn Hnext Hcom. unfold Database.begin_write, TxManager.begin_write. cbn [fst snd].
  set (x := next_tx_id (tx_manager db)) in *. unfold TxManager.latest_committed. simpl.
  rewrite !(wrap64_small (x + 1)) by (unfold u64_max in *; lia).
  set (t1 := update_node_labels id labels1 _). set (t2 := update_node_labels id labels2 _).
  set (db2 := set_manager _ (set_manager _ db)).
  rewrite (commit_turn db2 t1); [|done..|].
  2: { change (tx_id t1) with x. rewrite wrap64_small by (unfold u64_max in *; lia). done. }
  set (db3 := flush_all _).
  assert (committed_tx_id (tx_manager db3) = x) as Hm3
    by (unfold db3, flush_all; cbn [tx_manager]; by rewrite apply_writes_manager).
  rewrite (commit_turn db3 t2); [|done..|].
  2: { rewrite Hm3. change (tx_id t2) with (x + 1).
       rewrite wrap64_small by (unfold u64_max in *; lia). lia. }
  split; [done|]. split; [done|]. split; [done|].
  assert (forall tx (d : Database W) m ws, nodes (db_nodes (flush_all
    (apply_writes tx (set_manager m d) ws))) !! id =
    foldl (node_effect tx id) (nodes (db_nodes d) !! id) ws) as Hnode
    by (intros; unfold flush_all; cbn [db_nodes]; by rewrite flush_nodes, apply_writes_node).
  rewrite Hnode. unfold db3. rewrite Hnode. cbn [db2 set_manager db_nodes]. rewrite Hn.
  simpl. by rewrite decide_True, decide_True.
Qed.

(** Deleting twice brings a node back. When a transaction deletes a node
    that was deleted at [d] before it, its commit moves the deletion to its own
    id: the snapshots from [d] up to it, which did not see the node, see it
    again. *)
Theorem second_delete_revives db t id n db' t' r :
  is_write t = true -> committed t = false -> node_updates t = [] ->
  nodes (db_nodes db) !! id = Some n -> id ∈ node_deletes t -> inserted t id = None ->
  Node.created_tx n <= Node.deleted_tx n ->
  Node.deleted_tx n <= snapshot r < tx_id t ->
  commit db t = (Ok tt, db', t') ->
  get_node id db r = None /\ get_node id db' r = Some (Node.mark_deleted n (tx_id t)).
Proof.
  intros Hw Hc Hup Hn Hdel Hins Hcd Hr Hcommit. split.
  - rewrite (get_node_eq id db r n Hn). destruct (Node.is_alive n (snapshot r)) eqn:Ha; [|done].
    apply node_alive_iff in Ha. lia.
  - unfold commit in Hcommit. rewrite Hw, Hc, wait_turn_alone in Hcommit.
    destruct (_ =? _); [|done]. simpl in Hcommit. injection Hcommit as <- _.
    apply get_node_Some. split; [|simpl; lia]. simpl. rewrite flush_nodes, commit_node by done. simpl.
    by rewrite Hins, Hn, decide_True.
Qed.

(** A reopened database hides its data. [Database::open] starts the ticket
    counter afresh: whatever the logs hold, a read transaction begun then has
    snapshot 0, sees no node or edge any transaction ever wrote, and the first
    write transaction gets id 1 again. *)
Theorem reopen_hides c node_log edge_log prop_log db :
  Database.open (W := W) c node_log edge_log prop_log = Ok db ->
  let r := Database.begin_read db in
  snapshot r = 0 /\ tx_id (Database.begin_write db).1 = 1 /\
  (forall id n, nodes (db_nodes db) !! id = Some n -> 1 <= Node.created_tx n ->
    get_node id db r = None) /\
  (forall id e, edges (db_edges db) !! id = Some e -> 1 <= Edge.created_tx e ->
    get_edge id db r = None).
Proof.
  unfold Database.open. destruct (NodeStore.open c node_log) as [n0| |]; try done.
  destruct (EdgeStore.open c edge_log) as [e0| |]; try done.
  destruct (PropStore.open c prop_log) as [p0| |]; try done.
  simpl. intros [= <-]. split_done.
  - intros id n Hn Hc. rewrite (get_node_eq id _ _ n) by done.
    destruct (Node.is_alive n _) eqn:Ha; [|done]. apply node_alive_iff in Ha. simpl in Ha. lia.
  - intros id e He Hc. unfold get_edge, EdgeStore.get. simpl in *. rewrite He.
    destruct (Edge.is_alive e _) eqn:Ha; [|done]. apply edge_alive_iff in Ha. simpl in Ha. lia.
Qed.
End effects.

(** ** The theorems at concrete databases *)

Section witnesses.
#[local] Existing Instances LogSink.sink LogSink.laws.
#[local] Instance tx_node_codec : Codec Node := countable_codec.
#[local] Instance tx_edge_codec : Codec Edge := countable_codec.
#[local] Instance tx_value_codec : Codec (option Value) := countable_codec.
Import Transaction.

(** A transaction creates a node, on an empty database in memory. *)
Definition fresh_db : Database LogSink.t := Database.memory.
Definition tx1 : Transaction := (Database.begin_write fresh_db).1.
Definition db_tx1 : Database LogSink.t := (Database.begin_write fresh_db).2.
Definition tx1_node : Transaction := (create_node [7] 0 db_tx1 tx1).2.
Definition db_tx1_node : Database LogSink.t := (create_node [7] 0 db_tx1 tx1).1.2.

(** It commits, and a second transaction deletes the node at 2. *)
Definition db_one : Database LogSink.t := (commit db_tx1_node tx1_node).1.2.
Definition tx2_delete : Transaction := delete_node 0 (Database.begin_write db_one).1.
Definition db_deleted : Database LogSink.t :=
  (commit (Database.begin_write db_one).2 tx2_delete).1.2.
(** So does a third, at 3. *)
Definition tx3_delete : Transaction := delete_node 0 (Database.begin_write db_deleted).1.
Definition db_tx3 : Database LogSink.t := (Database.begin_write db_deleted).2.

Lemma commit_protocol_witness :
  commit (Database.begin_write db_tx1_node).2 (Database.begin_write db_tx1_node).1 =
    (Err Timeout, (Database.begin_write db_tx1_node).2, (Database.begin_write db_tx1_node).1) /\
  (exists db', commit db_tx1_node tx1_node = (Ok tt, db', set_committed tx1_node) /\
    rollback db' (set_committed tx1_node) = None).
Proof.
  split.
  - destruct (commit_protocol (Database.begin_write db_tx1_node).2
      (Database.begin_write db_tx1_node).1) as (_ & Ht & _); [by vm_compute|done|].
    apply Ht; by vm_compute.
  - destruct (commit_protocol db_tx1_node tx1_node) as (_ & _ & Hc); [by vm_compute|done|].
    destruct (Hc eq_refl ltac:(by vm_compute)) as (db' & ? & _ & _ & _ & ?). by exists db'.
Defined.

Lemma commit_visibility_witness :
  get_node 0 db_one (Transaction.new 0 1 false) = Some (Node.new 0 [7] 0 1) /\
  node_view <$> get_node 0 db_one (Transaction.new 0 0 false) = None.
Proof.
  assert (commit db_tx1_node tx1_node = (Ok tt, db_one, set_committed tx1_node)) as Hc
    by by vm_compute.
  assert (forall r id, snapshot r < MAX_TX_ID -> _) as Hv
    by (apply (commit_visibility db_tx1_node tx1_node db_one (set_committed tx1_node));
        [done|done|done| |by intros ?? ?%elem_of_nil|exact Hc]; by intros; vm_compute).
  split.
  - apply (Hv (Transaction.new 0 1 false) 0); [done|done| |done]. by intros ?%elem_of_nil.
  - rewrite (proj1 (Hv (Transaction.new 0 0 false) 0 ltac:(done)) ltac:(done)). by vm_compute.
Defined.

Lemma publish_before_apply_witness :
  let r := Database.begin_read (published db_tx1_node tx1_node) in
  get_node 0 (published db_tx1_node tx1_node) r = None /\
  get_node 0 (commit db_tx1_node tx1_node).1.2 r = Some (Node.new 0 [7] 0 1).
Proof.
  destruct (publish_before_apply db_tx1_node tx1_node 0 [7] 0) as (_ & Hn & _ & Hs);
    [done|done|done|by vm_compute|by vm_compute|by vm_compute|by intros ?%elem_of_nil|by vm_compute|].
  split; [exact Hn|exact Hs].
Defined.

Lemma lost_update_witness :
  let '(t1, db1) := Database.begin_write db_one in
  let '(t2, db2) := Database.begin_write db1 in
  let '(r1, db3, _) := commit db2 (update_node_labels 0 [8] t1) in
  let '(r2, db4, _) := commit db3 (update_node_labels 0 [9] t2) in
  snapshot t1 = snapshot t2 /\ r1 = Ok tt /\ r2 = Ok tt /\
  nodes (db_nodes db4) !! 0 = Some (relabel (tx_id t2) [9] (Node.new 0 [7] 0 1)).
Proof.
  exact (lost_update db_one 0 (Node.new 0 [7] 0 1) [8] [9]
    ltac:(by vm_compute) ltac:(by vm_compute) ltac:(by vm_compute)).
Defined.

Lemma second_delete_revives_witness :
  get_node 0 db_deleted (Transaction.new 0 2 false) = None /\
  exists n, get_node 0 (commit db_tx3 tx3_delete).1.2 (Transaction.new 0 2 false) = Some n.
Proof.
  destruct (second_delete_revives db_tx3 tx3_delete 0 (Node.mark_deleted (Node.new 0 [7] 0 1) 2)
    (commit db_tx3 tx3_delete).1.2 (set_committed tx3_delete) (Transaction.new 0 2 false))
    as [Hn Hs];
    [done|done|done|by vm_compute|apply list_elem_of_here|done|done|done|by vm_compute|].
  split; [exact Hn|]. eexists. exact Hs.
Defined.

(** A log with one node, created by transaction 5. *)
Definition old_log : bytes :=
  MAGIC ++ encode_recs [mkRec 1 0 (default [] (serialize (Node.new 0 [7] 0 5)))].

Definition old_db : Database LogSink.t :=
  match Database.open balanced (Some old_log) None None with Ok db => db | _ => fresh_db end.

Lemma reopen_hides_witness :
  contains 0 (db_nodes old_db) = true /\ get_node 0 old_db (Database.begin_read old_db) = None.
Proof.
  destruct (reopen_hides balanced (Some old_log) None None old_db) as (_ & _ & Hn & _);
    [by vm_compute|].
  split; [by vm_compute|]. apply (Hn 0 (Node.new 0 [7] 0 5)); by vm_compute.
Defined.
End witnesses.
