(* ===== verification/Versions.v ===== *)
(** * Versions of a map

    A map of MVCC records stands for a list of plain maps, one per transaction
    id. This file says what a commit, a rollback and the buffered writes of open
    transactions do to that list, for any record that is [Versioned]; the node
    store and the edge store are its two instances, in [Isolation.v]. *)

From S2P Require Export Graph.

Open Scope Z_scope.

(** ** Buffers and versions *)

Record Buf (V : Type) : Type := mkBuf {
  puts : gmap Z V;
  dels : gset Z
}.
Arguments mkBuf {V}.
Arguments puts {V}.
Arguments dels {V}.

Definition no_writes {V} : Buf V := mkBuf ∅ ∅.

(** The next version. *)
Definition apply_buf {V} (b : Buf V) (v : gmap Z V) : gmap Z V :=
  filter (fun p => p.1 ∉ dels b) (puts b ∪ v).

Lemma apply_buf_lookup {V} (b : Buf V) v id :
  apply_buf b v !! id =
  if decide (id ∈ dels b) then None
  else match puts b !! id with Some p => Some p | None => v !! id end.
Proof.
  unfold apply_buf. rewrite map_lookup_filter, lookup_union. case_decide as Hid.
  - destruct (puts b !! id) as [p|], (v !! id) as [q|]; simpl; rewrite ?option_guard_False by naive_solver; done.
  - destruct (puts b !! id) as [p|], (v !! id) as [q|]; simpl; rewrite ?option_guard_True by done; done.
Qed.

Lemma apply_no_writes {V} (v : gmap Z V) : apply_buf no_writes v = v.
Proof.
  apply map_eq. intros id. rewrite apply_buf_lookup, decide_False by set_solver.
  simpl. by rewrite lookup_empty.
Qed.

Section versions.
Context {X V : Type} `{VersionedLaws X} (view : X -> V).
Implicit Types (m : gmap Z X) (vs : list (gmap Z V)) (b : Buf V) (id : Z).

Definition read_at (s : Z) (o : option X) : option V :=
  x ← o; if v_alive x s then Some (view x) else None.

Record versions_of m vs : Prop := {
  vo_read s v id : vs !! s = Some v -> read_at (Z.of_nat s) (m !! id) = v !! id;
  vo_created id x : m !! id = Some x -> v_created x < Z.of_nat (length vs);
  vo_deleted id x : m !! id = Some x ->
    v_deleted x = MAX_TX_ID \/ v_deleted x < Z.of_nat (length vs)
}.

(** What [commit] leaves under [id]. *)
Definition committed_record (tx : Z) (mk : Z -> V -> X) b m id : option X :=
  let o := match puts b !! id with Some p => Some (mk id p) | None => m !! id end in
  if decide (id ∈ dels b) then (fun x => v_mark_deleted x tx) <$> o else o.

(** The id of a node or edge not in the map, and of one not deleted. *)
Definition buf_ok m b : Prop :=
  (forall id, is_Some (puts b !! id) -> m !! id = None) /\
  (forall id x, id ∈ dels b -> m !! id = Some x -> v_deleted x = MAX_TX_ID).

Definition makes (tx : Z) (mk : Z -> V -> X) : Prop :=
  forall id p, view (mk id p) = p /\ v_created (mk id p) = tx /\ v_deleted (mk id p) = MAX_TX_ID.

Lemma read_at_last m vs v id x :
  versions_of m vs -> last vs = Some v -> m !! id = Some x ->
  Z.of_nat (length vs) < MAX_TX_ID ->
  read_at (Z.of_nat (length vs)) (Some x) = v !! id.
Proof.
  intros Hvs Hlast Hx Hmax. rewrite last_lookup in Hlast.
  rewrite <-(vo_read _ _ Hvs _ v id Hlast), Hx. simpl. apply lookup_lt_Some in Hlast.
  assert (v_alive x (Z.of_nat (length vs)) = v_alive x (Z.of_nat (pred (length vs)))) as ->; [|done].
  apply eq_true_iff_eq. rewrite !v_alive_interval.
  pose proof (vo_created _ _ Hvs id x Hx). pose proof (vo_deleted _ _ Hvs id x Hx). lia.
Qed.

Lemma versions_commit (mk : Z -> V -> X) m m' vs v b :
  (forall x tx, view (v_mark_deleted x tx) = view x) ->
  versions_of m vs -> last vs = Some v -> Z.of_nat (length vs) < MAX_TX_ID ->
  makes (Z.of_nat (length vs)) mk -> buf_ok m b ->
  (forall id, m' !! id = committed_record (Z.of_nat (length vs)) mk b m id) ->
  versions_of m' (vs ++ [apply_buf b v]).
Proof.
  intros Hmark Hvs Hlast Hmax Hmk [Hput Hdel] Hm'. split.
  - intros s w id Hw. rewrite Hm'. unfold committed_record.
    destruct (decide (s < length vs)%nat) as [Hs|Hs].
    + rewrite lookup_app_l in Hw by done. rewrite <-(vo_read _ _ Hvs s w id Hw).
      destruct (puts b !! id) as [p|] eqn:Hp.
      * rewrite (Hput id) by done. destruct (Hmk id p) as (_ & Hc & _).
        assert (v_alive (mk id p) (Z.of_nat s) = false) as Ha by (apply v_alive_false; lia).
        case_decide; simpl; [|by rewrite Ha].
        assert (v_alive (v_mark_deleted (mk id p) (Z.of_nat (length vs))) (Z.of_nat s) = false) as ->;
          [|done]. apply v_alive_false. rewrite v_mark_created. lia.
      * destruct (m !! id) as [x|] eqn:Hx; case_decide as Hd; try done. simpl. rewrite Hmark.
        rewrite v_mark_deleted_before; [done|lia|]. rewrite (Hdel id x) by done. lia.
    + assert (s = length vs) as ->
        by (apply lookup_lt_Some in Hw; rewrite length_app in Hw; simpl in Hw; lia).
      rewrite list_lookup_middle in Hw by done. injection Hw as <-. rewrite apply_buf_lookup.
      case_decide as Hd.
      * destruct (match puts b !! id with Some p => Some (mk id p) | None => m !! id end); [|done].
        simpl. by rewrite v_mark_deleted_after.
      * destruct (puts b !! id) as [p|] eqn:Hp.
        -- destruct (Hmk id p) as (Hv & Hc & Hdd). simpl. rewrite Hv.
           rewrite (proj2 (v_alive_interval _ _)); [done|lia].
        -- destruct (m !! id) as [x|] eqn:Hx; [by apply (read_at_last m)|].
           rewrite last_lookup in Hlast. by rewrite <-(vo_read _ _ Hvs _ v id Hlast), Hx.
  - intros id x. rewrite Hm', length_app. unfold committed_record. simpl.
    destruct (puts b !! id) as [p|].
    + destruct (Hmk id p) as (_ & Hc & _). case_decide; intros [= <-]; rewrite ?v_mark_created; lia.
    + destruct (m !! id) as [y|] eqn:Hy; case_decide; intros [= <-]; rewrite ?v_mark_created;
        pose proof (vo_created _ _ Hvs id y Hy); lia.
  - intros id x. rewrite Hm', length_app. unfold committed_record. simpl.
    destruct (puts b !! id) as [p|].
    + destruct (Hmk id p) as (_ & _ & Hd).
      case_decide; intros [= <-]; rewrite ?v_mark_deleted_at; auto; lia.
    + destruct (m !! id) as [y|] eqn:Hy; case_decide; intros [= <-]; rewrite ?v_mark_deleted_at; [lia|].
      pose proof (vo_deleted _ _ Hvs id y Hy). lia.
Qed.
End versions.

(** ** One store under many open transactions

    [nxt] is the id counter, [bufs] the buffers of the open transactions, [D]
    the ids that were ever asked to be deleted. *)

Section layer.
Context {X V : Type} `{VersionedLaws X} (view : X -> V).
Implicit Types (m : gmap Z X) (vs : list (gmap Z V)) (b : Buf V) (id : Z)
  (bufs : gmap nat (Buf V)) (k : nat) (D : gset Z).

Record layer_ok m (nxt : Z) vs bufs D : Prop := {
  lo_versions : versions_of view m vs;
  lo_below id : is_Some (m !! id) -> id < nxt;
  lo_put k b id : bufs !! k = Some b -> is_Some (puts b !! id) -> m !! id = None /\ id < nxt;
  lo_put_disj k k' b b' id : k ≠ k' -> bufs !! k = Some b -> bufs !! k' = Some b' ->
    is_Some (puts b !! id) -> puts b' !! id = None;
  lo_del k b id : bufs !! k = Some b -> id ∈ dels b -> id ∈ D;
  lo_del_live k b id x : bufs !! k = Some b -> id ∈ dels b -> m !! id = Some x ->
    v_deleted x = MAX_TX_ID;
  lo_del_disj k k' b b' id : k ≠ k' -> bufs !! k = Some b -> bufs !! k' = Some b' ->
    id ∈ dels b -> id ∉ dels b';
  lo_dead id x : m !! id = Some x -> id ∉ D -> v_deleted x = MAX_TX_ID
}.

Lemma layer_init : layer_ok ∅ 0 [∅] ∅ ∅.
Proof.
  split; try by (intros; rewrite ?lookup_empty in *; naive_solver).
  split; try by (intros; rewrite ?lookup_empty in *; naive_solver).
  intros [|s] w id Hw; [|done]. injection Hw as <-. by rewrite !lookup_empty.
Qed.

Lemma layer_begin m nxt vs bufs D k :
  layer_ok m nxt vs bufs D -> layer_ok m nxt vs (<[k := no_writes]> bufs) D.
Proof.
  intros Hl. assert (forall j b, <[k := no_writes]> bufs !! j = Some b ->
    (j = k /\ b = no_writes) \/ (j ≠ k /\ bufs !! j = Some b)) as Hj
    by (intros j b [[-> <-]|[? ?]]%lookup_insert_Some; auto).
  split; try apply Hl.
  - intros j b id [[-> ->]|[_ Hb]]%Hj; [|by apply (lo_put _ _ _ _ _ Hl j)].
    simpl. rewrite lookup_empty. by intros [].
  - intros j j' b b' id Hne [[-> ->]|[? Hb]]%Hj; [simpl; rewrite lookup_empty; by intros _ []|].
    intros [[-> ->]|[? Hb']]%Hj; [by intros _; apply lookup_empty|].
    by apply (lo_put_disj _ _ _ _ _ Hl j j').
  - intros j b id [[-> ->]|[_ Hb]]%Hj; [simpl; set_solver|by apply (lo_del _ _ _ _ _ Hl j)].
  - intros j b id x [[-> ->]|[_ Hb]]%Hj; [simpl; set_solver|by apply (lo_del_live _ _ _ _ _ Hl j)].
  - intros j j' b b' id Hne [[-> ->]|[? Hb]]%Hj; [simpl; set_solver|].
    intros [[-> ->]|[? Hb']]%Hj; [simpl; set_solver|by apply (lo_del_disj _ _ _ _ _ Hl j j')].
Qed.

(** A fresh id goes into the buffer of [k]. *)
Lemma layer_put m nxt vs bufs D k b p :
  layer_ok m nxt vs bufs D -> bufs !! k = Some b ->
  layer_ok m (nxt + 1) vs (<[k := mkBuf (<[nxt := p]> (puts b)) (dels b)]> bufs) D.
Proof.
  intros Hl Hk. set (b1 := mkBuf _ _).
  assert (m !! nxt = None) as Hnew.
  { destruct (m !! nxt) eqn:Hm; [|done]. pose proof (lo_below _ _ _ _ _ Hl nxt ltac:(eauto)). lia. }
  assert (forall j c, bufs !! j = Some c -> puts c !! nxt = None) as Hunused.
  { intros j c Hc. destruct (puts c !! nxt) eqn:Hp; [|done].
    destruct (lo_put _ _ _ _ _ Hl j c nxt Hc) as [_ ?]; [done|lia]. }
  assert (forall j c, <[k := b1]> bufs !! j = Some c ->
    (j = k /\ c = b1) \/ (j ≠ k /\ bufs !! j = Some c)) as Hj
    by (intros j c [[-> <-]|[? ?]]%lookup_insert_Some; auto).
  assert (forall id, is_Some (puts b1 !! id) -> id = nxt \/ is_Some (puts b !! id)) as Hb1.
  { intros id. unfold b1. simpl. rewrite lookup_insert_is_Some'. naive_solver. }
  split; try apply Hl.
  - intros id Hid. pose proof (lo_below _ _ _ _ _ Hl id Hid). lia.
  - intros j c id [[-> ->]|[_ Hc]]%Hj Hid.
    + apply Hb1 in Hid as [->|Hid]; [split; [done|lia]|].
      destruct (lo_put _ _ _ _ _ Hl k b id Hk Hid). split; [done|lia].
    + destruct (lo_put _ _ _ _ _ Hl j c id Hc Hid). split; [done|lia].
  - intros j j' c c' id Hne [[-> ->]|[? Hc]]%Hj.
    + intros [[-> ->]|[? Hc']]%Hj; [done|]. intros [->|Hid]%Hb1; [by eapply Hunused|].
      by apply (lo_put_disj _ _ _ _ _ Hl k j' b).
    + intros [[-> ->]|[? Hc']]%Hj Hid; [|by apply (lo_put_disj _ _ _ _ _ Hl j j' c)].
      unfold b1. simpl. destruct (decide (id = nxt)) as [->|].
      * rewrite (Hunused j c Hc) in Hid. by destruct Hid.
      * rewrite lookup_insert_ne by done. by apply (lo_put_disj _ _ _ _ _ Hl j k c).
  - intros j c id [[-> ->]|[_ Hc]]%Hj; [by apply (lo_del _ _ _ _ _ Hl k b)|by apply (lo_del _ _ _ _ _ Hl j)].
  - intros j c id x [[-> ->]|[_ Hc]]%Hj;
      [by apply (lo_del_live _ _ _ _ _ Hl k b)|by apply (lo_del_live _ _ _ _ _ Hl j)].
  - intros j j' c c' id Hne [[-> ->]|[? Hc]]%Hj [[-> ->]|[? Hc']]%Hj; [done|..].
    + exact (lo_del_disj _ _ _ _ _ Hl k j' b c' id Hne Hk Hc').
    + exact (lo_del_disj _ _ _ _ _ Hl j k c b id Hne Hc Hk).
    + by apply (lo_del_disj _ _ _ _ _ Hl j j').
Qed.

(** An id nobody asked to delete before goes into the deletions of [k]. *)
Lemma layer_del m nxt vs bufs D k b id :
  layer_ok m nxt vs bufs D -> bufs !! k = Some b -> id ∉ D ->
  layer_ok m nxt vs (<[k := mkBuf (puts b) ({[id]} ∪ dels b)]> bufs) ({[id]} ∪ D).
Proof.
  intros Hl Hk Hid. set (b1 := mkBuf _ _).
  assert (forall j c, <[k := b1]> bufs !! j = Some c ->
    (j = k /\ c = b1) \/ (j ≠ k /\ bufs !! j = Some c)) as Hj
    by (intros j c [[-> <-]|[? ?]]%lookup_insert_Some; auto).
  assert (forall j c, bufs !! j = Some c -> id ∉ dels c) as Hunused
    by (intros j c Hc Hin; apply Hid; by apply (lo_del _ _ _ _ _ Hl j c)).
  assert (forall i, i ∈ dels b1 -> i = id \/ i ∈ dels b) as Hb1
    by (intros i; unfold b1; simpl; set_solver).
  split; try apply Hl.
  - intros j c i [[-> ->]|[_ Hc]]%Hj; [by apply (lo_put _ _ _ _ _ Hl k b)|by apply (lo_put _ _ _ _ _ Hl j)].
  - intros j j' c c' i Hne [[-> ->]|[? Hc]]%Hj [[-> ->]|[? Hc']]%Hj; [done|..].
    + exact (lo_put_disj _ _ _ _ _ Hl k j' b c' i Hne Hk Hc').
    + exact (lo_put_disj _ _ _ _ _ Hl j k c b i Hne Hc Hk).
    + by apply (lo_put_disj _ _ _ _ _ Hl j j').
  - intros j c i [[-> ->]|[_ Hc]]%Hj Hi.
    + apply Hb1 in Hi as [->|Hi]; [set_solver|].
      pose proof (lo_del _ _ _ _ _ Hl k b i Hk Hi). set_solver.
    + pose proof (lo_del _ _ _ _ _ Hl j c i Hc Hi). set_solver.
  - intros j c i x [[-> ->]|[_ Hc]]%Hj; [|by apply (lo_del_live _ _ _ _ _ Hl j)].
    intros [->|Hi]%Hb1 Hx;
      [by apply (lo_dead _ _ _ _ _ Hl id)|by apply (lo_del_live _ _ _ _ _ Hl k b i)].
  - intros j j' c c' i Hne [[-> ->]|[? Hc]]%Hj [[-> ->]|[? Hc']]%Hj; [done|..].
    + intros [->|Hi]%Hb1; [by eapply Hunused|].
      by apply (lo_del_disj _ _ _ _ _ Hl k j' b).
    + intros Hi [->|Hi']%Hb1; [by eapply Hunused|].
      by apply (lo_del_disj _ _ _ _ _ Hl j k c b i Hne Hc Hk).
    + by apply (lo_del_disj _ _ _ _ _ Hl j j').
  - intros i x Hx Hi. apply (lo_dead _ _ _ _ _ Hl i); [done|set_solver].
Qed.

(** The buffer of [k] is thrown away, or [k] was not open. *)
Lemma layer_close m nxt vs bufs D k : layer_ok m nxt vs bufs D -> layer_ok m nxt vs (delete k bufs) D.
Proof.
  intros Hl. assert (forall j b, delete k bufs !! j = Some b -> bufs !! j = Some b) as Hj
    by (by intros j b [_ ?]%lookup_delete_Some).
  split; try apply Hl.
  - intros j b id Hb%Hj. by apply (lo_put _ _ _ _ _ Hl j).
  - intros j j' b b' id Hne Hb%Hj Hb'%Hj. by apply (lo_put_disj _ _ _ _ _ Hl j j').
  - intros j b id Hb%Hj. by apply (lo_del _ _ _ _ _ Hl j).
  - intros j b id x Hb%Hj. by apply (lo_del_live _ _ _ _ _ Hl j).
  - intros j j' b b' id Hne Hb%Hj Hb'%Hj. by apply (lo_del_disj _ _ _ _ _ Hl j j').
Qed.

(** The buffer of [k] is committed. *)
Lemma layer_commit m m' nxt vs v bufs D k b mk :
  (forall x tx, view (v_mark_deleted x tx) = view x) ->
  layer_ok m nxt vs bufs D -> bufs !! k = Some b -> last vs = Some v ->
  Z.of_nat (length vs) < MAX_TX_ID -> makes view (Z.of_nat (length vs)) mk ->
  (forall id, m' !! id = committed_record (Z.of_nat (length vs)) mk b m id) ->
  layer_ok m' nxt (vs ++ [apply_buf b v]) (delete k bufs) D.
Proof.
  intros Hmark Hl Hk Hlast Hmax Hmk Hm'.
  assert (forall j c, delete k bufs !! j = Some c -> j ≠ k /\ bufs !! j = Some c) as Hj
    by (intros j c [? ?]%lookup_delete_Some; auto).
  pose proof (layer_close m nxt vs bufs D k Hl) as Hc.
  assert (forall id, m' !! id = None <-> puts b !! id = None /\ m !! id = None) as Hnone.
  { intros id. rewrite Hm'. unfold committed_record.
    destruct (puts b !! id), (m !! id); case_decide; naive_solver. }
  split; try apply Hc.
  - apply (versions_commit view mk m); try done; [apply Hl|]. split.
    + intros id Hid. by apply (lo_put _ _ _ _ _ Hl k b).
    + intros id x Hid Hx. by apply (lo_del_live _ _ _ _ _ Hl k b id).
  - intros id Hid. rewrite <-not_eq_None_Some, Hnone in Hid.
    destruct (puts b !! id) eqn:Hp; [by apply (lo_put _ _ _ _ _ Hl k b)|].
    destruct (m !! id) eqn:Hm; [|naive_solver]. apply (lo_below _ _ _ _ _ Hl). by rewrite Hm.
  - intros j c id [Hne Hb]%Hj Hid. destruct (lo_put _ _ _ _ _ Hl j c id Hb Hid) as [Hm ?].
    split; [|done]. apply Hnone. split; [|done]. by apply (lo_put_disj _ _ _ _ _ Hl j k c).
  - intros j c id x [Hne Hb]%Hj Hid. rewrite Hm'. unfold committed_record.
    rewrite decide_False by (by apply (lo_del_disj _ _ _ _ _ Hl j k c)).
    destruct (puts b !! id) as [p|]; [intros [= <-]; by apply Hmk|].
    by apply (lo_del_live _ _ _ _ _ Hl j c).
  - intros id x. rewrite Hm'. unfold committed_record. intros Hx Hid.
    rewrite decide_False in Hx by (intros Hin; by apply Hid, (lo_del _ _ _ _ _ Hl k b)).
    destruct (puts b !! id) as [p|]; [injection Hx as <-; by apply Hmk|].
    by apply (lo_dead _ _ _ _ _ Hl id).
Qed.


(** A ticket finishes without writing. *)
Lemma layer_skip m nxt vs v bufs D mk :
  (forall x tx, view (v_mark_deleted x tx) = view x) ->
  layer_ok m nxt vs bufs D -> last vs = Some v -> Z.of_nat (length vs) < MAX_TX_ID ->
  makes view (Z.of_nat (length vs)) mk -> layer_ok m nxt (vs ++ [v]) bufs D.
Proof.
  intros Hmark Hl Hlast Hmax Hmk. split; try apply Hl. rewrite <-(apply_no_writes v).
  apply (versions_commit view mk m); try done; [apply Hl|].
  split; simpl; [intros id; rewrite lookup_empty; by intros []|set_solver].
Qed.

(** What was read in a version stays what it was, and is below the counter. *)
Lemma layer_version_fresh m nxt vs bufs D v :
  layer_ok m nxt vs bufs D -> v ∈ vs -> v !! nxt = None.
Proof.
  intros Hl [s Hs]%list_elem_of_lookup. rewrite <-(vo_read _ _ _ (lo_versions _ _ _ _ _ Hl) s v nxt Hs).
  destruct (m !! nxt) as [x|] eqn:Hm; [|done].
  pose proof (lo_below _ _ _ _ _ Hl nxt ltac:(eauto)). lia.
Qed.

Lemma layer_buf_fresh m nxt vs bufs D k b :
  layer_ok m nxt vs bufs D -> bufs !! k = Some b -> puts b !! nxt = None.
Proof.
  intros Hl Hk. destruct (puts b !! nxt) eqn:Hp; [|done].
  destruct (lo_put _ _ _ _ _ Hl k b nxt Hk) as [_ ?]; [done|lia].
Qed.
End layer.

Lemma layer_weaken {X V} `{VersionedLaws X} (view : X -> V) m nxt nxt' vs bufs D D' :
  layer_ok view m nxt vs bufs D -> nxt <= nxt' -> D ⊆ D' -> layer_ok view m nxt' vs bufs D'.
Proof.
  intros Hl Hn HD. split; try apply Hl.
  - intros id Hid. pose proof (lo_below _ _ _ _ _ _ Hl id Hid). lia.
  - intros k b id Hk Hid. destruct (lo_put _ _ _ _ _ _ Hl k b id Hk Hid). split; [done|lia].
  - intros k b id Hk Hid. by apply HD, (lo_del _ _ _ _ _ _ Hl k b).
  - intros id x Hx Hid. apply (lo_dead _ _ _ _ _ _ Hl id); [done|set_solver].
Qed.
