(* ===== verification/Isolation.v ===== *)
(** * Snapshot isolation

    The transactions of [Transaction.v] together: a client that holds any number
    of them open and calls their methods in any order. A history of versions is
    the abstract specification, and the database implements it: what a
    transaction reads is the version that was current when it began. Calls are
    atomic here; what another thread sees inside [commit] is [Transaction.v]'s
    [publish_before_apply]. *)

From S2P Require Export Transaction EdgeIds Versions.

Open Scope Z_scope.

(** ** The client's calls *)

Inductive Call : Type :=
| CBeginRead (k : nat)
| CBeginWrite (k : nat)
| CCreateNode (k : nat) (labels : list Z) (props_row : Z)
| CUpdateLabels (k : nat) (id : Z) (labels : list Z)
| CDeleteNode (k : nat) (id : Z)
| CCreateEdge (k : nat) (src dst etype props_row : Z)
| CDeleteEdge (k : nat) (id : Z)
| CSetProp (k : nat) (label : Z) (prop : bytes) (row : Z) (value : option Value)
| CCommit (k : nat)
| CRollback (k : nat)
| CDrop (k : nat).

(** The database and the transactions the client holds, under names it chose. *)
Record Sessions (W : Type) : Type := mkSessions {
  s_db : Database W;
  s_txs : gmap nat Transaction
}.
Arguments mkSessions {W}.
Arguments s_db {W}.
Arguments s_txs {W}.

Section sessions.
Context {W : Type} `{WalSink W} `{Codec Node} `{Codec Edge} `{Codec (option Value)}.
Import Transaction.
Implicit Types (S : Sessions W).

(** A call on the transaction named [k], if there is one. *)
Definition on_tx (k : nat) S (f : Transaction -> option (Database W * Transaction))
  : option (Sessions W) :=
  match s_txs S !! k with
  | Some t => '(db, t') ← f t; Some (mkSessions db (<[k := t']> (s_txs S)))
  | None => Some S
  end.

(** Nothing, when the name is in use. *)
Definition begin_as (k : nat) S (t : Transaction) (db : Database W) : Sessions W :=
  match s_txs S !! k with
  | Some _ => S
  | None => mkSessions db (<[k := t]> (s_txs S))
  end.

(** A [commit] whose loop ran out of fuel would not return; none does
    ([commit_call_returns]). *)
Definition commit_call (db : Database W) (t : Transaction) : option (Database W * Transaction) :=
  match commit db t with
  | (Err Spinning, _, _) => None
  | (_, db', t') => Some (db', t')
  end.

(** [None]: the call never returns. *)
Definition sess_exec S (c : Call) : option (Sessions W) :=
  let db := s_db S in
  match c with
  | CBeginRead k => Some (begin_as k S (Database.begin_read db) db)
  | CBeginWrite k =>
      Some (begin_as k S (Database.begin_write db).1 (Database.begin_write db).2)
  | CCreateNode k labels row =>
      on_tx k S (fun t => Some ((create_node labels row db t).1.2, (create_node labels row db t).2))
  | CUpdateLabels k id labels => on_tx k S (fun t => Some (db, update_node_labels id labels t))
  | CDeleteNode k id => on_tx k S (fun t => Some (db, delete_node id t))
  | CCreateEdge k src dst etype row =>
      on_tx k S (fun t => Some ((create_edge src dst etype row db t).1.2,
                                (create_edge src dst etype row db t).2))
  | CDeleteEdge k id => on_tx k S (fun t => Some (db, delete_edge id t))
  | CSetProp k label prop row value => on_tx k S (fun t => Some (db, set_prop label prop row value t))
  | CCommit k => on_tx k S (fun t => commit_call db t)
  | CRollback k => on_tx k S (fun t => rollback db t)
  | CDrop k =>
      match s_txs S !! k with
      | Some t => db' ← drop db t; Some (mkSessions db' (delete k (s_txs S)))
      | None => Some S
      end
  end.

Fixpoint sess_run S (cs : list Call) : option (Sessions W) :=
  match cs with
  | [] => Some S
  | c :: cs' => S' ← sess_exec S c; sess_run S' cs'
  end.

Lemma commit_call_returns (db : Database W) t :
  commit_call db t = Some ((commit db t).1.2, (commit db t).2).
Proof.
  unfold commit_call, commit. destruct (negb _); [done|]. destruct (committed t); [done|].
  rewrite wait_turn_alone. by destruct (_ =? _).
Qed.

Lemma sess_exec_commit S k :
  sess_exec S (CCommit k) = on_tx k S (fun t => Some ((commit (s_db S) t).1.2, (commit (s_db S) t).2)).
Proof.
  simpl. unfold on_tx. destruct (s_txs S !! k) as [t|]; [|done]. by rewrite commit_call_returns.
Qed.

Definition sess_start (db : Database W) : Sessions W := mkSessions db ∅.
End sessions.

(** ** The specification: a history of versions *)

Abbreviation NodeView := (list Z * Z)%type.
Abbreviation EdgeView := (Z * Z * Z * Z)%type.

Record Version : Type := mkVersion {
  v_nodes : gmap Z NodeView;
  v_edges : gmap Z EdgeView
}.

Record AbsTx : Type := mkAbsTx {
  at_ticket : Z;
  at_snap : nat;
  at_write : bool;
  at_open : bool;
  at_nodes : Buf NodeView;
  at_edges : Buf EdgeView
}.

(** The versions so far, the newest last; version [s] is what snapshot [s] is. *)
Record History : Type := mkHistory {
  h_next : Z;
  h_versions : list Version;
  h_txs : gmap nat AbsTx
}.

Definition history_start : History := mkHistory 1 [mkVersion ∅ ∅] ∅.

Section specification.
Implicit Types (H : History) (a : AbsTx).

Definition current H : Version := default (mkVersion ∅ ∅) (last (h_versions H)).

Definition set_txs (f : gmap nat AbsTx -> gmap nat AbsTx) H : History :=
  mkHistory (h_next H) (h_versions H) (f (h_txs H)).

Definition set_bufs (bn : Buf NodeView) (be : Buf EdgeView) a : AbsTx :=
  mkAbsTx (at_ticket a) (at_snap a) (at_write a) (at_open a) bn be.

Definition close a : AbsTx :=
  mkAbsTx (at_ticket a) (at_snap a) (at_write a) false (at_nodes a) (at_edges a).

Definition put {V} (id : Z) (p : V) (b : Buf V) : Buf V := mkBuf (<[id := p]> (puts b)) (dels b).
Definition del {V} (id : Z) (b : Buf V) : Buf V := mkBuf (puts b) ({[id]} ∪ dels b).

(** Is the ticket the next to finish? *)
Definition is_turn H a : bool := at_ticket a =? Z.of_nat (length (h_versions H)).

(** The transaction named [k] finishes, and leaves version [v]. *)
Definition finish (k : nat) a (v : Version) H : History :=
  mkHistory (h_next H) (h_versions H ++ [v]) (<[k := close a]> (h_txs H)).

(** Its writes over the current version. *)
Definition next_version a H : Version :=
  mkVersion (apply_buf (at_nodes a) (v_nodes (current H)))
            (apply_buf (at_edges a) (v_edges (current H))).

(** One call; [new] is the id a creation gets. *)
Definition spec_exec H (c : Call) (new : Z) : History :=
  match c with
  | CBeginRead k | CBeginWrite k =>
      match h_txs H !! k with
      | Some _ => H
      | None =>
          let w := match c with CBeginWrite _ => true | _ => false end in
          mkHistory (if w then h_next H + 1 else h_next H) (h_versions H)
            (<[k := mkAbsTx (if w then h_next H else 0) (pred (length (h_versions H))) w true
                      no_writes no_writes]> (h_txs H))
      end
  | CCreateNode k labels row =>
      set_txs (alter (fun a => set_bufs (put new (labels, row) (at_nodes a)) (at_edges a) a) k) H
  | CDeleteNode k id =>
      set_txs (alter (fun a => set_bufs (del id (at_nodes a)) (at_edges a) a) k) H
  | CCreateEdge k src dst etype row =>
      set_txs (alter (fun a => set_bufs (at_nodes a) (put new (src, dst, etype, row) (at_edges a)) a) k) H
  | CDeleteEdge k id =>
      set_txs (alter (fun a => set_bufs (at_nodes a) (del id (at_edges a)) a) k) H
  | CUpdateLabels _ _ _ | CSetProp _ _ _ _ _ => H
  | CCommit k =>
      match h_txs H !! k with
      | Some a => if at_write a && at_open a && is_turn H a then finish k a (next_version a H) H else H
      | None => H
      end
  | CRollback k =>
      match h_txs H !! k with
      | Some a => if at_write a && is_turn H a then finish k a (current H) H else H
      | None => H
      end
  | CDrop k =>
      match h_txs H !! k with
      | Some a =>
          set_txs (delete k)
            (if at_write a && at_open a && is_turn H a then finish k a (current H) H else H)
      | None => H
      end
  end.

(** An id that no version and no open transaction has. *)
Definition spec_fresh H (c : Call) (new : Z) : Prop :=
  match c with
  | CCreateNode _ _ _ =>
      (forall v, v ∈ h_versions H -> v_nodes v !! new = None) /\
      (forall k a, h_txs H !! k = Some a -> at_open a = true -> puts (at_nodes a) !! new = None)
  | CCreateEdge _ _ _ _ _ =>
      (forall v, v ∈ h_versions H -> v_edges v !! new = None) /\
      (forall k a, h_txs H !! k = Some a -> at_open a = true -> puts (at_edges a) !! new = None)
  | _ => True
  end.

Inductive spec_run : History -> list Call -> History -> Prop :=
| spec_done H : spec_run H [] H
| spec_call H c new cs H' :
    spec_fresh H c new -> spec_run (spec_exec H c new) cs H' -> spec_run H (c :: cs) H'.
End specification.

#[export] Hint Constructors spec_run : lightgraph.

(** The ids the client asks to delete. *)
Definition deleted_node (c : Call) : option Z :=
  match c with CDeleteNode _ id => Some id | _ => None end.
Definition deleted_edge (c : Call) : option Z :=
  match c with CDeleteEdge _ id => Some id | _ => None end.

(** A new label changes a node in place: it has no version. *)
Definition relabels (c : Call) : bool :=
  match c with CUpdateLabels _ _ _ => true | _ => false end.

(** ** The simulation *)

Definition node_shown (n : Node) : NodeView := (Node.labels n, Node.props_row n).
Definition edge_shown (e : Edge) : EdgeView :=
  (Edge.src e, Edge.dst e, Edge.etype e, Edge.props_row e).

Definition open_bufs {V} (f : AbsTx -> Buf V) (txs : gmap nat AbsTx) : gmap nat (Buf V) :=
  omap (fun a => if at_open a then Some (f a) else None) txs.

Section open_bufs.
Context {V : Type} (f : AbsTx -> Buf V).
Implicit Types (txs : gmap nat AbsTx) (a : AbsTx) (k : nat).

Lemma open_bufs_Some txs k a :
  txs !! k = Some a -> at_open a = true -> open_bufs f txs !! k = Some (f a).
Proof. intros Hk Ha. unfold open_bufs. rewrite lookup_omap, Hk. simpl. by rewrite Ha. Qed.

Lemma open_bufs_open txs k a :
  at_open a = true -> open_bufs f (<[k := a]> txs) = <[k := f a]> (open_bufs f txs).
Proof. intros Ha. unfold open_bufs. apply omap_insert_Some. by rewrite Ha. Qed.

Lemma open_bufs_closed txs k a :
  at_open a = false -> open_bufs f (<[k := a]> txs) = delete k (open_bufs f txs).
Proof. intros Ha. unfold open_bufs. apply omap_insert_None. by rewrite Ha. Qed.

Lemma open_bufs_delete txs k : open_bufs f (delete k txs) = delete k (open_bufs f txs).
Proof. apply omap_delete. Qed.
End open_bufs.

(** The spec's [alter], where the name is there. *)
Lemma alter_as_insert (f : AbsTx -> AbsTx) k a (txs : gmap nat AbsTx) :
  txs !! k = Some a -> alter f k txs = <[k := f a]> txs.
Proof.
  intros Hk. apply map_eq. intros j. destruct (decide (k = j)) as [<-|].
  - by rewrite lookup_alter_eq, lookup_insert_eq, Hk.
  - by rewrite lookup_alter_ne, lookup_insert_ne.
Qed.

(** A transaction whose [f]-buffer is the same leaves the layer alone. *)
Lemma open_bufs_same {V} (f : AbsTx -> Buf V) (txs : gmap nat AbsTx) k a a' :
  txs !! k = Some a -> f a' = f a -> at_open a' = at_open a ->
  open_bufs f (<[k := a']> txs) = open_bufs f txs.
Proof.
  intros Hk Hf Ho. apply map_eq. intros j. unfold open_bufs. rewrite !lookup_omap.
  destruct (decide (k = j)) as [<-|]; [|by rewrite lookup_insert_ne].
  rewrite lookup_insert_eq, Hk. simpl. by rewrite Hf, Ho.
Qed.

(** A layer where the buffer of [k], open or not, gets a put or a deletion. *)
Lemma layer_put_tx {X V} `{VersionedLaws X} (view : X -> V) (f : AbsTx -> Buf V) m nxt vs (txs : gmap nat AbsTx) D k a a' p :
  layer_ok view m nxt vs (open_bufs f txs) D -> txs !! k = Some a ->
  f a' = put nxt p (f a) -> at_open a' = at_open a ->
  layer_ok view m (nxt + 1) vs (open_bufs f (<[k := a']> txs)) D.
Proof.
  intros Hl Hk Hf Ho. destruct (at_open a) eqn:Ha.
  - rewrite open_bufs_open, Hf by done. unfold put. apply layer_put; [done|].
    by apply open_bufs_Some.
  - rewrite open_bufs_closed by done. apply (layer_weaken _ _ nxt _ _ _ D); [|lia|done].
    by apply layer_close.
Qed.

Lemma layer_del_tx {X V} `{VersionedLaws X} (view : X -> V) (f : AbsTx -> Buf V) m nxt vs (txs : gmap nat AbsTx) D k a a' id :
  layer_ok view m nxt vs (open_bufs f txs) D -> txs !! k = Some a ->
  f a' = del id (f a) -> at_open a' = at_open a -> id ∉ D ->
  layer_ok view m nxt vs (open_bufs f (<[k := a']> txs)) ({[id]} ∪ D).
Proof.
  intros Hl Hk Hf Ho Hid. destruct (at_open a) eqn:Ha.
  - rewrite open_bufs_open, Hf by done. unfold del. apply layer_del; [done| |done].
    by apply open_bufs_Some.
  - rewrite open_bufs_closed by done. eapply layer_weaken; [by apply layer_close|lia|set_solver].
Qed.
(** The last insert of an edge id in the buffer, as [inserted] for nodes. *)
Definition inserted_edge (t : Transaction) id : option EdgeView :=
  match find (fun '(i, _, _, _, _) => bool_decide (id = i)) (rev (edge_inserts t)) with
  | Some (_, src, dst, etype, row) => Some (src, dst, etype, row)
  | None => None
  end.

Definition mk_node (tx id : Z) (p : NodeView) : Node := Node.new id p.1 p.2 tx.
Definition mk_edge (tx id : Z) (p : EdgeView) : Edge :=
  let '(src, dst, etype, row) := p in Edge.new id src dst etype row tx.

Lemma mk_node_makes tx : makes node_shown tx (mk_node tx).
Proof. by intros id [labels row]. Qed.

Lemma mk_edge_makes tx : makes edge_shown tx (mk_edge tx).
Proof. by intros id [[[src dst] etype] row]. Qed.

Section commits.
Context {W : Type} `{WalSink W} `{Codec Node} `{Codec Edge} `{Codec (option Value)}.
Import Transaction.
Implicit Types (db : Database W) (t : Transaction) (id : Z).

Definition edge_effect (tx id : Z) (o : option Edge) (w : TxWrite) : option Edge :=
  match w with
  | WInsertEdge i src dst etype row =>
      if decide (id = i) then Some (Edge.new i src dst etype row tx) else o
  | WDeleteEdge i => if decide (id = i) then (fun e => Edge.mark_deleted e tx) <$> o else o
  | _ => o
  end.

Lemma apply_writes_edge tx db ws id :
  edges (db_edges (apply_writes tx db ws)) !! id =
  foldl (edge_effect tx id) (edges (db_edges db) !! id) ws.
Proof.
  unfold apply_writes. revert db. induction ws as [|w ws IH]; intros db; [done|]. simpl.
  rewrite IH. f_equal. destruct w; simpl; try done.
  - unfold EdgeStore.insert_with_id. rewrite wal_insert_edges. simpl. case_decide as Heq; subst;
      [apply lookup_insert_eq|by rewrite lookup_insert_ne].
  - apply soft_delete_edge_lookup.
Qed.

Lemma edge_effect_skip tx id o ws :
  Forall (fun w => forall o', edge_effect tx id o' w = o') ws ->
  foldl (edge_effect tx id) o ws = o.
Proof. intros Hws. induction Hws as [|w ws Hw _ IH]; simpl; [done|]. by rewrite Hw. Qed.

Lemma edge_effect_inserts tx id o t :
  foldl (edge_effect tx id) o
    (map (fun '(i, src, dst, etype, row) => WInsertEdge i src dst etype row) (edge_inserts t)) =
  match inserted_edge t id with Some p => Some (mk_edge tx id p) | None => o end.
Proof.
  unfold inserted_edge. induction (edge_inserts t) as [|[[[[i src] dst] etype] row] l IH] using rev_ind;
    [done|].
  rewrite map_app, foldl_app, IH, rev_app_distr. simpl.
  case_decide as Hid; [by rewrite bool_decide_eq_true_2; subst|].
  by rewrite bool_decide_eq_false_2.
Qed.

Lemma edge_effect_deletes tx id o l :
  foldl (edge_effect tx id) o (map WDeleteEdge l) =
  if decide (id ∈ l) then (fun e => Edge.mark_deleted e tx) <$> o else o.
Proof.
  revert o. induction l as [|i l IH]; intros o; [done|]. simpl. rewrite IH.
  destruct (decide (id = i)) as [->|Hne].
  - rewrite (decide_True (P := i ∈ i :: l)) by apply list_elem_of_here.
    destruct (decide (i ∈ l)); [by destruct o|done].
  - destruct (decide (id ∈ l)).
    + by rewrite decide_True by (by apply list_elem_of_further).
    + by rewrite decide_False by (intros [?|?]%elem_of_cons; done).
Qed.

(** The edge [id] after a commit, as [commit_node] for nodes. *)
Lemma commit_edge db t id :
  edges (db_edges (apply_writes (tx_id t) db (tx_writes t))) !! id =
  let o := match inserted_edge t id with
           | Some p => Some (mk_edge (tx_id t) id p)
           | None => edges (db_edges db) !! id
           end in
  if decide (id ∈ edge_deletes t) then (fun e => Edge.mark_deleted e (tx_id t)) <$> o else o.
Proof.
  rewrite apply_writes_edge. unfold tx_writes. rewrite !foldl_app, edge_effect_deletes.
  rewrite edge_effect_inserts. rewrite !edge_effect_skip; [done|..];
    (apply Forall_map, Forall_forall; intros x _ o';
     by repeat match goal with p : _ * _ |- _ => destruct p end).
Qed.

(** What a commit leaves alone in the two allocators. *)
Definition same_pools db db' : Prop :=
  next_id (db_nodes db') = next_id (db_nodes db) /\
  free_list (db_nodes db') = free_list (db_nodes db) /\
  edge_next_id (db_edges db') = edge_next_id (db_edges db) /\
  edge_free_list (db_edges db') = edge_free_list (db_edges db).

Lemma update_node_pool f id (s : NodeStore W) :
  next_id (update_node f id s).2 = next_id s /\ free_list (update_node f id s).2 = free_list s.
Proof.
  unfold update_node. destruct (nodes s !! id) as [n|]; [|done]. cbn [snd].
  destruct (wal_insert_frame id (f n) (NodeStore.set_nodes (<[id:=f n]> (nodes s)) s)) as (_ & -> & -> & _).
  done.
Qed.

Lemma apply_write_pools tx db w : same_pools db (apply_write tx db w).
Proof.
  destruct w; simpl; unfold same_pools; simpl; split_done; try apply update_node_pool.
  all: try (unfold insert_with_id;
    by destruct (wal_insert_frame id (Node.new id labels props_row tx)
      (insert_in_memory id (Node.new id labels props_row tx) (db_nodes db))) as (_ & Hn & Hf & _)).
  all: try (unfold EdgeStore.insert_with_id;
    by destruct (wal_insert_ids id (Edge.new id src dst etype props_row tx)
      (EdgeStore.set_edges (<[id:=Edge.new id src dst etype props_row tx]> (edges (db_edges db)))
         (db_edges db))) as (Hn & Hf & _)).
  all: by destruct (soft_delete_frame id tx (db_edges db)) as (_ & Hn & Hf & _).
Qed.

Lemma apply_writes_pools tx db ws : same_pools db (apply_writes tx db ws).
Proof.
  unfold apply_writes. revert db. induction ws as [|w ws IH]; intros db; [done|]. simpl.
  destruct (IH (apply_write tx db w)) as (H1' & H2' & H3' & H4').
  destruct (apply_write_pools tx db w) as (? & ? & ? & ?). unfold same_pools. simpl in *. split_done; congruence.
Qed.
End commits.

Section simulation.
Context {W : Type} `{ws : WalSink W} `{cn : Codec Node} `{ce : Codec Edge} `{cv : Codec (option Value)}.
Import Transaction.
Implicit Types (S : Sessions W) (H : History) (db : Database W) (t : Transaction) (a : AbsTx)
  (id b : Z) (k : nat) (c : Call) (Dn De : gset Z).

Record tx_sim t a : Prop := {
  ts_ticket : tx_id t = at_ticket a;
  ts_snap : snapshot t = Z.of_nat (at_snap a);
  ts_write : is_write t = at_write a;
  ts_open : committed t = negb (at_open a);
  ts_updates : node_updates t = [];
  ts_node_puts id : inserted t id = puts (at_nodes a) !! id;
  ts_node_dels id : id ∈ node_deletes t <-> id ∈ dels (at_nodes a);
  ts_edge_puts id : inserted_edge t id = puts (at_edges a) !! id;
  ts_edge_dels id : id ∈ edge_deletes t <-> id ∈ dels (at_edges a)
}.

Definition nodes_layer db (vs : list Version) (txs : gmap nat AbsTx) Dn : Prop :=
  layer_ok node_shown (nodes (db_nodes db)) (next_id (db_nodes db)) (v_nodes <$> vs)
    (open_bufs at_nodes txs) Dn.

Definition edges_layer db (vs : list Version) (txs : gmap nat AbsTx) De : Prop :=
  layer_ok edge_shown (edges (db_edges db)) (edge_next_id (db_edges db)) (v_edges <$> vs)
    (open_bufs at_edges txs) De.

(** The allocators have handed out fewer than [b] ids and freed none. *)
Definition pools_fresh b db : Prop :=
  0 <= next_id (db_nodes db) <= b /\ 0 <= edge_next_id (db_edges db) <= b /\
  free_list (db_nodes db) = [] /\ edge_free_list (db_edges db) = [].

Definition ticket_ok H a : Prop :=
  at_ticket a < h_next H /\ (at_write a = true -> 1 <= at_ticket a) /\
  (at_snap a < length (h_versions H))%nat.

Record sim b S H Dn De : Prop := {
  si_next : next_tx_id (tx_manager (s_db S)) = h_next H;
  si_committed : committed_tx_id (tx_manager (s_db S)) + 1 = Z.of_nat (length (h_versions H));
  si_tickets : 1 <= Z.of_nat (length (h_versions H)) <= h_next H /\ h_next H <= b;
  si_pools : pools_fresh b (s_db S);
  si_nodes : nodes_layer (s_db S) (h_versions H) (h_txs H) Dn;
  si_edges : edges_layer (s_db S) (h_versions H) (h_txs H) De;
  si_txs k : option_Forall2 tx_sim (s_txs S !! k) (h_txs H !! k);
  si_ticket k a : h_txs H !! k = Some a -> ticket_ok H a
}.

Lemma sim_lookup b S H Dn De k t :
  sim b S H Dn De -> s_txs S !! k = Some t -> exists a, h_txs H !! k = Some a /\ tx_sim t a.
Proof.
  intros Hs Hk. pose proof (si_txs _ _ _ _ _ Hs k) as Hf. rewrite Hk in Hf. inversion Hf; eauto.
Qed.

Lemma sim_lookup_None b S H Dn De k :
  sim b S H Dn De -> s_txs S !! k = None -> h_txs H !! k = None.
Proof.
  intros Hs Hk. pose proof (si_txs _ _ _ _ _ Hs k) as Hf. rewrite Hk in Hf. by inversion Hf.
Qed.

Lemma sim_weaken b b' S H Dn Dn' De De' :
  sim b S H Dn De -> b <= b' -> Dn ⊆ Dn' -> De ⊆ De' -> sim b' S H Dn' De'.
Proof.
  intros Hs Hb HDn HDe. split; try apply Hs.
  - destruct (si_tickets _ _ _ _ _ Hs). split; [done|lia].
  - destruct (si_pools _ _ _ _ _ Hs) as (? & ? & ? & ?). unfold pools_fresh. split_done.
  - by eapply layer_weaken; [apply (si_nodes _ _ _ _ _ Hs)| |].
  - by eapply layer_weaken; [apply (si_edges _ _ _ _ _ Hs)| |].
Qed.

Lemma option_Forall2_insert {A B} (R : A -> B -> Prop) (m1 : gmap nat A) (m2 : gmap nat B) k x y j :
  (forall i, option_Forall2 R (m1 !! i) (m2 !! i)) -> R x y ->
  option_Forall2 R (<[k := x]> m1 !! j) (<[k := y]> m2 !! j).
Proof.
  intros Hm Hxy. destruct (decide (j = k)) as [->|]; [rewrite !lookup_insert_eq; by constructor|].
  by rewrite !lookup_insert_ne.
Qed.

(** Only the buffers of one transaction change, and the pools. *)
Lemma sim_buffer b S H Dn De Dn' De' k db' t' a a' :
  sim b S H Dn De -> h_txs H !! k = Some a -> tx_sim t' a' ->
  at_ticket a' = at_ticket a -> at_snap a' = at_snap a -> at_write a' = at_write a ->
  tx_manager db' = tx_manager (s_db S) -> pools_fresh (b + 1) db' ->
  nodes_layer db' (h_versions H) (<[k := a']> (h_txs H)) Dn' ->
  edges_layer db' (h_versions H) (<[k := a']> (h_txs H)) De' ->
  sim (b + 1) (mkSessions db' (<[k := t']> (s_txs S))) (set_txs (fun txs => <[k := a']> txs) H) Dn' De'.
Proof.
  intros Hs Hk Ht Htk Hsn Hwr Hm Hp Hn He. split; cbn [s_db s_txs set_txs h_next h_versions h_txs];
    rewrite ?Hm; try apply Hs; try done.
  - destruct (si_tickets _ _ _ _ _ Hs). split; [done|lia].
  - intros j. apply option_Forall2_insert; [apply Hs|done].
  - intros j x [[<- <-]|[_ Hx]]%lookup_insert_Some.
    + unfold ticket_ok. rewrite Htk, Hsn, Hwr. apply (si_ticket _ _ _ _ _ Hs k a Hk).
    + apply (si_ticket _ _ _ _ _ Hs j x Hx).
Qed.


Lemma tx_sim_new tx snap w n : snap = Z.of_nat n ->
  tx_sim (Transaction.new tx snap w) (mkAbsTx tx n w true no_writes no_writes).
Proof.
  intros ->. split; try done; intros id; simpl; try by rewrite elem_of_nil; set_solver.
Qed.

Lemma sim_begin b S H Dn De k (w : bool) t db' :
  sim b S H Dn De -> b < u64_max - 1 ->
  (t, db') = (if w then Database.begin_write (s_db S)
              else (Database.begin_read (s_db S), s_db S)) ->
  sim (b + 1) (begin_as k S t db') (spec_exec H (if w then CBeginWrite k else CBeginRead k) 0) Dn De.
Proof.
  intros Hs Hb Ht. unfold begin_as. destruct (s_txs S !! k) as [t0|] eqn:Hk.
  { destruct (sim_lookup _ _ _ _ _ _ _ Hs Hk) as (a & Ha & _).
    destruct w; simpl; rewrite Ha; (eapply sim_weaken; [done|lia|done|done]). }
  pose proof (sim_lookup_None _ _ _ _ _ _ Hs Hk) as Ha.
  destruct (si_tickets _ _ _ _ _ Hs) as [Hv Hn]. pose proof (si_committed _ _ _ _ _ Hs) as Hc.
  pose proof (si_next _ _ _ _ _ Hs) as Hnx. destruct (si_pools _ _ _ _ _ Hs) as (? & ? & ? & ?).
  assert (spec_exec H (if w then CBeginWrite k else CBeginRead k) 0 =
    mkHistory (if w then h_next H + 1 else h_next H) (h_versions H)
      (<[k := mkAbsTx (if w then h_next H else 0) (pred (length (h_versions H))) w true
                no_writes no_writes]> (h_txs H))) as -> by (destruct w; simpl; by rewrite Ha).
  assert (db_nodes db' = db_nodes (s_db S) /\ db_edges db' = db_edges (s_db S) /\
    next_tx_id (tx_manager db') = (if w then h_next H + 1 else h_next H) /\
    committed_tx_id (tx_manager db') = committed_tx_id (tx_manager (s_db S)) /\
    t = Transaction.new (if w then h_next H else 0) (committed_tx_id (tx_manager (s_db S))) w)
    as (Hdn & Hde & Hm1 & Hm2 & ->).
  { destruct w; injection Ht as -> ->; simpl; rewrite ?Hnx; [|done].
    rewrite wrap64_small by (unfold u64_max in *; lia). done. }
  split; cbn [s_db s_txs h_next h_versions h_txs];
    unfold nodes_layer, edges_layer, pools_fresh; rewrite ?Hdn, ?Hde, ?Hm1, ?Hm2; try done.
  - split; [|destruct w; lia]. destruct w; lia.
  - split_done.
  - rewrite open_bufs_open by done. apply layer_begin, Hs.
  - rewrite open_bufs_open by done. apply layer_begin, Hs.
  - intros j. apply option_Forall2_insert; [apply Hs|]. apply tx_sim_new. lia.
  - intros j x [[<- <-]|[_ Hx]]%lookup_insert_Some.
    + unfold ticket_ok. simpl. destruct w; (split; [lia|]; split; [lia || done|lia]).
    + destruct (si_ticket _ _ _ _ _ Hs j x Hx) as (? & ? & ?). unfold ticket_ok. simpl.
      destruct w; split_done.
Qed.

(** The buffered calls. *)
Lemma sim_create_node b S H Dn De k t labels row :
  sim b S H Dn De -> b < u64_max - 1 -> s_txs S !! k = Some t ->
  let r := create_node labels row (s_db S) t in
  sim (b + 1) (mkSessions r.1.2 (<[k := r.2]> (s_txs S)))
    (spec_exec H (CCreateNode k labels row) (next_id (db_nodes (s_db S)))) Dn De.
Proof.
  intros Hs Hb Hk r. destruct (sim_lookup _ _ _ _ _ _ _ Hs Hk) as (a & Ha & Ht).
  destruct (si_pools _ _ _ _ _ Hs) as (Hpn & Hpe & Hfn & Hfe). subst r.
  unfold create_node, alloc_id_direct, NodeStore.alloc_id. rewrite Hfn. cbn [fst snd spec_exec].
  unfold set_txs. rewrite (alter_as_insert _ k a) by done. rewrite wrap64_small by (unfold u64_max in *; lia).
  apply (sim_buffer b S H Dn De Dn De k _ _ a); try done.
  - split; try apply Ht. intros id. unfold inserted. cbn [node_inserts at_nodes puts put set_bufs].
    rewrite rev_app_distr. simpl. case_bool_decide as Hid.
    + subst. by rewrite lookup_insert_eq.
    + rewrite lookup_insert_ne by done. apply Ht.
  - unfold pools_fresh. simpl. split_done.
  - apply (layer_put_tx node_shown at_nodes _ _ _ _ _ k a _ (labels, row)); [apply Hs|done..].
  - unfold edges_layer. rewrite (open_bufs_same _ _ k a) by done. apply Hs.
Qed.

Lemma sim_create_edge b S H Dn De k t src dst etype row :
  sim b S H Dn De -> b < u64_max - 1 -> s_txs S !! k = Some t ->
  let r := create_edge src dst etype row (s_db S) t in
  sim (b + 1) (mkSessions r.1.2 (<[k := r.2]> (s_txs S)))
    (spec_exec H (CCreateEdge k src dst etype row) (edge_next_id (db_edges (s_db S)))) Dn De.
Proof.
  intros Hs Hb Hk r. destruct (sim_lookup _ _ _ _ _ _ _ Hs Hk) as (a & Ha & Ht).
  destruct (si_pools _ _ _ _ _ Hs) as (Hpn & Hpe & Hfn & Hfe). subst r.
  unfold create_edge, EdgeStore.alloc_id_direct, EdgeStore.alloc_id. rewrite Hfe. cbn [fst snd spec_exec].
  unfold set_txs. rewrite (alter_as_insert _ k a) by done. rewrite wrap64_small by (unfold u64_max in *; lia).
  apply (sim_buffer b S H Dn De Dn De k _ _ a); try done.
  - split; try apply Ht. intros id. unfold inserted_edge. cbn [edge_inserts at_edges puts put set_bufs].
    rewrite rev_app_distr. simpl. case_bool_decide as Hid.
    + subst. by rewrite lookup_insert_eq.
    + rewrite lookup_insert_ne by done. apply Ht.
  - unfold pools_fresh. simpl. split_done.
  - unfold nodes_layer. rewrite (open_bufs_same _ _ k a) by done. apply Hs.
  - apply (layer_put_tx edge_shown at_edges _ _ _ _ _ k a _ (src, dst, etype, row)); [apply Hs|done..].
Qed.

Lemma pools_weaken b b' db : pools_fresh b db -> b <= b' -> pools_fresh b' db.
Proof. intros (? & ? & ? & ?) ?. unfold pools_fresh. split_done. Qed.

Lemma sim_delete_node b S H Dn De k t id :
  sim b S H Dn De -> id ∉ Dn -> s_txs S !! k = Some t ->
  sim (b + 1) (mkSessions (s_db S) (<[k := delete_node id t]> (s_txs S)))
    (spec_exec H (CDeleteNode k id) 0) ({[id]} ∪ Dn) De.
Proof.
  intros Hs Hid Hk. destruct (sim_lookup _ _ _ _ _ _ _ Hs Hk) as (a & Ha & Ht).
  cbn [spec_exec]. unfold set_txs. rewrite (alter_as_insert _ k a) by done.
  apply (sim_buffer b S H Dn De _ De k _ _ a); try done.
  - split; try apply Ht. intros i. cbn [node_deletes delete_node at_nodes dels del set_bufs].
    rewrite elem_of_app, list_elem_of_singleton, (ts_node_dels _ _ Ht). set_solver.
  - eapply pools_weaken; [apply Hs|lia].
  - apply (layer_del_tx node_shown at_nodes _ _ _ _ _ k a); [apply Hs|done..].
  - unfold edges_layer. rewrite (open_bufs_same _ _ k a) by done. apply Hs.
Qed.

Lemma sim_delete_edge b S H Dn De k t id :
  sim b S H Dn De -> id ∉ De -> s_txs S !! k = Some t ->
  sim (b + 1) (mkSessions (s_db S) (<[k := delete_edge id t]> (s_txs S)))
    (spec_exec H (CDeleteEdge k id) 0) Dn ({[id]} ∪ De).
Proof.
  intros Hs Hid Hk. destruct (sim_lookup _ _ _ _ _ _ _ Hs Hk) as (a & Ha & Ht).
  cbn [spec_exec]. unfold set_txs. rewrite (alter_as_insert _ k a) by done.
  apply (sim_buffer b S H Dn De Dn _ k _ _ a); try done.
  - split; try apply Ht. intros i. cbn [edge_deletes delete_edge at_edges dels del set_bufs].
    rewrite elem_of_app, list_elem_of_singleton, (ts_edge_dels _ _ Ht). set_solver.
  - eapply pools_weaken; [apply Hs|lia].
  - unfold nodes_layer. rewrite (open_bufs_same _ _ k a) by done. apply Hs.
  - apply (layer_del_tx edge_shown at_edges _ _ _ _ _ k a); [apply Hs|done..].
Qed.

Lemma sim_set_prop b S H Dn De k t label prop row value :
  sim b S H Dn De -> s_txs S !! k = Some t ->
  sim (b + 1) (mkSessions (s_db S) (<[k := set_prop label prop row value t]> (s_txs S))) H Dn De.
Proof.
  intros Hs Hk. destruct (sim_lookup _ _ _ _ _ _ _ Hs Hk) as (a & Ha & Ht).
  replace H with (set_txs (fun txs => <[k := a]> txs) H)
    by (unfold set_txs; rewrite insert_id by done; by destruct H).
  apply (sim_buffer b S H Dn De Dn De k _ _ a); try done.
  - split; apply Ht.
  - eapply pools_weaken; [apply Hs|lia].
  - unfold nodes_layer. rewrite insert_id by done. apply Hs.
  - unfold edges_layer. rewrite insert_id by done. apply Hs.
Qed.

(** ** Tickets that finish *)

Lemma sim_turn b S H Dn De k a :
  sim b S H Dn De -> b < u64_max - 1 -> h_txs H !! k = Some a -> at_write a = true ->
  is_turn H a = (TxManager.latest_committed (tx_manager (s_db S)) =? wrap64 (at_ticket a - 1)).
Proof.
  intros Hs Hb Hk Hw. destruct (si_ticket _ _ _ _ _ Hs k a Hk) as (Hlt & Hge & _).
  pose proof (si_committed _ _ _ _ _ Hs) as Hc. destruct (si_tickets _ _ _ _ _ Hs) as [_ Hn].
  specialize (Hge Hw). unfold is_turn, TxManager.latest_committed.
  rewrite wrap64_small by (unfold u64_max in *; lia). apply eq_true_iff_eq. rewrite !Z.eqb_eq. lia.
Qed.

Lemma sim_current b S H Dn De : sim b S H Dn De -> last (h_versions H) = Some (current H).
Proof.
  intros Hs. unfold current. destruct (last (h_versions H)) eqn:Hl; [done|].
  apply last_None in Hl. pose proof (si_tickets _ _ _ _ _ Hs) as [Hv _]. rewrite Hl in Hv. simpl in Hv. lia.
Qed.

Lemma tx_sim_close t a : tx_sim t a -> tx_sim (set_committed t) (close a).
Proof. intros Ht. split; try apply Ht; done. Qed.

(** The transaction named [k] finishes and leaves version [v]. *)
Lemma sim_finish b S H Dn De k t a db' v :
  sim b S H Dn De -> b < u64_max - 1 -> h_txs H !! k = Some a -> tx_sim t a -> is_turn H a = true ->
  tx_manager db' = TxManager.store_committed (at_ticket a) (tx_manager (s_db S)) ->
  same_pools (s_db S) db' ->
  nodes_layer db' (h_versions H ++ [v]) (<[k := close a]> (h_txs H)) Dn ->
  edges_layer db' (h_versions H ++ [v]) (<[k := close a]> (h_txs H)) De ->
  sim (b + 1) (mkSessions db' (<[k := set_committed t]> (s_txs S))) (finish k a v H) Dn De.
Proof.
  intros Hs Hb Hk Ht Hturn%Z.eqb_eq Hm (Hp1 & Hp2 & Hp3 & Hp4) Hn He.
  destruct (si_tickets _ _ _ _ _ Hs) as [Hv Hnx].
  destruct (si_ticket _ _ _ _ _ Hs k a Hk) as (Hlt & _ & _).
  split; cbn [s_db s_txs finish h_next h_versions h_txs]; rewrite ?Hm, ?length_app; try done.
  - apply (si_next _ _ _ _ _ Hs).
  - simpl. lia.
  - simpl. lia.
  - unfold pools_fresh. rewrite Hp1, Hp2, Hp3, Hp4. eapply pools_weaken; [apply Hs|lia].
  - intros j. apply option_Forall2_insert; [apply Hs|by apply tx_sim_close].
  - intros j x Hx. assert (ticket_ok H x) as (H1 & H2 & H3).
    { apply lookup_insert_Some in Hx as [[<- <-]|[_ Hx]];
        [exact (si_ticket _ _ _ _ _ Hs k a Hk)|exact (si_ticket _ _ _ _ _ Hs j x Hx)]. }
    unfold ticket_ok. cbn [finish h_next h_versions]. rewrite length_app. simpl. split_done.
Qed.

Lemma layers_skip b S H Dn De k a :
  sim b S H Dn De -> b < u64_max - 1 ->
  nodes_layer (s_db S) (h_versions H ++ [current H]) (<[k := close a]> (h_txs H)) Dn /\
  edges_layer (s_db S) (h_versions H ++ [current H]) (<[k := close a]> (h_txs H)) De.
Proof.
  intros Hs Hb. pose proof (sim_current _ _ _ _ _ Hs) as Hl. destruct (si_tickets _ _ _ _ _ Hs) as [Hv Hn].
  unfold nodes_layer, edges_layer. rewrite !fmap_app, !open_bufs_closed by done. split.
  - apply (layer_skip _ _ _ _ _ _ _ (mk_node (Z.of_nat (length (v_nodes <$> h_versions H))))); try done.
    + by apply layer_close, Hs.
    + by rewrite fmap_last, Hl.
    + rewrite length_fmap. unfold MAX_TX_ID, u64_max in *. lia.
    + apply mk_node_makes.
  - apply (layer_skip _ _ _ _ _ _ _ (mk_edge (Z.of_nat (length (v_edges <$> h_versions H))))); try done.
    + by apply layer_close, Hs.
    + by rewrite fmap_last, Hl.
    + rewrite length_fmap. unfold MAX_TX_ID, u64_max in *. lia.
    + apply mk_edge_makes.
Qed.

(** [rollback] and [drop], when they return. *)
Lemma sim_give_up b S H Dn De k t a m :
  sim b S H Dn De -> b < u64_max - 1 -> h_txs H !! k = Some a -> tx_sim t a -> at_write a = true ->
  wait_rollback (tx_id t) (tx_manager (s_db S)) = Some m ->
  is_turn H a = true /\
  sim (b + 1) (mkSessions (set_manager m (s_db S)) (<[k := set_committed t]> (s_txs S)))
    (finish k a (current H) H) Dn De.
Proof.
  intros Hs Hb Hk Ht Hw Hm. rewrite wait_rollback_alone in Hm. unfold rollback_iter in Hm.
  rewrite (ts_ticket _ _ Ht), <-(sim_turn b S H Dn De k a) in Hm by done.
  destruct (is_turn H a) eqn:Hturn; [|done]. injection Hm as <-. split; [done|].
  destruct (layers_skip b S H Dn De k a Hs Hb) as [Hn He].
  apply (sim_finish b S H Dn De k t a); try done.
Qed.

Lemma sim_delete b S H Dn De k :
  sim b S H Dn De -> sim b (mkSessions (s_db S) (delete k (s_txs S))) (set_txs (delete k) H) Dn De.
Proof.
  intros Hs. split; cbn [s_db s_txs set_txs h_next h_versions h_txs];
    unfold nodes_layer, edges_layer; rewrite ?open_bufs_delete; try apply Hs.
  - by apply layer_close, Hs.
  - by apply layer_close, Hs.
  - intros j. destruct (decide (j = k)) as [->|]; [rewrite !lookup_delete_eq; constructor|].
    rewrite !lookup_delete_ne by done. apply Hs.
  - intros j a [_ Ha]%lookup_delete_Some. by apply (si_ticket _ _ _ _ _ Hs j).
Qed.

Lemma flush_frames db :
  nodes (db_nodes (flush_all db)) = nodes (db_nodes db) /\
  edges (db_edges (flush_all db)) = edges (db_edges db) /\ same_pools db (flush_all db).
Proof.
  unfold flush_all, same_pools, flush, EdgeStore.flush. simpl.
  by destruct (wal (db_nodes db)), (edge_wal (db_edges db)).
Qed.

(** The two layers after a commit. *)
Lemma layers_commit b S H Dn De k t a m :
  sim b S H Dn De -> b < u64_max - 1 -> h_txs H !! k = Some a -> tx_sim t a ->
  at_open a = true -> is_turn H a = true ->
  let db' := flush_all (apply_writes (tx_id t) (set_manager m (s_db S)) (tx_writes t)) in
  nodes_layer db' (h_versions H ++ [next_version a H]) (<[k := close a]> (h_txs H)) Dn /\
  edges_layer db' (h_versions H ++ [next_version a H]) (<[k := close a]> (h_txs H)) De.
Proof.
  intros Hs Hb Hk Ht Ho Hturn%Z.eqb_eq db'. pose proof (sim_current _ _ _ _ _ Hs) as Hl.
  destruct (si_tickets _ _ _ _ _ Hs) as [Hv Hn]. unfold nodes_layer, edges_layer.
  destruct (flush_frames (apply_writes (tx_id t) (set_manager m (s_db S)) (tx_writes t)))
    as (Hfn & Hfe & Hp1 & _ & Hp3 & _). subst db'.
  destruct (apply_writes_pools (tx_id t) (set_manager m (s_db S)) (tx_writes t)) as (Hq1 & _ & Hq3 & _).
  rewrite Hfn, Hfe, Hp1, Hp3, Hq1, Hq3, !fmap_app, !open_bufs_closed by done. cbn [fmap list_fmap].
  assert (Z.of_nat (length (h_versions H)) < MAX_TX_ID) as Hmax by (unfold MAX_TX_ID, u64_max in *; lia).
  split.
  - apply (layer_commit _ (nodes (db_nodes (s_db S))) _ _ _ _ _ _ k _ (mk_node (tx_id t))); try done.
    + apply Hs.
    + by apply (open_bufs_Some at_nodes).
    + by rewrite fmap_last, Hl.
    + by rewrite length_fmap.
    + rewrite length_fmap, <-Hturn, (ts_ticket _ _ Ht). apply mk_node_makes.
    + intros id. rewrite commit_node by apply Ht. unfold committed_record.
      rewrite length_fmap, <-Hturn, <-(ts_node_puts _ _ Ht), (ts_ticket _ _ Ht).
      cbn zeta. rewrite (decide_ext _ _ _ _ (ts_node_dels _ _ Ht id)). simpl.
      by destruct (inserted t id) as [[labels row]|].
  - apply (layer_commit _ (edges (db_edges (s_db S))) _ _ _ _ _ _ k _ (mk_edge (tx_id t))); try done.
    + apply Hs.
    + by apply (open_bufs_Some at_edges).
    + by rewrite fmap_last, Hl.
    + by rewrite length_fmap.
    + rewrite length_fmap, <-Hturn, (ts_ticket _ _ Ht). apply mk_edge_makes.
    + intros id. rewrite commit_edge. unfold committed_record.
      rewrite length_fmap, <-Hturn, <-(ts_edge_puts _ _ Ht), (ts_ticket _ _ Ht).
      cbn zeta. by rewrite (decide_ext _ _ _ _ (ts_edge_dels _ _ Ht id)).
Qed.

Lemma sim_same b S H Dn De k t :
  sim b S H Dn De -> s_txs S !! k = Some t ->
  sim (b + 1) (mkSessions (s_db S) (<[k := t]> (s_txs S))) H Dn De.
Proof.
  intros Hs Hk. rewrite insert_id by done.
  assert (mkSessions (s_db S) (s_txs S) = S) as -> by by destruct S.
  eapply sim_weaken; [done|lia|done|done].
Qed.

Lemma sim_commit b S H Dn De k t :
  sim b S H Dn De -> b < u64_max - 1 -> s_txs S !! k = Some t ->
  sim (b + 1) (mkSessions (commit (s_db S) t).1.2 (<[k := (commit (s_db S) t).2]> (s_txs S)))
    (spec_exec H (CCommit k) 0) Dn De.
Proof.
  intros Hs Hb Hk. destruct (sim_lookup _ _ _ _ _ _ _ Hs Hk) as (a & Ha & Ht).
  unfold commit. cbn [spec_exec]. rewrite Ha, (ts_write _ _ Ht), (ts_open _ _ Ht).
  destruct (at_write a) eqn:Hw; [|by apply sim_same]. destruct (at_open a) eqn:Ho; [|by apply sim_same].
  pose proof (sim_turn b S H Dn De k a Hs Hb Ha Hw) as Hwt. rewrite <-(ts_ticket _ _ Ht) in Hwt.
  cbn [negb andb]. rewrite wait_turn_alone. unfold TxManager.latest_committed in Hwt |- *. rewrite <-Hwt.
  destruct (is_turn H a) eqn:Hturn; cbn [fst snd].
  - destruct (layers_commit b S H Dn De k t a
      (TxManager.store_committed (tx_id t) (tx_manager (s_db S))) Hs Hb Ha Ht Ho Hturn) as [Hn He].
    apply (sim_finish b S H Dn De k t a); try done.
    + rewrite <-(ts_ticket _ _ Ht). cbn [flush_all tx_manager]. apply apply_writes_manager.
    + set (d := set_manager _ _). destruct (flush_frames (apply_writes (tx_id t) d (tx_writes t)))
        as (_ & _ & Hp1 & Hp2 & Hp3 & Hp4).
      destruct (apply_writes_pools (tx_id t) d (tx_writes t)) as (Hq1 & Hq2 & Hq3 & Hq4).
      unfold same_pools. by rewrite Hp1, Hp2, Hp3, Hp4, Hq1, Hq2, Hq3, Hq4.
  - assert (set_manager (tx_manager (s_db S)) (s_db S) = s_db S) as -> by by destruct (s_db S).
    by apply sim_same.
Qed.

Lemma sim_rollback b S H Dn De k t db' t' :
  sim b S H Dn De -> b < u64_max - 1 -> s_txs S !! k = Some t ->
  rollback (s_db S) t = Some (db', t') ->
  sim (b + 1) (mkSessions db' (<[k := t']> (s_txs S))) (spec_exec H (CRollback k) 0) Dn De.
Proof.
  intros Hs Hb Hk. destruct (sim_lookup _ _ _ _ _ _ _ Hs Hk) as (a & Ha & Ht).
  unfold rollback. cbn [spec_exec]. rewrite Ha, (ts_write _ _ Ht).
  destruct (at_write a) eqn:Hw; [|intros [= <- <-]; by apply sim_same].
  destruct (wait_rollback (tx_id t) (tx_manager (s_db S))) as [m|] eqn:Hm; [|done]. intros [= <- <-].
  destruct (sim_give_up b S H Dn De k t a m Hs Hb Ha Ht Hw Hm) as [-> Hs']. done.
Qed.

Lemma sim_drop b S H Dn De k t db' :
  sim b S H Dn De -> b < u64_max - 1 -> s_txs S !! k = Some t -> drop (s_db S) t = Some db' ->
  sim (b + 1) (mkSessions db' (delete k (s_txs S))) (spec_exec H (CDrop k) 0) Dn De.
Proof.
  intros Hs Hb Hk. destruct (sim_lookup _ _ _ _ _ _ _ Hs Hk) as (a & Ha & Ht).
  unfold drop. cbn [spec_exec]. rewrite Ha, (ts_write _ _ Ht), (ts_open _ _ Ht), negb_involutive.
  destruct (at_write a) eqn:Hw; [destruct (at_open a) eqn:Ho|]; cbn [andb].
  - destruct (wait_rollback (tx_id t) (tx_manager (s_db S))) as [m|] eqn:Hm; [|done]. intros [= <-].
    destruct (sim_give_up b S H Dn De k t a m Hs Hb Ha Ht Hw Hm) as [-> Hs'].
    apply (sim_delete _ _ _ _ _ k) in Hs'. cbn [s_db s_txs] in Hs'. by rewrite delete_insert_eq in Hs'.
  - intros [= <-]. apply (sim_delete _ _ _ _ _ k). eapply sim_weaken; [done|lia|done|done].
  - intros [= <-]. apply (sim_delete _ _ _ _ _ k). eapply sim_weaken; [done|lia|done|done].
Qed.

(** The name a call is about, when it does not begin a transaction. *)
Definition named c : option nat :=
  match c with
  | CBeginRead _ | CBeginWrite _ => None
  | CCreateNode k _ _ | CUpdateLabels k _ _ | CDeleteNode k _ | CCreateEdge k _ _ _ _ | CDeleteEdge k _
  | CSetProp k _ _ _ _ | CCommit k | CRollback k | CDrop k => Some k
  end.

Lemma exec_unnamed S c k : named c = Some k -> s_txs S !! k = None -> sess_exec S c = Some S.
Proof. intros Hc Hk. destruct c; simplify_eq/=; unfold on_tx; by rewrite Hk. Qed.

Lemma spec_exec_unnamed H c new k : named c = Some k -> h_txs H !! k = None -> spec_exec H c new = H.
Proof.
  intros Hc Hk. assert (forall f, set_txs (alter f k) H = H) as Halt.
  { intros f. unfold set_txs. destruct H as [n vs txs]. simpl in *. f_equal. apply map_eq. intros j.
    destruct (decide (k = j)) as [<-|]; [by rewrite lookup_alter_eq, Hk|by rewrite lookup_alter_ne]. }
  destruct c; simplify_eq/=; rewrite ?Hk; auto.
Qed.

Lemma on_tx_Some k S f t : s_txs S !! k = Some t ->
  on_tx k S f = r ← f t; Some (mkSessions r.1 (<[k := r.2]> (s_txs S))).
Proof. intros Hk. unfold on_tx. rewrite Hk. by destruct (f t) as [[? ?]|]. Qed.

Lemma fresh_node b S H Dn De k labels row :
  sim b S H Dn De -> spec_fresh H (CCreateNode k labels row) (next_id (db_nodes (s_db S))).
Proof.
  intros Hs. split.
  - intros v Hv. apply (layer_version_fresh node_shown _ _ _ _ _ _ (si_nodes _ _ _ _ _ Hs)).
    by apply list_elem_of_fmap_2.
  - intros j a Ha Ho. apply (layer_buf_fresh node_shown _ _ _ _ _ j _ (si_nodes _ _ _ _ _ Hs)).
    by apply (open_bufs_Some at_nodes _ j).
Qed.

Lemma fresh_edge b S H Dn De k src dst etype row :
  sim b S H Dn De -> spec_fresh H (CCreateEdge k src dst etype row) (edge_next_id (db_edges (s_db S))).
Proof.
  intros Hs. split.
  - intros v Hv. apply (layer_version_fresh edge_shown _ _ _ _ _ _ (si_edges _ _ _ _ _ Hs)).
    by apply list_elem_of_fmap_2.
  - intros j a Ha Ho. apply (layer_buf_fresh edge_shown _ _ _ _ _ j _ (si_edges _ _ _ _ _ Hs)).
    by apply (open_bufs_Some at_edges _ j).
Qed.

Definition ids_of (o : option Z) : gset Z := match o with Some id => {[id]} | None => ∅ end.

(** One call that returns has a step of the specification. *)
Lemma sim_exec b S H Dn De c S' :
  sim b S H Dn De -> b < u64_max - 1 -> relabels c = false -> sess_exec S c = Some S' ->
  ids_of (deleted_node c) ## Dn -> ids_of (deleted_edge c) ## De ->
  exists new, spec_fresh H c new /\
    sim (b + 1) S' (spec_exec H c new) (ids_of (deleted_node c) ∪ Dn) (ids_of (deleted_edge c) ∪ De).
Proof.
  intros Hs Hb Hre Hrun Hdn Hde.
  assert (forall k, named c = Some k -> s_txs S !! k = None -> exists new, spec_fresh H c new /\
    sim (b + 1) S' (spec_exec H c new) (ids_of (deleted_node c) ∪ Dn) (ids_of (deleted_edge c) ∪ De))
    as Hnone.
  { intros k Hc Hk. rewrite (exec_unnamed S c k Hc Hk) in Hrun. injection Hrun as <-.
    assert (exists new, spec_fresh H c new) as [new Hnew]
      by (destruct c; try (by exists 0); eexists; [by eapply fresh_node|by eapply fresh_edge]).
    exists new. split; [done|]. rewrite (spec_exec_unnamed H c new k Hc) by by eapply sim_lookup_None.
    eapply sim_weaken; [done|lia|set_solver|set_solver]. }
  destruct c as [k|k|k labels row|k id labels|k id|k src dst etype row|k id|k label prop row value|k|k|k];
    cbn [sess_exec deleted_node deleted_edge ids_of] in *; rewrite ?(left_id_L ∅ (∪)) in *;
    try (destruct (s_txs S !! k) as [t|] eqn:Hk; [|by apply (Hnone k)]; clear Hnone;
         try rewrite (on_tx_Some k S _ t Hk) in Hrun; cbn [mbind option_bind fst snd] in Hrun).
  - injection Hrun as <-. exists 0. split; [done|]. by apply (sim_begin b S H Dn De k false).
  - injection Hrun as <-. exists 0. split; [done|]. by apply (sim_begin b S H Dn De k true).
  - injection Hrun as <-. eexists. split; [by eapply fresh_node|]. by apply sim_create_node.
  - done.
  - injection Hrun as <-. exists 0. split; [done|]. apply sim_delete_node; [done|set_solver|done].
  - injection Hrun as <-. eexists. split; [by eapply fresh_edge|]. by apply sim_create_edge.
  - injection Hrun as <-. exists 0. split; [done|]. apply sim_delete_edge; [done|set_solver|done].
  - injection Hrun as <-. exists 0. split; [done|]. by apply sim_set_prop.
  - rewrite commit_call_returns in Hrun. injection Hrun as <-. exists 0. split; [done|]. by apply sim_commit.
  - destruct (rollback (s_db S) t) as [[db' t']|] eqn:Hr; [|done]. injection Hrun as <-.
    exists 0. split; [done|]. by eapply sim_rollback.
  - destruct (drop (s_db S) t) as [db'|] eqn:Hr; [|done]. injection Hrun as <-.
    exists 0. split; [done|]. by eapply sim_drop.
Qed.

(** ** The theorem *)

(** A database no one has written to. *)
Definition db_empty db : Prop :=
  tx_manager db = TxManager.new /\ nodes (db_nodes db) = ∅ /\ edges (db_edges db) = ∅ /\
  next_id (db_nodes db) = 0 /\ edge_next_id (db_edges db) = 0 /\
  free_list (db_nodes db) = [] /\ edge_free_list (db_edges db) = [].

Lemma sim_start db : db_empty db -> sim 1 (sess_start db) history_start ∅ ∅.
Proof.
  intros (Hm & Hn & He & Hni & Hei & Hnf & Hef). split; cbn; rewrite ?Hm; try done.
  - unfold pools_fresh. rewrite Hni, Hei. split_done.
  - unfold nodes_layer. rewrite Hn, Hni. unfold open_bufs. simpl. rewrite omap_empty.
    by apply layer_init.
  - unfold edges_layer. rewrite He, Hei. unfold open_bufs. simpl. rewrite omap_empty.
    by apply layer_init.
  - intros k. rewrite !lookup_empty. constructor.
Qed.

Lemma sim_run b S H Dn De cs S' :
  sim b S H Dn De -> b + Z.of_nat (length cs) < u64_max ->
  Forall (fun c => relabels c = false) cs -> sess_run S cs = Some S' ->
  NoDup (omap deleted_node cs) -> NoDup (omap deleted_edge cs) ->
  (forall id, id ∈ omap deleted_node cs -> id ∉ Dn) ->
  (forall id, id ∈ omap deleted_edge cs -> id ∉ De) ->
  exists H' b' Dn' De', spec_run H cs H' /\ sim b' S' H' Dn' De' /\ b' < u64_max.
Proof.
  revert b S H Dn De. induction cs as [|c cs IH]; intros b S H Dn De Hs Hb Hre Hrun Hnn Hne Hdn Hde.
  { simpl in Hrun, Hb. simplify_eq. exists H, b, Dn, De. split; [constructor|]. split; [done|lia]. }
  apply Forall_cons in Hre as [Hre Hres]. cbn [sess_run length] in Hrun, Hb. destruct (sess_exec S c) as [S1|] eqn:Hc; [|done].
  cbn [mbind option_bind] in Hrun.
  assert (forall (f : Call -> option Z), NoDup (omap f (c :: cs)) ->
    NoDup (omap f cs) /\ (forall id, id ∈ ids_of (f c) -> id ∉ omap f cs)) as Hnd.
  { intros f. simpl. destruct (f c) as [i|]; simpl; [|set_solver].
    intros [Hni ?]%NoDup_cons. split; [done|]. by intros id ->%elem_of_singleton. }
  assert (forall (f : Call -> option Z) D, (forall id, id ∈ omap f (c :: cs) -> id ∉ D) ->
    ids_of (f c) ## D /\ (forall id, id ∈ omap f cs -> id ∉ D)) as Hdj.
  { intros f D. simpl. destruct (f c) as [i|]; simpl; set_solver. }
  destruct (Hnd _ Hnn) as [Hnn' Hn1]. destruct (Hnd _ Hne) as [Hne' He1].
  destruct (Hdj _ _ Hdn) as [Hn2 Hn3]. destruct (Hdj _ _ Hde) as [He2 He3].
  destruct (sim_exec b S H Dn De c S1 Hs ltac:(lia) Hre Hc Hn2 He2) as (new & Hfresh & Hs1).
  destruct (IH (b + 1) S1 _ _ _ Hs1 ltac:(lia) Hres Hrun Hnn' Hne') as (H' & b' & Dn' & De' & Hspec & Hs' & Hb').
  - intros id Hid [Hx|Hx]%elem_of_union; [by eapply Hn1|by eapply Hn3].
  - intros id Hid [Hx|Hx]%elem_of_union; [by eapply He1|by eapply He3].
  - exists H', b', Dn', De'. split; [by econstructor|done].
Qed.

Lemma sim_reads b S H Dn De t s v :
  sim b S H Dn De -> h_versions H !! s = Some v -> snapshot t = Z.of_nat s ->
  forall id, node_shown <$> get_node id (s_db S) t = v_nodes v !! id /\
    edge_shown <$> get_edge id (s_db S) t = v_edges v !! id.
Proof.
  intros Hs Hv Hsn id.
  pose proof (vo_read _ _ _ (lo_versions _ _ _ _ _ _ (si_nodes _ _ _ _ _ Hs)) s (v_nodes v) id) as Hn.
  pose proof (vo_read _ _ _ (lo_versions _ _ _ _ _ _ (si_edges _ _ _ _ _ Hs)) s (v_edges v) id) as He.
  rewrite list_lookup_fmap, Hv in Hn. rewrite list_lookup_fmap, Hv in He.
  rewrite <-Hn, <-He by done.
  unfold get_node, get_edge, get, EdgeStore.get. rewrite Hsn. split.
  - destruct (nodes (db_nodes (s_db S)) !! id) as [n|]; [|done]. simpl. by destruct (Node.is_alive _ _).
  - destruct (edges (db_edges (s_db S)) !! id) as [e|]; [|done]. simpl. by destruct (Edge.is_alive _ _).
Qed.

(** C1: snapshot isolation. A client holds any number of transactions of a new
    database open and calls their methods in any order, relabels no node and asks
    for no node or edge to be deleted twice. Then the database is a history of versions, one
    more for each ticket that finishes, in ticket order: a commit adds the
    current version with its creations and deletions applied, a rollback adds it
    unchanged. Every open transaction reads, in every node and edge, exactly
    the version that was current when it began, whatever was committed since,
    and a transaction that begins now reads the newest one. *)
Theorem snapshot_isolation db cs S :
  db_empty db -> Z.of_nat (length cs) < u64_max - 1 ->
  Forall (fun c => relabels c = false) cs ->
  NoDup (omap deleted_node cs) -> NoDup (omap deleted_edge cs) ->
  sess_run (sess_start db) cs = Some S ->
  exists H, spec_run history_start cs H /\
    (forall id, let r := Database.begin_read (s_db S) in
      node_shown <$> get_node id (s_db S) r = v_nodes (current H) !! id /\
      edge_shown <$> get_edge id (s_db S) r = v_edges (current H) !! id) /\
    forall k t, s_txs S !! k = Some t ->
      exists a v, h_txs H !! k = Some a /\ h_versions H !! at_snap a = Some v /\
        forall id, node_shown <$> get_node id (s_db S) t = v_nodes v !! id /\
          edge_shown <$> get_edge id (s_db S) t = v_edges v !! id.
Proof.
  intros Hdb Hlen Hre Hnn Hne Hrun.
  destruct (sim_run 1 (sess_start db) history_start ∅ ∅ cs S) as (H & b & Dn & De & Hspec & Hs & Hb);
    [by apply sim_start|lia|done|done|done|done|set_solver|set_solver|].
  exists H. split; [done|]. pose proof (sim_current _ _ _ _ _ Hs) as Hcur.
  rewrite last_lookup in Hcur. split.
  - intros id r. apply (sim_reads b S H Dn De r (pred (length (h_versions H)))); [done|done|].
    pose proof (si_committed _ _ _ _ _ Hs). pose proof (si_tickets _ _ _ _ _ Hs).
    subst r. simpl. unfold TxManager.begin_read. lia.
  - intros k t Hk. destruct (sim_lookup _ _ _ _ _ _ _ Hs Hk) as (a & Ha & Ht).
    destruct (si_ticket _ _ _ _ _ Hs k a Ha) as (_ & _ & Hsn).
    destruct (lookup_lt_is_Some_2 _ _ Hsn) as [v Hv]. exists a, v. split; [done|]. split; [done|].
    apply (sim_reads b S H Dn De t (at_snap a) v Hs Hv). apply Ht.
Qed.

(** What can hang. Every call returns but one kind: giving up a write
    ticket, by [rollback] or by dropping an unfinished transaction, while an
    earlier ticket is not finished or when this one already is. *)
Theorem session_hangs S c :
  sess_exec S c = None <->
  exists k t, s_txs S !! k = Some t /\ is_write t = true /\
    TxManager.latest_committed (tx_manager (s_db S)) ≠ wrap64 (tx_id t - 1) /\
    (c = CRollback k \/ c = CDrop k /\ committed t = false).
Proof.
  assert (forall k f, on_tx k S f = None <-> exists t, s_txs S !! k = Some t /\ f t = None) as Hon.
  { intros k f. unfold on_tx. destruct (s_txs S !! k) as [t|]; [|naive_solver].
    destruct (f t) as [[? ?]|] eqn:Hf; simpl; naive_solver. }
  assert (forall tx, wait_rollback tx (tx_manager (s_db S)) = None <->
    TxManager.latest_committed (tx_manager (s_db S)) ≠ wrap64 (tx - 1)) as Hwait.
  { intros tx. rewrite wait_rollback_alone. unfold rollback_iter. destruct (_ =? _) eqn:Heq;
      [apply Z.eqb_eq in Heq|apply Z.eqb_neq in Heq]; naive_solver. }
  destruct c as [k|k|k labels row|k id labels|k id|k src dst etype row|k id|k label prop row value|k|k|k];
    rewrite ?sess_exec_commit; cbn [sess_exec]; rewrite ?Hon;
    try (split; [by first [intros (? & _ & ?)|done]|by intros (? & ? & _ & _ & _ & [?|[? _]])]).
  - split.
    + intros (t & Hk & Hr). exists k, t. unfold rollback in Hr. destruct (is_write t); [|done].
      destruct (wait_rollback _ _) eqn:Hw; [done|]. apply Hwait in Hw. auto.
    + intros (k' & t & Hk & Hw & Hne%Hwait & [[= ->]|[? _]]); [|done]. exists t. split; [done|].
      unfold rollback. by rewrite Hw, Hne.
  - destruct (s_txs S !! k) as [t|] eqn:Hk; unfold drop.
    2: { split; [done|]. by intros (k' & t' & Hk' & _ & _ & [?|[[= <-] _]]); simplify_eq. }
    split.
    + intros Hr. exists k, t. destruct (is_write t); [|done]. destruct (committed t); [done|].
      simpl in Hr. destruct (wait_rollback _ _) eqn:Hw; [done|]. apply Hwait in Hw.
      do 3 (split; [done|]). by right.
    + intros (k' & t' & Hk' & Hw & Hne%Hwait & [?|[[= <-] Hc]]); [done|]. simplify_eq.
      by rewrite Hw, Hc, Hne.
Qed.
End simulation.

Section witnesses.
#[local] Existing Instances LogSink.sink LogSink.laws.
#[local] Instance iso_node_codec : Codec Node := countable_codec.
#[local] Instance iso_edge_codec : Codec Edge := countable_codec.
#[local] Instance iso_value_codec : Codec (option Value) := countable_codec.

(** A reader between two writers: the first creates a node, the second deletes
    it and creates an edge. *)
Definition iso_calls : list Call :=
  [CBeginWrite 0; CCreateNode 0 [7] 1; CBeginRead 1; CCommit 0; CBeginRead 2; CBeginWrite 3;
   CDeleteNode 3 0; CCreateEdge 3 0 0 9 2; CBeginWrite 4; CCommit 4; CCommit 3; CDrop 4].

Lemma snapshot_isolation_witness :
  exists S H t a v, sess_run (sess_start (Database.memory (W := LogSink.t))) iso_calls = Some S /\
    spec_run history_start iso_calls H /\ s_txs S !! 2%nat = Some t /\ h_txs H !! 2%nat = Some a /\
    h_versions H !! at_snap a = Some v /\ v_nodes v !! 0 = Some ([7], 1) /\
    v_nodes (current H) !! 0 = None.
Proof.
  assert (exists S t, sess_run (sess_start (Database.memory (W := LogSink.t))) iso_calls = Some S /\
    s_txs S !! 2%nat = Some t /\
    node_shown <$> Transaction.get_node 0 (s_db S) t = Some ([7], 1) /\
    node_shown <$> Transaction.get_node 0 (s_db S) (Database.begin_read (s_db S)) = None)
    as (S & t & Hrun & Ht & Hold & Hnew).
  { eexists _, _. split; [vm_compute; reflexivity|]. split; [vm_compute; reflexivity|]. split; by vm_compute. }
  destruct (snapshot_isolation Database.memory iso_calls S) as (H & Hspec & Hcur & Hreads);
    [by repeat split|done|by repeat constructor|by_decide|by_decide|exact Hrun|].
  destruct (Hreads 2%nat t Ht) as (a & v & Ha & Hv & Hread).
  exists S, H, t, a, v. split; [exact Hrun|]. split; [exact Hspec|]. split; [exact Ht|].
  split; [exact Ha|]. split; [exact Hv|]. rewrite <-(proj1 (Hread 0)), <-(proj1 (Hcur 0)).
  split; [exact Hold|exact Hnew].
Defined.
End witnesses.
