(* ===== verification/Durable.v ===== *)
(** * Commits are durable

    The three stores of a database crash together, each with a log of its own.
    This file runs the sessions of [Isolation.v] on a database that was opened
    from files, lets a crash cut all three logs, and says what [Database::open]
    makes of them: what [commit] flushed is never lost. *)

From S2P Require Export Isolation Crash.

Open Scope Z_scope.

(** ** Reopening cut logs *)

Section reopen.
Context {W : Type} `{WalSinkLaws W}.
Implicit Types (rs : list WalRec) (c : Consistency).

Lemma edge_reopen `{CodecLaws Edge} c rs n :
  contract_ok (durability c) (wal_channel_capacity c) -> Forall rec_ok rs ->
  match (cut_recs rs n).2 with
  | Ok _ => exists s, EdgeStore.open (W := W) c (Some (MAGIC ++ take n (encode_recs rs))) = Ok s /\
      edges s = foldl apply_val ∅ (cut_recs rs n).1
  | _ => EdgeStore.open (W := W) c (Some (MAGIC ++ take n (encode_recs rs))) = Err UnexpectedEof
  end.
Proof.
  intros Hc Hrs. unfold EdgeStore.open. rewrite replay_file_cut by done.
  destruct (sink_spawn_total (W := W) (durability c) (wal_channel_capacity c)
    (Some (MAGIC ++ take n (encode_recs rs))) Hc) as [w Hw]. rewrite Hw. clear Hw.
  case_bool_decide as Hnil.
  - rewrite (cut_recs_nil rs n Hnil). simpl. eauto.
  - pose proof (apply_recs_vals _ _ edge_replay_record_edges (cut_recs rs n).1 (EdgeStore.new (W := W), 0)) as Hn.
    destruct (apply_recs EdgeStore.replay_record (cut_recs rs n).1 (EdgeStore.new, 0)) as [s mx].
    destruct (cut_recs_error rs n) as [He|He]; rewrite He; simpl; eauto.
Qed.

Lemma prop_reopen `{CodecLaws (option Value)} c rs n :
  contract_ok (durability c) (wal_channel_capacity c) -> Forall rec_ok rs ->
  match (cut_recs rs n).2 with
  | Ok _ => exists s, PropStore.open (W := W) c (Some (MAGIC ++ take n (encode_recs rs))) = Ok s /\
      columns s = foldl apply_cell ∅ (cut_recs rs n).1
  | _ => PropStore.open (W := W) c (Some (MAGIC ++ take n (encode_recs rs))) = Err UnexpectedEof
  end.
Proof.
  intros Hc Hrs. unfold PropStore.open.
  destruct (sink_spawn_total (W := W) (durability c) (wal_channel_capacity c)
    (Some (MAGIC ++ take n (encode_recs rs))) Hc) as [w Hw]. rewrite Hw. clear Hw.
  unfold has_records. rewrite length_app. change (length MAGIC) with 4%nat.
  destruct (decide (take n (encode_recs rs) = [])) as [Hnil|Hnil].
  - rewrite (cut_recs_nil rs n Hnil), Hnil. simpl. eauto.
  - destruct (_ <? _) eqn:Hlen; [|destruct Hnil; apply length_zero_iff_nil; blia].
    cbn [default from_option id]. rewrite replay_wal_magic, replay_loop_cut by (done || lia).
    destruct (cut_recs_error rs n) as [He|He]; rewrite He; simpl; [|done].
    eexists. split; [done|]. simpl. by rewrite replay_record_columns.
Qed.
End reopen.

(** ** What a session does to the database, step by step *)

(** A change of the database between two calls of a store. *)
Inductive DbStep : Type :=
| SManager (m : TxManager)
| SAllocNode
| SAllocEdge
| SWrite (tx : Z) (w : TxWrite)
| SFlush.

Section steps.
Context {W : Type} `{WalSink W} `{Codec Node} `{Codec Edge} `{Codec (option Value)}.
Import Transaction.
Implicit Types (db : Database W) (S : Sessions W) (t : Transaction) (c : Call) (st : DbStep).

Definition db_step db st : Database W :=
  match st with
  | SManager m => set_manager m db
  | SAllocNode => set_nodes (alloc_id_direct (db_nodes db)).2 db
  | SAllocEdge => set_edges (EdgeStore.alloc_id_direct (db_edges db)).2 db
  | SWrite tx w => apply_write tx db w
  | SFlush => flush_all db
  end.

Definition db_steps db (sts : list DbStep) : Database W := foldl db_step db sts.

(** The phases of [commit]. *)
Definition commit_steps db t : list DbStep :=
  if negb (is_write t) || committed t then []
  else
    match wait_turn (tx_id t) (tx_manager db) with
    | (Ok _, m) => SManager m :: map (SWrite (tx_id t)) (tx_writes t) ++ [SFlush]
    | (_, m) => [SManager m]
    end.

Definition call_steps S c : list DbStep :=
  match c with
  | CCreateNode k _ _ => if decide (is_Some (s_txs S !! k)) then [SAllocNode] else []
  | CCreateEdge k _ _ _ _ => if decide (is_Some (s_txs S !! k)) then [SAllocEdge] else []
  | CCommit k => match s_txs S !! k with Some t => commit_steps (s_db S) t | None => [] end
  | _ => match sess_exec S c with Some S' => [SManager (tx_manager (s_db S'))] | None => [] end
  end.

Fixpoint run_steps S (cs : list Call) : list DbStep :=
  match cs with
  | [] => []
  | c :: cs' =>
      match sess_exec S c with Some S' => call_steps S c ++ run_steps S' cs' | None => [] end
  end.

Lemma db_steps_app db sts1 sts2 : db_steps db (sts1 ++ sts2) = db_steps (db_steps db sts1) sts2.
Proof. apply foldl_app. Qed.

Lemma set_manager_id db : set_manager (tx_manager db) db = db.
Proof. by destruct db. Qed.

Lemma writes_steps tx db ws : db_steps db (map (SWrite tx) ws) = apply_writes tx db ws.
Proof. revert db. induction ws as [|w ws IH]; intros db; [done|]. apply IH. Qed.

Lemma commit_steps_db db t : db_steps db (commit_steps db t) = (commit db t).1.2.
Proof.
  unfold commit_steps, commit. destruct (is_write t); [|done]. destruct (committed t); [done|].
  cbn [negb orb]. destruct (wait_turn (tx_id t) (tx_manager db)) as [[[]| |] m]; try done.
  change (SManager m :: map (SWrite (tx_id t)) (tx_writes t) ++ [SFlush])
    with ([SManager m] ++ map (SWrite (tx_id t)) (tx_writes t) ++ [SFlush]).
  by rewrite !db_steps_app, writes_steps.
Qed.

Lemma rollback_manager db t db' t' :
  rollback db t = Some (db', t') -> db' = set_manager (tx_manager db') db.
Proof.
  unfold rollback. destruct (is_write t); [|intros [= <- <-]; by rewrite set_manager_id].
  by destruct (wait_rollback _ _); intros [= <- <-].
Qed.

Lemma drop_manager db t db' : drop db t = Some db' -> db' = set_manager (tx_manager db') db.
Proof.
  unfold drop. destruct (_ && _); [|intros [= <-]; by rewrite set_manager_id].
  by destruct (wait_rollback _ _); intros [= <-].
Qed.

Lemma call_steps_db S c S' : sess_exec S c = Some S' -> db_steps (s_db S) (call_steps S c) = s_db S'.
Proof.
  intros Hrun. pose proof (set_manager_id (s_db S)) as Hid.
  assert (forall k f, on_tx k S f = Some S' ->
    (forall t db' t', s_txs S !! k = Some t -> f t = Some (db', t') -> db' = set_manager (tx_manager db') (s_db S)) ->
    s_db S' = set_manager (tx_manager (s_db S')) (s_db S)) as Hon.
  { intros k f. unfold on_tx. destruct (s_txs S !! k) as [t|]; [|by intros [= <-]].
    destruct (f t) as [[db' t']|] eqn:Hf; [|done]. intros [= <-] Hm. by apply (Hm t db' t'). }
  destruct c; cbn [call_steps]; try (rewrite Hrun; cbn [db_steps foldl db_step]; symmetry);
    cbn [sess_exec] in Hrun.
  - injection Hrun as <-. unfold begin_as. by destruct (s_txs S !! k).
  - injection Hrun as <-. unfold begin_as. by destruct (s_txs S !! k).
  - unfold on_tx in Hrun. case_decide as Hk.
    + destruct Hk as [t Hk]. rewrite Hk in Hrun. injection Hrun as <-. cbn [s_db db_steps foldl db_step].
      unfold create_node. by destruct (alloc_id_direct _).
    + destruct (s_txs S !! k); [by destruct Hk|]. by injection Hrun as <-.
  - apply (Hon _ _ Hrun). by intros t db' t' _ [= <- <-].
  - apply (Hon _ _ Hrun). by intros t db' t' _ [= <- <-].
  - unfold on_tx in Hrun. case_decide as Hk.
    + destruct Hk as [t Hk]. rewrite Hk in Hrun. injection Hrun as <-. cbn [s_db db_steps foldl db_step].
      unfold create_edge. by destruct (EdgeStore.alloc_id_direct _).
    + destruct (s_txs S !! k); [by destruct Hk|]. by injection Hrun as <-.
  - apply (Hon _ _ Hrun). by intros t db' t' _ [= <- <-].
  - apply (Hon _ _ Hrun). by intros t db' t' _ [= <- <-].
  - unfold on_tx in Hrun. destruct (s_txs S !! k) as [t|]; [|by injection Hrun as <-].
    rewrite commit_call_returns in Hrun. injection Hrun as <-. apply commit_steps_db.
  - apply (Hon _ _ Hrun). intros t db' t' _. apply rollback_manager.
  - destruct (s_txs S !! k) as [t|]; [|injection Hrun as <-; done].
    destruct (drop (s_db S) t) as [db'|] eqn:Hd; [|done]. injection Hrun as <-. by apply drop_manager in Hd.
Qed.

Lemma run_steps_db S cs S' : sess_run S cs = Some S' -> db_steps (s_db S) (run_steps S cs) = s_db S'.
Proof.
  revert S. induction cs as [|c cs IH]; intros S Hrun; cbn [sess_run run_steps] in *; [by injection Hrun as <-|].
  destruct (sess_exec S c) as [S1|] eqn:Hc; [|done]. cbn [mbind option_bind] in Hrun.
  rewrite db_steps_app, (call_steps_db S c S1 Hc). by apply IH.
Qed.
End steps.

(** ** Cells a log can hold *)

Definition step_ok (st : DbStep) : Prop :=
  match st with SWrite _ (WSetProp label prop row _) => cell_ok label prop row | _ => True end.

Definition call_ok (c : Call) : Prop :=
  match c with CSetProp _ label prop row _ => cell_ok label prop row | _ => True end.

#[export] Instance call_ok_dec c : Decision (call_ok c).
Proof. destruct c; apply _. Defined.

Definition tx_ok (t : Transaction) : Prop :=
  Forall (fun '(label, prop, row, _) => cell_ok label prop row) (prop_writes t).

Section cells.
Context {W : Type} `{WalSink W} `{Codec Node} `{Codec Edge} `{Codec (option Value)}.
Import Transaction.
Implicit Types (db : Database W) (S : Sessions W) (t : Transaction) (c : Call).

Definition sess_ok S : Prop := forall k t, s_txs S !! k = Some t -> tx_ok t.

Lemma tx_ok_same t t' : tx_ok t -> prop_writes t' = prop_writes t -> tx_ok t'.
Proof. unfold tx_ok. by intros ? ->. Qed.

Lemma commit_keeps db t : prop_writes (commit db t).2 = prop_writes t.
Proof.
  unfold commit. destruct (negb _); [done|]. destruct (committed t); [done|].
  by destruct (wait_turn _ _) as [[] ?].
Qed.

Lemma rollback_keeps db t db' t' : rollback db t = Some (db', t') -> prop_writes t' = prop_writes t.
Proof.
  unfold rollback. destruct (is_write t); [|by intros [= <- <-]].
  by destruct (wait_rollback _ _); intros [= <- <-].
Qed.

Lemma on_tx_ok k S f S' :
  sess_ok S -> on_tx k S f = Some S' ->
  (forall t db' t', tx_ok t -> f t = Some (db', t') -> tx_ok t') -> sess_ok S'.
Proof.
  intros Hok. unfold on_tx. destruct (s_txs S !! k) as [t|] eqn:Hk; [|by intros [= <-]].
  destruct (f t) as [[db' t']|] eqn:Hf; [|done]. intros [= <-] Ht j x. simpl.
  intros [[_ <-]|[_ Hx]]%lookup_insert_Some; [|by apply (Hok j)].
  apply (Ht t db' t'); [by apply (Hok k)|done].
Qed.

Lemma begin_as_ok k S t db : sess_ok S -> prop_writes t = [] -> sess_ok (begin_as k S t db).
Proof.
  intros Hok Ht. unfold begin_as. destruct (s_txs S !! k); [done|]. intros j x. simpl.
  intros [[_ <-]|[_ Hx]]%lookup_insert_Some; [|by apply (Hok j)]. unfold tx_ok. by rewrite Ht.
Qed.

Lemma sess_exec_ok S c S' : sess_ok S -> call_ok c -> sess_exec S c = Some S' -> sess_ok S'.
Proof.
  intros Hok Hc Hrun.
  assert (forall k f, on_tx k S f = Some S' ->
    (forall t db' t', f t = Some (db', t') -> prop_writes t' = prop_writes t) -> sess_ok S') as Hon.
  { intros k f Hf Hsame. apply (on_tx_ok k S f S' Hok Hf). intros t db' t' Ht Heq.
    by apply (tx_ok_same t), (Hsame t db'). }
  destruct c; cbn [sess_exec] in Hrun;
    try (apply (Hon _ _ Hrun); by intros t db' t' [= <- <-]).
  - injection Hrun as <-. by apply begin_as_ok.
  - injection Hrun as <-. by apply begin_as_ok.
  - apply (Hon _ _ Hrun). intros t db' t' [= <- <-]. unfold create_node. by destruct (alloc_id_direct _).
  - apply (Hon _ _ Hrun). intros t db' t' [= <- <-]. unfold create_edge.
    by destruct (EdgeStore.alloc_id_direct _).
  - apply (on_tx_ok _ _ _ _ Hok Hrun). intros t db' t' Ht [= <- <-]. unfold tx_ok. simpl.
    apply Forall_app. split; [exact Ht|]. by apply Forall_singleton.
  - apply (Hon _ _ Hrun). intros t db' t'. rewrite commit_call_returns. intros [= <- <-]. apply commit_keeps.
  - apply (Hon _ _ Hrun). intros t db' t'. apply rollback_keeps.
  - destruct (s_txs S !! k) as [t|]; [|by injection Hrun as <-].
    destruct (drop (s_db S) t) as [db'|]; [|done]. injection Hrun as <-.
    intros j x. simpl. intros [_ Hx]%lookup_delete_Some. by apply (Hok j).
Qed.

Lemma sess_run_ok S cs S' : sess_ok S -> Forall call_ok cs -> sess_run S cs = Some S' -> sess_ok S'.
Proof.
  intros Hok Hcs. revert S Hok. induction Hcs as [|c cs Hc Hcs IH]; intros S Hok Hrun; cbn [sess_run] in Hrun;
    [by injection Hrun as <-|].
  destruct (sess_exec S c) as [S1|] eqn:He; [|done]. apply (IH S1); [by eapply sess_exec_ok|done].
Qed.

Lemma commit_steps_ok db t : tx_ok t -> Forall step_ok (commit_steps db t).
Proof.
  intros Ht. unfold commit_steps. destruct (_ || _); [constructor|].
  destruct (wait_turn _ _) as [[] m]; [|by repeat constructor..]. constructor; [done|].
  apply Forall_app. split; [|by repeat constructor]. apply Forall_map. unfold tx_writes.
  rewrite !Forall_app. repeat split; apply Forall_map; try (apply Forall_true; by intros; repeat case_match).
  eapply Forall_impl; [exact Ht|]. by intros [[[l p] r] v].
Qed.

Lemma call_steps_ok S c : sess_ok S -> Forall step_ok (call_steps S c).
Proof.
  intros Hok. destruct c; cbn [call_steps]; try (case_decide; by repeat constructor);
    try (destruct (sess_exec S _); by repeat constructor).
  destruct (s_txs S !! k) as [t|] eqn:Hk; [|constructor]. apply commit_steps_ok. by apply (Hok k).
Qed.

Lemma run_steps_ok S cs : sess_ok S -> Forall call_ok cs -> Forall step_ok (run_steps S cs).
Proof.
  intros Hok Hcs. revert S Hok. induction Hcs as [|c cs Hc Hcs IH]; intros S Hok; [constructor|].
  cbn [run_steps]. destruct (sess_exec S c) as [S'|] eqn:He; [|constructor]. apply Forall_app.
  split; [by apply call_steps_ok|]. apply IH. by eapply sess_exec_ok.
Qed.
End cells.

(** ** Every step sends each log at most one record *)

Section logging.
Context {W : Type} `{WalSinkLaws W} `{CodecLaws Node} `{CodecLaws Edge} `{CodecLaws (option Value)}.
Hypothesis serialize_nonempty : forall (v : option Value), serialize v ≠ Some [].
Implicit Types (db : Database W) (st : DbStep).

Definition db_node_map db : gmap Z Node := nodes (db_nodes db).
Definition db_edge_map db : gmap Z Edge := edges (db_edges db).
Definition db_columns db : gmap (Z * bytes) (list (option Value)) := columns (db_props db).
Definition db_node_log db : option W := wal (db_nodes db).
Definition db_edge_log db : option W := edge_wal (db_edges db).
Definition db_prop_log db : option W := prop_wal (db_props db).

Lemma node_step_logs db st : logs_one apply_val db_node_map db_node_log db (db_step db st).
Proof.
  assert (forall op db', (forall o, op ≠ OpCompact o) -> db_nodes db' = exec_op (db_nodes db) op ->
    logs_one apply_val db_node_map db_node_log db db') as Hop.
  { intros op db' Hc Heq. pose proof (logs_exec (db_nodes db) op Hc) as Hl.
    unfold logs_one, db_node_map, db_node_log. by rewrite Heq. }
  destruct st as [m| | |tx []|]; try by apply logs_nothing.
  - by apply (Hop OpAlloc).
  - by apply (Hop (OpInsertWithId id labels props_row tx)).
  - by apply (Hop (OpUpdateLabels id labels tx)).
  - by apply (Hop (OpSoftDelete id tx)).
  - by apply (Hop OpFlush).
Qed.

Lemma edge_put_logs db e id s' db' :
  edge_wal s' = edge_wal (db_edges db) -> edges s' = <[id := e]> (edges (db_edges db)) ->
  db_edges db' = EdgeStore.wal_insert id e s' -> logs_one apply_val db_edge_map db_edge_log db db'.
Proof.
  intros Hw He Hdb. destruct (serialize_total e) as [data Hd].
  apply (logs_insert _ _ _ _ _ id data); unfold db_edge_map, db_edge_log; rewrite Hdb.
  - intros w. unfold EdgeStore.wal_insert. rewrite Hw. intros ->. by rewrite Hd.
  - rewrite wal_insert_edges, He. unfold apply_val. cbn [r_opcode r_payload r_id Z.eqb Pos.eqb].
    by rewrite (deserialize_serialize e data Hd).
Qed.

Lemma edge_step_logs db st : logs_one apply_val db_edge_map db_edge_log db (db_step db st).
Proof.
  destruct st as [m| | |tx []|]; try by apply logs_nothing.
  - apply logs_nothing; unfold db_edge_map, db_edge_log; simpl;
      unfold EdgeStore.alloc_id_direct, EdgeStore.alloc_id; by destruct (edge_free_list _).
  - by eapply edge_put_logs; [| |unfold db_step, Transaction.apply_write; reflexivity].
  - unfold db_step, Transaction.apply_write, EdgeStore.soft_delete.
    destruct (edges (db_edges db) !! id) as [e|] eqn:He; [|by apply logs_nothing].
    by eapply edge_put_logs; [| |reflexivity].
  - apply logs_flush; unfold db_edge_map, db_edge_log; simpl; unfold EdgeStore.flush;
      by destruct (edge_wal (db_edges db)) eqn:?.
Qed.

Lemma prop_step_logs db st :
  step_ok st -> logs_one apply_cell db_columns db_prop_log db (db_step db st).
Proof.
  intros Hok. destruct st as [m| | |tx []|]; try by apply logs_nothing.
  - destruct Hok as (Hl & Hr & Hn & Hu). destruct (serialize_total value) as [data Hd].
    apply (logs_insert _ _ _ _ _ label (encode_cell label prop row data));
      unfold db_columns, db_prop_log; cbn [db_step Transaction.apply_write Transaction.set_props db_props];
      unfold PropStore.insert_prop; cbn [snd].
    + intros w Hw. unfold PropStore.wal_send_cell. simpl. by rewrite Hw, Hd.
    + rewrite wal_send_cell_columns. unfold apply_cell. cbn [r_opcode r_payload Z.eqb Pos.eqb].
      by rewrite (decode_encode_cell serialize_nonempty label prop row value data).
  - apply logs_flush; unfold db_columns, db_prop_log; simpl; unfold PropStore.flush;
      by destruct (prop_wal (db_props db)) eqn:?.
Qed.

Lemma steps_log {V} (app : V -> WalRec -> V) vals log db (sts : list DbStep) :
  (forall db st, step_ok st -> logs_one app vals log db (db_step db st)) -> Forall step_ok sts ->
  logs_each app vals log db_step db sts.
Proof.
  intros Hone Hsts ops1 st ops2 ->. apply Hone. apply Forall_app in Hsts as [_ Hsts].
  by apply Forall_inv in Hsts.
Qed.

Lemma edge_open_on_log c file rs s :
  contract_ok (durability c) (wal_channel_capacity c) ->
  log_contents file = MAGIC ++ encode_recs rs -> Forall rec_ok rs ->
  EdgeStore.open (W := W) c file = Ok s -> on_log apply_val edges edge_wal ∅ rs s.
Proof.
  intros Hc Hlog Hrs Ho.
  destruct (edge_open_log c file rs Hc Hlog Hrs) as (s' & Ho' & _ & w & Hw & Hl & Hb & He).
  rewrite Ho in Ho'. injection Ho' as ->. exists w. by rewrite foldl_app.
Qed.

Lemma prop_open_on_log c file rs s :
  contract_ok (durability c) (wal_channel_capacity c) ->
  log_contents file = MAGIC ++ encode_recs rs -> Forall rec_ok rs ->
  PropStore.open (W := W) c file = Ok s -> on_log apply_cell columns prop_wal ∅ rs s.
Proof.
  intros Hc Hlog Hrs Ho.
  destruct (prop_open_log c file rs Hc Hlog Hrs) as (w0 & Ho' & w & Hw & Hl & Hb & He).
  rewrite Ho in Ho'. injection Ho' as ->. exists w. by rewrite foldl_app.
Qed.
End logging.

(** ** The theorem *)

Section durability.
Context {W : Type} `{ws : WalSinkLaws W} `{cn : CodecLaws Node} `{ce : CodecLaws Edge}
  `{cv : CodecLaws (option Value)}.
Hypothesis serialize_nonempty : forall (v : option Value), serialize v ≠ Some [].
Implicit Types (db : Database W) (S : Sessions W) (c : Consistency) (rs : list WalRec).

(** Logs that a crash cut after their headers: the database opens, if none of
    them ends in a torn record. *)
Lemma db_reopen c rn re rp nn ne np :
  contract_ok (durability c) (wal_channel_capacity c) ->
  Forall rec_ok rn -> Forall rec_ok re -> Forall rec_ok rp ->
  let r := Database.open (W := W) c (Some (MAGIC ++ take nn (encode_recs rn)))
    (Some (MAGIC ++ take ne (encode_recs re))) (Some (MAGIC ++ take np (encode_recs rp))) in
  let opened := exists db, r = Ok db /\ tx_manager db = TxManager.new /\
    db_node_map db = foldl apply_val ∅ (cut_recs rn nn).1 /\
    db_edge_map db = foldl apply_val ∅ (cut_recs re ne).1 /\
    db_columns db = foldl apply_cell ∅ (cut_recs rp np).1 in
  (r = Err UnexpectedEof \/ opened) /\
  ((cut_recs rn nn).2 = Ok tt -> (cut_recs re ne).2 = Ok tt -> (cut_recs rp np).2 = Ok tt -> opened).
Proof.
  intros Hc Hn He Hp r opened. subst r. unfold Database.open in *.
  pose proof (node_reopen (W := W) c rn nn Hc Hn) as On.
  pose proof (edge_reopen (W := W) c re ne Hc He) as Oe.
  pose proof (prop_reopen (W := W) c rp np Hc Hp) as Op.
  destruct (cut_recs_error rn nn) as [En|En]; rewrite En in On |- *;
    [destruct On as (n & On & Vn)|]; subst opened; rewrite On; cbv beta iota; [|by split; [left|]].
  destruct (cut_recs_error re ne) as [Ee|Ee]; rewrite Ee in Oe |- *;
    [destruct Oe as (e & Oe & Ve)|]; rewrite Oe; cbv beta iota; [|by split; [left|]].
  destruct (cut_recs_error rp np) as [Ep|Ep]; rewrite Ep in Op |- *;
    [destruct Op as (p & Op & Vp)|]; rewrite Op; cbv beta iota; [|by split; [left|]].
  split; [right|]; intros; by exists (mkDatabase TxManager.new n e p).
Qed.

(** A database whose stores are on their logs, and on synced logs. *)
Definition db_on_logs rn re rp db : Prop :=
  on_log apply_val db_node_map db_node_log ∅ rn db /\
  on_log apply_val db_edge_map db_edge_log ∅ re db /\
  on_log apply_cell db_columns db_prop_log ∅ rp db.

Definition db_on_synced rn re rp db : Prop :=
  on_synced_log apply_val db_node_map db_node_log ∅ rn db /\
  on_synced_log apply_val db_edge_map db_edge_log ∅ re db /\
  on_synced_log apply_cell db_columns db_prop_log ∅ rp db.

(** The files that a crash of the database can leave. *)
Definition db_crash_leaves rn re rp db (bn be bp : bytes) : Prop :=
  crash_leaves db_node_log rn db bn /\ crash_leaves db_edge_log re db be /\
  crash_leaves db_prop_log rp db bp.

Lemma db_open_on_logs c fn fe fp rn re rp db :
  contract_ok (durability c) (wal_channel_capacity c) ->
  log_contents fn = MAGIC ++ encode_recs rn -> log_contents fe = MAGIC ++ encode_recs re ->
  log_contents fp = MAGIC ++ encode_recs rp -> Forall rec_ok (rn ++ re ++ rp) ->
  Database.open (W := W) c fn fe fp = Ok db -> db_on_logs rn re rp db.
Proof.
  intros Hc Hn He Hp [On [Oe Op]%Forall_app]%Forall_app Ho. unfold Database.open in Ho.
  destruct (NodeStore.open c fn) as [n| |] eqn:Hno; [|done..].
  destruct (EdgeStore.open c fe) as [e| |] eqn:Heo; [|done..].
  destruct (PropStore.open c fp) as [p| |] eqn:Hpo; [|done..]. injection Ho as <-.
  split; [exact (node_open_on_log c fn rn n Hc Hn On Hno)|].
  split; [exact (edge_open_on_log c fe re e Hc He Oe Heo)|exact (prop_open_on_log c fp rp p Hc Hp Op Hpo)].
Qed.

Lemma db_steps_on_logs rn re rp db sts :
  db_on_logs rn re rp db -> Forall step_ok sts -> db_on_logs rn re rp (db_steps db sts).
Proof.
  intros (Hn & He & Hp) Hsts. unfold db_on_logs, db_steps.
  split; [|split]; apply on_log_run; try done; apply steps_log; auto using node_step_logs, edge_step_logs.
  by apply prop_step_logs.
Qed.

Lemma flush_all_synced rn re rp db : db_on_logs rn re rp db -> db_on_synced rn re rp (Transaction.flush_all db).
Proof.
  intros (Hn & He & Hp). split; [|split].
  - apply (on_log_flush _ _ _ _ _ db); [..|exact Hn]; unfold db_node_map, db_node_log; simpl;
      unfold NodeStore.flush; by destruct (wal (db_nodes db)) eqn:?.
  - apply (on_log_flush _ _ _ _ _ db); [..|exact He]; unfold db_edge_map, db_edge_log; simpl;
      unfold EdgeStore.flush; by destruct (edge_wal (db_edges db)) eqn:?.
  - apply (on_log_flush _ _ _ _ _ db); [..|exact Hp]; unfold db_columns, db_prop_log; simpl;
      unfold PropStore.flush; by destruct (prop_wal (db_props db)) eqn:?.
Qed.

(** A successful commit leaves everything durable. *)
Lemma commit_synced rn re rp db t :
  db_on_logs rn re rp db -> tx_ok t -> is_write t = true -> (Transaction.commit db t).1.1 = Ok tt ->
  db_on_synced rn re rp (Transaction.commit db t).1.2.
Proof.
  intros Hon Ht Hw Hok. pose proof (commit_steps_ok db t Ht) as Hsts.
  rewrite <-commit_steps_db. unfold commit_steps, Transaction.commit in *. rewrite Hw in *.
  destruct (committed t); [done|]. cbn [negb orb] in *.
  destruct (Transaction.wait_turn (tx_id t) (tx_manager db)) as [[[]| |] m]; [|done..].
  rewrite app_comm_cons in Hsts |- *. apply Forall_app in Hsts as [Hsts _].
  rewrite db_steps_app. by apply flush_all_synced, db_steps_on_logs.
Qed.

(** The crash of a database whose logs were synced [sts] steps ago. *)
Lemma reopen_after c rn re rp db0 sts bn be bp :
  contract_ok (durability c) (wal_channel_capacity c) ->
  db_on_synced rn re rp db0 -> Forall step_ok sts ->
  db_crash_leaves rn re rp (db_steps db0 sts) bn be bp ->
  let r := Database.open (W := W) c (Some bn) (Some be) (Some bp) in
  let opened := exists db jn je jp, r = Ok db /\ tx_manager db = TxManager.new /\
    db_node_map db = db_node_map (db_steps db0 (take jn sts)) /\
    db_edge_map db = db_edge_map (db_steps db0 (take je sts)) /\
    db_columns db = db_columns (db_steps db0 (take jp sts)) in
  (r = Err UnexpectedEof \/ opened) /\ (sts = [] -> opened).
Proof.
  intros Hc (Yn & Ye & Yp) Hsts (Cn & Ce & Cp) r opened.
  destruct (crash_prefix _ _ _ _ _ _ _ _ _ Yn (steps_log _ _ _ _ _ (fun db st _ => node_step_logs db st) Hsts) Cn)
    as (ln & nn & jn & Ln & -> & _ & Vn & En).
  destruct (crash_prefix _ _ _ _ _ _ _ _ _ Ye (steps_log _ _ _ _ _ (fun db st _ => edge_step_logs db st) Hsts) Ce)
    as (le & ne & je & Le & -> & _ & Ve & Ee).
  destruct (crash_prefix _ _ _ _ _ _ _ _ _ Yp (steps_log _ _ _ _ _ (prop_step_logs serialize_nonempty) Hsts) Cp)
    as (lp & np & jp & Lp & -> & _ & Vp & Ep).
  destruct (db_reopen c ln le lp nn ne np Hc Ln Le Lp) as [Hopen Hnow]. fold r in Hopen, Hnow.
  rewrite Vn, Ve, Vp in Hopen, Hnow.
  split.
  - destruct Hopen as [?|[db Hdb]]; [by left|right; by exists db, jn, je, jp].
  - intros Hnil. destruct (Hnow (En Hnil) (Ee Hnil) (Ep Hnil)) as [db Hdb]. by exists db, jn, je, jp.
Qed.

(** C5: commits are durable. A client works on a database opened from
    well-formed files at a level that fsyncs and sets properties under names of less than 256 bytes only
    (longer ones are not read back, see [long_names_lost]); one of its
    write transactions commits, the client goes on, and a crash stops it anywhere,
    inside a later commit included, and cuts the three logs anywhere past what
    each had made durable. Then opening the database again fails with the
    truncation error, or gives a database in which each store holds what it held
    at some moment between the return of that commit and the crash (each store at
    a moment of its own). If nothing happened in between, the opening succeeds
    and nothing of the commit is lost. *)
Theorem commit_durable c fn fe fp rn re rp db0 cs1 S1 k t S2 cs2 m bn be bp :
  contract_ok (durability c) (wal_channel_capacity c) ->
  log_contents fn = MAGIC ++ encode_recs rn -> log_contents fe = MAGIC ++ encode_recs re ->
  log_contents fp = MAGIC ++ encode_recs rp -> Forall rec_ok (rn ++ re ++ rp) ->
  Database.open (W := W) c fn fe fp = Ok db0 -> Forall call_ok (cs1 ++ cs2) ->
  sess_run (sess_start db0) cs1 = Some S1 -> s_txs S1 !! k = Some t -> is_write t = true ->
  (Transaction.commit (s_db S1) t).1.1 = Ok tt -> sess_exec S1 (CCommit k) = Some S2 ->
  let sts := take m (run_steps S2 cs2) in
  let moment j := db_steps (s_db S2) (take j sts) in
  db_crash_leaves rn re rp (db_steps (s_db S2) sts) bn be bp ->
  let r := Database.open (W := W) c (Some bn) (Some be) (Some bp) in
  (r = Err UnexpectedEof /\ sts ≠ []) \/
  exists db jn je jp, r = Ok db /\ tx_manager db = TxManager.new /\
    db_node_map db = db_node_map (moment jn) /\ db_edge_map db = db_edge_map (moment je) /\
    db_columns db = db_columns (moment jp).
Proof.
  intros Hc Hfn Hfe Hfp Hrs Ho [Hok1 Hok2]%Forall_app Hrun Hk Hw Hcommit Hexec sts moment Hcrash r.
  pose proof (db_open_on_logs c fn fe fp rn re rp db0 Hc Hfn Hfe Hfp Hrs Ho) as Hon.
  assert (sess_ok (sess_start db0)) as Hs0 by done.
  pose proof (sess_run_ok _ _ _ Hs0 Hok1 Hrun) as Hs1.
  pose proof (sess_exec_ok _ (CCommit k) _ Hs1 I Hexec) as Hs2.
  apply (db_steps_on_logs _ _ _ _ (run_steps (sess_start db0) cs1)) in Hon; [|by apply run_steps_ok].
  assert (db_steps db0 (run_steps (sess_start db0) cs1) = s_db S1) as Hr1
    by by apply (run_steps_db (sess_start db0)).
  rewrite Hr1 in Hon. pose proof (commit_synced rn re rp (s_db S1) t Hon (Hs1 k t Hk) Hw Hcommit) as Hsync.
  assert (s_db S2 = (Transaction.commit (s_db S1) t).1.2) as Hs.
  { rewrite sess_exec_commit in Hexec. unfold on_tx in Hexec. rewrite Hk in Hexec. by injection Hexec as <-. }
  rewrite <-Hs in Hsync.
  assert (Forall step_ok sts) as Hsts by by apply Forall_take, run_steps_ok.
  destruct (reopen_after c rn re rp (s_db S2) sts bn be bp Hc Hsync Hsts Hcrash)
    as [[Herr|Hopen] Hnow]; [|by right].
  destruct sts; [right; by apply Hnow|by left].
Qed.
End durability.

(** ** A crash inside a commit

    The second transaction creates a node and an edge. The crash comes when its
    node has reached the disk and its edge has not. *)

Section witnesses.
#[local] Existing Instances thread_sink thread_sink_laws.
#[local] Instance dur_node_codec : Codec Node := countable_codec.
#[local] Instance dur_edge_codec : Codec Edge := countable_codec.
#[local] Instance dur_value_codec : Codec (option Value) := countable_codec.
#[local] Instance dur_node_laws : CodecLaws Node := countable_codec_laws.
#[local] Instance dur_edge_laws : CodecLaws Edge := countable_codec_laws.
#[local] Instance dur_value_laws : CodecLaws (option Value) := countable_codec_laws.

Definition dur_before : list Call :=
  [CBeginWrite 0; CCreateNode 0 [7] 1; CSetProp 0 1 prop_age 0 (Some (VInt 30))].

Definition dur_after : list Call :=
  [CBeginWrite 1; CCreateNode 1 [8] 2; CCreateEdge 1 0 1 9 0; CDeleteNode 1 0; CCommit 1].

Definition dur_db : Database WalThread :=
  match Database.open balanced None None None with Ok db => db | _ => Database.memory end.

Definition dur_1 : Sessions WalThread := default (sess_start dur_db) (sess_run (sess_start dur_db) dur_before).
Definition dur_2 : Sessions WalThread := default dur_1 (sess_exec dur_1 (CCommit 0)).

(** Before the flush of the second commit. *)
Definition dur_steps : list DbStep := take 8 (run_steps dur_2 dur_after).
Definition dur_crash : Database WalThread := db_steps (s_db dur_2) dur_steps.

Definition sent_bytes (w : option WalThread) : bytes :=
  match w with Some w => sink_base w ++ encode_recs (sink_recs w) | None => [] end.
Definition durable_bytes (w : option WalThread) : bytes :=
  match w with Some w => sink_image w | None => [] end.

Definition dur_wal (w : option WalThread) : WalThread := default (demo_thread Immediate None []) w.

Definition dur_nodes : bytes := sent_bytes (db_node_log dur_crash).
Definition dur_edges : bytes := durable_bytes (db_edge_log dur_crash).
Definition dur_props : bytes := durable_bytes (db_prop_log dur_crash).

Definition opens (r : io (Database WalThread)) : bool := match r with Ok _ => true | _ => false end.

Lemma dur_opens :
  opens (Database.open (W := WalThread) balanced (Some dur_nodes) (Some dur_edges) (Some dur_props)) = true.
Proof. by vm_compute. Qed.

Lemma dur_leaves : db_crash_leaves [] [] [] dur_crash dur_nodes dur_edges dur_props.
Proof.
  split; [|split]; match goal with |- crash_leaves ?log _ _ _ => exists (dur_wal (log dur_crash)) end;
    (split; [by vm_compute|]); (split; [by apply rec_okb_all; vm_compute|]); split; by_decide.
Qed.

Lemma commit_durable_witness :
  exists db jn je jp,
    Database.open (W := WalThread) balanced (Some dur_nodes) (Some dur_edges) (Some dur_props) = Ok db /\
    db_node_map db = db_node_map (db_steps (s_db dur_2) (take jn dur_steps)) /\
    db_edge_map db = db_edge_map (db_steps (s_db dur_2) (take je dur_steps)) /\
    db_columns db = db_columns (db_steps (s_db dur_2) (take jp dur_steps)).
Proof.
  destruct (s_txs dur_1 !! 0%nat) as [t|] eqn:Ht; [|by vm_compute in Ht].
  destruct (commit_durable value_codec_nonempty balanced None None None [] [] [] dur_db dur_before dur_1
    0 t dur_2 dur_after 8 dur_nodes dur_edges dur_props) as [[Hbad _]|(db & jn & je & jp & Ho & _ & Hdb)];
    [by_decide|done|done|done|done|by vm_compute|by_decide|by vm_compute|exact Ht| | |by vm_compute| | |].
  - vm_compute in Ht. by injection Ht as <-.
  - vm_compute in Ht. injection Ht as <-. by vm_compute.
  - exact dur_leaves.
  - pose proof (f_equal opens Hbad) as Hopens. discriminate (eq_trans (eq_sym dur_opens) Hopens).
  - exists db, jn, je, jp. split; [exact Ho|exact Hdb].
Defined.

(** Nothing records that the second commit did not finish: its node is there,
    the edge it created is not. *)
Example torn_commit :
  match Database.open (W := WalThread) balanced (Some dur_nodes) (Some dur_edges) (Some dur_props) with
  | Ok db => bool_decide (Node.created_tx <$> db_node_map db !! 1 = Some 2) && bool_decide (db_edge_map db = ∅)
  | _ => false
  end = true.
Proof. by vm_compute. Qed.
End witnesses.
