(* ===== verification/Concurrent.v ===== *)
(** * Commits of several threads at once

    [Transaction::commit] takes its turn for the publication of its ticket only:
    the writes and the flushes that follow run outside the lock, next to those of
    other transactions. This file runs the ticket lock of [TxManager.v] together
    with the second and third phases of all commits, one shared access at a time:
    a write that changes the memory first and sends its log record afterwards is
    two steps, a flush is the request and its acknowledgement. It says when the
    interleaved commits are equal to running them one after another, and what a
    crash can take from them. *)

From S2P Require Export Durable.
From Stdlib Require Import Sorting.Sorted.

Open Scope Z_scope.

(** ** What the threads share *)

Inductive StoreName : Type := NodesLog | EdgesLog | PropsLog.

#[export] Instance StoreName_eq_dec : EqDecision StoreName.
Proof. solve_decision. Defined.

(** The cells of the database that a write can change. *)
Inductive Key : Type :=
| KNode (id : Z)
| KEdge (id : Z)
| KCell (label : Z) (prop : bytes) (row : Z).

#[export] Instance Key_eq_dec : EqDecision Key.
Proof. solve_decision. Defined.

Definition store_of (k : Key) : StoreName :=
  match k with KNode _ => NodesLog | KEdge _ => EdgesLog | KCell _ _ _ => PropsLog end.

Definition write_key (w : TxWrite) : Key :=
  match w with
  | WInsertNode id _ _ | WUpdateLabels id _ | WDeleteNode id => KNode id
  | WInsertEdge id _ _ _ _ | WDeleteEdge id => KEdge id
  | WSetProp label prop row _ => KCell label prop row
  end.

(** What a key holds. Rows are [u32]: a negative one is no row. *)
Inductive Item : Type :=
| INode (o : option Node)
| IEdge (o : option Edge)
| ICell (v : option Value).

Definition row_of (label : Z) (prop : bytes) (row : Z)
    (cols : gmap (Z * bytes) (list (option Value))) : option Value :=
  if decide (0 <= row) then cell cols label prop row else None.

Definition item {W} (db : Database W) (k : Key) : Item :=
  match k with
  | KNode id => INode (nodes (db_nodes db) !! id)
  | KEdge id => IEdge (edges (db_edges db) !! id)
  | KCell label prop row => ICell (row_of label prop row (columns (db_props db)))
  end.

(** ** The steps of a commit *)

(** A record that is still to be sent: [insert_with_id] and [insert_prop] send
    it after they let go of the entry they changed. *)
Inductive LogHalf : Type :=
| HNode (id : Z) (n : Node)
| HEdge (id : Z) (e : Edge)
| HCell (label : Z) (prop : bytes) (row : Z) (value : option Value).

(** Where a published commit is: the record its last write still owes the log,
    the writes left, the flushes left, and for a flush that was requested the
    number of records the log had been sent by then. *)
Record Progress : Type := mkProgress {
  p_log : option LogHalf;
  p_writes : list TxWrite;
  p_flushes : list StoreName;
  p_waiting : option nat
}.

Definition started (t : Transaction) : Progress :=
  mkProgress None (tx_writes t) [NodesLog; EdgesLog; PropsLog] None.

Record ConcState (W : Type) : Type := mkConcState {
  c_threads : Threads;
  c_db : Database W;
  (** How many records of each log were sent before a flush that returned. *)
  c_synced : StoreName -> nat;
  (** The published commits, in the order of publication. *)
  c_commits : list (Z * Progress)
}.
Arguments mkConcState {W}.
Arguments c_threads {W}.
Arguments c_db {W}.
Arguments c_synced {W}.
Arguments c_commits {W}.

Section steps.
Context {W : Type} `{WalSink W} `{Codec Node} `{Codec Edge} `{Codec (option Value)}.
Import Transaction.
Implicit Types (db : Database W) (s : ConcState W).

(** What a write does before it lets go of its entry. [update_labels] and
    [soft_delete] send their record while they hold the entry: nobody sees the
    change without the record. *)
Definition memory_half (tx : Z) (w : TxWrite) db : option LogHalf * Database W :=
  match w with
  | WInsertNode id labels row =>
      let node := Node.new id labels row tx in
      (Some (HNode id node), set_nodes (insert_in_memory id node (db_nodes db)) db)
  | WInsertEdge id src dst etype row =>
      let edge := Edge.new id src dst etype row tx in
      (Some (HEdge id edge),
       set_edges (EdgeStore.set_edges (<[id := edge]> (edges (db_edges db))) (db_edges db)) db)
  | WSetProp label prop row value =>
      (Some (HCell label prop row value),
       set_props (PropStore.set_columns (write_cell label prop row value (columns (db_props db)))
         (db_props db)) db)
  | WUpdateLabels _ _ | WDeleteNode _ | WDeleteEdge _ => (None, apply_write tx db w)
  end.

Definition log_half (h : LogHalf) db : Database W :=
  match h with
  | HNode id n => set_nodes (NodeStore.wal_insert id n (db_nodes db)) db
  | HEdge id e => set_edges (EdgeStore.wal_insert id e (db_edges db)) db
  | HCell label prop row value =>
      set_props (PropStore.wal_send_cell label prop row value (db_props db)) db
  end.

Definition flush_store (st : StoreName) db : Database W :=
  match st with
  | NodesLog => set_nodes (flush (db_nodes db)) db
  | EdgesLog => set_edges (EdgeStore.flush (db_edges db)) db
  | PropsLog => set_props (PropStore.flush (db_props db)) db
  end.

Definition store_log (st : StoreName) db : option W :=
  match st with
  | NodesLog => db_node_log db
  | EdgesLog => db_edge_log db
  | PropsLog => db_prop_log db
  end.

Definition store_recs (st : StoreName) db : list WalRec :=
  match store_log st db with Some w => sink_recs w | None => [] end.

Definition raise (st : StoreName) (n : nat) (y : StoreName -> nat) : StoreName -> nat :=
  fun st' => if decide (st' = st) then Nat.max n (y st') else y st'.

(** The next step of a commit: the record it owes, else its next write, else
    its next flush. *)
Definition advance (tx : Z) (p : Progress) db (y : StoreName -> nat)
  : option (Progress * Database W * (StoreName -> nat)) :=
  match p_log p, p_writes p, p_flushes p, p_waiting p with
  | Some h, ws, fl, wt => Some (mkProgress None ws fl wt, log_half h db, y)
  | None, w :: ws, fl, wt =>
      let '(h, db') := memory_half tx w db in Some (mkProgress h ws fl wt, db', y)
  | None, [], st :: fl, None =>
      Some (mkProgress None [] (st :: fl) (Some (length (store_recs st db))), db, y)
  | None, [], st :: fl, Some n => Some (mkProgress None [] fl None, flush_store st db, raise st n y)
  | None, [], [], _ => None
  end.

(** ** All threads *)

Inductive Action : Type :=
| ATicket (ev : TxEv)
| AAllocNode
| AAllocEdge
| AAdvance (i : nat).

(** The commit that the step of the lock publishes. *)
Definition publishes (ths : Threads) (ev : TxEv) : option Z :=
  match ev with
  | EvRun tx => match pcs ths !! tx with Some CommitStore => Some tx | _ => None end
  | _ => None
  end.

(** [buffer tx] is the transaction that holds ticket [tx], as its owner has
    filled it when its commit publishes. *)
Definition conc_exec (buffer : Z -> Transaction) s (a : Action) : ConcState W :=
  match a with
  | ATicket ev =>
      let ths := tx_exec (c_threads s) ev in
      mkConcState ths (set_manager (manager ths) (c_db s)) (c_synced s)
        (c_commits s ++ match publishes (c_threads s) ev with
                        | Some tx => [(tx, started (buffer tx))]
                        | None => []
                        end)
  | AAllocNode =>
      mkConcState (c_threads s) (set_nodes (alloc_id_direct (db_nodes (c_db s))).2 (c_db s))
        (c_synced s) (c_commits s)
  | AAllocEdge =>
      mkConcState (c_threads s)
        (set_edges (EdgeStore.alloc_id_direct (db_edges (c_db s))).2 (c_db s))
        (c_synced s) (c_commits s)
  | AAdvance i =>
      match c_commits s !! i with
      | Some (tx, p) =>
          match advance tx p (c_db s) (c_synced s) with
          | Some (p', db', y') => mkConcState (c_threads s) db' y' (<[i := (tx, p')]> (c_commits s))
          | None => s
          end
      | None => s
      end
  end.

Definition conc_start db : ConcState W :=
  mkConcState threads_init db (fun _ => 0%nat) [].

(** ** Conflicts *)

Definition active (p : Progress) : bool := match p_flushes p with [] => false | _ => true end.

Definition footprint (t : Transaction) : list Key := map write_key (tx_writes t).

Definition compatible (buffer : Z -> Transaction) (c1 c2 : Z * Progress) : bool :=
  negb (active c1.2) || negb (active c2.2) ||
  forallb (fun k => negb (bool_decide (k ∈ footprint (buffer c2.1)))) (footprint (buffer c1.1)).

Fixpoint pairwise {A} (ok : A -> A -> bool) (l : list A) : bool :=
  match l with
  | [] => true
  | x :: l' => forallb (ok x) l' && pairwise ok l'
  end.

(** No two commits that are under way write the same key. *)
Definition no_conflicts (buffer : Z -> Transaction) s : bool :=
  pairwise (compatible buffer) (c_commits s).

Definition conc_step (buffer : Z -> Transaction) s s' : Prop :=
  exists a, s' = conc_exec buffer s a /\ no_conflicts buffer s' = true.

(** The published commits run one after another, in ticket order. *)
Definition serial (buffer : Z -> Transaction) db (commits : list (Z * Progress)) : Database W :=
  foldl (fun db '(tx, _) => apply_writes tx db (tx_writes (buffer tx))) db commits.

(** A commit under way has not flushed what it wrote to [k]. *)
Definition unsettled (buffer : Z -> Transaction) s (k : Key) : Prop :=
  exists tx p, (tx, p) ∈ c_commits s /\ k ∈ footprint (buffer tx) /\ store_of k ∈ p_flushes p.

(** A commit under way has a write to [k] left. *)
Definition unwritten s (k : Key) : Prop :=
  exists tx p, (tx, p) ∈ c_commits s /\ k ∈ map write_key (p_writes p).
End steps.

(** ** What the steps do to one key *)

Definition item_effect (tx : Z) (k : Key) (it : Item) (w : TxWrite) : Item :=
  match k, it with
  | KNode id, INode o => INode (node_effect tx id o w)
  | KEdge id, IEdge o => IEdge (edge_effect tx id o w)
  | KCell label prop row, ICell v =>
      ICell (match w with
             | WSetProp l p r v' =>
                 if decide (0 <= row /\ (label, prop, row) = (l, p, r)) then v' else v
             | _ => v
             end)
  | _, _ => it
  end.

Lemma item_effect_other tx k it w : k ≠ write_key w -> item_effect tx k it w = it.
Proof.
  intros Hk. destruct k, it, w; simpl in *; try done; f_equal; try (rewrite decide_False by congruence; done).
  rewrite decide_False; [done|]. intros [_ [= -> -> ->]]. done.
Qed.

Section keys.
Context {W : Type} `{WalSink W} `{Codec Node} `{Codec Edge} `{Codec (option Value)}.
Import Transaction.
Implicit Types (db : Database W) (w : TxWrite) (k : Key) (s : ConcState W).

Definition write_ok w : Prop := step_ok (SWrite 0 w).

Lemma tx_ok_writes t : tx_ok t -> Forall write_ok (tx_writes t).
Proof.
  intros Ht. unfold tx_writes.
  rewrite !Forall_app. repeat split; apply Forall_map; try (apply Forall_true; by intros; repeat case_match).
  eapply Forall_impl; [exact Ht|]. by intros [[[l p] r] v].
Qed.

Lemma row_of_write label prop row value cols l p r :
  0 <= row ->
  row_of l p r (write_cell label prop row value cols) =
  if decide (0 <= r /\ (l, p, r) = (label, prop, row)) then value else row_of l p r cols.
Proof.
  intros Hrow. unfold row_of. destruct (decide (0 <= r)).
  - rewrite cell_write by done. destruct (decide (_ = _)); [by rewrite decide_True|].
    by rewrite decide_False by naive_solver.
  - by rewrite decide_False by naive_solver.
Qed.

Lemma item_apply_write tx db w k :
  write_ok w -> item (apply_write tx db w) k = item_effect tx k (item db k) w.
Proof.
  intros Hok. destruct k; cbn [item item_effect]; f_equal.
  - apply apply_write_node.
  - apply (apply_writes_edge tx db [w]).
  - destruct w; try done. cbn [apply_write set_props db_props]. unfold PropStore.insert_prop. cbn [snd].
    rewrite wal_send_cell_columns. apply row_of_write. by destruct Hok as (_ & [? _] & _).
Qed.

Lemma item_apply_writes tx db ws k :
  Forall write_ok ws -> item (apply_writes tx db ws) k = foldl (item_effect tx k) (item db k) ws.
Proof.
  intros Hws. revert db. induction Hws as [|w ws Hw _ IH]; intros db; [done|].
  change (apply_writes tx db (w :: ws)) with (apply_writes tx (apply_write tx db w) ws).
  simpl. by rewrite IH, item_apply_write.
Qed.

Lemma item_log_half h db k : item (log_half h db) k = item db k.
Proof.
  destruct h, k; try done; cbn [log_half item set_nodes set_edges set_props db_nodes db_edges db_props].
  - by rewrite wal_insert_nodes.
  - by rewrite wal_insert_edges.
  - by rewrite wal_send_cell_columns.
Qed.

Lemma item_flush_store st db k : item (flush_store st db) k = item db k.
Proof.
  destruct st, k; try done; cbn [flush_store item set_nodes set_edges set_props db_nodes db_edges db_props];
    f_equal.
  - by rewrite flush_nodes.
  - unfold EdgeStore.flush. by destruct (edge_wal _).
  - unfold PropStore.flush. by destruct (prop_wal _).
Qed.

(** The two halves of a write, one after the other, are the write. *)
Lemma halves tx w db :
  match memory_half tx w db with
  | (Some h, db') => log_half h db'
  | (None, db') => db'
  end = apply_write tx db w.
Proof. by destruct w. Qed.

Lemma item_memory_half tx w db k :
  write_ok w -> item (memory_half tx w db).2 k = item_effect tx k (item db k) w.
Proof.
  intros Hw. rewrite <-(item_apply_write tx db w k Hw), <-(halves tx w db).
  destruct (memory_half tx w db) as [[h|] db']; [|done]. symmetry. apply item_log_half.
Qed.

Lemma item_serial buffer db commits k :
  (forall tx, tx_ok (buffer tx)) ->
  item (serial buffer db commits) k =
  foldl (fun it '(tx, _) => foldl (item_effect tx k) it (tx_writes (buffer tx))) (item db k) commits.
Proof.
  intros Hok. revert db. induction commits as [|[tx p] commits IH]; intros db; [done|].
  change (serial buffer db ((tx, p) :: commits))
    with (serial buffer (apply_writes tx db (tx_writes (buffer tx))) commits).
  rewrite IH. simpl. by rewrite item_apply_writes by by apply tx_ok_writes.
Qed.
End keys.

(** ** Well-formed commits under way *)

Definition half_key (h : LogHalf) : Key :=
  match h with
  | HNode id _ => KNode id
  | HEdge id _ => KEdge id
  | HCell label prop row _ => KCell label prop row
  end.

Definition half_item (h : LogHalf) : Item :=
  match h with
  | HNode _ n => INode (Some n)
  | HEdge _ e => IEdge (Some e)
  | HCell _ _ _ value => ICell value
  end.

Definition half_ok (h : LogHalf) : Prop :=
  match h with HCell label prop row _ => cell_ok label prop row | _ => True end.

Record prog_ok (t : Transaction) (p : Progress) : Prop := {
  po_writes : p_writes p `suffix_of` tx_writes t;
  po_log h : p_log p = Some h -> half_key h ∈ footprint t /\ half_ok h;
  po_busy : is_Some (p_log p) \/ p_writes p ≠ [] ->
    p_flushes p = [NodesLog; EdgesLog; PropsLog] /\ p_waiting p = None
}.

Lemma started_ok t : prog_ok t (started t).
Proof. by split. Qed.

Lemma prog_ok_keys t p : prog_ok t p -> forall k, k ∈ map write_key (p_writes p) -> k ∈ footprint t.
Proof.
  intros [[ws Hws] _ _] k Hk. unfold footprint. rewrite Hws, map_app. by apply elem_of_app; right.
Qed.

Lemma prog_ok_active t p k : prog_ok t p -> k ∈ map write_key (p_writes p) -> active p = true.
Proof.
  intros [_ _ Hbusy] Hk. unfold active. destruct Hbusy as [-> _]; [|done]. right. intros Hnil.
  rewrite Hnil in Hk. by apply not_elem_of_nil in Hk.
Qed.

Lemma pairwise_lookup {A} (ok : A -> A -> bool) l i j x y :
  pairwise ok l = true -> (i < j)%nat -> l !! i = Some x -> l !! j = Some y -> ok x y = true.
Proof.
  revert i j. induction l as [|z l IH]; intros i j; [done|]. simpl.
  intros [Hz Hl]%andb_true_iff Hij Hi Hj. destruct j as [|j]; [lia|]. simpl in Hj.
  destruct i as [|i]; [|apply (IH i j); [done|lia|done..]]. injection Hi as ->.
  rewrite forallb_forall in Hz. apply Hz, list_elem_of_In. by eapply list_elem_of_lookup_2.
Qed.

Lemma compatible_spec buffer tx1 p1 tx2 p2 :
  compatible buffer (tx1, p1) (tx2, p2) = true -> active p1 = true -> active p2 = true ->
  forall k, k ∈ footprint (buffer tx1) -> k ∈ footprint (buffer tx2) -> False.
Proof.
  unfold compatible. cbn [fst snd]. intros Hc A1 A2. rewrite A1, A2 in Hc. simpl in Hc.
  rewrite forallb_forall in Hc. intros k H1 H2. specialize (Hc k (proj1 (list_elem_of_In _ _) H1)).
  by rewrite bool_decide_eq_true_2 in Hc.
Qed.

Lemma no_conflicts_lookup {W} buffer (s : ConcState W) i j tx1 p1 tx2 p2 k :
  no_conflicts buffer s = true ->
  c_commits s !! i = Some (tx1, p1) -> c_commits s !! j = Some (tx2, p2) -> i ≠ j ->
  active p1 = true -> active p2 = true ->
  k ∈ footprint (buffer tx1) -> k ∈ footprint (buffer tx2) -> False.
Proof.
  intros Hc H1 H2 Hne A1 A2 K1 K2. unfold no_conflicts in Hc.
  destruct (decide (i < j)%nat).
  - pose proof (pairwise_lookup _ _ i j _ _ Hc l H1 H2) as Hok.
    by apply (compatible_spec _ _ _ _ _ Hok A1 A2 k).
  - assert (j < i)%nat as Hlt by lia. pose proof (pairwise_lookup _ _ j i _ _ Hc Hlt H2 H1) as Hok.
    by apply (compatible_spec _ _ _ _ _ Hok A2 A1 k).
Qed.

(** ** The invariant of the memory *)

Definition remaining (k : Key) (it : Item) (commits : list (Z * Progress)) : Item :=
  foldl (fun it '(tx, p) => foldl (item_effect tx k) it (p_writes p)) it commits.

Lemma remaining_app k it l1 l2 : remaining k it (l1 ++ l2) = remaining k (remaining k it l1) l2.
Proof. apply foldl_app. Qed.

Lemma effects_other tx k it ws : k ∉ map write_key ws -> foldl (item_effect tx k) it ws = it.
Proof.
  revert it. induction ws as [|w ws IH]; intros it; [done|]. simpl.
  intros [Hk Hks]%not_elem_of_cons. by rewrite item_effect_other, IH.
Qed.

Lemma remaining_none k it l :
  (forall tx p, (tx, p) ∈ l -> k ∉ map write_key (p_writes p)) -> remaining k it l = it.
Proof.
  revert it. induction l as [|[tx p] l IH]; intros it Hl; [done|].
  change (remaining k it ((tx, p) :: l)) with (remaining k (foldl (item_effect tx k) it (p_writes p)) l).
  rewrite effects_other by (apply (Hl tx); apply list_elem_of_here).
  apply IH. intros tx' p' Hin. apply (Hl tx'). by apply list_elem_of_further.
Qed.

(** A write by one of the commits, when no commit before it has a write left to
    the same key. *)
Lemma remaining_write k it l1 l2 tx p p' w ws :
  p_writes p = w :: ws -> p_writes p' = ws ->
  (forall tx1 p1, (tx1, p1) ∈ l1 -> write_key w ∉ map write_key (p_writes p1)) ->
  remaining k (item_effect tx k it w) (l1 ++ (tx, p') :: l2) = remaining k it (l1 ++ (tx, p) :: l2).
Proof.
  intros Hp Hp' Hl1. rewrite !remaining_app.
  change (remaining k ?it ((tx, ?p) :: l2))
    with (remaining k (foldl (item_effect tx k) it (p_writes p)) l2).
  rewrite Hp, Hp'. simpl. destruct (decide (k = write_key w)) as [->|Hk].
  - by rewrite !(remaining_none _ _ l1).
  - by rewrite !item_effect_other.
Qed.

Lemma remaining_same k it l1 l2 tx p p' :
  p_writes p' = p_writes p ->
  remaining k it (l1 ++ (tx, p') :: l2) = remaining k it (l1 ++ (tx, p) :: l2).
Proof. intros Hp. rewrite !remaining_app. simpl. by rewrite Hp. Qed.

(** ** One step of the lock *)

Lemma tx_exec_committed ths ev :
  tx_inv ths ->
  match publishes ths ev with
  | Some tx => committed_tx_id (manager ths) < tx /\
      committed_tx_id (manager (tx_exec ths ev)) = tx
  | None => committed_tx_id (manager ths) <= committed_tx_id (manager (tx_exec ths ev))
  end.
Proof.
  intros Hinv. destruct ev as [|tx|tx|tx]; cbn [publishes tx_exec].
  - by destruct (_ <? _).
  - unfold call_with. by repeat case_match.
  - unfold call_with. by repeat case_match.
  - destruct (pcs ths !! tx) as [pc|] eqn:Hpc; [|done].
    destruct (thread_step tx pc (manager ths)) as [[pc' m']|] eqn:Hrun; [|by destruct pc].
    destruct (thread_step_cases ths tx pc pc' m' Hinv Hpc Hrun) as [(-> & Hst & _)|(-> & Hst & _)].
    + by destruct pc.
    + pose proof (inv_storing ths Hinv tx pc Hpc Hst). destruct pc; simpl in *; try done; lia.
Qed.

Lemma sorted_snoc l y : StronglySorted Z.lt l -> Forall (fun x => x < y) l -> StronglySorted Z.lt (l ++ [y]).
Proof.
  induction 1 as [|x l Hl IH Hx]; intros Hy; [by repeat constructor|]. inversion_clear Hy. simpl.
  constructor; [by apply IH|]. apply Forall_app. split; [done|]. by apply Forall_singleton.
Qed.

Section serialize.
Context {W : Type} `{WalSink W} `{Codec Node} `{Codec Edge} `{Codec (option Value)}.
Context (buffer : Z -> Transaction) (buffers_ok : forall tx, tx_ok (buffer tx)).
Import Transaction.
Implicit Types (db : Database W) (k : Key) (s : ConcState W) (p : Progress).

Record conc_inv db0 s : Prop := {
  ci_threads : tx_inv (c_threads s);
  ci_sorted : StronglySorted Z.lt (map fst (c_commits s));
  ci_committed : Forall (fun tx => tx <= committed_tx_id (manager (c_threads s))) (map fst (c_commits s));
  ci_progress i tx p : c_commits s !! i = Some (tx, p) -> prog_ok (buffer tx) p;
  ci_conflicts : no_conflicts buffer s = true;
  ci_serial k : remaining k (item (c_db s) k) (c_commits s) = item (serial buffer db0 (c_commits s)) k
}.

Lemma conc_inv_start db : conc_inv db (conc_start db).
Proof. split; try done; [apply tx_inv_init|constructor]. Qed.

Lemma serial_same db l1 l2 tx p p' :
  serial buffer db (l1 ++ (tx, p') :: l2) = serial buffer db (l1 ++ (tx, p) :: l2).
Proof. unfold serial. by rewrite !foldl_app. Qed.

(** A step that is a commit's own: what it does to [p]'s writes and the items. *)
Lemma advance_cases tx p db y p' db' y' :
  prog_ok (buffer tx) p -> advance tx p db y = Some (p', db', y') ->
  prog_ok (buffer tx) p' /\
  ((p_writes p' = p_writes p /\ forall k, item db' k = item db k) \/
   exists w, p_writes p = w :: p_writes p' /\ forall k, item db' k = item_effect tx k (item db k) w).
Proof.
  intros [Hws Hlog Hbusy] Hadv. unfold advance in Hadv.
  destruct p as [[h|] [|w ws] fl wt]; cbn [p_log p_writes p_flushes p_waiting] in *.
  - injection Hadv as <- <- <-. split; [|left; split; [done|intros k; apply item_log_half]].
    split; simpl; [done|done|intros [[? [=]]|[]]; done].
  - injection Hadv as <- <- <-. split; [|left; split; [done|intros k; apply item_log_half]].
    split; simpl; [done|done|]. intros _. apply Hbusy. by left.
  - destruct fl as [|st fl]; [by destruct wt|].
    destruct wt as [n|]; injection Hadv as <- <- <-; (split; [split; simpl; try done; intros [[? [=]]|[]]; done|]).
    + left. split; [done|]. intros k. apply item_flush_store.
    + by left.
  - assert (write_ok w /\ write_key w ∈ footprint (buffer tx)) as [Hok Hkey].
    { destruct Hws as [pre Hws]. pose proof (tx_ok_writes _ (buffers_ok tx)) as Hall. unfold footprint.
      rewrite Hws in *. apply Forall_app in Hall as [_ Hall]. split; [by apply Forall_inv in Hall|].
      rewrite map_app. apply elem_of_app; right. apply list_elem_of_here. }
    destruct (memory_half tx w db) as [h db1] eqn:Hmem. injection Hadv as <- <- <-. split.
    + split; simpl.
      * destruct Hws as [pre Hws]. exists (pre ++ [w]). by rewrite <-app_assoc.
      * intros h' ->. destruct w; simpl in *; simplify_eq; by split.
      * intros _. apply Hbusy. by right.
    + right. exists w. split; [done|]. intros k. rewrite <-(item_memory_half tx w db k Hok). by rewrite Hmem.
Qed.

(** A step that leaves the commits and the items alone. *)
Lemma conc_inv_frame db0 s ths db y :
  conc_inv db0 s -> tx_inv ths ->
  committed_tx_id (manager (c_threads s)) <= committed_tx_id (manager ths) ->
  (forall k, item db k = item (c_db s) k) -> conc_inv db0 (mkConcState ths db y (c_commits s)).
Proof.
  intros [Hths Hsort Hle Hprog Hconf Hser] Hths' Hmono Hit. split; simpl; try done.
  - eapply Forall_impl; [exact Hle|]. simpl. lia.
  - intros k. by rewrite Hit.
Qed.

Lemma conc_inv_publish db0 s ths db y tx :
  conc_inv db0 s -> tx_inv ths -> committed_tx_id (manager (c_threads s)) < tx ->
  committed_tx_id (manager ths) = tx -> (forall k, item db k = item (c_db s) k) ->
  let s' := mkConcState ths db y (c_commits s ++ [(tx, started (buffer tx))]) in
  no_conflicts buffer s' = true -> conc_inv db0 s'.
Proof.
  intros [Hths Hsort Hle Hprog Hconf Hser] Hths' Hlt Htx Hit s' Hconf'. split; try done; simpl.
  - rewrite map_app. apply sorted_snoc; [done|]. eapply Forall_impl; [exact Hle|]. simpl. lia.
  - rewrite map_app. apply Forall_app. split; [|apply Forall_singleton; simpl; lia].
    eapply Forall_impl; [exact Hle|]. simpl. lia.
  - intros i tx' p [Hi|[_ Hi]]%lookup_app_Some; [by apply (Hprog i)|].
    apply list_lookup_singleton_Some in Hi as [_ [= <- <-]]. apply started_ok.
  - intros k. unfold serial. rewrite remaining_app, foldl_app, Hit, Hser. simpl.
    by rewrite item_apply_writes by by apply tx_ok_writes.
Qed.

Lemma conc_inv_advance db0 s i tx p p' db' y' :
  conc_inv db0 s -> c_commits s !! i = Some (tx, p) ->
  advance tx p (c_db s) (c_synced s) = Some (p', db', y') ->
  let s' := mkConcState (c_threads s) db' y' (<[i := (tx, p')]> (c_commits s)) in
  no_conflicts buffer s' = true -> conc_inv db0 s'.
Proof.
  intros [Hths Hsort Hle Hprog Hconf Hser] Hi Hadv s' Hconf'.
  destruct (advance_cases _ _ _ _ _ _ _ (Hprog i tx p Hi) Hadv) as [Hok Hcase].
  pose proof (take_drop_middle _ _ _ Hi) as Hsplit.
  assert (<[i := (tx, p')]> (c_commits s) = take i (c_commits s) ++ (tx, p') :: list.drop (S i) (c_commits s)) as Hins
    by (apply insert_take_drop; by eapply lookup_lt_Some).
  assert (map fst (<[i := (tx, p')]> (c_commits s)) = map fst (c_commits s)) as Hmap
    by (rewrite Hins; rewrite <-Hsplit at 3; by rewrite !map_app).
  split; try done; cbn [c_commits c_threads c_db s']; rewrite ?Hmap; try done.
  - intros j tx' q [(-> & [= <- <-] & _)|[_ Hj]]%list_lookup_insert_Some; [done|by apply (Hprog j)].
  - intros k. pose proof (Hser k) as Hk. rewrite <-Hsplit in Hk.
    rewrite Hins, (serial_same db0 _ _ tx p p'), <-Hk.
    destruct Hcase as [[Hw Hit]|(w & Hw & Hit)]; rewrite Hit.
    + by apply remaining_same.
    + apply (remaining_write k _ _ _ tx p p' w (p_writes p')); [done..|]. intros tx1 p1 Hin Hk1.
      apply list_elem_of_lookup in Hin as [j Hj]. apply lookup_take_Some in Hj as [Hj Hlt].
      assert (write_key w ∈ map write_key (p_writes p)) as Hkw by (rewrite Hw; apply list_elem_of_here).
      pose proof (Hprog i tx p Hi) as Hp. pose proof (Hprog j tx1 p1 Hj) as Hp1.
      assert (j ≠ i) as Hne by lia.
      by eapply (no_conflicts_lookup buffer s j i tx1 p1 tx p (write_key w) Hconf Hj Hi Hne);
        eauto using prog_ok_active, prog_ok_keys.
Qed.

Lemma conc_step_inv db0 s s' : conc_inv db0 s -> conc_step buffer s s' -> conc_inv db0 s'.
Proof.
  intros Hinv (a & -> & Hconf). pose proof (ci_threads _ _ Hinv) as Hths.
  destruct a as [ev| | |i]; cbn [conc_exec] in *.
  - assert (tx_inv (tx_exec (c_threads s) ev)) as Hths'
      by (eapply reachable_inv; [exact Hths|apply tx_exec_step]).
    pose proof (tx_exec_committed (c_threads s) ev Hths) as Hc.
    destruct (publishes (c_threads s) ev) as [tx|].
    + destruct Hc. by apply (conc_inv_publish db0 s).
    + rewrite app_nil_r in *. by apply (conc_inv_frame db0 s).
  - apply (conc_inv_frame db0 s); try done. intros []; try done. unfold item. simpl.
    unfold alloc_id_direct. by destruct (alloc_id_frame (db_nodes (c_db s))) as [-> _].
  - apply (conc_inv_frame db0 s); try done. intros []; try done. unfold item. simpl.
    unfold EdgeStore.alloc_id_direct, EdgeStore.alloc_id. by destruct (edge_free_list _).
  - destruct (c_commits s !! i) as [[tx p]|] eqn:Hi; [|done].
    destruct (advance tx p (c_db s) (c_synced s)) as [[[p' db'] y']|] eqn:Hadv; [|done].
    by eapply conc_inv_advance.
Qed.

Lemma reachable_conc_inv db0 s : rtc (conc_step buffer) (conc_start db0) s -> conc_inv db0 s.
Proof.
  assert (forall s1 s2, rtc (conc_step buffer) s1 s2 -> conc_inv db0 s1 -> conc_inv db0 s2) as Hrun
    by (induction 1; eauto using conc_step_inv).
  intros Hreach. eapply Hrun; [exact Hreach|apply conc_inv_start].
Qed.

Lemma reachable_item db0 s k :
  rtc (conc_step buffer) (conc_start db0) s -> ~ unwritten s k ->
  item (c_db s) k = item (serial buffer db0 (c_commits s)) k.
Proof.
  intros Hreach Hk. rewrite <-(ci_serial _ _ (reachable_conc_inv db0 s Hreach)). symmetry.
  apply remaining_none. intros tx p Hin Hw. apply Hk. by exists tx, p.
Qed.

(** C3: concurrent commits serialise. Threads take tickets, commit and roll
    back in any interleaving, the writes and flushes of published commits
    included; no two commits that are under way at once write the same key. Then
    the commits were published in ticket order, and every node, edge and property
    cell that no commit has yet to write holds what it would hold had the commits
    run one after another in that order. Once all writes are made, the three
    stores have the contents of the serial run. *)
Theorem concurrent_commits_serialize db0 s :
  rtc (conc_step buffer) (conc_start db0) s ->
  let one_by_one := serial buffer db0 (c_commits s) in
  StronglySorted Z.lt (map fst (c_commits s)) /\
  (forall k, ~ unwritten s k -> item (c_db s) k = item one_by_one k) /\
  (Forall (fun c => p_writes c.2 = []) (c_commits s) ->
    db_node_map (c_db s) = db_node_map one_by_one /\ db_edge_map (c_db s) = db_edge_map one_by_one /\
    forall label prop row, 0 <= row ->
      PropStore.get_prop label prop row (db_props (c_db s)) =
      PropStore.get_prop label prop row (db_props one_by_one)).
Proof.
  intros Hreach one_by_one. pose proof (reachable_conc_inv db0 s Hreach) as Hinv.
  split; [apply (ci_sorted _ _ Hinv)|]. split; [intros k; by apply reachable_item|]. intros Hdone.
  assert (forall k, item (c_db s) k = item one_by_one k) as Hall.
  { intros k. apply reachable_item; [done|]. intros (tx & p & Hin & Hk).
    rewrite Forall_forall in Hdone. pose proof (Hdone _ Hin) as Hp. simpl in Hp.
    rewrite Hp in Hk. by apply not_elem_of_nil in Hk. }
  split; [|split].
  - apply map_eq. intros id. pose proof (Hall (KNode id)) as Hid. by injection Hid.
  - apply map_eq. intros id. pose proof (Hall (KEdge id)) as Hid. by injection Hid.
  - intros label prop row Hrow. pose proof (Hall (KCell label prop row)) as Hc. injection Hc as Hc.
    unfold row_of in Hc. rewrite !decide_True in Hc by done. by rewrite !get_prop_cell.
Qed.
End serialize.

(** ** What the logs hold *)

Definition replay_item `{Codec Node} `{Codec Edge} `{Codec (option Value)}
    (k : Key) (rs : list WalRec) : Item :=
  match k with
  | KNode id => INode (foldl apply_val ∅ rs !! id)
  | KEdge id => IEdge (foldl apply_val ∅ rs !! id)
  | KCell label prop row => ICell (row_of label prop row (foldl apply_cell ∅ rs))
  end.

Section logs.
Context {W : Type} `{WalSinkLaws W} `{CodecLaws Node} `{CodecLaws Edge} `{CodecLaws (option Value)}.
Hypothesis serialize_nonempty : forall (v : option Value), serialize v ≠ Some [].
Context (base : StoreName -> list WalRec).
Import Transaction.
Implicit Types (db : Database W) (k : Key) (st : StoreName).

(** All three logs are up, on the records they were opened with. *)
Definition logs_up db : Prop :=
  forall st, exists w, store_log st db = Some w /\ sink_live w /\ sink_base w = MAGIC ++ encode_recs (base st).

(** From its [n]th record on, every prefix of the log gives [k] its value. *)
Definition settled db (n : nat) k : Prop :=
  forall m, (n <= m)%nat ->
    replay_item k (base (store_of k) ++ take m (store_recs (store_of k) db)) = item db k.

Lemma settled_mono db n n' k : settled db n k -> (n <= n')%nat -> settled db n' k.
Proof. intros Hs Hn m Hm. apply Hs. lia. Qed.

(** Steps that do not concern [k]. *)
Definition leaves_key k db db' : Prop :=
  item db' k = item db k /\
  (length (store_recs (store_of k) db) <= length (store_recs (store_of k) db'))%nat /\
  forall m, replay_item k (base (store_of k) ++ take m (store_recs (store_of k) db')) =
            replay_item k (base (store_of k) ++ take m (store_recs (store_of k) db)).

Lemma settled_leaves k db db' n : leaves_key k db db' -> settled db n k -> settled db' n k.
Proof. intros (Hit & _ & Hrep) Hs m Hm. rewrite Hit, Hrep. by apply Hs. Qed.

(** A step on the log of [st] alone, and one that sends nothing. *)
Definition sends st r db db' : Prop :=
  store_recs st db' = store_recs st db ++ [r] /\
  forall st', st' ≠ st -> store_recs st' db' = store_recs st' db.

Definition same_logs db db' : Prop := forall st, store_log st db' = store_log st db.

Lemma same_logs_recs db db' st : same_logs db db' -> store_recs st db' = store_recs st db.
Proof. unfold store_recs. by intros ->. Qed.

Lemma same_logs_up db db' : same_logs db db' -> logs_up db -> logs_up db'.
Proof. intros Hs Hup st. rewrite Hs. apply Hup. Qed.

Lemma same_logs_leaves k db db' : same_logs db db' -> item db' k = item db k -> leaves_key k db db'.
Proof. intros Hs Hit. split; [done|]. by rewrite !(same_logs_recs db db' _ Hs). Qed.

Lemma take_snoc {A} m (l : list A) x :
  take m (l ++ [x]) = if decide (m <= length l)%nat then take m l else l ++ [x].
Proof.
  case_decide; [by apply take_app_le|]. rewrite take_ge; [done|]. rewrite length_app. simpl. lia.
Qed.

Lemma sends_leaves k st r db db' :
  sends st r db db' -> item db' k = item db k ->
  (store_of k = st -> forall rs, replay_item k (rs ++ [r]) = replay_item k rs) -> leaves_key k db db'.
Proof.
  intros [Hr Hother] Hit Hrep. split; [done|]. destruct (decide (store_of k = st)) as [Hst|Hne].
  - rewrite Hst, Hr, length_app. split; [lia|]. intros m. rewrite take_snoc.
    case_decide; [done|]. rewrite app_assoc, Hrep by done. by rewrite take_ge by lia.
  - by rewrite !(Hother _ Hne).
Qed.

Lemma sends_settled k st r db db' :
  sends st r db db' -> store_of k = st ->
  (forall rs, replay_item k (rs ++ [r]) = item db' k) ->
  settled db' (length (store_recs st db')) k.
Proof.
  intros [Hr _] Hst Hrep m Hm. rewrite Hst, take_ge by done. by rewrite Hr, app_assoc, Hrep.
Qed.

(** The record of a half gives its key the value of the half, and says nothing
    of other keys. *)
Lemma log_half_record h db :
  logs_up db -> half_ok h ->
  exists id data,
    (forall w, store_log (store_of (half_key h)) db = Some w ->
      store_log (store_of (half_key h)) (log_half h db) = Some (sink_insert id data w)) /\
    (forall st, st ≠ store_of (half_key h) -> store_log st (log_half h db) = store_log st db) /\
    forall k rs, store_of k = store_of (half_key h) ->
      replay_item k (rs ++ [mkRec 1 id data]) =
      if decide (k = half_key h) then half_item h else replay_item k rs.
Proof.
  intros Hup Hok. destruct h as [id n|id e|label prop row v]; cbn [half_key store_of half_item log_half] in *.
  - destruct (serialize_total n) as [data Hd]. exists id, data. split; [|split].
    + intros w Hw. unfold store_log, db_node_log in *. simpl. unfold NodeStore.wal_insert. by rewrite Hw, Hd.
    + by intros [].
    + intros [id'| |] rs; try done. intros _. unfold replay_item. rewrite foldl_app. simpl.
      unfold apply_val at 1. cbn [r_opcode r_payload r_id Z.eqb Pos.eqb].
      rewrite (deserialize_serialize n data Hd). case_decide as Hk; simplify_eq; f_equal;
        [apply lookup_insert_eq|apply lookup_insert_ne; congruence].
  - destruct (serialize_total e) as [data Hd]. exists id, data. split; [|split].
    + intros w Hw. unfold store_log, db_edge_log in *. simpl. unfold EdgeStore.wal_insert. by rewrite Hw, Hd.
    + by intros [].
    + intros [|id'|] rs; try done. intros _. unfold replay_item. rewrite foldl_app. simpl.
      unfold apply_val at 1. cbn [r_opcode r_payload r_id Z.eqb Pos.eqb].
      rewrite (deserialize_serialize e data Hd). case_decide as Hk; simplify_eq; f_equal;
        [apply lookup_insert_eq|apply lookup_insert_ne; congruence].
  - destruct Hok as (Hl & Hr & Hn & Hu). destruct (serialize_total v) as [data Hd].
    exists label, (encode_cell label prop row data). split; [|split].
    + intros w Hw. unfold store_log, db_prop_log in *. simpl. unfold PropStore.wal_send_cell.
      by rewrite Hw, Hd.
    + by intros [].
    + intros [| |l p r] rs; try done. intros _. unfold replay_item. rewrite foldl_app. simpl.
      unfold apply_cell at 1. cbn [r_opcode r_payload Z.eqb Pos.eqb].
      rewrite (decode_encode_cell serialize_nonempty label prop row v data) by done.
      rewrite row_of_write by lia. f_equal. case_decide as Hk.
      * destruct Hk as [_ [= -> -> ->]]. by rewrite decide_True.
      * case_decide as Hk'; [|done]. injection Hk' as -> -> ->. destruct Hk. split; [lia|done].
Qed.

Lemma log_half_spec h db :
  logs_up db -> half_ok h ->
  logs_up (log_half h db) /\
  exists r, sends (store_of (half_key h)) r db (log_half h db) /\
    forall k rs, store_of k = store_of (half_key h) ->
      replay_item k (rs ++ [r]) = if decide (k = half_key h) then half_item h else replay_item k rs.
Proof.
  intros Hup Hok. destruct (log_half_record h db Hup Hok) as (id & data & Hlog & Hother & Hrep).
  destruct (Hup (store_of (half_key h))) as (w & Hw & Hl & Hb).
  destruct (sink_insert_extends w id data Hl) as (Hl' & Hb' & Hr'). split.
  - intros st. destruct (decide (st = store_of (half_key h))) as [->|Hne].
    + exists (sink_insert id data w). split; [by apply Hlog|]. by rewrite Hb'.
    + rewrite Hother by done. apply Hup.
  - exists (mkRec 1 id data). split; [|done]. split.
    + unfold store_recs. by rewrite (Hlog w Hw), Hw.
    + intros st Hne. unfold store_recs. by rewrite Hother.
Qed.
(** A change of the memory that a half records. *)
Definition puts h db db' : Prop :=
  same_logs db db' /\
  forall k, item db' k = if decide (k = half_key h) then half_item h else item db k.

Lemma puts_node id n s' db :
  wal s' = wal (db_nodes db) -> nodes s' = <[id := n]> (nodes (db_nodes db)) ->
  puts (HNode id n) db (set_nodes s' db).
Proof.
  intros Hw Hn. split; [by intros []|]. intros [id'| |]; try done. simpl. rewrite Hn.
  case_decide as Hk; [injection Hk as ->; f_equal; apply lookup_insert_eq|].
  f_equal. apply lookup_insert_ne. congruence.
Qed.

Lemma puts_edge id e s' db :
  edge_wal s' = edge_wal (db_edges db) -> edges s' = <[id := e]> (edges (db_edges db)) ->
  puts (HEdge id e) db (set_edges s' db).
Proof.
  intros Hw Hn. split; [by intros []|]. intros [|id'|]; try done. simpl. rewrite Hn.
  case_decide as Hk; [injection Hk as ->; f_equal; apply lookup_insert_eq|].
  f_equal. apply lookup_insert_ne. congruence.
Qed.

Lemma puts_cell label prop row v s' db :
  0 <= row -> prop_wal s' = prop_wal (db_props db) ->
  columns s' = write_cell label prop row v (columns (db_props db)) ->
  puts (HCell label prop row v) db (set_props s' db).
Proof.
  intros Hrow Hw Hn. split; [by intros []|]. intros [| |l p r]; try done. simpl.
  rewrite Hn, row_of_write by done. f_equal. case_decide as Hk.
  - destruct Hk as [_ [= -> -> ->]]. by rewrite decide_True.
  - case_decide as Hk'; [|done]. injection Hk' as -> -> ->. by destruct Hk.
Qed.

(** A write changes the memory and owes the record, or has sent it, or finds
    nothing to change. *)
Lemma memory_half_cases tx w db o db' :
  write_ok w -> memory_half tx w db = (o, db') ->
  (exists h, o = Some h /\ half_key h = write_key w /\ half_ok h /\ puts h db db') \/
  (o = None /\ exists h db1, half_key h = write_key w /\ half_ok h /\ puts h db db1 /\ db' = log_half h db1) \/
  (o = None /\ db' = db).
Proof.
  intros Hok Hmem.
  destruct w as [id labels row|id labels|id|id src dst etype row|id|label prop row v];
    injection Hmem as <- <-.
  - left. eexists. split; [done|]. do 2 (split; [done|]). by apply puts_node.
  - right. cbn [apply_write]. unfold update_labels, update_node.
    destruct (nodes (db_nodes db) !! id) as [n|]; [left|right; split; [done|by destruct db]].
    split; [done|]. eexists (HNode id _), (set_nodes (NodeStore.set_nodes (<[id := _]> (nodes (db_nodes db))) (db_nodes db)) db).
    do 2 (split; [done|]). apply and_comm. split; [reflexivity|by apply puts_node].
  - right. cbn [apply_write]. unfold soft_delete, update_node.
    destruct (nodes (db_nodes db) !! id) as [n|]; [left|right; split; [done|by destruct db]].
    split; [done|]. eexists (HNode id _), (set_nodes (NodeStore.set_nodes (<[id := _]> (nodes (db_nodes db))) (db_nodes db)) db).
    do 2 (split; [done|]). apply and_comm. split; [reflexivity|by apply puts_node].
  - left. eexists. split; [done|]. do 2 (split; [done|]). by apply puts_edge.
  - right. cbn [apply_write]. unfold EdgeStore.soft_delete.
    destruct (edges (db_edges db) !! id) as [e|]; [left|right; split; [done|by destruct db]].
    split; [done|]. eexists (HEdge id _), (set_edges (EdgeStore.set_edges (<[id := _]> (edges (db_edges db))) (db_edges db)) db).
    do 2 (split; [done|]). apply and_comm. split; [reflexivity|by apply puts_edge].
  - left. eexists. split; [done|]. do 2 (split; [done|]). apply puts_cell; [|done..].
    by destruct Hok as (_ & [? _] & _).
Qed.

(** ** The invariant of the logs *)

Context (buffer : Z -> Transaction) (buffers_ok : forall tx, tx_ok (buffer tx)).
Implicit Types (s : ConcState W) (p : Progress) (c : list (Z * Progress)).

(** Nobody owes the log a record of [k]. *)
Definition nothing_owed c k : Prop :=
  forall i tx p h, c !! i = Some (tx, p) -> p_log p = Some h -> half_key h ≠ k.

Record log_inv s : Prop := {
  li_up : logs_up (c_db s);
  li_owed i tx p h :
    c_commits s !! i = Some (tx, p) -> p_log p = Some h -> item (c_db s) (half_key h) = half_item h;
  li_sent k :
    nothing_owed (c_commits s) k ->
    settled (c_db s) (length (store_recs (store_of k) (c_db s))) k;
  li_waiting i tx p fl n k :
    c_commits s !! i = Some (tx, p) -> p_flushes p = store_of k :: fl -> p_waiting p = Some n ->
    k ∈ footprint (buffer tx) -> settled (c_db s) n k;
  li_flushed k :
    ~ unsettled buffer s k -> settled (c_db s) (c_synced s (store_of k)) k
}.

Lemma sent_leaves k db db' :
  leaves_key k db db' -> settled db (length (store_recs (store_of k) db)) k ->
  settled db' (length (store_recs (store_of k) db')) k.
Proof.
  intros Hl Hs. apply (settled_mono db' (length (store_recs (store_of k) db))); [|apply Hl].
  by apply (settled_leaves k db).
Qed.

(** A step that is about no key, and may publish a commit. *)
Lemma log_inv_frame s ths db extra :
  log_inv s -> same_logs (c_db s) db -> (forall k, item db k = item (c_db s) k) ->
  Forall (fun tp => p_log tp.2 = None /\ p_waiting tp.2 = None) extra ->
  log_inv (mkConcState ths db (c_synced s) (c_commits s ++ extra)).
Proof.
  intros [Hup Howed Hsent Hwait Hfl] Hlogs Hit Hextra.
  assert (forall k, leaves_key k (c_db s) db) as Hl by (intros k; by apply same_logs_leaves).
  assert (forall i tx p, (c_commits s ++ extra) !! i = Some (tx, p) ->
    c_commits s !! i = Some (tx, p) \/ (p_log p = None /\ p_waiting p = None)) as Hin.
  { intros i tx p [Hi|[_ Hi]]%lookup_app_Some; [by left|right].
    by apply (Forall_lookup_1 _ _ _ _ Hextra) in Hi. }
  split; cbn [c_db c_commits c_synced].
  - by apply (same_logs_up (c_db s)).
  - intros i tx p h Hi Hh. rewrite Hit. destruct (Hin i tx p Hi) as [Hi'|[Hn _]]; [by eapply Howed|congruence].
  - intros k Hk. apply (sent_leaves k (c_db s)); [apply Hl|]. apply Hsent. intros i tx p h Hi. apply (Hk i tx).
    by apply lookup_app_l_Some.
  - intros i tx p fl n k Hi Hfl' Hn Hk. destruct (Hin i tx p Hi) as [Hi'|[_ Hw]]; [|congruence].
    apply (settled_leaves k (c_db s)); [apply Hl|by eapply Hwait].
  - intros k Hk. apply (settled_leaves k (c_db s)); [apply Hl|]. apply Hfl. intros (tx & p & Hi & Hrest).
    apply Hk. exists tx, p. split; [|done]. apply elem_of_app. by left.
Qed.

(** Where the entries of the list are after an update of one. *)
Lemma insert_entry c i x j y : (<[i := x]> c) !! j = Some y -> (j = i /\ y = x) \/ (j ≠ i /\ c !! j = Some y).
Proof. intros [(-> & -> & _)|[? ?]]%list_lookup_insert_Some; [by left|by right]. Qed.

Lemma entry_insert c i x j y z :
  c !! i = Some z -> c !! j = Some y -> (<[i := x]> c) !! j = Some (if decide (j = i) then x else y).
Proof.
  intros Hi Hj. case_decide as Hji; [subst; apply list_lookup_insert_eq; by eapply lookup_lt_Some|].
  by rewrite list_lookup_insert_ne.
Qed.

(** The flushes that the update of one entry adds to nobody. *)
Lemma unsettled_insert s ths db y i tx p p' k :
  c_commits s !! i = Some (tx, p) ->
  (k ∈ footprint (buffer tx) -> store_of k ∈ p_flushes p -> store_of k ∈ p_flushes p') ->
  unsettled buffer s k ->
  unsettled buffer (mkConcState ths db y (<[i := (tx, p')]> (c_commits s))) k.
Proof.
  intros Hi Hkeep (tx1 & p1 & [j Hj]%list_elem_of_lookup & Hk & Hst).
  pose proof (entry_insert _ i (tx, p') j _ _ Hi Hj) as He. case_decide as Hji.
  - subst j. rewrite Hi in Hj. injection Hj as <- <-. exists tx, p'. split; [by eapply list_elem_of_lookup_2|].
    split; [done|by apply Hkeep].
  - exists tx1, p1. split; [by eapply list_elem_of_lookup_2|done].
Qed.

(** Nobody else that is under way has a key of [tx]'s. *)
Definition alone s i (k : Key) : Prop :=
  forall j tx p, j ≠ i -> c_commits s !! j = Some (tx, p) -> active p = true -> k ∉ footprint (buffer tx).

Lemma conflict_alone db0 s i tx p k :
  conc_inv buffer db0 s -> c_commits s !! i = Some (tx, p) -> active p = true ->
  k ∈ footprint (buffer tx) -> alone s i k.
Proof.
  intros Hinv Hi Ha Hk j tx' p' Hne Hj Ha' Hk'.
  by apply (no_conflicts_lookup buffer s j i tx' p' tx p k (ci_conflicts _ _ _ Hinv)).
Qed.

Lemma busy_active p : p_flushes p = [NodesLog; EdgesLog; PropsLog] -> active p = true.
Proof. unfold active. by intros ->. Qed.

(** Nobody else owes a record of a key of a commit under way. *)
Lemma owed_alone db0 s i j tx p h k :
  conc_inv buffer db0 s -> alone s i k -> j ≠ i ->
  c_commits s !! j = Some (tx, p) -> p_log p = Some h -> half_key h ≠ k.
Proof.
  intros Hinv Halone Hne Hj Hh <-. destruct (ci_progress _ _ _ Hinv j tx p Hj) as [_ Hlog Hbusy].
  destruct Hbusy as [Hfl _]; [left; eauto|]. destruct (Hlog h Hh) as [Hk _].
  by apply (Halone j tx p Hne Hj (busy_active p Hfl)).
Qed.

(** A step of one commit on one of its keys, [k0]: it owes the record of what it
    put there, or the log has it. *)
Lemma log_inv_touch db0 s i tx p p' db' k0 :
  conc_inv buffer db0 s -> log_inv s -> c_commits s !! i = Some (tx, p) ->
  p_flushes p = [NodesLog; EdgesLog; PropsLog] -> p_flushes p' = p_flushes p -> p_waiting p' = None ->
  k0 ∈ footprint (buffer tx) -> logs_up db' -> (forall k, k ≠ k0 -> leaves_key k (c_db s) db') ->
  (forall h, p_log p = Some h -> half_key h = k0) ->
  match p_log p' with
  | Some h => half_key h = k0 /\ item db' k0 = half_item h
  | None => settled db' (length (store_recs (store_of k0) db')) k0
  end ->
  log_inv (mkConcState (c_threads s) db' (c_synced s) (<[i := (tx, p')]> (c_commits s))).
Proof.
  intros Hinv [Hup Howed Hsent Hwait Hfl] Hi Hpf Hpf' Hpw' Hk0 Hup' Hleaves Hown Hput.
  pose proof (conflict_alone _ _ _ _ _ _ Hinv Hi (busy_active p Hpf) Hk0) as Halone.
  split; cbn [c_db c_commits c_synced]; [done|..].
  - intros j tx1 p1 h [[-> [= -> ->]]|[Hne Hj]]%insert_entry Hh.
    + rewrite Hh in Hput. by destruct Hput as [-> ->].
    + rewrite (proj1 (Hleaves _ (owed_alone _ _ _ _ _ _ _ _ Hinv Halone Hne Hj Hh))). by eapply Howed.
  - intros k Hk. destruct (decide (k = k0)) as [->|Hne].
    + destruct (p_log p') as [h|] eqn:Hp'; [|done]. destruct Hput as [Hh _].
      destruct (Hk i tx p' h); [apply list_lookup_insert_eq; by eapply lookup_lt_Some|done|done].
    + apply (sent_leaves k (c_db s)); [by apply Hleaves|]. apply Hsent. intros j tx1 p1 h Hj Hh.
      destruct (decide (j = i)) as [->|Hji].
      * rewrite Hi in Hj. injection Hj as <- <-. rewrite (Hown h Hh). congruence.
      * apply (Hk j tx1 p1); [by rewrite list_lookup_insert_ne|done].
  - intros j tx1 p1 fl n k [[-> [= -> ->]]|[Hne Hj]]%insert_entry Hf Hn Hk; [congruence|].
    apply (settled_leaves k (c_db s)); [|by eapply Hwait]. apply Hleaves. intros ->.
    apply (Halone j tx1 p1 Hne Hj); [unfold active; by rewrite Hf|done].
  - intros k Hk. destruct (decide (k = k0)) as [->|Hne].
    + destruct Hk. exists tx, p'. split.
      * apply (list_elem_of_lookup_2 _ i). apply list_lookup_insert_eq. by eapply lookup_lt_Some.
      * split; [done|]. rewrite Hpf', Hpf. destruct (store_of k0); set_solver.
    + apply (settled_leaves k (c_db s)); [by apply Hleaves|]. apply Hfl. intros Hu. apply Hk.
      apply (unsettled_insert s _ _ _ i tx p p'); [done| |done]. by rewrite Hpf'.
Qed.

(** The request of a flush. *)
Lemma log_inv_request db0 s i tx p st fl :
  conc_inv buffer db0 s -> log_inv s -> c_commits s !! i = Some (tx, p) -> p_flushes p = st :: fl ->
  p_log p = None ->
  log_inv (mkConcState (c_threads s) (c_db s) (c_synced s)
    (<[i := (tx, mkProgress None [] (st :: fl) (Some (length (store_recs st (c_db s)))))]> (c_commits s))).
Proof.
  intros Hinv [Hup Howed Hsent Hwait Hfl] Hi Hpf Hpl.
  split; cbn [c_db c_commits c_synced]; [done|..].
  - intros j tx1 p1 h [[-> [= -> ->]]|[Hne Hj]]%insert_entry Hh; [done|by eapply Howed].
  - intros k Hk. apply Hsent. intros j tx1 p1 h Hj Hh. destruct (decide (j = i)) as [->|Hji]; [congruence|].
    apply (Hk j tx1 p1); [by rewrite list_lookup_insert_ne|done].
  - intros j tx1 p1 fl1 n k [[-> [= -> ->]]|[Hne Hj]]%insert_entry Hf Hn Hk; [|by eapply Hwait].
    simpl in Hf, Hn. injection Hf as -> ->. injection Hn as <-. apply Hsent. intros j tx1 p1 h Hj Hh.
    destruct (decide (j = i)) as [->|Hji]; [congruence|].
    assert (active p = true) as Ha by (unfold active; by rewrite Hpf).
    by apply (owed_alone _ _ _ _ _ _ _ _ Hinv (conflict_alone _ _ _ _ _ _ Hinv Hi Ha Hk) Hji Hj).
  - intros k Hk. apply Hfl. intros Hu. apply Hk.
    apply (unsettled_insert s _ _ _ i tx p); [done| |done]. by rewrite Hpf.
Qed.

(** Its return. *)
Lemma log_inv_return s i tx p st fl n db' :
  log_inv s -> c_commits s !! i = Some (tx, p) -> p_flushes p = st :: fl ->
  p_log p = None -> p_waiting p = Some n -> logs_up db' -> (forall k, leaves_key k (c_db s) db') ->
  log_inv (mkConcState (c_threads s) db' (raise st n (c_synced s))
    (<[i := (tx, mkProgress None [] fl None)]> (c_commits s))).
Proof.
  intros [Hup Howed Hsent Hwait Hfl] Hi Hpf Hpl Hpw Hup' Hl.
  split; cbn [c_db c_commits c_synced]; [done|..].
  - intros j tx1 p1 h [[-> [= -> ->]]|[Hne Hj]]%insert_entry Hh; [done|].
    rewrite (proj1 (Hl _)). by eapply Howed.
  - intros k Hk. apply (sent_leaves k (c_db s)); [apply Hl|]. apply Hsent. intros j tx1 p1 h Hj Hh.
    destruct (decide (j = i)) as [->|Hji]; [congruence|].
    apply (Hk j tx1 p1); [by rewrite list_lookup_insert_ne|done].
  - intros j tx1 p1 fl1 n1 k [[-> [= -> ->]]|[Hne Hj]]%insert_entry Hf Hn Hk; [done|].
    apply (settled_leaves k (c_db s)); [apply Hl|by eapply Hwait].
  - intros k Hk. apply (settled_leaves k (c_db s)); [apply Hl|]. unfold raise.
    assert (k ∈ footprint (buffer tx) /\ store_of k = st \/ settled (c_db s) (c_synced s (store_of k)) k) as Hcase.
    { destruct (decide (k ∈ footprint (buffer tx) /\ store_of k = st)) as [|Hno]; [by left|right].
      apply Hfl. intros Hu. apply Hk. apply (unsettled_insert s _ _ _ i tx p); [done| |done].
      rewrite Hpf. intros Hkt [Heq|?]%elem_of_cons; [by destruct Hno|done]. }
    destruct Hcase as [[Hkt Hst]|Hs].
    + rewrite decide_True by done. apply (settled_mono _ n); [|lia].
      apply (Hwait i tx p fl n k); [done|by rewrite Hst|done|done].
    + case_decide as Hst; [|done]. eapply settled_mono; [exact Hs|]. rewrite Hst. lia.
Qed.

Lemma flush_store_logs st db :
  (forall w, store_log st db = Some w -> store_log st (flush_store st db) = Some (sink_flush w)) /\
  forall st', st' ≠ st -> store_log st' (flush_store st db) = store_log st' db.
Proof.
  split; [|by destruct st; intros []]. intros w. destruct st; unfold store_log; simpl.
  - unfold db_node_log. simpl. unfold flush. by intros ->.
  - unfold db_edge_log. simpl. unfold EdgeStore.flush. by intros ->.
  - unfold db_prop_log. simpl. unfold PropStore.flush. by intros ->.
Qed.

Lemma flush_store_up st db :
  logs_up db -> logs_up (flush_store st db) /\
  forall st', store_recs st' (flush_store st db) = store_recs st' db.
Proof.
  intros Hup. destruct (flush_store_logs st db) as [Hst Hother]. destruct (Hup st) as (w & Hw & Hl & Hb).
  destruct (sink_flush_extends w Hl) as (Hl' & Hb' & Hr'). rewrite app_nil_r in Hr'.
  split; intros st'; (destruct (decide (st' = st)) as [->|Hne]; [|unfold store_recs; rewrite Hother by done]).
  - exists (sink_flush w). by rewrite (Hst w Hw), Hb'.
  - apply Hup.
  - unfold store_recs. by rewrite (Hst w Hw), Hw.
  - done.
Qed.

Lemma flush_store_leaves st db k : logs_up db -> leaves_key k db (flush_store st db).
Proof.
  intros [_ Hr]%(flush_store_up st). split; [apply item_flush_store|]. by rewrite Hr.
Qed.

Lemma log_half_leaves h db k :
  logs_up db -> half_ok h -> k ≠ half_key h -> leaves_key k db (log_half h db).
Proof.
  intros Hup Hok Hk. destruct (log_half_spec h db Hup Hok) as (_ & r & Hsend & Hrep).
  apply (sends_leaves k _ r db _ Hsend); [apply item_log_half|]. intros Hst rs. rewrite (Hrep k rs Hst).
  by rewrite decide_False.
Qed.

Lemma log_half_settled h db :
  logs_up db -> half_ok h -> item db (half_key h) = half_item h ->
  settled (log_half h db) (length (store_recs (store_of (half_key h)) (log_half h db))) (half_key h).
Proof.
  intros Hup Hok Hit. destruct (log_half_spec h db Hup Hok) as (_ & r & Hsend & Hrep).
  apply (sends_settled _ _ r db _ Hsend); [done|]. intros rs.
  by rewrite (Hrep _ rs eq_refl), item_log_half, decide_True.
Qed.

Lemma puts_leaves h db db' k : puts h db db' -> k ≠ half_key h -> leaves_key k db db'.
Proof. intros [Hl Hit] Hk. apply same_logs_leaves; [done|]. by rewrite Hit, decide_False. Qed.

Lemma leaves_trans k db1 db2 db3 : leaves_key k db1 db2 -> leaves_key k db2 db3 -> leaves_key k db1 db3.
Proof.
  intros (Hi1 & Hl1 & Hr1) (Hi2 & Hl2 & Hr2). split; [congruence|]. split; [lia|]. intros m. by rewrite Hr2.
Qed.

(** A write of a commit whose last record is sent. *)
Lemma write_touches db0 s i tx p w o db' :
  conc_inv buffer db0 s -> log_inv s -> c_commits s !! i = Some (tx, p) -> active p = true ->
  p_log p = None -> write_ok w -> write_key w ∈ footprint (buffer tx) ->
  memory_half tx w (c_db s) = (o, db') ->
  logs_up db' /\ (forall k, k ≠ write_key w -> leaves_key k (c_db s) db') /\
  match o with
  | Some h => half_key h = write_key w /\ item db' (write_key w) = half_item h
  | None => settled db' (length (store_recs (store_of (write_key w)) db')) (write_key w)
  end.
Proof.
  intros Hinv Hlog Hi Ha Hpl Hok Hk Hmem. pose proof (li_up s Hlog) as Hup.
  destruct (memory_half_cases tx w (c_db s) o db' Hok Hmem)
    as [(h & -> & <- & Hh & Hputs)|[(-> & h & db1 & <- & Hh & Hputs & ->)|[-> ->]]].
  - pose proof Hputs as [Hl Hit]. split; [by apply (same_logs_up (c_db s))|].
    split; [intros k; by apply puts_leaves|]. by rewrite Hit, decide_True.
  - pose proof Hputs as [Hl Hit]. assert (logs_up db1) as Hup1 by by apply (same_logs_up (c_db s)).
    split; [by apply log_half_spec|]. split.
    + intros k Hne. apply (leaves_trans k _ db1); [by apply (puts_leaves h)|by apply log_half_leaves].
    + apply log_half_settled; [done|done|]. by rewrite Hit, decide_True.
  - split; [done|]. split; [intros k _; by apply same_logs_leaves|]. apply (li_sent s Hlog).
    intros j tx1 p1 h Hj Hh. destruct (decide (j = i)) as [->|Hne]; [congruence|].
    by apply (owed_alone _ _ _ _ _ _ _ _ Hinv (conflict_alone _ _ _ _ _ _ Hinv Hi Ha Hk) Hne Hj).
Qed.

Lemma log_inv_advance db0 s i tx p p' db' y' :
  conc_inv buffer db0 s -> log_inv s -> c_commits s !! i = Some (tx, p) ->
  advance tx p (c_db s) (c_synced s) = Some (p', db', y') ->
  log_inv (mkConcState (c_threads s) db' y' (<[i := (tx, p')]> (c_commits s))).
Proof.
  intros Hinv Hlog Hi Hadv. pose proof (ci_progress _ _ _ Hinv i tx p Hi) as Hp.
  destruct (advance_cases buffer buffers_ok tx p _ _ p' db' y' Hp Hadv) as [Hp' _].
  pose proof (li_up s Hlog) as Hup. destruct p as [[h|] ws fl wt].
  - destruct Hp as [_ Hh Hbusy]. destruct (Hh h eq_refl) as [Hk Hok].
    destruct Hbusy as [Hfl Hwt]; [left; eauto|]. cbn [p_flushes p_waiting] in Hfl, Hwt. subst fl wt.
    assert (Some (mkProgress None ws [NodesLog; EdgesLog; PropsLog] None, log_half h (c_db s), c_synced s) =
      Some (p', db', y')) as [= <- <- <-] by (rewrite <-Hadv; by destruct ws).
    apply (log_inv_touch db0 s i tx _ _ _ (half_key h) Hinv Hlog Hi); try done.
    + by apply log_half_spec.
    + intros k Hne. by apply log_half_leaves.
    + by intros h' [= <-].
    + apply log_half_settled; [done|done|]. by apply (li_owed s Hlog i tx _ h Hi).
  - destruct ws as [|w ws].
    + destruct fl as [|st fl]; [by destruct wt|]. destruct wt as [n|]; injection Hadv as <- <- <-.
      * apply (log_inv_return s i tx _ st fl n _ Hlog Hi); try done; [by apply flush_store_up|].
        intros k. by apply flush_store_leaves.
      * by apply (log_inv_request db0 s i tx _ st fl Hinv Hlog Hi).
    + destruct Hp as [[pre Hpre] _ Hbusy]. destruct Hbusy as [Hfl Hwt]; [by right|].
      cbn [p_flushes p_waiting p_writes] in *. subst fl wt.
      assert (write_ok w /\ write_key w ∈ footprint (buffer tx)) as [Hok Hk].
      { pose proof (tx_ok_writes _ (buffers_ok tx)) as Hall. unfold footprint. rewrite Hpre in *.
        apply Forall_app in Hall as [_ Hall]. split; [by apply Forall_inv in Hall|].
        rewrite map_app. apply elem_of_app; right. apply list_elem_of_here. }
      cbn [advance p_log p_writes p_flushes p_waiting] in Hadv.
      destruct (memory_half tx w (c_db s)) as [o db1] eqn:Hmem. injection Hadv as <- <- <-.
      assert (logs_up db1 /\ (forall k, k ≠ write_key w -> leaves_key k (c_db s) db1) /\
        match o with
        | Some h => half_key h = write_key w /\ item db1 (write_key w) = half_item h
        | None => settled db1 (length (store_recs (store_of (write_key w)) db1)) (write_key w)
        end) as (Hup1 & Hl1 & Hput).
      { apply (write_touches db0 s i tx (mkProgress None (w :: ws) [NodesLog; EdgesLog; PropsLog] None) w o db1); done. }
      by apply (log_inv_touch db0 s i tx (mkProgress None (w :: ws) [NodesLog; EdgesLog; PropsLog] None) _ _ (write_key w) Hinv Hlog Hi).
Qed.

Lemma log_inv_step db0 s s' :
  conc_inv buffer db0 s -> log_inv s -> conc_step buffer s s' -> log_inv s'.
Proof.
  intros Hinv Hlog (a & -> & _). destruct a as [ev| | |i]; cbn [conc_exec].
  - apply (log_inv_frame s); try done. destruct (publishes _ _); [|constructor].
    by apply Forall_singleton.
  - rewrite <-(app_nil_r (c_commits s)). apply (log_inv_frame s); [done| | |constructor].
    + intros []; try done. unfold store_log, db_node_log. simpl. unfold alloc_id_direct.
      by destruct (alloc_id_frame (db_nodes (c_db s))) as [_ ->].
    + intros []; try done. unfold item. simpl. unfold alloc_id_direct.
      by destruct (alloc_id_frame (db_nodes (c_db s))) as [-> _].
  - rewrite <-(app_nil_r (c_commits s)). apply (log_inv_frame s); [done| | |constructor].
    + intros []; try done. unfold store_log, db_edge_log. simpl.
      unfold EdgeStore.alloc_id_direct, EdgeStore.alloc_id. by destruct (edge_free_list _).
    + intros []; try done. unfold item. simpl.
      unfold EdgeStore.alloc_id_direct, EdgeStore.alloc_id. by destruct (edge_free_list _).
  - destruct (c_commits s !! i) as [[tx p]|] eqn:Hi; [|done].
    destruct (advance tx p (c_db s) (c_synced s)) as [[[p' db'] y']|] eqn:Hadv; [|done].
    by eapply log_inv_advance.
Qed.

Lemma reachable_log_inv db0 s :
  log_inv (conc_start db0) -> rtc (conc_step buffer) (conc_start db0) s -> log_inv s.
Proof.
  assert (forall s1 s2, rtc (conc_step buffer) s1 s2 -> conc_inv buffer db0 s1 -> log_inv s1 -> log_inv s2)
    as Hrun by (induction 1; eauto using conc_step_inv, log_inv_step).
  intros Hstart Hreach. eapply Hrun; [exact Hreach|apply conc_inv_start|done].
Qed.

(** ** Opening and crashing *)

Lemma spawned {A} (r : io A) (f : W -> A -> A) cons file x :
  contract_ok (durability cons) (wal_channel_capacity cons) ->
  (let? a := r in let? w := sink_spawn (durability cons) (wal_channel_capacity cons) file in Ok (f w a)) = Ok x ->
  exists w a, x = f w a /\ sink_recs w = [].
Proof.
  intros Hc. destruct r as [a| |]; [|done..]. simpl.
  destruct (sink_spawn _ _ file) as [w| |] eqn:Hw; [|done..]. intros [= <-]. exists w, a.
  by destruct (sink_spawn_live _ _ _ _ Hc Hw) as (_ & _ & Hr & _).
Qed.

Lemma open_start cons file db :
  contract_ok (durability cons) (wal_channel_capacity cons) ->
  (forall st, log_contents (file st) = MAGIC ++ encode_recs (base st) /\ Forall rec_ok (base st)) ->
  Database.open (W := W) cons (file NodesLog) (file EdgesLog) (file PropsLog) = Ok db ->
  log_inv (conc_start db).
Proof.
  intros Hc Hfiles Ho.
  assert (db_on_logs (base NodesLog) (base EdgesLog) (base PropsLog) db) as (Hn & He & Hp).
  { apply (db_open_on_logs cons (file NodesLog) (file EdgesLog) (file PropsLog)); try done;
      [apply Hfiles..|]. rewrite !Forall_app. split; [|split]; apply Hfiles. }
  unfold Database.open in Ho.
  destruct (NodeStore.open cons _) as [n| |] eqn:Hno; [|done..].
  destruct (EdgeStore.open cons _) as [e| |] eqn:Heo; [|done..].
  destruct (PropStore.open cons _) as [q| |] eqn:Hpo; [|done..]. injection Ho as <-.
  destruct (spawned _ (fun w => NodeStore.set_wal (Some w)) _ _ _ Hc Hno) as (w1 & s1 & -> & R1).
  destruct (spawned _ (fun w => EdgeStore.set_wal (Some w)) _ _ _ Hc Heo) as (w2 & s2 & -> & R2).
  destruct (spawned _ (fun w => PropStore.set_wal (Some w)) _ _ _ Hc Hpo) as (w3 & s3 & -> & R3).
  destruct Hn as (? & [= <-] & L1 & B1 & V1), He as (? & [= <-] & L2 & B2 & V2), Hp as (? & [= <-] & L3 & B3 & V3).
  rewrite R1, app_nil_r in V1. rewrite R2, app_nil_r in V2. rewrite R3, app_nil_r in V3.
  assert (forall k n, settled (c_db (conc_start (mkDatabase TxManager.new (NodeStore.set_wal (Some w1) s1)
    (EdgeStore.set_wal (Some w2) s2) (PropStore.set_wal (Some w3) s3)))) n k) as Hset.
  { intros k n m _. destruct k; unfold store_recs; simpl; rewrite ?R1, ?R2, ?R3, take_nil, app_nil_r.
    - by rewrite <-V1.
    - by rewrite <-V2.
    - by rewrite <-V3. }
  split; cbn [conc_start c_commits]; try done. intros []; eexists; done.
Qed.

(** A file that a crash can leave of a log: at least what was sent before a
    flush that returned. *)
Definition crash_cut s st (bs : bytes) : Prop :=
  Forall rec_ok (base st ++ store_recs st (c_db s)) /\
  MAGIC ++ encode_recs (base st ++ take (c_synced s st) (store_recs st (c_db s))) `prefix_of` bs /\
  bs `prefix_of` MAGIC ++ encode_recs (base st ++ store_recs st (c_db s)).

Lemma crash_cut_reads s st bs :
  crash_cut s st bs ->
  exists rs n j, Forall rec_ok rs /\ bs = MAGIC ++ take n (encode_recs rs) /\
    (cut_recs rs n).1 = base st ++ take (c_synced s st + j) (store_recs st (c_db s)).
Proof.
  intros (Hok & Hlo & Hhi). set (rs := store_recs st (c_db s)) in *. set (y := c_synced s st) in *.
  assert (base st ++ rs = (base st ++ take y rs) ++ list.drop y rs) as Hsplit
    by by rewrite <-app_assoc, take_drop.
  rewrite Hsplit in Hok, Hhi. destruct (cut_after _ _ _ Hlo Hhi) as (n & j & -> & _ & Hcut & _).
  eexists _, n, j. split; [exact Hok|]. split; [done|]. rewrite Hcut. cbn [fst].
  by rewrite <-app_assoc, take_take_drop.
Qed.

Lemma settled_writes s db0 k :
  conc_inv buffer db0 s -> ~ unsettled buffer s k -> ~ unwritten s k.
Proof.
  intros Hinv Hk (tx & p & [i Hi]%list_elem_of_lookup & Hw). apply Hk. exists tx, p.
  pose proof (ci_progress _ _ _ Hinv i tx p Hi) as Hp. split; [by eapply list_elem_of_lookup_2|].
  split; [by apply (prog_ok_keys _ p)|]. destruct (po_busy _ _ Hp) as [-> _].
  - right. intros Hnil. rewrite Hnil in Hw. by apply not_elem_of_nil in Hw.
  - destruct (store_of k); set_solver.
Qed.

(** What the recovered maps hold at [k], if the three logs are read up to [m]. *)
Lemma recovered_item s db m k :
  db_node_map db = foldl apply_val ∅ (base NodesLog ++ take (m NodesLog) (store_recs NodesLog (c_db s))) ->
  db_edge_map db = foldl apply_val ∅ (base EdgesLog ++ take (m EdgesLog) (store_recs EdgesLog (c_db s))) ->
  db_columns db = foldl apply_cell ∅ (base PropsLog ++ take (m PropsLog) (store_recs PropsLog (c_db s))) ->
  item db k = replay_item k (base (store_of k) ++ take (m (store_of k)) (store_recs (store_of k) (c_db s))).
Proof. intros Hn He Hp. destruct k; cbn [store_of replay_item]; by rewrite <-?Hn, <-?He, <-?Hp. Qed.

(** C2: concurrent commits are durable. The database is opened from
    well-formed files at a level that fsyncs, and every transaction sets properties only under names of
    less than 256 bytes, labels and rows in the range of their types (longer
    names are not read back, see [long_names_lost]). Threads take tickets, commit
    and roll back in any interleaving of their accesses, no two commits under way
    writing the same key. A crash stops them anywhere and cuts each log anywhere
    past what was sent to it before a flush that returned. Opening the database
    again then fails with the truncation error, or every node, edge and property
    cell that no commit under way is still to flush is there, with the value it
    had in memory: the value it has after the published commits, run one after
    another. So under these conditions the writes of a [commit] that has returned
    are not lost, however it overlapped with others, unless the opening fails. *)
Theorem concurrent_commit_durable cons file db0 s cut :
  contract_ok (durability cons) (wal_channel_capacity cons) ->
  (forall st, log_contents (file st) = MAGIC ++ encode_recs (base st) /\ Forall rec_ok (base st)) ->
  Database.open (W := W) cons (file NodesLog) (file EdgesLog) (file PropsLog) = Ok db0 ->
  rtc (conc_step buffer) (conc_start db0) s -> (forall st, crash_cut s st (cut st)) ->
  let r := Database.open (W := W) cons (Some (cut NodesLog)) (Some (cut EdgesLog)) (Some (cut PropsLog)) in
  r = Err UnexpectedEof \/
  exists db, r = Ok db /\ forall k, ~ unsettled buffer s k ->
    item db k = item (c_db s) k /\ item db k = item (serial buffer db0 (c_commits s)) k.
Proof.
  intros Hc Hfiles Ho Hreach Hcut r.
  pose proof (open_start cons file db0 Hc Hfiles Ho) as Hstart.
  pose proof (reachable_log_inv db0 s Hstart Hreach) as Hlog.
  pose proof (reachable_conc_inv buffer buffers_ok db0 s Hreach) as Hinv.
  destruct (crash_cut_reads s NodesLog _ (Hcut NodesLog)) as (rn & nn & jn & On & Bn & Cn).
  destruct (crash_cut_reads s EdgesLog _ (Hcut EdgesLog)) as (re & ne & je & Oe & Be & Ce).
  destruct (crash_cut_reads s PropsLog _ (Hcut PropsLog)) as (rp & np & jp & Op & Bp & Cp).
  destruct (db_reopen (W := W) cons rn re rp nn ne np Hc On Oe Op) as [[Hbad|Hopen] _].
  { left. unfold r. by rewrite Bn, Be, Bp. }
  right. destruct Hopen as (db & Hdb & _ & Vn & Ve & Vp). exists db. unfold r. rewrite Bn, Be, Bp.
  split; [done|]. intros k Hk. rewrite Cn in Vn. rewrite Ce in Ve. rewrite Cp in Vp.
  assert (item db k = item (c_db s) k) as Hit.
  { rewrite (recovered_item s db (fun st => (c_synced s st +
      match st with NodesLog => jn | EdgesLog => je | PropsLog => jp end)%nat) k Vn Ve Vp).
    apply (li_flushed s Hlog k Hk). lia. }
  split; [done|]. rewrite Hit. apply reachable_item; [done..|]. by apply (settled_writes s db0).
Qed.
End logs.

(** ** A commit that runs alone *)

Section alone.
Context {W : Type} `{WalSink W} `{Codec Node} `{Codec Edge} `{Codec (option Value)}.
Import Transaction.
Implicit Types (db : Database W) (t : Transaction).

Definition advances (tx : Z) (c c' : Progress * Database W * (StoreName -> nat)) : Prop :=
  let '(p, db, y) := c in advance tx p db y = Some c'.

Lemma advances_writes tx db y ws fl :
  rtc (advances tx) (mkProgress None ws fl None, db, y)
    (mkProgress None [] fl None, apply_writes tx db ws, y).
Proof.
  revert db. induction ws as [|w ws IH]; intros db; [done|].
  assert (rtc (advances tx) (mkProgress None (w :: ws) fl None, db, y)
    (mkProgress None ws fl None, apply_write tx db w, y)) as Hw; [|etrans; [exact Hw|apply IH]].
  rewrite <-halves. destruct (memory_half tx w db) as [[h|] db1] eqn:Hm.
  - apply (rtc_l _ _ (mkProgress (Some h) ws fl None, db1, y)); [by cbn [advances advance p_log p_writes]; rewrite Hm|].
    by apply rtc_once.
  - apply rtc_once. by cbn [advances advance p_log p_writes]; rewrite Hm.
Qed.

(** The steps of a commit, with nothing in between, are the second and third
    phases of [Transaction.commit]. *)
Lemma commit_alone t db y :
  exists y', rtc (advances (tx_id t)) (started t, db, y)
    (mkProgress None [] [] None, flush_all (apply_writes (tx_id t) db (tx_writes t)), y').
Proof.
  eexists. etrans; [apply advances_writes|]. do 6 (eapply rtc_l; [reflexivity|]). reflexivity.
Qed.
End alone.

#[export] Instance unsettled_dec {W} buffer (s : ConcState W) k : Decision (unsettled buffer s k).
Proof.
  refine (cast_if (decide (Exists
    (fun c => k ∈ footprint (buffer c.1) /\ store_of k ∈ p_flushes c.2) (c_commits s))));
    rewrite Exists_exists in *.
  - destruct e as ([tx p] & ? & ? & ?). by exists tx, p.
  - intros (tx & p & ? & ? & ?). destruct n. by exists (tx, p).
Defined.

(** ** Schedules *)

Section schedules.
Context {W : Type} `{WalSink W} `{Codec Node} `{Codec Edge} `{Codec (option Value)}.
Implicit Types (s : ConcState W).

Definition conc_run (buffer : Z -> Transaction) s (acts : list Action) : ConcState W :=
  foldl (conc_exec buffer) s acts.

Fixpoint clear (buffer : Z -> Transaction) s (acts : list Action) : bool :=
  match acts with
  | [] => true
  | a :: acts' =>
      let s' := conc_exec buffer s a in no_conflicts buffer s' && clear buffer s' acts'
  end.

Lemma clear_run buffer s acts :
  clear buffer s acts = true -> rtc (conc_step buffer) s (conc_run buffer s acts).
Proof.
  revert s. induction acts as [|a acts IH]; intros s; [done|]. cbn [clear].
  intros [Hc Hrest]%andb_true_iff. apply (rtc_l _ _ (conc_exec buffer s a)); [by exists a|by apply IH].
Qed.
End schedules.

(** Ticket [tx] commits: it loads the counter and stores its ticket. *)
Definition publish (tx : Z) : list Action :=
  [ATicket (EvCommit tx); ATicket (EvRun tx); ATicket (EvRun tx)].

Section witnesses.
#[local] Existing Instances thread_sink thread_sink_laws dur_node_codec dur_edge_codec dur_value_codec
  dur_node_laws dur_edge_laws dur_value_laws.

(** The first transaction creates node 0 and sets a property; the second creates
    node 1, an edge between them, and deletes nothing of the first. *)
Definition conc_buffer (tx : Z) : Transaction :=
  if tx =? 1 then
    Transaction.set_prop 1 prop_age 0 (Some (VInt 30))
      (Transaction.create_node [7] 1 (Database.memory (W := WalThread)) (Transaction.new 1 0 true)).2
  else if tx =? 2 then
    {| tx_id := 2; snapshot := 0; is_write := true; committed := false;
       node_inserts := [(1, [8], 2)]; node_updates := [(1, [9])]; node_deletes := [];
       edge_inserts := [(0, 0, 1, 9, 0)]; edge_deletes := []; prop_writes := [] |}
  else Transaction.new tx 0 true.

Lemma conc_buffers_ok tx : tx_ok (conc_buffer tx).
Proof. unfold conc_buffer. repeat case_match; unfold tx_ok; simpl; repeat constructor; by_decide. Qed.

(** Both are published before either has written; their writes alternate; the
    first returns, the second still owes the record of its edge. *)
Definition conc_schedule : list Action :=
  [ATicket EvBegin; AAllocNode; ATicket EvBegin; AAllocNode; AAllocEdge] ++ publish 1 ++ publish 2 ++
  [AAdvance 1; AAdvance 0; AAdvance 0; AAdvance 1; AAdvance 1; AAdvance 0; AAdvance 0; AAdvance 1] ++
  [AAdvance 0; AAdvance 0; AAdvance 0; AAdvance 0; AAdvance 0; AAdvance 0]%nat.

Definition conc_state : ConcState WalThread := conc_run conc_buffer (conc_start dur_db) conc_schedule.

Lemma conc_reached : rtc (conc_step conc_buffer) (conc_start dur_db) conc_state.
Proof. apply clear_run. by vm_compute. Qed.

Lemma concurrent_commits_serialize_witness :
  db_node_map (c_db conc_state) = db_node_map (serial conc_buffer dur_db (c_commits conc_state)) /\
  map fst (c_commits conc_state) = [1; 2].
Proof.
  destruct (concurrent_commits_serialize conc_buffer conc_buffers_ok dur_db conc_state conc_reached)
    as (_ & _ & Hall). split; [|by vm_compute]. apply Hall. by_decide.
Defined.

(** The crash keeps all of the node and property logs and nothing of the edge's. *)
Definition conc_cut (st : StoreName) : bytes :=
  MAGIC ++ match st with EdgesLog => [] | _ => encode_recs (store_recs st (c_db conc_state)) end.

Lemma conc_cut_ok st : crash_cut (fun _ => []) conc_state st (conc_cut st).
Proof. destruct st; (split; [by apply rec_okb_all; vm_compute|]); split; by_decide. Qed.

Lemma conc_opens :
  opens (Database.open (W := WalThread) balanced (Some (conc_cut NodesLog)) (Some (conc_cut EdgesLog))
    (Some (conc_cut PropsLog))) = true.
Proof. by vm_compute. Qed.

Lemma concurrent_commit_durable_witness :
  exists db,
    Database.open (W := WalThread) balanced (Some (conc_cut NodesLog)) (Some (conc_cut EdgesLog))
      (Some (conc_cut PropsLog)) = Ok db /\
    item db (KNode 0) = INode (Some (Node.new 0 [7] 1 1)) /\
    item db (KCell 1 prop_age 0) = ICell (Some (VInt 30)).
Proof.
  destruct (concurrent_commit_durable value_codec_nonempty (fun _ => []) conc_buffer conc_buffers_ok
    balanced (fun _ => None) dur_db conc_state conc_cut) as [Hbad|(db & Ho & Hitems)];
    [by_decide|done|by vm_compute|exact conc_reached|exact conc_cut_ok| |].
  - pose proof (f_equal opens Hbad) as Hopens. discriminate (eq_trans (eq_sym conc_opens) Hopens).
  - exists db. split; [exact Ho|]. split.
    + destruct (Hitems (KNode 0)) as [Hi _]; [by_decide|]. rewrite Hi. by vm_compute.
    + destruct (Hitems (KCell 1 prop_age 0)) as [Hi _]; [by_decide|]. rewrite Hi. by vm_compute.
Defined.

(** ** What conflicts do *)

Definition finished_commits (s : ConcState WalThread) : bool :=
  forallb (fun c => negb (active c.2)) (c_commits s).

(** Transactions 2 and 3 relabel a node that transaction 1 created. Ticket 3 is
    published after ticket 2 and writes before it: the labels that stay are those
    of transaction 2, although transaction 3 committed later. *)
Definition relabel_buffer (tx : Z) : Transaction :=
  if tx =? 1 then
    (Transaction.create_node [7] 1 (Database.memory (W := WalThread)) (Transaction.new 1 0 true)).2
  else Transaction.update_node_labels 0 [10 + tx] (Transaction.new tx 0 true).

Definition relabel_schedule : list Action :=
  [ATicket EvBegin; AAllocNode; ATicket EvBegin; ATicket EvBegin] ++
  publish 1 ++ replicate 8 (AAdvance 0) ++ publish 2 ++ publish 3 ++
  replicate 7 (AAdvance 2) ++ replicate 7 (AAdvance 1).

Definition relabel_state : ConcState WalThread :=
  conc_run relabel_buffer (conc_start dur_db) relabel_schedule.

Example relabels_out_of_order :
  let s := relabel_state in
  map fst (c_commits s) = [1; 2; 3] /\ finished_commits s = true /\
  Node.labels <$> db_node_map (c_db s) !! 0 = Some [12] /\
  Node.created_tx <$> db_node_map (c_db s) !! 0 = Some 2 /\
  Node.labels <$> db_node_map (serial relabel_buffer dur_db (c_commits s)) !! 0 = Some [13].
Proof. intros s. split_done; by vm_compute. Qed.

(** Two transactions set one cell. Both change the memory, then the records are
    sent the other way round; both commits return. The memory has the second
    value, and after a reopen it is the first. *)
Definition cell_buffer (tx : Z) : Transaction :=
  Transaction.set_prop 1 prop_age 0 (Some (VInt (10 * tx))) (Transaction.new tx 0 true).

Definition cell_schedule : list Action :=
  [ATicket EvBegin; ATicket EvBegin] ++ publish 1 ++ publish 2 ++
  [AAdvance 0; AAdvance 1; AAdvance 1; AAdvance 0] ++
  replicate 6 (AAdvance 0) ++ replicate 6 (AAdvance 1).

Definition cell_state : ConcState WalThread := conc_run cell_buffer (conc_start dur_db) cell_schedule.

Definition reopened (s : ConcState WalThread) : io (Database WalThread) :=
  Database.open balanced (Some (durable_bytes (db_node_log (c_db s))))
    (Some (durable_bytes (db_edge_log (c_db s)))) (Some (durable_bytes (db_prop_log (c_db s)))).

Example cell_log_race :
  finished_commits cell_state = true /\
  PropStore.get_prop 1 prop_age 0 (db_props (c_db cell_state)) = Some (VInt 20) /\
  match reopened cell_state with
  | Ok db => PropStore.get_prop 1 prop_age 0 (db_props db)
  | _ => None
  end = Some (VInt 10).
Proof. split_done; by vm_compute. Qed.

(** Neither run is free of conflicts. *)
Example races_conflict :
  clear relabel_buffer (conc_start dur_db) relabel_schedule = false /\
  clear cell_buffer (conc_start dur_db) cell_schedule = false.
Proof. split; by vm_compute. Qed.
End witnesses.
