(* ===== verification/ConcReads.v ===== *)
(** * Reads next to concurrent commits

    A transaction reads the nodes and edges that are alive in its snapshot while
    other commits write to the same maps. The commits of [Concurrent.v] run here
    without any restriction on what they write; the theorem says which of their
    writes a reader cannot notice. *)

From S2P Require Export Concurrent.

Open Scope Z_scope.

(** ** What a snapshot sees of an entry *)

Section view.
Context {A : Type} `{VersionedLaws A}.
Implicit Types (o : option A) (a : A).

(** The entry, if it is alive in snapshot [r], but for the mark of a later
    deletion. *)
Definition view (r : Z) o : option A :=
  a ← o; if v_alive a r then Some (v_mark_deleted a 0) else None.

(** The entry was there once and is gone in snapshot [r]. *)
Definition buried (r : Z) o : bool :=
  match o with Some a => (v_created a <=? r) && (v_deleted a <=? r) | None => false end.

(** [o] looks to [r] as [o1] does. *)
Definition looks (r : Z) o1 o : Prop := view r o = view r o1 /\ (buried r o = true -> buried r o1 = true).

Lemma looks_refl r o : looks r o o.
Proof. done. Qed.

Lemma view_alive r a : view r (Some a) = if v_alive a r then Some (v_mark_deleted a 0) else None.
Proof. done. Qed.

(** A later creation, where nothing is seen. *)
Lemma looks_created r o1 o a tx :
  r < tx -> v_created a = tx -> view r o1 = None -> looks r o1 o -> looks r o1 (Some a).
Proof.
  intros Hr Ha Hnone _. unfold looks. rewrite Hnone, view_alive. simpl.
  destruct (v_alive a r) eqn:Hal; [apply v_alive_interval in Hal; lia|].
  rewrite (proj2 (Z.leb_gt _ _)) by lia. done.
Qed.

(** A later deletion of what is not gone already. *)
Lemma looks_deleted r o1 o tx :
  (forall a t, v_mark_deleted (v_mark_deleted a t) 0 = v_mark_deleted a 0) ->
  r < tx -> buried r o1 = false -> looks r o1 o -> looks r o1 ((fun a => v_mark_deleted a tx) <$> o).
Proof.
  intros Htwice Hr Hb [Hv Himp]. destruct o as [a|]; [|done].
  assert (buried r (Some a) = false) as Ha by (destruct (buried r (Some a)); [by rewrite Himp in Hb|done]).
  unfold looks. rewrite <-Hv, !view_alive. simpl in *. rewrite v_mark_created, v_mark_deleted_at, Htwice.
  rewrite (proj2 (Z.leb_gt tx r)), andb_false_r by lia. split; [|done].
  pose proof (v_alive_interval a r) as H1. pose proof (v_alive_interval (v_mark_deleted a tx) r) as H2.
  rewrite v_mark_created, v_mark_deleted_at in H2. apply andb_false_iff in Ha.
  rewrite !Z.leb_gt in Ha. destruct (v_alive a r), (v_alive (v_mark_deleted a tx) r); try done; exfalso.
  - assert (false = true) by (apply H2; split; [apply H1; done|lia]). done.
  - assert (false = true) by (apply H1; destruct (proj1 H2 eq_refl); lia). done.
Qed.
End view.

(** ** Reads, key by key *)

Section reads.
Context {W : Type} `{WalSink W} `{Codec Node} `{Codec Edge} `{Codec (option Value)}.
Import Transaction.
Implicit Types (db : Database W) (k : Key) (it : Item) (w : TxWrite) (t : Transaction).

(** What [get_node] and [get_edge] of a transaction return, but for the mark of a
    later deletion; a property cell has no versions. *)
Definition read t k db : Item :=
  match k with
  | KNode id => INode ((fun n => Node.mark_deleted n 0) <$> get_node id db t)
  | KEdge id => IEdge ((fun e => Edge.mark_deleted e 0) <$> get_edge id db t)
  | KCell _ _ _ => item db k
  end.

Definition item_looks (r : Z) it1 it : Prop :=
  match it1, it with
  | INode o1, INode o => looks r o1 o
  | IEdge o1, IEdge o => looks r o1 o
  | ICell v1, ICell v => v = v1
  | _, _ => False
  end.

Lemma read_looks t k db1 db2 :
  item_looks (snapshot t) (item db1 k) (item db2 k) -> read t k db2 = read t k db1.
Proof.
  destruct k as [id|id|l p row]; cbn [item item_looks read]; [| |by intros ->]; intros [Hv _];
    unfold view in Hv; unfold get_node, get_edge, get, EdgeStore.get.
  - f_equal. destruct (nodes (db_nodes db1) !! id) as [n1|], (nodes (db_nodes db2) !! id) as [n2|];
      simpl in Hv; repeat case_match; simpl; congruence.
  - f_equal. destruct (edges (db_edges db1) !! id) as [e1|], (edges (db_edges db2) !! id) as [e2|];
      simpl in Hv; repeat case_match; simpl; congruence.
Qed.

(** What a later commit may write to an entry that snapshot [r] reads as [it]:
    create or relabel what is not seen, delete what is not already gone. *)
Definition permitted (r : Z) it w : bool :=
  match w, it with
  | WDeleteNode _, INode o => negb (buried r o)
  | WDeleteEdge _, IEdge o => negb (buried r o)
  | WInsertNode _ _ _, INode o | WUpdateLabels _ _, INode o => bool_decide (view r o = None)
  | WInsertEdge _ _ _ _ _, IEdge o => bool_decide (view r o = None)
  | _, _ => false
  end.

Lemma effect_looks r tx k it1 it w :
  r < tx -> (write_key w = k -> permitted r it1 w = true) -> item_looks r it1 it ->
  item_looks r it1 (item_effect tx k it w).
Proof.
  intros Hr Hperm Hl. destruct (decide (k = write_key w)) as [->|Hne]; [|by rewrite item_effect_other].
  specialize (Hperm eq_refl).
  destruct it1 as [o1|o1|v1], it as [o|o|v]; try done; destruct w; try done; cbn [permitted] in Hperm;
    cbn [write_key item_effect node_effect edge_effect item_looks] in *; rewrite ?decide_True by done;
    try apply bool_decide_eq_true_1 in Hperm.
  - by eapply (looks_created r o1 o _ tx).
  - destruct o as [n|]; [|done]. by eapply (looks_created r o1 (Some n) _ tx).
  - apply negb_true_iff in Hperm. by refine (looks_deleted r o1 o tx _ Hr Hperm Hl).
  - by eapply (looks_created r o1 o _ tx).
  - apply negb_true_iff in Hperm. by refine (looks_deleted r o1 o tx _ Hr Hperm Hl).
Qed.
End reads.

(** ** Any interleaving *)

Definition any_step {W} `{WalSink W} `{Codec Node} `{Codec Edge} `{Codec (option Value)}
    (buffer : Z -> Transaction) (s s' : ConcState W) : Prop := exists a, s' = conc_exec buffer s a.

Section repeatable.
Context {W : Type} `{WalSink W} `{Codec Node} `{Codec Edge} `{Codec (option Value)}.
Context (buffer : Z -> Transaction) (buffers_ok : forall tx, tx_ok (buffer tx)).
Import Transaction.
Implicit Types (db : Database W) (k : Key) (s : ConcState W) (p : Progress).

(** Commits are published with tickets the counter has reached, and what they have
    left to write comes from their transaction. *)
Record history s : Prop := {
  hi_threads : tx_inv (c_threads s);
  hi_committed tx p : (tx, p) ∈ c_commits s -> tx <= committed_tx_id (manager (c_threads s));
  hi_progress tx p : (tx, p) ∈ c_commits s -> prog_ok (buffer tx) p
}.

(** What a step does to a key: nothing, or the next write of a commit. *)
Definition step_effect s s' k : Prop :=
  item (c_db s') k = item (c_db s) k \/
  exists tx p w, (tx, p) ∈ c_commits s /\ w ∈ p_writes p /\
    item (c_db s') k = item_effect tx k (item (c_db s) k) w.

(** The commits of the next state: those of this one, with no more to write, or
    one whose ticket the counter has passed on to. *)
Definition later_commits s s' : Prop :=
  forall tx p', (tx, p') ∈ c_commits s' ->
    committed_tx_id (manager (c_threads s)) < tx \/
    exists p, (tx, p) ∈ c_commits s /\ (p_writes p = [] -> p_writes p' = []).

Definition progresses s s' : Prop :=
  history s' /\ later_commits s s' /\ forall k, step_effect s s' k.

Lemma prog_writes t p w : prog_ok t p -> w ∈ p_writes p -> w ∈ tx_writes t.
Proof. intros [[pre ->] _ _] Hw. apply elem_of_app. by right. Qed.

(** A step of the lock and the allocators. *)
Lemma frame_progresses s ths db y extra :
  history s -> tx_inv ths -> committed_tx_id (manager (c_threads s)) <= committed_tx_id (manager ths) ->
  (forall tx p, (tx, p) ∈ extra -> p = started (buffer tx) /\
    committed_tx_id (manager (c_threads s)) < tx <= committed_tx_id (manager ths)) ->
  (forall k, item db k = item (c_db s) k) ->
  progresses s (mkConcState ths db y (c_commits s ++ extra)).
Proof.
  intros Hh Hths Hmono Hextra Hit. split; [|split].
  - split; cbn [c_threads c_commits]; [done| |].
    + intros tx p [Hin|Hin]%elem_of_app; [pose proof (hi_committed _ Hh _ _ Hin); lia|].
      by apply Hextra in Hin as [_ [_ ?]].
    + intros tx p [Hin|Hin]%elem_of_app; [by apply (hi_progress _ Hh)|].
      apply Hextra in Hin as [-> _]. apply started_ok.
  - intros tx p [Hin|Hin]%elem_of_app; [right; by exists p|left]. by apply Hextra in Hin as [_ [? _]].
  - intros k. left. apply Hit.
Qed.

Lemma advance_progresses s i tx p p' db' y' :
  history s -> c_commits s !! i = Some (tx, p) ->
  advance tx p (c_db s) (c_synced s) = Some (p', db', y') ->
  progresses s (mkConcState (c_threads s) db' y' (<[i := (tx, p')]> (c_commits s))).
Proof.
  intros Hh Hi Hadv. pose proof (list_elem_of_lookup_2 _ _ _ Hi) as Hin.
  destruct (advance_cases buffer buffers_ok tx p _ _ _ _ _ (hi_progress _ Hh _ _ Hin) Hadv) as [Hok Hcase].
  assert (forall tx1 q, (tx1, q) ∈ <[i := (tx, p')]> (c_commits s) ->
    (tx1 = tx /\ q = p') \/ (tx1, q) ∈ c_commits s) as Hold.
  { intros tx1 q [j [(_ & [= <- <-] & _)|[_ Hj]]%list_lookup_insert_Some]%list_elem_of_lookup; [by left|].
    right. by eapply list_elem_of_lookup_2. }
  split; [|split].
  - split; cbn [c_threads c_commits]; [apply Hh| |].
    + intros tx1 q [[-> _]|Hq]%Hold; by eapply (hi_committed _ Hh).
    + intros tx1 q [[-> ->]|Hq]%Hold; [done|by apply (hi_progress _ Hh)].
  - intros tx1 q [[-> ->]|Hq]%Hold; right; [|by exists q]. exists p. split; [done|]. intros Hnil.
    destruct Hcase as [[Hw _]|(w & Hw & _)]; [by rewrite Hw|by rewrite Hnil in Hw].
  - intros k. destruct Hcase as [[_ Hit]|(w & Hw & Hit)]; [left; apply Hit|right].
    exists tx, p, w. split; [done|]. split; [rewrite Hw; apply list_elem_of_here|apply Hit].
Qed.

Lemma any_step_progresses s s' : history s -> any_step buffer s s' -> progresses s s'.
Proof.
  intros Hh (a & ->). pose proof (hi_threads _ Hh) as Hths.
  assert (progresses s s) as Hsame
    by (split; [done|split; [intros tx p Hin; right; by exists p|intros k; by left]]).
  destruct a as [ev| | |i]; cbn [conc_exec].
  - assert (tx_inv (tx_exec (c_threads s) ev)) as Hths'
      by (eapply reachable_inv; [exact Hths|apply tx_exec_step]).
    pose proof (tx_exec_committed (c_threads s) ev Hths) as Hc.
    apply frame_progresses; [done|done| | |by intros []].
    + destruct (publishes _ _); lia.
    + intros tx p Hin. destruct (publishes _ _) as [tx'|]; [|by apply elem_of_nil in Hin].
      apply list_elem_of_singleton in Hin as [= -> ->]. split; [done|lia].
  - rewrite <-(app_nil_r (c_commits s)). apply frame_progresses; [done..|by intros ? ? ?%elem_of_nil|].
    intros []; try done. unfold item. simpl. unfold alloc_id_direct.
    by destruct (alloc_id_frame (db_nodes (c_db s))) as [-> _].
  - rewrite <-(app_nil_r (c_commits s)). apply frame_progresses; [done..|by intros ? ? ?%elem_of_nil|].
    intros []; try done. unfold item. simpl. unfold EdgeStore.alloc_id_direct, EdgeStore.alloc_id.
    by destruct (edge_free_list _).
  - destruct (c_commits s !! i) as [[tx p]|] eqn:Hi; [|done].
    destruct (advance tx p (c_db s) (c_synced s)) as [[[p' db'] y']|] eqn:Hadv; [|done].
    by eapply advance_progresses.
Qed.

Lemma history_start db : history (conc_start db).
Proof. split; [apply tx_inv_init|by intros ? ? ?%elem_of_nil..]. Qed.

Lemma history_run s s' : history s -> rtc (any_step buffer) s s' -> history s'.
Proof. intros Hh Hrun. induction Hrun as [|s1 s2 s3 Hs _ IH]; [done|]. by apply IH, (any_step_progresses s1). Qed.

(** A snapshot whose commits have made their writes, and a key whose later writers
    write only what it permits. *)
Lemma looks_step (r : Z) it1 k s s' :
  history s -> r <= committed_tx_id (manager (c_threads s)) ->
  (forall tx p, (tx, p) ∈ c_commits s -> r < tx \/ p_writes p = []) ->
  (forall tx w, r < tx -> w ∈ tx_writes (buffer tx) -> write_key w = k -> permitted r it1 w = true) ->
  item_looks r it1 (item (c_db s) k) -> any_step buffer s s' ->
  history s' /\ (forall tx p, (tx, p) ∈ c_commits s' -> r < tx \/ p_writes p = []) /\
  item_looks r it1 (item (c_db s') k).
Proof.
  intros Hh Hr Hdone Hperm Hl Hstep. destruct (any_step_progresses s s' Hh Hstep) as (Hh' & Hlater & Heff).
  split; [done|]. split.
  - intros tx p' Hin. destruct (Hlater tx p' Hin) as [?|(p & Hp & Hnil)]; [left; lia|].
    destruct (Hdone tx p Hp); [by left|right; by apply Hnil].
  - destruct (Heff k) as [->|(tx & p & w & Hin & Hw & ->)]; [done|].
    destruct (Hdone tx p Hin) as [Hlt|Hnil]; [|rewrite Hnil in Hw; by apply elem_of_nil in Hw].
    apply effect_looks; [done| |done]. intros Hk. apply (Hperm tx w Hlt); [|done].
    eapply prog_writes; [by apply (hi_progress _ Hh)|done].
Qed.

Lemma committed_mono s s' :
  history s -> any_step buffer s s' ->
  committed_tx_id (manager (c_threads s)) <= committed_tx_id (manager (c_threads s')).
Proof.
  intros Hh (a & ->). destruct a as [ev| | |i]; cbn [conc_exec]; [|done..|].
  - pose proof (tx_exec_committed (c_threads s) ev (hi_threads _ Hh)). cbn [c_threads].
    destruct (publishes _ _); lia.
  - by repeat case_match.
Qed.

(** C4: repeatable reads next to commits. A transaction reads in the
    snapshot of a ticket that was committed by then, and the commits up to that
    ticket have made their writes. Whatever commits run from there on, in any
    interleaving and conflicting or not, it reads the same of every node and
    edge, as long as the transactions with later tickets create or relabel only
    what the snapshot does not see and delete only what is not deleted for it
    already; a property reads the same if no later transaction writes it. *)
Theorem concurrent_reads_repeatable db0 s1 s2 t k :
  rtc (any_step buffer) (conc_start db0) s1 -> rtc (any_step buffer) s1 s2 ->
  snapshot t <= TxManager.begin_read (manager (c_threads s1)) ->
  (forall tx p, (tx, p) ∈ c_commits s1 -> tx <= snapshot t -> p_writes p = []) ->
  (forall tx w, snapshot t < tx -> w ∈ tx_writes (buffer tx) -> write_key w = k ->
    permitted (snapshot t) (item (c_db s1) k) w = true) ->
  read t k (c_db s2) = read t k (c_db s1).
Proof.
  intros Hreach Hrun Hr Hdone Hperm. pose proof (history_run _ _ (history_start db0) Hreach) as Hh.
  apply read_looks. set (it1 := item (c_db s1) k) in *.
  assert (item_looks (snapshot t) it1 (item (c_db s1) k)) as Hl
    by (unfold it1; by destruct (item (c_db s1) k)).
  assert (forall tx p, (tx, p) ∈ c_commits s1 -> snapshot t < tx \/ p_writes p = []) as Hdone1.
  { intros tx p Hin. destruct (decide (snapshot t < tx)); [by left|right]. apply (Hdone tx p Hin). lia. }
  clearbody it1. clear Hdone Hreach. unfold TxManager.begin_read in Hr.
  induction Hrun as [|s1 s s2 Hs _ IH]; [by apply Hl|].
  destruct (looks_step (snapshot t) it1 k s1 s Hh Hr Hdone1 Hperm Hl Hs) as (Hh' & Hdone' & Hl').
  pose proof (committed_mono s1 s Hh Hs). apply IH; [lia|done..].
Qed.
End repeatable.

(** ** A reader next to two commits

    Ticket 1 creates nodes 0 and 1 and an edge. A reader begins; tickets 2 and 3
    then delete node 0 and its edge, create node 2 and relabel it, at the same
    time. *)

Section witnesses.
#[local] Existing Instances LogSink.sink LogSink.laws dur_node_codec dur_edge_codec dur_value_codec
  dur_node_laws dur_edge_laws dur_value_laws.

Definition reads_buffer (tx : Z) : Transaction :=
  if tx =? 1 then
    {| tx_id := 1; snapshot := 0; is_write := true; committed := false;
       node_inserts := [(0, [7], 1); (1, [7], 2)]; node_updates := []; node_deletes := [];
       edge_inserts := [(0, 0, 1, 9, 0)]; edge_deletes := []; prop_writes := [] |}
  else if tx =? 2 then
    {| tx_id := 2; snapshot := 1; is_write := true; committed := false;
       node_inserts := []; node_updates := []; node_deletes := [0];
       edge_inserts := []; edge_deletes := [0]; prop_writes := [] |}
  else if tx =? 3 then
    {| tx_id := 3; snapshot := 1; is_write := true; committed := false;
       node_inserts := [(2, [8], 3)]; node_updates := [(2, [9])]; node_deletes := [];
       edge_inserts := []; edge_deletes := []; prop_writes := [] |}
  else Transaction.new tx 0 true.

Lemma reads_buffers_ok tx : tx_ok (reads_buffer tx).
Proof. unfold reads_buffer. repeat case_match; constructor. Qed.

Lemma any_run (buffer : Z -> Transaction) (s : ConcState LogSink.t) acts :
  rtc (any_step buffer) s (conc_run buffer s acts).
Proof.
  revert s. induction acts as [|a acts IH]; intros s; [done|].
  eapply rtc_l; [by exists a|apply IH].
Qed.

Definition reads_before : ConcState LogSink.t :=
  conc_run reads_buffer (conc_start Database.memory)
    ([ATicket EvBegin; ATicket EvBegin; ATicket EvBegin] ++ publish 1 ++
     [AAdvance 0; AAdvance 0; AAdvance 0; AAdvance 0; AAdvance 0; AAdvance 0]%nat).

Definition reads_after : ConcState LogSink.t :=
  conc_run reads_buffer reads_before
    (publish 2 ++ publish 3 ++ [AAdvance 2; AAdvance 1; AAdvance 2; AAdvance 1; AAdvance 2; AAdvance 1]%nat).

Definition reader : Transaction :=
  Transaction.new 0 (TxManager.begin_read (manager (c_threads reads_before))) false.

Lemma reader_snapshot : snapshot reader = 1.
Proof. by vm_compute. Qed.

Lemma node_0_before : item (c_db reads_before) (KNode 0) = INode (Some (Node.new 0 [7] 1 1)).
Proof. by vm_compute. Qed.

Lemma later_writes_permitted tx w :
  snapshot reader < tx -> w ∈ tx_writes (reads_buffer tx) -> write_key w = KNode 0 ->
  permitted (snapshot reader) (item (c_db reads_before) (KNode 0)) w = true.
Proof.
  rewrite reader_snapshot, node_0_before. unfold reads_buffer. intros Hlt Hw Hk.
  rewrite (proj2 (Z.eqb_neq tx 1)) in Hw by lia.
  assert (Forall (fun w => write_key w = KNode 0 ->
    permitted 1 (INode (Some (Node.new 0 [7] 1 1))) w = true) (tx_writes (reads_buffer 2) ++
      tx_writes (reads_buffer 3))) as Hall by by_decide.
  rewrite Forall_forall in Hall. apply (Hall w); [|done]. apply elem_of_app.
  destruct (tx =? 2); [by left|]. destruct (tx =? 3); [by right|]. by apply elem_of_nil in Hw.
Qed.

Lemma concurrent_reads_repeatable_witness :
  read reader (KNode 0) (c_db reads_after) = read reader (KNode 0) (c_db reads_before) /\
  read reader (KNode 0) (c_db reads_before) = INode (Some (Node.mark_deleted (Node.new 0 [7] 1 1) 0)) /\
  nodes (db_nodes (c_db reads_after)) !! 0 = Some (Node.mark_deleted (Node.new 0 [7] 1 1) 2).
Proof.
  split; [|by vm_compute].
  apply (concurrent_reads_repeatable reads_buffer reads_buffers_ok Database.memory reads_before reads_after).
  - apply any_run.
  - apply any_run.
  - by vm_compute.
  - intros tx p Hin _.
    assert (Forall (fun c => p_writes c.2 = []) (c_commits reads_before)) as Hall by by_decide.
    rewrite Forall_forall in Hall. exact (Hall (tx, p) Hin).
  - exact later_writes_permitted.
Defined.
End witnesses.
