(* ===== verification/StoreCrash.v ===== *)
(** * The edge store and the property store after a crash

    [Crash.v] says what a crash can take from a store whose calls send at most
    one record each. Two calls send more: [unlink_from_chains] persists the
    predecessors of the edge on both chains, and [insert_row] sends a record per
    property. This file says what a crash inside them leaves. *)

From S2P Require Export Durable.

Open Scope Z_scope.

(** ** The edge store *)

Section edges.
Context {W : Type} `{WalSinkLaws W} `{CodecLaws Edge}.
Import EdgeStore.
Implicit Types (s : EdgeStore W) (op : EdgeOp) (ops : list EdgeOp).

(** A call that returns. *)
Definition edge_step (fuel : nat) s op : EdgeStore W := default s (edge_exec_op fuel s op).

Lemma edge_steps fuel s ops s' : edge_exec_ops fuel s ops = Some s' -> foldl (edge_step fuel) s ops = s'.
Proof.
  revert s. induction ops as [|op ops IH]; intros s; cbn [edge_exec_ops foldl]; [by intros [= <-]|].
  unfold edge_step at 2. destruct (edge_exec_op fuel s op) as [s1|]; [|done]. apply IH.
Qed.

Lemma edge_exec_ops_take fuel s ops s' j :
  edge_exec_ops fuel s ops = Some s' ->
  edge_exec_ops fuel s (take j ops) = Some (foldl (edge_step fuel) s (take j ops)).
Proof.
  revert s j. induction ops as [|op ops IH]; intros s j Hops; [by rewrite take_nil|].
  destruct j as [|j]; [done|]. cbn [take edge_exec_ops foldl] in *. unfold edge_step at 2.
  destruct (edge_exec_op fuel s op) as [s1|]; [|done]. by apply IH.
Qed.

(** A crash inside a call: nothing of it, or of an unlinking the new version of
    one of the two edges it changes. *)
Definition half_unlinked (fuel : nat) s op (m : gmap Z Edge) : Prop :=
  m = edges s \/
  exists id first_out first_in s' p e, op = EOpUnlink id first_out first_in /\
    edge_exec_op fuel s op = Some s' /\ edges s' !! p = Some e /\ m = <[p := e]> (edges s).

Abbreviation edge_logs_one := (logs_one apply_val edges edge_wal).

Lemma edge_logs_put id e s s1 :
  edge_wal s1 = edge_wal s -> edges s1 = <[id := e]> (edges s) -> edge_logs_one s (wal_insert id e s1).
Proof.
  intros Hw He. destruct (serialize_total e) as [data Hd].
  apply (logs_insert _ _ _ _ _ id data).
  - intros w. unfold wal_insert. rewrite Hw. intros ->. by rewrite Hd.
  - rewrite wal_insert_edges, He. unfold apply_val. cbn [r_opcode r_payload r_id Z.eqb Pos.eqb].
    by rewrite (deserialize_serialize e data Hd).
Qed.

Lemma edge_alloc_frame s : edges (alloc_id s).2 = edges s /\ edge_wal (alloc_id s).2 = edge_wal s.
Proof. unfold alloc_id. by destruct (edge_free_list s). Qed.

(** The version of [p] in [m2], put in [m]. *)
Definition put_pred (p : option Z) (m2 m : gmap Z Edge) : gmap Z Edge :=
  match p with
  | Some x => match m2 !! x with Some e => <[x := e]> m | None => m end
  | None => m
  end.

Lemma put_pred_lookup p m2 m x :
  (forall y, p = Some y -> is_Some (m2 !! y)) ->
  put_pred p m2 m !! x = if decide (p = Some x) then m2 !! x else m !! x.
Proof.
  intros Hp. unfold put_pred. destruct p as [y|]; [|done]. destruct (Hp y eq_refl) as [e He]. rewrite He.
  case_decide as Hx; [injection Hx as ->; rewrite He; apply lookup_insert_eq|].
  apply lookup_insert_ne. congruence.
Qed.

(** [persist_pred] sends the version that is in memory. *)
Lemma persist_pred_sends p s w :
  edge_wal s = Some w -> sink_live w -> (forall x, p = Some x -> is_Some (edges s !! x)) ->
  exists w' rs, edge_wal (persist_pred p s) = Some w' /\ sink_extends w w' rs /\
    sink_image w `prefix_of` sink_image w' /\ edges (persist_pred p s) = edges s /\
    length rs = (match p with Some _ => 1 | None => 0 end)%nat /\
    forall m, foldl apply_val m rs = put_pred p (edges s) m.
Proof.
  intros Hw Hl Hp. destruct p as [x|]; cbn [persist_pred put_pred].
  - destruct (Hp x eq_refl) as [e He]. unfold persist. rewrite He. unfold wal_insert. rewrite Hw.
    destruct (serialize_total e) as [data Hd]. rewrite Hd.
    exists (sink_insert x data w), [mkRec 1 x data]. split; [done|]. split; [by apply sink_insert_extends|].
    split; [by apply sink_insert_image|]. split; [done|]. split; [done|]. intros m. simpl.
    unfold apply_val. cbn [r_opcode r_payload r_id Z.eqb Pos.eqb].
    by rewrite (deserialize_serialize e data Hd).
  - exists w, []. split; [done|]. split; [by apply sink_extends_refl|]. split; [done|]. by split.
Qed.

(** A call that changed the two predecessors in memory and persists them. *)
Lemma preds_logs p1 p2 m2 s w :
  edge_wal s = Some w -> sink_live w ->
  (forall x, p1 = Some x \/ p2 = Some x -> is_Some (m2 !! x)) ->
  (forall x, p1 ≠ Some x -> p2 ≠ Some x -> m2 !! x = edges s !! x) ->
  let s' := persist_pred p2 (persist_pred p1 (set_edges m2 s)) in
  exists w' rs, edge_wal s' = Some w' /\ sink_extends w w' rs /\ edges s' = m2 /\
    sink_image w `prefix_of` sink_image w' /\ edges s' = foldl apply_val (edges s) rs /\
    forall k, (k < length rs)%nat ->
      foldl apply_val (edges s) (take k rs) = edges s \/
      exists p e, m2 !! p = Some e /\ foldl apply_val (edges s) (take k rs) = <[p := e]> (edges s).
Proof.
  intros Hw Hl Hin Hother s'.
  destruct (persist_pred_sends p1 (set_edges m2 s) w Hw Hl) as (w1 & r1 & Hw1 & Hx1 & Hi1 & He1 & Hl1 & Hv1);
    [auto|].
  destruct (persist_pred_sends p2 (persist_pred p1 (set_edges m2 s)) w1 Hw1 (proj1 Hx1))
    as (w2 & r2 & Hw2 & Hx2 & Hi2 & He2 & Hl2 & Hv2); [rewrite He1; auto|].
  rewrite He1 in Hv2, He2. cbn [edges set_edges] in Hv1, Hv2, He1, He2.
  exists w2, (r1 ++ r2). split; [done|]. split; [by eapply sink_extends_trans|]. split; [done|].
  split; [by etrans|]. split.
  - unfold s'. rewrite He2, foldl_app, Hv1, Hv2. apply map_eq. intros x.
    rewrite !put_pred_lookup by auto. destruct (decide (p2 = Some x)); [done|].
    destruct (decide (p1 = Some x)); [done|by apply Hother].
  - intros k Hk. rewrite length_app, Hl1, Hl2 in Hk. destruct k as [|k]; [by left|]. right.
    destruct p1 as [a|]; [|destruct p2; lia]. destruct (Hin a) as [e He]; [by left|]. exists a, e.
    split; [done|]. rewrite take_app, (take_ge r1), foldl_app, Hv1 by (rewrite Hl1; lia).
    replace (S k - length r1)%nat with 0%nat by (destruct p2; lia). simpl. by rewrite He.
Qed.

Lemma unlink_logs fuel id fo fi s :
  logs_mid apply_val edges edge_wal (edge_step fuel) (half_unlinked fuel) s (EOpUnlink id fo fi).
Proof.
  destruct (edge_exec_op fuel s (EOpUnlink id fo fi)) as [s'|] eqn:Hop.
  2:{ apply logs_one_mid; [by left|]. apply logs_nothing; unfold edge_step; by rewrite Hop. }
  assert (edge_step fuel s (EOpUnlink id fo fi) = s') as Hs' by (unfold edge_step; by rewrite Hop).
  pose proof Hop as Hu. cbn [edge_exec_op] in Hu.
  destruct (unlink_from_chains fuel id fo fi s) as [[r s1]|] eqn:Hun; [|done].
  injection Hu as ->. unfold unlink_from_chains in Hun. destruct (edges s !! id) as [e|].
  2:{ apply logs_one_mid; [by left|]. injection Hun as _ ->. rewrite Hs'. by apply logs_nothing. }
  destruct (unlink_dir DOut fuel id (Edge.next_out e) fo (edges s)) as [[[m1 g1] p1]|] eqn:H1'; [|done].
  cbn [mbind option_bind] in Hun.
  destruct (unlink_dir DIn fuel id (Edge.next_in e) fi m1) as [[[m2 g2] p2]|] eqn:H2'; [|done].
  cbn [mbind option_bind] in Hun. injection Hun as _ Hun. apply unlink_dir_changes in H1', H2'.
  intros w Hw Hl. destruct (preds_logs p1 p2 m2 s w Hw Hl) as (w' & rs & Hw' & Hx & He & Hi & Hv & Hk).
  - intros x Hx. pose proof (changes_at_most_some p1 _ _ x H1') as Hs1.
    apply (changes_at_most_some p2 m1 m2 x H2').
    destruct Hx as [-> | ->]; simpl in *; [|by destruct H2']. destruct H1' as [Hx _]. auto.
  - intros x Hx1 Hx2. rewrite <-(changes_at_most_ne p2 m1 m2 x H2' (not_eq_sym Hx2)). symmetry.
    by apply (changes_at_most_ne p1 (edges s) m1 x H1'), not_eq_sym.
  - rewrite Hs', <-Hun. exists w', rs. do 4 (split; [done|]). intros k Hlen.
    destruct (Hk k Hlen) as [Hsame|(p & x & Hp & Hput)]; [by left|right].
    exists id, fo, fi, s', p, x. split; [done|]. split; [done|]. split; [|done]. by rewrite <-Hun, He.
Qed.

Lemma edge_call_logs fuel s op :
  logs_mid apply_val edges edge_wal (edge_step fuel) (half_unlinked fuel) s op.
Proof.
  assert (forall s', edge_exec_op fuel s op = Some s' -> edge_logs_one s s' ->
    logs_mid apply_val edges edge_wal (edge_step fuel) (half_unlinked fuel) s op) as Hone.
  { intros s' Hs' Hl. apply logs_one_mid; [by left|]. unfold edge_step. by rewrite Hs'. }
  destruct op; try by eapply Hone; [reflexivity|]; apply edge_logs_put.
  - eapply Hone; [reflexivity|]. destruct (edge_alloc_frame s). by apply logs_nothing.
  - eapply Hone; [reflexivity|]. unfold insert_edge. destruct (edge_alloc_frame s) as [He Hw].
    destruct (alloc_id s) as [id s1]. cbn [snd] in *. apply edge_logs_put; [exact Hw|]. simpl. by rewrite He.
  - eapply Hone; [reflexivity|]. unfold link_into_chains. cbn [snd]. unfold persist, put_next.
    destruct (edges s !! new_edge) as [e|] eqn:He; [|rewrite !He; by apply logs_nothing].
    cbn [edges set_edges]. rewrite !lookup_insert_eq. cbn [edges set_edges]. rewrite lookup_insert_eq.
    apply edge_logs_put; [done|]. cbn [edges set_edges]. by rewrite insert_insert_eq.
  - apply unlink_logs.
  - eapply Hone; [reflexivity|]. unfold soft_delete. destruct (edges s !! id); [|by apply logs_nothing].
    by apply edge_logs_put.
  - eapply Hone; [reflexivity|]. intros w Hs Hl. unfold hard_delete, wal_delete. rewrite Hs.
    exists (sink_delete id w), [mkRec 2 id []]. cbn [edges set_wal].
    destruct (edges s !! id) eqn:Hid; simpl; (split; [done|]);
      (split; [by apply sink_delete_extends|]); (split; [lia|]);
      (split; [by apply sink_delete_image|]); [done|].
    unfold apply_val. simpl. by rewrite delete_id.
  - eapply Hone; [reflexivity|]. apply logs_flush; unfold flush; by destruct (edge_wal s) eqn:?.
Qed.

Lemma edge_calls_log fuel s ops :
  logs_all apply_val edges edge_wal (edge_step fuel) (half_unlinked fuel) s ops.
Proof. intros ops1 op ops2 _. apply edge_call_logs. Qed.

(** C14: what a crash can lose of the edge store. It is opened on a well-formed
    log, used, flushed and used again; then a crash leaves any file between what
    the WAL had made durable and all it was sent. Reopening that file either
    fails with the truncation error, or gives the edges the store held after
    some prefix of the calls that includes every call before the flush; or the
    crash came inside [unlink_from_chains], and of its changes to the two
    neighbours of the edge exactly one is there. *)
Theorem edge_store_crash c file rs0 s0 fuel ops1 ops2 s bs :
  contract_ok (durability c) (wal_channel_capacity c) ->
  log_contents file = MAGIC ++ encode_recs rs0 -> Forall rec_ok rs0 -> open (W := W) c file = Ok s0 ->
  let ops := ops1 ++ EOpFlush :: ops2 in
  edge_exec_ops fuel s0 ops = Some s -> crash_leaves edge_wal rs0 s bs ->
  open (W := W) c (Some bs) = Err UnexpectedEof \/
  exists s' j sj, open (W := W) c (Some bs) = Ok s' /\
    (length ops1 < j <= length ops)%nat /\ edge_exec_ops fuel s0 (take j ops) = Some sj /\
    (edges s' = edges sj \/
     exists id first_out first_in sj' p e, ops !! j = Some (EOpUnlink id first_out first_in) /\
       edge_exec_op fuel sj (EOpUnlink id first_out first_in) = Some sj' /\
       edges sj' !! p = Some e /\ edges s' = <[p := e]> (edges sj)).
Proof.
  intros Hc Hlog Hrs Ho ops Hops Hcrash. pose proof (edge_open_on_log c file rs0 s0 Hc Hlog Hrs Ho) as Hstart.
  set (s1 := foldl (edge_step fuel) s0 ops1). set (s2 := flush s1).
  pose proof (on_log_all _ _ _ (edge_step fuel) _ _ _ _ ops1 Hstart (edge_calls_log fuel s0 ops1)) as Hon.
  fold s1 in Hon. apply (on_log_flush _ _ _ _ _ _ s2) in Hon;
    [|unfold s2, flush; by destruct (edge_wal s1) eqn:?..].
  assert (forall ops', foldl (edge_step fuel) s0 (ops1 ++ EOpFlush :: ops') = foldl (edge_step fuel) s2 ops') as Hsplit
    by (intros ops'; by rewrite foldl_app).
  rewrite <-(edge_steps _ _ _ _ Hops) in Hcrash. unfold ops in Hcrash. rewrite Hsplit in Hcrash.
  destruct (crash_inside _ _ _ _ _ _ _ _ _ _ Hon (edge_calls_log fuel s2 ops2) Hcrash)
    as (rs & n & Hok & -> & (j & Hj & Hv) & _).
  pose proof (edge_reopen (W := W) c rs n Hc Hok) as Hre.
  destruct (cut_recs_error rs n) as [He|He]; rewrite He in Hre; [right|by left].
  destruct Hre as (s' & Hs' & Hn'). rewrite <-Hn' in Hv.
  exists s', (length ops1 + S j)%nat, (foldl (edge_step fuel) s2 (take j ops2)). split; [done|].
  unfold ops. rewrite length_app. cbn [length]. split; [lia|].
  assert (take (length ops1 + S j) (ops1 ++ EOpFlush :: ops2) = ops1 ++ EOpFlush :: take j ops2) as Htake
    by by rewrite take_app_add'.
  split; [rewrite <-Hsplit, <-Htake; by apply (edge_exec_ops_take fuel s0 ops s)|].
  destruct Hv as [Hv|(op & Hop & [Hv|(id & fo & fi & sj' & p & e & -> & Hx & He' & Hv)])]; [by left|by left|].
  right. exists id, fo, fi, sj', p, e. split; [|done].
  rewrite lookup_app_r by lia. by replace (length ops1 + S j - length ops1)%nat with (S j) by lia.
Qed.
End edges.

(** ** The property store *)

Section props.
Context {W : Type} `{WalSinkLaws W} `{CodecLaws (option Value)}.
Hypothesis serialize_nonempty : forall (v : option Value), serialize v ≠ Some [].
Import PropStore.
Implicit Types (s : PropStore W) (op : PropOp) (ops : list PropOp).

(** The columns after some cells of a row were written. *)
Definition write_row (label row : Z) (props : list (bytes * Value))
    (cols : gmap (Z * bytes) (list (option Value))) : gmap (Z * bytes) (list (option Value)) :=
  foldl (fun cols '(name, v) => write_cell label name row (Some v) cols) cols props.

(** A crash inside a call: nothing of it, or the first properties of a row. *)
Definition half_row s op (cols : gmap (Z * bytes) (list (option Value))) : Prop :=
  cols = columns s \/
  exists label props k, op = POpInsertRow label props /\
    cols = write_row label (alloc_row label s).1 (take k props) (columns s).

Abbreviation prop_logs_one := (logs_one apply_cell columns prop_wal).

Lemma apply_cell_record label prop row v data cols :
  cell_ok label prop row -> serialize v = Some data ->
  apply_cell cols (mkRec 1 label (encode_cell label prop row data)) = write_cell label prop row v cols.
Proof.
  intros (Hl & Hr & Hn & Hu) Hd. unfold apply_cell. cbn [r_opcode r_payload Z.eqb Pos.eqb].
  by rewrite (decode_encode_cell serialize_nonempty label prop row v data).
Qed.

Lemma cell_logs label prop row v s :
  cell_ok label prop row -> prop_logs_one s (insert_prop label prop row v s).2.
Proof.
  intros Hok. destruct (serialize_total v) as [data Hd].
  apply (logs_insert _ _ _ _ _ label (encode_cell label prop row data)); unfold insert_prop; cbn [snd].
  - intros w Hw. unfold wal_send_cell. simpl. by rewrite Hw, Hd.
  - rewrite wal_send_cell_columns. by rewrite (apply_cell_record _ _ _ v).
Qed.

Lemma row_logs label row props s w :
  Forall (fun '(prop, _) => cell_ok label prop row) props -> prop_wal s = Some w -> sink_live w ->
  let s' := foldl (fun s '(name, v) => (insert_prop label name row (Some v) s).2) s props in
  exists w' rs, prop_wal s' = Some w' /\ sink_extends w w' rs /\ sink_image w `prefix_of` sink_image w' /\
    length rs = length props /\ columns s' = write_row label row props (columns s) /\
    forall k, foldl apply_cell (columns s) (take k rs) = write_row label row (take k props) (columns s).
Proof.
  intros Hok. revert s w. induction Hok as [|[name v] props Hp _ IH]; intros s w Hw Hl; cbn [foldl].
  { exists w, []. split; [done|]. split; [by apply sink_extends_refl|]. do 3 (split; [done|]).
    intros k. by rewrite !take_nil. }
  destruct (serialize_total (Some v)) as [data Hd].
  set (s1 := (insert_prop label name row (Some v) s).2).
  set (r := mkRec 1 label (encode_cell label name row data)).
  assert (prop_wal s1 = Some (sink_insert label (encode_cell label name row data) w)) as Hw1
    by (unfold s1, insert_prop, wal_send_cell; simpl; by rewrite Hw, Hd).
  assert (columns s1 = write_cell label name row (Some v) (columns s)) as Hc1
    by (unfold s1, insert_prop; cbn [snd]; by rewrite wal_send_cell_columns).
  pose proof (sink_insert_extends w label (encode_cell label name row data) Hl) as Hx1.
  destruct (IH s1 _ Hw1 (proj1 Hx1)) as (w' & rs & Hw' & Hx & Hi & Hlen & Hc & Hk).
  exists w', (r :: rs). split; [done|]. split; [by apply (sink_extends_trans _ _ _ [r] rs Hx1)|].
  split; [etrans; [by apply sink_insert_image|done]|]. split; [simpl; by rewrite Hlen|].
  split; [by rewrite Hc, Hc1|]. intros [|k]; [done|]. simpl.
  unfold r at 1. by rewrite (apply_cell_record _ _ _ (Some v)), <-Hc1 by done.
Qed.

Lemma insert_row_logs label props s :
  prop_op_ok s (POpInsertRow label props) ->
  logs_mid apply_cell columns prop_wal prop_exec_op half_row s (POpInsertRow label props).
Proof.
  intros Hok w Hw Hl. cbn [prop_op_ok prop_exec_op] in *.
  set (row := (alloc_row label s).1) in *. set (s1 := (alloc_row label s).2).
  destruct (row_logs label row props s1 w Hok Hw Hl) as (w' & rs & Hw' & Hx & Hi & Hlen & Hc & Hk).
  assert (columns s1 = columns s) as Hs1 by done. rewrite Hs1 in Hc, Hk.
  exists w', rs. split; [exact Hw'|]. split; [done|]. split; [done|]. split.
  - etrans; [exact Hc|]. specialize (Hk (length rs)). rewrite take_ge in Hk by done.
    by rewrite Hlen, take_ge in Hk by done.
  - intros k _. right. exists label, props, k. split; [done|]. apply Hk.
Qed.

Lemma prop_call_logs s op :
  prop_op_ok s op -> logs_mid apply_cell columns prop_wal prop_exec_op half_row s op.
Proof.
  intros Hok. destruct op as [label|label prop row v|label prop row v|label props|];
    [..|by apply insert_row_logs|]; (apply logs_one_mid; [by left|]); cbn [prop_exec_op prop_op_ok] in *.
  - by apply logs_nothing.
  - by apply cell_logs.
  - unfold set_prop. destruct (columns s !! (label, prop)) as [col|] eqn:Hcol; [|by apply logs_nothing].
    unfold PropertyColumn.set. destruct (_ <? _) eqn:Hlt; [|by apply logs_nothing]. cbn [snd].
    rewrite <-(write_cell_set label prop row v (columns s) col)
      by (done || destruct Hok as (_ & ? & _); blia).
    by apply cell_logs.
  - apply logs_flush; unfold flush; by destruct (prop_wal s) eqn:?.
Qed.

Lemma prop_ops_ok_app s ops1 ops2 :
  prop_ops_ok s (ops1 ++ ops2) <-> prop_ops_ok s ops1 /\ prop_ops_ok (prop_exec_ops s ops1) ops2.
Proof.
  revert s. induction ops1 as [|op ops1 IH]; intros s; simpl; [tauto|]. rewrite IH. unfold prop_exec_ops.
  simpl. tauto.
Qed.

Lemma prop_calls_log s ops :
  prop_ops_ok s ops -> logs_all apply_cell columns prop_wal prop_exec_op half_row s ops.
Proof.
  intros Hok ops1 op ops2 ->. apply prop_ops_ok_app in Hok as [_ [Hop _]]. by apply prop_call_logs.
Qed.

(** C15: what a crash can lose of the property store. It is opened on a
    well-formed log at a level that fsyncs, used, flushed and used again, every property under a name of
    less than 256 bytes (longer ones are not read back, see [long_names_lost]) and
    with label and row in the range of their types; then a crash leaves any file
    between what the WAL had made durable and all it was sent. Reopening that
    file either fails with the truncation error, or gives the columns the store
    held after some prefix of the calls that includes every call before the
    flush; or the crash came inside [insert_row], and the first properties of the
    row are there and the others are not. *)
Theorem prop_store_crash c file rs0 s0 ops1 ops2 bs :
  contract_ok (durability c) (wal_channel_capacity c) ->
  log_contents file = MAGIC ++ encode_recs rs0 -> Forall rec_ok rs0 -> open (W := W) c file = Ok s0 ->
  let ops := ops1 ++ POpFlush :: ops2 in
  prop_ops_ok s0 ops -> crash_leaves prop_wal rs0 (prop_exec_ops s0 ops) bs ->
  open (W := W) c (Some bs) = Err UnexpectedEof \/
  exists s' j, open (W := W) c (Some bs) = Ok s' /\ (length ops1 < j <= length ops)%nat /\
    let sj := prop_exec_ops s0 (take j ops) in
    (columns s' = columns sj \/
     exists label props k, ops !! j = Some (POpInsertRow label props) /\
       columns s' = write_row label (alloc_row label sj).1 (take k props) (columns sj)).
Proof.
  intros Hc Hlog Hrs Ho ops Hops Hcrash.
  pose proof (prop_open_on_log c file rs0 s0 Hc Hlog Hrs Ho) as Hstart.
  apply prop_ops_ok_app in Hops as [Hops1 [_ Hops2]]. set (s1 := prop_exec_ops s0 ops1) in *.
  set (s2 := flush s1) in *.
  pose proof (on_log_all _ _ _ prop_exec_op _ _ _ _ ops1 Hstart (prop_calls_log s0 ops1 Hops1)) as Hon.
  change (foldl prop_exec_op s0 ops1) with s1 in Hon.
  apply (on_log_flush _ _ _ _ _ _ s2) in Hon; [|unfold s2, flush; by destruct (prop_wal s1) eqn:?..].
  assert (forall ops', prop_exec_ops s0 (ops1 ++ POpFlush :: ops') = foldl prop_exec_op s2 ops') as Hsplit
    by (intros ops'; unfold prop_exec_ops; by rewrite foldl_app).
  unfold ops in Hcrash. rewrite Hsplit in Hcrash.
  destruct (crash_inside _ _ _ _ _ _ _ _ _ _ Hon (prop_calls_log s2 ops2 Hops2) Hcrash)
    as (rs & n & Hok & -> & (j & Hj & Hv) & _).
  pose proof (prop_reopen (W := W) c rs n Hc Hok) as Hre.
  destruct (cut_recs_error rs n) as [He|He]; rewrite He in Hre; [right|by left].
  destruct Hre as (s' & Hs' & Hn'). rewrite <-Hn' in Hv.
  exists s', (length ops1 + S j)%nat. split; [done|].
  unfold ops. rewrite length_app. cbn [length]. split; [lia|].
  rewrite take_app_add'; [|done]. cbn [take]. rewrite Hsplit.
  destruct Hv as [Hv|(op & Hop & [Hv|(label & props & k & -> & Hv)])]; [by left|by left|].
  right. exists label, props, k. split; [|done].
  rewrite lookup_app_r by lia. by replace (length ops1 + S j - length ops1)%nat with (S j) by lia.
Qed.
End props.

(** ** Crashes inside [unlink_from_chains] and [insert_row] *)

Section witnesses.
#[local] Existing Instances thread_sink thread_sink_laws dur_edge_codec dur_value_codec
  dur_edge_laws dur_value_laws.

(** All but the last record. *)
Definition all_but_one (w : option WalThread) : bytes :=
  match w with
  | Some w => sink_base w ++ encode_recs (take (length (sink_recs w) - 1) (sink_recs w))
  | None => []
  end.

Definition torn_edge_store : EdgeStore WalThread :=
  match EdgeStore.open balanced None with Ok s => s | _ => EdgeStore.new end.

(** Edge 0 from node 1 to node 3; edge 1 is before it on the chain of node 1,
    edge 2 on that of node 3. *)
Definition torn_before : list EdgeOp :=
  [EOpInsert 1 3 7 0 1; EOpLink 0 NULL_EDGE NULL_EDGE; EOpInsert 1 2 7 0 1; EOpLink 1 0 NULL_EDGE;
   EOpInsert 4 3 7 0 1; EOpLink 2 NULL_EDGE 0].
Definition torn_after : list EdgeOp := [EOpUnlink 0 1 2].
Definition torn_ops : list EdgeOp := torn_before ++ EOpFlush :: torn_after.

Definition torn_edges : EdgeStore WalThread :=
  default torn_edge_store (edge_exec_ops 4 torn_edge_store torn_ops).
Definition torn_file : bytes := all_but_one (edge_wal torn_edges).

Definition opened {A} (r : io A) : bool := match r with Ok _ => true | _ => false end.

Lemma edges_opened : opened (EdgeStore.open (W := WalThread) balanced (Some torn_file)) = true.
Proof. by vm_compute. Qed.

Lemma torn_leaves : crash_leaves edge_wal [] torn_edges torn_file.
Proof.
  exists (dur_wal (edge_wal torn_edges)). split; [by vm_compute|].
  split; [by apply rec_okb_all; vm_compute|]. split; by_decide.
Qed.

Lemma edge_store_crash_witness :
  exists s' j sj, EdgeStore.open (W := WalThread) balanced (Some torn_file) = Ok s' /\ (6 < j <= 8)%nat /\
    edge_exec_ops 4 torn_edge_store (take j torn_ops) = Some sj /\
    (edges s' = edges sj \/
     exists id first_out first_in sj' p e, torn_ops !! j = Some (EOpUnlink id first_out first_in) /\
       edge_exec_op 4 sj (EOpUnlink id first_out first_in) = Some sj' /\
       edges sj' !! p = Some e /\ edges s' = <[p := e]> (edges sj)).
Proof.
  destruct (edge_store_crash balanced None [] torn_edge_store 4 torn_before torn_after torn_edges torn_file)
    as [Hbad|(s' & j & sj & Ho & Hj & Hrest)];
    [by_decide|done|done|by vm_compute|by vm_compute|exact torn_leaves| |].
  - pose proof (f_equal opened Hbad) as Hopen. discriminate (eq_trans (eq_sym edges_opened) Hopen).
  - exists s', j, sj. split; [exact Ho|]. split; [exact Hj|exact Hrest].
Defined.

(** The unlinked edge is off the chain of its source, and on that of its
    destination still. *)
Example torn_unlink :
  match EdgeStore.open (W := WalThread) balanced (Some torn_file) with
  | Ok s => (EdgeStore.out_edges 4 1 s, EdgeStore.in_edges 4 2 s) = (Some [1], Some [2; 0])
  | _ => False
  end.
Proof. by vm_compute. Qed.

Definition torn_prop_store : PropStore WalThread :=
  match PropStore.open balanced None with Ok s => s | _ => PropStore.new end.
Definition torn_name : bytes := [Byte.x6e].
Definition prop_before : list PropOp := [POpInsertProp 1 prop_age 0 (Some (VInt 30))].
Definition prop_after : list PropOp := [POpInsertRow 1 [(prop_age, VInt 31); (torn_name, VInt 7)]].

Definition torn_props : PropStore WalThread :=
  prop_exec_ops torn_prop_store (prop_before ++ POpFlush :: prop_after).
Definition torn_prop_file : bytes := all_but_one (prop_wal torn_props).

Lemma props_opened : opened (PropStore.open (W := WalThread) balanced (Some torn_prop_file)) = true.
Proof. by vm_compute. Qed.

Lemma torn_prop_leaves : crash_leaves prop_wal [] torn_props torn_prop_file.
Proof.
  exists (dur_wal (prop_wal torn_props)). split; [by vm_compute|].
  split; [by apply rec_okb_all; vm_compute|]. split; by_decide.
Qed.

Lemma prop_store_crash_witness :
  exists s' j, PropStore.open (W := WalThread) balanced (Some torn_prop_file) = Ok s' /\ (1 < j <= 3)%nat.
Proof.
  destruct (prop_store_crash value_codec_nonempty balanced None [] torn_prop_store prop_before prop_after
    torn_prop_file) as [Hbad|(s' & j & Ho & Hj & _)];
    [by_decide|done|done|by vm_compute| |exact torn_prop_leaves| |].
  - repeat constructor; vm_compute; congruence || lia || done.
  - pose proof (f_equal opened Hbad) as Hopen. discriminate (eq_trans (eq_sym props_opened) Hopen).
  - exists s', j. split; [exact Ho|exact Hj].
Defined.

(** The first property of the row is there, the second is not. *)
Example torn_row :
  match PropStore.open (W := WalThread) balanced (Some torn_prop_file) with
  | Ok s => (PropStore.get_prop 1 prop_age 0 s, PropStore.get_prop 1 torn_name 0 s) = (Some (VInt 31), None)
  | _ => False
  end.
Proof. by vm_compute. Qed.
End witnesses.
