(* ===== verification/StoreLog.v ===== *)
(** * The group-commit log ([src/src/storage/store_log.rs])

    An append-only log that buffers records and syncs them in batches, and its
    replay. File operations succeed; each clock reading is an argument. *)

From S2P Require Export WalFormat WalSink.

Open Scope Z_scope.

Definition OP_TOMBSTONE : Z := 0.
Definition OP_INSERT : Z := 1.
Definition OP_DELETE : Z := 2.

Definition DEFAULT_BATCH_BYTES : Z := 65536.
Definition DEFAULT_BATCH_TIMEOUT_MS : Z := 5.

(** [log_written] is what the OS has been given, [log_durable] what is on stable
    storage. *)
Record StoreLog : Type := mkStoreLog {
  log_written : bytes;
  log_durable : bytes;
  log_buffer : bytes;
  log_batch_size : Z;
  log_batch_timeout : Z;
  log_last_sync : Z;
  log_bytes_written : Z
}.

Module StoreLog.

(** [file] is the content of the log file, if it exists. *)
Definition open_with_opts (now : Z) (file : option bytes) (batch_size batch_timeout : Z)
  : io StoreLog :=
  if batch_size <=? isize_max then
    let content := log_contents file in
    Ok {| log_written := content; log_durable := content; log_buffer := [];
          log_batch_size := batch_size; log_batch_timeout := batch_timeout;
          log_last_sync := now; log_bytes_written := Z.of_nat (length content) |}
  else Panic.

Definition open (now : Z) (file : option bytes) : io StoreLog :=
  open_with_opts now file DEFAULT_BATCH_BYTES (duration_from_millis DEFAULT_BATCH_TIMEOUT_MS).

Definition encode_record (buf : bytes) (opcode : Z) (payload : bytes) : bytes :=
  buf ++ u32_le (wrap32 (Z.of_nat (length payload))) ++ [byte_of_Z opcode] ++ payload.

Definition set_buffer (b : bytes) (s : StoreLog) : StoreLog :=
  {| log_written := log_written s; log_durable := log_durable s; log_buffer := b;
     log_batch_size := log_batch_size s; log_batch_timeout := log_batch_timeout s;
     log_last_sync := log_last_sync s; log_bytes_written := log_bytes_written s |}.

(** Write the buffer out; it is not emptied here. *)
Definition flush_buffer (s : StoreLog) : StoreLog :=
  match log_buffer s with
  | [] => s
  | _ =>
      {| log_written := log_written s ++ log_buffer s; log_durable := log_durable s;
         log_buffer := log_buffer s; log_batch_size := log_batch_size s;
         log_batch_timeout := log_batch_timeout s; log_last_sync := log_last_sync s;
         log_bytes_written := log_bytes_written s |}
  end.

Definition sync_all (s : StoreLog) : StoreLog :=
  {| log_written := log_written s; log_durable := log_written s; log_buffer := log_buffer s;
     log_batch_size := log_batch_size s; log_batch_timeout := log_batch_timeout s;
     log_last_sync := log_last_sync s; log_bytes_written := log_bytes_written s |}.

(** The clock when the timeout is checked and after the sync. *)
Definition maybe_sync (at_check at_sync : Z) (s : StoreLog) : StoreLog :=
  let buffer_full := log_batch_size s <=? Z.of_nat (length (log_buffer s)) in
  let timed_out := log_batch_timeout s <=? Z.max 0 (at_check - log_last_sync s) in
  if buffer_full || timed_out then
    let s1 := sync_all (flush_buffer s) in
    {| log_written := log_written s1; log_durable := log_durable s1; log_buffer := [];
       log_batch_size := log_batch_size s1; log_batch_timeout := log_batch_timeout s1;
       log_last_sync := at_sync;
       log_bytes_written := wrap64 (log_bytes_written s1 + Z.of_nat (length (log_buffer s1))) |}
  else s.

Definition append_insert (at_check at_sync : Z) (payload : bytes) (s : StoreLog) : StoreLog :=
  maybe_sync at_check at_sync (set_buffer (encode_record (log_buffer s) OP_INSERT payload) s).

Definition append_delete (at_check at_sync : Z) (id_bytes : bytes) (s : StoreLog) : StoreLog :=
  maybe_sync at_check at_sync (set_buffer (encode_record (log_buffer s) OP_DELETE id_bytes) s).

Definition sync_now (s : StoreLog) : StoreLog := sync_all (flush_buffer s).

Definition flush (s : StoreLog) : StoreLog := sync_now s.

Definition size_bytes (s : StoreLog) : Z :=
  wrap64 (log_bytes_written s + Z.of_nat (length (log_buffer s))).

End StoreLog.

(** ** Replay *)

Section replay.
Context {S : Type} (on_record : Z -> bytes -> S -> S).

Fixpoint replay_log_loop (fuel : nat) (file : bytes) (s : S) : io unit * S :=
  match fuel with
  | O => (Err OutOfFuel, s)
  | Datatypes.S fuel' =>
      match read_exact 4 file with
      | None => (Ok tt, s)
      | Some (len_buf, file1) =>
          match read_exact 1 file1 with
          | None => (Err UnexpectedEof, s)
          | Some (op, file2) =>
              match read_exact (le_val len_buf) file2 with
              | None => (Err UnexpectedEof, s)
              | Some (payload, file3) =>
                  replay_log_loop fuel' file3
                    (if le_val op =? OP_TOMBSTONE then s else on_record (le_val op) payload s)
              end
          end
      end
  end.

Definition replay_log (file : bytes) (s : S) : io unit * S :=
  match read_exact 4 file with
  | None => (Ok tt, s)
  | Some (magic, rest) =>
      if decide (magic = MAGIC) then replay_log_loop (Datatypes.S (length rest)) rest s
      else (Err InvalidData, s)
  end.
End replay.

(** ** What a log holds *)

(** An opcode and a payload. *)
Definition LogRec : Type := Z * bytes.

Definition log_rec_ok (r : LogRec) : Prop :=
  0 <= r.1 < 256 /\ Z.of_nat (length r.2) <= u32_max.

#[export] Instance log_rec_ok_dec r : Decision (log_rec_ok r) := ltac:(unfold log_rec_ok; apply _).

Definition encode_log (rs : list LogRec) : bytes :=
  concat (map (fun r => StoreLog.encode_record [] r.1 r.2) rs).

Lemma encode_log_app rs1 rs2 : encode_log (rs1 ++ rs2) = encode_log rs1 ++ encode_log rs2.
Proof. unfold encode_log. by rewrite map_app, concat_app. Qed.

Lemma encode_record_app buf op payload :
  StoreLog.encode_record buf op payload = buf ++ StoreLog.encode_record [] op payload.
Proof. done. Qed.

Lemma length_encode_record op payload :
  length (StoreLog.encode_record [] op payload) = (5 + length payload)%nat.
Proof. unfold StoreLog.encode_record. rewrite !length_app, length_u32_le. done. Qed.

Section replay_lemmas.
Context {S : Type} (on_record : Z -> bytes -> S -> S).

Definition log_apply (s : S) (r : LogRec) : S :=
  if r.1 =? OP_TOMBSTONE then s else on_record r.1 r.2 s.

Lemma replay_log_loop_rec f r rest s :
  log_rec_ok r ->
  replay_log_loop on_record (Datatypes.S f) (StoreLog.encode_record [] r.1 r.2 ++ rest) s =
  replay_log_loop on_record f rest (log_apply s r).
Proof.
  destruct r as [op payload]. intros [Hop Hlen]. unfold StoreLog.encode_record. simpl in Hop, Hlen.
  cbn [replay_log_loop fst snd app]. rewrite <-!app_assoc.
  rewrite read_exact_app by by rewrite length_u32_le.
  rewrite le_val_u32, !wrap32_small by (unfold u32_max in *; rewrite ?wrap32_small; lia).
  change ((byte_of_Z op :: payload) ++ rest) with ([byte_of_Z op] ++ payload ++ rest).
  rewrite read_exact_app by done. rewrite read_exact_app by done.
  cbn [le_val]. rewrite Z_of_byte_of_Z, Z.mod_small by lia.
  by replace (op + 256 * 0) with op by lia.
Qed.

Lemma replay_log_recs rs s :
  Forall log_rec_ok rs -> replay_log on_record (MAGIC ++ encode_log rs) s =
    (Ok tt, foldl log_apply s rs).
Proof.
  intros Hrs. unfold replay_log. rewrite read_exact_app by done. rewrite decide_True by done.
  assert (forall f, (length rs < f)%nat ->
    replay_log_loop on_record f (encode_log rs) s = (Ok tt, foldl log_apply s rs)) as Hloop.
  { revert s. unfold encode_log. induction Hrs as [|r rs Hr Hrs IH]; intros s [|f] Hf;
      cbn [map concat foldl length] in *; try lia.
    - done.
    - rewrite replay_log_loop_rec by done. apply IH. lia. }
  apply Hloop. clear. unfold encode_log.
  induction rs as [|r rs IH]; cbn [map concat length]; [lia|].
  rewrite length_app, length_encode_record. lia.
Qed.
End replay_lemmas.

(** ** Appending *)

(** One call of [append_insert] or [append_delete], with its two clock readings. *)
Inductive LogOp : Type :=
| LInsert (at_check at_sync : Z) (payload : bytes)
| LDelete (at_check at_sync : Z) (id_bytes : bytes).

Definition log_exec (s : StoreLog) (op : LogOp) : StoreLog :=
  match op with
  | LInsert c y payload => StoreLog.append_insert c y payload s
  | LDelete c y id_bytes => StoreLog.append_delete c y id_bytes s
  end.

Definition log_op_rec (op : LogOp) : LogRec :=
  match op with
  | LInsert _ _ payload => (OP_INSERT, payload)
  | LDelete _ _ id_bytes => (OP_DELETE, id_bytes)
  end.

(** The file holds the records of [rs1], all durable, and the buffer those of
    [rs2], fewer than a batch. *)
Definition log_holds (rs1 rs2 : list LogRec) (s : StoreLog) : Prop :=
  log_written s = MAGIC ++ encode_log rs1 /\ log_durable s = log_written s /\
  log_buffer s = encode_log rs2.

Lemma maybe_sync_holds c y rs1 rs2 s :
  log_holds rs1 rs2 s ->
  log_holds (rs1 ++ rs2) [] (StoreLog.maybe_sync c y s) \/
  (StoreLog.maybe_sync c y s = s /\ Z.of_nat (length (log_buffer s)) < log_batch_size s /\
    Z.max 0 (c - log_last_sync s) < log_batch_timeout s).
Proof.
  intros (Hw & Hd & Hb). unfold StoreLog.maybe_sync. destruct (_ || _) eqn:Hdue.
  - left. unfold log_holds, StoreLog.flush_buffer, StoreLog.sync_all.
    destruct (log_buffer s) eqn:Hbuf; simpl; rewrite ?Hw, encode_log_app, ?app_assoc, <-Hb;
      split_done. by rewrite app_nil_r.
  - right. apply orb_false_iff in Hdue as [H1 H2]. split_done; blia.
Qed.

(** The clock reading an append compares with the last sync. *)
Definition checked (op : LogOp) : Z :=
  match op with LInsert c _ _ | LDelete c _ _ => c end.

(** What the last append left in the buffer is less than a batch, and was less
    than the interval old. *)
Definition in_window (op : LogOp) (s : StoreLog) : Prop :=
  Z.of_nat (length (log_buffer s)) < log_batch_size s /\
  Z.max 0 (checked op - log_last_sync s) < log_batch_timeout s.

Lemma log_exec_holds rs1 rs2 s op :
  log_holds rs1 rs2 s ->
  exists rs1' rs2', log_holds rs1' rs2' (log_exec s op) /\
    rs1' ++ rs2' = rs1 ++ rs2 ++ [log_op_rec op] /\ (rs2' = [] \/ in_window op (log_exec s op)).
Proof.
  intros (Hw & Hd & Hb).
  assert (forall c y o p, let s2 := StoreLog.maybe_sync c y
      (StoreLog.set_buffer (StoreLog.encode_record (log_buffer s) o p) s) in
    exists rs1' rs2', log_holds rs1' rs2' s2 /\ rs1' ++ rs2' = rs1 ++ rs2 ++ [(o, p)] /\
    (rs2' = [] \/ Z.of_nat (length (log_buffer s2)) < log_batch_size s2 /\
      Z.max 0 (c - log_last_sync s2) < log_batch_timeout s2)) as Hgen.
  { intros c y o p s2. subst s2. set (s1 := StoreLog.set_buffer _ s).
    assert (log_holds rs1 (rs2 ++ [(o, p)]) s1) as Hh1.
    { split; [done|]. split; [done|]. unfold s1. cbn [log_buffer StoreLog.set_buffer].
      rewrite encode_record_app, Hb, encode_log_app. unfold encode_log at 3. simpl.
      by rewrite app_nil_r. }
    destruct (maybe_sync_holds c y _ _ _ Hh1) as [Hs|(Heq & Hlt & Ht)].
    - exists (rs1 ++ rs2 ++ [(o, p)]), []. split; [done|]. split; [by rewrite app_nil_r|by left].
    - rewrite Heq. exists rs1, (rs2 ++ [(o, p)]). split; [done|]. split; [done|by right]. }
  destruct op; simpl; apply Hgen.
Qed.

Lemma log_exec_config s op :
  log_batch_size (log_exec s op) = log_batch_size s /\
  log_batch_timeout (log_exec s op) = log_batch_timeout s.
Proof.
  assert (forall c y s', log_batch_size (StoreLog.maybe_sync c y s') = log_batch_size s' /\
    log_batch_timeout (StoreLog.maybe_sync c y s') = log_batch_timeout s') as Hm.
  { intros c y s'. unfold StoreLog.maybe_sync. destruct (_ || _); [|done].
    unfold StoreLog.flush_buffer. simpl. by destruct (log_buffer s'). }
  destruct op; simpl; unfold StoreLog.append_insert, StoreLog.append_delete;
    by rewrite (proj1 (Hm _ _ _)), (proj2 (Hm _ _ _)).
Qed.

Lemma log_run_config s ops :
  log_batch_size (foldl log_exec s ops) = log_batch_size s /\
  log_batch_timeout (foldl log_exec s ops) = log_batch_timeout s.
Proof.
  revert s. induction ops as [|op ops IH]; intros s; [done|]. simpl.
  destruct (IH (log_exec s op)) as [-> ->]. apply log_exec_config.
Qed.

(** A record takes at least five bytes, so a small buffer is an empty one. *)
Lemma encode_log_small rs : Z.of_nat (length (encode_log rs)) < 5 -> rs = [].
Proof.
  unfold encode_log. destruct rs as [|r rs]; [done|]. cbn [map concat].
  rewrite length_app, length_encode_record. lia.
Qed.

Lemma log_run_holds ops rs1 s :
  log_holds rs1 [] s ->
  let s' := foldl log_exec s ops in
  exists rs1' rs2', log_holds rs1' rs2' s' /\ rs1' ++ rs2' = rs1 ++ map log_op_rec ops /\
    (rs2' = [] \/ exists op, last ops = Some op /\ in_window op s').
Proof.
  intros Hh. induction ops as [|op ops IH] using rev_ind.
  { exists rs1, []. split; [done|]. split; [done|by left]. }
  destruct IH as (r1 & r2 & Hh1 & Heq & _). rewrite foldl_snoc, map_app, last_snoc.
  destruct (log_exec_holds r1 r2 _ op Hh1) as (r1' & r2' & Hh2 & Heq2 & Hwin).
  exists r1', r2'. split; [done|]. split.
  - by rewrite Heq2, app_assoc, Heq, <-app_assoc.
  - destruct Hwin; [by left|right; by exists op].
Qed.

Lemma open_holds now file bs to s rs :
  log_contents file = MAGIC ++ encode_log rs ->
  StoreLog.open_with_opts now file bs to = Ok s ->
  log_holds rs [] s /\ log_batch_size s = bs /\ log_batch_timeout s = to.
Proof.
  unfold StoreLog.open_with_opts. intros Hf. destruct (_ <=? _); [|done].
  intros [= <-]. by repeat split.
Qed.

Section contract.
Context {S : Type} (on_record : Z -> bytes -> S -> S).

(** C33: opening a log of well-formed records and appending to it, no file
    operation failing, whatever the clock does: after every call the records are
    divided into those in the file, all of them durable, and those in the
    buffer. A crash between calls so loses exactly the records in the buffer:
    the file replays without error to all the others. They are fewer than
    [batch_size] bytes, none if [batch_size] is 1 or less, and at the last append
    less than [batch_timeout] had passed since the last sync. File and buffer
    together replay to everything. *)
Theorem group_commit now file bs to s rs0 ops st :
  log_contents file = MAGIC ++ encode_log rs0 ->
  StoreLog.open_with_opts now file bs to = Ok s ->
  Forall log_rec_ok rs0 -> Forall log_rec_ok (map log_op_rec ops) ->
  let s' := foldl log_exec s ops in
  exists kept lost, kept ++ lost = rs0 ++ map log_op_rec ops /\
    log_durable s' = MAGIC ++ encode_log kept /\ log_buffer s' = encode_log lost /\
    replay_log on_record (log_durable s') st = (Ok tt, foldl (log_apply on_record) st kept) /\
    (lost = [] \/ Z.of_nat (length (encode_log lost)) < bs /\
      exists op, last ops = Some op /\ Z.max 0 (checked op - log_last_sync s') < to) /\
    (bs <= 1 -> lost = []) /\
    replay_log on_record (log_written s' ++ log_buffer s') st =
      (Ok tt, foldl (log_apply on_record) st (rs0 ++ map log_op_rec ops)).
Proof.
  intros Hf Ho Hok0 Hok s'. destruct (open_holds _ _ _ _ _ _ Hf Ho) as (Hh & Hbs & Hto).
  destruct (log_run_holds ops _ s Hh) as (kept & lost & (Hw & Hd & Hb) & Heq & Hwin).
  destruct (log_run_config s ops) as [Hbs' Hto']. fold s' in Hw, Hd, Hb, Hwin, Hbs', Hto'.
  assert (Forall log_rec_ok (kept ++ lost)) as Hall by (rewrite Heq; by apply Forall_app).
  unfold in_window in Hwin. rewrite Hb, Hbs', Hto', Hbs, Hto in Hwin.
  exists kept, lost. rewrite Hd, Hw, Hb. split; [done|]. split; [done|]. split; [done|]. split; [|split; [|split]].
  - apply replay_log_recs. by apply Forall_app in Hall as [? _].
  - destruct Hwin as [|(op & Hop & Hlt & Ht)]; [by left|right]. split; [done|by exists op].
  - intros Hle. destruct Hwin as [|(op & _ & Hlt & _)]; [done|]. apply encode_log_small. lia.
  - rewrite <-app_assoc, <-encode_log_app, Heq. apply replay_log_recs. by rewrite <-Heq.
Qed.
End contract.

(** [sync_now] writes the buffer without emptying it, so whatever is
    appended next, the records it wrote are in the log a second time. *)
Theorem sync_now_duplicates s rs1 rs2 op :
  log_holds rs1 rs2 s ->
  log_durable (StoreLog.sync_now s) = MAGIC ++ encode_log (rs1 ++ rs2) /\
  exists rs1' rs2', log_holds rs1' rs2' (log_exec (StoreLog.sync_now s) op) /\
    rs1' ++ rs2' = rs1 ++ rs2 ++ rs2 ++ [log_op_rec op].
Proof.
  intros (Hw & Hd & Hb).
  assert (log_holds (rs1 ++ rs2) rs2 (StoreLog.sync_now s)) as Hh.
  { unfold log_holds, StoreLog.sync_now, StoreLog.flush_buffer. rewrite encode_log_app, app_assoc.
    destruct (log_buffer s) eqn:Hbuf; simpl; rewrite Hw, <-?Hb; split_done; by rewrite app_nil_r. }
  split; [destruct Hh as (<- & -> & _); done|].
  destruct (log_exec_holds _ _ _ op Hh) as (r1 & r2 & Hh' & Heq & _).
  exists r1, r2. split; [done|]. by rewrite Heq, <-app_assoc.
Qed.

(** ** Concrete logs *)

Definition push_log (op : Z) (payload : bytes) (acc : list LogRec) : list LogRec :=
  acc ++ [(op, payload)].

(** Two appends that fill a batch of 12 bytes, then one that stays buffered. *)
Definition sample_ops : list LogOp :=
  [LInsert 0 0 [Byte.x07]; LDelete 0 0 [Byte.x07]; LInsert 1 1 []].

Definition sample_log : StoreLog :=
  match StoreLog.open_with_opts 0 None 12 5000 with Ok s => s | _ => mkStoreLog [] [] [] 0 0 0 0 end.

Example sample_log_run :
  let s := foldl log_exec sample_log sample_ops in
  length (log_durable s) = 16%nat /\ length (log_buffer s) = 5%nat /\
  StoreLog.size_bytes s = 21.
Proof. by vm_compute. Qed.

Lemma group_commit_witness :
  exists kept lost, kept ++ lost = [(1, [Byte.x07]); (2, [Byte.x07]); (1, [])] /\
    replay_log push_log (log_durable (foldl log_exec sample_log sample_ops)) [] =
      (Ok tt, foldl (log_apply push_log) [] kept).
Proof.
  destruct (group_commit push_log 0 None 12 5000 sample_log [] sample_ops []
    eq_refl eq_refl ltac:(by_decide) ltac:(by_decide)) as (kept & lost & Heq & _ & _ & Hr & _).
  exists kept, lost. split; [exact Heq|exact Hr].
Defined.

Lemma sync_now_duplicates_witness :
  exists rs1 rs2,
    log_holds rs1 rs2
      (log_exec (StoreLog.sync_now (log_exec sample_log (LInsert 0 0 []))) (LInsert 9000 9000 [])) /\
    rs1 ++ rs2 = [(1, []); (1, []); (1, [])].
Proof.
  assert (log_holds [] [(1, [])] (log_exec sample_log (LInsert 0 0 []))) as Hh
    by by vm_compute.
  exact (proj2 (sync_now_duplicates _ [] [(1, [])] (LInsert 9000 9000 []) Hh)).
Defined.
