(* ===== verification/WalLog.v ===== *)
(** * The transaction log ([src/src/wal/mod.rs])

    [WalWriter] appends length-prefixed serialized records and syncs them in
    groups; [WalReader] reads them back. The serializer is any [Codec WalRecord];
    file operations succeed and each clock reading is an argument. *)

From S2P Require Export Graph PropStore.

Open Scope Z_scope.

(** A [HashMap<String, Value>]. *)
Abbreviation Props := (gmap bytes Value).

Inductive WalRecord : Type :=
| Begin (tx : Z)
| Commit (tx : Z)
| Rollback (tx : Z)
| NodeCreate (tx node : Z) (labels : list bytes) (props : Props)
| NodeUpdate (tx node : Z) (props : Props)
| NodeDelete (tx node : Z)
| EdgeCreate (tx edge src dst : Z) (ty : bytes) (props : Props)
| EdgeDelete (tx edge : Z)
| Checkpoint (snapshot_id : Z).

#[export] Instance WalRecord_eq_dec : EqDecision WalRecord.
Proof. solve_decision. Defined.

(** [ww_written] is what the OS has been given, [ww_durable] what is on stable
    storage. *)
Record WalWriter : Type := mkWalWriter {
  ww_written : bytes;
  ww_durable : bytes;
  ww_buffer : bytes;
  max_buffer_size : Z;
  last_fsync : Z;
  fsync_interval : Z
}.

Module WalWriter.
Section operations.
Context `{Codec WalRecord}.

(** [file] is the content of the log file, if it exists; 100 microseconds are
    counted in nanoseconds. *)
Definition open (now : Z) (file : option bytes) : WalWriter :=
  {| ww_written := default [] file; ww_durable := default [] file; ww_buffer := [];
     max_buffer_size := 65536; last_fsync := now; fsync_interval := 100000 |}.

Definition flush (now : Z) (w : WalWriter) : WalWriter :=
  let written := ww_written w ++ ww_buffer w in
  {| ww_written := written; ww_durable := written; ww_buffer := [];
     max_buffer_size := max_buffer_size w; last_fsync := now;
     fsync_interval := fsync_interval w |}.

Definition set_buffer (b : bytes) (w : WalWriter) : WalWriter :=
  {| ww_written := ww_written w; ww_durable := ww_durable w; ww_buffer := b;
     max_buffer_size := max_buffer_size w; last_fsync := last_fsync w;
     fsync_interval := fsync_interval w |}.

(** The clock when the interval is checked and after the sync; [Panic] is
    [expect] on a record that does not serialize. *)
Definition write (at_check at_sync : Z) (record : WalRecord) (w : WalWriter) : io WalWriter :=
  match serialize record with
  | None => Panic
  | Some data =>
      let w1 := set_buffer
        (ww_buffer w ++ u32_le (wrap32 (Z.of_nat (length data))) ++ data) w in
      if (max_buffer_size w1 <=? Z.of_nat (length (ww_buffer w1)))
         || (fsync_interval w1 <=? Z.max 0 (at_check - last_fsync w1))
      then Ok (flush at_sync w1) else Ok w1
  end.
End operations.
End WalWriter.

Module WalReader.
Section operations.
Context `{Codec WalRecord}.

(** [file] is what is left of it; every pass consumes at least four bytes. *)
Fixpoint replay_loop (fuel : nat) (file : bytes) (records : list WalRecord)
  : io (list WalRecord) :=
  match fuel with
  | O => Err OutOfFuel
  | S fuel' =>
      match read_exact 4 file with
      | None => Ok records
      | Some (len_buf, file1) =>
          match read_exact (le_val len_buf) file1 with
          | None => Err UnexpectedEof
          | Some (data, file2) =>
              match deserialize data with
              | None => Err InvalidData
              | Some record => replay_loop fuel' file2 (records ++ [record])
              end
          end
      end
  end.

(** [open], then [replay], on a file with this content, if it exists. *)
Definition open (file : option bytes) : io bytes :=
  match file with Some bs => Ok bs | None => Err NotFound end.

Definition replay (file : bytes) : io (list WalRecord) :=
  replay_loop (S (length file)) file [].
End operations.
End WalReader.

(** ** The log's contents *)

Section contents.
Context `{CodecLaws WalRecord}.

Definition wal_data (r : WalRecord) : bytes := default [] (serialize r).

Definition encode_wal_rec (r : WalRecord) : bytes :=
  u32_le (wrap32 (Z.of_nat (length (wal_data r)))) ++ wal_data r.

Definition encode_wal (rs : list WalRecord) : bytes := concat (map encode_wal_rec rs).

(** The length of the serialized record fits the length field. *)
Definition wal_fits (r : WalRecord) : Prop := Z.of_nat (length (wal_data r)) <= u32_max.

Lemma wal_data_serialize r : serialize r = Some (wal_data r).
Proof. unfold wal_data. by destruct (serialize_total r) as [bs ->]. Qed.

Lemma encode_wal_app rs1 rs2 : encode_wal (rs1 ++ rs2) = encode_wal rs1 ++ encode_wal rs2.
Proof. unfold encode_wal. by rewrite map_app, concat_app. Qed.

Lemma encode_wal_one r : encode_wal [r] = encode_wal_rec r.
Proof. apply app_nil_r. Qed.

Lemma length_encode_wal_rec r :
  length (encode_wal_rec r) = (4 + length (wal_data r))%nat.
Proof. unfold encode_wal_rec. by rewrite length_app, length_u32_le. Qed.

(** What a reader makes of the first [n] bytes of the log of [rs]: everything
    when the cut is at a record boundary or inside a length field, otherwise an
    error and no record at all. *)
Fixpoint cut_wal (rs : list WalRecord) (n : nat) : io (list WalRecord) :=
  match rs with
  | [] => Ok []
  | r :: rs' =>
      let len := length (encode_wal_rec r) in
      if (len <=? n)%nat then
        let? k := cut_wal rs' (n - len) in Ok (r :: k)
      else if (n <? 4)%nat then Ok [] else Err UnexpectedEof
  end.

Lemma wal_loop_rec f r rest acc :
  wal_fits r ->
  WalReader.replay_loop (S f) (encode_wal_rec r ++ rest) acc =
  WalReader.replay_loop f rest (acc ++ [r]).
Proof.
  intros Hr. unfold wal_fits in Hr. unfold encode_wal_rec. cbn [WalReader.replay_loop].
  rewrite <-app_assoc, read_exact_app by by rewrite length_u32_le.
  rewrite le_val_u32, !wrap32_small by (unfold u32_max in *; rewrite ?wrap32_small; lia).
  rewrite read_exact_app by done.
  by rewrite (deserialize_serialize r _ (wal_data_serialize r)).
Qed.

Lemma wal_loop_torn f r n acc :
  wal_fits r -> (4 <= n < length (encode_wal_rec r))%nat ->
  WalReader.replay_loop (S f) (take n (encode_wal_rec r)) acc = Err UnexpectedEof.
Proof.
  intros Hr Hn. unfold wal_fits in Hr. rewrite length_encode_wal_rec in Hn.
  unfold encode_wal_rec. cbn [WalReader.replay_loop].
  rewrite take_app, length_u32_le, take_ge by (rewrite length_u32_le; lia).
  rewrite read_exact_app by by rewrite length_u32_le.
  rewrite le_val_u32, !wrap32_small by (unfold u32_max in *; rewrite ?wrap32_small; lia).
  rewrite read_exact_short; [done|]. rewrite length_take. lia.
Qed.

Lemma wal_loop_cut f rs n acc :
  Forall wal_fits rs -> (length (take n (encode_wal rs)) < f)%nat ->
  WalReader.replay_loop f (take n (encode_wal rs)) acc =
    (let? k := cut_wal rs n in Ok (acc ++ k)).
Proof.
  intros Hrs. revert f n acc. unfold encode_wal.
  induction Hrs as [|r rs Hr Hrs IH]; intros [|f] n acc Hf; cbn [map concat cut_wal] in *; try lia.
  - rewrite take_nil. simpl. by rewrite app_nil_r.
  - destruct (Nat.leb_spec (length (encode_wal_rec r)) n) as [Hle|Hgt].
    + rewrite take_app, take_ge by lia. rewrite wal_loop_rec by done. rewrite IH.
      * destruct (cut_wal rs _); simpl; [by rewrite <-app_assoc|done..].
      * rewrite take_app, (take_ge (encode_wal_rec r)), length_app in Hf by lia.
        rewrite (length_encode_wal_rec r) in Hf at 1. lia.
    + rewrite take_app_le by lia. destruct (Nat.ltb_spec n 4).
      * cbn [WalReader.replay_loop]. rewrite read_exact_short by (rewrite length_take; lia).
        simpl. by rewrite app_nil_r.
      * by apply wal_loop_torn.
Qed.

Lemma cut_wal_full rs : cut_wal rs (length (encode_wal rs)) = Ok rs.
Proof.
  unfold encode_wal. induction rs as [|r rs IH]; [done|]. cbn [map concat cut_wal].
  rewrite length_app. destruct (Nat.leb_spec (length (encode_wal_rec r))
    (length (encode_wal_rec r) + length (concat (map encode_wal_rec rs)))); [|lia].
  by rewrite Nat.add_comm, Nat.add_sub, IH.
Qed.

Lemma wal_replay_recs rs : Forall wal_fits rs -> WalReader.replay (encode_wal rs) = Ok rs.
Proof.
  intros Hrs. unfold WalReader.replay.
  rewrite <-(take_ge (encode_wal rs) (length (encode_wal rs))) at 2 by lia.
  rewrite wal_loop_cut by (done || (rewrite length_take; lia)).
  by rewrite cut_wal_full.
Qed.

(** A transaction log cut at any byte: the reader returns the complete
    records when the cut is at the end of one or inside the length field of the
    next, and otherwise fails with [UnexpectedEof], returning none of the
    records it has read. *)
Theorem wal_replay_cut rs n :
  Forall wal_fits rs -> WalReader.replay (take n (encode_wal rs)) = cut_wal rs n.
Proof.
  intros Hrs. unfold WalReader.replay. rewrite wal_loop_cut by (done || lia).
  by destruct (cut_wal rs n).
Qed.

(** ** Writing *)

Inductive WalOp : Type :=
| WWrite (at_check at_sync : Z) (record : WalRecord)
| WFlush (now : Z).

Definition wal_exec (w : io WalWriter) (op : WalOp) : io WalWriter :=
  let? w := w in
  match op with
  | WWrite c y r => WalWriter.write c y r w
  | WFlush now => Ok (WalWriter.flush now w)
  end.

Definition wal_op_recs (op : WalOp) : list WalRecord :=
  match op with WWrite _ _ r => [r] | WFlush _ => [] end.

(** [rs1] on stable storage, [rs2] in the buffer, which is below its limit. *)
Definition wal_holds (rs1 rs2 : list WalRecord) (w : WalWriter) : Prop :=
  ww_written w = encode_wal rs1 /\ ww_durable w = ww_written w /\
  ww_buffer w = encode_wal rs2 /\ max_buffer_size w = 65536 /\
  Z.of_nat (length (ww_buffer w)) < 65536.

Lemma flush_holds now rs1 rs2 w :
  ww_written w = encode_wal rs1 -> ww_buffer w = encode_wal rs2 -> max_buffer_size w = 65536 ->
  wal_holds (rs1 ++ rs2) [] (WalWriter.flush now w).
Proof. intros Hw Hb Hm. unfold wal_holds. simpl. rewrite Hw, Hb, encode_wal_app. done. Qed.

Lemma wal_exec_holds rs1 rs2 w op :
  wal_holds rs1 rs2 w ->
  exists w' rs1' rs2', wal_exec (Ok w) op = Ok w' /\ wal_holds rs1' rs2' w' /\
    rs1' ++ rs2' = rs1 ++ rs2 ++ wal_op_recs op /\
    (match op with WFlush _ => rs2' = [] | _ => True end).
Proof.
  intros (Hw & Hd & Hb & Hm & Hl). destruct op as [c y r|now]; simpl.
  - unfold WalWriter.write. rewrite wal_data_serialize.
    set (w1 := WalWriter.set_buffer _ w).
    assert (ww_buffer w1 = encode_wal (rs2 ++ [r])) as Hb1.
    { unfold w1. cbn [ww_buffer WalWriter.set_buffer]. by rewrite Hb, encode_wal_app, encode_wal_one. }
    destruct (_ || _) eqn:Hdue.
    + exists (WalWriter.flush y w1), (rs1 ++ rs2 ++ [r]), []. split; [done|].
      rewrite app_nil_r. split_done. by apply flush_holds.
    + exists w1, rs1, (rs2 ++ [r]). apply orb_false_iff in Hdue as [Hfull _].
      unfold wal_holds. rewrite Hb1 in *. cbn in Hfull. rewrite Hm in Hfull.
      split_done; blia.
  - exists (WalWriter.flush now w), (rs1 ++ rs2), []. rewrite !app_nil_r.
    split_done. by apply flush_holds.
Qed.

Lemma wal_run_holds ops rs1 rs2 w :
  wal_holds rs1 rs2 w ->
  exists w' rs1' rs2', foldl wal_exec (Ok w) ops = Ok w' /\ wal_holds rs1' rs2' w' /\
    rs1' ++ rs2' = rs1 ++ rs2 ++ concat (map wal_op_recs ops).
Proof.
  revert rs1 rs2 w. induction ops as [|op ops IH]; intros rs1 rs2 w Hh.
  - exists w, rs1, rs2. by rewrite app_nil_r.
  - destruct (wal_exec_holds rs1 rs2 w op Hh) as (w1 & r1 & r2 & He & Hh1 & Heq & _).
    destruct (IH r1 r2 w1 Hh1) as (w' & r1' & r2' & He' & Hh' & Heq').
    exists w', r1', r2'. cbn [foldl map concat]. rewrite He. split; [done|]. split; [done|].
    by rewrite Heq', app_assoc, Heq, <-!app_assoc.
Qed.

(** C32: opening a transaction log and running any sequence of writes and
    flushes, whatever the clock: no call panics, and the file a crash leaves
    reads back as all earlier records and the first written ones; at most 64 KB
    of records are missing, and none after a flush. *)
Theorem wal_log_recovers now file rs0 ops :
  default [] file = encode_wal rs0 ->
  Forall wal_fits (rs0 ++ concat (map wal_op_recs ops)) ->
  exists w kept lost, foldl wal_exec (Ok (WalWriter.open now file)) ops = Ok w /\
    kept ++ lost = rs0 ++ concat (map wal_op_recs ops) /\
    (let? bs := WalReader.open (Some (ww_durable w)) in WalReader.replay bs) = Ok kept /\
    Z.of_nat (length (encode_wal lost)) < 65536 /\
    forall t, (let? bs := WalReader.open (Some (ww_durable (WalWriter.flush t w))) in
               WalReader.replay bs) = Ok (rs0 ++ concat (map wal_op_recs ops)).
Proof.
  intros Hf Hok.
  assert (wal_holds rs0 [] (WalWriter.open now file)) as Hh.
  { unfold wal_holds. simpl. by rewrite Hf. }
  destruct (wal_run_holds ops _ _ _ Hh) as (w & kept & lost & He & (Hw & Hd & Hb & Hm & Hl) & Heq).
  simpl in Heq. rewrite <-Heq in Hok |- *. exists w, kept, lost. cbn [WalReader.open res_bind].
  split; [done|]. split; [done|]. split; [|split].
  - rewrite Hd, Hw. apply wal_replay_recs. by apply Forall_app in Hok as [? _].
  - by rewrite <-Hb.
  - intros t. simpl. rewrite Hw, Hb, <-encode_wal_app. by apply wal_replay_recs.
Qed.
End contents.

(** Reading a transaction log ends on every file, whatever its bytes and
    whatever the serializer makes of them. *)
Theorem wal_replay_terminates `{Codec WalRecord} file :
  WalReader.replay file <> Err OutOfFuel.
Proof.
  unfold WalReader.replay. assert (forall f bs acc, (length bs < f)%nat ->
    WalReader.replay_loop f bs acc <> Err OutOfFuel) as Hl; [|apply Hl; lia].
  induction f as [|f IH]; intros bs acc Hf; cbn [WalReader.replay_loop]; [lia|].
  destruct (read_exact 4 bs) as [[lb rest]|] eqn:E1; [|done].
  apply read_exact_Some in E1 as [-> Hlb]; [|lia].
  destruct (read_exact _ rest) as [[data rest']|] eqn:E2; [|done].
  apply read_exact_Some in E2 as [-> _]; [|apply le_val_range].
  destruct (deserialize data); [|done]. apply IH. rewrite !length_app in Hf. lia.
Qed.

(** ** A concrete log *)

Definition wal_record_sum (r : WalRecord) :
  Z + Z + Z + (Z * Z * list bytes * Props) + (Z * Z * Props) + (Z * Z) +
  (Z * Z * Z * Z * bytes * Props) + (Z * Z) + Z :=
  match r with
  | Begin t => inl (inl (inl (inl (inl (inl (inl (inl t)))))))
  | Commit t => inl (inl (inl (inl (inl (inl (inl (inr t)))))))
  | Rollback t => inl (inl (inl (inl (inl (inl (inr t))))))
  | NodeCreate t n ls ps => inl (inl (inl (inl (inl (inr (t, n, ls, ps))))))
  | NodeUpdate t n ps => inl (inl (inl (inl (inr (t, n, ps)))))
  | NodeDelete t n => inl (inl (inl (inr (t, n))))
  | EdgeCreate t e s d ty ps => inl (inl (inr (t, e, s, d, ty, ps)))
  | EdgeDelete t e => inl (inr (t, e))
  | Checkpoint i => inr i
  end.

Definition sum_wal_record (x :
  Z + Z + Z + (Z * Z * list bytes * Props) + (Z * Z * Props) + (Z * Z) +
  (Z * Z * Z * Z * bytes * Props) + (Z * Z) + Z) : WalRecord :=
  match x with
  | inl (inl (inl (inl (inl (inl (inl (inl t))))))) => Begin t
  | inl (inl (inl (inl (inl (inl (inl (inr t))))))) => Commit t
  | inl (inl (inl (inl (inl (inl (inr t)))))) => Rollback t
  | inl (inl (inl (inl (inl (inr (t, n, ls, ps)))))) => NodeCreate t n ls ps
  | inl (inl (inl (inl (inr (t, n, ps))))) => NodeUpdate t n ps
  | inl (inl (inl (inr (t, n)))) => NodeDelete t n
  | inl (inl (inr (t, e, s, d, ty, ps))) => EdgeCreate t e s d ty ps
  | inl (inr (t, e)) => EdgeDelete t e
  | inr i => Checkpoint i
  end.

#[export] Instance WalRecord_countable : Countable WalRecord.
Proof. refine (inj_countable' wal_record_sum sum_wal_record _). by intros []. Defined.

Section witnesses.
#[local] Instance wal_codec : Codec WalRecord := countable_codec.
#[local] Instance wal_codec_laws : CodecLaws WalRecord := countable_codec_laws.

Definition sample_records : list WalRecord :=
  [Begin 1; NodeCreate 1 7 [[Byte.x61]] {[ [Byte.x62] := VInt 3 ]}; Commit 1].

#[local] Instance wal_fits_dec r : Decision (wal_fits r) := ltac:(unfold wal_fits; apply _).

Lemma wal_replay_cut_witness :
  Forall wal_fits sample_records /\
  WalReader.replay (take 20 (encode_wal sample_records)) = cut_wal sample_records 20 /\
  cut_wal sample_records 20 = Err UnexpectedEof /\ cut_wal sample_records 8 = Ok [Begin 1].
Proof.
  assert (Forall wal_fits sample_records) as Hok by by_decide.
  split; [exact Hok|]. split; [exact (wal_replay_cut sample_records 20 Hok)|].
  split; by vm_compute.
Defined.

Lemma wal_log_recovers_witness :
  exists w kept lost,
    foldl wal_exec (Ok (WalWriter.open 0 (Some (encode_wal sample_records))))
      [WWrite 5 5 (Begin 2); WWrite 100000 100001 (Rollback 2); WWrite 100005 100005 (Checkpoint 3)]
      = Ok w /\
    kept ++ lost = sample_records ++ [Begin 2; Rollback 2; Checkpoint 3] /\
    WalReader.replay (ww_durable w) = Ok kept.
Proof.
  destruct (wal_log_recovers 0 (Some (encode_wal sample_records)) sample_records
    [WWrite 5 5 (Begin 2); WWrite 100000 100001 (Rollback 2); WWrite 100005 100005 (Checkpoint 3)]
    eq_refl ltac:(by_decide)) as (w & kept & lost & He & Heq & Hr & _).
  exists w, kept, lost. split; [exact He|]. split; [exact Heq|exact Hr].
Defined.
End witnesses.
