(* ===== verification/Snapshot.v ===== *)
(** * Snapshots ([src/src/snapshot/mod.rs])

    [SnapshotManager] writes the contents of the stores to [snapshot-NNNN.bin],
    names the latest one in [manifest.json], and on recovery loads it and lists
    the WAL files to replay. A data directory is a map from file names to
    contents; serializers are parameters ([Codec] for bincode, [Json] for
    serde_json); file operations succeed. *)

From S2P Require Export Graph PropStore.

Open Scope Z_scope.

(** ** The directory *)

Abbreviation Dir := (gmap bytes bytes).

(** [trail] is every content the directory had on the way to [dir]: what a
    process that is killed can leave behind. *)
Record Fs : Type := mkFs {
  dir : Dir;
  trail : list Dir
}.

Module Fs.
(** [File::create]: an empty file, truncating an existing one. *)
Definition create (name : bytes) (fs : Fs) : Fs :=
  {| dir := <[name := []]> (dir fs); trail := trail fs ++ [<[name := []]> (dir fs)] |}.

(** [write_all] to a file just created: any number of bytes may have arrived. *)
Definition write_all (name data : bytes) (fs : Fs) : Fs :=
  {| dir := <[name := data]> (dir fs);
     trail := trail fs ++
       map (fun n => <[name := take n data]> (dir fs)) (seq 0 (S (length data))) |}.

(** [std::fs::write]. *)
Definition write (name data : bytes) (fs : Fs) : Fs := write_all name data (create name fs).
End Fs.

(** ** Text *)

Definition bytes_of_string (s : String.string) : bytes := String.list_byte_of_string s.

Definition digit (z : Z) : byte := byte_of_Z (48 + z).

Fixpoint decimal (fuel : nat) (z : Z) : bytes :=
  match fuel with
  | O => []
  | S fuel' => if z <? 10 then [digit z] else decimal fuel' (z / 10) ++ [digit (z mod 10)]
  end.

(** The format [{:04}]; a [u64] has at most 20 digits. *)
Definition format_04 (z : Z) : bytes :=
  let ds := decimal 20 z in replicate (4 - length ds) (digit 0) ++ ds.

Definition snapshot_file (snapshot_id : Z) : bytes :=
  bytes_of_string "snapshot-" ++ format_04 snapshot_id ++ bytes_of_string ".bin".

Definition manifest_file : bytes := bytes_of_string "manifest.json".

(** ** The serializer of the manifest *)

Class Json (A : Type) : Type := {
  to_string_pretty : A -> io bytes;
  from_str : bytes -> io A
}.

(** serde_json writes UTF-8 that it reads back, and finds no value in an empty
    text. *)
Class JsonLaws (A : Type) `{Json A} : Prop := {
  to_string_total (a : A) : exists s, to_string_pretty a = Ok s;
  from_to_string (a : A) s : to_string_pretty a = Ok s -> from_str s = Ok a;
  to_string_utf8 (a : A) s : to_string_pretty a = Ok s -> utf8_valid s = true;
  from_str_empty : from_str [] = Err UnexpectedEof
}.

(** ** Manifest *)

Record Manifest : Type := mkManifest {
  latest_snapshot_id : Z;
  latest_snapshot_path : bytes;
  merged_wal_files : list bytes
}.

#[export] Instance Manifest_eq_dec : EqDecision Manifest.
Proof. solve_decision. Defined.

Module Manifest.
Section operations.
Context `{Json Manifest}.

Definition empty : Manifest :=
  {| latest_snapshot_id := 0; latest_snapshot_path := []; merged_wal_files := [] |}.

(** [read_to_string] fails on a file that is not UTF-8. *)
Definition read (d : Dir) : io Manifest :=
  match d !! manifest_file with
  | None => Ok empty
  | Some data => if utf8_valid data then from_str data else Err InvalidData
  end.

Definition write (m : Manifest) (fs : Fs) : Fs * io unit :=
  match to_string_pretty m with
  | Ok data => (Fs.write manifest_file data fs, Ok tt)
  | Err e => (fs, Err e)
  | Panic => (fs, Panic)
  end.
End operations.
End Manifest.

(** ** Snapshot data *)

Abbreviation PropColumns := (list (Z * bytes * list (option Value))).

Record SnapshotData : Type := mkSnapshotData {
  version : Z;
  snapshot_id : Z;
  snap_nodes : list Node;
  snap_edges : list Edge;
  prop_columns : PropColumns;
  next_node_id : Z;
  next_edge_id : Z
}.

Section files.
Context `{Codec SnapshotData}.

Definition write_snapshot (id : Z) (nodes : list Node) (edges : list Edge) (props : PropColumns)
    (next_node next_edge : Z) (fs : Fs) : Fs * io unit :=
  let path := snapshot_file id in
  let data := {| version := 1; snapshot_id := id; snap_nodes := nodes; snap_edges := edges;
                 prop_columns := props; next_node_id := next_node; next_edge_id := next_edge |} in
  let fs1 := Fs.create path fs in
  match serialize data with
  | None => (fs1, Err InvalidData)
  | Some encoded => (Fs.write_all path encoded fs1, Ok tt)
  end.

Definition read_snapshot (id : Z) (d : Dir) : io SnapshotData :=
  match d !! snapshot_file id with
  | None => Err NotFound
  | Some buf => match deserialize buf with Some data => Ok data | None => Err InvalidData end
  end.

Definition load_latest (m : Manifest) (d : Dir) : io (option SnapshotData) :=
  if latest_snapshot_id m =? 0 then Ok None
  else let? data := read_snapshot (latest_snapshot_id m) d in Ok (Some data).
End files.

(** ** SnapshotManager *)

Record SnapshotManager : Type := mkSnapshotManager {
  manifest : Manifest;
  wal_bytes_since_snapshot : Z;
  snapshot_interval_bytes : Z
}.

Definition wal_files : list bytes :=
  [bytes_of_string "nodes.wal"; bytes_of_string "edges.wal"; bytes_of_string "props.wal"].

Module SnapshotManager.
Section operations.
Context `{Codec SnapshotData} `{Json Manifest}.

Definition new (d : Dir) : io SnapshotManager :=
  let? m := Manifest.read d in
  Ok {| manifest := m; wal_bytes_since_snapshot := 0; snapshot_interval_bytes := 536870912 |}.

Definition add_wal_bytes (n : Z) (s : SnapshotManager) : SnapshotManager :=
  {| manifest := manifest s;
     wal_bytes_since_snapshot := wrap64 (wal_bytes_since_snapshot s + n);
     snapshot_interval_bytes := snapshot_interval_bytes s |}.

Definition should_snapshot (s : SnapshotManager) : bool :=
  (latest_snapshot_id (manifest s) =? 0)
  || (snapshot_interval_bytes s <=? wal_bytes_since_snapshot s).

Definition set_manifest (m : Manifest) (s : SnapshotManager) : SnapshotManager :=
  {| manifest := m; wal_bytes_since_snapshot := wal_bytes_since_snapshot s;
     snapshot_interval_bytes := snapshot_interval_bytes s |}.

Definition take_snapshot (nodes : list Node) (edges : list Edge) (props : PropColumns)
    (next_node next_edge : Z) (s : SnapshotManager) (fs : Fs)
  : Fs * SnapshotManager * io Z :=
  let id := wrap64 (latest_snapshot_id (manifest s) + 1) in
  match write_snapshot id nodes edges props next_node next_edge fs with
  | (fs1, Ok _) =>
      let m := {| latest_snapshot_id := id; latest_snapshot_path := snapshot_file id;
                  merged_wal_files := merged_wal_files (manifest s) |} in
      let s1 := set_manifest m s in
      match Manifest.write m fs1 with
      | (fs2, Ok _) =>
          (fs2, {| manifest := m; wal_bytes_since_snapshot := 0;
                   snapshot_interval_bytes := snapshot_interval_bytes s1 |}, Ok id)
      | (fs2, Err e) => (fs2, s1, Err e)
      | (fs2, Panic) => (fs2, s1, Panic)
      end
  | (fs1, Err e) => (fs1, s, Err e)
  | (fs1, Panic) => (fs1, s, Panic)
  end.

Definition merge_wal (wal_file : bytes) (s : SnapshotManager) (fs : Fs)
  : Fs * SnapshotManager * io unit :=
  let m := {| latest_snapshot_id := latest_snapshot_id (manifest s);
              latest_snapshot_path := latest_snapshot_path (manifest s);
              merged_wal_files := merged_wal_files (manifest s) ++ [wal_file] |} in
  let '(fs1, r) := Manifest.write m fs in
  (fs1, set_manifest m s, r).

(** WAL files of the directory that are not marked as merged. *)
Definition unmerged (d : Dir) (merged : list bytes) : list bytes :=
  filter (fun f => f ∉ merged /\ is_Some (d !! f)) wal_files.

Definition recover (s : SnapshotManager) (d : Dir) : io (option SnapshotData * list bytes) :=
  let? snapshot := load_latest (manifest s) d in
  Ok (snapshot,
      match snapshot with
      | Some _ => unmerged d (merged_wal_files (manifest s))
      | None => []
      end).

(** Opening a directory and recovering from it. *)
Definition reopen (d : Dir) : io (option SnapshotData * list bytes) :=
  let? s := new d in recover s d.
End operations.
End SnapshotManager.

(** ** File names *)

Definition decimal_val (bs : bytes) : Z := foldl (fun v b => 10 * v + (Z_of_byte b - 48)) 0 bs.

Lemma digit_val z : 0 <= z < 10 -> Z_of_byte (digit z) = 48 + z.
Proof. intros Hz. unfold digit. rewrite Z_of_byte_of_Z, Z.mod_small; lia. Qed.

Lemma decimal_val_decimal fuel z :
  0 <= z < 10 ^ Z.of_nat fuel -> decimal_val (decimal fuel z) = z.
Proof.
  revert z. induction fuel as [|fuel IH]; intros z Hz; [change (10 ^ Z.of_nat 0) with 1 in Hz; cbn; lia|].
  rewrite Nat2Z.inj_succ, Z.pow_succ_r in Hz by lia. cbn [decimal].
  unfold decimal_val in *. destruct (Z.ltb_spec z 10).
  - simpl. rewrite digit_val; lia.
  - pose proof (Z.div_mod z 10). pose proof (Z.mod_pos_bound z 10).
    pose proof (Z.div_lt_upper_bound z 10 (10 ^ Z.of_nat fuel)).
    pose proof (Z.div_pos z 10). rewrite foldl_snoc, IH, digit_val; lia.
Qed.

Lemma format_04_val z : 0 <= z <= u64_max -> decimal_val (format_04 z) = z.
Proof.
  intros Hz. unfold format_04. unfold decimal_val. rewrite foldl_app.
  assert (forall n, foldl (fun v b => 10 * v + (Z_of_byte b - 48)) 0 (replicate n (digit 0)) = 0)
    as ->.
  { induction n as [|n IH]; [done|]. cbn [replicate foldl]. by rewrite digit_val by lia. }
  apply decimal_val_decimal. unfold u64_max in Hz. simpl. lia.
Qed.

Lemma snapshot_file_inj a b :
  0 <= a <= u64_max -> 0 <= b <= u64_max -> snapshot_file a = snapshot_file b -> a = b.
Proof.
  intros Ha Hb Heq. unfold snapshot_file in Heq.
  apply app_inv_head, app_inv_tail in Heq.
  by rewrite <-(format_04_val a), <-(format_04_val b), Heq.
Qed.

(** The other names begin with another letter. *)
Lemma snapshot_file_not id f : head f <> Some Byte.x73 -> f <> snapshot_file id.
Proof. intros Hf ->. by apply Hf. Qed.

Lemma snapshot_file_manifest id : manifest_file <> snapshot_file id.
Proof. by apply snapshot_file_not. Qed.

Lemma wal_files_not f : f ∈ wal_files -> f <> manifest_file /\ forall id, f <> snapshot_file id.
Proof.
  unfold wal_files. intros Hf. repeat (apply elem_of_cons in Hf as [->|Hf];
    [split; [done|intros id; by apply snapshot_file_not]|]). by apply elem_of_nil in Hf.
Qed.

(** ** Writing and reading *)

Lemma dir_write_all name data fs : dir (Fs.write_all name data fs) = <[name := data]> (dir fs).
Proof. done. Qed.

Lemma dir_write name data fs : dir (Fs.write name data fs) = <[name := data]> (dir fs).
Proof. unfold Fs.write. rewrite dir_write_all. simpl. apply insert_insert_eq. Qed.

Lemma trail_write_all name data fs d :
  d ∈ trail (Fs.write_all name data fs) <->
  d ∈ trail fs \/ exists n, d = <[name := take n data]> (dir fs).
Proof.
  unfold Fs.write_all. cbn [trail]. rewrite elem_of_app, list_elem_of_fmap. split.
  - intros [Hd|(n & -> & _)]; eauto.
  - intros [Hd|[n ->]]; [by left|]. right. exists (n `min` length data)%nat.
    rewrite elem_of_seq. split; [|lia]. f_equal.
    destruct (Nat.le_ge_cases n (length data)); [by rewrite Nat.min_l|].
    rewrite Nat.min_r, !take_ge; [done|lia..].
Qed.

(** What a crash during [std::fs::write] leaves: the file cut at some byte. *)
Lemma trail_write name data fs d :
  d ∈ trail (Fs.write name data fs) <->
  d ∈ trail fs \/ exists n, d = <[name := take n data]> (dir fs).
Proof.
  unfold Fs.write. rewrite trail_write_all. cbn [dir trail Fs.create].
  rewrite elem_of_app, list_elem_of_singleton. setoid_rewrite insert_insert_eq. split.
  - intros [[?| ->]|?]; [by left|right; by exists 0%nat|by right].
  - intros [?|?]; [by left; left|by right].
Qed.

(** ** Recovery *)

Lemma filter_ext_in {A} (P Q : A -> Prop) `{!forall x, Decision (P x), !forall x, Decision (Q x)} (l : list A) :
  (forall x, x ∈ l -> P x <-> Q x) -> filter P l = filter Q l.
Proof.
  induction l as [|x l IH]; intros Hpq; [done|]. rewrite !filter_cons, IH by set_solver.
  by rewrite (decide_ext (P x) (Q x)) by set_solver.
Qed.

Lemma unmerged_insert d name x merged :
  (forall f, f ∈ wal_files -> f <> name) ->
  SnapshotManager.unmerged (<[name := x]> d) merged = SnapshotManager.unmerged d merged.
Proof.
  intros Hname. apply filter_ext_in. intros f Hf. by rewrite lookup_insert_ne by (symmetry; auto).
Qed.

Section contract.
Context `{CodecLaws SnapshotData} `{JsonLaws Manifest}.
Import SnapshotManager.

Lemma read_snapshot_other id j x d :
  0 <= id <= u64_max -> 0 <= j <= u64_max -> id <> j ->
  read_snapshot j (<[snapshot_file id := x]> d) = read_snapshot j d.
Proof.
  intros Hid Hj Hne. unfold read_snapshot. rewrite lookup_insert_ne; [done|].
  by intros ?%snapshot_file_inj.
Qed.

Lemma manifest_read_snapshot id x d :
  Manifest.read (<[snapshot_file id := x]> d) = Manifest.read d.
Proof.
  unfold Manifest.read. rewrite lookup_insert_ne; [done|]. intros Heq.
  by apply (snapshot_file_manifest id).
Qed.

Lemma read_snapshot_manifest j x d :
  read_snapshot j (<[manifest_file := x]> d) = read_snapshot j d.
Proof.
  unfold read_snapshot. rewrite lookup_insert_ne; [done|]. apply snapshot_file_manifest.
Qed.

Lemma reopen_Ok d m :
  Manifest.read d = Ok m ->
  reopen d = (let? snap := load_latest m d in
              Ok (snap, match snap with Some _ => unmerged d (merged_wal_files m) | None => [] end)).
Proof. intros Hm. unfold reopen, new. by rewrite Hm. Qed.

(** Whatever happens to the file of another snapshot, recovery is the same. *)
Lemma reopen_other id x d m :
  Manifest.read d = Ok m -> 0 <= id <= u64_max -> 0 <= latest_snapshot_id m <= u64_max ->
  id <> latest_snapshot_id m ->
  reopen (<[snapshot_file id := x]> d) = reopen d.
Proof.
  intros Hm Hid Hl Hne.
  rewrite (reopen_Ok d m), (reopen_Ok _ m) by (done || by rewrite manifest_read_snapshot).
  unfold load_latest. rewrite read_snapshot_other, unmerged_insert; [done| |done..].
  intros f Hf. by apply wal_files_not.
Qed.

Lemma manifest_read_write m json d :
  to_string_pretty m = Ok json -> Manifest.read (<[manifest_file := json]> d) = Ok m.
Proof.
  intros Hj. unfold Manifest.read. rewrite lookup_insert_eq, (to_string_utf8 _ _ Hj).
  by apply from_to_string.
Qed.

Section one_snapshot.
Variables (nodes : list Node) (edges : list Edge) (props : PropColumns) (nn ne : Z).
Variables (s : SnapshotManager) (fs : Fs).

Definition next_data (s : SnapshotManager) : SnapshotData :=
  {| version := 1; snapshot_id := latest_snapshot_id (manifest s) + 1; snap_nodes := nodes;
     snap_edges := edges; prop_columns := props; next_node_id := nn; next_edge_id := ne |}.

Definition next_manifest (s : SnapshotManager) : Manifest :=
  {| latest_snapshot_id := latest_snapshot_id (manifest s) + 1;
     latest_snapshot_path := snapshot_file (latest_snapshot_id (manifest s) + 1);
     merged_wal_files := merged_wal_files (manifest s) |}.

Hypothesis synced : Manifest.read (dir fs) = Ok (manifest s).
Hypothesis id_range : 0 <= latest_snapshot_id (manifest s) < u64_max.

Lemma take_snapshot_run :
  exists encoded json,
    serialize (next_data s) = Some encoded /\ to_string_pretty (next_manifest s) = Ok json /\
    let file := snapshot_file (latest_snapshot_id (manifest s) + 1) in
    take_snapshot nodes edges props nn ne s fs =
      (Fs.write manifest_file json (Fs.write_all file encoded (Fs.create file fs)),
       {| manifest := next_manifest s; wal_bytes_since_snapshot := 0;
          snapshot_interval_bytes := snapshot_interval_bytes s |},
       Ok (latest_snapshot_id (manifest s) + 1)).
Proof.
  destruct (serialize_total (next_data s)) as [encoded He].
  destruct (to_string_total (next_manifest s)) as [json Hj].
  exists encoded, json. split; [done|]. split; [done|]. cbn zeta.
  unfold take_snapshot, write_snapshot. rewrite wrap64_small by (unfold u64_max in *; lia).
  fold (next_data s). rewrite He. cbn iota. fold (next_manifest s).
  unfold Manifest.write. by rewrite Hj.
Qed.

Lemma take_snapshot_reopen :
  reopen (dir (take_snapshot nodes edges props nn ne s fs).1.1) =
    Ok (Some (next_data s), unmerged (dir fs) (merged_wal_files (manifest s))).
Proof.
  destruct take_snapshot_run as (encoded & json & He & Hj & ->). cbn [fst].
  set (id := latest_snapshot_id (manifest s) + 1) in *. rewrite dir_write, dir_write_all.
  cbn [dir Fs.create]. rewrite insert_insert_eq.
  rewrite (reopen_Ok _ _ (manifest_read_write _ _ _ Hj)). unfold load_latest.
  cbn [latest_snapshot_id next_manifest]. rewrite (proj2 (Z.eqb_neq _ 0)) by lia.
  rewrite read_snapshot_manifest. unfold read_snapshot.
  rewrite lookup_insert_eq, (deserialize_serialize _ _ He). simpl.
  by rewrite !unmerged_insert by (intros f Hf; by apply wal_files_not).
Qed.

(** C30: a snapshot is what recovery returns: [take_snapshot] succeeds with the
    next id, and opening the directory afterwards gives back the nodes, edges,
    properties and counters it was given, with the WAL files that exist and are
    not marked as merged; the snapshots written before stay readable. *)
Theorem take_snapshot_recovers :
  exists fs' s', take_snapshot nodes edges props nn ne s fs =
      (fs', s', Ok (latest_snapshot_id (manifest s) + 1)) /\
    reopen (dir fs') = Ok (Some (next_data s), unmerged (dir fs) (merged_wal_files (manifest s))) /\
    Manifest.read (dir fs') = Ok (manifest s') /\ wal_bytes_since_snapshot s' = 0 /\
    forall j, 0 <= j <= latest_snapshot_id (manifest s) ->
      read_snapshot j (dir fs') = read_snapshot j (dir fs).
Proof.
  pose proof take_snapshot_reopen as Hr.
  destruct take_snapshot_run as (encoded & json & He & Hj & Hrun). rewrite Hrun in *.
  eexists _, _. split; [done|]. split; [exact Hr|]. rewrite dir_write, dir_write_all.
  cbn [dir Fs.create]. rewrite insert_insert_eq.
  split; [by apply manifest_read_write|]. split; [done|].
  intros j Hj'. rewrite read_snapshot_manifest. apply read_snapshot_other; lia.
Qed.

(** C31: a process killed anywhere inside [take_snapshot] recovers either as
    if the snapshot had not been begun or from the whole snapshot, unless it is
    killed while the manifest is being written and leaves a part of it. *)
Theorem take_snapshot_crash d :
  let '(fs', s', _) := take_snapshot nodes edges props nn ne s fs in
  d ∈ trail fs' ->
  d ∈ trail fs \/ reopen d = reopen (dir fs) \/ reopen d = reopen (dir fs') \/
  exists json n, to_string_pretty (manifest s') = Ok json /\ (n < length json)%nat /\
    d !! manifest_file = Some (take n json).
Proof.
  destruct take_snapshot_run as (encoded & json & He & Hj & ->).
  set (id := latest_snapshot_id (manifest s) + 1) in *.
  assert (forall x, reopen (<[snapshot_file id := x]> (dir fs)) = reopen (dir fs)) as Hold.
  { intros x. apply (reopen_other _ _ _ (manifest s)); [done|lia..]. }
  rewrite trail_write, trail_write_all. cbn [dir trail Fs.create].
  rewrite elem_of_app, list_elem_of_singleton.
  intros [[[Hd| ->]|[n ->]]|[n ->]].
  - by left.
  - right. left. apply Hold.
  - right. left. rewrite insert_insert_eq. apply Hold.
  - right. right. destruct (Nat.lt_ge_cases n (length json)).
    + right. exists json, n. split; [done|]. split; [done|]. apply lookup_insert_eq.
    + left. by rewrite dir_write, dir_write_all, take_ge by lia.
Qed.

(** [manifest.json] is truncated before it is rewritten: there is a moment
    of [take_snapshot] at which a crash makes the directory impossible to open,
    with both snapshots on disk. *)
Theorem manifest_not_atomic :
  let '(fs', _, _) := take_snapshot nodes edges props nn ne s fs in
  exists d, d ∈ trail fs' /\ new d = Err UnexpectedEof /\ reopen d = Err UnexpectedEof /\
    (forall j, 0 <= j <= latest_snapshot_id (manifest s) ->
      read_snapshot j d = read_snapshot j (dir fs)) /\
    read_snapshot (latest_snapshot_id (manifest s) + 1) d = Ok (next_data s).
Proof.
  destruct take_snapshot_run as (encoded & json & He & Hj & ->).
  set (id := latest_snapshot_id (manifest s) + 1) in *.
  exists (<[manifest_file := []]> (<[snapshot_file id := encoded]> (dir fs))).
  assert (Manifest.read (<[manifest_file := []]> (<[snapshot_file id := encoded]> (dir fs)))
    = Err UnexpectedEof) as Hr.
  { unfold Manifest.read. rewrite lookup_insert_eq. simpl. apply from_str_empty. }
  split; [|split; [|split; [|split]]].
  - rewrite trail_write. right. exists 0%nat. rewrite dir_write_all, take_0.
    cbn [dir Fs.create]. by rewrite insert_insert_eq.
  - unfold new. by rewrite Hr.
  - unfold reopen, new. by rewrite Hr.
  - intros j Hj'. rewrite read_snapshot_manifest. apply read_snapshot_other; lia.
  - rewrite read_snapshot_manifest. unfold read_snapshot.
    by rewrite lookup_insert_eq, (deserialize_serialize _ _ He).
Qed.

(** The first thing a crash can leave: an empty snapshot file. *)
Lemma take_snapshot_begins :
  <[snapshot_file (latest_snapshot_id (manifest s) + 1) := []]> (dir fs) ∈
    trail (take_snapshot nodes edges props nn ne s fs).1.1.
Proof.
  destruct take_snapshot_run as (encoded & json & He & Hj & ->). cbn [fst].
  apply trail_write. left. apply trail_write_all. left. apply elem_of_app. right.
  by apply list_elem_of_singleton.
Qed.
End one_snapshot.

(** ** Merged files *)

Inductive SnapOp : Type :=
| STake (nodes : list Node) (edges : list Edge) (props : PropColumns) (nn ne : Z)
| SAddBytes (n : Z)
| SMerge (wal_file : bytes).

Definition snap_exec (st : Fs * SnapshotManager) (op : SnapOp) : Fs * SnapshotManager :=
  let '(fs, s) := st in
  match op with
  | STake nodes edges props nn ne => fst (take_snapshot nodes edges props nn ne s fs)
  | SAddBytes n => (fs, add_wal_bytes n s)
  | SMerge f => fst (merge_wal f s fs)
  end.

(** The manifest in memory is the one on disk. *)
Definition snap_synced (st : Fs * SnapshotManager) : Prop :=
  Manifest.read (dir st.1) = Ok (manifest st.2).

Definition op_merges (op : SnapOp) : list bytes :=
  match op with SMerge f => [f] | _ => [] end.

Lemma snap_exec_synced st op :
  snap_synced st ->
  snap_synced (snap_exec st op) /\
  merged_wal_files (manifest (snap_exec st op).2) =
    merged_wal_files (manifest st.2) ++ op_merges op.
Proof.
  destruct st as [fs s]. intros Hs. destruct op as [nodes edges props nn ne|n|f]; simpl.
  - unfold take_snapshot, write_snapshot.
    destruct (serialize_total (mkSnapshotData 1 (wrap64 (latest_snapshot_id (manifest s) + 1))
      nodes edges props nn ne)) as [encoded ->].
    unfold Manifest.write.
    set (m := {| latest_snapshot_id := _; latest_snapshot_path := _; merged_wal_files := _ |}).
    destruct (to_string_total m) as [json Hj]. rewrite Hj. unfold snap_synced. simpl.
    rewrite app_nil_r, insert_insert_eq. split; [|done]. by apply manifest_read_write.
  - rewrite app_nil_r. done.
  - unfold merge_wal, Manifest.write.
    set (m := {| latest_snapshot_id := _; latest_snapshot_path := _; merged_wal_files := _ |}).
    destruct (to_string_total m) as [json Hj]. rewrite Hj. unfold snap_synced. simpl.
    rewrite insert_insert_eq. split; [|done]. by apply manifest_read_write.
Qed.

Lemma snap_run_synced ops st :
  snap_synced st ->
  snap_synced (foldl snap_exec st ops) /\
  merged_wal_files (manifest (foldl snap_exec st ops).2) =
    merged_wal_files (manifest st.2) ++ concat (map op_merges ops).
Proof.
  revert st. induction ops as [|op ops IH]; intros st Hs; simpl; [by rewrite app_nil_r|].
  destruct (snap_exec_synced st op Hs) as [Hs1 Hm1].
  destruct (IH _ Hs1) as [Hs2 Hm2]. by rewrite Hm2, Hm1, <-app_assoc.
Qed.

(** Files marked as merged stay so: after any sequence of snapshots, byte
    counts and merges the manifest on disk is the one in memory, and a recovery
    lists none of the files merged at any time, whatever was written to them
    since. *)
Theorem merged_never_replayed st ops snap wals f :
  snap_synced st ->
  reopen (dir (foldl snap_exec st ops).1) = Ok (snap, wals) ->
  SMerge f ∈ ops -> snap_synced (foldl snap_exec st ops) /\ f ∉ wals.
Proof.
  intros Hs Hr Hf. destruct (snap_run_synced ops st Hs) as [Hs' Hm]. split; [done|].
  rewrite (reopen_Ok _ _ Hs') in Hr. destruct (load_latest _ _) as [o| |]; simplify_eq/=.
  destruct snap as [data|]; [|apply not_elem_of_nil].
  unfold unmerged. rewrite list_elem_of_filter. intros [[Hnot _] _]. apply Hnot.
  rewrite Hm. apply elem_of_app. right. apply list_elem_of_In, in_concat.
  exists [f]. split; [|by left]. apply in_map_iff. exists (SMerge f).
  split; [done|by apply list_elem_of_In].
Qed.
End contract.

(** A snapshot that does not serialize changes nothing that recovery uses:
    [take_snapshot] fails with [InvalidData], the manager is as before, and
    opening the directory gives what it gave. *)
Theorem take_snapshot_fails `{Codec SnapshotData} `{Json Manifest} nodes edges props nn ne s fs :
  Manifest.read (dir fs) = Ok (manifest s) -> 0 <= latest_snapshot_id (manifest s) < u64_max ->
  serialize (next_data nodes edges props nn ne s) = None ->
  exists fs', SnapshotManager.take_snapshot nodes edges props nn ne s fs = (fs', s, Err InvalidData) /\
    SnapshotManager.reopen (dir fs') = SnapshotManager.reopen (dir fs).
Proof.
  intros Hs Hid Hn. unfold SnapshotManager.take_snapshot, write_snapshot.
  rewrite wrap64_small by (unfold u64_max in *; lia).
  fold (next_data nodes edges props nn ne s). rewrite Hn.
  eexists. split; [done|]. simpl. apply (reopen_other _ _ _ (manifest s)); [done|lia..].
Qed.

(** Without a snapshot no WAL file is listed, even if there are some. *)
Lemma no_snapshot_no_wal `{Codec SnapshotData} `{Json Manifest} d :
  d !! manifest_file = None -> SnapshotManager.reopen d = Ok (None, []).
Proof.
  intros Hd. unfold SnapshotManager.reopen, SnapshotManager.new, Manifest.read. by rewrite Hd.
Qed.

(** ** A concrete directory *)

Section countable_json.
Context {A : Type} `{Countable A}.

Fixpoint text_of_pos (p : positive) : bytes :=
  match p with
  | xH => [digit 2]
  | xO q => digit 0 :: text_of_pos q
  | xI q => digit 1 :: text_of_pos q
  end.

Fixpoint pos_of_text (bs : bytes) : option positive :=
  match bs with
  | [] => None
  | b :: bs' =>
      if decide (b = digit 2) then Some xH
      else if decide (b = digit 0) then xO <$> pos_of_text bs'
      else xI <$> pos_of_text bs'
  end.

Lemma pos_of_text_of_pos p : pos_of_text (text_of_pos p) = Some p.
Proof. induction p; simpl; [by rewrite IHp|by rewrite IHp|done]. Qed.

Lemma text_of_pos_valid p : utf8_valid (text_of_pos p) = true.
Proof. induction p; simpl; [done..|]. done. Qed.

Definition countable_json : Json A := {|
  to_string_pretty a := Ok (text_of_pos (encode a));
  from_str bs :=
    match bs with
    | [] => Err UnexpectedEof
    | _ => match pos_of_text bs ≫= decode with Some a => Ok a | None => Err InvalidData end
    end
|}.

Lemma countable_json_laws : @JsonLaws A countable_json.
Proof.
  split; simpl.
  - eauto.
  - intros a s [= <-].
    destruct (text_of_pos (encode a)) eqn:Ht; [by destruct (encode a)|].
    rewrite <-Ht, pos_of_text_of_pos. simpl. by rewrite decode_encode.
  - intros a s [= <-]. apply text_of_pos_valid.
  - done.
Qed.
End countable_json.

#[export] Instance SnapshotData_eq_dec : EqDecision SnapshotData.
Proof. solve_decision. Defined.

#[export] Instance SnapshotData_countable : Countable SnapshotData.
Proof.
  refine (inj_countable'
    (fun d => (version d, snapshot_id d, snap_nodes d, snap_edges d, prop_columns d,
               next_node_id d, next_edge_id d))
    (fun '(v, i, ns, es, ps, nn, ne) => mkSnapshotData v i ns es ps nn ne) _).
  by intros [].
Defined.

#[export] Instance Manifest_countable : Countable Manifest.
Proof.
  refine (inj_countable'
    (fun m => (latest_snapshot_id m, latest_snapshot_path m, merged_wal_files m))
    (fun '(i, p, ms) => mkManifest i p ms) _).
  by intros [].
Defined.

Section witnesses.
#[local] Instance snap_codec : Codec SnapshotData := countable_codec.
#[local] Instance snap_codec_laws : CodecLaws SnapshotData := countable_codec_laws.
#[local] Instance manifest_json : Json Manifest := countable_json.
#[local] Instance manifest_json_laws : JsonLaws Manifest := countable_json_laws.
Import SnapshotManager.

(** A directory with two WAL files and no snapshot. *)
Definition sample_fs : Fs :=
  {| dir := <[bytes_of_string "nodes.wal" := [Byte.x01]]> (
            <[bytes_of_string "props.wal" := []]> ∅); trail := [] |}.

Definition sample_mgr : SnapshotManager :=
  {| manifest := Manifest.empty; wal_bytes_since_snapshot := 0;
     snapshot_interval_bytes := 536870912 |}.

Definition sample_node : Node := Node.new 0 [1] 0 1.

Example sample_new : new (dir sample_fs) = Ok sample_mgr /\ should_snapshot sample_mgr = true.
Proof. done. Qed.

Lemma sample_synced : Manifest.read (dir sample_fs) = Ok (manifest sample_mgr).
Proof. done. Qed.

Lemma take_snapshot_recovers_witness :
  exists fs' s', take_snapshot [sample_node] [] [] 1 0 sample_mgr sample_fs = (fs', s', Ok 1) /\
    reopen (dir fs') = Ok (Some (next_data [sample_node] [] [] 1 0 sample_mgr),
                           unmerged (dir sample_fs) []).
Proof.
  destruct (take_snapshot_recovers [sample_node] [] [] 1 0 sample_mgr sample_fs
    ltac:(done)) as (fs' & s' & Ht & Hr & _).
  exists fs', s'. split; [exact Ht|exact Hr].
Defined.

(** Killed just after the file of the snapshot was created. *)
Definition sample_crash : Dir := <[snapshot_file (0 + 1) := []]> (dir sample_fs).

Lemma take_snapshot_crash_witness :
  let '(fs', s', _) := take_snapshot [sample_node] [] [] 1 0 sample_mgr sample_fs in
  sample_crash ∈ trail fs' /\
  (sample_crash ∈ trail sample_fs \/ reopen sample_crash = reopen (dir sample_fs) \/
   reopen sample_crash = reopen (dir fs') \/
   exists json n, to_string_pretty (manifest s') = Ok json /\ (n < length json)%nat /\
     sample_crash !! manifest_file = Some (take n json)).
Proof.
  pose proof (take_snapshot_crash [sample_node] [] [] 1 0 sample_mgr sample_fs
    sample_synced ltac:(done) sample_crash) as Hc.
  pose proof (take_snapshot_begins [sample_node] [] [] 1 0 sample_mgr sample_fs ltac:(done)) as Hin.
  destruct (take_snapshot _ _ _ _ _ _ _) as [[fs' s'] r]. split; [exact Hin|exact (Hc Hin)].
Defined.

Lemma manifest_not_atomic_witness :
  let '(fs', _, _) := take_snapshot [sample_node] [] [] 1 0 sample_mgr sample_fs in
  exists d, d ∈ trail fs' /\ reopen d = Err UnexpectedEof /\
    read_snapshot 1 d = Ok (next_data [sample_node] [] [] 1 0 sample_mgr).
Proof.
  pose proof (manifest_not_atomic [sample_node] [] [] 1 0 sample_mgr sample_fs
    ltac:(done)) as Hc.
  destruct (take_snapshot _ _ _ _ _ _ _) as [[fs' s'] r].
  destruct Hc as (d & Hd & _ & Hr & _ & Hs). exists d. split; [exact Hd|]. split; [exact Hr|exact Hs].
Defined.

(** Merged, then snapshotted: [props.wal] is listed, [nodes.wal] is not. *)
Definition sample_snap_ops : list SnapOp :=
  [SMerge (bytes_of_string "nodes.wal"); SAddBytes 7; STake [sample_node] [] [] 1 0].

Lemma sample_snap_reopen :
  exists snap, reopen (dir (foldl snap_exec (sample_fs, sample_mgr) sample_snap_ops).1) =
    Ok (snap, [bytes_of_string "props.wal"]).
Proof.
  set (st := (merge_wal (bytes_of_string "nodes.wal") sample_mgr sample_fs).1).
  change (foldl snap_exec (sample_fs, sample_mgr) sample_snap_ops) with
    (snap_exec (snap_exec st (SAddBytes 7)) (STake [sample_node] [] [] 1 0)).
  destruct st as [fs s] eqn:Hst. eexists. etransitivity.
  { apply (take_snapshot_reopen [sample_node] [] [] 1 0 (add_wal_bytes 7 s) fs).
    revert Hst. unfold st, merge_wal. by intros [= <- <-]. }
  do 2 f_equal. unfold unmerged. revert Hst. unfold st, merge_wal.
  intros [= <- <-]. simpl. by vm_compute.
Qed.

Lemma merged_never_replayed_witness :
  exists snap, reopen (dir (foldl snap_exec (sample_fs, sample_mgr) sample_snap_ops).1) =
      Ok (snap, [bytes_of_string "props.wal"]) /\
    bytes_of_string "nodes.wal" ∉ [bytes_of_string "props.wal"].
Proof.
  assert (SMerge (bytes_of_string "nodes.wal") ∈ sample_snap_ops) as Hin by apply list_elem_of_here.
  destruct sample_snap_reopen as [snap Hr]. exists snap. split; [exact Hr|].
  exact (proj2 (merged_never_replayed (sample_fs, sample_mgr) sample_snap_ops
    snap [bytes_of_string "props.wal"] (bytes_of_string "nodes.wal") sample_synced Hr Hin)).
Defined.

Example sample_unmerged :
  unmerged (dir sample_fs) [] = [bytes_of_string "nodes.wal"; bytes_of_string "props.wal"].
Proof. by vm_compute. Qed.
End witnesses.

Section failing_serializer.
#[local] Instance no_codec : Codec SnapshotData := {|
  serialize _ := None; deserialize _ := None |}.
#[local] Instance failing_json : Json Manifest := countable_json.

Lemma take_snapshot_fails_witness :
  exists fs', SnapshotManager.take_snapshot [sample_node] [] [] 1 0 sample_mgr sample_fs =
      (fs', sample_mgr, Err InvalidData) /\
    SnapshotManager.reopen (dir fs') = SnapshotManager.reopen (dir sample_fs).
Proof.
  exact (take_snapshot_fails [sample_node] [] [] 1 0 sample_mgr sample_fs
    eq_refl ltac:(done) eq_refl).
Defined.
End failing_serializer.
