(* ===== verification/F32.v ===== *)
(** * Single-precision scores

    [f32] is [spec_float] at 24 bits of precision, with the Standard Library's
    IEEE 754 operations; [Score] of [lib.rs] is [f32]. The descending stable sort
    of [(node, score)] pairs that the searches end with is here too. *)

From S2P Require Export Prelude.
From Stdlib Require Export SpecFloat.
From stdpp Require Export sorting.

Open Scope Z_scope.

Definition f32_add : spec_float -> spec_float -> spec_float := SFadd 24 128.
Definition f32_sub : spec_float -> spec_float -> spec_float := SFsub 24 128.
Definition f32_mul : spec_float -> spec_float -> spec_float := SFmul 24 128.
Definition f32_div : spec_float -> spec_float -> spec_float := SFdiv 24 128.
Definition f32_sqrt : spec_float -> spec_float := SFsqrt 24 128.

(** [v as f32] of an integer, rounded to nearest, ties to even. *)
Definition f32_of_Z (v : Z) : spec_float := binary_normalize 24 128 v 0 false.

(** [m * 2 ^ e], rounded. *)
Definition f32_lit (m e : Z) : spec_float := binary_normalize 24 128 m e false.

Definition f32_zero : spec_float := S754_zero false.
Definition f32_one : spec_float := f32_of_Z 1.

(** [f64 as f32]. *)
Definition f32_of_f64 (f : spec_float) : spec_float :=
  match f with
  | S754_finite s m e => binary_normalize 24 128 (if s then Zneg m else Zpos m) e s
  | _ => f
  end.

Definition is_nan (f : spec_float) : bool := match f with S754_nan => true | _ => false end.

(** [a.partial_cmp(&b)]. *)
Definition partial_cmp : spec_float -> spec_float -> option comparison := SFcompare.

Lemma partial_cmp_swap a b : partial_cmp b a = CompOpp <$> partial_cmp a b.
Proof.
  unfold partial_cmp.
  destruct a as [sa|sa| |sa ma ea], b as [sb|sb| |sb mb eb]; simpl; try done;
    try (by destruct sa); try (by destruct sb); try (by destruct sa, sb).
  assert (Pos.compare_cont Eq mb ma = CompOpp (Pos.compare_cont Eq ma mb)) as Hm
    by (by rewrite Pos.compare_cont_antisym).
  destruct sa, sb; simpl; try done; f_equal;
    rewrite (Z.compare_antisym ea eb), Hm; by destruct (ea ?= eb)%Z.
Qed.

Lemma partial_cmp_None a b : partial_cmp a b = None <-> is_nan a = true \/ is_nan b = true.
Proof.
  unfold partial_cmp. destruct a as [sa|sa| |sa ma ea], b as [sb|sb| |sb mb eb]; simpl;
    intuition (try done); repeat case_match; done.
Qed.

(** ** Sorting results

    [sort_by(|a, b| b.1.partial_cmp(&a.1).unwrap())]: a stable sort by descending
    score. The comparison panics on a NaN, and with two elements or more every
    element is compared. *)

Abbreviation Scored := (Z * spec_float)%type.

(** [a] may stand before [b]. *)
Definition not_below (a b : Scored) : Prop :=
  match partial_cmp b.2 a.2 with Some Gt => False | _ => True end.

#[export] Instance not_below_dec a b : Decision (not_below a b).
Proof. unfold not_below. destruct (partial_cmp b.2 a.2) as [[]|]; apply _. Defined.

Fixpoint insert_sorted (x : Scored) (l : list Scored) : list Scored :=
  match l with
  | [] => [x]
  | y :: l' => if decide (not_below x y) then x :: l else y :: insert_sorted x l'
  end.

Definition sort_scores (l : list Scored) : io (list Scored) :=
  if existsb (fun x => is_nan x.2) l && (2 <=? Z.of_nat (length l)) then Panic
  else Ok (foldr insert_sorted [] l).

Lemma not_below_total a b : ~ not_below a b -> not_below b a.
Proof.
  unfold not_below. rewrite (partial_cmp_swap b.2 a.2).
  by destruct (partial_cmp b.2 a.2) as [[]|].
Qed.

Lemma insert_sorted_perm x l : insert_sorted x l ≡ₚ x :: l.
Proof.
  induction l as [|y l IH]; simpl; [done|]. case_decide; [done|]. rewrite IH. apply Permutation_swap.
Qed.

Lemma insert_sorted_sorted x l : Sorted not_below l -> Sorted not_below (insert_sorted x l).
Proof.
  induction 1 as [|y l Hl IH Hy]; simpl; [by repeat constructor|]. case_decide as Hxy.
  - by repeat constructor.
  - constructor; [done|]. apply not_below_total in Hxy.
    destruct l as [|z l]; simpl; [by constructor|].
    inversion Hy; subst. by case_decide; constructor.
Qed.

Lemma foldr_insert_sorted l :
  foldr insert_sorted [] l ≡ₚ l /\ Sorted not_below (foldr insert_sorted [] l).
Proof.
  induction l as [|x l [Hp Hs]]; simpl; [by repeat constructor|]. split.
  - by rewrite insert_sorted_perm, Hp.
  - by apply insert_sorted_sorted.
Qed.

Lemma sort_scores_ok l l' : sort_scores l = Ok l' -> l' ≡ₚ l /\ Sorted not_below l'.
Proof.
  unfold sort_scores. destruct (_ && _); [done|]. intros [= <-]. apply foldr_insert_sorted.
Qed.

(** [SFcompare] is the lexicographic order of sign, exponent and mantissa. *)
Definition cmp_key (f : spec_float) : Z * Z * Z :=
  match f with
  | S754_zero _ | S754_nan => (0, 0, 0)
  | S754_infinity s => (if s then -2 else 2, 0, 0)
  | S754_finite s m e => if s then (-1, - e, Zneg m) else (1, e, Zpos m)
  end.

Definition lex_le (a b : Z * Z * Z) : Prop :=
  a.1.1 < b.1.1 \/ (a.1.1 = b.1.1 /\ (a.1.2 < b.1.2 \/ (a.1.2 = b.1.2 /\ a.2 <= b.2))).

Lemma lex_le_trans a b c : lex_le a b -> lex_le b c -> lex_le a c.
Proof. unfold lex_le. lia. Qed.

Lemma not_below_key (a b : Scored) :
  is_nan a.2 = false -> is_nan b.2 = false -> not_below a b <-> lex_le (cmp_key b.2) (cmp_key a.2).
Proof.
  unfold not_below, partial_cmp, lex_le. destruct a as [na a], b as [nb b]. simpl.
  destruct a as [sa|sa| |sa ma ea], b as [sb|sb| |sb mb eb]; try done; intros _ _;
    repeat match goal with s : bool |- _ => destruct s end; simpl; try (intuition lia);
    destruct (Z.compare_spec eb ea); subst; simpl; try (intuition lia);
    change (Pos.compare_cont Eq mb ma) with (mb ?= ma)%positive;
    destruct (Pos.compare_spec mb ma); subst; simpl; intuition lia.
Qed.

Lemma sorted_numbers l :
  Forall (fun x => is_nan x.2 = false) l -> Sorted not_below l -> StronglySorted not_below l.
Proof.
  induction 1 as [|x l Hx Hl IH]; intros Hs; [constructor|].
  inversion Hs as [|? ? Hs' Hh]; subst. specialize (IH Hs'). constructor; [done|].
  destruct l as [|y l]; [constructor|]. inversion Hh as [|? ? Hxy]; subst.
  inversion IH as [|? ? _ Hy]; subst. constructor; [done|].
  apply Forall_cons in Hl as [Hny Hl]. rewrite Forall_forall in Hy, Hl |- *. intros z Hz.
  specialize (Hy z Hz). specialize (Hl z Hz). revert Hxy Hy. rewrite !not_below_key by done.
  intros Hxy Hy. by eapply lex_le_trans.
Qed.

(** Each result is not below any later one: the order is transitive on numbers. *)
Lemma sort_scores_strongly l l' : sort_scores l = Ok l' -> StronglySorted not_below l'.
Proof.
  intros Hl. pose proof (sort_scores_ok l l' Hl) as [Hp Hs]. unfold sort_scores in Hl.
  destruct (2 <=? Z.of_nat (length l)) eqn:Hlen.
  - rewrite andb_true_r in Hl. destruct (existsb _ l) eqn:Hnan; [done|]. apply sorted_numbers; [|done].
    rewrite Hp. apply Forall_forall. intros x Hx. apply not_true_is_false. intros Hn.
    rewrite <-not_true_iff_false in Hnan. apply Hnan, existsb_exists. exists x. split; [|done].
    by apply list_elem_of_In.
  - apply Z.leb_gt in Hlen. rewrite <-Hp in Hlen. destruct l' as [|x [|y l']]; simpl in Hlen;
      [constructor|by repeat constructor|lia].
Qed.

Lemma sort_scores_total l :
  (forall x, x ∈ l -> is_nan x.2 = false) -> exists l', sort_scores l = Ok l'.
Proof.
  intros Hl. unfold sort_scores. assert (existsb (fun x => is_nan x.2) l = false) as ->; [|eauto].
  apply not_true_is_false. intros (x & Hx & Hn)%existsb_exists.
  rewrite Hl in Hn; [done|]. by apply list_elem_of_In.
Qed.

(** Equal scores keep their order. *)
Example sort_scores_stable :
  sort_scores [(1, f32_one); (2, f32_of_Z 3); (3, f32_one)] =
    Ok [(2, f32_of_Z 3); (1, f32_one); (3, f32_one)].
Proof. by vm_compute. Qed.

(** ** Positive integers convert to positive floats *)

Lemma digits2_pos_bound m : 2 ^ (Zpos (digits2_pos m) - 1) <= Zpos m.
Proof.
  induction m as [m IH|m IH|]; cbn [digits2_pos]; [..|by compute];
    rewrite Pos2Z.inj_succ; replace (Z.succ (Zpos (digits2_pos m)) - 1)
      with (Z.succ (Zpos (digits2_pos m) - 1)) by lia; rewrite Z.pow_succ_r; lia.
Qed.

Lemma shr_1_half r k : 0 <= k -> 2 ^ (k + 1) <= shr_m r -> 2 ^ k <= shr_m (shr_1 r).
Proof.
  intros Hk. rewrite Z.pow_add_r by lia. change (2 ^ 1) with 2.
  pose proof (Z.pow_pos_nonneg 2 k). destruct r as [[|[]|[]] b s]; simpl; lia.
Qed.

Lemma iter_shr_1 n r k : 0 <= k -> 2 ^ (k + Zpos n) <= shr_m r -> 2 ^ k <= shr_m (SpecFloat.iter_pos shr_1 n r).
Proof.
  revert r k. induction n as [n IH|n IH|]; intros r k Hk Hr; cbn [SpecFloat.iter_pos].
  - apply IH; [done|]. apply IH; [lia|]. apply shr_1_half; [lia|].
    by replace (k + Zpos n + Zpos n + 1) with (k + Zpos n~1) by lia.
  - apply IH; [done|]. apply IH; [lia|]. by replace (k + Zpos n + Zpos n) with (k + Zpos n~0) by lia.
  - by apply shr_1_half.
Qed.

Lemma shr_fexp_pos m e l :
  0 < m -> -149 <= e ->
  0 < shr_m (shr_fexp 24 128 m e l).1 /\ -149 <= (shr_fexp 24 128 m e l).2.
Proof.
  intros Hm He. destruct m as [|m|]; try lia. unfold shr_fexp, shr.
  assert (forall l', shr_m (shr_record_of_loc (Zpos m) l') = Zpos m) as Hrec by by intros [|[]].
  pose proof (digits2_pos_bound m) as Hd.
  destruct (fexp _ _ _ - e) as [|n|n] eqn:Hn; cbn [fst snd]; rewrite ?Hrec; [split; lia| |split; lia].
  unfold fexp, emin in Hn. cbn [Zdigits2] in Hn. split; [|lia].
  assert (Zpos n <= Zpos (digits2_pos m) - 1) by lia.
  assert (2 ^ 0 <= shr_m (SpecFloat.iter_pos shr_1 n (shr_record_of_loc (Zpos m) l))); [|lia].
  apply iter_shr_1; [done|]. rewrite Hrec. etransitivity; [|exact Hd].
  apply Z.pow_le_mono_r; lia.
Qed.

Lemma f32_of_Z_pos z :
  0 < z -> match f32_of_Z z with S754_finite _ _ _ | S754_infinity _ => True | _ => False end.
Proof.
  intros Hz. destruct z as [|p|]; try lia. unfold f32_of_Z. cbn [binary_normalize].
  unfold binary_round. destruct (shl_align _ _ _) as [mz ez] eqn:Hal.
  assert (-149 <= ez) as Hez.
  { unfold shl_align in Hal. destruct (_ - 0) eqn:Hd; injection Hal as <- <-; try lia.
    unfold fexp, emin. lia. }
  unfold binary_round_aux.
  destruct (shr_fexp_pos (Zpos mz) ez loc_Exact) as [Hm1 He1]; [lia|done|].
  destruct (shr_fexp _ _ (Zpos mz) _ _) as [r1 e1]. simpl in Hm1, He1.
  assert (0 < round_nearest_even (shr_m r1) (loc_of_shr_record r1)) as Hr.
  { unfold round_nearest_even. repeat case_match; lia. }
  destruct (shr_fexp_pos _ e1 loc_Exact Hr He1) as [Hm2 _].
  destruct (shr_fexp _ _ (round_nearest_even _ _) _ _) as [r2 e2]. simpl in Hm2.
  destruct (shr_m r2); try lia. by destruct (_ <=? _).
Qed.
