(* ===== verification/Analyzer.v ===== *)
(** * The CJK analyzer ([src/src/index/fulltext/analyzer.rs])

    A [char] is its code point and a text the list of its characters. The
    Unicode tables of the standard library ([is_alphabetic], [is_numeric],
    [to_lowercase]) are parameters. The code's index [i] into [chars] is the
    suffix of the text that is left. *)

From S2P Require Export Prelude.

Open Scope Z_scope.

Record Token : Type := mkToken {
  term : list Z;
  position : Z
}.

Definition between (lo hi c : Z) : bool := (lo <=? c) && (c <=? hi).

Definition is_cjk (c : Z) : bool :=
  between 0x4E00 0x9FFF c || between 0x3400 0x4DBF c || between 0xF900 0xFAFF c
  || between 0x3040 0x309F c || between 0x30A0 0x30FF c || between 0xAC00 0xD7AF c.

(** The inner [while] loops: the longest prefix on which [p] holds, and the rest. *)
Fixpoint span (p : Z -> bool) (chars : list Z) : list Z * list Z :=
  match chars with
  | [] => ([], [])
  | c :: rest => if p c then let '(w, rest') := span p rest in (c :: w, rest') else ([], chars)
  end.

Section tokenize.
Context (is_alphabetic is_numeric : Z -> bool) (to_lowercase : Z -> list Z).

(** [None]: the fuel did not suffice. *)
Fixpoint tokenize_loop (fuel : nat) (chars : list Z) (pos : Z) (tokens : list Token)
  : option (list Token) :=
  match fuel with
  | O => None
  | S fuel' =>
      match chars with
      | [] => Some tokens
      | c :: rest =>
          if is_cjk c then
            let '(tokens1, pos1) :=
              match rest with
              | c2 :: _ =>
                  if is_cjk c2 then (tokens ++ [mkToken [c; c2] pos], wrap32 (pos + 1))
                  else (tokens, pos)
              | [] => (tokens, pos)
              end in
            tokenize_loop fuel' rest (wrap32 (pos1 + 1)) (tokens1 ++ [mkToken [c] pos1])
          else if is_alphabetic c then
            let '(w, rest') := span is_alphabetic chars in
            tokenize_loop fuel' rest' (wrap32 (pos + 1))
              (tokens ++ [mkToken (concat (map to_lowercase w)) pos])
          else if is_numeric c then
            let '(w, rest') := span is_numeric chars in
            tokenize_loop fuel' rest' (wrap32 (pos + 1)) (tokens ++ [mkToken w pos])
          else tokenize_loop fuel' rest pos tokens
      end
  end.

Definition tokenize (text : list Z) : option (list Token) :=
  tokenize_loop (S (length text)) text 0 [].

(** ** The terms of a text

    The reference: what the analyzer is meant to cut a text into, without
    positions and accumulator. *)

Fixpoint terms_loop (fuel : nat) (chars : list Z) : list (list Z) :=
  match fuel, chars with
  | S fuel', c :: rest =>
      if is_cjk c then
        match rest with
        | c2 :: _ => if is_cjk c2 then [[c; c2]; [c]] else [[c]]
        | [] => [[c]]
        end ++ terms_loop fuel' rest
      else if is_alphabetic c then
        concat (map to_lowercase (span is_alphabetic chars).1)
          :: terms_loop fuel' (span is_alphabetic chars).2
      else if is_numeric c then
        (span is_numeric chars).1 :: terms_loop fuel' (span is_numeric chars).2
      else terms_loop fuel' rest
  | _, _ => []
  end.

Definition terms (text : list Z) : list (list Z) := terms_loop (length text) text.

(** Number a list of terms from [pos] on, as the [u32] counter does. *)
Fixpoint number (pos : Z) (ts : list (list Z)) : list Token :=
  match ts with
  | [] => []
  | t :: ts' => mkToken t pos :: number (wrap32 (pos + 1)) ts'
  end.

Lemma span_length p chars : (length (span p chars).2 <= length chars)%nat.
Proof.
  induction chars as [|c rest IH]; simpl; [lia|]. destruct (p c); [|simpl; lia].
  destruct (span p rest); simpl in *; lia.
Qed.

Lemma span_drops p c rest :
  p c = true -> (length (span p (c :: rest)).2 <= length rest)%nat.
Proof.
  intros Hp. simpl. rewrite Hp. pose proof (span_length p rest).
  by destruct (span p rest).
Qed.

Lemma terms_loop_fuel f1 f2 chars :
  (length chars <= f1)%nat -> (length chars <= f2)%nat ->
  terms_loop f1 chars = terms_loop f2 chars.
Proof.
  revert f2 chars. induction f1 as [|f1 IH]; intros [|f2] [|c rest] H1 H2; simpl in H1, H2;
    try lia; try done.
  cbn [terms_loop]. destruct (is_cjk c); [f_equal; apply IH; lia|].
  destruct (is_alphabetic c) eqn:Ha.
  { pose proof (span_drops _ _ rest Ha). f_equal. apply IH; lia. }
  destruct (is_numeric c) eqn:Hn; [|apply IH; lia].
  pose proof (span_drops _ _ rest Hn). f_equal. apply IH; lia.
Qed.

Lemma terms_cons c rest :
  terms (c :: rest) =
    if is_cjk c then
      match rest with
      | c2 :: _ => if is_cjk c2 then [[c; c2]; [c]] else [[c]]
      | [] => [[c]]
      end ++ terms rest
    else if is_alphabetic c then
      concat (map to_lowercase (span is_alphabetic (c :: rest)).1)
        :: terms (span is_alphabetic (c :: rest)).2
    else if is_numeric c then
      (span is_numeric (c :: rest)).1 :: terms (span is_numeric (c :: rest)).2
    else terms rest.
Proof.
  unfold terms. cbn [length terms_loop].
  destruct (is_cjk c); [done|]. destruct (is_alphabetic c) eqn:Ha.
  { pose proof (span_drops _ _ rest Ha). f_equal. apply terms_loop_fuel; lia. }
  destruct (is_numeric c) eqn:Hn; [|done].
  pose proof (span_drops _ _ rest Hn). f_equal. apply terms_loop_fuel; lia.
Qed.

Lemma tokenize_loop_terms fuel chars pos tokens :
  (length chars < fuel)%nat -> 0 <= pos < 2 ^ 32 ->
  tokenize_loop fuel chars pos tokens = Some (tokens ++ number pos (terms chars)).
Proof.
  revert chars pos tokens. induction fuel as [|fuel IH]; intros chars pos tokens Hf Hp; [lia|].
  assert (forall z, 0 <= wrap32 z < 2 ^ 32) as Hw
    by (intros z; unfold wrap32; apply Z.mod_pos_bound; lia).
  destruct chars as [|c rest]; cbn [tokenize_loop]; simpl in Hf; [by rewrite app_nil_r|].
  rewrite terms_cons. destruct (is_cjk c).
  { destruct rest as [|c2 rest']; [|destruct (is_cjk c2)];
      rewrite IH by (simpl in *; auto; lia); by rewrite <-!app_assoc. }
  destruct (is_alphabetic c) eqn:Ha.
  { pose proof (span_drops _ _ rest Ha). destruct (span is_alphabetic (c :: rest)) as [w rest'].
    cbn [fst snd] in *. rewrite IH by (auto; lia). by rewrite <-app_assoc. }
  destruct (is_numeric c) eqn:Hn; [|apply IH; [lia|done]].
  pose proof (span_drops _ _ rest Hn). destruct (span is_numeric (c :: rest)) as [w rest'].
  cbn [fst snd] in *. rewrite IH by (auto; lia). by rewrite <-app_assoc.
Qed.

(** The analyzer always ends, and its tokens are the terms of the text in
    order, numbered consecutively from 0 (modulo 2^32). *)
Theorem tokenize_terms text : tokenize text = Some (number 0 (terms text)).
Proof. unfold tokenize. rewrite tokenize_loop_terms; [done|lia..]. Qed.

(** ** Cutting a text *)

Lemma span_app_stop p a s b :
  p s = false -> span p (a ++ s :: b) = ((span p a).1, (span p a).2 ++ s :: b).
Proof.
  intros Hs. induction a as [|c a IH]; simpl; [by rewrite Hs|].
  destruct (p c); [|done]. rewrite IH. by destruct (span p a).
Qed.

(** A character that belongs to no term. *)
Definition separator (s : Z) : Prop :=
  is_cjk s = false /\ is_alphabetic s = false /\ is_numeric s = false.

Lemma terms_cut a s b : separator s -> terms (a ++ s :: b) = terms a ++ terms b.
Proof.
  intros (Hc & Ha & Hn). remember (length a) as n eqn:Hl.
  assert (length a <= n)%nat as Hle by lia. clear Hl.
  revert a Hle. induction n as [|n IH]; intros [|c a] Hle; simpl in Hle; try lia;
    try (rewrite app_nil_l, terms_cons, Hc, Ha, Hn; done).
  cbn [app]. rewrite !terms_cons. destruct (is_cjk c).
  { rewrite IH by lia. rewrite app_assoc. f_equal. destruct a as [|c2 a]; simpl; [by rewrite Hc|].
    done. }
  rewrite !app_comm_cons, !span_app_stop by done.
  destruct (is_alphabetic c) eqn:Hac.
  { pose proof (span_drops _ _ a Hac). cbn [fst snd]. rewrite IH by lia. done. }
  destruct (is_numeric c) eqn:Hnc; [|apply IH; lia].
  pose proof (span_drops _ _ a Hnc). cbn [fst snd]. rewrite IH by lia. done.
Qed.

(** A separator (a space, punctuation) cuts a text cleanly: the terms are
    those of the part before it followed by those of the part after it. *)
Theorem terms_separator a s b :
  separator s -> tokenize (a ++ s :: b) = Some (number 0 (terms a ++ terms b)).
Proof.
  intros Hs. unfold tokenize. rewrite tokenize_loop_terms by lia. by rewrite terms_cut.
Qed.

(** ** CJK text *)

Lemma terms_cjk text :
  Forall (fun c => is_cjk c = true) text ->
  forall t, t ∈ terms text <->
    (exists c, t = [c] /\ c ∈ text) \/ (exists a c d b, t = [c; d] /\ text = a ++ c :: d :: b).
Proof.
  induction 1 as [|c rest Hc Hrest IH]; intros t.
  - split; [by intros ?%elem_of_nil|]. intros [(c & _ & ?%elem_of_nil)|(a & c & d & b & _ & Hb)];
      [done|]. by destruct a.
  - rewrite terms_cons, Hc, elem_of_app, IH. clear IH. split.
    + intros [Ht|[(x & -> & Hx)|(a & x & y & b & -> & ->)]].
      * destruct Hrest as [|c2 rest Hc2 _]; [|rewrite Hc2 in Ht].
        -- apply list_elem_of_singleton in Ht as ->. left. exists c. split; [done|by left].
        -- apply elem_of_cons in Ht as [->|Ht]; [right; by exists [], c, c2, rest|].
           apply list_elem_of_singleton in Ht as ->. left. exists c. split; [done|by left].
      * left. exists x. split; [done|by right].
      * right. by exists (c :: a), x, y, b.
    + intros [(x & -> & Hx)|(a & x & y & b & -> & Heq)].
      * apply elem_of_cons in Hx as [->|Hx]; [|right; left; eauto]. left.
        destruct Hrest as [|c2 rest Hc2 _]; [by left|]. rewrite Hc2. right. by left.
      * destruct a as [|z a]; simplify_eq/=.
        -- left. inversion Hrest as [|? ? Hy _]; subst. rewrite Hy. by left.
        -- right. right. by exists a, x, y, b.
Qed.

(** C37: in CJK text every part of the text can be found: the terms of any
    substring are among the terms of the whole. *)
Theorem cjk_substring_found a b c toks_b toks t :
  Forall (fun x => is_cjk x = true) (a ++ b ++ c) ->
  tokenize b = Some toks_b -> tokenize (a ++ b ++ c) = Some toks ->
  t ∈ map term toks_b -> t ∈ map term toks.
Proof.
  intros Hall Hb Habc Ht.
  assert (forall text ts, tokenize text = Some ts -> map term ts = terms text) as Hterms.
  { intros text ts. unfold tokenize. rewrite tokenize_loop_terms by lia. simpl. intros [= <-].
    generalize 0. induction (terms text) as [|x l IH]; intros p; simpl; [done|]. by rewrite IH. }
  rewrite (Hterms _ _ Hb) in Ht. rewrite (Hterms _ _ Habc).
  pose proof Hall as (_ & Hbc)%Forall_app. apply Forall_app in Hbc as [Hb' _].
  apply (terms_cjk _ Hb') in Ht. apply (terms_cjk _ Hall).
  destruct Ht as [(x & -> & Hx)|(p & x & y & q & -> & ->)].
  - left. exists x. split; [done|]. apply elem_of_app. right. apply elem_of_app. by left.
  - right. exists (a ++ p), x, y, (q ++ c). split; [done|]. by rewrite <-!app_assoc.
Qed.

(** CJK characters that follow a Latin letter are not cut into bigrams when
    they count as alphabetic, as in Unicode they do: the whole run is a single
    term. *)
Theorem latin_prefix_swallows_cjk l text :
  is_cjk l = false -> is_alphabetic l = true -> Forall (fun c => is_alphabetic c = true) text ->
  tokenize (l :: text) = Some [mkToken (concat (map to_lowercase (l :: text))) 0].
Proof.
  intros Hl Hal Htext. unfold tokenize. rewrite tokenize_loop_terms by lia.
  assert (span is_alphabetic (l :: text) = (l :: text, [])) as Hspan.
  { assert (Forall (fun c => is_alphabetic c = true) (l :: text)) as Hf by by constructor.
    induction Hf as [|x xs Hx _ IH]; simpl; [done|]. by rewrite Hx, IH. }
  by rewrite terms_cons, Hl, Hal, Hspan.
Qed.
End tokenize.

(** ** Concrete texts *)

Definition ascii_alphabetic (c : Z) : bool :=
  between 65 90 c || between 97 122 c || is_cjk c.
Definition ascii_numeric (c : Z) : bool := between 48 57 c.
Definition ascii_lowercase (c : Z) : list Z := if between 65 90 c then [c + 32] else [c].

(** Two ideographs, a space, ["Ab1"]. *)
Example sample_tokens :
  tokenize ascii_alphabetic ascii_numeric ascii_lowercase [0x4E2D; 0x6587; 32; 65; 98; 49] =
    Some [mkToken [0x4E2D; 0x6587] 0; mkToken [0x4E2D] 1; mkToken [0x6587] 2;
          mkToken [97; 98] 3; mkToken [49] 4].
Proof. by vm_compute. Qed.

Lemma terms_separator_witness :
  separator ascii_alphabetic ascii_numeric 32 /\
  tokenize ascii_alphabetic ascii_numeric ascii_lowercase ([65] ++ 32 :: [0x4E2D]) =
    Some (number 0 [[97]; [0x4E2D]]).
Proof.
  assert (separator ascii_alphabetic ascii_numeric 32) as Hs by done. split; [exact Hs|].
  exact (terms_separator ascii_alphabetic ascii_numeric ascii_lowercase [65] 32 [0x4E2D] Hs).
Defined.

Lemma cjk_substring_found_witness :
  exists toks,
    tokenize ascii_alphabetic ascii_numeric ascii_lowercase [0x4E2D; 0x6587; 0x5B57] = Some toks /\
    [0x6587; 0x5B57] ∈ map term toks.
Proof.
  eexists. split; [vm_compute; reflexivity|].
  exact (cjk_substring_found ascii_alphabetic ascii_numeric ascii_lowercase
    [0x4E2D] [0x6587; 0x5B57] [] _ _ [0x6587; 0x5B57]
    ltac:(by repeat constructor) eq_refl eq_refl ltac:(by left)).
Defined.

Lemma latin_prefix_swallows_cjk_witness :
  tokenize ascii_alphabetic ascii_numeric ascii_lowercase [65; 0x4E2D; 0x6587] =
    Some [mkToken [97; 0x4E2D; 0x6587] 0].
Proof.
  exact (latin_prefix_swallows_cjk ascii_alphabetic ascii_numeric ascii_lowercase
    65 [0x4E2D; 0x6587] eq_refl eq_refl ltac:(by repeat constructor)).
Defined.
