(* ===== verification/PropIndex.v ===== *)
(** * The property index ([src/src/index/property/mod.rs])

    Equality and range indexes per (label, property), and the evaluation of
    predicates to bitmaps. A bitmap (crate roaring) is any [FinSet] of node ids; a
    [BTreeMap] is the list of its entries in key order; the total order of
    [OrderedFloat] (crate ordered-float) is a parameter. *)

From S2P Require Export Graph PropStore F32.

Open Scope Z_scope.

Inductive ValueWrapper : Type :=
| WNull
| WBool (b : Z)
| WInt (i : Z)
| WFloat (f : spec_float)
| WString (s : bytes).

(** [ValueWrapper::from]. *)
Definition wrapper_of (v : Value) : ValueWrapper :=
  match v with
  | VNull => WNull
  | VBool b => WBool (if b then 1 else 0)
  | VInt i => WInt i
  | VFloat f => WFloat f
  | VString s => WString s
  | VList _ => WNull
  | VVector _ => WNull
  end.

Inductive Predicate : Type :=
| PEq (label prop : bytes) (v : Value)
| PGt (label prop : bytes) (v : Value)
| PGte (label prop : bytes) (v : Value)
| PLt (label prop : bytes) (v : Value)
| PLte (label prop : bytes) (v : Value)
| PIn (label prop : bytes) (vs : list Value)
| PAnd (p q : Predicate)
| POr (p q : Predicate)
| PNot (p : Predicate).

Record PropertyIndex (B : Type) : Type := mkPropertyIndex {
  eq_indexes : gmap (bytes * bytes) (list (ValueWrapper * B));
  range_indexes : gmap (bytes * bytes) (list (spec_float * B))
}.
Arguments mkPropertyIndex {B}.
Arguments eq_indexes {B}.
Arguments range_indexes {B}.

(** [f64::MAX] and [f64::MIN]. *)
Definition f64_MAX : spec_float := S754_finite false 9007199254740991 971.
Definition f64_MIN : spec_float := S754_finite true 9007199254740991 971.

Module PropertyIndex.
Section operations.
Context `{FinSet Z B}.
Context (float_cmp : spec_float -> spec_float -> comparison).

Definition new : PropertyIndex B := mkPropertyIndex ∅ ∅.

(** [impl Default] *)
Definition PropertyIndex_default : PropertyIndex B := new.

(** Keys that [BTreeMap] takes for the same: [Ord::cmp] is [Equal]. *)
Definition wrapper_eqb (a b : ValueWrapper) : bool :=
  match a, b with
  | WNull, WNull => true
  | WBool x, WBool y => x =? y
  | WInt x, WInt y => x =? y
  | WFloat x, WFloat y => match float_cmp x y with Eq => true | _ => false end
  | WString x, WString y => bool_decide (x = y)
  | _, _ => false
  end.

(** [BTreeMap::get]. *)
Definition btree_get (k : ValueWrapper) (m : list (ValueWrapper * B)) : option B :=
  match list_find (fun e => wrapper_eqb e.1 k = true) m with
  | Some (_, (_, bm)) => Some bm
  | None => None
  end.

Definition float_leb (a b : spec_float) : bool :=
  match float_cmp a b with Gt => false | _ => true end.

(** [BTreeMap::range(lo..=hi)] panics when [lo] is above [hi]. *)
Definition btree_range (lo hi : spec_float) (m : list (spec_float * B))
  : io (list (spec_float * B)) :=
  if float_leb lo hi then Ok (filter (fun e => float_leb lo e.1 && float_leb e.1 hi = true) m)
  else Panic.

Definition range_scan (label prop : bytes) (lo hi : spec_float) (s : PropertyIndex B) : io B :=
  match range_indexes s !! (label, prop) with
  | Some idx =>
      let? es := btree_range lo hi idx in
      Ok (foldl (fun acc e => acc ∪ e.2) ∅ es)
  | None => Ok ∅
  end.

Definition evaluate_eq (label prop : bytes) (v : Value) (s : PropertyIndex B) : B :=
  default ∅ (eq_indexes s !! (label, prop) ≫= btree_get (wrapper_of v)).

Fixpoint evaluate (pred : Predicate) (s : PropertyIndex B) : io B :=
  match pred with
  | PEq label prop v => Ok (evaluate_eq label prop v s)
  | PGt label prop v => range_scan label prop (as_f64 v) f64_MAX s
  | PGte label prop v => range_scan label prop (as_f64 v) f64_MAX s
  | PLt label prop v => range_scan label prop f64_MIN (as_f64 v) s
  | PLte label prop v => range_scan label prop f64_MIN (as_f64 v) s
  | PIn label prop vs =>
      Ok (foldl (fun a b => a ∪ b) ∅ (map (fun v => evaluate_eq label prop v s) vs))
  | PAnd p q => let? a := evaluate p s in let? b := evaluate q s in Ok (a ∩ b)
  | POr p q => let? a := evaluate p s in let? b := evaluate q s in Ok (a ∪ b)
  | PNot _ => Ok ∅
  end.
End operations.
End PropertyIndex.

Lemma elem_of_union_list `{FinSet Z B} (bs : list B) acc n :
  n ∈ foldl (fun a b => a ∪ b) acc bs <-> n ∈ acc \/ exists b, b ∈ bs /\ n ∈ b.
Proof.
  revert acc. induction bs as [|b bs IH]; intros acc; simpl; [set_solver|].
  rewrite IH. setoid_rewrite elem_of_cons. set_solver.
Qed.

(** ** What a predicate means

    [has label prop v n]: node [n] has the label and the value [v] in [prop]. *)

(** The documented order of [OrderedFloat], as far as it is used. *)
Class FloatOrd (cmp : spec_float -> spec_float -> comparison) : Prop := {
  float_cmp_opp a b : cmp b a = CompOpp (cmp a b);
  float_cmp_eq a b c : cmp a b = Eq -> cmp a c = cmp b c
}.

Definition num_of (v : Value) : option spec_float :=
  match v with VInt i => Some (f64_of_Z i) | VFloat f => Some f | _ => None end.

Section meaning.
Context `{FinSet Z B}.
Context (float_cmp : spec_float -> spec_float -> comparison) `{!FloatOrd float_cmp}.
Context (has : bytes -> bytes -> Value -> Z -> Prop).
Import PropertyIndex.
Local Abbreviation weq := (wrapper_eqb float_cmp).
Local Abbreviation leb := (float_leb float_cmp).

(** The two kinds of index hold exactly these facts. *)
Record index_faithful (s : PropertyIndex B) : Prop := {
  eq_sound l p idx k bm n : eq_indexes s !! (l, p) = Some idx -> (k, bm) ∈ idx -> n ∈ bm ->
    exists v, has l p v n /\ weq (wrapper_of v) k = true;
  eq_complete l p v n : has l p v n ->
    exists idx, eq_indexes s !! (l, p) = Some idx /\
      (exists k bm, (k, bm) ∈ idx /\ weq (wrapper_of v) k = true) /\
      forall k bm, (k, bm) ∈ idx -> weq (wrapper_of v) k = true -> n ∈ bm;
  range_sound l p idx f bm n : range_indexes s !! (l, p) = Some idx -> (f, bm) ∈ idx -> n ∈ bm ->
    exists v x, has l p v n /\ num_of v = Some x /\ float_cmp x f = Eq;
  range_complete l p v x n : has l p v n -> num_of v = Some x ->
    exists idx f bm, range_indexes s !! (l, p) = Some idx /\ (f, bm) ∈ idx /\
      n ∈ bm /\ float_cmp x f = Eq
}.

(** Equal values, each kind for itself. *)
Definition same_value (a b : Value) : Prop :=
  match a, b with
  | VFloat x, VFloat y => float_cmp x y = Eq
  | _, _ => a = b
  end.

(** The meaning the doc comments of [Predicate] give; a comparison holds of
    numbers only. *)
Fixpoint sat (pred : Predicate) (n : Z) : Prop :=
  match pred with
  | PEq l p v => exists v', has l p v' n /\ same_value v' v
  | PGt l p v => exists v' x y, has l p v' n /\ num_of v' = Some x /\ num_of v = Some y /\
      float_cmp x y = Gt
  | PGte l p v => exists v' x y, has l p v' n /\ num_of v' = Some x /\ num_of v = Some y /\
      float_cmp x y ≠ Lt
  | PLt l p v => exists v' x y, has l p v' n /\ num_of v' = Some x /\ num_of v = Some y /\
      float_cmp x y = Lt
  | PLte l p v => exists v' x y, has l p v' n /\ num_of v' = Some x /\ num_of v = Some y /\
      float_cmp x y ≠ Gt
  | PIn l p vs => exists v v', v ∈ vs /\ has l p v' n /\ same_value v' v
  | PAnd a b => sat a n /\ sat b n
  | POr a b => sat a n \/ sat b n
  | PNot a => ~ sat a n
  end.

(** What [evaluate] answers: [PGt] and [PLt] include the bound, ranges leave out
    the infinities, lists and vectors count as [Null], a bound that is not a
    number as what [as_f64] makes of it, and nothing satisfies a [PNot]. *)
Fixpoint answered (pred : Predicate) (n : Z) : Prop :=
  match pred with
  | PEq l p v => exists v', has l p v' n /\ weq (wrapper_of v') (wrapper_of v) = true
  | PGt l p v | PGte l p v => exists v' x, has l p v' n /\ num_of v' = Some x /\
      leb (as_f64 v) x = true /\ leb x f64_MAX = true
  | PLt l p v | PLte l p v => exists v' x, has l p v' n /\ num_of v' = Some x /\
      leb f64_MIN x = true /\ leb x (as_f64 v) = true
  | PIn l p vs => exists v v', v ∈ vs /\ has l p v' n /\
      weq (wrapper_of v') (wrapper_of v) = true
  | PAnd a b => answered a n /\ answered b n
  | POr a b => answered a n \/ answered b n
  | PNot _ => False
  end.

(** Values that are keys of their own. *)
Definition plain (v : Value) : bool :=
  match v with VBool _ | VInt _ | VFloat _ | VString _ => true | _ => false end.

(** No [PNot]. *)
Fixpoint positive (pred : Predicate) : bool :=
  match pred with
  | PAnd a b | POr a b => positive a && positive b
  | PNot _ => false
  | _ => true
  end.

(** No [PGt], [PLt] or [PNot], and only plain values compared. *)
Fixpoint exact_pred (pred : Predicate) : bool :=
  match pred with
  | PEq _ _ v => plain v
  | PIn _ _ vs => forallb plain vs
  | PGte _ _ v | PLte _ _ v => bool_decide (is_Some (num_of v))
  | PAnd a b | POr a b => exact_pred a && exact_pred b
  | PGt _ _ _ | PLt _ _ _ | PNot _ => false
  end.

(** No node has an infinity or NaN. *)
Definition values_finite : Prop :=
  forall l p v n x, has l p v n -> num_of v = Some x -> leb f64_MIN x = true /\ leb x f64_MAX = true.

(** No bound of a range is above [f64::MAX] or below [f64::MIN]. *)
Fixpoint bounds_ok (pred : Predicate) : bool :=
  match pred with
  | PGt _ _ v | PGte _ _ v => leb (as_f64 v) f64_MAX
  | PLt _ _ v | PLte _ _ v => leb f64_MIN (as_f64 v)
  | PAnd a b | POr a b => bounds_ok a && bounds_ok b
  | PEq _ _ _ | PIn _ _ _ | PNot _ => true
  end.

Lemma float_cmp_refl a : float_cmp a a = Eq.
Proof. pose proof (float_cmp_opp a a). by destruct (float_cmp a a). Qed.

Lemma float_cmp_eq_r a b c : float_cmp a b = Eq -> float_cmp c a = float_cmp c b.
Proof.
  intros Hab. rewrite (float_cmp_opp a c), (float_cmp_opp b c). by rewrite (float_cmp_eq a b c Hab).
Qed.

Lemma leb_eq a b x : float_cmp a b = Eq -> leb a x = leb b x /\ leb x a = leb x b.
Proof.
  intros Hab. unfold float_leb. by rewrite (float_cmp_eq _ _ _ Hab), (float_cmp_eq_r _ _ x Hab).
Qed.

Lemma weq_trans a b c : weq a b = true -> weq c b = true -> weq a c = true.
Proof.
  destruct a as [|x|x|x|x], b as [|y|y|y|y], c as [|z|z|z|z]; simpl; try done; try blia.
  - destruct (float_cmp x y) eqn:Hxy, (float_cmp z y) eqn:Hzy; try done.
    by rewrite (float_cmp_eq _ _ _ Hxy), (float_cmp_opp z y), Hzy.
  - intros ->%bool_decide_eq_true ->%bool_decide_eq_true. by apply bool_decide_eq_true.
Qed.

Lemma weq_sym a b : weq a b = true -> weq b a = true.
Proof.
  intros Hab. apply (weq_trans b b a); [|done].
  destruct b as [|y|y|y|y]; simpl; try done; try blia.
  - by rewrite float_cmp_refl.
  - by apply bool_decide_eq_true.
Qed.

Lemma evaluate_eq_sat s l p v n :
  index_faithful s ->
  n ∈ evaluate_eq float_cmp l p v s <-> answered (PEq l p v) n.
Proof.
  intros Hs. unfold evaluate_eq. simpl. split.
  - destruct (eq_indexes s !! (l, p)) as [idx|] eqn:Hidx; simpl; [|set_solver].
    unfold btree_get. destruct (list_find _ idx) as [[i [k bm]]|] eqn:Hfind; simpl; [|set_solver].
    apply list_find_Some in Hfind as (Hi & Hk & _). simpl in Hk.
    intros Hn. destruct (eq_sound s Hs _ _ _ _ _ _ Hidx (list_elem_of_lookup_2 _ _ _ Hi) Hn)
      as (v' & Hv' & Hw). exists v'. split; [done|].
    apply (weq_trans _ k); [done|]. by apply weq_sym.
  - intros (v' & Hv' & Hw). destruct (eq_complete s Hs _ _ _ _ Hv') as (idx & -> & (k & bm & Hk & Hkw) & Hin).
    simpl. unfold btree_get. destruct (list_find _ idx) as [[i [k' bm']]|] eqn:Hfind; simpl.
    + apply list_find_Some in Hfind as (Hi & Hk' & _). simpl in Hk'.
      apply (Hin k' bm'); [by eapply list_elem_of_lookup_2|].
      apply (weq_trans _ (wrapper_of v)); done.
    + exfalso. apply list_find_None in Hfind. rewrite Forall_forall in Hfind.
      apply (Hfind _ Hk). simpl. apply (weq_trans _ (wrapper_of v')); by apply weq_sym.
Qed.

Lemma range_scan_sat s l p lo hi :
  index_faithful s -> leb lo hi = true ->
  exists bm, range_scan float_cmp l p lo hi s = Ok bm /\
    forall n, n ∈ bm <-> exists v x, has l p v n /\ num_of v = Some x /\
      leb lo x = true /\ leb x hi = true.
Proof.
  intros Hs Hle. unfold range_scan.
  destruct (range_indexes s !! (l, p)) as [idx|] eqn:Hidx.
  - unfold btree_range. rewrite Hle. simpl. eexists. split; [done|]. intros n.
    assert (forall (es : list (spec_float * B)) acc,
      foldl (fun a e => a ∪ e.2) acc es = foldl (fun a b => a ∪ b) acc (map snd es)) as ->.
    { induction es as [|e es IH]; intros acc; simpl; [done|]. by rewrite IH. }
    rewrite elem_of_union_list. split.
    + intros [?%not_elem_of_empty|(b & Hb & Hn)]; [done|].
      apply list_elem_of_fmap in Hb as ([f b'] & -> & Hf). simpl in Hn.
      apply list_elem_of_filter in Hf as [[Hlo Hhi]%andb_true_iff Hf]. simpl in *.
      destruct (range_sound s Hs _ _ _ _ _ _ Hidx Hf Hn) as (v & x & Hv & Hx & Heq).
      exists v, x. destruct (leb_eq _ _ lo Heq) as [_ ->]. by destruct (leb_eq _ _ hi Heq) as [-> _].
    + intros (v & x & Hv & Hx & Hlo & Hhi). right.
      destruct (range_complete s Hs _ _ _ _ _ Hv Hx) as (idx' & f & bm & Hidx' & Hf & Hn & Heq).
      simplify_eq. exists bm. split; [|done]. apply list_elem_of_fmap. exists (f, bm).
      split; [done|]. apply list_elem_of_filter. split; [|done]. simpl.
      destruct (leb_eq _ _ lo Heq) as [_ <-]. destruct (leb_eq _ _ hi Heq) as [<- _].
      by rewrite Hlo, Hhi.
  - exists ∅. split; [done|]. intros n. split; [set_solver|].
    intros (v & x & Hv & Hx & _).
    destruct (range_complete s Hs _ _ _ _ _ Hv Hx) as (idx' & f & bm & Hidx' & _). congruence.
Qed.

Lemma evaluate_answers s pred :
  index_faithful s -> bounds_ok pred = true ->
  exists bm, evaluate float_cmp pred s = Ok bm /\ forall n, n ∈ bm <-> answered pred n.
Proof.
  intros Hs. induction pred as [l p v|l p v|l p v|l p v|l p v|l p vs|a IHa b IHb|a IHa b IHb|a _];
    cbn [bounds_ok evaluate]; intros Hok; try (by apply range_scan_sat).
  - eexists. split; [done|]. intros n. by apply evaluate_eq_sat.
  - eexists. split; [done|]. intros n. rewrite elem_of_union_list.
    setoid_rewrite list_elem_of_fmap. simpl. split.
    + intros [?%not_elem_of_empty|(b & (v & -> & Hv) & Hn)]; [done|].
      apply evaluate_eq_sat in Hn as (v' & Hv' & Hw); [|done]. eauto 6.
    + intros (v & v' & Hv & Hv' & Hw). right. eexists. split; [by exists v|].
      apply evaluate_eq_sat; [done|]. simpl. eauto.
  - apply andb_true_iff in Hok as [(x & -> & Hx)%IHa (y & -> & Hy)%IHb].
    eexists. split; [done|]. intros n. rewrite elem_of_intersection, Hx, Hy. done.
  - apply andb_true_iff in Hok as [(x & -> & Hx)%IHa (y & -> & Hy)%IHb].
    eexists. split; [done|]. intros n. rewrite elem_of_union, Hx, Hy. done.
  - eexists. split; [done|]. intros n. simpl. set_solver.
Qed.

(** *** Against the documented meaning *)

Lemma same_value_weq a b : same_value a b -> weq (wrapper_of a) (wrapper_of b) = true.
Proof.
  destruct a, b; simpl; try done; intros Heq; try (by rewrite Heq); simplify_eq; try done.
  - by apply Z.eqb_refl.
  - by apply Z.eqb_refl.
  - by apply bool_decide_eq_true.
Qed.

Lemma weq_same_value a b : plain b = true -> weq (wrapper_of a) (wrapper_of b) = true -> same_value a b.
Proof.
  destruct a as [|x|x|x|x|x|x], b as [|y|y|y|y|y|y]; simpl; try done; intros _.
  - by destruct x, y.
  - by intros ->%Z.eqb_eq.
  - by destruct (float_cmp x y).
  - by intros ->%bool_decide_eq_true.
Qed.

Lemma leb_not_lt x y : leb y x = true <-> float_cmp x y ≠ Lt.
Proof. unfold float_leb. rewrite (float_cmp_opp x y). by destruct (float_cmp x y). Qed.

Lemma leb_not_gt x y : leb x y = true <-> float_cmp x y ≠ Gt.
Proof. unfold float_leb. by destruct (float_cmp x y). Qed.

Lemma num_of_as_f64 v y : num_of v = Some y -> as_f64 v = y.
Proof. by destruct v; simpl; intros [= <-]. Qed.

(** A range around what satisfies the comparison. *)
Lemma above_bound l p v n (P : comparison -> Prop) :
  values_finite -> (forall c, P c -> c ≠ Lt) ->
  (exists v' x y, has l p v' n /\ num_of v' = Some x /\ num_of v = Some y /\ P (float_cmp x y)) ->
  answered (PGte l p v) n.
Proof.
  intros Hfin HP (v' & x & y & Hv & Hx & Hy & Hc). exists v', x. rewrite (num_of_as_f64 v y Hy).
  split; [done|]. split; [done|]. split; [by apply leb_not_lt, HP|by apply (Hfin l p v' n)].
Qed.

Lemma below_bound l p v n (P : comparison -> Prop) :
  values_finite -> (forall c, P c -> c ≠ Gt) ->
  (exists v' x y, has l p v' n /\ num_of v' = Some x /\ num_of v = Some y /\ P (float_cmp x y)) ->
  answered (PLte l p v) n.
Proof.
  intros Hfin HP (v' & x & y & Hv & Hx & Hy & Hc). exists v', x. rewrite (num_of_as_f64 v y Hy).
  split; [done|]. split; [done|]. split; [by apply (Hfin l p v' n)|by apply leb_not_gt, HP].
Qed.

Lemma sat_answered pred n : values_finite -> positive pred = true -> sat pred n -> answered pred n.
Proof.
  intros Hfin. induction pred as [l p v|l p v|l p v|l p v|l p v|l p vs|a IHa b IHb|a IHa b IHb|a _];
    cbn [positive]; intros Hpos; try apply andb_true_iff in Hpos as [Ha Hb]; try done.
  - intros (v' & Hv & Heq). exists v'. split; [done|by apply same_value_weq].
  - exact (above_bound l p v n (fun c => c = Gt) Hfin ltac:(by intros c ->)).
  - exact (above_bound l p v n (fun c => c ≠ Lt) Hfin ltac:(done)).
  - exact (below_bound l p v n (fun c => c = Lt) Hfin ltac:(by intros c ->)).
  - exact (below_bound l p v n (fun c => c ≠ Gt) Hfin ltac:(done)).
  - intros (v & v' & Hin & Hv & Heq). exists v, v'. split; [done|]. split; [done|by apply same_value_weq].
  - intros [Ha' Hb']. split; auto.
  - intros [Ha'|Hb']; [left|right]; auto.
Qed.

Lemma exact_positive pred : exact_pred pred = true -> positive pred = true.
Proof.
  induction pred; cbn [exact_pred positive]; try done;
    intros [Ha Hb]%andb_true_iff; apply andb_true_iff; auto.
Qed.

Lemma answered_sat pred n : exact_pred pred = true -> answered pred n -> sat pred n.
Proof.
  induction pred as [l p v|l p v|l p v|l p v|l p v|l p vs|a IHa b IHb|a IHa b IHb|a _];
    cbn [exact_pred]; intros Hex; try apply andb_true_iff in Hex as [Ha Hb]; try done.
  - intros (v' & Hv & Heq). exists v'. split; [done|by apply weq_same_value].
  - apply bool_decide_eq_true in Hex as [y Hy]. intros (v' & x & Hv & Hx & Hlo & _).
    exists v', x, y. rewrite (num_of_as_f64 v y Hy) in Hlo. split_done. by apply leb_not_lt.
  - apply bool_decide_eq_true in Hex as [y Hy]. intros (v' & x & Hv & Hx & _ & Hhi).
    exists v', x, y. rewrite (num_of_as_f64 v y Hy) in Hhi. split_done. by apply leb_not_gt.
  - intros (v & v' & Hin & Hv & Heq). exists v, v'. split; [done|]. split; [done|].
    apply weq_same_value; [|done]. rewrite forallb_forall in Hex. by apply Hex, list_elem_of_In.
  - intros [Ha' Hb']. split; auto.
  - intros [Ha'|Hb']; [left|right]; auto.
Qed.

End meaning.

(** A range whose bound lies outside [f64::MIN ..= f64::MAX] (an infinity, or NaN
    as a lower bound) panics on an indexed property. *)
Lemma range_panics `{FinSet Z B} float_cmp l p v (s : PropertyIndex B) idx :
  range_indexes s !! (l, p) = Some idx ->
  PropertyIndex.float_leb float_cmp (as_f64 v) f64_MAX = false ->
  PropertyIndex.evaluate float_cmp (PGt l p v) s = Panic /\
  PropertyIndex.evaluate float_cmp (PGte l p v) s = Panic.
Proof.
  intros Hidx Hle. simpl. unfold PropertyIndex.range_scan, PropertyIndex.btree_range.
  by rewrite Hidx, Hle.
Qed.

(** There is no way to add to an index: on the only one the program can build,
    every predicate evaluates to the empty set. *)
Lemma evaluate_new `{FinSet Z B} float_cmp pred :
  exists bm : B, PropertyIndex.evaluate float_cmp pred PropertyIndex.new = Ok bm /\ bm ≡ ∅.
Proof.
  induction pred as [l p v|l p v|l p v|l p v|l p v|l p vs|a (x & Hx & Ex) b (y & Hy & Ey)|
    a (x & Hx & Ex) b (y & Hy & Ey)|a _]; cbn [PropertyIndex.evaluate];
    unfold PropertyIndex.range_scan, PropertyIndex.evaluate_eq; simpl; rewrite ?lookup_empty;
    try (by eexists).
  - eexists. split; [done|]. intros n. rewrite elem_of_union_list.
    split; [|set_solver].
    intros [?|(b & (v & -> & _)%list_elem_of_fmap & Hn)]; [done|].
    by simpl in Hn.
  - rewrite Hx, Hy. eexists. split; [done|]. set_solver.
  - rewrite Hx, Hy. eexists. split; [done|]. set_solver.
Qed.

(** ** A concrete index *)

(** [OrderedFloat]: NaN equals itself and is above everything else. *)
Definition ordered_cmp (a b : spec_float) : comparison :=
  match partial_cmp a b with
  | Some c => c
  | None => match is_nan a, is_nan b with true, true => Eq | true, false => Gt | _, _ => Lt end
  end.

Lemma partial_cmp_eq a b : partial_cmp a b = Some Eq -> forall c, partial_cmp a c = partial_cmp b c.
Proof.
  unfold partial_cmp.
  destruct a as [sa|sa| |sa ma ea], b as [sb|sb| |sb mb eb]; simpl; try done;
    try (by destruct sa); try (by destruct sb); try (by destruct sa, sb).
  assert (forall c, (ea ?= eb) = Eq -> Pos.compare_cont Eq ma mb = Eq ->
    SFcompare (S754_finite sa ma ea) c = SFcompare (S754_finite sa mb eb) c) as Hsame.
  { intros c ->%Z.compare_eq_iff Hm. by apply Pos.compare_eq in Hm as ->. }
  destruct sa, sb; try done; intros Hc c; apply Hsame;
    destruct (ea ?= eb), (Pos.compare_cont Eq ma mb); done.
Qed.

#[export] Instance ordered_cmp_ord : FloatOrd ordered_cmp.
Proof.
  split.
  - intros a b. unfold ordered_cmp. rewrite (partial_cmp_swap a b).
    destruct (partial_cmp a b) eqn:Hc; [done|]. simpl.
    apply partial_cmp_None in Hc. by destruct (is_nan a), (is_nan b), Hc.
  - intros a b c. unfold ordered_cmp. destruct (partial_cmp a b) as [[]|] eqn:Hc; intros Hab; try done.
    + rewrite (partial_cmp_eq a b Hc c). destruct (partial_cmp b c) eqn:Hbc; [done|].
      assert (is_nan a = false /\ is_nan b = false) as [-> ->]; [|done].
      split; apply not_true_is_false; intros Hn; by destruct a, b.
    + destruct a, b; done.
Qed.

Section witnesses.
Definition sample_label : bytes := [Byte.x61].
Definition sample_prop : bytes := [Byte.x62].
Definition five : spec_float := f64_of_Z 5.

(** Node 1 has the integer 5, node 2 the float 5.0. *)
Definition sample_has (l p : bytes) (v : Value) (n : Z) : Prop :=
  l = sample_label /\ p = sample_prop /\ ((v = VInt 5 /\ n = 1) \/ (v = VFloat five /\ n = 2)).

Definition sample_prop_index : PropertyIndex (gset Z) :=
  {| eq_indexes := {[ (sample_label, sample_prop) := [(WInt 5, {[1]}); (WFloat five, {[2]})] ]};
     range_indexes := {[ (sample_label, sample_prop) := [(five, {[1; 2]})] ]} |}.

Lemma sample_faithful : index_faithful ordered_cmp sample_has sample_prop_index.
Proof.
  assert (ordered_cmp five five = Eq) as Hrefl by done.
  split; unfold sample_has; simpl.
  - intros l p idx k bm n [[= <- <-] <-]%lookup_singleton_Some Hk Hn.
    rewrite !elem_of_cons, elem_of_nil in Hk. destruct Hk as [Hk|[Hk|[]]]; simplify_eq;
      apply elem_of_singleton in Hn as ->; eexists; split; eauto 6.
  - intros l p v n (-> & -> & Hv). eexists. split; [apply lookup_singleton_eq|].
    split.
    { destruct Hv as [[-> ->]|[-> ->]];
        [exists (WInt 5), {[1]}|exists (WFloat five), {[2]}]; (split; [|done]).
      - by left.
      - by right; left. }
    intros k bm Hk. rewrite !elem_of_cons, elem_of_nil in Hk.
    destruct Hk as [Hk|[Hk|[]]], Hv as [[-> ->]|[-> ->]]; simplify_eq; set_solver.
  - intros l p idx f bm n [[= <- <-] <-]%lookup_singleton_Some Hk Hn.
    apply list_elem_of_singleton in Hk. simplify_eq.
    apply elem_of_union in Hn as [->%elem_of_singleton| ->%elem_of_singleton];
      eexists _, five; (split; [eauto 6|done]).
  - intros l p v x n (-> & -> & Hv) Hx. eexists _, five, _. split; [apply lookup_singleton_eq|].
    split; [by apply list_elem_of_singleton|].
    destruct Hv as [[-> ->]|[-> ->]]; simplify_eq/=; split; try set_solver; done.
Qed.

Definition sample_pred : Predicate :=
  PAnd (PGte sample_label sample_prop (VInt 5)) (PIn sample_label sample_prop [VInt 7; VInt 5]).

Lemma sample_finite : values_finite ordered_cmp sample_has.
Proof. intros l p v n x (_ & _ & [[-> _]|[-> _]]) [= <-]; by vm_compute. Qed.


(** [> 5] finds the nodes whose value is 5. *)
Example gt_includes_equal :
  PropertyIndex.evaluate ordered_cmp (PGt sample_label sample_prop (VInt 5)) sample_prop_index =
    Ok {[1; 2]}.
Proof. by vm_compute. Qed.
End witnesses.
