(* ===== verification/FullText.v ===== *)
(** * The full-text index ([src/src/index/fulltext/])

    BM25 scoring ([scorer.rs]) and search ([mod.rs]). A bitmap (crate roaring) is
    any [FinSet] of node ids, the term dictionary (crate fst) any partial function
    from terms to ordinals, and [f32::ln] and the iteration order of the score map
    are parameters. *)

From S2P Require Export Graph PropStore F32 Analyzer.

Open Scope Z_scope.

(** ** BM25 *)

Section bm25.
Context (f32_ln : spec_float -> spec_float).

(** [1.2f32], [0.75f32] and [0.5f32], exactly. *)
Definition bm25_k1 : spec_float := f32_lit 10066330 (-23).
Definition bm25_b : spec_float := f32_lit 3 (-2).
Definition half : spec_float := f32_lit 1 (-1).

Definition bm25_score (tf df doc_len avg_doc_len total_docs : spec_float) : spec_float :=
  let df_f32 := f32_of_f64 df in
  let total_f32 := f32_of_f64 total_docs in
  let idf := f32_ln (f32_add (f32_div (f32_add (f32_sub total_f32 df_f32) half)
                                      (f32_add df_f32 half)) f32_one) in
  let tf_norm := f32_div (f32_mul tf (f32_add bm25_k1 f32_one))
    (f32_add tf (f32_mul bm25_k1 (f32_add (f32_sub f32_one bm25_b)
                                     (f32_div (f32_mul bm25_b doc_len) (f32_of_f64 avg_doc_len))))) in
  f32_mul idf tf_norm.
End bm25.

(** ** The index *)

Record FullTextIndex (B : Type) : Type := mkFullTextIndex {
  ft_name : bytes;
  ft_labels : list bytes;
  ft_properties : list bytes;
  fst_map : option (list Z -> option Z);
  postings : list B;
  positions : list (gmap Z (list Z));
  doc_lengths : gmap Z Z;
  total_docs : Z;
  avg_doc_length : spec_float
}.
Arguments ft_name {B}.
Arguments ft_labels {B}.
Arguments ft_properties {B}.
Arguments fst_map {B}.
Arguments postings {B}.
Arguments positions {B}.
Arguments doc_lengths {B}.
Arguments total_docs {B}.
Arguments avg_doc_length {B}.

Module FullTextIndex.
Section operations.
Context `{FinSet Z B}.
Context (is_alphabetic is_numeric : Z -> bool) (to_lowercase : Z -> list Z).
Context (f32_ln : spec_float -> spec_float).
Context (into_iter : gmap Z spec_float -> list Scored).

Definition new (name : bytes) (labels properties : list bytes) : FullTextIndex B :=
  {| ft_name := name; ft_labels := labels; ft_properties := properties; fst_map := None;
     postings := []; positions := []; doc_lengths := ∅; total_docs := 0;
     avg_doc_length := S754_zero false |}.

Definition count_tf (ordinal : Z) (node_id : Z) (s : FullTextIndex B) : spec_float :=
  match positions s !! Z.to_nat ordinal with
  | Some m => match m !! node_id with Some v => f32_of_Z (Z.of_nat (length v)) | None => f32_one end
  | None => f32_one
  end.

(** [*results.entry(node_id).or_default() += score]. *)
Definition add_score (node_id : Z) (score : spec_float) (results : gmap Z spec_float)
  : gmap Z spec_float :=
  <[node_id := f32_add (default f32_zero (results !! node_id)) score]> results.

(** The score of one node of a posting. *)
Definition node_score (ordinal : Z) (posting : B) (s : FullTextIndex B) (node_id : Z) : spec_float :=
  let dl := match doc_lengths s !! node_id with Some r => f32_of_Z r | None => f32_one end in
  bm25_score f32_ln (count_tf ordinal node_id s) (f64_of_Z (Z.of_nat (size posting))) dl
    (avg_doc_length s) (f64_of_Z (total_docs s)).

(** One query token: [Panic] is [self.postings[ordinal]] out of bounds. *)
Definition search_token (fst : list Z -> option Z) (s : FullTextIndex B)
    (results : io (gmap Z spec_float)) (token : Token) : io (gmap Z spec_float) :=
  let? results := results in
  match fst (term token) with
  | None => Ok results
  | Some ordinal =>
      match postings s !! Z.to_nat ordinal with
      | None => Panic
      | Some posting =>
          Ok (foldl (fun r node_id => add_score node_id (node_score ordinal posting s node_id) r)
                    results (elements posting))
      end
  end.

Definition search (query : list Z) (s : FullTextIndex B) : io (list Scored) :=
  match tokenize is_alphabetic is_numeric to_lowercase query with
  | None => Err OutOfFuel
  | Some tokens =>
      let? results :=
        match fst_map s with
        | Some fst => foldl (search_token fst s) (Ok ∅) tokens
        | None => Ok ∅
        end in
      sort_scores (into_iter results)
  end.

End operations.
End FullTextIndex.

(** ** What a search finds *)

Section contract.
Context `{FinSet Z B}.
Context (is_alphabetic is_numeric : Z -> bool) (to_lowercase : Z -> list Z).
Context (f32_ln : spec_float -> spec_float).
Context (into_iter : gmap Z spec_float -> list Scored).
Import FullTextIndex.
Local Abbreviation search := (FullTextIndex.search is_alphabetic is_numeric to_lowercase f32_ln into_iter).
Local Abbreviation search_token := (FullTextIndex.search_token f32_ln).

(** Every ordinal of the dictionary has a posting. *)
Definition index_ok (s : FullTextIndex B) : Prop :=
  forall fst t o, fst_map s = Some fst -> fst t = Some o -> is_Some (postings s !! Z.to_nat o).

(** [node] is in the posting of the term [t]. *)
Definition term_matches (s : FullTextIndex B) (t : list Z) (node : Z) : Prop :=
  exists fst o p, fst_map s = Some fst /\ fst t = Some o /\
    postings s !! Z.to_nat o = Some p /\ node ∈ p.

(** What the term [t] adds to the score of [node]. *)
Definition term_score (s : FullTextIndex B) (t : list Z) (node : Z) : option spec_float :=
  fst ← fst_map s; o ← fst t; p ← postings s !! Z.to_nat o;
  if decide (node ∈ elements p) then Some (node_score f32_ln o p s node) else None.

(** The score of [node]: the terms of the query that match it, added up from
    left to right, a repeated term as often as it is repeated. *)
Definition plus_term (s : FullTextIndex B) (node : Z) (acc : option spec_float) (t : list Z)
  : option spec_float :=
  match term_score s t node with
  | Some x => Some (f32_add (default f32_zero acc) x)
  | None => acc
  end.

Definition query_score (s : FullTextIndex B) (ts : list (list Z)) (node : Z) : option spec_float :=
  foldl (plus_term s node) None ts.

Lemma term_score_matches s t node : is_Some (term_score s t node) <-> term_matches s t node.
Proof.
  unfold term_score, term_matches. split.
  - destruct (fst_map s) as [fst|]; [|by intros []]. simpl. destruct (fst t) as [o|] eqn:Ho; [|by intros []].
    simpl. destruct (postings s !! _) as [p|] eqn:Hp; [|by intros []]. simpl.
    case_decide as Hn; [|by intros []]. intros _. exists fst, o, p. by rewrite elem_of_elements in Hn.
  - intros (fst & o & p & -> & Ho & Hp & Hn). simpl. rewrite Ho. simpl. rewrite Hp. simpl.
    rewrite decide_True by by apply elem_of_elements. eauto.
Qed.

Lemma plus_terms_some s node ts acc :
  is_Some (foldl (plus_term s node) acc ts) <->
  is_Some acc \/ exists t, t ∈ ts /\ term_matches s t node.
Proof.
  revert acc. induction ts as [|t ts IH]; intros acc; simpl; [set_solver|].
  rewrite IH. setoid_rewrite elem_of_cons. unfold plus_term at 1.
  pose proof (term_score_matches s t node) as Ht.
  destruct (term_score s t node) as [x|].
  - split; [|by left; eauto]. intros _. right. exists t. split; [by left|]. apply Ht. eauto.
  - split; [naive_solver|]. intros [?|(t' & [->|?] & Hm)]; [by left| |right; eauto].
    apply Ht in Hm as [? ?]. done.
Qed.

Lemma query_score_matches s ts node :
  is_Some (query_score s ts node) <-> exists t, t ∈ ts /\ term_matches s t node.
Proof. unfold query_score. rewrite plus_terms_some. split; [intros [[? ?]|?]; done|by right]. Qed.

Lemma add_scores_lookup (score : Z -> spec_float) (l : list Z) (r : gmap Z spec_float) (n : Z) :
  NoDup l ->
  foldl (fun r n => add_score n (score n) r) r l !! n =
  if decide (n ∈ l) then Some (f32_add (default f32_zero (r !! n)) (score n)) else r !! n.
Proof.
  intros Hl. revert r. induction Hl as [|x l Hx Hl IH]; intros r; cbn [foldl].
  - by rewrite decide_False by apply not_elem_of_nil.
  - rewrite IH. unfold add_score. destruct (decide (n = x)) as [->|Hne].
    + rewrite decide_False, decide_True, lookup_insert_eq by (done || apply list_elem_of_here). done.
    + rewrite lookup_insert_ne by done. destruct (decide (n ∈ l)).
      * by rewrite decide_True by by apply list_elem_of_further.
      * by rewrite decide_False by (by intros [?|?]%elem_of_cons).
Qed.

Lemma search_token_lookup fst s r t :
  fst_map s = Some fst -> index_ok s ->
  exists r', search_token fst s (Ok r) t = Ok r' /\
    forall n, r' !! n = plus_term s n (r !! n) (term t).
Proof.
  intros Hfst Hok. unfold search_token, plus_term, term_score. rewrite Hfst. simpl.
  destruct (fst (term t)) as [o|] eqn:Ho; [|by exists r].
  destruct (Hok _ _ _ Hfst Ho) as [p Hp]. simpl. rewrite Hp. eexists. split; [done|]. intros n. simpl.
  rewrite (add_scores_lookup (node_score f32_ln o p s)) by apply NoDup_elements.
  by destruct (decide (n ∈ elements p)).
Qed.

Lemma search_tokens_lookup fst s tokens r :
  fst_map s = Some fst -> index_ok s ->
  exists r', foldl (search_token fst s) (Ok r) tokens = Ok r' /\
    forall n, r' !! n = foldl (plus_term s n) (r !! n) (map term tokens).
Proof.
  intros Hfst Hok. revert r. induction tokens as [|t tokens IH]; intros r; cbn [foldl map].
  - by exists r.
  - destruct (search_token_lookup fst s r t Hfst Hok) as (r1 & -> & Hr1).
    destruct (IH r1) as (r' & -> & Hr'). exists r'. split; [done|]. intros n. by rewrite Hr', Hr1.
Qed.

Hypothesis into_iter_perm : forall m, into_iter m ≡ₚ map_to_list m.

(** C36: on an index whose dictionary agrees with its postings, a search either
    panics on an incomparable score or returns exactly the nodes in the posting
    of some term of the query, each once, with the sum of the BM25 scores of its
    terms in the order of the query, none before a node that scores more. *)
Theorem search_correct query s :
  index_ok s ->
  let ts := terms is_alphabetic is_numeric to_lowercase query in
  exists scores, search query s = sort_scores (into_iter scores) /\
    (forall n, scores !! n = query_score s ts n) /\
    (forall n, is_Some (query_score s ts n) <-> exists t, t ∈ ts /\ term_matches s t n) /\
    forall l, search query s = Ok l ->
      StronglySorted not_below l /\ NoDup l.*1 /\
      forall n sc, (n, sc) ∈ l <-> query_score s ts n = Some sc.
Proof.
  intros Hok ts. unfold search, tokenize. rewrite tokenize_loop_terms by lia. cbn [app].
  assert (forall ts p, map term (number p ts) = ts) as Hterms.
  { induction ts0 as [|t ts0 IH]; intros p; simpl; [done|]. by rewrite IH. }
  set (tokens := number 0 _).
  assert (exists scores,
    (match fst_map s with Some fst => foldl (search_token fst s) (Ok ∅) tokens | None => Ok ∅ end)
      = Ok scores /\ forall n, scores !! n = query_score s ts n) as (scores & -> & Hlook).
  { destruct (fst_map s) as [fst|] eqn:Hfst.
    - destruct (search_tokens_lookup fst s tokens ∅ Hfst Hok) as (r & Hr & Hd).
      exists r. split; [done|]. intros n. rewrite Hd, lookup_empty. unfold tokens. by rewrite Hterms.
    - exists ∅. split; [done|]. intros n. rewrite lookup_empty. symmetry. apply eq_None_not_Some.
      rewrite query_score_matches. intros (t & _ & fst & o & p & Hf & _). congruence. }
  exists scores. split; [done|]. split; [done|]. split; [intros n; apply query_score_matches|].
  cbn [res_bind]. intros l Hl. split; [by eapply sort_scores_strongly|].
  apply sort_scores_ok in Hl as [Hp _]. rewrite (into_iter_perm scores) in Hp.
  split; [rewrite Hp; apply NoDup_fst_map_to_list|]. intros n sc.
  by rewrite Hp, elem_of_map_to_list, Hlook.
Qed.

(** The only index the program can build finds nothing. *)
Lemma search_new name labels properties query :
  search query (new name labels properties : FullTextIndex B) = Ok [].
Proof.
  unfold search, tokenize. rewrite tokenize_loop_terms by lia. cbn [app fst_map new res_bind].
  assert (into_iter ∅ = []) as ->; [|done].
  apply Permutation_nil_r. by rewrite into_iter_perm, map_to_list_empty.
Qed.
End contract.

(** ** A concrete index *)

Section witnesses.
(** Two terms, three nodes; node 2 has both terms. *)
Definition sample_index : FullTextIndex (gset Z) :=
  {| ft_name := []; ft_labels := []; ft_properties := [];
     fst_map := Some (fun t => if decide (t = [97]) then Some 0
                               else if decide (t = [98]) then Some 1 else None);
     postings := [{[1; 2]}; {[2; 3]}]; positions := [{[ 1 := [0; 4] ]}];
     doc_lengths := {[ 1 := 5; 2 := 2 ]}; total_docs := 3; avg_doc_length := f64_of_Z 3 |}.

Definition sample_iter (m : gmap Z spec_float) : list Scored := map_to_list m.

Lemma sample_index_ok : index_ok sample_index.
Proof.
  intros fst t o [= <-] Ho. revert Ho. repeat case_decide; intros ?; simplify_eq; by eexists.
Qed.

Lemma search_correct_witness :
  exists scores : gmap Z spec_float,
    FullTextIndex.search ascii_alphabetic ascii_numeric ascii_lowercase (fun x => x)
      sample_iter [65; 32; 66] sample_index = sort_scores (sample_iter scores) /\
    forall n, scores !! n = query_score (fun x => x) sample_index [[97]; [98]] n.
Proof.
  destruct (search_correct ascii_alphabetic ascii_numeric ascii_lowercase
    (fun x => x) sample_iter (fun m => reflexivity _) [65; 32; 66] sample_index sample_index_ok)
    as (scores & He & Hd & _).
  exists scores. split; [exact He|exact Hd].
Defined.

Example sample_search :
  (let? l := FullTextIndex.search ascii_alphabetic ascii_numeric ascii_lowercase (fun x => x)
    sample_iter [65; 32; 66] sample_index in Ok (map fst l)) = Ok [2; 3; 1].
Proof. by vm_compute. Qed.
End witnesses.
