(* ===== verification/Vector.v ===== *)
(** * The vector index ([src/src/index/vector/])

    The distance functions of [distance.rs] on [f32] vectors, and [VectorIndex]
    with the HNSW structure of [hnsw.rs], whose operations are not written yet
    and panic. *)

From S2P Require Export Graph F32.

Open Scope Z_scope.

Inductive DistanceMetric : Type := Cosine | Euclidean | DotProduct.

#[export] Instance DistanceMetric_eq_dec : EqDecision DistanceMetric.
Proof. solve_decision. Defined.

Abbreviation vec := (list spec_float).

(** ** Distances *)

Section distance.
(** The zero that [iter().sum()] starts from: its sign depends on the version of
    the standard library. *)
Context (sum_init : spec_float).

(** [a == 0.0]. *)
Definition is_zero (f : spec_float) : bool := SFeqb f f32_zero.

Definition cosine_step (acc : spec_float * spec_float * spec_float) (xy : spec_float * spec_float)
  : spec_float * spec_float * spec_float :=
  let '(d, na, nb) := acc in
  let '(x, y) := xy in
  (f32_add d (f32_mul x y), f32_add na (f32_mul x x), f32_add nb (f32_mul y y)).

Definition cosine_similarity (a b : vec) : io spec_float :=
  if decide (length a = length b) then
    let '(dot, norm_a, norm_b) :=
      foldl cosine_step (f32_zero, f32_zero, f32_zero) (combine a b) in
    if is_zero norm_a || is_zero norm_b then Ok f32_zero
    else Ok (f32_div dot (f32_mul (f32_sqrt norm_a) (f32_sqrt norm_b)))
  else Panic.

Definition cosine_distance (a b : vec) : io spec_float :=
  let? s := cosine_similarity a b in Ok (f32_sub f32_one s).

Definition euclidean_distance (a b : vec) : io spec_float :=
  if decide (length a = length b) then
    Ok (f32_sqrt (foldl f32_add sum_init
      (map (fun '(x, y) => f32_mul (f32_sub x y) (f32_sub x y)) (combine a b))))
  else Panic.

Definition dot_product (a b : vec) : io spec_float :=
  if decide (length a = length b) then
    Ok (foldl f32_add sum_init (map (fun '(x, y) => f32_mul x y) (combine a b)))
  else Panic.

(** *** The operations are symmetric *)

Lemma f32_mul_comm x y : f32_mul x y = f32_mul y x.
Proof.
  unfold f32_mul. destruct x as [sx|sx| |sx mx ex], y as [sy|sy| |sy my ey]; simpl; try done;
    try (by rewrite xorb_comm). by rewrite xorb_comm, Pos.mul_comm, Z.add_comm.
Qed.

Lemma binary_round_aux_opp m e l :
  binary_round_aux 24 128 true m e l = SFopp (binary_round_aux 24 128 false m e l).
Proof. unfold binary_round_aux. repeat case_match; done. Qed.

Lemma binary_round_opp m e :
  binary_round 24 128 true m e = SFopp (binary_round 24 128 false m e).
Proof. unfold binary_round. destruct (shl_align _ _ _). apply binary_round_aux_opp. Qed.

Lemma SFopp_involutive x : SFopp (SFopp x) = x.
Proof. destruct x as [[]|[]| |[]]; done. Qed.

Lemma f32_sub_swap x y : f32_sub y x = f32_sub x y \/ f32_sub y x = SFopp (f32_sub x y).
Proof.
  unfold f32_sub. destruct x as [sx|sx| |sx mx ex], y as [sy|sy| |sy my ey]; simpl;
    try (by left); try (by right); try (by destruct sx, sy; auto);
    try (by right; rewrite negb_involutive).
  rewrite (Z.min_comm ey ex).
  set (a := cond_Zopp sx _). set (b := cond_Zopp sy _).
  replace (b - a) with (- (a - b)) by lia.
  destruct (a - b) as [|p|p]; simpl; [by left|right..].
  - apply binary_round_opp.
  - by rewrite binary_round_opp, SFopp_involutive.
Qed.

Lemma f32_square_opp x : f32_mul (SFopp x) (SFopp x) = f32_mul x x.
Proof. by destruct x as [[]|[]| |[]]. Qed.

Lemma f32_square_sub x y : f32_mul (f32_sub y x) (f32_sub y x) = f32_mul (f32_sub x y) (f32_sub x y).
Proof. destruct (f32_sub_swap x y) as [->| ->]; [done|apply f32_square_opp]. Qed.

Lemma combine_swap {A B} (a : list A) (b : list B) :
  combine b a = map (fun '(x, y) => (y, x)) (combine a b).
Proof. revert b. induction a as [|x a IH]; intros [|y b]; simpl; [done..|]. by rewrite IH. Qed.

Lemma cosine_step_swap l d na nb :
  foldl cosine_step (d, nb, na) (map (fun '(x, y) => (y, x)) l) =
    (let '(d', na', nb') := foldl cosine_step (d, na, nb) l in (d', nb', na')).
Proof.
  revert d na nb. induction l as [|[x y] l IH]; intros d na nb; simpl; [done|].
  by rewrite (f32_mul_comm y x), IH.
Qed.

(** Every distance is symmetric in its arguments, to the last bit of the
    floating-point result, the panic on vectors of different lengths included. *)
Theorem distances_symmetric a b :
  cosine_similarity b a = cosine_similarity a b /\
  cosine_distance b a = cosine_distance a b /\
  euclidean_distance b a = euclidean_distance a b /\
  dot_product b a = dot_product a b.
Proof.
  assert (cosine_similarity b a = cosine_similarity a b) as Hcos.
  { unfold cosine_similarity. destruct (decide (length b = length a)) as [Hl|Hl];
      [rewrite decide_True by done|by rewrite decide_False by (intros ?; by apply Hl)].
    rewrite combine_swap, cosine_step_swap.
    destruct (foldl _ _ _) as [[d na] nb]. rewrite orb_comm.
    by rewrite (f32_mul_comm (f32_sqrt nb)). }
  split; [done|]. split; [unfold cosine_distance; by rewrite Hcos|].
  unfold euclidean_distance, dot_product. destruct (decide (length b = length a)) as [Hl|Hl];
    [rewrite !decide_True by done|by rewrite !decide_False by (intros ?; by apply Hl)].
  rewrite combine_swap, !map_map. split; do 2 f_equal; [f_equal|]; apply map_ext; intros [x y].
  - apply f32_square_sub.
  - apply f32_mul_comm.
Qed.
End distance.

(** The similarity of opposite vectors is -1. *)
Example cosine_opposite :
  cosine_similarity [f32_one] [f32_of_Z (-1)] = Ok (f32_of_Z (-1)).
Proof. by vm_compute. Qed.

(** ** [HnswIndex] and [VectorIndex] *)

Record HnswIndex : Type := mkHnswIndex {
  hnsw_dim : Z;
  hnsw_m : Z;
  hnsw_ef_construction : Z
}.

Module HnswIndex.
Definition new (dim m ef_construction : Z) : HnswIndex := mkHnswIndex dim m ef_construction.

(** [unimplemented!] *)
Definition insert (id : Z) (vector : vec) (h : HnswIndex) : io HnswIndex := Panic.
Definition search (query : vec) (k ef : Z) (h : HnswIndex) : io (list Scored) := Panic.
End HnswIndex.

Record VectorIndex : Type := mkVectorIndex {
  vec_name : bytes;
  vec_dim : Z;
  vec_metric : DistanceMetric;
  vec_hnsw : HnswIndex;
  vec_count : Z
}.

Module VectorIndex.
Definition new (name : bytes) (dim : Z) (metric : DistanceMetric) (m ef_construction : Z)
  : VectorIndex :=
  {| vec_name := name; vec_dim := dim; vec_metric := metric;
     vec_hnsw := HnswIndex.new dim m ef_construction; vec_count := 0 |}.

Definition insert (id : Z) (vector : vec) (v : VectorIndex) : io VectorIndex :=
  if decide (Z.of_nat (length vector) = vec_dim v) then
    let? h := HnswIndex.insert id vector (vec_hnsw v) in
    Ok {| vec_name := vec_name v; vec_dim := vec_dim v; vec_metric := vec_metric v;
          vec_hnsw := h; vec_count := vec_count v + 1 |}
  else Panic.

Definition search (query : vec) (k ef : Z) (v : VectorIndex) : io (list Scored) :=
  if decide (Z.of_nat (length query) = vec_dim v) then HnswIndex.search query k ef (vec_hnsw v)
  else Panic.

Definition len (v : VectorIndex) : Z := vec_count v.
End VectorIndex.
