(* ===== verification/Query.v ===== *)
(** * The query engine ([src/src/query/])

    [QueryBuilder] and [QueryPlan], and [hybrid_search] over the indexes. The
    iteration order of a [HashMap] is a parameter. *)

From S2P Require Export FullText PropIndex Vector.

Open Scope Z_scope.

(** ** Plans *)

Inductive FusionMethod : Type :=
| WeightedSum (alpha beta : spec_float)
| ReciprocalRankFusion (k : spec_float)
| Convex (lambda : spec_float).

Definition FusionMethod_default : FusionMethod := WeightedSum f32_one f32_zero.

Inductive FilterTiming : Type := Pre | Post | Adaptive.

Inductive Direction : Type := Out | In | Both.

Record TraversalClause : Type := mkTraversalClause {
  etype : bytes;
  direction : Direction;
  min_depth : Z;
  max_depth : Z;
  edge_predicates : list Predicate;
  node_predicates : list Predicate
}.

Record QueryPlan : Type := mkQueryPlan {
  fulltext_prop : option bytes;
  fulltext_text : option (list Z);
  vector_prop : option bytes;
  vector_query : option vec;
  vector_k : Z;
  vector_ef : Z;
  predicate : option Predicate;
  fusion : FusionMethod;
  filter_timing : FilterTiming;
  traversal : option TraversalClause;
  limit : Z
}.

(** The operators of a physical plan; nothing executes them yet. *)
Inductive PlanOp : Type :=
| IndexScan (index_name : bytes) (pred : Predicate)
| FullTextSearch (property : bytes) (query : list Z)
| VectorSearch (property : bytes) (query : vec) (k ef : Z)
| Filter (pred : Predicate)
| FuseSort (method : FusionMethod) (limit : Z)
| Expand (etype : bytes) (direction : Direction) (min_depth max_depth : Z)
| Project (fields : list bytes)
| Limit (count : Z).

(** ** The builder *)

Record QueryBuilder : Type := mkQueryBuilder {
  qb_fulltext_text : option (list Z);
  qb_fulltext_prop : option bytes;
  qb_vector_prop : option bytes;
  qb_vector_query : option vec;
  qb_vector_k : Z;
  qb_vector_ef : Z;
  predicates : list Predicate;
  qb_fusion : FusionMethod;
  qb_filter_timing : FilterTiming;
  qb_traversal : option TraversalClause;
  qb_limit : Z
}.

Module QueryBuilder.

Definition new : QueryBuilder :=
  {| qb_fulltext_text := None; qb_fulltext_prop := None; qb_vector_prop := None;
     qb_vector_query := None; qb_vector_k := 20; qb_vector_ef := 200; predicates := [];
     qb_fusion := WeightedSum f32_one f32_zero; qb_filter_timing := Adaptive;
     qb_traversal := None; qb_limit := 20 |}.

Definition fulltext (property : bytes) (query : list Z) (s : QueryBuilder) : QueryBuilder :=
  {| qb_fulltext_text := Some query; qb_fulltext_prop := Some property;
     qb_vector_prop := qb_vector_prop s; qb_vector_query := qb_vector_query s;
     qb_vector_k := qb_vector_k s; qb_vector_ef := qb_vector_ef s; predicates := predicates s;
     qb_fusion := qb_fusion s; qb_filter_timing := qb_filter_timing s;
     qb_traversal := qb_traversal s; qb_limit := qb_limit s |}.

Definition vector (property : bytes) (query : vec) (k ef : Z) (s : QueryBuilder) : QueryBuilder :=
  {| qb_fulltext_text := qb_fulltext_text s; qb_fulltext_prop := qb_fulltext_prop s;
     qb_vector_prop := Some property; qb_vector_query := Some query; qb_vector_k := k;
     qb_vector_ef := ef; predicates := predicates s; qb_fusion := qb_fusion s;
     qb_filter_timing := qb_filter_timing s; qb_traversal := qb_traversal s;
     qb_limit := qb_limit s |}.

Definition filter (pred : Predicate) (s : QueryBuilder) : QueryBuilder :=
  {| qb_fulltext_text := qb_fulltext_text s; qb_fulltext_prop := qb_fulltext_prop s;
     qb_vector_prop := qb_vector_prop s; qb_vector_query := qb_vector_query s;
     qb_vector_k := qb_vector_k s; qb_vector_ef := qb_vector_ef s;
     predicates := predicates s ++ [pred]; qb_fusion := qb_fusion s;
     qb_filter_timing := qb_filter_timing s; qb_traversal := qb_traversal s;
     qb_limit := qb_limit s |}.

Definition set_fusion (method : FusionMethod) (s : QueryBuilder) : QueryBuilder :=
  {| qb_fulltext_text := qb_fulltext_text s; qb_fulltext_prop := qb_fulltext_prop s;
     qb_vector_prop := qb_vector_prop s; qb_vector_query := qb_vector_query s;
     qb_vector_k := qb_vector_k s; qb_vector_ef := qb_vector_ef s; predicates := predicates s;
     qb_fusion := method; qb_filter_timing := qb_filter_timing s;
     qb_traversal := qb_traversal s; qb_limit := qb_limit s |}.

Definition set_filter_timing (timing : FilterTiming) (s : QueryBuilder) : QueryBuilder :=
  {| qb_fulltext_text := qb_fulltext_text s; qb_fulltext_prop := qb_fulltext_prop s;
     qb_vector_prop := qb_vector_prop s; qb_vector_query := qb_vector_query s;
     qb_vector_k := qb_vector_k s; qb_vector_ef := qb_vector_ef s; predicates := predicates s;
     qb_fusion := qb_fusion s; qb_filter_timing := timing;
     qb_traversal := qb_traversal s; qb_limit := qb_limit s |}.

Definition set_limit (n : Z) (s : QueryBuilder) : QueryBuilder :=
  {| qb_fulltext_text := qb_fulltext_text s; qb_fulltext_prop := qb_fulltext_prop s;
     qb_vector_prop := qb_vector_prop s; qb_vector_query := qb_vector_query s;
     qb_vector_k := qb_vector_k s; qb_vector_ef := qb_vector_ef s; predicates := predicates s;
     qb_fusion := qb_fusion s; qb_filter_timing := qb_filter_timing s;
     qb_traversal := qb_traversal s; qb_limit := n |}.

(** [reduce(And)]. *)
Definition combined_pred (ps : list Predicate) : option Predicate :=
  match ps with
  | [] => None
  | p :: ps' => Some (foldl PAnd p ps')
  end.

Definition build (s : QueryBuilder) : QueryPlan :=
  {| fulltext_prop := qb_fulltext_prop s; fulltext_text := qb_fulltext_text s;
     vector_prop := qb_vector_prop s; vector_query := qb_vector_query s;
     vector_k := qb_vector_k s; vector_ef := qb_vector_ef s;
     predicate := combined_pred (predicates s); fusion := qb_fusion s;
     filter_timing := qb_filter_timing s; traversal := qb_traversal s; limit := qb_limit s |}.
End QueryBuilder.

(** ** Hybrid search *)

Record QueryResult : Type := mkQueryResult {
  node_id : Z;
  score : spec_float;
  path : option (list Z)
}.

Record QueryContext (B : Type) : Type := mkQueryContext {
  ft_index : option (FullTextIndex B);
  vec_index : option VectorIndex;
  prop_index : PropertyIndex B;
  node_count : Z
}.
Arguments ft_index {B}.
Arguments vec_index {B}.
Arguments prop_index {B}.
Arguments node_count {B}.

(** [0.1f32]. *)
Definition tenth : spec_float := f32_lit 13421773 (-27).

Section search.
Context `{FinSet Z B}.
Context (is_alphabetic is_numeric : Z -> bool) (to_lowercase : Z -> list Z).
Context (f32_ln : spec_float -> spec_float).
Context (float_cmp : spec_float -> spec_float -> comparison).
Context (into_iter : gmap Z spec_float -> list Scored).

(** [for (id, s) in results { *scores.entry(id).or_default() += weight * s }]. *)
Definition add_weighted (weight : spec_float) (results : list Scored) (scores : gmap Z spec_float)
  : gmap Z spec_float :=
  foldl (fun m r => FullTextIndex.add_score r.1 (f32_mul weight r.2) m) scores results.

(** The pre-filter branch: the score of every candidate. *)
Definition pre_score (ctx : QueryContext B) (fulltext_query : option (list Z))
    (vector_query : option vec) (alpha beta : spec_float) : spec_float :=
  let s1 := match ft_index ctx, fulltext_query with
            | Some _, Some _ => f32_add f32_zero (f32_mul alpha f32_one)
            | _, _ => f32_zero
            end in
  match vec_index ctx, vector_query with
  | Some _, Some _ => f32_add s1 (f32_mul beta f32_one)
  | _, _ => s1
  end.

Definition pre_scores (ctx : QueryContext B) (filter_bm : B) (fulltext_query : option (list Z))
    (vector_query : option vec) (alpha beta : spec_float) : gmap Z spec_float :=
  foldl (fun m id =>
           let s := pre_score ctx fulltext_query vector_query alpha beta in
           if SFltb f32_zero s then <[id := s]> m else m)
        ∅ (elements filter_bm).

Definition post_scores (ctx : QueryContext B) (filter_bm : B) (fulltext_query : option (list Z))
    (vector_query : option vec) (vector_k vector_ef : option Z) (alpha beta : spec_float)
  : io (gmap Z spec_float) :=
  let? scores :=
    match ft_index ctx, fulltext_query with
    | Some ft, Some q =>
        let? rs := FullTextIndex.search is_alphabetic is_numeric to_lowercase f32_ln into_iter q ft in
        Ok (add_weighted alpha rs ∅)
    | _, _ => Ok ∅
    end in
  let? scores :=
    match vec_index ctx, vector_query with
    | Some vi, Some vq =>
        let? rs := VectorIndex.search vq (default 50 vector_k) (default 200 vector_ef) vi in
        Ok (add_weighted beta rs scores)
    | _, _ => Ok scores
    end in
  Ok (if decide (elements filter_bm = []) then scores
      else base.filter (fun e => wrap32 e.1 ∈ elements filter_bm) scores).

Definition selectivity (filter_bm : B) (node_count : Z) : spec_float :=
  if 0 <? node_count then f32_div (f32_of_Z (Z.of_nat (size filter_bm))) (f32_of_Z node_count)
  else f32_zero.

(** The candidates and their scores. *)
Definition candidate_scores (ctx : QueryContext B) (fulltext_query : option (list Z))
    (vector_query : option vec) (vector_k vector_ef : option Z) (predicate : option Predicate)
    (timing : FilterTiming) (alpha beta : spec_float) : io (gmap Z spec_float) :=
  let? filter_bm :=
    match predicate with
    | Some p => PropertyIndex.evaluate float_cmp p (prop_index ctx)
    | None => Ok ∅
    end in
  let use_pre_filter :=
    match timing with
    | Pre => true
    | Post => false
    | Adaptive => SFltb (selectivity filter_bm (node_count ctx)) tenth
    end in
  if use_pre_filter then Ok (pre_scores ctx filter_bm fulltext_query vector_query alpha beta)
  else post_scores ctx filter_bm fulltext_query vector_query vector_k vector_ef alpha beta.

(** The results carry no path, so they are sorted as pairs. *)
Definition hybrid_search (ctx : QueryContext B) (fulltext_query : option (list Z))
    (vector_query : option vec) (vector_k vector_ef : option Z) (predicate : option Predicate)
    (timing : FilterTiming) (alpha beta : spec_float) (limit : Z) : io (list QueryResult) :=
  let? scores :=
    candidate_scores ctx fulltext_query vector_query vector_k vector_ef predicate timing alpha beta in
  let? results := sort_scores (into_iter scores) in
  Ok (take (Z.to_nat limit) (map (fun r => mkQueryResult r.1 r.2 None) results)).

(** *** What a search returns *)

Definition scored (r : QueryResult) : Scored := (node_id r, score r).

(** No result is below a later one. *)
Definition ranked (l : list QueryResult) : Prop := StronglySorted not_below (map scored l).

Lemma pre_scores_spec ctx filter_bm ftq vq alpha beta n s :
  pre_scores ctx filter_bm ftq vq alpha beta !! n = Some s ->
  n ∈ filter_bm /\ s = pre_score ctx ftq vq alpha beta /\ SFltb f32_zero s = true.
Proof.
  unfold pre_scores. intros Hn.
  assert (forall (l : list Z) (m : gmap Z spec_float), foldl (fun m id => if SFltb f32_zero (pre_score ctx ftq vq alpha beta)
      then <[id := pre_score ctx ftq vq alpha beta]> m else m) m l !! n = Some s ->
    m !! n = Some s \/ (n ∈ l /\ s = pre_score ctx ftq vq alpha beta /\ SFltb f32_zero s = true))
    as Hfold.
  { induction l as [|x l IH]; intros m Hm; simpl in Hm; [by left|].
    apply IH in Hm as [Hm|(Hl & Hs)]; [|right; split; [by right|done]].
    destruct (SFltb _ _) eqn:Hlt; [|by left]. apply lookup_insert_Some in Hm as [[-> <-]|[_ Hm]];
      [right; split; [by left|done]|by left]. }
  apply Hfold in Hn as [?|(Hl & Hs)]; [done|]. split; [by apply elem_of_elements|done].
Qed.

(** A candidate of a predicate that matches anything matches it. *)
Lemma candidate_matches ctx ftq vq k ef p bm timing alpha beta scores n s :
  candidate_scores ctx ftq vq k ef (Some p) timing alpha beta = Ok scores ->
  PropertyIndex.evaluate float_cmp p (prop_index ctx) = Ok bm ->
  (exists m, m ∈ bm) -> (forall m, m ∈ bm -> 0 <= m < 2 ^ 32) -> scores !! n = Some s -> wrap32 n ∈ bm.
Proof.
  unfold candidate_scores. intros Hscores Hev [n0 Hn0] Hrange Hsc. rewrite Hev in Hscores.
  cbn [res_bind] in Hscores. match type of Hscores with (if ?c then _ else _) = _ => destruct c end.
  - simplify_eq. apply pre_scores_spec in Hsc as (Hn & _). by rewrite wrap32_small by auto.
  - unfold post_scores in Hscores.
    destruct (match ft_index ctx with Some _ => _ | None => _ end) as [s1| |]; simpl in Hscores; try done.
    destruct (match vec_index ctx with Some _ => _ | None => _ end) as [s2| |]; simpl in Hscores; try done.
    case_decide as Hemp; simplify_eq.
    + apply elem_of_elements in Hn0. rewrite Hemp in Hn0. by apply elem_of_nil in Hn0.
    + apply map_lookup_filter_Some in Hsc as [_ Hin']. by apply elem_of_elements.
Qed.

Hypothesis into_iter_perm : forall m, into_iter m ≡ₚ map_to_list m.

(** The best [limit] of the candidates. *)
Definition top_results (limit : Z) (scores : gmap Z spec_float) (l : list QueryResult) : Prop :=
  length l = Nat.min (Z.to_nat limit) (size scores) /\ ranked l /\ NoDup (map node_id l) /\
  (forall r, r ∈ l -> scores !! node_id r = Some (score r) /\ path r = None) /\
  forall n s r, scores !! n = Some s -> n ∉ map node_id l -> r ∈ l -> not_below (scored r) (n, s).

Lemma take_top limit scores (results : list Scored) :
  StronglySorted not_below results -> results ≡ₚ map_to_list scores ->
  top_results limit scores (take (Z.to_nat limit) (map (fun r => mkQueryResult r.1 r.2 None) results)).
Proof.
  intros Hs Hp. set (k := Z.to_nat limit). set (q := fun r : Scored => mkQueryResult r.1 r.2 None).
  assert (forall l : list Scored, map scored (map q l) = l) as Hq
    by (induction l as [|[n s] l IH]; simpl; by f_equal).
  assert (forall l : list Scored, map node_id (map q l) = l.*1) as Hids by (intros l; by rewrite map_map).
  rewrite (firstn_map q). pose proof (NoDup_fst_map_to_list scores) as Hnd. rewrite <-Hp in Hnd.
  rewrite <-(take_drop k results), fmap_app in Hnd. rewrite <-(take_drop k results) in Hs, Hp.
  split; [|split; [|split; [|split]]].
  - rewrite length_map, length_take. by rewrite <-length_map_to_list, <-Hp, take_drop.
  - unfold ranked. rewrite Hq. by eapply StronglySorted_app_1_l.
  - rewrite Hids. by apply NoDup_app in Hnd as [? _].
  - intros r (x & -> & Hx)%list_elem_of_fmap. simpl. split; [|done].
    apply elem_of_map_to_list. rewrite <-Hp. destruct x. by apply elem_of_app; left.
  - intros n sc r Hn Hout (x & -> & Hx)%list_elem_of_fmap. rewrite Hids in Hout.
    apply elem_of_map_to_list in Hn. rewrite <-Hp in Hn. apply elem_of_app in Hn as [Hn|Hn].
    + destruct Hout. apply list_elem_of_fmap. by exists (n, sc).
    + destruct x as [m sm]. by apply (StronglySorted_app_1_elem_of not_below _ _ (m, sm) (n, sc) Hs).
Qed.

(** The last steps of a search: sort, then cut. *)
Lemma sort_limit_spec scores limit l :
  (let? results := sort_scores (into_iter scores) in
   Ok (take (Z.to_nat limit) (map (fun r => mkQueryResult r.1 r.2 None) results))) = Ok l ->
  top_results limit scores l.
Proof.
  destruct (sort_scores _) as [results| |] eqn:Hsort; simpl; try done. intros [= <-].
  apply take_top; [by eapply sort_scores_strongly|].
  apply sort_scores_ok in Hsort as [Hp _]. by rewrite Hp.
Qed.

(** C35: whatever the timing, a search whose candidates' scores are numbers
    returns, and a search that returns gives the best [limit] candidates, each
    node once: none before one that scores more, and none left out that scores
    more than one returned. If the predicate matches any node, the id of every
    result is, cut to 32 bits, among the matches. *)
Theorem hybrid_search_results ctx ftq vq k ef pred timing alpha beta limit scores :
  candidate_scores ctx ftq vq k ef pred timing alpha beta = Ok scores ->
  ((forall n s, scores !! n = Some s -> is_nan s = false) ->
    exists l, hybrid_search ctx ftq vq k ef pred timing alpha beta limit = Ok l) /\
  forall l, hybrid_search ctx ftq vq k ef pred timing alpha beta limit = Ok l ->
    top_results limit scores l /\
    forall p bm, pred = Some p -> PropertyIndex.evaluate float_cmp p (prop_index ctx) = Ok bm ->
      (exists n, n ∈ bm) -> (forall n, n ∈ bm -> 0 <= n < 2 ^ 32) ->
      forall r, r ∈ l -> wrap32 (node_id r) ∈ bm.
Proof.
  intros Hscores. unfold hybrid_search. rewrite Hscores. cbn [res_bind]. split.
  - intros Hnum. destruct (sort_scores_total (into_iter scores)) as [results ->]; [|by eexists].
    intros [n s] Hin. rewrite into_iter_perm in Hin. by apply elem_of_map_to_list, Hnum in Hin.
  - intros l Hl. pose proof (sort_limit_spec scores limit l Hl) as Htop. split; [done|].
    destruct Htop as (_ & _ & _ & Hin & _). intros p bm -> Hev Hn Hrange r Hrl.
    destruct (Hin r Hrl) as [Hsc _]. by eapply candidate_matches.
Qed.

Lemma into_iter_empty : into_iter ∅ = [].
Proof. apply Permutation_nil_r. by rewrite into_iter_perm, map_to_list_empty. Qed.

Lemma selectivity_empty n : SFltb (selectivity (∅ : B) n) tenth = true.
Proof.
  unfold selectivity. destruct (Z.ltb_spec 0 n) as [Hn|Hn]; [|done].
  rewrite size_empty. change (f32_of_Z (Z.of_nat 0)) with f32_zero.
  pose proof (f32_of_Z_pos n Hn) as Hf. by destruct (f32_of_Z n) as [| | |[]].
Qed.

(** With the default timing a query without a predicate returns nothing,
    whatever the indexes hold: no predicate is evaluated to an empty bitmap, whose
    selectivity is below the threshold for pre-filtering. *)
Theorem adaptive_without_predicate ctx ftq vq k ef alpha beta limit :
  hybrid_search ctx ftq vq k ef None Adaptive alpha beta limit = Ok [].
Proof.
  unfold hybrid_search, candidate_scores. cbn [res_bind]. rewrite selectivity_empty. cbn [res_bind].
  unfold pre_scores. rewrite elements_empty. simpl. rewrite into_iter_empty. simpl.
  by rewrite take_nil.
Qed.

(** With post-filtering a predicate that matches no node filters nothing:
    the results are those of the query without it. *)
Theorem post_unmatched_predicate ctx ftq vq k ef p bm alpha beta limit :
  PropertyIndex.evaluate float_cmp p (prop_index ctx) = Ok bm -> (forall n, n ∉ bm) ->
  hybrid_search ctx ftq vq k ef (Some p) Post alpha beta limit =
  hybrid_search ctx ftq vq k ef None Post alpha beta limit.
Proof.
  clear into_iter_perm. intros Hev Hbm. unfold hybrid_search, candidate_scores. rewrite Hev. cbn [res_bind].
  assert (elements bm = []) as Hel by (apply elements_empty_iff; set_solver).
  unfold post_scores. by rewrite Hel, elements_empty.
Qed.

(** With pre-filtering every result has the same score, whatever is searched for. *)
Lemma pre_filter_scores ctx ftq vq k ef pred alpha beta limit l :
  hybrid_search ctx ftq vq k ef pred Pre alpha beta limit = Ok l ->
  forall r, r ∈ l -> score r = pre_score ctx ftq vq alpha beta.
Proof.
  unfold hybrid_search, candidate_scores.
  destruct (match pred with Some _ => _ | None => _ end) as [bm| |]; simpl; try done.
  intros Hl r Hr. destruct (sort_limit_spec _ _ _ Hl) as (_ & _ & _ & Hin & _).
  destruct (Hin r Hr) as [Hs _]. by apply pre_scores_spec in Hs as (_ & ? & _).
Qed.

End search.

(** ** What a builder builds *)

Section build.
Context `{FinSet Z B}.
Context (float_cmp : spec_float -> spec_float -> comparison).

Lemma combined_and p ps s bm bms :
  PropertyIndex.evaluate float_cmp p s = Ok bm ->
  Forall2 (fun p b => PropertyIndex.evaluate float_cmp p s = Ok b) ps bms ->
  exists bm', PropertyIndex.evaluate float_cmp (foldl PAnd p ps) s = Ok bm' /\
    forall n : Z, n ∈ bm' <-> n ∈ bm /\ forall b : B, b ∈ bms -> n ∈ b.
Proof.
  intros Hp Hps. revert p bm Hp. induction Hps as [|q b ps bms Hq _ IH]; intros p bm Hp.
  - exists bm. split; [done|]. set_solver.
  - destruct (IH (PAnd p q) (bm ∩ b)) as (bm' & Hev & Hn); [simpl; by rewrite Hp, Hq|].
    exists bm'. split; [done|]. intros n. rewrite Hn, elem_of_intersection.
    setoid_rewrite elem_of_cons. naive_solver.
Qed.

(** The filters given to a builder, in any number and order of calls, become
    one predicate, which evaluates to the nodes that every one of them matches. *)
Theorem build_conjunction p ps b bm bms s :
  predicates b = [] ->
  Forall2 (fun p b => PropertyIndex.evaluate float_cmp p s = Ok b) (p :: ps) (bm :: bms) ->
  exists q bm', predicate (QueryBuilder.build
      (foldl (fun b p => QueryBuilder.filter p b) b (p :: ps))) = Some q /\
    PropertyIndex.evaluate float_cmp q s = Ok bm' /\
    forall n : Z, n ∈ bm' <-> forall b : B, b ∈ bm :: bms -> n ∈ b.
Proof.
  intros Hb [Hp Hps]%Forall2_cons.
  assert (forall ps b, predicates (foldl (fun b p => QueryBuilder.filter p b) b ps) =
    predicates b ++ ps) as Hpreds.
  { clear. induction ps as [|p ps IH]; intros b; simpl; [by rewrite app_nil_r|].
    rewrite IH. cbn [predicates QueryBuilder.filter]. by rewrite <-app_assoc. }
  destruct (combined_and p ps s bm bms Hp Hps) as (bm' & Hev & Hn).
  exists (foldl PAnd p ps), bm'. split; [cbn [predicate QueryBuilder.build]; by rewrite Hpreds, Hb|].
  split; [done|]. intros n. rewrite Hn. setoid_rewrite elem_of_cons. naive_solver.
Qed.
End build.

(** ** Concrete queries *)

Section witnesses.
Definition sample_ctx : QueryContext (gset Z) :=
  {| ft_index := Some sample_index; vec_index := None; prop_index := sample_prop_index;
     node_count := 3 |}.

Local Abbreviation run := (hybrid_search ascii_alphabetic ascii_numeric ascii_lowercase
  (fun x => x) ordered_cmp sample_iter sample_ctx).

(** The integer 5, and a value no node has. *)
Definition pred_five : Predicate := PEq sample_label sample_prop (VInt 5).
Definition pred_none : Predicate := PEq sample_label sample_prop (VInt 6).

Lemma sample_iter_perm m : sample_iter m ≡ₚ map_to_list m.
Proof. done. Qed.

Local Abbreviation sample_candidates := (candidate_scores ascii_alphabetic ascii_numeric
  ascii_lowercase (fun x => x) ordered_cmp sample_iter sample_ctx (Some [65; 32; 66]) None None None
  (Some pred_five) Post f32_one f32_one).

Definition sample_scores : gmap Z spec_float :=
  match sample_candidates with Ok scores => scores | _ => ∅ end.

Lemma sample_scores_ok : sample_candidates = Ok sample_scores.
Proof. by vm_compute. Qed.

Lemma sample_scores_numbers n s : sample_scores !! n = Some s -> is_nan s = false.
Proof.
  apply (map_Forall_lookup_1 (fun _ s => is_nan s = false)). by_decide.
Qed.

Lemma hybrid_search_results_witness :
  exists l, run (Some [65; 32; 66]) None None None (Some pred_five) Post f32_one f32_one 2 = Ok l /\
    top_results 2 sample_scores l.
Proof.
  destruct (hybrid_search_results ascii_alphabetic ascii_numeric ascii_lowercase
    (fun x => x) ordered_cmp sample_iter sample_iter_perm sample_ctx (Some [65; 32; 66]) None None None
    (Some pred_five) Post f32_one f32_one 2 sample_scores sample_scores_ok) as [Hret Hres].
  destruct (Hret sample_scores_numbers) as [l Hl].
  exists l. exact (conj Hl (proj1 (Hres l Hl))).
Defined.

Lemma adaptive_without_predicate_witness :
  run (Some [65]) None None None None Adaptive f32_one f32_one 20 = Ok [].
Proof.
  exact (adaptive_without_predicate ascii_alphabetic ascii_numeric ascii_lowercase
    (fun x => x) ordered_cmp sample_iter sample_iter_perm sample_ctx (Some [65]) None None None
    f32_one f32_one 20).
Defined.

Lemma post_unmatched_predicate_witness :
  run (Some [65]) None None None (Some pred_none) Post f32_one f32_one 20 =
  run (Some [65]) None None None None Post f32_one f32_one 20.
Proof.
  exact (post_unmatched_predicate ascii_alphabetic ascii_numeric ascii_lowercase
    (fun x => x) ordered_cmp sample_iter sample_ctx (Some [65]) None None None pred_none ∅
    f32_one f32_one 20 eq_refl (fun n => not_elem_of_empty n)).
Defined.

Lemma build_conjunction_witness :
  exists q bm, predicate (QueryBuilder.build
      (foldl (fun b p => QueryBuilder.filter p b) QueryBuilder.new [pred_five; sample_pred]))
      = Some q /\ PropertyIndex.evaluate ordered_cmp q sample_prop_index = Ok bm /\
    forall n, n ∈ bm <-> forall b : gset Z, b ∈ [{[1]}; {[1; 2]} ∩ {[1]}] -> n ∈ b.
Proof.
  exact (build_conjunction ordered_cmp pred_five [sample_pred] QueryBuilder.new {[1]} [{[1; 2]} ∩ {[1]}]
    sample_prop_index eq_refl ltac:(repeat constructor; by vm_compute)).
Defined.
End witnesses.
