(* ===== verification/Distributed.v ===== *)
(** * The distributed layer ([src/src/distributed/])

    The types of [mod.rs] and the three stubs. [unimplemented!] is [Panic]: a
    cluster has no leader, and neither locating a key nor routing a query
    returns. *)

From S2P Require Export Query.
From Stdlib Require Import SpecFloat.

Open Scope Z_scope.

Record NodeConfig : Type := mkNodeConfig {
  cfg_node_id : Z;
  raft_addr : bytes;
  grpc_addr : bytes;
  cfg_data_dir : bytes;
  peers : list Z
}.

Record ShardInfo : Type := mkShardInfo {
  shard_id : Z;
  owner : Z;
  range_start : Z;
  range_end : Z
}.

Record DistributedResult : Type := mkDistributedResult {
  results : list QueryResult;
  shards_contacted : Z;
  shards_responded : Z;
  merge_time_ms : spec_float
}.

Module RaftNode.
Record RaftNode : Type := mkRaftNode { node_id : Z }.

Definition new (node_id : Z) (config : NodeConfig) : RaftNode := mkRaftNode node_id.
Definition is_leader (r : RaftNode) : bool := false.
End RaftNode.

Module HashRing.
Record HashRing : Type := mkHashRing { virtual_nodes : Z }.

Definition new (virtual_nodes : Z) : HashRing := mkHashRing virtual_nodes.
Definition locate (ring : HashRing) (node_id : Z) : res False Z := Panic.
End HashRing.

Module ShardRouter.
Record ShardRouter : Type := mkShardRouter {}.

Definition new : ShardRouter := mkShardRouter.
Definition execute (router : ShardRouter) (plan : QueryPlan) : res False DistributedResult := Panic.
End ShardRouter.
