(* ===== verification/UnitTests.v ===== *)
(** * The repository's unit tests, run on the model

    The [#[cfg(test)]] modules of [node_store.rs], [edge_store.rs],
    [prop_store.rs], [tx_manager.rs], [wal/mod.rs] and [snapshot/mod.rs], one
    definition per test: the calls of the test on the model, and [true] when
    every assertion holds and nothing panics. A store on disk uses the WAL
    thread of [WalThread.v]; its log file, once flushed and closed, is what the
    next [open] finds. The tests that spawn threads are in [ThreadTests.v]. *)

From S2P Require Export WalThread NodeStore EdgeStore PropStore Transaction Snapshot WalLog.

Open Scope Z_scope.

(** [assert!] and [assert_eq!]; [unwrap] panics on [None] and [Err]. *)
Notation "'assert!' b ; k" := (if b : bool then k else false)
  (at level 10, b at level 100, k at level 200, only parsing) : lightgraph_scope.
Notation "'assert_eq!' a , b ; k" := (if bool_decide (a = b) then k else false)
  (at level 10, a at level 100, b at level 100, k at level 200, only parsing) : lightgraph_scope.
Notation "'unwrap!' x ':=' o ; k" := (match o with Some x => k | None => false end)
  (at level 10, x name, o at level 100, k at level 200, only parsing) : lightgraph_scope.
Notation "'ok!' x ':=' r ; k" := (match r with Ok x => k | _ => false end)
  (at level 10, x name, r at level 100, k at level 200, only parsing) : lightgraph_scope.

(** A name in the source, as its UTF-8 bytes. *)
Abbreviation str := bytes_of_string.

(** ** [node_store.rs] *)

Module NodeStoreTests.
Section tests.
#[local] Existing Instances thread_sink thread_sink_laws.
#[local] Instance test_node_codec : Codec Node := countable_codec.
Implicit Types (s : NodeStore WalThread).

Definition mk_store : NodeStore WalThread := with_capacity 64.

(** The log file of a flushed store. *)
Definition file_of s : option bytes := sink_image <$> wal s.

Definition test_persist_and_recover : bool :=
  ok! s := open immediate None;
  let s := (insert_node [1; 2] 10 1 s).2 in
  let s := (insert_node [3] 20 2 s).2 in
  let s := (insert_node [4] 30 3 s).2 in
  let s := (soft_delete 0 100 s).2 in
  let s := flush s in
  assert_eq! len s, 3%nat;
  ok! s := open (W := WalThread) immediate (file_of s);
  assert_eq! len s, 3%nat;
  unwrap! n0 := get 0 s;
  assert_eq! Node.labels n0, [1; 2];
  assert_eq! Node.props_row n0, 10;
  assert_eq! Node.deleted_tx n0, 100;
  true.

Definition test_persist_hard_delete_and_recover : bool :=
  ok! s := open immediate None;
  let s := (insert_node [1] 0 1 s).2 in
  let s := (insert_node [2] 0 1 s).2 in
  let s := (insert_node [3] 0 1 s).2 in
  let s := (hard_delete 1 s).2 in
  let s := flush s in
  ok! s := open (W := WalThread) immediate (file_of s);
  assert_eq! len s, 2%nat;
  assert_eq! get 1 s, None;
  assert! bool_decide (is_Some (get 0 s));
  assert! bool_decide (is_Some (get 2 s));
  true.

Definition test_persist_update_and_recover : bool :=
  ok! s := open immediate None;
  let '(id, s) := insert_node [0] 0 1 s in
  let s := (update_labels id [99] 2 s).2 in
  let s := (update_props_row id 55 s).2 in
  let s := (set_first_out id 12345 s).2 in
  let s := flush s in
  ok! s := open (W := WalThread) immediate (file_of s);
  unwrap! n := get 0 s;
  assert_eq! Node.labels n, [99];
  assert_eq! Node.props_row n, 55;
  assert_eq! Node.first_out n, 12345;
  true.

Definition test_alloc_monotonic : bool :=
  let '(a, s) := alloc_id mk_store in
  assert_eq! a, 0;
  let '(b, s) := alloc_id s in
  assert_eq! b, 1;
  let '(c, s) := alloc_id s in
  assert_eq! c, 2;
  true.

Definition test_alloc_reuse_after_hard_delete : bool :=
  let '(_id0, s) := insert_node [0] 0 1 mk_store in
  let '(id1, s) := insert_node [1] 1 1 s in
  let '(_id2, s) := insert_node [2] 2 1 s in
  let s := (hard_delete id1 s).2 in
  let '(a, s) := insert_node [3] 3 2 s in
  assert_eq! a, id1;
  let '(b, s) := insert_node [4] 4 2 s in
  assert_eq! b, 3;
  true.

Definition test_insert_and_get : bool :=
  let '(id, s) := insert_node [10; 20] 5 1 mk_store in
  unwrap! n := get id s;
  assert_eq! Node.labels n, [10; 20];
  assert_eq! Node.deleted_tx n, MAX_TX_ID;
  true.

Definition test_soft_delete_makes_node_invisible : bool :=
  let '(id, s) := insert_node [0] 0 1 mk_store in
  let s := (soft_delete id 5 s).2 in
  unwrap! n := get id s;
  assert! Node.is_alive n 4;
  assert! negb (Node.is_alive n 5);
  true.

Definition test_hard_delete_removes_node : bool :=
  let '(id, s) := insert_node [0] 0 1 mk_store in
  let '(deleted, s) := hard_delete id s in
  assert! deleted;
  assert! negb (contains id s);
  true.

Definition test_visible_nodes_respects_mvcc : bool :=
  let '(n0, s) := insert_node [0] 0 1 mk_store in
  let '(n1, s) := insert_node [1] 1 3 s in
  let '(n2, s) := insert_node [2] 2 5 s in
  let s := (soft_delete n1 10 s).2 in
  let vis := visible_nodes 4 s in
  assert! bool_decide (n0 ∈ vis);
  assert! bool_decide (n1 ∈ vis);
  assert! negb (bool_decide (n2 ∈ vis));
  true.

Definition test_alloc_id_direct_and_insert_with_id : bool :=
  let '(id, s) := alloc_id_direct mk_store in
  assert_eq! id, 0;
  let s := insert_with_id id [10] 99 5 s in
  unwrap! n := get id s;
  assert_eq! Node.labels n, [10];
  assert_eq! Node.props_row n, 99;
  assert_eq! Node.created_tx n, 5;
  assert! contains id s;
  true.

Definition test_alloc_id_direct_reuses_freed_ids : bool :=
  let '(a, s) := insert_node [0] 0 1 mk_store in
  let '(b, s) := insert_node [0] 0 1 s in
  let s := (hard_delete a s).2 in
  let s := (hard_delete b s).2 in
  let '(recycled, s) := alloc_id_direct s in
  assert_eq! recycled, a;
  let s := insert_with_id recycled [1] 0 2 s in
  assert! contains recycled s;
  true.

Definition test_visible_count_respects_mvcc : bool :=
  let '(n0, s) := insert_node [0] 0 1 mk_store in
  let '(_n1, s) := insert_node [1] 1 3 s in
  let '(_n2, s) := insert_node [2] 2 5 s in
  let s := (soft_delete n0 10 s).2 in
  assert_eq! visible_count 4 s, 2%nat;
  assert_eq! visible_count 6 s, 3%nat;
  assert_eq! visible_count 10 s, 2%nat;
  assert_eq! visible_count (MAX_TX_ID - 1) s, 2%nat;
  true.

Definition test_stats_accuracy : bool :=
  let s := mk_store in
  assert_eq! get_total_ever s, 0;
  assert_eq! len s, 0%nat;
  assert_eq! next_fresh_id s, 0;
  assert_eq! get_free_count s, 0;
  let '(id0, s) := insert_node [0] 0 1 s in
  assert_eq! get_total_ever s, 1;
  assert_eq! len s, 1%nat;
  assert_eq! next_fresh_id s, 1;
  let s := (insert_node [0] 0 1 s).2 in
  assert_eq! get_total_ever s, 2;
  assert_eq! len s, 2%nat;
  assert_eq! next_fresh_id s, 2;
  let s := (hard_delete id0 s).2 in
  assert_eq! get_total_ever s, 2;
  assert_eq! len s, 1%nat;
  assert_eq! get_free_count s, 1;
  assert_eq! next_fresh_id s, 2;
  true.

Definition test_in_memory_mode_no_wal : bool :=
  let '(id, s) := insert_node [0] 0 1 mk_store in
  assert! contains id s;
  let s := (update_labels id [1; 2] 2 s).2 in
  let s := (update_props_row id 42 s).2 in
  let s := (set_first_out id 100 s).2 in
  let s := (set_first_in id 200 s).2 in
  let s := (soft_delete id 10 s).2 in
  unwrap! n := get id s;
  assert! negb (Node.is_alive n 10);
  let s := (hard_delete id s).2 in
  assert! negb (contains id s);
  let s := flush s in
  assert_eq! pending_wal_bytes s, 0;
  true.

Definition all : list bool :=
  [test_persist_and_recover; test_persist_hard_delete_and_recover; test_persist_update_and_recover;
   test_alloc_monotonic; test_alloc_reuse_after_hard_delete; test_insert_and_get;
   test_soft_delete_makes_node_invisible; test_hard_delete_removes_node;
   test_visible_nodes_respects_mvcc; test_alloc_id_direct_and_insert_with_id;
   test_alloc_id_direct_reuses_freed_ids; test_visible_count_respects_mvcc; test_stats_accuracy;
   test_in_memory_mode_no_wal].
End tests.

Example node_store_tests_passed : all = replicate 14 true.
Proof. by vm_compute. Qed.
End NodeStoreTests.

(** ** [edge_store.rs] *)

Module EdgeStoreTests.
Section tests.
#[local] Existing Instances thread_sink thread_sink_laws.
#[local] Instance test_edge_codec : Codec Edge := countable_codec.
Import EdgeStore.
Implicit Types (s : EdgeStore WalThread).

Definition mk : EdgeStore WalThread := with_capacity 64.

Definition file_of s : option bytes := sink_image <$> edge_wal s.

Definition test_persist_and_recover : bool :=
  ok! s := open immediate None;
  let s := (insert_edge 0 1 10 100 1 s).2 in
  let s := (insert_edge 1 2 20 101 1 s).2 in
  let s := (soft_delete 0 50 s).2 in
  let s := flush s in
  ok! s := open (W := WalThread) immediate (file_of s);
  assert_eq! len s, 2%nat;
  unwrap! e0 := get 0 s;
  assert! negb (Edge.is_alive e0 50);
  unwrap! e1 := get 1 s;
  assert_eq! Edge.etype e1, 20;
  true.

Definition test_insert_and_get : bool :=
  let '(id, s) := insert_edge 0 1 42 0 1 mk in
  unwrap! e := get id s;
  assert_eq! Edge.src e, 0;
  assert_eq! Edge.dst e, 1;
  assert_eq! Edge.deleted_tx e, MAX_TX_ID;
  true.

(** The traversal, with fuel for the store's two edges. *)
Definition test_chain_traversal : bool :=
  let '(e1, s) := insert_edge 0 1 0 0 1 mk in
  let '(e2, s) := insert_edge 0 2 0 0 1 s in
  let '(out, dummy) := (NULL_EDGE, NULL_EDGE) in
  let '(out, dummy, s) := link_into_chains e2 out dummy s in
  let '(out, dummy, s) := link_into_chains e1 out dummy s in
  assert_eq! out_edges (S (len s)) out s, Some [e1; e2];
  true.

Definition test_soft_delete_hides : bool :=
  let '(id, s) := insert_edge 0 1 0 0 1 mk in
  let s := (soft_delete id 10 s).2 in
  unwrap! e := get id s;
  assert! Edge.is_alive e 5;
  assert! negb (Edge.is_alive e 10);
  true.

Definition all : list bool :=
  [test_persist_and_recover; test_insert_and_get; test_chain_traversal; test_soft_delete_hides].
End tests.

Example edge_store_tests_passed : all = replicate 4 true.
Proof. by vm_compute. Qed.
End EdgeStoreTests.

(** ** [prop_store.rs] *)

Module PropStoreTests.
Section tests.
#[local] Existing Instances thread_sink thread_sink_laws.
#[local] Instance test_value_codec : Codec (option Value) := countable_codec.
Import PropStore.

Definition v (i : Z) : Value := VInt i.
Definition s (t : String.string) : Value := VString (str t).

Definition file_of (st : PropStore WalThread) : option bytes := sink_image <$> prop_wal st.

Definition test_persist_and_recover : bool :=
  ok! st := open (W := WalThread) immediate None;
  let st := (insert_row 0 [(str "name", s "Alice"); (str "age", v 30)] st).2 in
  let st := (insert_row 0 [(str "name", s "Bob")] st).2 in
  let st := flush st in
  ok! st := open (W := WalThread) immediate (file_of st);
  assert_eq! row_count 0 st, 2;
  assert_eq! get_prop 0 (str "name") 0 st, Some (s "Alice");
  assert_eq! get_prop 0 (str "age") 0 st, Some (v 30);
  assert_eq! get_prop 0 (str "name") 1 st, Some (s "Bob");
  true.

Definition test_insert_and_get : bool :=
  let st := new (W := WalThread) in
  let st := (insert_prop 0 (str "name") 0 (Some (s "Alice")) st).2 in
  assert_eq! get_prop 0 (str "name") 0 st, Some (s "Alice");
  assert_eq! get_prop 0 (str "missing") 0 st, None;
  true.

Definition test_multi_label_isolation : bool :=
  let st := new (W := WalThread) in
  let st := (insert_prop 0 (str "name") 0 (Some (s "Alice")) st).2 in
  let st := (insert_prop 1 (str "name") 0 (Some (s "Bob")) st).2 in
  assert_eq! get_prop 0 (str "name") 0 st, Some (s "Alice");
  assert_eq! get_prop 1 (str "name") 0 st, Some (s "Bob");
  true.

Definition all : list bool :=
  [test_persist_and_recover; test_insert_and_get; test_multi_label_isolation].
End tests.

Example prop_store_tests_passed : all = replicate 3 true.
Proof. by vm_compute. Qed.
End PropStoreTests.

(** ** [tx_manager.rs]

    One thread: no other call moves the counter. *)

Module TxManagerTests.
Import Transaction.

Definition commit (tx : Z) (tm : TxManager) : res commit_error TxManager :=
  let '(r, tm') := wait_turn tx tm in let? _ := r in Ok tm'.

Definition test_read_snapshot : bool :=
  let tm := TxManager.new in
  assert_eq! TxManager.begin_read tm, 0;
  let '(tx, tm) := TxManager.begin_write tm in
  ok! tm := commit tx tm;
  assert_eq! TxManager.begin_read tm, tx;
  true.

Definition test_monotonic_tx_ids : bool :=
  let '(t1, tm) := TxManager.begin_write TxManager.new in
  let '(t2, tm) := TxManager.begin_write tm in
  let '(t3, tm) := TxManager.begin_write tm in
  assert! (t1 <? t2) && (t2 <? t3);
  true.

Definition test_commit_updates_snapshot : bool :=
  let tm := TxManager.new in
  let snap := TxManager.begin_read tm in
  assert_eq! snap, 0;
  let '(tx, tm) := TxManager.begin_write tm in
  ok! tm := commit tx tm;
  assert! snap <? TxManager.begin_read tm;
  true.

Definition test_rollback_advances_committed : bool :=
  let '(tx, tm) := TxManager.begin_write TxManager.new in
  unwrap! tm := wait_rollback tx tm;
  assert_eq! TxManager.latest_committed tm, tx;
  true.

Definition test_ordered_commits : bool :=
  let '(t1, tm) := TxManager.begin_write TxManager.new in
  let '(t2, tm) := TxManager.begin_write tm in
  let '(t3, tm) := TxManager.begin_write tm in
  ok! tm := commit t1 tm;
  ok! tm := commit t2 tm;
  ok! tm := commit t3 tm;
  assert_eq! TxManager.latest_committed tm, 3;
  true.

Definition test_rollback_unblocks_others : bool :=
  let '(t1, tm) := TxManager.begin_write TxManager.new in
  let '(t2, tm) := TxManager.begin_write tm in
  let '(t3, tm) := TxManager.begin_write tm in
  unwrap! tm := wait_rollback t1 tm;
  ok! tm := commit t2 tm;
  ok! tm := commit t3 tm;
  assert_eq! TxManager.latest_committed tm, 3;
  true.

Definition test_commit_timeout_on_gap : bool :=
  let '(_t1, tm) := TxManager.begin_write TxManager.new in
  let '(t2, tm) := TxManager.begin_write tm in
  match commit t2 tm with Err _ => true | _ => false end.

Definition all : list bool :=
  [test_read_snapshot; test_monotonic_tx_ids; test_commit_updates_snapshot;
   test_rollback_advances_committed; test_ordered_commits; test_rollback_unblocks_others;
   test_commit_timeout_on_gap].

Example tx_manager_tests_passed : all = replicate 7 true.
Proof. by vm_compute. Qed.
End TxManagerTests.

(** ** [wal/mod.rs]

    No time passes: the 100 microseconds never expire. *)

Module WalTests.
Section tests.
#[local] Instance test_wal_codec : Codec WalRecord := countable_codec.

Definition s (t : String.string) : Value := VString (str t).

Definition write (r : WalRecord) (w : WalWriter) : io WalWriter := WalWriter.write 0 0 r w.

Definition test_wal_record_serialization_roundtrip : bool :=
  let records := [Begin 1; NodeCreate 1 42 [str "Person"] {[ str "name" := s "Alice" ]}; Commit 1] in
  forallb (fun r =>
    unwrap! data := serialize r;
    unwrap! back := deserialize data;
    match r, back with
    | Begin a, Begin b => bool_decide (a = b)
    | Commit a, Commit b => bool_decide (a = b)
    | _, _ => true
    end) records.

Definition test_wal_write_and_replay : bool :=
  let writer := WalWriter.open 0 None in
  ok! writer := write (Begin 1) writer;
  ok! writer := write (NodeCreate 1 10 [str "A"] ∅) writer;
  ok! writer := write (NodeCreate 1 20 [str "B"] ∅) writer;
  ok! writer := write (Commit 1) writer;
  let writer := WalWriter.flush 0 writer in
  ok! reader := WalReader.open (Some (ww_written writer));
  ok! recovered := WalReader.replay reader;
  assert_eq! length recovered, 4%nat;
  assert_eq! recovered !! 0%nat, Some (Begin 1);
  assert_eq! recovered !! 3%nat, Some (Commit 1);
  true.

Definition test_wal_empty_file_replay : bool :=
  ok! reader := WalReader.open (Some []);
  ok! records := WalReader.replay reader;
  assert_eq! records, [];
  true.

(** [for tx in 1..=5] *)
Definition write_transaction (w : io WalWriter) (tx : Z) : io WalWriter :=
  let? w := w in
  let? w := write (Begin tx) w in
  let? w := write (NodeCreate tx (tx * 10) [str "X"] ∅) w in
  write (Commit tx) w.

Definition test_wal_multiple_transactions : bool :=
  ok! writer := foldl write_transaction (Ok (WalWriter.open 0 None)) (seqZ 1 5);
  let writer := WalWriter.flush 0 writer in
  ok! reader := WalReader.open (Some (ww_written writer));
  ok! recovered := WalReader.replay reader;
  assert_eq! length recovered, 15%nat;
  let tx_ids := omap (fun r => match r with Begin id => Some id | _ => None end) recovered in
  assert_eq! tx_ids, [1; 2; 3; 4; 5];
  true.

Definition all : list bool :=
  [test_wal_record_serialization_roundtrip; test_wal_write_and_replay; test_wal_empty_file_replay;
   test_wal_multiple_transactions].
End tests.

Example wal_tests_passed : all = replicate 4 true.
Proof. by vm_compute. Qed.
End WalTests.

(** ** [snapshot/mod.rs]

    For any serializers with their laws: the directories are too large to
    evaluate with [countable_codec]. *)

Module SnapshotTests.
Section tests.
Context `{CodecLaws SnapshotData} `{JsonLaws Manifest}.
Import SnapshotManager.

Definition make_node (id : Z) (labels : list Z) (props_row created_tx : Z) : Node :=
  {| Node.id := id; Node.labels := labels; Node.first_out := NULL_EDGE;
     Node.first_in := NULL_EDGE; Node.props_row := props_row; Node.created_tx := created_tx;
     Node.deleted_tx := MAX_TX_ID |}.

Definition make_edge (id src dst etype : Z) : Edge :=
  {| Edge.id := id; Edge.src := src; Edge.dst := dst; Edge.etype := etype;
     Edge.next_out := NULL_EDGE; Edge.next_in := NULL_EDGE; Edge.props_row := 0;
     Edge.created_tx := 1; Edge.deleted_tx := MAX_TX_ID |}.

(** [TempDir::new()] *)
Definition temp_dir : Fs := {| dir := ∅; trail := [] |}.

Definition test_manifest_read_write : bool :=
  ok! m := Manifest.read (dir temp_dir);
  assert_eq! latest_snapshot_id m, 0;
  let m := {| latest_snapshot_id := 42; latest_snapshot_path := str "snapshot-0042.bin";
              merged_wal_files := merged_wal_files Manifest.empty ++ [str "nodes.wal"] |} in
  let '(fs, r) := Manifest.write m temp_dir in
  ok! _u := r;
  ok! m2 := Manifest.read (dir fs);
  assert_eq! latest_snapshot_id m2, 42;
  assert_eq! latest_snapshot_path m2, str "snapshot-0042.bin";
  assert_eq! merged_wal_files m2, [str "nodes.wal"];
  true.

Definition test_snapshot_write_and_read : bool :=
  let nodes := [make_node 0 [1; 2] 0 1; make_node 1 [3] 1 2] in
  let edges := [make_edge 100 0 1 10] in
  let props := [(0, str "name", [Some (VString (str "Alice"))])] in
  let '(fs, r) := write_snapshot 1 nodes edges props 2 1 temp_dir in
  ok! _u := r;
  ok! data := read_snapshot 1 (dir fs);
  assert_eq! snapshot_id data, 1;
  assert_eq! length (snap_nodes data), 2%nat;
  assert_eq! Node.id <$> snap_nodes data !! 0%nat, Some 0;
  assert_eq! Node.labels <$> snap_nodes data !! 0%nat, Some [1; 2];
  assert_eq! length (snap_edges data), 1%nat;
  assert_eq! Edge.src <$> snap_edges data !! 0%nat, Some 0;
  assert_eq! Edge.dst <$> snap_edges data !! 0%nat, Some 1;
  assert_eq! next_node_id data, 2;
  assert_eq! next_edge_id data, 1;
  true.

Definition test_snapshot_manager_take_and_recover : bool :=
  let nodes := [make_node 0 [1] 0 1] in
  ok! mgr := new (dir temp_dir);
  assert! should_snapshot mgr;
  let '(fs, mgr, r) := take_snapshot nodes [] [] 1 0 mgr temp_dir in
  ok! id := r;
  assert_eq! id, 1;
  ok! rec := recover mgr (dir fs);
  let '(snap, unmerged) := rec in
  unwrap! data := snap;
  assert_eq! length (snap_nodes data), 1%nat;
  assert_eq! Node.id <$> snap_nodes data !! 0%nat, Some 0;
  assert_eq! unmerged, [];
  true.

Definition test_snapshot_manager_multiple_snapshots : bool :=
  let nodes_a := [make_node 0 [1] 0 1] in
  let nodes_b := [make_node 0 [1] 0 1; make_node 1 [2] 1 2] in
  ok! mgr := new (dir temp_dir);
  let '(fs, mgr, r) := take_snapshot nodes_a [] [] 1 0 mgr temp_dir in
  ok! _id := r;
  let mgr := add_wal_bytes 600000000 mgr in
  assert! should_snapshot mgr;
  let '(fs, mgr, r) := take_snapshot nodes_b [] [] 2 0 mgr fs in
  ok! _id := r;
  ok! rec := recover mgr (dir fs);
  unwrap! data := fst rec;
  assert_eq! length (snap_nodes data), 2%nat;
  assert_eq! snapshot_id data, 2;
  true.

Definition test_snapshot_preserves_properties : bool :=
  let nodes := [make_node 0 [0] 0 1; make_node 1 [0] 1 1] in
  let props := [(0, str "name", [Some (VString (str "Alice")); Some (VString (str "Bob"))]);
                (0, str "age", [Some (VInt 30); Some (VInt 25)])] in
  let '(fs, r) := write_snapshot 1 nodes [] props 2 0 temp_dir in
  ok! _u := r;
  ok! data := read_snapshot 1 (dir fs);
  assert_eq! length (prop_columns data), 2%nat;
  unwrap! col0 := prop_columns data !! 0%nat;
  unwrap! col1 := prop_columns data !! 1%nat;
  assert_eq! fst (fst col0), 0;
  assert_eq! snd (fst col0), str "name";
  assert_eq! snd (fst col1), str "age";
  assert_eq! snd col0 !! 0%nat, Some (Some (VString (str "Alice")));
  assert_eq! snd col1 !! 0%nat, Some (Some (VInt 30));
  true.

Definition all : list bool :=
  [test_manifest_read_write; test_snapshot_write_and_read; test_snapshot_manager_take_and_recover;
   test_snapshot_manager_multiple_snapshots; test_snapshot_preserves_properties].

(** What [write_snapshot] leaves to be read, as an equation. *)
Lemma write_read id nodes edges props nn ne fs :
  exists fs', write_snapshot id nodes edges props nn ne fs = (fs', Ok tt) /\
    read_snapshot id (dir fs') = Ok (mkSnapshotData 1 id nodes edges props nn ne).
Proof.
  unfold write_snapshot.
  destruct (serialize_total (mkSnapshotData 1 id nodes edges props nn ne)) as [bs Hbs].
  rewrite Hbs. eexists. split; [done|]. unfold read_snapshot. rewrite dir_write_all.
  cbn [dir Fs.create]. rewrite insert_insert_eq, lookup_insert_eq.
  by rewrite (deserialize_serialize _ _ Hbs).
Qed.

Lemma read_write m fs :
  exists fs', Manifest.write m fs = (fs', Ok tt) /\ Manifest.read (dir fs') = Ok m.
Proof.
  unfold Manifest.write. destruct (to_string_total m) as [json Hj]. rewrite Hj. eexists.
  split; [done|]. rewrite dir_write. by apply manifest_read_write.
Qed.

(** [take_snapshot] on a manager that has read the directory's manifest. *)
Lemma take_recover nodes edges props nn ne s fs :
  Manifest.read (dir fs) = Ok (manifest s) -> 0 <= latest_snapshot_id (manifest s) < u64_max ->
  exists fs' s', take_snapshot nodes edges props nn ne s fs =
      (fs', s', Ok (latest_snapshot_id (manifest s) + 1)) /\
    Manifest.read (dir fs') = Ok (manifest s') /\
    latest_snapshot_id (manifest s') = latest_snapshot_id (manifest s) + 1 /\
    merged_wal_files (manifest s') = merged_wal_files (manifest s) /\
    snapshot_interval_bytes s' = snapshot_interval_bytes s /\ wal_bytes_since_snapshot s' = 0 /\
    recover s' (dir fs') =
      Ok (Some (next_data nodes edges props nn ne s), unmerged (dir fs) (merged_wal_files (manifest s))).
Proof.
  intros Hsync Hid.
  destruct (take_snapshot_run nodes edges props nn ne s fs Hid) as (encoded & json & He & Hj & Hrun).
  pose proof (take_snapshot_reopen nodes edges props nn ne s fs Hid) as Hre. rewrite Hrun in Hre |- *.
  eexists _, _. split; [done|]. cbn [fst] in Hre.
  assert (Manifest.read (dir (Fs.write manifest_file json
    (Fs.write_all (snapshot_file (latest_snapshot_id (manifest s) + 1)) encoded
      (Fs.create (snapshot_file (latest_snapshot_id (manifest s) + 1)) fs)))) = Ok (next_manifest s))
    as Hm by (rewrite dir_write; by apply manifest_read_write).
  split; [done|]. split; [done|]. split; [done|]. split; [done|]. split; [done|].
  rewrite (reopen_Ok _ _ Hm) in Hre. exact Hre.
Qed.

Lemma temp_dir_new :
  new (dir temp_dir) = Ok {| manifest := Manifest.empty; wal_bytes_since_snapshot := 0;
                             snapshot_interval_bytes := 536870912 |}.
Proof. done. Qed.

Lemma manifest_passed : test_manifest_read_write = true.
Proof.
  unfold test_manifest_read_write. cbn zeta.
  change (Manifest.read (dir temp_dir)) with (Ok (E := io_error) Manifest.empty).
  set (m := mkManifest _ _ _). destruct (read_write m temp_dir) as (fs & Hw & Hr).
  rewrite Hw, Hr. by vm_compute.
Qed.

Lemma write_passed : test_snapshot_write_and_read = true.
Proof.
  unfold test_snapshot_write_and_read. cbn zeta.
  edestruct write_read as (fs & Hw & Hr). rewrite Hw, Hr. by vm_compute.
Qed.

Lemma properties_passed : test_snapshot_preserves_properties = true.
Proof.
  unfold test_snapshot_preserves_properties. cbn zeta.
  edestruct write_read as (fs & Hw & Hr). rewrite Hw, Hr. by vm_compute.
Qed.

Lemma take_passed : test_snapshot_manager_take_and_recover = true.
Proof.
  unfold test_snapshot_manager_take_and_recover. cbn zeta. rewrite temp_dir_new.
  destruct (take_recover [make_node 0 [1] 0 1] [] [] 1 0
    {| manifest := Manifest.empty; wal_bytes_since_snapshot := 0;
       snapshot_interval_bytes := 536870912 |} temp_dir) as (fs & s' & Ht & _ & _ & _ & _ & _ & Hr);
    [done|done|].
  rewrite Ht, Hr. by vm_compute.
Qed.

Lemma multiple_passed : test_snapshot_manager_multiple_snapshots = true.
Proof.
  unfold test_snapshot_manager_multiple_snapshots. cbn zeta. rewrite temp_dir_new.
  destruct (take_recover [make_node 0 [1] 0 1] [] [] 1 0
    {| manifest := Manifest.empty; wal_bytes_since_snapshot := 0;
       snapshot_interval_bytes := 536870912 |} temp_dir)
    as (fs & s' & Ht & Hm & Hid & Hw & Hi & Hb & _); [done|done|].
  rewrite Ht. cbn in Hid, Hi. set (s2 := add_wal_bytes 600000000 s').
  assert (should_snapshot s2 = true) as ->.
  { unfold should_snapshot, s2. cbn. by rewrite Hid, Hi, Hb. }
  destruct (take_recover [make_node 0 [1] 0 1; make_node 1 [2] 1 2] [] [] 2 0 s2 fs)
    as (fs2 & s3 & Ht2 & _ & _ & _ & _ & _ & Hr2); [done|cbn; rewrite Hid; done|].
  rewrite Ht2, Hr2. cbn. by rewrite Hid.
Qed.

Lemma snapshot_tests_passed : all = replicate 5 true.
Proof.
  unfold all. by rewrite manifest_passed, write_passed, take_passed, multiple_passed, properties_passed.
Qed.
End tests.
End SnapshotTests.

(** ** The tests that spawn threads

    [test_concurrent_inserts], [test_concurrent_writes] and
    [test_concurrent_writers_lock_free], for any number of threads and calls and
    any interleaving of their atomic halves. *)

Section concurrent_inserts.
Context {W : Type} `{WalSink W} `{Codec Node}.
Implicit Types (s : NodeStore W) (ops : list NodeOp).

(** The two halves of [insert_node]. *)
Definition insert_half (op : NodeOp) : Prop :=
  match op with OpAlloc | OpInsertWithId _ _ _ _ => True | _ => False end.

Definition is_alloc (op : NodeOp) : bool := match op with OpAlloc => true | _ => false end.

Definition allocs ops : nat := length (filter (fun op => is_alloc op = true) ops).

Lemma insert_halves_next s ops :
  Forall insert_half ops -> free_list s = [] -> 0 <= next_id s ->
  next_id s + Z.of_nat (allocs ops) < 2 ^ 64 ->
  free_list (exec_ops s ops) = [] /\ next_id (exec_ops s ops) = next_id s + Z.of_nat (allocs ops).
Proof.
  intros Hops. revert s. induction Hops as [|op ops Hop Hops IH]; intros s Hf Hn Hlt;
    [unfold allocs; simpl; split; [done|lia]|].
  destruct op; try done; unfold exec_ops in *; cbn [foldl].
  - unfold allocs in Hlt |- *. rewrite filter_cons_True in Hlt |- * by done. cbn [length] in Hlt |- *.
    assert (exec_op s OpAlloc = set_next_id (wrap64 (next_id s + 1)) s) as Heq
      by (simpl; unfold alloc_id_direct, alloc_id; by rewrite Hf).
    rewrite wrap64_small in Heq by lia. rewrite Heq.
    destruct (IH (set_next_id (next_id s + 1) s) Hf) as [Hf' Hn']; [simpl; lia|simpl; unfold allocs; lia|].
    split; [done|]. rewrite Hn'. unfold allocs. simpl. lia.
  - unfold allocs in Hlt |- *. rewrite filter_cons_False in Hlt |- * by done.
    set (s1 := exec_op s _). assert (free_list s1 = free_list s /\ next_id s1 = next_id s) as [Hf1 Hn1].
    { unfold s1. simpl. unfold insert_with_id.
      destruct (wal_insert_frame id (Node.new id labels props_row tx_id)
        (insert_in_memory id (Node.new id labels props_row tx_id) s)) as (_ & -> & -> & _). done. }
    rewrite <-Hn1 in Hlt |- *. apply IH; [by rewrite Hf1|by rewrite Hn1|done].
Qed.

(** Concurrent insertion. Any number of threads insert nodes, their
    allocations and their insertions interleaved in any way; once every
    allocated id has been inserted, the store has exactly one node per
    insertion. *)
Theorem concurrent_inserts cap ops :
  Forall insert_half ops -> ops_allowed ∅ (with_capacity (W := W) cap) ops ->
  Z.of_nat (length ops) < u64_max ->
  reserved_run ∅ (with_capacity (W := W) cap) ops = ∅ ->
  len (exec_ops (with_capacity (W := W) cap) ops) = allocs ops.
Proof.
  intros Hops Hal Hlt HR. set (s := exec_ops _ ops).
  assert (allocs ops <= length ops)%nat as Hle by apply length_filter.
  destruct (insert_halves_next (with_capacity cap) ops Hops) as [Hf Hn];
    [done|done|simpl; unfold u64_max in *; lia|].
  destruct (exec_ops_ids ∅ (with_capacity (W := W) cap) ops) as [[Hp _] _]; [|done|simpl; lia|].
  { split; [|done]. simpl. rewrite dom_empty_L. auto with lightgraph. }
  rewrite HR, Hf, Hn in Hp. simpl in Hp. fold s in Hp.
  assert (dom (nodes s) = list_to_set (seqZ 0 (Z.of_nat (allocs ops)))) as Hdom.
  { apply set_eq. intros i. rewrite elem_of_list_to_set, elem_of_seqZ. split.
    - intros Hi. apply (pool_dom _ _ _ _ Hp) in Hi. lia.
    - intros Hi. destruct (pool_cover _ _ _ _ Hp i) as [?|[?|?]]; [lia|done|set_solver|].
      by apply elem_of_nil in H1. }
  unfold len. rewrite <-size_dom, Hdom, size_list_to_set by apply NoDup_seqZ. rewrite length_seqZ. lia.
Qed.
End concurrent_inserts.

Section concurrent_rows.
Context {W : Type} `{WalSink W} `{Codec (option Value)}.
Import PropStore.
Implicit Types (s : PropStore W).

(** The calls that take a row of [label]. *)
Definition takes_row (label : Z) (op : PropOp) : bool :=
  match op with
  | POpAllocRow l | POpInsertRow l _ => l =? label
  | _ => false
  end.

Definition rows_taken (label : Z) (ops : list PropOp) : Z :=
  Z.of_nat (length (filter (fun op => takes_row label op = true) ops)).

Lemma insert_prop_schemas l p r v s : schemas (insert_prop l p r v s).2 = schemas s.
Proof.
  unfold insert_prop, wal_send_cell. cbn [snd]. simpl.
  destruct (prop_wal s); [destruct (serialize v)|]; done.
Qed.

Lemma set_prop_schemas l p r v s : schemas (set_prop l p r v s).2 = schemas s.
Proof.
  unfold set_prop. destruct (columns s !! (l, p)) as [col|]; [|done].
  destruct (PropertyColumn.set r v col) as [[] col']; [|done]. unfold wal_send_cell. cbn [snd]. simpl.
  destruct (prop_wal s); [destruct (serialize v)|]; done.
Qed.

Lemma alloc_row_count l label s :
  row_count label (alloc_row l s).2 = if l =? label then wrap32 (row_count label s + 1) else row_count label s.
Proof.
  unfold row_count, alloc_row. simpl. destruct (Z.eqb_spec l label) as [->|Hne].
  - by rewrite lookup_insert_eq.
  - by rewrite lookup_insert_ne.
Qed.

Lemma op_row_count label op s :
  row_count label (prop_exec_op s op) =
  if takes_row label op then wrap32 (row_count label s + 1) else row_count label s.
Proof.
  destruct op as [l|l p r v|l p r v|l props|]; cbn [prop_exec_op takes_row].
  - apply alloc_row_count.
  - unfold row_count. by rewrite insert_prop_schemas.
  - unfold row_count. by rewrite set_prop_schemas.
  - rewrite <-alloc_row_count. unfold insert_row. destruct (alloc_row l s) as [row s1]. cbn [snd].
    revert s1. induction props as [|[name v] props IH]; intros s1; [done|]. cbn [foldl]. rewrite IH.
    unfold row_count. by rewrite insert_prop_schemas.
  - unfold row_count, flush. by destruct (prop_wal s).
Qed.

(** Rows are counted exactly, however the calls on all labels are interleaved. *)
Lemma row_counts label ops s :
  0 <= row_count label s -> row_count label s + rows_taken label ops <= u32_max ->
  row_count label (foldl prop_exec_op s ops) = row_count label s + rows_taken label ops.
Proof.
  revert s. induction ops as [|op ops IH]; intros s Hs Hlt.
  { unfold rows_taken. simpl. lia. }
  cbn [foldl]. unfold rows_taken in *. rewrite filter_cons in Hlt |- *.
  pose proof (op_row_count label op s) as Hop. unfold u32_max in *.
  destruct (takes_row label op) eqn:Ht; [rewrite decide_True in Hlt |- * by done|
    rewrite decide_False in Hlt |- * by done].
  - cbn [length] in Hlt |- *. rewrite wrap32_small in Hop by lia. rewrite IH, Hop by lia. lia.
  - rewrite IH, Hop by lia. lia.
Qed.
End concurrent_rows.

(** All writers done: whatever the interleaving was, every ticket that was
    handed out is finished, and a new reader sees the last one. *)
Lemma writers_done s :
  rtc tx_step threads_init s ->
  (forall tx pc, pcs s !! tx = Some pc -> finished pc = true) ->
  TxManager.latest_committed (manager s) = Z.of_nat (size (pcs s)).
Proof.
  intros Hreach Hdone. pose proof (reachable_inv _ _ tx_inv_init Hreach) as Hinv.
  pose proof (inv_committed s Hinv) as Hc. unfold TxManager.latest_committed.
  assert (committed_tx_id (manager s) = next_tx_id (manager s) - 1) as Hlast.
  { destruct (decide (committed_tx_id (manager s) = next_tx_id (manager s) - 1)); [done|].
    destruct (proj2 (inv_tickets s Hinv (next_tx_id (manager s) - 1))) as [pc Hpc]; [lia|].
    pose proof (proj1 (inv_finished s Hinv _ pc Hpc) (Hdone _ _ Hpc)). lia. }
  assert (dom (pcs s) = list_to_set (seqZ 1 (committed_tx_id (manager s)))) as Hdom.
  { apply set_eq. intros tx. rewrite elem_of_dom, (inv_tickets s Hinv), elem_of_list_to_set, elem_of_seqZ. lia. }
  rewrite <-size_dom, Hdom, size_list_to_set by apply NoDup_seqZ. rewrite length_seqZ. lia.
Qed.

Section witnesses.
#[local] Existing Instances LogSink.sink LogSink.laws.
#[local] Instance threads_codec : Codec Node := countable_codec.

(** Two threads: both allocate before either inserts. *)
Definition two_threads : list NodeOp :=
  [OpAlloc; OpAlloc; OpInsertWithId 1 [1000] 0 1; OpInsertWithId 0 [0] 0 1].

Lemma concurrent_inserts_witness :
  len (exec_ops (with_capacity (W := LogSink.t) 1024) two_threads) = 2%nat.
Proof.
  apply (concurrent_inserts (W := LogSink.t) 1024 two_threads); [by repeat constructor| |done|by vm_compute].
  simpl. repeat split; left; set_solver.
Defined.
End witnesses.
