(* ===== verification/ThreadTests.v ===== *)
(** * The unit tests that spawn threads

    [test_concurrent_inserts] of [node_store.rs], [test_concurrent_writes] of
    [prop_store.rs] and [test_concurrent_writers_lock_free] of [tx_manager.rs]: the
    threads' loops as programs that make one shared access per step, run in any
    interleaving. The tests pass whatever the interleaving is, the third one if no
    thread's [commit] gives up. *)

From S2P Require Export UnitTests Threads.

Open Scope Z_scope.

(** ** [node_store.rs] *)

(** A thread that inserts nodes: the id it has allocated and not yet inserted,
    the labels still to insert. *)
Record Inserter : Type := mkInserter {
  ins_id : option (Z * list Z);
  ins_left : list (list Z)
}.

Section inserts.
Context {W : Type} `{WalSink W} `{Codec Node}.
Implicit Types (s : NodeStore W) (p : Inserter) (ps : list Inserter).

(** [insert_node(labels, 0, 1)]: the allocation, then the rest. *)
Definition inserter_step p s : option (Inserter * NodeStore W) :=
  match ins_id p, ins_left p with
  | Some (id, labels), rest => Some (mkInserter None rest, insert_with_id id labels 0 1 s)
  | None, labels :: rest =>
      let '(id, s') := alloc_id s in Some (mkInserter (Some (id, labels)) rest, s')
  | None, [] => None
  end.

Definition ins_done p : Prop := ins_id p = None /\ ins_left p = [].

(** Eight threads of a thousand insertions. *)
Definition test_concurrent_inserts_threads : list Inserter :=
  map (fun t => mkInserter None (map (fun i => [wrap32 (t * 1000 + i)]) (seqZ 0 1000))) (seqZ 0 8).

Definition pending ps : list Z := omap (fun p => fst <$> ins_id p) ps.

(** The ids given out so far are those in the store and those in flight. *)
Record inserts_inv (n : Z) ps s : Prop := {
  ii_free : free_list s = [];
  ii_next : 0 <= next_id s;
  ii_left : next_id s + Z.of_nat (total (fun p => length (ins_left p)) ps) = n;
  ii_ids : pending ps ++ map fst (map_to_list (nodes s)) ≡ₚ seqZ 0 (next_id s)
}.

Lemma pending_split ps i p p' :
  ps !! i = Some p ->
  exists l1 l2, pending ps = l1 ++ pending [p] ++ l2 /\ pending (<[i := p']> ps) = l1 ++ pending [p'] ++ l2.
Proof.
  intros Hi. exists (pending (take i ps)), (pending (drop (S i) ps)).
  rewrite <-(take_drop_middle _ _ _ Hi) at 1. rewrite (insert_take_drop ps i p') by by eapply lookup_lt_Some.
  unfold pending. rewrite !omap_app. simpl.
  split; (destruct (ins_id _); done).
Qed.

Lemma inserts_step n ps s i p p' s' :
  n < 2 ^ 64 -> inserts_inv n ps s -> ps !! i = Some p -> inserter_step p s = Some (p', s') ->
  inserts_inv n (<[i := p']> ps) s'.
Proof.
  intros Hlt [Hf Hn Hl Hids] Hi Hstep.
  pose proof (total_insert (fun p => length (ins_left p)) ps i p p' Hi) as Htot.
  destruct (pending_split ps i p p' Hi) as (l1 & l2 & Hp & Hp').
  unfold inserter_step in Hstep. destruct p as [[[id labels]|] rest]; cbn [ins_id ins_left] in *.
  - injection Hstep as <- <-. rewrite Hp in Hids. cbn [ins_left] in Htot.
    destruct (wal_insert_frame id (Node.new id labels 0 1) (insert_in_memory id (Node.new id labels 0 1) s))
      as (Hm & Hn' & Hf' & _). fold (insert_with_id id labels 0 1 s) in Hm, Hn', Hf'. simpl in Hm, Hn', Hf'.
    assert (nodes s !! id = None) as Hnone.
    { destruct (nodes s !! id) as [x|] eqn:Hx; [|done]. exfalso.
      assert (NoDup ((l1 ++ [id] ++ l2) ++ map fst (map_to_list (nodes s)))) as Hnd
        by (rewrite Hids; apply NoDup_seqZ).
      apply NoDup_app in Hnd as (_ & Hnd & _). apply (Hnd id).
      - apply elem_of_app; right. apply elem_of_app; left. by apply list_elem_of_singleton.
      - apply list_elem_of_fmap. exists (id, x). split; [done|]. by apply elem_of_map_to_list. }
    split; rewrite ?Hf', ?Hn'; [done|done|lia|]. rewrite Hp', Hm, <-Hids, map_to_list_insert by done. simpl.
    rewrite <-!app_assoc. apply Permutation_app_head. simpl. symmetry. apply Permutation_middle.
  - destruct rest as [|labels rest]; [done|]. unfold alloc_id in Hstep. rewrite Hf in Hstep.
    injection Hstep as <- <-. rewrite Hp in Hids. cbn [ins_left length] in Htot.
    split; rewrite ?Hp'; simpl; rewrite ?wrap64_small by lia; [done|lia|lia|].
    rewrite seqZ_app by lia. rewrite <-Hids. simpl. rewrite Z.add_0_l.
    assert (seqZ (next_id s) 1 = [next_id s]) as -> by (rewrite seqZ_cons by lia; done).
    rewrite <-Permutation_middle. simpl. by rewrite Permutation_cons_append.
Qed.

(** The test passes, in every interleaving. *)
Theorem test_concurrent_inserts ps s :
  rtc (threads_step inserter_step) (test_concurrent_inserts_threads, with_capacity (W := W) 1024) (ps, s) ->
  Forall ins_done ps -> Z.of_nat (len s) = 8000.
Proof.
  intros Hrun Hdone.
  assert (inserts_inv 8000 ps s) as [_ Hn Hl Hids].
  { apply (threads_invariant inserter_step (inserts_inv 8000) _ _ _ _) in Hrun; [done| |].
    - intros ps1 s1 i p p' s1'. by apply inserts_step.
    - split; [done|done| |]; by vm_compute. }
  rewrite total_done in Hl by (eapply Forall_impl; [exact Hdone|by intros p [_ ->]]).
  assert (pending ps = []) as Hnil.
  { clear -Hdone. induction Hdone as [|p ps [Hp _] _ IH]; [done|]. unfold pending in *. simpl. by rewrite Hp. }
  rewrite Hnil in Hids. apply Permutation_length in Hids. simpl in Hids.
  rewrite length_map, length_seqZ in Hids. unfold len. rewrite <-length_map_to_list. lia.
Qed.
End inserts.

(** ** [prop_store.rs] *)

(** A thread that inserts rows of its label: the cell still to write of the row
    it has allocated, the values left. *)
Record RowWriter : Type := mkRowWriter {
  rw_label : Z;
  rw_row : option (Z * Value);
  rw_left : list Value
}.

Section rows.
Context {W : Type} `{WalSink W} `{Codec (option Value)}.
Import PropStore.
Implicit Types (s : PropStore W) (p : RowWriter) (ps : list RowWriter).

(** [insert_row(t, [("seq", v)])]: [alloc_row], then [insert_prop]. *)
Definition row_writer_step p s : option (RowWriter * PropStore W) :=
  match rw_row p, rw_left p with
  | Some (row, v), rest =>
      Some (mkRowWriter (rw_label p) None rest,
            (insert_prop (rw_label p) (str "seq") row (Some v) s).2)
  | None, v :: rest =>
      let '(row, s') := alloc_row (rw_label p) s in
      Some (mkRowWriter (rw_label p) (Some (row, v)) rest, s')
  | None, [] => None
  end.

Definition row_writer_done p : Prop := rw_row p = None /\ rw_left p = [].

(** Four threads of a hundred rows. *)
Definition test_concurrent_writes_threads : list RowWriter :=
  map (fun t => mkRowWriter t None (map (fun i => VInt (t * 100 + i)) (seqZ 0 100))) (seqZ 0 4).

(** Thread [t] is the only one to take rows of label [t]. *)
Definition rows_inv ps s : Prop :=
  length ps = 4%nat /\
  forall i p, ps !! i = Some p ->
    rw_label p = Z.of_nat i /\ 0 <= row_count (Z.of_nat i) s /\
    row_count (Z.of_nat i) s + Z.of_nat (length (rw_left p)) = 100.

Lemma rows_step ps s i p p' s' :
  rows_inv ps s -> ps !! i = Some p -> row_writer_step p s = Some (p', s') ->
  rows_inv (<[i := p']> ps) s'.
Proof.
  intros [Hlen Hinv] Hi Hstep. split; [by rewrite length_insert|]. intros j q Hj.
  destruct (Hinv i p Hi) as (Hlbl & H0' & H1'). unfold row_writer_step in Hstep.
  destruct p as [lbl [[row v]|] rest]; cbn [rw_label rw_row rw_left] in *.
  - assert (schemas (insert_prop lbl (str "seq") row (Some v) s).2 = schemas s) as Hs by apply insert_prop_schemas.
    unfold row_count in *. injection Hstep as <- <-. setoid_rewrite Hs.
    apply list_lookup_insert_Some in Hj as [(-> & <- & _)|[_ Hj]]; [done|by apply Hinv].
  - destruct rest as [|v rest]; [done|]. destruct (alloc_row lbl s) as [row s1] eqn:Ha.
    injection Hstep as <- <-. assert (s1 = (alloc_row lbl s).2) as -> by by rewrite Ha.
    rewrite alloc_row_count. cbn [length] in H1'.
    apply list_lookup_insert_Some in Hj as [(-> & <- & _)|[Hne Hj]]; cbn [rw_label rw_left].
    + rewrite Hlbl, Z.eqb_refl, wrap32_small by lia. split_done.
    + destruct (Z.eqb_spec lbl (Z.of_nat j)); [lia|by apply Hinv].
Qed.

(** The test passes, in every interleaving. *)
Theorem test_concurrent_writes ps s :
  rtc (threads_step row_writer_step) (test_concurrent_writes_threads, new) (ps, s) ->
  Forall row_writer_done ps -> forall t, 0 <= t < 4 -> row_count t s = 100.
Proof.
  intros Hrun Hdone t Ht.
  assert (rows_inv ps s) as [Hlen Hinv].
  { apply (threads_invariant row_writer_step rows_inv _ _ _ _) in Hrun; [done| |].
    - intros ps1 s1 i p p' s1'. apply rows_step.
    - split; [done|]. intros i p Hi. pose proof (lookup_lt_Some _ _ _ Hi) as Hlt. vm_compute in Hlt.
      do 4 (destruct i as [|i]; [injection Hi as <-; by vm_compute|]). lia. }
  destruct (lookup_lt_is_Some_2 ps (Z.to_nat t)) as [p Hp]; [lia|].
  destruct (Hinv _ _ Hp) as (_ & _ & Hc). rewrite Z2Nat.id in Hc by lia.
  rewrite Forall_forall in Hdone. destruct (Hdone p) as [_ Hnil]; [by eapply list_elem_of_lookup_2|].
  rewrite Hnil in Hc. simpl in Hc. lia.
Qed.
End rows.

(** ** [tx_manager.rs] *)

(** A thread that commits empty transactions: how many are left, the ticket of
    the one it is in, and whether its [unwrap] has panicked. *)
Record TxWriter : Type := mkTxWriter {
  tw_left : nat;
  tw_tx : option Z;
  tw_panicked : bool
}.

(** [begin_write], the loads and the store of [commit] as in [TxManager.v], and
    [unwrap] of its result. *)
Definition tx_writer_step (p : TxWriter) (ths : Threads) : option (TxWriter * Threads) :=
  if tw_panicked p then None
  else
    match tw_tx p, tw_left p with
    | None, O => None
    | None, S n => Some (mkTxWriter n (Some (next_tx_id (manager ths))) false, tx_exec ths EvBegin)
    | Some tx, n =>
        match pcs ths !! tx with
        | Some Ticket => Some (p, tx_exec ths (EvCommit tx))
        | Some (CommitLoad _) | Some CommitStore => Some (p, tx_exec ths (EvRun tx))
        | Some Committed => Some (mkTxWriter n None false, ths)
        | Some TimedOut => Some (mkTxWriter n (Some tx) true, ths)
        | _ => None
        end
    end.

Definition tx_writer_done (p : TxWriter) : Prop :=
  tw_left p = 0%nat /\ tw_tx p = None /\ tw_panicked p = false.

(** Four threads of a hundred transactions. *)
Definition test_concurrent_writers_threads : list TxWriter := replicate 4 (mkTxWriter 100 None false).

Record writers_inv (n : Z) (ps : list TxWriter) (ths : Threads) : Prop := {
  wi_tx : tx_inv ths;
  wi_count : next_tx_id (manager ths) + Z.of_nat (total tw_left ps) = n + 1;
  wi_held tx pc : pcs ths !! tx = Some pc -> finished pc = false ->
    exists i p, ps !! i = Some p /\ tw_tx p = Some tx
}.

(** Every event leaves the unfinished tickets with those who hold them. *)
Lemma held_insert (ps : list TxWriter) i p p' tx :
  ps !! i = Some p -> (tw_tx p = Some tx -> tw_tx p' = Some tx) ->
  (exists j q, ps !! j = Some q /\ tw_tx q = Some tx) ->
  exists j q, <[i := p']> ps !! j = Some q /\ tw_tx q = Some tx.
Proof.
  intros Hi Hkeep (j & q & Hj & Hq). destruct (decide (j = i)) as [->|Hne].
  - exists i, p'. rewrite Hi in Hj. injection Hj as <-. split; [|by apply Hkeep].
    apply list_lookup_insert_eq. by eapply lookup_lt_Some.
  - exists j, q. by rewrite list_lookup_insert_ne.
Qed.

(** An event of the holder of [tx] changes neither the tickets nor the places
    of the others. *)
Lemma event_frame ths ev tx :
  ev = EvCommit tx \/ ev = EvRun tx ->
  next_tx_id (manager (tx_exec ths ev)) = next_tx_id (manager ths) /\
  forall t, t ≠ tx -> pcs (tx_exec ths ev) !! t = pcs ths !! t.
Proof.
  intros [-> | ->]; cbn [tx_exec]; unfold call_with.
  - destruct (pcs ths !! tx) as [pc|]; simpl; [|done]. destruct (call_commit pc); simpl; [|done].
    split; [done|]. intros t Ht. by rewrite lookup_insert_ne.
  - destruct (pcs ths !! tx) as [pc|]; [|done].
    destruct (thread_step tx pc (manager ths)) as [[pc' m']|] eqn:Hs; [|done]. simpl. split.
    + unfold thread_step in Hs. by repeat case_match; simplify_eq/=.
    + intros t Ht. by rewrite lookup_insert_ne.
Qed.

Lemma writers_step n ps ths i p p' ths' :
  n < u64_max -> writers_inv n ps ths -> ps !! i = Some p -> tx_writer_step p ths = Some (p', ths') ->
  writers_inv n (<[i := p']> ps) ths'.
Proof.
  intros Hn [Htx Hc Hheld] Hi Hstep. pose proof (total_insert tw_left ps i p p' Hi) as Htot.
  assert (forall ev, tx_inv (tx_exec ths ev)) as Hev
    by (intros ev; eapply reachable_inv; [exact Htx|apply tx_exec_step]).
  assert (forall tx ev, tw_tx p = Some tx -> ev = EvCommit tx \/ ev = EvRun tx ->
    writers_inv n (<[i := p]> ps) (tx_exec ths ev)) as Hown.
  { intros tx ev Hp Hevs. destruct (event_frame ths ev tx Hevs) as [Hnext Hother].
    rewrite list_insert_id by done. split; [apply Hev|by rewrite Hnext|].
    intros t pc Hpc Hfin. destruct (decide (t = tx)) as [->|Hne]; [eauto|].
    rewrite Hother in Hpc by done. by eapply Hheld. }
  unfold tx_writer_step in Hstep. destruct p as [left [tx|] []]; cbn [tw_panicked tw_tx tw_left] in *; [done| |done|].
  - destruct (pcs ths !! tx) as [pc|] eqn:Hpc; [|done].
    destruct pc; try done; injection Hstep as <- <-;
      try (by first [apply (Hown tx (EvCommit tx)) | apply (Hown tx (EvRun tx))]; auto); cbn [tw_left] in Htot.
    + split; [done|lia|]. intros t pc Ht Hfin. apply (held_insert ps i _ _ t Hi); [done|by eapply Hheld].
    + split; [done|lia|]. intros t pc Ht Hfin. apply (held_insert ps i _ _ t Hi); [|by eapply Hheld].
      cbn [tw_tx]. intros [= ->]. rewrite Hpc in Ht. by injection Ht as <-.
  - destruct left as [|left]; [done|]. injection Hstep as <- <-. cbn [tw_left] in Htot.
    pose proof (Hev EvBegin) as Hev'. cbn [tx_exec] in Hev' |- *.
    destruct (next_tx_id (manager ths) <? u64_max) eqn:Hlt; [|blia].
    pose proof (inv_committed ths Htx). pose proof (inv_next ths Htx). split; [done| |].
    + simpl. rewrite wrap64_small by (unfold u64_max in *; blia). lia.
    + intros t pc. cbn [pcs TxManager.begin_write fst]. intros [[<- <-]|[Hne Ht]]%lookup_insert_Some Hfin.
      * exists i. eexists. split; [apply list_lookup_insert_eq; by eapply lookup_lt_Some|done].
      * apply (held_insert ps i _ _ t Hi); [done|by eapply Hheld].
Qed.

(** All 400 transactions committed, whatever the interleaving was, if every
    thread got to its end: a thread whose [commit] gives up panics. *)
Theorem test_concurrent_writers_lock_free ps ths :
  rtc (threads_step tx_writer_step) (test_concurrent_writers_threads, threads_init) (ps, ths) ->
  Forall tx_writer_done ps -> TxManager.latest_committed (manager ths) = 400.
Proof.
  intros Hrun Hdone.
  assert (writers_inv 400 ps ths) as [Htx Hc Hheld].
  { apply (threads_invariant tx_writer_step (writers_inv 400) _ _ _ _) in Hrun; [done| |].
    - intros ps1 s1 i p p' s1'. by apply writers_step.
    - split; [apply tx_inv_init|by vm_compute|]. intros tx pc. cbn [threads_init pcs]. by rewrite lookup_empty. }
  rewrite total_done in Hc by (eapply Forall_impl; [exact Hdone|by intros p [-> _]]).
  pose proof (inv_committed ths Htx) as Hr. unfold TxManager.latest_committed.
  destruct (proj2 (inv_tickets ths Htx 400)) as [pc Hpc]; [lia|].
  destruct (finished pc) eqn:Hfin.
  - pose proof (proj1 (inv_finished ths Htx 400 pc Hpc) Hfin). lia.
  - destruct (Hheld 400 pc Hpc Hfin) as (i & p & Hi & Hp). rewrite Forall_forall in Hdone.
    destruct (Hdone p) as (_ & Hnone & _); [by eapply list_elem_of_lookup_2|]. congruence.
Qed.
