(* ===== verification/IntegrationTests.v ===== *)
(** * The repository's integration tests, run on the model

    The tests of [src/tests/]: [test_transaction.rs], [test_mvcc.rs],
    [test_crud.rs], [test_node_store.rs], [test_edge_store.rs],
    [test_prop_store.rs], [test_crash_recovery.rs], [test_recovery_full.rs],
    [test_snapshot_read.rs], [test_snapshot_write.rs], [test_wal_replay.rs] and
    [test_wal_write.rs], a definition per test as in [UnitTests.v]. A transaction
    that a test drops at the end of a scope is dropped where that can matter:
    when it is neither committed nor rolled back.

    Not here: [test_bulk_data_cycle], [test_replay_large_transaction] and
    [test_group_commit_stress], whose thousand rows and records are too many to
    evaluate, and the tests that only measure; [test_concurrent_independent_writes],
    whose threads [Concurrent.v] interleaves. *)

From S2P Require Export UnitTests.

Open Scope Z_scope.

Notation "'assert_ne!' a , b ; k" := (if bool_decide (a = b) then false else k)
  (at level 10, a at level 100, b at level 100, k at level 200, only parsing) : lightgraph_scope.

Definition is_some {A} (o : option A) : bool := match o with Some _ => true | None => false end.
Definition is_none {A} (o : option A) : bool := negb (is_some o).

(** ** Transactions *)

#[local] Existing Instances thread_sink thread_sink_laws.
#[local] Instance it_node_codec : Codec Node := countable_codec.
#[local] Instance it_edge_codec : Codec Edge := countable_codec.
#[local] Instance it_value_codec : Codec (option Value) := countable_codec.

Module Helpers.
Import Transaction.

Definition memory : Database WalThread := Database.memory.
Definition v (i : Z) : Value := VInt i.
Definition s (t : String.string) : Value := VString (str t).

(** [tx.commit().unwrap()]; dropping the transaction afterwards does nothing. *)
Definition commit_ok (db : Database WalThread) (t : Transaction) : option (Database WalThread) :=
  match commit db t with
  | (Ok _, db', t') => drop db' t'
  | _ => None
  end.

End Helpers.

Module TransactionTests.
Import Transaction Database Helpers.

Definition test_create_and_read_node : bool :=
  let '(tx, db) := begin_write memory in
  let '(id, db, tx) := create_node [1] 0 db tx in
  unwrap! db := commit_ok db tx;
  let rx := begin_read db in
  unwrap! node := get_node id db rx;
  assert_eq! Node.labels node, [1];
  assert! Node.is_alive node (snapshot rx);
  true.

Definition test_create_node_with_properties : bool :=
  let '(tx, db) := begin_write memory in
  let '(_id, db, tx) := create_node [0] 0 db tx in
  let tx := set_prop 0 (str "name") 0 (Some (s "Alice")) tx in
  let tx := set_prop 0 (str "age") 0 (Some (v 30)) tx in
  unwrap! db := commit_ok db tx;
  assert_eq! PropStore.get_prop 0 (str "name") 0 (db_props db), Some (s "Alice");
  assert_eq! PropStore.get_prop 0 (str "age") 0 (db_props db), Some (v 30);
  true.

Definition test_create_edge_between_nodes : bool :=
  let '(tx, db) := begin_write memory in
  let '(a, db, tx) := create_node [0] 0 db tx in
  let '(b, db, tx) := create_node [0] 1 db tx in
  let '(e, db, tx) := create_edge a b 10 100 db tx in
  unwrap! db := commit_ok db tx;
  let rx := begin_read db in
  unwrap! edge := get_edge e db rx;
  assert_eq! Edge.src edge, a;
  assert_eq! Edge.dst edge, b;
  assert_eq! Edge.etype edge, 10;
  true.

Definition test_snapshot_does_not_see_uncommitted : bool :=
  let '(tx, db) := begin_write memory in
  let '(id, db, tx) := create_node [1] 0 db tx in
  let rx := begin_read db in
  assert! is_none (get_node id db rx);
  unwrap! db := drop db rx;
  unwrap! db := drop db tx;
  true.

Definition test_snapshot_sees_committed_only : bool :=
  let '(tx1, db) := begin_write memory in
  let '(a, db, tx1) := create_node [0] 0 db tx1 in
  unwrap! db := commit_ok db tx1;
  let '(tx2, db) := begin_write db in
  let '(b, db, tx2) := create_node [0] 1 db tx2 in
  let rx := begin_read db in
  assert! is_some (get_node a db rx);
  assert! is_none (get_node b db rx);
  unwrap! db := drop db rx;
  unwrap! db := drop db tx2;
  true.

Definition test_rollback_discards_writes : bool :=
  let '(tx, db) := begin_write memory in
  let '(id, db, tx) := create_node [0] 0 db tx in
  unwrap! r := rollback db tx;
  let '(db, tx) := r in
  let rx := begin_read db in
  assert! is_none (get_node id db rx);
  unwrap! db := drop db tx;
  true.

Definition test_rollback_does_not_affect_committed : bool :=
  let '(tx1, db) := begin_write memory in
  let '(a, db, tx1) := create_node [0] 0 db tx1 in
  unwrap! db := commit_ok db tx1;
  let '(tx2, db) := begin_write db in
  let '(_b, db, tx2) := create_node [0] 1 db tx2 in
  unwrap! r := rollback db tx2;
  let '(db, tx2) := r in
  let rx := begin_read db in
  assert! is_some (get_node a db rx);
  true.

Definition test_atomic_node_edge_commit : bool :=
  let '(tx, db) := begin_write memory in
  let '(alice, db, tx) := create_node [0] 0 db tx in
  let '(bob, db, tx) := create_node [0] 1 db tx in
  let '(knows, db, tx) := create_edge alice bob 1 100 db tx in
  let tx := set_prop 0 (str "name") 0 (Some (s "Alice")) tx in
  let tx := set_prop 0 (str "name") 1 (Some (s "Bob")) tx in
  unwrap! db := commit_ok db tx;
  let rx := begin_read db in
  assert! is_some (get_node alice db rx);
  assert! is_some (get_node bob db rx);
  assert! is_some (get_edge knows db rx);
  assert_eq! PropStore.get_prop 0 (str "name") 0 (db_props db), Some (s "Alice");
  assert_eq! PropStore.get_prop 0 (str "name") 1 (db_props db), Some (s "Bob");
  true.

Definition test_soft_delete_via_transaction : bool :=
  let '(tx, db) := begin_write memory in
  let '(id, db, tx) := create_node [0] 0 db tx in
  unwrap! db := commit_ok db tx;
  let '(tx, db) := begin_write db in
  let tx := delete_node id tx in
  unwrap! db := commit_ok db tx;
  let rx := begin_read db in
  assert! is_none (get_node id db rx);
  true.

Definition test_auto_rollback_on_drop : bool :=
  let '(tx, db) := begin_write memory in
  let '(_id, db, tx) := create_node [0] 0 db tx in
  unwrap! db := drop db tx;
  let rx := begin_read db in
  assert! is_none (get_node 0 db rx);
  true.

Definition all : list bool :=
  [test_create_and_read_node; test_create_node_with_properties; test_create_edge_between_nodes;
   test_snapshot_does_not_see_uncommitted; test_snapshot_sees_committed_only;
   test_rollback_discards_writes; test_rollback_does_not_affect_committed;
   test_atomic_node_edge_commit; test_soft_delete_via_transaction; test_auto_rollback_on_drop].

Example transaction_tests_passed : all = replicate 10 true.
Proof. by vm_compute. Qed.
End TransactionTests.

(** ** Snapshots *)

Module MvccTests.
Import Transaction Database Helpers.

Definition test_mvcc_initial_snapshot_is_zero : bool :=
  let rx := begin_read memory in
  assert_eq! snapshot rx, 0;
  true.

Definition test_mvcc_snapshot_advances_after_commit : bool :=
  let snap0 := snapshot (begin_read memory) in
  let '(tx, db) := begin_write memory in
  let '(_id, db, tx) := create_node [0] 0 db tx in
  unwrap! db := commit_ok db tx;
  let snap1 := snapshot (begin_read db) in
  assert! snap0 <? snap1;
  true.

Definition test_mvcc_old_snapshot_does_not_see_new_data : bool :=
  let rx := begin_read memory in
  let snap := snapshot rx in
  unwrap! db := drop memory rx;
  let '(tx, db) := begin_write db in
  let '(id, db, tx) := create_node [0] 0 db tx in
  unwrap! db := commit_ok db tx;
  let rx := begin_read db in
  let snap_after := snapshot rx in
  assert! snap <? snap_after;
  unwrap! n := get id (db_nodes db);
  assert! Node.is_alive n snap_after;
  assert! negb (Node.is_alive n snap);
  true.

Definition test_mvcc_multiple_writers_serialized : bool :=
  let '(t1, db) := begin_write memory in
  let '(a, db, t1) := create_node [1] 0 db t1 in
  unwrap! db := commit_ok db t1;
  let '(t2, db) := begin_write db in
  let '(b, db, t2) := create_node [2] 0 db t2 in
  unwrap! db := commit_ok db t2;
  let rx := begin_read db in
  assert! is_some (get_node a db rx);
  assert! is_some (get_node b db rx);
  true.

Definition test_mvcc_delete_creates_new_version : bool :=
  let '(tx, db) := begin_write memory in
  let '(id, db, tx) := create_node [0] 0 db tx in
  unwrap! db := commit_ok db tx;
  let snap_before := snapshot (begin_read db) in
  let '(tx, db) := begin_write db in
  let tx := delete_node id tx in
  unwrap! db := commit_ok db tx;
  unwrap! n := get id (db_nodes db);
  assert! Node.is_alive n snap_before;
  assert! negb (Node.is_alive n (snapshot (begin_read db)));
  true.

Definition test_mvcc_created_at_snapshot_is_visible : bool :=
  let '(tx, db) := begin_write memory in
  let '(id, db, tx) := create_node [0] 0 db tx in
  let created_tx := tx_id tx in
  unwrap! db := commit_ok db tx;
  unwrap! n := get id (db_nodes db);
  assert! Node.is_alive n created_tx;
  assert! Node.is_alive n (created_tx + 1);
  true.

Definition test_mvcc_deleted_at_snapshot_is_invisible : bool :=
  let '(tx, db) := begin_write memory in
  let '(id, db, tx) := create_node [0] 0 db tx in
  unwrap! db := commit_ok db tx;
  let '(tx, db) := begin_write db in
  let tx := delete_node id tx in
  let deleted_tx := tx_id tx in
  unwrap! db := commit_ok db tx;
  unwrap! n := get id (db_nodes db);
  assert! Node.is_alive n (deleted_tx - 1);
  assert! negb (Node.is_alive n deleted_tx);
  assert! negb (Node.is_alive n (deleted_tx + 1));
  true.

Definition test_mvcc_node_never_visible_before_creation : bool :=
  let '(tx, db) := begin_write memory in
  let '(id, db, tx) := create_node [0] 0 db tx in
  let created_tx := tx_id tx in
  unwrap! db := commit_ok db tx;
  unwrap! n := get id (db_nodes db);
  assert! negb (Node.is_alive n 0);
  assert! negb (Node.is_alive n (created_tx - 1));
  assert! Node.is_alive n created_tx;
  true.

Definition test_mvcc_alive_node_has_max_deleted_tx : bool :=
  let '(tx, db) := begin_write memory in
  let '(id, db, tx) := create_node [0] 0 db tx in
  unwrap! db := commit_ok db tx;
  unwrap! n := get id (db_nodes db);
  assert_eq! Node.deleted_tx n, MAX_TX_ID;
  assert! Node.is_alive n (u64_max - 1);
  true.

Definition all : list bool :=
  [test_mvcc_initial_snapshot_is_zero; test_mvcc_snapshot_advances_after_commit;
   test_mvcc_old_snapshot_does_not_see_new_data; test_mvcc_multiple_writers_serialized;
   test_mvcc_delete_creates_new_version; test_mvcc_created_at_snapshot_is_visible;
   test_mvcc_deleted_at_snapshot_is_invisible; test_mvcc_node_never_visible_before_creation;
   test_mvcc_alive_node_has_max_deleted_tx].

Example mvcc_tests_passed : all = replicate 9 true.
Proof. by vm_compute. Qed.
End MvccTests.

(** ** Create, read, update, delete *)

Module CrudTests.
Import Transaction Database Helpers.

Definition test_node_create_read : bool :=
  let '(tx, db) := begin_write memory in
  let '(id, db, tx) := create_node [1; 2] 0 db tx in
  unwrap! db := commit_ok db tx;
  let rx := begin_read db in
  unwrap! n := get_node id db rx;
  assert_eq! Node.labels n, [1; 2];
  assert_eq! Node.id n, id;
  assert_eq! Node.deleted_tx n, MAX_TX_ID;
  true.

Definition test_node_create_multiple : bool :=
  let '(tx, db) := begin_write memory in
  let '(a, db, tx) := create_node [0] 0 db tx in
  let '(b, db, tx) := create_node [0] 1 db tx in
  let '(c, db, tx) := create_node [1] 2 db tx in
  unwrap! db := commit_ok db tx;
  let rx := begin_read db in
  assert! is_some (get_node a db rx);
  assert! is_some (get_node b db rx);
  assert! is_some (get_node c db rx);
  assert_ne! a, b;
  assert_ne! b, c;
  true.

Definition test_node_update_labels : bool :=
  let '(tx, db) := begin_write memory in
  let '(id, db, tx) := create_node [0] 0 db tx in
  unwrap! db := commit_ok db tx;
  let '(tx, db) := begin_write db in
  let tx := update_node_labels id [10; 20; 30] tx in
  unwrap! db := commit_ok db tx;
  let rx := begin_read db in
  assert_eq! Node.labels <$> get_node id db rx, Some [10; 20; 30];
  true.

(** The body of the loop over the label lists. *)
Definition update_and_read (id : Z) (acc : option (Database WalThread)) (labels : list Z)
  : option (Database WalThread) :=
  match acc with
  | Some db =>
      let '(tx, db) := begin_write db in
      let tx := update_node_labels id labels tx in
      match commit_ok db tx with
      | Some db =>
          let rx := begin_read db in
          if bool_decide (Node.labels <$> get_node id db rx = Some labels) then Some db else None
      | None => None
      end
  | None => None
  end.

Definition test_node_update_labels_idempotent : bool :=
  let '(tx, db) := begin_write memory in
  let '(id, db, tx) := create_node [0] 0 db tx in
  unwrap! db := commit_ok db tx;
  is_some (foldl (update_and_read id) (Some db) [[1]; [2; 3]; [4; 5; 6]]).

Definition test_node_delete_soft : bool :=
  let '(tx, db) := begin_write memory in
  let '(id, db, tx) := create_node [0] 0 db tx in
  unwrap! db := commit_ok db tx;
  let '(tx, db) := begin_write db in
  let tx := delete_node id tx in
  unwrap! db := commit_ok db tx;
  let rx := begin_read db in
  assert! is_none (get_node id db rx);
  true.

Definition test_node_delete_then_recreate : bool :=
  let '(tx, db) := begin_write memory in
  let '(id, db, tx) := create_node [0] 0 db tx in
  unwrap! db := commit_ok db tx;
  let '(tx, db) := begin_write db in
  let tx := delete_node id tx in
  unwrap! db := commit_ok db tx;
  let '(tx, db) := begin_write db in
  let '(new_id, db, tx) := create_node [99] 0 db tx in
  unwrap! db := commit_ok db tx;
  let rx := begin_read db in
  assert! is_none (get_node id db rx);
  assert! is_some (get_node new_id db rx);
  assert_eq! Node.labels <$> get_node new_id db rx, Some [99];
  true.

Definition test_node_mixed_ops_single_tx : bool :=
  let '(tx, db) := begin_write memory in
  let '(keep, db, tx) := create_node [0] 0 db tx in
  let '(update_me, db, tx) := create_node [1] 1 db tx in
  let '(delete_me, db, tx) := create_node [2] 2 db tx in
  unwrap! db := commit_ok db tx;
  let '(tx, db) := begin_write db in
  let '(_id, db, tx) := create_node [3] 3 db tx in
  let tx := update_node_labels update_me [99] tx in
  let tx := delete_node delete_me tx in
  unwrap! db := commit_ok db tx;
  let rx := begin_read db in
  assert! is_some (get_node keep db rx);
  assert_eq! Node.labels <$> get_node update_me db rx, Some [99];
  assert! is_none (get_node delete_me db rx);
  true.

Definition test_edge_create_read : bool :=
  let '(tx, db) := begin_write memory in
  let '(a, db, tx) := create_node [0] 0 db tx in
  let '(b, db, tx) := create_node [0] 1 db tx in
  let '(e, db, tx) := create_edge a b 42 100 db tx in
  unwrap! db := commit_ok db tx;
  let rx := begin_read db in
  unwrap! edge := get_edge e db rx;
  assert_eq! Edge.src edge, a;
  assert_eq! Edge.dst edge, b;
  assert_eq! Edge.etype edge, 42;
  assert_eq! Edge.props_row edge, 100;
  assert_eq! Edge.deleted_tx edge, MAX_TX_ID;
  true.

Definition test_edge_create_multiple : bool :=
  let '(tx, db) := begin_write memory in
  let '(a, db, tx) := create_node [0] 0 db tx in
  let '(b, db, tx) := create_node [0] 1 db tx in
  let '(c, db, tx) := create_node [0] 2 db tx in
  let '(e1, db, tx) := create_edge a b 1 0 db tx in
  let '(e2, db, tx) := create_edge a c 2 0 db tx in
  let '(e3, db, tx) := create_edge b c 3 0 db tx in
  unwrap! db := commit_ok db tx;
  let rx := begin_read db in
  assert! is_some (get_edge e1 db rx);
  assert! is_some (get_edge e2 db rx);
  assert! is_some (get_edge e3 db rx);
  true.

Definition test_edge_delete_soft : bool :=
  let '(tx, db) := begin_write memory in
  let '(a, db, tx) := create_node [0] 0 db tx in
  let '(b, db, tx) := create_node [0] 1 db tx in
  let '(e, db, tx) := create_edge a b 1 0 db tx in
  unwrap! db := commit_ok db tx;
  let '(tx, db) := begin_write db in
  let tx := delete_edge e tx in
  unwrap! db := commit_ok db tx;
  let rx := begin_read db in
  assert! is_none (get_edge e db rx);
  true.

Definition test_edge_delete_does_not_affect_nodes : bool :=
  let '(tx, db) := begin_write memory in
  let '(a, db, tx) := create_node [0] 0 db tx in
  let '(b, db, tx) := create_node [0] 1 db tx in
  let '(e, db, tx) := create_edge a b 1 0 db tx in
  unwrap! db := commit_ok db tx;
  let '(tx, db) := begin_write db in
  let tx := delete_edge e tx in
  unwrap! db := commit_ok db tx;
  let rx := begin_read db in
  assert! is_some (get_node a db rx);
  assert! is_some (get_node b db rx);
  assert! is_none (get_edge e db rx);
  true.

Definition test_crud_with_properties : bool :=
  let '(tx, db) := begin_write memory in
  let '(_alice, db, tx) := create_node [0] 0 db tx in
  let tx := set_prop 0 (str "name") 0 (Some (s "Alice")) tx in
  let tx := set_prop 0 (str "age") 0 (Some (v 30)) tx in
  unwrap! db := commit_ok db tx;
  assert_eq! PropStore.get_prop 0 (str "name") 0 (db_props db), Some (s "Alice");
  assert_eq! PropStore.get_prop 0 (str "age") 0 (db_props db), Some (v 30);
  let '(tx, db) := begin_write db in
  let tx := set_prop 0 (str "age") 0 (Some (v 31)) tx in
  let tx := set_prop 0 (str "city") 0 (Some (s "NYC")) tx in
  unwrap! db := commit_ok db tx;
  assert_eq! PropStore.get_prop 0 (str "age") 0 (db_props db), Some (v 31);
  assert_eq! PropStore.get_prop 0 (str "city") 0 (db_props db), Some (s "NYC");
  assert_eq! PropStore.get_prop 0 (str "name") 0 (db_props db), Some (s "Alice");
  true.

Definition test_property_delete_by_setting_none : bool :=
  let '(tx, db) := begin_write memory in
  let '(_id, db, tx) := create_node [0] 0 db tx in
  let tx := set_prop 0 (str "temp") 0 (Some (s "remove_me")) tx in
  unwrap! db := commit_ok db tx;
  assert_eq! PropStore.get_prop 0 (str "temp") 0 (db_props db), Some (s "remove_me");
  let '(tx, db) := begin_write db in
  let tx := set_prop 0 (str "temp") 0 None tx in
  unwrap! db := commit_ok db tx;
  assert_eq! PropStore.get_prop 0 (str "temp") 0 (db_props db), None;
  true.

Definition all : list bool :=
  [test_node_create_read; test_node_create_multiple; test_node_update_labels;
   test_node_update_labels_idempotent; test_node_delete_soft; test_node_delete_then_recreate;
   test_node_mixed_ops_single_tx; test_edge_create_read; test_edge_create_multiple;
   test_edge_delete_soft; test_edge_delete_does_not_affect_nodes; test_crud_with_properties;
   test_property_delete_by_setting_none].

Example crud_tests_passed : all = replicate 13 true.
Proof. by vm_compute. Qed.
End CrudTests.

(** ** The stores on their own *)

Module NodeTests.
Import Helpers.

Definition new : NodeStore WalThread := NodeStore.new.

(** [populate]: [for i in 0..count]. *)
Definition populate (store : NodeStore WalThread) (count tx : Z) : list Z * NodeStore WalThread :=
  foldl (fun '(ids, store) i =>
    let '(id, store) := insert_node [i mod 5] (wrap32 i) tx store in (ids ++ [id], store))
    ([], store) (seqZ 0 count).

Definition test_create_read_update_delete_lifecycle : bool :=
  let '(id, store) := insert_node [10] 99 1 new in
  assert! contains id store;
  unwrap! node := get id store;
  assert_eq! Node.labels node, [10];
  assert_eq! Node.props_row node, 99;
  assert_eq! Node.created_tx node, 1;
  let '(ok, store) := update_labels id [20; 30] 2 store in
  assert! ok;
  unwrap! node := get id store;
  assert_eq! Node.labels node, [20; 30];
  let '(ok, store) := update_props_row id 42 store in
  assert! ok;
  unwrap! node := get id store;
  assert_eq! Node.props_row node, 42;
  let '(ok, store) := soft_delete id 100 store in
  assert! ok;
  unwrap! node := get id store;
  assert! negb (Node.is_alive node 100);
  let '(ok, store) := hard_delete id store in
  assert! ok;
  assert! is_none (get id store);
  true.

Definition mem (x : Z) (l : list Z) : bool := bool_decide (x ∈ l).

Definition test_snapshot_isolation_across_timeline : bool :=
  let '(n0, store) := insert_node [0] 0 1 new in
  let '(n1, store) := insert_node [1] 1 1 store in
  let store := (update_labels n0 [99] 2 store).2 in
  let store := (soft_delete n1 3 store).2 in
  let '(n2, store) := insert_node [2] 2 4 store in
  let snap1 := visible_nodes 1 store in
  assert_eq! length snap1, 1%nat;
  assert! negb (mem n0 snap1);
  assert! mem n1 snap1;
  let snap2 := visible_nodes 2 store in
  assert_eq! length snap2, 2%nat;
  assert! mem n0 snap2;
  assert! mem n1 snap2;
  let snap4 := visible_nodes 4 store in
  assert_eq! length snap4, 2%nat;
  assert! mem n0 snap4;
  assert! mem n2 snap4;
  assert! negb (mem n1 snap4);
  true.

Definition test_compaction_cleans_up_old_versions : bool :=
  let '(ids, store) := populate new 10 1 in
  let store := foldl (fun store id => (soft_delete id 10 store).2) store (take 5 ids) in
  let store := foldl (fun store id => (soft_delete id 20 store).2) store (drop 5 ids) in
  assert_eq! len store, 10%nat;
  let '(removed, store) := compact 15 store in
  assert_eq! removed, 5%nat;
  assert_eq! len store, 5%nat;
  true.

Definition insert_100 (labels : list Z) (tx : Z) (store : NodeStore WalThread)
  : list Z * NodeStore WalThread :=
  foldl (fun '(ids, store) _ =>
    let '(id, store) := insert_node labels 0 tx store in (ids ++ [id], store))
    ([], store) (seqZ 0 100).

Definition test_id_recycling_full_cycle : bool :=
  let '(ids, store) := insert_100 [0] 1 new in
  let store := foldl (fun store id => (hard_delete id store).2) store ids in
  assert_eq! free_count store, 100;
  assert_eq! len store, 0%nat;
  let '(ids2, store) := insert_100 [1] 2 store in
  assert! forallb (fun id => id <? 100) ids2;
  assert! free_count store <=? 1;
  true.

Definition test_edge_chain_heads : bool :=
  let '(a, store) := insert_node [0] 0 1 new in
  let '(b, store) := insert_node [0] 0 1 store in
  let store := (set_first_out a 100 store).2 in
  let store := (set_first_in a 200 store).2 in
  let store := (set_first_out b 300 store).2 in
  assert_eq! Node.first_out <$> get a store, Some 100;
  assert_eq! Node.first_in <$> get a store, Some 200;
  assert_eq! Node.first_out <$> get b store, Some 300;
  assert_eq! Node.first_in <$> get b store, Some u64_max;
  true.

Definition all : list bool :=
  [test_create_read_update_delete_lifecycle; test_snapshot_isolation_across_timeline;
   test_compaction_cleans_up_old_versions; test_id_recycling_full_cycle; test_edge_chain_heads].

Example node_tests_passed : all = replicate 5 true.
Proof. by vm_compute. Qed.
End NodeTests.

Module EdgeTests.
Import EdgeStore.

Definition store0 : EdgeStore WalThread := EdgeStore.new.

(** The traversals, with fuel for the edges of the store. *)
Definition test_full_lifecycle_with_chains : bool :=
  let '(e1, store) := insert_edge 0 1 10 100 1 store0 in
  let '(e2, store) := insert_edge 0 2 10 101 1 store in
  let '(e3, store) := insert_edge 0 3 10 102 1 store in
  let '(src_out, dummy) := (NULL_EDGE, NULL_EDGE) in
  let '(src_out, dummy, store) := link_into_chains e3 src_out dummy store in
  let '(src_out, dummy, store) := link_into_chains e2 src_out dummy store in
  let '(src_out, dummy, store) := link_into_chains e1 src_out dummy store in
  let fuel := S (len store) in
  assert_eq! out_edges fuel src_out store, Some [e1; e2; e3];
  let store := (soft_delete e2 100 store).2 in
  assert_eq! out_edges_visible fuel src_out 200 store, Some [e1; e3];
  unwrap! r := unlink_from_chains fuel e2 src_out dummy store;
  let '(_ok, src_out, dummy, store) := r in
  assert_eq! out_edges fuel src_out store, Some [e1; e3];
  true.

Definition test_bidirectional_chains : bool :=
  let '(e1, store) := insert_edge 0 1 0 0 1 store0 in
  let '(e2, store) := insert_edge 0 1 0 0 1 store in
  let '(src_out, dst_in) := (NULL_EDGE, NULL_EDGE) in
  let '(src_out, dst_in, store) := link_into_chains e2 src_out dst_in store in
  let '(src_out, dst_in, store) := link_into_chains e1 src_out dst_in store in
  let fuel := S (len store) in
  assert_eq! out_edges fuel src_out store, Some [e1; e2];
  assert_eq! in_edges fuel dst_in store, Some [e1; e2];
  true.

Definition test_mvcc_snapshot_traversal : bool :=
  let '(e_old, store) := insert_edge 0 1 0 0 1 store0 in
  let '(e_new, store) := insert_edge 0 2 0 0 50 store in
  let '(src_out, dummy) := (NULL_EDGE, NULL_EDGE) in
  let '(src_out, dummy, store) := link_into_chains e_new src_out dummy store in
  let '(src_out, dummy, store) := link_into_chains e_old src_out dummy store in
  assert_eq! out_edges_visible (S (len store)) src_out 30 store, Some [e_old];
  true.

Definition all : list bool :=
  [test_full_lifecycle_with_chains; test_bidirectional_chains; test_mvcc_snapshot_traversal].

Example edge_tests_passed : all = replicate 3 true.
Proof. by vm_compute. Qed.
End EdgeTests.

Module PropTests.
Import PropStore.

Definition v_int (i : Z) : Value := VInt i.
Definition v_str (t : String.string) : Value := VString (str t).

Definition has (k : String.string) (row : list (bytes * Value)) : bool :=
  existsb (fun '(k', _) => bool_decide (k' = str k)) row.

Definition test_multi_label_property_isolation : bool :=
  let '(r0, store) :=
    insert_row 0 [(str "name", v_str "Alice"); (str "age", v_int 30)] (new (W := WalThread)) in
  let '(r1, store) :=
    insert_row 1 [(str "name", v_str "Acme Corp"); (str "employees", v_int 500)] store in
  let user := get_row 0 r0 store in
  assert! has "name" user;
  assert! has "age" user;
  assert! negb (has "employees" user);
  let company := get_row 1 r1 store in
  assert! has "name" company;
  assert! has "employees" company;
  assert! negb (has "age" company);
  true.

Definition test_sparse_property_reads : bool :=
  let store := new (W := WalThread) in
  let store := (insert_prop 0 (str "name") 0 (Some (v_str "Alice")) store).2 in
  let store := (insert_prop 0 (str "name") 2 (Some (v_str "Charlie")) store).2 in
  let store := (insert_prop 0 (str "email") 0 (Some (v_str "alice@example.com")) store).2 in
  let store := (insert_prop 0 (str "email") 1 (Some (v_str "bob@example.com")) store).2 in
  assert_eq! get_prop 0 (str "name") 0 store, Some (v_str "Alice");
  assert_eq! get_prop 0 (str "name") 1 store, None;
  assert_eq! get_prop 0 (str "name") 2 store, Some (v_str "Charlie");
  assert_eq! get_prop 0 (str "email") 0 store, Some (v_str "alice@example.com");
  assert_eq! get_prop 0 (str "email") 1 store, Some (v_str "bob@example.com");
  assert_eq! get_prop 0 (str "email") 2 store, None;
  true.

Definition all : list bool := [test_multi_label_property_isolation; test_sparse_property_reads].

Example prop_tests_passed : all = replicate 2 true.
Proof. by vm_compute. Qed.
End PropTests.

(** ** Recovery of the stores

    A store is flushed and dropped; the next [open] finds what is durable. *)

Module RecoveryTests.

Definition nodes_file (s : NodeStore WalThread) : option bytes := NodeStoreTests.file_of s.
Definition edges_file (s : EdgeStore WalThread) : option bytes := EdgeStoreTests.file_of s.
Definition props_file (s : PropStore WalThread) : option bytes := PropStoreTests.file_of s.

Definition open_nodes (file : option bytes) : io (NodeStore WalThread) := NodeStore.open immediate file.
Definition open_edges (file : option bytes) : io (EdgeStore WalThread) := EdgeStore.open immediate file.
Definition open_props (file : option bytes) : io (PropStore WalThread) := PropStore.open immediate file.

(** [(lo..hi).map(|i| store.insert_node(vec![i], i, 1)).collect()] *)
Definition insert_range (lo hi : Z) (store : NodeStore WalThread) : list Z * NodeStore WalThread :=
  foldl (fun '(ids, store) i =>
    let '(id, store) := insert_node [i] i 1 store in (ids ++ [id], store))
    ([], store) (seqZ lo (hi - lo)).

Definition test_node_store_crash_recovery : bool :=
  ok! store := open_nodes None;
  let '(ids, store) := insert_range 0 10 store in
  ok! store := open_nodes (nodes_file (flush store));
  assert_eq! len store, 10%nat;
  forallb (fun '(i, id) =>
    unwrap! n := get id store;
    assert_eq! Node.labels n, [i];
    assert_eq! Node.props_row n, i;
    true) (combine (seqZ 0 10) ids).

Definition test_node_store_recovery_with_deletes : bool :=
  ok! store := open_nodes None;
  let '(a, store) := insert_node [1] 0 1 store in
  let '(b, store) := insert_node [2] 0 1 store in
  let '(c, store) := insert_node [3] 0 1 store in
  let store := (soft_delete b 10 store).2 in
  let store := (hard_delete c store).2 in
  ok! store := open_nodes (nodes_file (flush store));
  assert_eq! len store, 2%nat;
  assert! is_some (get a store);
  unwrap! n := get b store;
  assert! negb (Node.is_alive n 10);
  assert! is_none (get c store);
  true.

Definition test_node_store_recovery_with_updates : bool :=
  ok! store := open_nodes None;
  let '(id, store) := insert_node [0] 0 1 store in
  let store := (update_labels id [99] 2 store).2 in
  let store := (update_props_row id 42 store).2 in
  let store := (set_first_out id 12345 store).2 in
  ok! store := open_nodes (nodes_file (flush store));
  unwrap! n := get id store;
  assert_eq! Node.labels n, [99];
  assert_eq! Node.props_row n, 42;
  assert_eq! Node.first_out n, 12345;
  true.

Definition test_edge_store_crash_recovery : bool :=
  ok! store := open_edges None;
  let '(e1, store) := EdgeStore.insert_edge 0 1 10 100 1 store in
  let '(e2, store) := EdgeStore.insert_edge 1 2 20 200 1 store in
  ok! store := open_edges (edges_file (EdgeStore.flush store));
  assert_eq! EdgeStore.len store, 2%nat;
  assert_eq! Edge.etype <$> EdgeStore.get e1 store, Some 10;
  assert_eq! Edge.dst <$> EdgeStore.get e2 store, Some 2;
  true.

Definition test_edge_store_recovery_with_delete : bool :=
  ok! store := open_edges None;
  let '(e1, store) := EdgeStore.insert_edge 0 1 1 0 1 store in
  let '(_e2, store) := EdgeStore.insert_edge 1 2 2 0 1 store in
  let store := (EdgeStore.soft_delete e1 50 store).2 in
  ok! store := open_edges (edges_file (EdgeStore.flush store));
  assert_eq! EdgeStore.len store, 2%nat;
  unwrap! e := EdgeStore.get 0 store;
  assert! negb (Edge.is_alive e 50);
  true.

Definition test_prop_store_crash_recovery : bool :=
  ok! store := open_props None;
  let store := (PropStore.insert_row 0
    [(str "name", VString (str "Alice")); (str "age", VInt 30)] store).2 in
  let store := (PropStore.insert_row 0 [(str "name", VString (str "Bob"))] store).2 in
  ok! store := open_props (props_file (PropStore.flush store));
  assert_eq! PropStore.row_count 0 store, 2;
  assert_eq! PropStore.get_prop 0 (str "name") 0 store, Some (VString (str "Alice"));
  assert_eq! PropStore.get_prop 0 (str "name") 1 store, Some (VString (str "Bob"));
  true.

Definition test_full_database_recovery : bool :=
  ok! nodes := open_nodes None;
  ok! edges := open_edges None;
  ok! props := open_props None;
  let '(_a, nodes) := insert_node [1] 0 1 nodes in
  let '(_b, nodes) := insert_node [2] 1 1 nodes in
  let '(_e, edges) := EdgeStore.insert_edge 0 1 10 100 1 edges in
  let '(_r, props) := PropStore.insert_row 0 [(str "k", VInt 1)] props in
  ok! nodes := open_nodes (nodes_file (flush nodes));
  ok! edges := open_edges (edges_file (EdgeStore.flush edges));
  ok! props := open_props (props_file (PropStore.flush props));
  assert_eq! len nodes, 2%nat;
  assert! is_some (get 0 nodes);
  assert! is_some (get 1 nodes);
  assert_eq! EdgeStore.len edges, 1%nat;
  assert_eq! PropStore.row_count 0 props, 1;
  true.

Definition all : list bool :=
  [test_node_store_crash_recovery; test_node_store_recovery_with_deletes;
   test_node_store_recovery_with_updates; test_edge_store_crash_recovery;
   test_edge_store_recovery_with_delete; test_prop_store_crash_recovery;
   test_full_database_recovery].

Example recovery_tests_passed : all = replicate 7 true.
Proof. by vm_compute. Qed.
End RecoveryTests.

(** ** The log of transaction records

    As in [UnitTests.v], no time passes while a test writes. *)

Module WalReplayTests.
#[local] Existing Instance WalTests.test_wal_codec.

Definition write_all (records : list WalRecord) (w : io WalWriter) : io WalWriter :=
  foldl (fun w r => let? w := w in WalTests.write r w) w records.

Definition write_and_replay (records : list WalRecord) : io (list WalRecord) :=
  let? w := write_all records (Ok (WalWriter.open 0 None)) in
  let w := WalWriter.flush 0 w in
  let? reader := WalReader.open (Some (ww_written w)) in
  WalReader.replay reader.

Definition test_roundtrip_single_transaction : bool :=
  ok! recovered := write_and_replay [Begin 1; NodeCreate 1 42 [str "Person"] ∅; Commit 1];
  assert_eq! length recovered, 3%nat;
  assert_eq! recovered !! 0%nat, Some (Begin 1);
  assert_eq! recovered !! 2%nat, Some (Commit 1);
  true.

Definition test_roundtrip_multiple_transactions : bool :=
  let records := flat_map (fun tx =>
    [Begin tx; NodeCreate tx (tx * 10) [str "N"] ∅; Commit tx]) (seqZ 1 10) in
  ok! recovered := write_and_replay records;
  assert_eq! length recovered, 30%nat;
  let begins := omap (fun r => match r with Begin id => Some id | _ => None end) recovered in
  assert_eq! begins, seqZ 1 10;
  true.

Definition count (p : WalRecord -> bool) (l : list WalRecord) : nat := length (List.filter p l).

Definition test_roundtrip_all_record_types : bool :=
  let props := {[ str "k" := VString (str "v") ]} in
  let records := [Begin 1; NodeCreate 1 1 [str "A"] props; NodeUpdate 1 1 props;
    EdgeCreate 1 100 1 2 (str "E") props; EdgeDelete 1 100; NodeDelete 1 1; Rollback 2;
    Checkpoint 1; Commit 1] in
  ok! recovered := write_and_replay records;
  assert_eq! length recovered, length records;
  assert_eq! count (fun r => match r with Begin _ => true | _ => false end) recovered, 1%nat;
  assert_eq! count (fun r => match r with Commit _ => true | _ => false end) recovered, 1%nat;
  assert_eq! count (fun r => match r with Rollback _ => true | _ => false end) recovered, 1%nat;
  assert_eq! count (fun r => match r with Checkpoint _ => true | _ => false end) recovered, 1%nat;
  true.

Definition test_replay_empty_file : bool :=
  ok! reader := WalReader.open (Some []);
  ok! recovered := WalReader.replay reader;
  assert_eq! recovered, [];
  true.

Definition test_replay_preserves_record_order : bool :=
  let records := map (fun i => if i mod 2 =? 0 then Begin i else Commit i) (seqZ 1 50) in
  ok! recovered := write_and_replay records;
  forallb (fun '(i, r) =>
    let expected_id := i + 1 in
    if expected_id mod 2 =? 0 then bool_decide (r = Begin expected_id)
    else bool_decide (r = Commit expected_id))
    (combine (seqZ 0 (Z.of_nat (length recovered))) recovered).

Definition test_replay_includes_rollback_transactions : bool :=
  ok! recovered := write_and_replay [Begin 1; NodeCreate 1 1 [str "X"] ∅; Rollback 1];
  assert_eq! length recovered, 3%nat;
  assert_eq! recovered !! 2%nat, Some (Rollback 1);
  true.

(** [test_wal_write.rs]: the size of the file once flushed. *)
Definition written (records : list WalRecord) : io nat :=
  let? w := write_all records (Ok (WalWriter.open 0 None)) in
  Ok (length (ww_written (WalWriter.flush 0 w))).

Definition grows (records : list WalRecord) : bool :=
  match written records with Ok n => (0 <? n)%nat | _ => false end.

Definition test_write_single_record : bool := grows [Begin 1].

Definition test_write_multiple_records : bool :=
  grows (flat_map (fun i => [Begin i; Commit i]) (seqZ 0 100)).

Definition test_explicit_flush_persists_data : bool := grows [Begin 42; Commit 42].

Definition test_flush_clears_buffer : bool :=
  ok! w := write_all (map Begin (seqZ 0 200)) (Ok (WalWriter.open 0 None));
  let w := WalWriter.flush 0 w in
  ok! w := write_all [Commit 999] (Ok w);
  let _w := WalWriter.flush 0 w in
  true.

Definition test_all_record_types_serialize : bool :=
  let props := {[ str "key" := VInt 42 ]} in
  match written [Begin 1; NodeCreate 1 1 [str "A"] props; NodeUpdate 1 1 props; NodeDelete 1 1;
    EdgeCreate 1 100 1 2 (str "KNOWS") props; EdgeDelete 1 100; Rollback 2; Checkpoint 1; Commit 1]
  with Ok _ => true | _ => false end.

Definition test_checkpoint_written : bool :=
  grows [Begin 1; NodeCreate 1 1 [str "X"] ∅; Commit 1; Checkpoint 1].

Definition all : list bool :=
  [test_roundtrip_single_transaction; test_roundtrip_multiple_transactions;
   test_roundtrip_all_record_types; test_replay_empty_file;
   test_replay_preserves_record_order; test_replay_includes_rollback_transactions;
   test_write_single_record; test_write_multiple_records; test_explicit_flush_persists_data;
   test_flush_clears_buffer; test_all_record_types_serialize;
   test_checkpoint_written].

Example wal_replay_tests_passed : all = replicate 12 true.
Proof. by vm_compute. Qed.
End WalReplayTests.

(** ** Snapshots on disk

    For any serializers with their laws, as in [UnitTests.v]. *)

Module SnapshotFileTests.
Section tests.
Context `{CodecLaws SnapshotData} `{JsonLaws Manifest}.
Import SnapshotManager SnapshotTests.

(** The helpers of both files: [props_row] is the id. *)
Definition node (id : Z) (labels : list Z) (created_tx : Z) : Node :=
  make_node id labels (wrap32 id) created_tx.

Definition edge (id src dst etype : Z) : Edge := make_edge id src dst etype.

Definition file_exists (name : String.string) (fs : Fs) : bool :=
  match dir fs !! str name with Some _ => true | None => false end.

Definition test_read_nonexistent_snapshot : bool :=
  match read_snapshot 999 (dir temp_dir) with Err _ => true | _ => false end.

Definition test_read_snapshot_roundtrip : bool :=
  let nodes := [node 0 [1; 2] 1; node 1 [3] 2] in
  let edges := [edge 100 0 1 10] in
  let props := [(0, str "name", [Some (VString (str "Alice"))])] in
  let '(fs, r) := write_snapshot 5 nodes edges props 2 1 temp_dir in
  ok! _u := r;
  ok! data := read_snapshot 5 (dir fs);
  assert_eq! snapshot_id data, 5;
  assert_eq! version data, 1;
  assert_eq! length (snap_nodes data), 2%nat;
  assert_eq! Node.id <$> snap_nodes data !! 0%nat, Some 0;
  assert_eq! Node.labels <$> snap_nodes data !! 0%nat, Some [1; 2];
  assert_eq! Node.props_row <$> snap_nodes data !! 1%nat, Some 1;
  assert_eq! length (snap_edges data), 1%nat;
  assert_eq! Edge.src <$> snap_edges data !! 0%nat, Some 0;
  assert_eq! Edge.dst <$> snap_edges data !! 0%nat, Some 1;
  assert_eq! next_node_id data, 2;
  assert_eq! next_edge_id data, 1;
  true.

Definition test_recover_from_snapshot_no_wal : bool :=
  let nodes := [node 0 [1] 1; node 1 [2] 2] in
  ok! mgr := new (dir temp_dir);
  let '(fs, mgr, r) := take_snapshot nodes [] [] 2 0 mgr temp_dir in
  ok! _id := r;
  ok! rec := recover mgr (dir fs);
  let '(snap, unmerged) := rec in
  unwrap! data := snap;
  assert_eq! length (snap_nodes data), 2%nat;
  assert_eq! unmerged, [];
  true.

Definition test_recover_without_snapshot_returns_none : bool :=
  ok! mgr := new (dir temp_dir);
  ok! rec := recover mgr (dir temp_dir);
  is_none rec.1.

Definition test_snapshot_versions_are_independent : bool :=
  let '(fs, r) := write_snapshot 1 [node 0 [1] 1] [] [] 1 0 temp_dir in
  ok! _u := r;
  let '(fs, r) := write_snapshot 2 [node 0 [1] 1; node 1 [2] 2] [] [] 2 0 fs in
  ok! _u := r;
  ok! v1 := read_snapshot 1 (dir fs);
  ok! v2 := read_snapshot 2 (dir fs);
  assert_eq! length (snap_nodes v1), 1%nat;
  assert_eq! length (snap_nodes v2), 2%nat;
  assert_ne! snapshot_id v1, snapshot_id v2;
  true.

Definition chain_edge (id dst next_out created_tx : Z) : Edge :=
  {| Edge.id := id; Edge.src := 0; Edge.dst := dst; Edge.etype := 1; Edge.next_out := next_out;
     Edge.next_in := NULL_EDGE; Edge.props_row := 0; Edge.created_tx := created_tx;
     Edge.deleted_tx := MAX_TX_ID |}.

Definition test_snapshot_preserves_edge_chains : bool :=
  let edges := [chain_edge 1 1 2 1; chain_edge 2 2 NULL_EDGE 2] in
  let '(fs, r) := write_snapshot 1 [] edges [] 0 2 temp_dir in
  ok! _u := r;
  ok! data := read_snapshot 1 (dir fs);
  assert_eq! Edge.next_out <$> snap_edges data !! 0%nat, Some 2;
  assert_eq! Edge.next_out <$> snap_edges data !! 1%nat, Some NULL_EDGE;
  true.

Definition test_write_empty_snapshot : bool :=
  let '(fs, r) := write_snapshot 1 [] [] [] 0 0 temp_dir in
  ok! _u := r;
  file_exists "snapshot-0001.bin" fs.

(** The file is not empty. *)
Definition test_write_snapshot_with_data : bool :=
  let nodes := [node 0 [1] 1; node 1 [2] 2] in
  let edges := [edge 100 0 1 10] in
  let props := [(0, str "k", [Some (VInt 42)])] in
  let '(fs, r) := write_snapshot 1 nodes edges props 2 1 temp_dir in
  ok! _u := r;
  match dir fs !! str "snapshot-0001.bin" with
  | Some contents => (0 <? length contents)%nat
  | None => false
  end.

Definition test_write_large_snapshot : bool :=
  let nodes := map (fun i => node i [1] 1) (seqZ 0 1000) in
  let edges := map (fun i => edge i i (i + 1) 1) (seqZ 0 500) in
  let '(fs, r) := write_snapshot 1 nodes edges [] 1000 500 temp_dir in
  ok! _u := r;
  ok! data := read_snapshot 1 (dir fs);
  assert_eq! length (snap_nodes data), 1000%nat;
  assert_eq! length (snap_edges data), 500%nat;
  true.

Definition test_multiple_snapshots_accumulate : bool :=
  let '(fs, r) := write_snapshot 1 [node 0 [1] 1] [] [] 1 0 temp_dir in
  ok! _u := r;
  let '(fs, r) := write_snapshot 2 [node 0 [1] 1; node 1 [2] 2] [] [] 2 0 fs in
  ok! _u := r;
  assert! file_exists "snapshot-0001.bin" fs;
  assert! file_exists "snapshot-0002.bin" fs;
  ok! v1 := read_snapshot 1 (dir fs);
  ok! v2 := read_snapshot 2 (dir fs);
  assert_eq! length (snap_nodes v1), 1%nat;
  assert_eq! length (snap_nodes v2), 2%nat;
  true.

Definition test_manager_should_snapshot_rules : bool :=
  ok! mgr := new (dir temp_dir);
  assert! should_snapshot mgr;
  let '(fs, mgr, r) := take_snapshot [node 0 [1] 1] [] [] 1 0 mgr temp_dir in
  ok! _id := r;
  assert! negb (should_snapshot mgr);
  let mgr := add_wal_bytes 600000000 mgr in
  should_snapshot mgr.

Definition test_manager_manifest_persistence : bool :=
  ok! mgr := new (dir temp_dir);
  let '(fs, mgr, r) := take_snapshot [node 0 [1] 1] [] [] 1 0 mgr temp_dir in
  ok! _id := r;
  let '(fs, mgr, r) := merge_wal (str "nodes.wal") mgr fs in
  ok! _u := r;
  ok! mgr := new (dir fs);
  let m := manifest mgr in
  assert_eq! latest_snapshot_id m, 1;
  assert! bool_decide (str "nodes.wal" ∈ merged_wal_files m);
  true.

Definition test_snapshot_preserves_all_property_types : bool :=
  let props := [(0, str "str_col", [Some (VString (str "hello"))]); (0, str "int_col", [Some (VInt 42)]);
                (0, str "bool_col", [Some (VBool true)]); (0, str "null_col", [None])] in
  let '(fs, r) := write_snapshot 1 [node 0 [0] 1] [] props 1 0 temp_dir in
  ok! _u := r;
  ok! data := read_snapshot 1 (dir fs);
  assert_eq! length (prop_columns data), 4%nat;
  true.
(** [test_recovery_full.rs]. The node store's log is a file of the directory. *)

Definition with_log (s : NodeStore WalThread) (fs : Fs) : Fs :=
  {| dir := match RecoveryTests.nodes_file s with
            | Some bs => <[str "nodes.wal" := bs]> (dir fs)
            | None => dir fs
            end;
     trail := trail fs |}.

Definition all_nodes (s : NodeStore WalThread) : list Node :=
  omap (fun id => get id s) (visible_nodes (u64_max - 1) s).

Definition test_snapshot_then_wal_recovery : bool :=
  ok! store := RecoveryTests.open_nodes None;
  let store := (insert_node [1] 0 1 store).2 in
  let store := (insert_node [2] 1 1 store).2 in
  let store := flush store in
  let nodes := all_nodes store in
  let fs := with_log store temp_dir in
  ok! mgr := new (dir fs);
  let '(fs, mgr, r) := take_snapshot nodes [] [] 2 0 mgr fs in
  ok! _id := r;
  ok! store := RecoveryTests.open_nodes (RecoveryTests.nodes_file store);
  let store := (insert_node [3] 2 1 store).2 in
  let store := (insert_node [4] 3 1 store).2 in
  let fs := with_log (flush store) fs in
  ok! mgr := new (dir fs);
  ok! rec := recover mgr (dir fs);
  unwrap! data := rec.1;
  assert_eq! length (snap_nodes data), 2%nat;
  assert_eq! next_node_id data, 2;
  true.

Definition test_full_recovery_pipeline : bool :=
  ok! store := RecoveryTests.open_nodes None;
  let store := flush (RecoveryTests.insert_range 0 5 store).2 in
  let fs := with_log store temp_dir in
  ok! store := RecoveryTests.open_nodes (RecoveryTests.nodes_file store);
  ok! mgr := new (dir fs);
  let '(fs, mgr, r) := take_snapshot (all_nodes store) [] [] 5 0 mgr fs in
  ok! _id := r;
  ok! store := RecoveryTests.open_nodes (RecoveryTests.nodes_file store);
  let store := flush (RecoveryTests.insert_range 5 10 store).2 in
  let fs := with_log store fs in
  ok! mgr := new (dir fs);
  ok! rec := recover mgr (dir fs);
  unwrap! data := rec.1;
  assert_eq! length (snap_nodes data), 5%nat;
  assert_eq! next_node_id data, 5;
  true.

Definition test_recovery_snapshot_includes_deleted_state : bool :=
  ok! store := RecoveryTests.open_nodes None;
  let store := (insert_node [1] 0 1 store).2 in
  let '(b, store) := insert_node [2] 1 1 store in
  let store := (insert_node [3] 2 1 store).2 in
  let store := flush (soft_delete b 10 store).2 in
  let nodes := omap (fun id => get id store) [0; 1; 2] in
  let fs := with_log store temp_dir in
  ok! mgr := new (dir fs);
  let '(fs, mgr, r) := take_snapshot nodes [] [] 3 0 mgr fs in
  ok! _id := r;
  ok! mgr := new (dir fs);
  ok! rec := recover mgr (dir fs);
  unwrap! data := rec.1;
  unwrap! deleted_node := find (fun n => Node.id n =? 1) (snap_nodes data);
  assert_eq! Node.deleted_tx deleted_node, 10;
  true.

Definition test_manifest_survives_empty_database : bool :=
  ok! mgr := new (dir temp_dir);
  assert_eq! latest_snapshot_id (manifest mgr), 0;
  ok! mgr2 := new (dir temp_dir);
  assert_eq! latest_snapshot_id (manifest mgr2), 0;
  true.

(** 95.5 and 87.0 *)
Definition f_95_5 : Value := VFloat (SpecFloat.binary_normalize 53 1024 191 (-1) false).
Definition f_87 : Value := VFloat (f64_of_Z 87).

Definition test_recover_snapshot_with_properties : bool :=
  let nodes := [make_node 0 [0] 0 1; make_node 1 [0] 1 1] in
  let props := [(0, str "name", [Some (VString (str "Alice")); Some (VString (str "Bob"))]);
                (0, str "score", [Some f_95_5; Some f_87])] in
  ok! mgr := new (dir temp_dir);
  let '(fs, mgr, r) := take_snapshot nodes [] props 2 0 mgr temp_dir in
  ok! _id := r;
  ok! mgr := new (dir fs);
  ok! rec := recover mgr (dir fs);
  unwrap! data := rec.1;
  assert_eq! length (prop_columns data), 2%nat;
  unwrap! col0 := prop_columns data !! 0%nat;
  unwrap! col1 := prop_columns data !! 1%nat;
  assert_eq! snd (fst col0), str "name";
  assert_eq! snd col0 !! 0%nat, Some (Some (VString (str "Alice")));
  assert_eq! snd col1 !! 0%nat, Some (Some f_95_5);
  true.

Definition all : list bool :=
  [test_read_nonexistent_snapshot; test_read_snapshot_roundtrip; test_recover_from_snapshot_no_wal;
   test_recover_without_snapshot_returns_none; test_snapshot_versions_are_independent;
   test_snapshot_preserves_edge_chains; test_write_empty_snapshot; test_write_snapshot_with_data;
   test_write_large_snapshot; test_multiple_snapshots_accumulate; test_manager_should_snapshot_rules;
   test_manager_manifest_persistence; test_snapshot_preserves_all_property_types;
   test_snapshot_then_wal_recovery; test_full_recovery_pipeline;
   test_recovery_snapshot_includes_deleted_state; test_manifest_survives_empty_database;
   test_recover_snapshot_with_properties].

(** What a written snapshot leaves in the directory. *)
Lemma write_leaves id nodes edges props nn ne fs :
  exists fs', write_snapshot id nodes edges props nn ne fs = (fs', Ok tt) /\
    is_Some (dir fs' !! snapshot_file id) /\
    (forall f, f ≠ snapshot_file id -> dir fs' !! f = dir fs !! f) /\
    forall d, d !! snapshot_file id = dir fs' !! snapshot_file id ->
      read_snapshot id d = Ok (mkSnapshotData 1 id nodes edges props nn ne).
Proof.
  unfold write_snapshot.
  destruct (serialize_total (mkSnapshotData 1 id nodes edges props nn ne)) as [bs Hbs].
  rewrite Hbs. eexists. split; [done|]. rewrite dir_write_all. cbn [dir Fs.create].
  rewrite insert_insert_eq, lookup_insert_eq. split; [done|]. split.
  - intros f Hf. by apply lookup_insert_ne.
  - intros d Hd. unfold read_snapshot. rewrite Hd. by rewrite (deserialize_serialize _ _ Hbs).
Qed.

(** The manager of a directory without a manifest, and what it is after its
    first snapshot. *)
Definition fresh : SnapshotManager :=
  {| manifest := Manifest.empty; wal_bytes_since_snapshot := 0; snapshot_interval_bytes := 536870912 |}.

Definition reopened : SnapshotManager :=
  {| manifest := next_manifest fresh; wal_bytes_since_snapshot := 0;
     snapshot_interval_bytes := 536870912 |}.

Lemma new_fresh d : d !! manifest_file = None -> new d = Ok fresh.
Proof. intros Hd. unfold new, Manifest.read. by rewrite Hd. Qed.

(** The first snapshot, in any directory [d] that has its two files. *)
Lemma first_snapshot nodes edges props nn ne fs :
  exists fs' s', take_snapshot nodes edges props nn ne fresh fs = (fs', s', Ok 1) /\
    s' = reopened /\
    forall d, d !! manifest_file = dir fs' !! manifest_file ->
      d !! snapshot_file 1 = dir fs' !! snapshot_file 1 ->
      new d = Ok reopened /\
      exists files, recover reopened d = Ok (Some (next_data nodes edges props nn ne fresh), files).
Proof.
  destruct (take_snapshot_run nodes edges props nn ne fresh fs) as (encoded & json & He & Hj & Hrun);
    [done|]. rewrite Hrun. eexists _, _. split; [done|]. split; [done|].
  intros d Hm Hs. rewrite dir_write, dir_write_all in Hm, Hs. cbn [dir Fs.create] in Hm, Hs.
  rewrite lookup_insert_eq in Hm. change (latest_snapshot_id (manifest fresh) + 1) with 1 in Hs.
  rewrite lookup_insert_ne, lookup_insert_eq in Hs by done. split.
  - unfold new, Manifest.read. rewrite Hm, (to_string_utf8 _ _ Hj). cbn iota.
    by rewrite (from_to_string _ _ Hj).
  - eexists. unfold recover, load_latest. cbn [manifest reopened latest_snapshot_id next_manifest].
    change (_ =? 0) with false. cbn iota. change (latest_snapshot_id (manifest fresh) + 1) with 1.
    unfold read_snapshot. rewrite Hs, (deserialize_serialize _ _ He). reflexivity.
Qed.
(** One written snapshot, read back. *)
Ltac read_back := cbv zeta; match goal with |- context [write_snapshot ?id ?n ?e ?p ?nn ?ne ?fs] =>
  let Hr := fresh "Hr" in
  destruct (write_leaves id n e p nn ne fs) as (? & -> & _ & _ & Hr); rewrite (Hr _ eq_refl); by vm_compute end.

Lemma single_snapshots_passed :
  [test_read_snapshot_roundtrip; test_snapshot_preserves_edge_chains; test_write_large_snapshot;
   test_snapshot_preserves_all_property_types] = replicate 4 true.
Proof.
  unfold test_read_snapshot_roundtrip, test_snapshot_preserves_edge_chains, test_write_large_snapshot,
    test_snapshot_preserves_all_property_types. simpl replicate.
  f_equal; [read_back|]. f_equal; [read_back|]. f_equal; [read_back|]. f_equal. read_back.
Qed.

Lemma file_exists_at id name fs :
  snapshot_file id = str name -> is_Some (dir fs !! snapshot_file id) -> file_exists name fs = true.
Proof. unfold file_exists. intros <- [bs ->]. done. Qed.

Lemma empty_passed : test_write_empty_snapshot = true.
Proof.
  unfold test_write_empty_snapshot. destruct (write_leaves 1 [] [] [] 0 0 temp_dir) as (fs & -> & He & _).
  by apply (file_exists_at 1).
Qed.

Lemma with_data_passed :
  (forall d, serialize d ≠ Some []) -> test_write_snapshot_with_data = true.
Proof.
  intros Hne. unfold test_write_snapshot_with_data, write_snapshot. cbv zeta.
  match goal with |- context [serialize ?d] => destruct (serialize_total d) as [bs Hbs] end.
  rewrite Hbs. cbv beta iota zeta. rewrite dir_write_all.
  change (str "snapshot-0001.bin") with (snapshot_file 1). rewrite lookup_insert_eq.
  destruct bs; [by apply Hne in Hbs|done].
Qed.

(** Two snapshots, both still there. *)
Lemma two_snapshots n1 n2 :
  exists fs1 fs2, write_snapshot 1 n1 [] [] 1 0 temp_dir = (fs1, Ok tt) /\
    write_snapshot 2 n2 [] [] 2 0 fs1 = (fs2, Ok tt) /\
    is_Some (dir fs2 !! snapshot_file 1) /\ is_Some (dir fs2 !! snapshot_file 2) /\
    read_snapshot 1 (dir fs2) = Ok (mkSnapshotData 1 1 n1 [] [] 1 0) /\
    read_snapshot 2 (dir fs2) = Ok (mkSnapshotData 1 2 n2 [] [] 2 0).
Proof.
  destruct (write_leaves 1 n1 [] [] 1 0 temp_dir) as (fs1 & H1w & H1e & _ & H1r).
  destruct (write_leaves 2 n2 [] [] 2 0 fs1) as (fs2 & H2w & H2e & H2o & H2r).
  exists fs1, fs2. assert (dir fs2 !! snapshot_file 1 = dir fs1 !! snapshot_file 1) as Heq by by apply H2o.
  rewrite Heq. auto 10.
Qed.

Lemma several_passed :
  test_snapshot_versions_are_independent = true /\ test_multiple_snapshots_accumulate = true.
Proof.
  destruct (two_snapshots [node 0 [1] 1] [node 0 [1] 1; node 1 [2] 2]) as (fs1 & fs2 & W1 & W2 & E1 & E2 & R1 & R2).
  unfold test_snapshot_versions_are_independent, test_multiple_snapshots_accumulate.
  rewrite W1. cbv beta iota zeta. rewrite W2, R1, R2, (file_exists_at 1), (file_exists_at 2) by done.
  split; by vm_compute.
Qed.

(** The first snapshot in a directory without a manifest; the tests then open
    the directory again, perhaps with a longer node log. *)
Lemma no_manifest s : dir (with_log s temp_dir) !! manifest_file = None.
Proof.
  unfold with_log. cbn [dir]. destruct (RecoveryTests.nodes_file s); [|done]. by rewrite lookup_insert_ne.
Qed.

Lemma log_elsewhere s fs f : f ≠ str "nodes.wal" -> dir (with_log s fs) !! f = dir fs !! f.
Proof.
  intros Hf. unfold with_log. cbn [dir]. destruct (RecoveryTests.nodes_file s); [|done].
  by apply lookup_insert_ne.
Qed.

Lemma first_properties_passed : test_recover_snapshot_with_properties = true.
Proof.
  unfold test_recover_snapshot_with_properties. rewrite (new_fresh (dir temp_dir)) by done. cbv beta iota zeta.
  match goal with |- context [take_snapshot ?n ?e ?p ?nn ?ne _ ?fs] =>
    destruct (first_snapshot n e p nn ne fs) as (fs' & s' & -> & -> & Hd) end.
  destruct (Hd (dir fs') eq_refl eq_refl) as [-> [files ->]]. by vm_compute.
Qed.

Lemma first_passed :
  test_recover_from_snapshot_no_wal = true /\ test_manager_should_snapshot_rules = true.
Proof.
  unfold test_recover_from_snapshot_no_wal, test_manager_should_snapshot_rules.
  rewrite (new_fresh (dir temp_dir)) by done. cbv beta iota zeta. split.
  - destruct (take_recover [node 0 [1] 1; node 1 [2] 2] [] [] 2 0 fresh temp_dir)
      as (fs' & s' & -> & _ & _ & _ & _ & _ & ->); [done|done|]. by vm_compute.
  - destruct (first_snapshot [node 0 [1] 1] [] [] 1 0 temp_dir) as (fs' & s' & -> & -> & _). by vm_compute.
Qed.

Lemma persistence_passed : test_manager_manifest_persistence = true.
Proof.
  unfold test_manager_manifest_persistence. rewrite (new_fresh (dir temp_dir)) by done. cbv beta iota zeta.
  destruct (first_snapshot [node 0 [1] 1] [] [] 1 0 temp_dir) as (fs' & s' & -> & -> & _). cbv beta iota zeta.
  unfold merge_wal. match goal with |- context [Manifest.write ?m fs'] =>
    destruct (read_write m fs') as (fs2 & -> & Hr) end.
  cbv beta iota zeta. unfold new. rewrite Hr. by vm_compute.
Qed.

(** The opened stores are computed; what the snapshot leaves is not. *)
Ltac opened := match goal with |- context [RecoveryTests.open_nodes ?f] =>
  let s := fresh "store" in let Ho := fresh "Ho" in
  destruct (RecoveryTests.open_nodes f) as [s| |] eqn:Ho; vm_compute in Ho; [injection Ho as <-|discriminate..];
  cbv beta iota zeta end.

Ltac snapshot := rewrite (new_fresh (dir (with_log _ _))) by apply no_manifest; cbv beta iota zeta;
  match goal with |- context [take_snapshot ?n ?e ?p ?nn ?ne _ ?fs] =>
    let Hd := fresh "Hd" in
    destruct (first_snapshot n e p nn ne fs) as (? & ? & -> & -> & Hd); cbv beta iota zeta end.

Lemma then_wal_passed : test_snapshot_then_wal_recovery = true.
Proof.
  unfold test_snapshot_then_wal_recovery. opened. snapshot. opened.
  match goal with |- context [with_log ?s ?fs] =>
    destruct (Hd (dir (with_log s fs))) as [-> [files ->]]; [by apply log_elsewhere..|] end.
  by vm_compute.
Qed.

Lemma pipeline_passed : test_full_recovery_pipeline = true.
Proof.
  unfold test_full_recovery_pipeline. opened. opened. snapshot. opened.
  match goal with |- context [with_log ?s ?fs] =>
    destruct (Hd (dir (with_log s fs))) as [-> [files ->]]; [by apply log_elsewhere..|] end.
  by vm_compute.
Qed.

Lemma deleted_passed : test_recovery_snapshot_includes_deleted_state = true.
Proof.
  unfold test_recovery_snapshot_includes_deleted_state. opened.
  destruct (insert_node [2] 1 1 _) as [b s] eqn:Hb. vm_compute in Hb. injection Hb as <- <-. snapshot.
  destruct (Hd _ eq_refl eq_refl) as [-> [files ->]]. by vm_compute.
Qed.

(** A serialized snapshot is not empty: bincode writes its version first. *)
Lemma snapshot_file_tests_passed :
  (forall d, serialize d ≠ Some []) -> all = replicate 18 true.
Proof.
  intros Hne. unfold all. rewrite (with_data_passed Hne). pose proof single_snapshots_passed as Hs. injection Hs as -> -> -> ->.
  destruct several_passed as [-> ->]. destruct first_passed as [-> ->].
  rewrite empty_passed, first_properties_passed, persistence_passed, then_wal_passed, pipeline_passed,
    deleted_passed. by vm_compute.
Qed.
End tests.
End SnapshotFileTests.
